(* ===== verification/_CoqProject ===== *)
-Q . S2P
Prelude.v
RustStd.v
Address.v
AnyTlsTypes.v
Padding.v
AsyncStream.v
AnyTlsLocation.v
StreamReader.v
Varint.v
Hysteria2Tcp.v
LruCache.v
Resolver.v
Dial.v
Hysteria2Udp.v
Hysteria2UdpRelay.v
QuicStream.v
CopyBidirectional.v
Hysteria2Stream.v
Hysteria2Conn.v
Hysteria2EndToEnd.v
VlessStream.v
PacketStream.v
WellTyped.v
Sockets.v
UdpCopy.v
UdpRouting.v
Pointers.v
AnyTlsStream.v
AnyTlsSession.v
AnyTlsRecv.v
AnyTlsForward.v
AnyTlsServer.v
AnyTlsEndToEnd.v
TlsConfig.v
Servers.v
Main.v
