(* ===== verification/Prelude.v ===== *)
(** * A verification library for rust-proxy-server

    The program is a proxy server for two protocols.  A Hysteria2 client opens a QUIC
    connection, authenticates with an HTTP/3 request, and then opens streams, each a
    request to connect to a target, and sends datagrams, each a piece of a UDP packet.
    An AnyTLS client opens a TLS connection, sends the hash of a password, and then
    multiplexes streams over it in frames, each stream starting with its target or
    with the name that asks for UDP over TCP.  Both end in the same places: a target is
    resolved and dialled, and the two sides are copied.

    ** Files, and the sources they model (under src/src)

    Foundations
    - [Prelude]: bytes, machine integers, the [res] type of outcomes and the state and
      error monad [M]; tactics, hints and the list lemmas the others share.
    - [RustStd]: what the sources use of the Rust standard library: UTF-8, decimal and
      hexadecimal text, splitting and trimming, IP addresses parsed and printed.
    - [AsyncStream]: the stream traits of async_stream.rs as type classes with laws, and
      the loops of util.rs.  [StreamReader]: stream_reader.rs.
    - [LruCache]: the interface of the lru crate, with a map that implements it.

    Addresses and dialling
    - [Address]: address.rs.  [Resolver]: resolver.rs, as two critical sections.
    - [Dial]: dial.rs and socket_util.rs over the interface [SocketSys] of the system, and
      [System], an implementation that records the calls and lets any of them fail.

    Copying
    - [CopyBidirectional]: copy_bidirectional.rs.  [QuicStream]: quic_stream.rs.
    - [VlessStream], [PacketStream]: the two message streams of message_stream.rs.
    - [Sockets]: the traits' implementations for sockets, and the interface
      [MessageStream] the relays are proved against.
    - [UdpCopy], [UdpRouting]: the two relays of udp_relay.rs.
    - [Pointers]: the traits' implementations for [Box] and [&mut].

    Hysteria2 (hysteria2.rs)
    - [Varint], [Hysteria2Tcp]: the request of a stream.  [Hysteria2Stream]: the stream.
    - [Hysteria2Udp]: both UDP loops, with fragmentation.  [Hysteria2UdpRelay]: the
      loops as a whole, from a client's datagrams to the sockets and back.
    - [Hysteria2Conn]: authentication and the three loops of a connection.
    - [Hysteria2EndToEnd]: the parts together, from the connection to the targets.

    AnyTLS (anytls/)
    - [AnyTlsTypes]: types.rs.  [Padding]: padding.rs.  [AnyTlsStream]: stream.rs.
    - [AnyTlsSession]: the state of session.rs, its frame handler, its writer with
      padding and its outgoing loop.  [AnyTlsRecv]: the receive loop.
    - [AnyTlsLocation], [AnyTlsForward]: what the task of a stream does.
    - [AnyTlsServer]: a connection of server.rs: authentication, fallback, session.
    - [AnyTlsEndToEnd]: the parts together, from a client's bytes to a destination's.

    The program
    - [TlsConfig]: tls_config.rs.  [Servers]: [run_server] of both protocols, and their
      accept loops.  [Main]: config.rs and main.rs.
    - [WellTyped]: the values every parser of a location returns fit their Rust types.

    ** How the code is translated

    A function is a function with the source's name where there is one.  An operation on
    a [&mut] is a function from the state to an outcome and the state after it; [?] is
    the bind of [M].  An outcome is [Ok], [Err] with the error's kind and message,
    [Panic], or [OutOfFuel].  Error messages keep their fixed part and what is needed to
    tell the cases apart.  Integers are [Z] with their wrapping written out; indices are
    [nat]; byte strings are lists of bytes.

    A poll is a function that is [Pending] or [Ready]; an [.await] polls until it is
    ready, and a stream says how often that may be not so ([waits], [write_waits]), so
    that an await is a total function.  Tasks that run at once are modelled by what they
    share: the resolver as a machine whose steps are its critical sections, the session
    with a relation that every other task keeps, the accept loops as machines that take
    the runtime's events, the relays under every schedule of polls, and the three loops
    of a Hysteria2 connection, joined by [try_join!], under every schedule of turns.
    A pointer is a value with a place in it: a [Box] is all place, a [&mut] a place in
    its owner.

    Code that is not in the repository is an interface: a class of operations, with the
    documented behaviour the proofs rely on as the laws of a second class, or a function
    that is a parameter.  These are the transports, sockets and datagrams, the system
    calls and resolver, the lru crate, quinn, h3, http, rustls, rcgen and the PEM reader,
    serde's YAML, SHA-256, MD5, the random generators, [tokio::io::split], the abort of
    a task and the clock.  Every law class has an instance, with which each property is run.

    ** What is proved

    - Copying: a copy gives each side exactly what the other sent, in order; a prefix
      while it runs or after an error; it never panics, and every poll returns.
    - Formats: frames, varints, requests, addresses, settings and packets read back as
      they were written, and parsers agree with plain definitions on lists of bytes.
    - Readers and streams: the buffered reader refines the list of bytes sent; the
      AnyTLS, VLESS and packet streams deliver in order under any sequence of calls.
    - Sessions: frames are handled in the order of the bytes, each stream gets its own
      data and then its end; what is written decodes to the frames, padded or not.
    - Service: what a user sends on an AnyTLS stream reaches the destination the stream
      names, and back; every stream of a Hysteria2 client is given a task, which
      relays it to the target it asks for; when a target cannot be reached the client
      is told; the packets of a Hysteria2 UDP session go out on its socket and the
      replies come back whole, in order, however they are cut and interleaved; UDP over
      TCP is relayed message by message, to one destination or to many, and the tasks
      of the router are those of its sessions.
    - Access: only a client with a configured password gets past either server's
      authentication; the fallback is transparent; nothing runs before authentication.
    - Resources: the cache stays within its size and age, connections within their
      limit, and no permit is lost; system calls are exactly those listed.
    - Types: a location read from the network or from text fits the types it is kept
      in; a stream behind a pointer behaves as the stream.
    - Start-up: options and configuration mean what they say; a failed start is
      reported, but for the socket of a Hysteria2 server, which is not.
    - Defects: theorems that show a panic, a wrong length, a session removed in use and
      the like are stated as the code behaves.

    ** Fuel

    Loops whose recursion is not structural take fuel.  Where a theorem says that a
    function returns, the fuel in its definition is shown to be enough ([waits] and
    [write_waits] for an await, the length of what is left to write for a write loop,
    two rounds and four for each message of a relay); where a run is a parameter (a
    schedule of polls, a trace of events) the theorem holds for every run.

    ** Not modelled

    Logging outside main.rs; the parts compiled only for other systems than Linux;
    timers, which appear as an outcome an operation may have; the inside of the
    interfaces listed above; the scope of an IPv6 listen address, which is read and
    dropped; [Drop] of values that only free memory. *)

From Stdlib Require Export ZArith Lia Strings.Byte.
From Stdlib Require Import String.
From stdpp Require Export base tactics numbers option list gmap.

#[global] Open Scope Z_scope.
#[global] Set Default Goal Selector "!".

(** ** Bytes and machine integers

    A [u8] is a [byte]; every wider unsigned integer is a [Z] whose wrap-around
    is written out.  [b2z] and [z2b] are the [as] casts between them. *)

Abbreviation bytes := (list byte).

Definition b2z (b : byte) : Z := Z.of_N (Byte.to_N b).

Definition z2b (z : Z) : byte :=
  match Byte.of_N (Z.to_N (z mod 256)) with Some b => b | None => x00 end.

Definition wrap (w z : Z) : Z := z mod 2 ^ w.

(** [Instant::elapsed], which saturates at zero; times are nanoseconds. *)
Definition elapsed (now t : Z) : Z := Z.max 0 (now - t).

(** [to_be_bytes] of an [n]-byte integer, most significant byte first. *)
Fixpoint be_encode (n : nat) (z : Z) : bytes :=
  match n with
  | O => []
  | S n' => z2b (Z.shiftr z (8 * Z.of_nat n')) :: be_encode n' z
  end.

(** [from_be_bytes]. *)
Definition be_step (acc : Z) (b : byte) : Z := acc * 256 + b2z b.
Definition be_decode (bs : bytes) : Z := foldl be_step 0 bs.

(** A Rust string literal, as its bytes. *)
Definition str (s : string) : bytes := list_byte_of_string s.
Arguments str _%_string_scope.

(** ** Results

    [io::Result], extended with the two outcomes a Rust function can have
    besides returning: a panic (a failed [assert!], an index out of bounds, an
    [unwrap] of [None]), and, for a loop written with fuel, running out of it. *)

Inductive error_kind : Set :=
| InvalidData | InvalidInput | PermissionDenied | ConnectionAborted
| UnexpectedEof | BrokenPipe | WriteZero | TimedOut | Unsupported
| Interrupted | WouldBlock | Other
| OsError (code : Z).

Record io_error : Set := IoError { err_kind : error_kind; err_msg : bytes }.

Definition io_err (k : error_kind) (m : string) : io_error := IoError k (str m).
Arguments io_err _ _%_string_scope.

Inductive res (A : Type) : Type :=
| Ok (a : A)
| Err (e : io_error)
| Panic (why : string)
| OutOfFuel.
Arguments Ok {A} _.
Arguments Err {A} _.
Arguments Panic {A} _.
Arguments OutOfFuel {A}.

#[export] Instance res_ret : MRet res := fun A a => Ok a.
#[export] Instance res_bind : MBind res := fun A B k m =>
  match m with
  | Ok a => k a
  | Err e => Err e
  | Panic w => Panic w
  | OutOfFuel => OutOfFuel
  end.
#[export] Instance res_fmap : FMap res := fun A B f m => m ≫= fun a => Ok (f a).

Definition is_ok {A} (r : res A) : bool := match r with Ok _ => true | _ => false end.
Definition panics {A} (r : res A) : bool := match r with Panic _ => true | _ => false end.

(** [Option::ok_or_else]. *)
Definition ok_or {A} (o : option A) (e : io_error) : res A :=
  match o with Some a => Ok a | None => Err e end.

(** Effectful code: the state it has when it stops, whatever the outcome. *)
Definition M (S A : Type) : Type := S → res A * S.

#[export] Instance M_ret {S} : MRet (M S) := fun A a s => (Ok a, s).
#[export] Instance M_bind {S} : MBind (M S) := fun A B k m s =>
  match m s with
  | (Ok a, s') => k a s'
  | (Err e, s') => (Err e, s')
  | (Panic w, s') => (Panic w, s')
  | (OutOfFuel, s') => (OutOfFuel, s')
  end.

Definition lift {S A} (r : res A) : M S A := fun s => (r, s).
Definition throw {S A} (e : io_error) : M S A := fun s => (Err e, s).
Definition get {S} : M S S := fun s => (Ok s, s).
Definition put {S} (s : S) : M S unit := fun _ => (Ok tt, s).
Definition modify {S} (f : S → S) : M S unit := fun s => (Ok tt, f s).

(** ** Decidable equality *)

#[export] Instance byte_eq_dec : EqDecision byte := Byte.byte_eq_dec.

#[export] Instance byte_countable : Countable byte :=
  inj_countable Byte.to_N Byte.of_N Byte.of_to_N.

#[export] Instance error_kind_eq_dec : EqDecision error_kind.
Proof. solve_decision. Defined.
#[export] Instance io_error_eq_dec : EqDecision io_error.
Proof. solve_decision. Defined.
#[export] Instance string_eq_dec' : EqDecision string := String.string_dec.
#[export] Instance res_eq_dec {A} `{EqDecision A} : EqDecision (res A).
Proof. solve_decision. Defined.

(** ** Slices

    [slice a b l] is [&l[a..b]]; [splice off new l] is
    [l[off..off + new.len()].copy_from_slice(new)].  Both are total here; the
    code's bounds checks are written out where it makes them. *)

Definition slice {A} (a b : nat) (l : list A) : list A := take (b - a) (drop a l).

Definition splice {A} (off : nat) (new l : list A) : list A :=
  take off l ++ new ++ drop (off + length new) l.

(** [Box<[u8]>::copy_within(a..b, 0)]. *)
Definition copy_within0 {A} (a b : nat) (l : list A) : list A :=
  splice 0 (slice a b l) l.

(** ** Automation *)

Create HintDb proxy.
Create Rewrite HintDb proxy.

(** Split the first [match] or [if] of the goal, remembering the equation. *)
Ltac case_match_eqn :=
  match goal with
  | |- context [match ?x with _ => _ end] => destruct x eqn:?
  end.

(** The same in a hypothesis. *)
Ltac case_in H :=
  match type of H with
  | context [match ?x with _ => _ end] => destruct x eqn:?
  end.

(** Turn boolean integer tests into propositions. *)
Ltac zbool :=
  repeat match goal with
  | H : (_ <? _) = true |- _ => apply Z.ltb_lt in H
  | H : (_ <? _) = false |- _ => apply Z.ltb_ge in H
  | H : (_ <=? _) = true |- _ => apply Z.leb_le in H
  | H : (_ <=? _) = false |- _ => apply Z.leb_gt in H
  | H : (_ =? _) = true |- _ => apply Z.eqb_eq in H
  | H : (_ =? _) = false |- _ => apply Z.eqb_neq in H
  | H : (_ <? _)%nat = true |- _ => apply Nat.ltb_lt in H
  | H : (_ <? _)%nat = false |- _ => apply Nat.ltb_ge in H
  | H : (_ <=? _)%nat = true |- _ => apply Nat.leb_le in H
  | H : (_ <=? _)%nat = false |- _ => apply Nat.leb_gt in H
  | H : (_ =? _)%nat = true |- _ => apply Nat.eqb_eq in H
  | H : (_ =? _)%nat = false |- _ => apply Nat.eqb_neq in H
  | H : (_ && _) = true |- _ => apply andb_prop in H; destruct H
  | H : negb _ = true |- _ => apply negb_true_iff in H
  | H : negb _ = false |- _ => apply negb_false_iff in H
  end.

(** Unfold the monad's operations. *)
Ltac run_in H := cbv beta iota delta [lift throw get put modify mret M_ret mbind M_bind] in H.
Ltac run := cbv beta iota delta [lift throw get put modify mret M_ret mbind M_bind].

(** Length side conditions on slices. *)
Ltac len :=
  unfold slice, splice, copy_within0 in *;
  repeat rewrite ?length_app, ?length_take, ?length_drop, ?length_cons,
    ?length_nil in *;
  lia.

(** ** Lemmas on bytes and big-endian integers *)

Lemma b2z_range b : 0 ≤ b2z b < 256.
Proof. unfold b2z. destruct b; cbn; lia. Qed.

Lemma b2z_z2b z : b2z (z2b z) = z mod 256.
Proof.
  unfold b2z, z2b.
  pose proof (Z.mod_pos_bound z 256 ltac:(lia)) as Hr.
  destruct (Byte.of_N (Z.to_N (z mod 256))) as [b|] eqn:E.
  - apply Byte.to_of_N in E. lia.
  - exfalso. apply Byte.of_N_None_iff in E. lia.
Qed.

Lemma z2b_b2z b : z2b (b2z b) = b.
Proof. destruct b; reflexivity. Qed.

#[export] Instance b2z_inj : Inj eq eq b2z.
Proof. intros a b H. rewrite <-(z2b_b2z a), <-(z2b_b2z b). by f_equal. Qed.

Lemma z2b_mod z : z2b (z mod 256) = z2b z.
Proof. unfold z2b. by rewrite Z.mod_mod by lia. Qed.

Lemma z2b_eq a b : a mod 256 = b mod 256 → z2b a = z2b b.
Proof. intros H. by rewrite <-(z2b_mod a), H, z2b_mod. Qed.

Lemma length_be_encode n z : length (be_encode n z) = n.
Proof. induction n; cbn; auto. Qed.

Lemma foldl_be_step acc bs :
  foldl be_step acc bs = acc * 256 ^ Z.of_nat (length bs) + be_decode bs.
Proof.
  unfold be_decode. revert acc. induction bs as [|b bs IH]; intros acc.
  - cbn. lia.
  - cbn [foldl length]. rewrite (IH (be_step acc b)), (IH (be_step 0 b)).
    unfold be_step. rewrite Nat2Z.inj_succ, Z.pow_succ_r by lia. lia.
Qed.

Lemma be_decode_cons b bs :
  be_decode (b :: bs) = b2z b * 256 ^ Z.of_nat (length bs) + be_decode bs.
Proof. unfold be_decode at 1. cbn. rewrite foldl_be_step. unfold be_step. lia. Qed.

Lemma be_decode_range bs : 0 ≤ be_decode bs < 256 ^ Z.of_nat (length bs).
Proof.
  induction bs as [|b bs IH].
  - cbn. lia.
  - rewrite be_decode_cons. cbn [length]. rewrite Nat2Z.inj_succ, Z.pow_succ_r by lia.
    pose proof (b2z_range b). nia.
Qed.

Lemma be_decode_encode n z : be_decode (be_encode n z) = z mod 256 ^ Z.of_nat n.
Proof.
  induction n as [|n IH].
  - cbn. by rewrite Z.mod_1_r.
  - cbn [be_encode]. rewrite be_decode_cons, IH, length_be_encode, b2z_z2b.
    rewrite Nat2Z.inj_succ, Z.pow_succ_r, Z.shiftr_div_pow2 by lia.
    rewrite Z.pow_mul_r by lia. change (2 ^ 8) with 256.
    rewrite (Z.mul_comm 256 (256 ^ _)), Z.rem_mul_r by lia. lia.
Qed.

Lemma be_decode_encode_small n z :
  0 ≤ z < 256 ^ Z.of_nat n → be_decode (be_encode n z) = z.
Proof. intros. rewrite be_decode_encode. by apply Z.mod_small. Qed.

Lemma be_encode_add n a z :
  be_encode n (a * 256 ^ Z.of_nat n + z) = be_encode n z.
Proof.
  revert a. induction n as [|n IH]; intros a; [done|]. cbn [be_encode].
  rewrite Nat2Z.inj_succ, Z.pow_succ_r by lia. f_equal.
  - apply z2b_eq. rewrite !Z.shiftr_div_pow2, Z.pow_mul_r by lia.
    change (2 ^ 8) with 256.
    replace (a * (256 * 256 ^ Z.of_nat n)) with (a * 256 * 256 ^ Z.of_nat n) by lia.
    rewrite Z.div_add_l by (apply Z.pow_nonzero; lia).
    rewrite Z.add_comm. by rewrite Z.mod_add by lia.
  - rewrite Z.mul_assoc. apply IH.
Qed.

Lemma be_encode_decode bs : be_encode (length bs) (be_decode bs) = bs.
Proof.
  induction bs as [|b bs IH]; [done|]. cbn [length be_encode].
  rewrite be_decode_cons, be_encode_add, IH. f_equal.
  pose proof (be_decode_range bs). pose proof (b2z_range b).
  rewrite Z.shiftr_div_pow2, Z.pow_mul_r by lia. change (2 ^ 8) with 256.
  rewrite Z.div_add_l, (Z.div_small (be_decode bs)), Z.add_0_r by lia.
  apply z2b_b2z.
Qed.

#[export] Hint Rewrite length_be_encode be_decode_encode : proxy.

(** ** Lemmas on slices *)

Section Slices.
Context {A : Type}.
Implicit Types l new : list A.

Lemma length_slice a b l : (b ≤ length l)%nat → length (slice a b l) = (b - a)%nat.
Proof. intros. len. Qed.

Lemma slice_all l : slice 0 (length l) l = l.
Proof. unfold slice. rewrite drop_0, Nat.sub_0_r. by apply take_ge. Qed.

Lemma slice_nil a l : slice a a l = [].
Proof. unfold slice. by rewrite Nat.sub_diag. Qed.

Lemma slice_split a b c l :
  (a ≤ b ≤ c)%nat → slice a c l = slice a b l ++ slice b c l.
Proof.
  intros. unfold slice.
  replace (c - a)%nat with ((b - a) + (c - b))%nat by lia.
  rewrite <-take_take_drop, drop_drop. by replace (a + (b - a))%nat with b by lia.
Qed.

Lemma length_splice off new l :
  (off + length new ≤ length l)%nat → length (splice off new l) = length l.
Proof. intros. len. Qed.

Lemma take_splice off new l :
  (off ≤ length l)%nat → take off (splice off new l) = take off l.
Proof.
  intros. unfold splice. rewrite take_app_le by len. by rewrite take_take, Nat.min_id.
Qed.

(** What was spliced in is read back. *)
Lemma slice_splice_eq off new l :
  (off ≤ length l)%nat → slice off (off + length new) (splice off new l) = new.
Proof.
  intros. unfold slice, splice.
  rewrite drop_app_length' by (rewrite length_take; lia).
  by rewrite take_app_length' by lia.
Qed.

(** A splice past the slice leaves it alone. *)
Lemma slice_splice_below a b off new l :
  (b ≤ off ≤ length l)%nat → slice a b (splice off new l) = slice a b l.
Proof.
  intros. destruct (decide (b ≤ a)%nat) as [Hba|Hba].
  - unfold slice. by replace (b - a)%nat with 0%nat by lia.
  - unfold slice, splice. rewrite <-(take_drop off l) at 3.
    rewrite !drop_app_le by len. rewrite !take_app_le by len. done.
Qed.

Lemma slice_copy_within0 a b l :
  (a ≤ b ≤ length l)%nat → slice 0 (b - a) (copy_within0 a b l) = slice a b l.
Proof.
  intros. unfold copy_within0.
  rewrite <-(slice_splice_eq 0 (slice a b l) l) at 2 by lia.
  f_equal. rewrite length_slice by lia. lia.
Qed.

Lemma length_copy_within0 a b l :
  (a ≤ b ≤ length l)%nat → length (copy_within0 a b l) = length l.
Proof. intros. unfold copy_within0. apply length_splice. len. Qed.
End Slices.

#[export] Hint Rewrite @slice_nil : proxy.

(** ** Lemmas on results *)

Lemma bind_ok_inv {A B} (m : res A) (k : A → res B) b :
  m ≫= k = Ok b → ∃ a, m = Ok a ∧ k a = Ok b.
Proof. destruct m; cbn; intros H; try discriminate. eauto. Qed.

Lemma M_bind_ok_inv {S A B} (m : M S A) (k : A → M S B) s b s' :
  (m ≫= k) s = (Ok b, s') → ∃ a s1, m s = (Ok a, s1) ∧ k a s1 = (Ok b, s').
Proof.
  unfold mbind, M_bind. destruct (m s) as [[] ?]; intros H; try discriminate. eauto.
Qed.

Lemma M_bind_ok {S A B} (m : M S A) (k : A → M S B) s a s1 :
  m s = (Ok a, s1) → (m ≫= k) s = k a s1.
Proof. intros H. unfold mbind, M_bind. by rewrite H. Qed.

(** The first step of a bind, exposed. *)
Lemma M_bind_eq {S A B} (m : M S A) (k : A → M S B) s :
  (m ≫= k) s =
  match m s with
  | (Ok a, s') => k a s'
  | (Err e, s') => (Err e, s')
  | (Panic w, s') => (Panic w, s')
  | (OutOfFuel, s') => (OutOfFuel, s')
  end.
Proof. done. Qed.

Lemma M_bind_assoc {S A B C} (m : M S A) (f : A → M S B) (g : B → M S C) s :
  ((m ≫= f) ≫= g) s = (m ≫= fun a => f a ≫= g) s.
Proof. unfold mbind, M_bind. by destruct (m s) as [[] ?]. Qed.

(** A result known by its first half. *)
Lemma with_fst {X Y} (p : X * Y) x : p.1 = x → p = (x, p.2).
Proof. destruct p. by intros <-. Qed.
