(* ===== verification/RustStd.v ===== *)
(** * The parts of the Rust standard library the server uses

    Integer parsing and printing ([str::parse], [to_string]), UTF-8 validation
    and lossy decoding, the [str] splitting functions, and the textual forms of
    IP addresses.  A [str] is its UTF-8 bytes. *)

From Stdlib Require Import String.
From S2P Require Import Prelude.

(** ** Integers as text *)

Definition is_ascii_digit (b : byte) : bool := (48 <=? b2z b) && (b2z b <=? 57).

Definition digit (z : Z) : byte := z2b (48 + z).

Fixpoint dec_fuel (fuel : nat) (z : Z) : bytes :=
  match fuel with
  | O => []
  | S f => if z <? 10 then [digit z] else dec_fuel f (z / 10) ++ [digit (z mod 10)]
  end.

(** [u64::to_string] and the narrower ones: twenty digits hold any [u64]. *)
Definition dec (z : Z) : bytes := dec_fuel 20 z.

(** The digit loop of [from_str_radix(10)]: checked multiply, checked add. *)
Fixpoint parse_digits (max acc : Z) (s : bytes) : option Z :=
  match s with
  | [] => Some acc
  | b :: s' =>
      if is_ascii_digit b then
        let acc' := acc * 10 + (b2z b - 48) in
        if acc' <=? max then parse_digits max acc' s' else None
      else None
  end.

(** [str::parse::<u8/u16/u32>]: an optional [+], then at least one digit. *)
Definition parse_unsigned (max : Z) (s : bytes) : option Z :=
  match s with
  | [] => None
  | b :: s' =>
      if b2z b =? 43 then
        match s' with [] => None | _ => parse_digits max 0 s' end
      else parse_digits max 0 s
  end.

(** [str::parse::<i64>]: an optional sign, then at least one digit. *)
Definition parse_signed (min max : Z) (s : bytes) : option Z :=
  match s with
  | [] => None
  | b :: s' =>
      if b2z b =? 43 then
        match s' with [] => None | _ => parse_digits max 0 s' end
      else if b2z b =? 45 then
        match s' with [] => None | _ => Z.opp <$> parse_digits (- min) 0 s' end
      else parse_digits max 0 s
  end.

Definition parse_u8 : bytes → option Z := parse_unsigned (2 ^ 8 - 1).
Definition parse_u16 : bytes → option Z := parse_unsigned (2 ^ 16 - 1).
Definition parse_u32 : bytes → option Z := parse_unsigned (2 ^ 32 - 1).
Definition parse_i64 : bytes → option Z := parse_signed (- 2 ^ 63) (2 ^ 63 - 1).

(** One lower-case hexadecimal digit, and a [u16] as [{:x}]. *)
Definition hex_digit (z : Z) : byte := if z <? 10 then z2b (48 + z) else z2b (87 + z).

Fixpoint hex_fuel (fuel : nat) (z : Z) : bytes :=
  match fuel with
  | O => []
  | S f => if z <? 16 then [hex_digit z] else hex_fuel f (z / 16) ++ [hex_digit (z mod 16)]
  end.
Definition hex16 (z : Z) : bytes := hex_fuel 4 z.

(** A byte as [{:02x}]. *)
Definition hex_byte (b : byte) : bytes := [hex_digit (b2z b / 16); hex_digit (b2z b mod 16)].

(** ** UTF-8 *)

Definition between (lo hi : Z) (b : byte) : bool := (lo <=? b2z b) && (b2z b <=? hi).
Definition is_cont (b : byte) : bool := between 128 191 b.

(** The second byte allowed after a three- or four-byte lead. *)
Definition second3 (b0 b1 : byte) : bool :=
  if b2z b0 =? 224 then between 160 191 b1
  else if b2z b0 =? 237 then between 128 159 b1
  else between 128 191 b1.
Definition second4 (b0 b1 : byte) : bool :=
  if b2z b0 =? 240 then between 144 191 b1
  else if b2z b0 =? 244 then between 128 143 b1
  else between 128 191 b1.

Inductive utf8_width : Set := W1 | W2 | W3 | W4 | WBad.

Definition char_width (b : byte) : utf8_width :=
  if b2z b <? 128 then W1
  else if between 194 223 b then W2
  else if between 224 239 b then W3
  else if between 240 244 b then W4
  else WBad.

(** [str::from_utf8(s).is_ok()]. *)
Fixpoint utf8_valid (s : bytes) : bool :=
  match s with
  | [] => true
  | b0 :: r0 =>
      match char_width b0 with
      | W1 => utf8_valid r0
      | W2 => match r0 with
              | b1 :: r1 => is_cont b1 && utf8_valid r1
              | _ => false
              end
      | W3 => match r0 with
              | b1 :: b2 :: r2 => second3 b0 b1 && is_cont b2 && utf8_valid r2
              | _ => false
              end
      | W4 => match r0 with
              | b1 :: b2 :: b3 :: r3 =>
                  second4 b0 b1 && is_cont b2 && is_cont b3 && utf8_valid r3
              | _ => false
              end
      | WBad => false
      end
  end.

(** U+FFFD, which stands for each maximal ill-formed sequence. *)
Definition replacement : bytes := [xef; xbf; xbd].

(** [String::from_utf8_lossy]. *)
Fixpoint utf8_lossy (s : bytes) : bytes :=
  match s with
  | [] => []
  | b0 :: r0 =>
      match char_width b0 with
      | W1 => b0 :: utf8_lossy r0
      | W2 => match r0 with
              | b1 :: r1 => if is_cont b1 then b0 :: b1 :: utf8_lossy r1
                            else replacement ++ utf8_lossy r0
              | [] => replacement
              end
      | W3 => match r0 with
              | b1 :: r1 =>
                  if second3 b0 b1 then
                    match r1 with
                    | b2 :: r2 => if is_cont b2 then b0 :: b1 :: b2 :: utf8_lossy r2
                                  else replacement ++ utf8_lossy r1
                    | [] => replacement
                    end
                  else replacement ++ utf8_lossy r0
              | [] => replacement
              end
      | W4 => match r0 with
              | b1 :: r1 =>
                  if second4 b0 b1 then
                    match r1 with
                    | b2 :: r2 =>
                        if is_cont b2 then
                          match r2 with
                          | b3 :: r3 =>
                              if is_cont b3 then b0 :: b1 :: b2 :: b3 :: utf8_lossy r3
                              else replacement ++ utf8_lossy r2
                          | [] => replacement
                          end
                        else replacement ++ utf8_lossy r1
                    | [] => replacement
                    end
                  else replacement ++ utf8_lossy r0
              | [] => replacement
              end
      | WBad => replacement ++ utf8_lossy r0
      end
  end.

(** ** Splitting *)

(** [s.split_once(c)] for an ASCII [c]. *)
Fixpoint split_once (c : byte) (s : bytes) : option (bytes * bytes) :=
  match s with
  | [] => None
  | b :: s' => if decide (b = c) then Some ([], s')
               else '(k, v) ← split_once c s'; Some (b :: k, v)
  end.

(** [s.split(c)]: always at least one piece. *)
Fixpoint split (c : byte) (s : bytes) : list bytes :=
  match s with
  | [] => [[]]
  | b :: s' => if decide (b = c) then [] :: split c s'
               else match split c s' with
                    | p :: ps => (b :: p) :: ps
                    | [] => [[b]]
                    end
  end.

(** [s.rfind(c)], as the text before and after the last [c]. *)
Fixpoint rsplit_once (c : byte) (s : bytes) : option (bytes * bytes) :=
  match s with
  | [] => None
  | b :: s' => match rsplit_once c s' with
               | Some (k, v) => Some (b :: k, v)
               | None => if decide (b = c) then Some ([], s') else None
               end
  end.

Definition LF : byte := x0a.
Definition CR : byte := x0d.

(** A line ended by [\n] loses one [\r] before it. *)
Definition strip_cr (s : bytes) : bytes :=
  match last s with
  | Some b => if decide (b = CR) then take (length s - 1) s else s
  | None => s
  end.

(** [str::lines]: the last line may lack its terminator, and keeps its [\r]. *)
Fixpoint lines_acc (acc s : bytes) : list bytes :=
  match s with
  | [] => match acc with [] => [] | _ => [acc] end
  | b :: s' => if decide (b = LF) then strip_cr acc :: lines_acc [] s'
               else lines_acc (acc ++ [b]) s'
  end.
Definition lines (s : bytes) : list bytes := lines_acc [] s.

(** ** Trimming

    The UTF-8 encodings of the code points with the [White_Space] property. *)
Definition whitespace : list bytes :=
  [[x09]; [x0a]; [x0b]; [x0c]; [x0d]; [x20]; [xc2; x85]; [xc2; xa0];
   [xe1; x9a; x80]; [xe2; x80; x80]; [xe2; x80; x81]; [xe2; x80; x82];
   [xe2; x80; x83]; [xe2; x80; x84]; [xe2; x80; x85]; [xe2; x80; x86];
   [xe2; x80; x87]; [xe2; x80; x88]; [xe2; x80; x89]; [xe2; x80; x8a];
   [xe2; x80; xa8]; [xe2; x80; xa9]; [xe2; x80; xaf]; [xe2; x81; x9f];
   [xe3; x80; x80]].

Definition strip_one (ws : list bytes) (s : bytes) : option bytes :=
  w ← find (fun w => bool_decide (take (length w) s = w)) ws;
  Some (drop (length w) s).

Fixpoint strip_all (fuel : nat) (ws : list bytes) (s : bytes) : bytes :=
  match fuel with
  | O => s
  | S f => match strip_one ws s with Some s' => strip_all f ws s' | None => s end
  end.

Definition trim_start (s : bytes) : bytes := strip_all (length s) whitespace s.
Definition trim_end (s : bytes) : bytes :=
  reverse (strip_all (length s) (reverse <$> whitespace) (reverse s)).
Definition trim (s : bytes) : bytes := trim_end (trim_start s).

(** ** IP addresses

    An [Ipv4Addr] is its 32 bits and an [Ipv6Addr] its 128 bits, as
    [to_bits] gives them; [octets] is their big-endian bytes.  The parsers are
    those of [core::net]: each returns the value and the text left. *)

Record Ipv4Addr : Set := Ipv4 { v4_bits : Z }.
Record Ipv6Addr : Set := Ipv6 { v6_bits : Z }.

Definition octets4 (a : Ipv4Addr) : bytes := be_encode 4 (v4_bits a).
Definition octets6 (a : Ipv6Addr) : bytes := be_encode 16 (v6_bits a).
Definition ipv4_of_octets (bs : bytes) : Ipv4Addr := Ipv4 (be_decode bs).
Definition ipv6_of_octets (bs : bytes) : Ipv6Addr := Ipv6 (be_decode bs).

Definition ipv4_wf (a : Ipv4Addr) : Prop := 0 ≤ v4_bits a < 2 ^ 32.
Definition ipv6_wf (a : Ipv6Addr) : Prop := 0 ≤ v6_bits a < 2 ^ 128.

(** [char::to_digit]. *)
Definition to_digit (radix : Z) (b : byte) : option Z :=
  let d := if is_ascii_digit b then b2z b - 48
           else if between 97 122 b then b2z b - 87
           else if between 65 90 b then b2z b - 55
           else radix in
  if d <? radix then Some d else None.

Fixpoint read_digits (radix : Z) (s : bytes) : list Z * bytes :=
  match s with
  | [] => ([], [])
  | b :: s' => match to_digit radix b with
               | Some d => let '(ds, r) := read_digits radix s' in (d :: ds, r)
               | None => ([], s)
               end
  end.

Definition digits_value (radix : Z) (ds : list Z) : Z :=
  foldl (fun acc d => acc * radix + d) 0 ds.

Definition read_number (radix : Z) (max_digits : nat) (allow_zero_prefix : bool)
    (limit : Z) (s : bytes) : option (Z * bytes) :=
  let '(ds, r) := read_digits radix s in
  if (max_digits <? length ds)%nat then None
  else match ds with
       | [] => None
       | d :: ds' =>
           if negb allow_zero_prefix && (d =? 0) && negb (bool_decide (ds' = [])) then None
           else let v := digits_value radix ds in
                if v <=? limit then Some (v, r) else None
       end.

Definition read_given_char (c : byte) (s : bytes) : option bytes :=
  match s with
  | b :: s' => if decide (b = c) then Some s' else None
  | [] => None
  end.

Definition DOT : byte := x2e.
Definition COLON : byte := x3a.

(** [read_separator(sep, index, ..)]: no separator before the first item. *)
Definition read_separator {A} (sep : byte) (first : bool)
    (inner : bytes → option (A * bytes)) (s : bytes) : option (A * bytes) :=
  if first then inner s else s' ← read_given_char sep s; inner s'.

Fixpoint read_octets (n : nat) (first : bool) (s : bytes) : option (bytes * bytes) :=
  match n with
  | O => Some ([], s)
  | S n' =>
      '(v, s1) ← read_separator DOT first (read_number 10 3 false 255) s;
      '(os, s2) ← read_octets n' false s1;
      Some (z2b v :: os, s2)
  end.

Definition read_ipv4_addr (s : bytes) : option (Ipv4Addr * bytes) :=
  '(os, r) ← read_octets 4 true s; Some (ipv4_of_octets os, r).

Fixpoint read_groups (k : nat) (first : bool) (s : bytes) : list Z * bool * bytes :=
  match k with
  | O => ([], false, s)
  | S k' =>
      let v4 := if (1 <=? k')%nat then read_separator COLON first read_ipv4_addr s else None in
      match v4 with
      | Some (a, s1) =>
          ([Z.shiftr (v4_bits a) 16; Z.land (v4_bits a) 65535], true, s1)
      | None =>
          match read_separator COLON first (read_number 16 4 true 65535) s with
          | Some (g, s1) =>
              let '(gs, f, s2) := read_groups k' false s1 in (g :: gs, f, s2)
          | None => ([], false, s)
          end
      end
  end.

Definition ipv6_of_segments (gs : list Z) : Ipv6Addr :=
  Ipv6 (foldl (fun acc g => acc * 65536 + g) 0 gs).
Definition segments6 (a : Ipv6Addr) : list Z :=
  (fun i => Z.land (Z.shiftr (v6_bits a) (16 * i)) 65535) <$> [7; 6; 5; 4; 3; 2; 1; 0].

Definition read_ipv6_addr (s : bytes) : option (Ipv6Addr * bytes) :=
  let '(head, head_ipv4, s1) := read_groups 8 true s in
  if (length head =? 8)%nat then Some (ipv6_of_segments head, s1)
  else if head_ipv4 then None
  else
    s2 ← read_given_char COLON s1;
    s3 ← read_given_char COLON s2;
    let '(tail, _, s4) := read_groups (7 - length head) true s3 in
    Some (ipv6_of_segments (head ++ replicate (8 - length tail - length head) 0 ++ tail), s4).

Definition whole {A} (p : bytes → option (A * bytes)) (s : bytes) : option A :=
  '(a, r) ← p s; if decide (r = []) then Some a else None.

(** [str::parse::<Ipv4Addr>] and [str::parse::<Ipv6Addr>]. *)
Definition parse_ipv4 (s : bytes) : option Ipv4Addr :=
  if (15 <? length s)%nat then None else whole read_ipv4_addr s.
Definition parse_ipv6 (s : bytes) : option Ipv6Addr := whole read_ipv6_addr s.

Fixpoint join (sep : bytes) (ps : list bytes) : bytes :=
  match ps with
  | [] => []
  | [p] => p
  | p :: ps' => p ++ sep ++ join sep ps'
  end.

(** [Display for Ipv4Addr]. *)
Definition show_ipv4 (a : Ipv4Addr) : bytes :=
  join [DOT] ((fun b => dec (b2z b)) <$> octets4 a).

(** The longest run of zero segments, the first one on a tie. *)
Fixpoint zero_span (i : nat) (cur longest : nat * nat) (gs : list Z) : nat * nat :=
  match gs with
  | [] => longest
  | g :: gs' =>
      if g =? 0 then
        let start := if (cur.2 =? 0)%nat then i else cur.1 in
        let cur' := (start, S cur.2) in
        zero_span (S i) cur' (if (longest.2 <? S cur.2)%nat then cur' else longest) gs'
      else zero_span (S i) (0, 0)%nat longest gs'
  end.

(** [Display for Ipv6Addr]. *)
Definition show_ipv6 (a : Ipv6Addr) : bytes :=
  let gs := segments6 a in
  if bool_decide (take 6 gs = [0; 0; 0; 0; 0; 65535]) then
    str "::ffff:" ++ show_ipv4 (Ipv4 (Z.land (v6_bits a) (2 ^ 32 - 1)))
  else
    let '(start, n) := zero_span 0 (0, 0)%nat (0, 0)%nat gs in
    if (1 <? n)%nat then
      join [COLON] (hex16 <$> take start gs) ++ [COLON; COLON] ++
      join [COLON] (hex16 <$> drop (start + n) gs)
    else join [COLON] (hex16 <$> gs).

(** [SocketAddr] and its [Display]: an IPv6 address is put in brackets. *)
Inductive SocketAddr : Set :=
| SocketV4 (ip : Ipv4Addr) (port : Z)
| SocketV6 (ip : Ipv6Addr) (port : Z).

Definition show_socket_addr (a : SocketAddr) : bytes :=
  match a with
  | SocketV4 ip p => show_ipv4 ip ++ [COLON] ++ dec p
  | SocketV6 ip p => str "[" ++ show_ipv6 ip ++ str "]:" ++ dec p
  end.

#[export] Instance Ipv4Addr_eq_dec : EqDecision Ipv4Addr.
Proof. solve_decision. Defined.
#[export] Instance Ipv6Addr_eq_dec : EqDecision Ipv6Addr.
Proof. solve_decision. Defined.
#[export] Instance SocketAddr_eq_dec : EqDecision SocketAddr.
Proof. solve_decision. Defined.

(** ** Lemmas: integers as text *)

Lemma b2z_digit z : 0 ≤ z < 10 → b2z (digit z) = 48 + z.
Proof. intros. unfold digit. rewrite b2z_z2b, Z.mod_small; lia. Qed.

Lemma is_ascii_digit_digit z : 0 ≤ z < 10 → is_ascii_digit (digit z) = true.
Proof. intros. unfold is_ascii_digit. rewrite b2z_digit by lia. lia. Qed.

Lemma parse_digits_app max acc s1 s2 :
  parse_digits max acc (s1 ++ s2) = (a ← parse_digits max acc s1; parse_digits max a s2).
Proof.
  revert acc. induction s1 as [|b s1 IH]; intros acc; cbn; [done|].
  repeat case_match_eqn; auto.
Qed.

Lemma dec_fuel_digits f z : 0 ≤ z → Forall (fun b => is_ascii_digit b = true) (dec_fuel f z).
Proof.
  revert z. induction f as [|f IH]; intros z Hz; cbn; [constructor|].
  case_match_eqn; zbool.
  - repeat constructor. apply is_ascii_digit_digit. lia.
  - pose proof (Z.mod_pos_bound z 10 ltac:(lia)).
    apply Forall_app. split.
    + apply IH. apply Z.div_pos; lia.
    + repeat constructor. by apply is_ascii_digit_digit.
Qed.

Lemma dec_fuel_nonempty f z : dec_fuel (S f) z ≠ [].
Proof. cbn. case_match_eqn; [done|]. intros []%app_nil. done. Qed.

Lemma parse_dec_fuel f max z :
  0 ≤ z ≤ max → z < 10 ^ Z.of_nat f → parse_digits max 0 (dec_fuel f z) = Some z.
Proof.
  revert z. induction f as [|f IH]; intros z Hz Hf; [cbn in *; f_equal; lia|].
  rewrite Nat2Z.inj_succ, Z.pow_succ_r in Hf by lia. cbn [dec_fuel].
  case_match_eqn; zbool.
  - cbn [parse_digits]. rewrite is_ascii_digit_digit, b2z_digit by lia.
    replace (0 * 10 + (48 + z - 48)) with z by lia. cbv zeta.
    by rewrite (proj2 (Z.leb_le z max)) by lia.
  - pose proof (Z.mod_pos_bound z 10 ltac:(lia)).
    pose proof (Z.div_mod z 10 ltac:(lia)).
    rewrite parse_digits_app, IH by (split_and? || idtac; lia).
    cbn [mbind option_bind parse_digits].
    rewrite is_ascii_digit_digit, b2z_digit by lia. cbv zeta.
    replace (z / 10 * 10 + (48 + z mod 10 - 48)) with z by lia.
    by rewrite (proj2 (Z.leb_le z max)) by lia.
Qed.

(** Printing an unsigned integer and parsing it back. *)
Lemma parse_unsigned_dec max z :
  0 ≤ z ≤ max → z < 10 ^ 20 → parse_unsigned max (dec z) = Some z.
Proof.
  intros Hz H20.
  pose proof (dec_fuel_digits 20 z ltac:(lia)) as Hd.
  pose proof (parse_dec_fuel 20 max z Hz H20) as Hp.
  pose proof (dec_fuel_nonempty 19 z) as Hne.
  unfold parse_unsigned, dec. destruct (dec_fuel 20 z) as [|b s]; [done|].
  apply Forall_cons in Hd as [Hb _]. unfold is_ascii_digit in Hb. zbool.
  by rewrite (proj2 (Z.eqb_neq (b2z b) 43)) by lia.
Qed.

Lemma parse_u16_dec z : 0 ≤ z < 65536 → parse_u16 (dec z) = Some z.
Proof. intros. apply parse_unsigned_dec; lia. Qed.

Lemma parse_digits_range max acc s v :
  parse_digits max acc s = Some v → 0 ≤ acc ≤ max → 0 ≤ v ≤ max.
Proof.
  revert acc. induction s as [|b s IH]; intros acc H Ha; cbn in H; [by simplify_eq|].
  destruct (is_ascii_digit b) eqn:Hb; [|done].
  case_in H; [|done]. unfold is_ascii_digit in Hb. zbool. eapply IH; [done|lia].
Qed.

Lemma parse_unsigned_range max s v : 0 ≤ max → parse_unsigned max s = Some v → 0 ≤ v ≤ max.
Proof.
  intros Hm H. unfold parse_unsigned in H.
  repeat case_in H; try discriminate; eauto using parse_digits_range, Z.le_refl.
Qed.

(** ** Lemmas: UTF-8 *)

(** Lossy decoding leaves valid text alone. *)
Lemma utf8_lossy_valid s : utf8_valid s = true → utf8_lossy s = s.
Proof.
  remember (length s) as n eqn:Hn. assert (length s ≤ n)%nat as Hle by lia. clear Hn.
  revert s Hle. induction n as [|n IH]; intros [|b0 r0] Hle Hv; cbn in *; try done; [lia|].
  destruct (char_width b0); try discriminate;
    repeat match goal with
    | H : context [match ?l with [] => _ | _ :: _ => _ end] |- _ => destruct l; try discriminate
    end; zbool; cbn in *;
    repeat match goal with H : ?b = true |- context [?b] => rewrite H end;
    repeat f_equal; apply IH; (done || lia).
Qed.

Lemma utf8_valid_ascii s : Forall (fun b => b2z b < 128) s → utf8_valid s = true.
Proof.
  induction 1 as [|b s Hb _ IH]; [done|]. cbn. unfold char_width.
  by rewrite (proj2 (Z.ltb_lt _ _) Hb).
Qed.

(** ** Lemmas: splitting *)

Lemma split_once_app c k v : c ∉ k → split_once c (k ++ c :: v) = Some (k, v).
Proof.
  induction k as [|b k IH]; cbn; intros Hc.
  - by rewrite decide_True.
  - apply not_elem_of_cons in Hc as [? ?]. rewrite decide_False by done. by rewrite IH.
Qed.

Lemma split_once_none c s : c ∉ s → split_once c s = None.
Proof.
  induction s as [|b s IH]; cbn; intros Hc; [done|].
  apply not_elem_of_cons in Hc as [? ?]. rewrite decide_False by done. by rewrite IH.
Qed.

Lemma rsplit_once_none c s : c ∉ s → rsplit_once c s = None.
Proof.
  induction s as [|b s IH]; cbn; intros Hc; [done|].
  apply not_elem_of_cons in Hc as [? ?]. rewrite IH by done. by rewrite decide_False.
Qed.

Lemma rsplit_once_app c k v : c ∉ v → rsplit_once c (k ++ c :: v) = Some (k, v).
Proof.
  intros Hv. induction k as [|b k IH]; cbn.
  - rewrite rsplit_once_none by done. by rewrite decide_True.
  - by rewrite IH.
Qed.

Lemma rsplit_once_None_inv c s : rsplit_once c s = None → c ∉ s.
Proof.
  induction s as [|b s IH]; cbn; intros H; [apply not_elem_of_nil|].
  destruct (rsplit_once c s) as [[]|]; [done|]. case_decide; [done|].
  apply not_elem_of_cons. auto.
Qed.

Lemma rsplit_once_spec c s k v :
  rsplit_once c s = Some (k, v) → s = k ++ c :: v ∧ c ∉ v.
Proof.
  revert k v. induction s as [|b s IH]; intros k v H; cbn in H; [done|].
  destruct (rsplit_once c s) as [[k' v']|] eqn:E; simplify_eq.
  - destruct (IH _ _ eq_refl) as [-> ?]. done.
  - case_decide; simplify_eq. auto using rsplit_once_None_inv.
Qed.

Lemma lines_acc_line acc l s :
  LF ∉ l → lines_acc acc (l ++ LF :: s) = strip_cr (acc ++ l) :: lines_acc [] s.
Proof.
  revert acc. induction l as [|b l IH]; intros acc Hl; cbn.
  - by rewrite app_nil_r.
  - apply not_elem_of_cons in Hl as [? ?]. rewrite decide_False by done.
    rewrite IH by done. by rewrite <-app_assoc.
Qed.

Lemma lines_acc_last acc l :
  LF ∉ l → acc ++ l ≠ [] → lines_acc acc l = [acc ++ l].
Proof.
  revert acc. induction l as [|b l IH]; intros acc Hl Hne; cbn.
  - rewrite app_nil_r in *. by destruct acc.
  - apply not_elem_of_cons in Hl as [? ?]. rewrite decide_False by done.
    rewrite IH; [by rewrite <-app_assoc|done|by destruct acc].
Qed.

(** ** Lemmas: text built from pieces *)

Lemma utf8_valid_app a b : utf8_valid a = true → utf8_valid (a ++ b) = utf8_valid b.
Proof.
  remember (length a) as n eqn:Hn. assert (length a ≤ n)%nat as Hle by lia. clear Hn.
  revert a Hle. induction n as [|n IH]; intros [|b0 r0] Hle Hv; cbn in *; try done; [lia|].
  destruct (char_width b0); try discriminate;
    repeat match goal with
    | H : context [match ?l with [] => _ | _ :: _ => _ end] |- _ => destruct l; try discriminate
    end; zbool; cbn in *;
    repeat match goal with H : ?b = true |- context [?b] => rewrite H end;
    cbn; apply IH; (done || lia).
Qed.

Lemma utf8_valid_join sep ps :
  utf8_valid sep = true → Forall (fun p => utf8_valid p = true) ps →
  utf8_valid (join sep ps) = true.
Proof.
  intros Hs. induction 1 as [|p ps Hp Hps IH]; [done|].
  destruct ps as [|q ps]; [done|]. change (join sep (p :: q :: ps)) with (p ++ sep ++ join sep (q :: ps)).
  by rewrite !utf8_valid_app.
Qed.

Lemma strip_cr_id s : last s ≠ Some CR → strip_cr s = s.
Proof.
  unfold strip_cr. destruct (last s) as [b|]; [|done]. intros H. rewrite decide_False; congruence.
Qed.

(** [lines] undoes joining with [\n]. *)
Lemma lines_join ls :
  Forall (fun l => l ≠ [] ∧ (LF ∉ l) ∧ last l ≠ Some CR) ls → lines (join [LF] ls) = ls.
Proof.
  unfold lines. induction 1 as [|l ls (Hne & Hlf & Hcr) Hls IH]; [done|].
  destruct ls as [|q ls].
  - cbn [join]. by rewrite lines_acc_last.
  - change (join [LF] (l :: q :: ls)) with (l ++ LF :: join [LF] (q :: ls)).
    rewrite lines_acc_line, app_nil_l, strip_cr_id by done. by rewrite IH.
Qed.
