(* ===== verification/Address.v ===== *)
(** * Network addresses (src/address.rs)

    [Address], [NetLocation], their parsers and their [Display]. *)

From Stdlib Require Import String.
From S2P Require Import Prelude RustStd.

Inductive Address : Set :=
| Addr_Ipv4 (a : Ipv4Addr)
| Addr_Ipv6 (a : Ipv6Addr)
| Addr_Hostname (h : bytes).

Record NetLocation : Set := NetLoc { nl_address : Address; nl_port : Z }.

#[export] Instance Address_eq_dec : EqDecision Address.
Proof. solve_decision. Defined.
#[export] Instance NetLocation_eq_dec : EqDecision NetLocation.
Proof. solve_decision. Defined.

(** [NetLocation] keys a [HashMap] in udp_relay.rs. *)
#[export] Instance NetLocation_countable : Countable NetLocation :=
  inj_countable'
    (fun l => (match nl_address l with
               | Addr_Ipv4 a => inl (inl (v4_bits a))
               | Addr_Ipv6 a => inl (inr (v6_bits a))
               | Addr_Hostname h => inr h
               end, nl_port l))
    (fun '(a, p) => NetLoc (match a with
                            | inl (inl z) => Addr_Ipv4 (Ipv4 z)
                            | inl (inr z) => Addr_Ipv6 (Ipv6 z)
                            | inr h => Addr_Hostname h
                            end) p)
    ltac:(by intros [[[]|[]|] ?]).

(** The scan of [Address::from]: what the bytes of the string rule out. *)
Record scan_state : Set := Scan {
  dots : Z; possible_ipv4 : bool; possible_ipv6 : bool; possible_hostname : bool }.

Fixpoint address_scan (s : bytes) (st : scan_state) : scan_state :=
  match s with
  | [] => st
  | c :: s' =>
      if decide (c = COLON) then Scan (dots st) false (possible_ipv6 st) false
      else if decide (c = DOT) then
        let st' := Scan (dots st + 1) (possible_ipv4 st) false (possible_hostname st) in
        if 3 <? dots st' then st' else address_scan s' st'
      else if between 65 70 c || between 97 102 c then
        address_scan s' (Scan (dots st) false (possible_ipv6 st) (possible_hostname st))
      else if negb (is_ascii_digit c) then
        Scan (dots st) false false (possible_hostname st)
      else address_scan s' st
  end.

Definition address_from (s : bytes) : res Address :=
  let st := address_scan s (Scan 0 true true true) in
  let v4 := if possible_ipv4 st && (dots st =? 3) then parse_ipv4 s else None in
  match v4 with
  | Some a => Ok (Addr_Ipv4 a)
  | None =>
      let v6 := if possible_ipv6 st then parse_ipv6 s else None in
      match v6 with
      | Some a => Ok (Addr_Ipv6 a)
      | None =>
          if possible_hostname st then Ok (Addr_Hostname s)
          else Err (IoError InvalidData (str "Failed to parse address: " ++ s))
      end
  end.

Definition is_ipv6 (a : Address) : bool := match a with Addr_Ipv6 _ => true | _ => false end.

Definition hostname (a : Address) : option bytes :=
  match a with Addr_Hostname h => Some h | _ => None end.

Definition show_address (a : Address) : bytes :=
  match a with
  | Addr_Ipv4 i => show_ipv4 i
  | Addr_Ipv6 i => show_ipv6 i
  | Addr_Hostname h => h
  end.

Definition address_unspecified : Address := Addr_Ipv4 (Ipv4 0).
Definition netloc_unspecified : NetLocation := NetLoc address_unspecified 0.

Definition is_unspecified (l : NetLocation) : bool := bool_decide (l = netloc_unspecified).

Definition netloc_from_str (s : bytes) (default_port : option Z) : res NetLocation :=
  let '(address_str, port, expect_ipv6) :=
    match rsplit_once COLON s with
    | Some (before, after) =>
        match parse_u16 after with
        | Some port => (before, Some port, false)
        | None => (s, default_port, true)
        end
    | None => (s, default_port, false)
    end in
  address ← address_from address_str;
  if expect_ipv6 && negb (is_ipv6 address) then Err (io_err Other "Invalid location")
  else
    port ← ok_or port (io_err Other "No port");
    Ok (NetLoc address port).

Definition to_socket_addr_nonblocking (l : NetLocation) : option SocketAddr :=
  match nl_address l with
  | Addr_Ipv6 a => Some (SocketV6 a (nl_port l))
  | Addr_Ipv4 a => Some (SocketV4 a (nl_port l))
  | Addr_Hostname _ => None
  end.

Definition show_netloc (l : NetLocation) : bytes :=
  show_address (nl_address l) ++ [COLON] ++ dec (nl_port l).

(** [Deserialize for NetLocation], on the string serde hands it. *)
Definition netloc_deserialize (s : bytes) : res NetLocation := netloc_from_str s None.

(** ** The reference parser

    What [Address::from] means to compute: an IP literal if the text is one, a
    hostname otherwise, unless a colon comes before anything that only a
    hostname can have. *)

Definition hex_or_digit (c : byte) : bool :=
  is_ascii_digit c || between 65 70 c || between 97 102 c.

(** Does a colon come before any byte that is neither a hexadecimal digit nor one of
    the first three dots? *)
Fixpoint colon_first (d : nat) (s : bytes) : bool :=
  match s with
  | [] => false
  | c :: s' =>
      if decide (c = COLON) then true
      else if decide (c = DOT) then
        match d with O => false | S d' => colon_first d' s' end
      else if hex_or_digit c then colon_first d s'
      else false
  end.

Definition address_spec (s : bytes) : res Address :=
  match parse_ipv4 s, parse_ipv6 s with
  | Some a, _ => Ok (Addr_Ipv4 a)
  | None, Some a => Ok (Addr_Ipv6 a)
  | None, None =>
      if colon_first 3 s then Err (IoError InvalidData (str "Failed to parse address: " ++ s))
      else Ok (Addr_Hostname s)
  end.

(** ** What the standard parsers accept *)

Definition ends_number (s : bytes) : Prop :=
  match s with [] => True | b :: _ => to_digit 10 b = None end.

Lemma read_digits_inv radix s ds r :
  read_digits radix s = (ds, r) →
  ∃ p, s = p ++ r ∧ Forall (fun b => is_Some (to_digit radix b)) p ∧ length p = length ds.
Proof.
  revert ds r. induction s as [|b s IH]; intros ds r H; cbn in H.
  - simplify_eq. by exists [].
  - destruct (to_digit radix b) as [d|] eqn:E; simplify_eq.
    + destruct (read_digits radix s) as [ds' r'] eqn:E'; simplify_eq.
      destruct (IH _ _ eq_refl) as (p & -> & ? & ?).
      exists (b :: p). repeat split; [by constructor; eauto|cbn; lia].
    + by exists [].
Qed.

Lemma read_number_inv radix md az lim s v r :
  read_number radix md az lim s = Some (v, r) →
  ∃ p, s = p ++ r ∧ Forall (fun b => is_Some (to_digit radix b)) p.
Proof.
  unfold read_number. destruct (read_digits radix s) as [ds r'] eqn:E.
  apply read_digits_inv in E as (p & -> & Hp & _). intros H.
  repeat case_in H; simplify_eq. eauto.
Qed.

Lemma read_given_char_inv c s r : read_given_char c s = Some r → s = c :: r.
Proof. destruct s; cbn; [done|]. case_decide; naive_solver. Qed.

Lemma to_digit_10 b : is_Some (to_digit 10 b) ↔ is_ascii_digit b = true.
Proof. destruct b; cbn; split; intros H; try done; destruct H; done. Qed.

Lemma to_digit_16 b : is_Some (to_digit 16 b) ↔ hex_or_digit b = true.
Proof. destruct b; cbn; split; intros H; try done; destruct H; done. Qed.

Lemma to_digit_none radix b : to_digit radix b = None ↔ ¬ is_Some (to_digit radix b).
Proof. destruct (to_digit radix b); split; naive_solver. Qed.

Lemma digit_not_sep b : is_ascii_digit b = true → b ≠ COLON ∧ b ≠ DOT.
Proof. by destruct b. Qed.

Lemma hex_not_sep b : hex_or_digit b = true → b ≠ COLON ∧ b ≠ DOT.
Proof. by destruct b. Qed.

(** Three dots separate the four decimal fields of an IPv4 literal. *)
Lemma read_octets_inv n s os r :
  read_octets n false s = Some (os, r) →
  ∃ ps : list bytes, s = concat ((fun p => DOT :: p) <$> ps) ++ r ∧ length ps = n ∧
    Forall (Forall (fun b => is_ascii_digit b = true)) ps.
Proof.
  revert s os r. induction n as [|n IH]; intros s os r H; cbn in H.
  - simplify_eq. by exists [].
  - destruct (read_given_char DOT s) as [s1|] eqn:E1; [|done]. cbn in H.
    apply read_given_char_inv in E1 as ->.
    destruct (read_number 10 3 false 255 s1) as [[v s2]|] eqn:E2; [|done]. cbn in H.
    apply read_number_inv in E2 as (p & -> & Hp).
    destruct (read_octets n false s2) as [[os' r']|] eqn:E3; [|done]. cbn in H. simplify_eq.
    destruct (IH _ _ _ E3) as (ps & -> & <- & Hps).
    exists (p :: ps). cbn. rewrite app_assoc. repeat split; [done..|].
    constructor; [|done]. eapply Forall_impl; [done|]. intros b. apply to_digit_10.
Qed.

Lemma read_ipv4_inv s a r :
  read_ipv4_addr s = Some (a, r) →
  ∃ p p1 p2 p3, s = p ++ DOT :: p1 ++ DOT :: p2 ++ DOT :: p3 ++ r ∧
    Forall (Forall (fun b => is_ascii_digit b = true)) [p; p1; p2; p3].
Proof.
  unfold read_ipv4_addr. intros H.
  destruct (read_octets 4 true s) as [[os r']|] eqn:E; [|done]. cbn in H. simplify_eq.
  change (read_octets 4 true s) with
    ('(v, s1) ← read_number 10 3 false 255 s;
     '(os, s2) ← read_octets 3 false s1; Some (z2b v :: os, s2)) in E.
  destruct (read_number 10 3 false 255 s) as [[v s1]|] eqn:E1; [|done]. cbn [mbind option_bind] in E.
  apply read_number_inv in E1 as (p & -> & Hp).
  destruct (read_octets 3 false s1) as [[os' r']|] eqn:E2; [|done]. cbn in E. simplify_eq.
  apply read_octets_inv in E2 as (ps & -> & Hl & Hps).
  destruct ps as [|p1 [|p2 [|p3 [|]]]]; try discriminate Hl.
  exists p, p1, p2, p3. cbn. rewrite app_nil_r, <-!app_assoc. cbn. rewrite <-!app_assoc.
  split; [done|]. constructor; [|done].
  eapply Forall_impl; [done|]. intros b. apply to_digit_10.
Qed.

(** ** The scan *)

Lemma address_scan_digits p s st :
  Forall (fun b => is_ascii_digit b = true) p → address_scan (p ++ s) st = address_scan s st.
Proof.
  induction 1 as [|b p Hb _ IH]; [done|]. cbn.
  destruct (digit_not_sep _ Hb). rewrite !decide_False by done.
  rewrite Hb, IH. by destruct b.
Qed.

Lemma address_scan_dot s st :
  address_scan (DOT :: s) st =
  let st' := Scan (dots st + 1) (possible_ipv4 st) false (possible_hostname st) in
  if 3 <? dots st' then st' else address_scan s st'.
Proof. done. Qed.

Lemma address_scan_ipv4 s a :
  parse_ipv4 s = Some a → address_scan s (Scan 0 true true true) = Scan 3 true false true.
Proof.
  unfold parse_ipv4, whole. case_match_eqn; [done|].
  destruct (read_ipv4_addr s) as [[a' r]|] eqn:E; cbn; [|done].
  case_decide; [|done]. subst. intros _.
  apply read_ipv4_inv in E as (p & p1 & p2 & p3 & -> & Hf).
  repeat (apply Forall_cons in Hf as [? Hf]).
  repeat (rewrite address_scan_digits by done; try rewrite address_scan_dot; cbn).
  done.
Qed.

Lemma address_scan_hostname s d p4 p6 :
  (d ≤ 3)%nat →
  possible_hostname (address_scan s (Scan (Z.of_nat d) p4 p6 true)) = negb (colon_first (3 - d) s).
Proof.
  revert d p4 p6. induction s as [|c s IH]; intros d p4 p6 Hd; [done|]. cbn.
  case_decide; [done|]. case_decide.
  - case_match_eqn; zbool; cbn.
    + assert (d = 3)%nat as -> by lia. done.
    + replace (Z.of_nat d + 1) with (Z.of_nat (S d)) by lia.
      destruct (3 - d)%nat as [|k] eqn:Hk; [lia|].
      rewrite IH by lia. by replace (3 - S d)%nat with k by lia.
  - destruct (between 65 70 c || between 97 102 c) eqn:Hx.
    + rewrite IH by done. unfold hex_or_digit.
      apply orb_true_iff in Hx as [-> | ->]; by rewrite ?orb_true_r.
    + unfold hex_or_digit. apply orb_false_iff in Hx as [-> ->]. rewrite !orb_false_r.
      destruct (is_ascii_digit c); cbn; [by apply IH|done].
Qed.

Lemma address_scan_hex p s st :
  Forall (fun b => hex_or_digit b = true) p → possible_ipv6 st = true →
  possible_ipv6 (address_scan (p ++ COLON :: s) st) = true.
Proof.
  intros Hp. revert st. induction Hp as [|b p Hb _ IH]; intros st Hst; [done|]. cbn.
  destruct (hex_not_sep _ Hb). rewrite !decide_False by done.
  destruct (between 65 70 b || between 97 102 b) eqn:Hx; [by apply IH|].
  unfold hex_or_digit in Hb. rewrite <-orb_assoc, Hx, orb_false_r in Hb.
  rewrite Hb. by apply IH.
Qed.

Lemma read_groups_first k s :
  read_groups (S (S k)) true s =
  match read_ipv4_addr s with
  | Some (a, s1) => ([Z.shiftr (v4_bits a) 16; Z.land (v4_bits a) 65535], true, s1)
  | None =>
      match read_number 16 4 true 65535 s with
      | Some (g, s1) => let '(gs, f, s2) := read_groups (S k) false s1 in (g :: gs, f, s2)
      | None => ([], false, s)
      end
  end.
Proof. done. Qed.

Lemma read_groups_stop k s :
  read_given_char COLON s = None → read_groups k false s = ([], false, s).
Proof.
  intros H. destruct k as [|k]; [done|]. cbn [read_groups].
  unfold read_separator. rewrite H. by destruct (1 <=? k)%nat.
Qed.

(** An IPv6 literal begins with hexadecimal digits and a colon. *)
Lemma read_ipv6_inv s a r :
  read_ipv6_addr s = Some (a, r) →
  ∃ p q, s = p ++ COLON :: q ∧ Forall (fun b => hex_or_digit b = true) p.
Proof.
  unfold read_ipv6_addr. rewrite read_groups_first. intros H.
  destruct (read_ipv4_addr s) as [[a4 s1]|] eqn:E4; [done|].
  destruct (read_number 16 4 true 65535 s) as [[g s1]|] eqn:E1.
  - apply read_number_inv in E1 as (p & -> & Hp).
    assert (Forall (fun b => hex_or_digit b = true) p) as Hp'.
    { eapply Forall_impl; [done|]. intros b. apply to_digit_16. }
    destruct (read_given_char COLON s1) as [q|] eqn:Eq.
    + apply read_given_char_inv in Eq as ->. eauto.
    + rewrite read_groups_stop in H by done. cbn in H. by rewrite Eq in H.
  - cbn [length Nat.eqb] in H.
    destruct (read_given_char COLON s) as [q|] eqn:Eq; [|done].
    apply read_given_char_inv in Eq as ->. by exists [], q.
Qed.

Lemma parse_ipv6_inv s a :
  parse_ipv6 s = Some a →
  ∃ p q, s = p ++ COLON :: q ∧ Forall (fun b => hex_or_digit b = true) p.
Proof.
  unfold parse_ipv6, whole. intros H.
  destruct (read_ipv6_addr s) as [[]|] eqn:E; [|done]. eauto using read_ipv6_inv.
Qed.

Lemma if_same {A} (b : bool) (x : A) : (if b then x else x) = x.
Proof. by destruct b. Qed.

(** The filter in front of the two IP parsers never changes the answer. *)
Lemma address_from_eq s : address_from s = address_spec s.
Proof.
  unfold address_from, address_spec. cbv zeta.
  destruct (parse_ipv4 s) as [a4|] eqn:E4; [by rewrite (address_scan_ipv4 _ _ E4)|].
  rewrite if_same. destruct (parse_ipv6 s) as [a6|] eqn:E6.
  - destruct (parse_ipv6_inv _ _ E6) as (p & q & -> & Hp).
    by rewrite address_scan_hex by done.
  - rewrite if_same. rewrite (address_scan_hostname s 0) by lia.
    change (3 - 0)%nat with 3%nat. by destruct (colon_first 3 s).
Qed.

(** ** Printing and parsing *)

Lemma read_digits_stop s : ends_number s → read_digits 10 s = ([], s).
Proof. destruct s as [|b s]; cbn; [done|]. by intros ->. Qed.

Lemma read_digits_app p s :
  Forall (fun b => is_ascii_digit b = true) p → ends_number s →
  read_digits 10 (p ++ s) = ((fun b => b2z b - 48) <$> p, s).
Proof.
  intros Hp Hs. induction Hp as [|b p Hb _ IH]; cbn; [by apply read_digits_stop|].
  rewrite IH. unfold to_digit. rewrite Hb.
  unfold is_ascii_digit in Hb. zbool. by rewrite (proj2 (Z.ltb_lt (b2z b - 48) 10)) by lia.
Qed.

(** The number read does not depend on what follows it. *)
Lemma read_number_app md az lim p s v :
  Forall (fun b => is_ascii_digit b = true) p → ends_number s →
  read_number 10 md az lim p = Some (v, []) → read_number 10 md az lim (p ++ s) = Some (v, s).
Proof.
  intros Hp Hs. unfold read_number.
  rewrite <-(app_nil_r p) at 1. rewrite !read_digits_app by done. intros H.
  repeat case_in H; simplify_eq. done.
Qed.

Lemma read_octet b s :
  ends_number s → read_number 10 3 false 255 (dec (b2z b) ++ s) = Some (b2z b, s).
Proof.
  intros Hs. apply read_number_app; [|done|by destruct b].
  apply dec_fuel_digits, b2z_range.
Qed.

Lemma read_first_octet b s :
  ends_number s →
  read_separator DOT true (read_number 10 3 false 255) (dec (b2z b) ++ s) = Some (b2z b, s).
Proof. apply read_octet. Qed.

Lemma read_dot_octet b s :
  ends_number s →
  read_separator DOT false (read_number 10 3 false 255) (DOT :: dec (b2z b) ++ s) = Some (b2z b, s).
Proof. intros. unfold read_separator. cbn [read_given_char]. by apply read_octet. Qed.

Lemma read_show_ipv4 a r :
  ipv4_wf a → ends_number r → read_ipv4_addr (show_ipv4 a ++ r) = Some (a, r).
Proof.
  intros Hw Hr. unfold show_ipv4, read_ipv4_addr, octets4.
  pose proof (be_decode_encode_small 4 (v4_bits a) Hw) as Hd.
  destruct (be_encode 4 (v4_bits a)) as [|b0 [|b1 [|b2 [|b3 [|]]]]] eqn:E;
    pose proof (length_be_encode 4 (v4_bits a)) as Hl; rewrite E in Hl; try discriminate Hl.
  cbn [fmap list_fmap join]. rewrite <-!app_assoc. cbn [read_octets app].
  rewrite read_first_octet by done. cbn [mbind option_bind].
  do 3 (rewrite read_dot_octet by done; cbn [mbind option_bind]).
  rewrite !z2b_b2z. unfold ipv4_of_octets. rewrite Hd. by destruct a.
Qed.

Lemma length_dec_byte b : (length (dec (b2z b)) ≤ 3)%nat.
Proof. apply Nat.leb_le. by destruct b. Qed.

Lemma length_show_ipv4 a : (length (show_ipv4 a) ≤ 15)%nat.
Proof.
  unfold show_ipv4, octets4. pose proof (length_be_encode 4 (v4_bits a)) as Hl.
  destruct (be_encode 4 (v4_bits a)) as [|b0 [|b1 [|b2 [|b3 [|]]]]]; try discriminate Hl.
  cbn [fmap list_fmap join]. rewrite !length_app. cbn [length].
  pose proof (length_dec_byte b0). pose proof (length_dec_byte b1).
  pose proof (length_dec_byte b2). pose proof (length_dec_byte b3). lia.
Qed.

(** IPv4 addresses are read back from their text. *)
Lemma parse_show_ipv4 a : ipv4_wf a → parse_ipv4 (show_ipv4 a) = Some a.
Proof.
  intros Hw. unfold parse_ipv4, whole. pose proof (length_show_ipv4 a).
  rewrite (proj2 (Nat.ltb_ge 15 _)) by lia.
  rewrite <-(app_nil_r (show_ipv4 a)), read_show_ipv4 by done. done.
Qed.

Lemma colon_first_none d s : COLON ∉ s → colon_first d s = false.
Proof.
  revert d. induction s as [|c s IH]; intros d Hc; cbn; [done|].
  apply not_elem_of_cons in Hc as [? ?]. rewrite decide_False by done.
  case_decide; [destruct d; auto|]. case_match_eqn; auto.
Qed.

Lemma parse_ipv6_colon s : COLON ∉ s → parse_ipv6 s = None.
Proof.
  intros Hc. destruct (parse_ipv6 s) as [a|] eqn:E; [|done].
  apply parse_ipv6_inv in E as (p & q & -> & _). set_solver.
Qed.

Lemma dec_no_colon z : 0 ≤ z → COLON ∉ dec z.
Proof.
  intros Hz Hin. pose proof (dec_fuel_digits 20 z Hz) as Hf.
  rewrite Forall_forall in Hf. by specialize (Hf _ Hin).
Qed.

(** ** IPv6 literals *)

(** What may follow a group: the end of the text, or a colon. *)
Definition ends_group (s : bytes) : Prop :=
  match s with [] => True | b :: _ => b = COLON end.

Lemma to_digit_hex_digit z : 0 ≤ z < 16 → to_digit 16 (hex_digit z) = Some z.
Proof.
  intros Hz. assert (z ∈ seqZ 0 16) as Hin by (apply elem_of_seqZ; lia).
  revert z Hz Hin. cut (Forall (fun z => to_digit 16 (hex_digit z) = Some z) (seqZ 0 16)).
  - intros Hf z _ Hin. rewrite Forall_forall in Hf. by apply Hf.
  - repeat constructor.
Qed.

Lemma read_digits_hex ds r :
  Forall (fun d => 0 ≤ d < 16) ds → read_digits 16 r = ([], r) →
  read_digits 16 ((hex_digit <$> ds) ++ r) = (ds, r).
Proof.
  intros Hds Hr. induction Hds as [|d ds Hd _ IH]; cbn; [done|].
  by rewrite to_digit_hex_digit, IH.
Qed.

Lemma hex_fuel_digits f z :
  0 ≤ z < 16 ^ Z.of_nat (S f) →
  ∃ ds, hex_fuel (S f) z = hex_digit <$> ds ∧ Forall (fun d => 0 ≤ d < 16) ds ∧
        digits_value 16 ds = z ∧ (0 < length ds ≤ S f)%nat.
Proof.
  revert z. induction f as [|f IH]; intros z Hz.
  - change (16 ^ Z.of_nat 1) with 16 in Hz. exists [z]. cbn [hex_fuel].
    rewrite (proj2 (Z.ltb_lt z 16)) by lia. split_and!; [done|by apply Forall_singleton|cbn; lia..].
  - cbn [hex_fuel]. case_match_eqn; zbool.
    + exists [z]. split_and!; [done|apply Forall_singleton; lia|cbn; lia..].
    + pose proof (Z.mod_pos_bound z 16 ltac:(lia)). pose proof (Z.div_mod z 16 ltac:(lia)).
      rewrite Nat2Z.inj_succ, Z.pow_succ_r in Hz by lia.
      destruct (IH (z / 16)) as (ds & Hx & Hr & Hv & Hl); [lia|].
      cbn [hex_fuel] in Hx. rewrite Hx. exists (ds ++ [z mod 16]).
      rewrite fmap_app. split; [done|]. split; [apply Forall_app; by rewrite Forall_singleton|].
      unfold digits_value in *. rewrite foldl_app, Hv, length_app. cbn. lia.
Qed.

Lemma read_group g r :
  0 ≤ g < 65536 → ends_group r → read_number 16 4 true 65535 (hex16 g ++ r) = Some (g, r).
Proof.
  intros Hg Hr. destruct (hex_fuel_digits 3 g Hg) as (ds & Hx & Hds & Hv & Hl).
  unfold read_number, hex16. rewrite Hx, read_digits_hex; [|done|].
  - rewrite (proj2 (Nat.ltb_ge 4 _)) by lia. destruct ds; [cbn in Hl; lia|].
    cbn [negb andb]. rewrite Hv. by rewrite (proj2 (Z.leb_le g 65535)) by lia.
  - destruct r; [done|]. cbn in Hr. by subst.
Qed.

Lemma hex16_digits g : 0 ≤ g < 65536 → Forall (fun b => hex_or_digit b = true) (hex16 g).
Proof.
  intros Hg. unfold hex16. destruct (hex_fuel_digits 3 g Hg) as (ds & -> & Hds & _).
  apply Forall_fmap. eapply Forall_impl; [done|]. intros d Hd. cbn.
  apply to_digit_16. by rewrite to_digit_hex_digit by done.
Qed.

(** No group is the start of an embedded IPv4 address. *)
Lemma read_ipv4_group p r :
  Forall (fun b => hex_or_digit b = true) p → ends_group r → read_ipv4_addr (p ++ r) = None.
Proof.
  intros Hp Hr. destruct (read_ipv4_addr (p ++ r)) as [[a r']|] eqn:E; [|done].
  apply read_ipv4_inv in E as (q & p1 & p2 & p3 & Heq & Hf).
  apply Forall_cons in Hf as [Hq _]. exfalso.
  revert p Hp Heq. induction Hq as [|b q Hb _ IH]; intros p Hp Heq.
  - by destruct Hp as [|c p Hc]; cbn in Heq; simplify_eq.
  - destruct Hp as [|c p Hc]; cbn in Heq; simplify_eq; [|eauto].
    cbn in Hr. by subst.
Qed.

Lemma read_group_stop first r :
  ends_group r → (∀ r', r = COLON :: r' → first = false → ∃ r'', r' = COLON :: r'') →
  read_separator COLON first read_ipv4_addr r = None ∧
  read_separator COLON first (read_number 16 4 true 65535) r = None.
Proof.
  intros Hr Hc. destruct r as [|c r]; [by destruct first|].
  cbn in Hr. subst c. destruct first; [done|].
  by destruct (Hc r eq_refl eq_refl) as [r' ->].
Qed.

(** The groups read back are the groups printed. *)
Lemma read_groups_join k first gs r :
  Forall (fun g => 0 ≤ g < 65536) gs → (length gs ≤ k)%nat → ends_group r →
  (∀ r', r = COLON :: r' → ∃ r'', r' = COLON :: r'') →
  read_groups k first
    ((if first then [] else concat (replicate (Nat.min 1 (length gs)) [COLON])) ++
     join [COLON] (hex16 <$> gs) ++ r) = (gs, false, r).
Proof.
  intros Hgs. revert k first. induction Hgs as [|g gs Hg Hgs IH]; intros k first Hk Hr Hc.
  - replace (if first then [] else concat (replicate (Nat.min 1 (length [])) [COLON]))
      with (@nil byte) by by destruct first.
    destruct k as [|k]; cbn [app fmap list_fmap join read_groups]; [done|].
    destruct (read_group_stop first r Hr) as [-> ->]; [eauto|]. by rewrite if_same.
  - destruct k as [|k]; cbn [length] in Hk; [lia|]. cbn [fmap list_fmap].
    assert (join [COLON] (hex16 g :: (hex16 <$> gs)) ++ r = hex16 g ++
       concat (replicate (Nat.min 1 (length gs)) [COLON]) ++ join [COLON] (hex16 <$> gs) ++ r)
      as Hj.
    { destruct gs; cbn; [done|]. by rewrite <-!app_assoc. }
    specialize (IH k false ltac:(lia) Hr Hc). cbn beta iota in IH.
    set (rest := concat (replicate (Nat.min 1 (length gs)) [COLON]) ++
                 join [COLON] (hex16 <$> gs) ++ r) in *.
    assert (ends_group rest) as Hrest by by destruct gs.
    assert (read_separator COLON first read_ipv4_addr
      ((if first then [] else [COLON]) ++ hex16 g ++ rest) = None) as H4.
    { by destruct first; exact (read_ipv4_group _ _ (hex16_digits _ Hg) Hrest). }
    assert (read_separator COLON first (read_number 16 4 true 65535)
      ((if first then [] else [COLON]) ++ hex16 g ++ rest) = Some (g, rest)) as H16.
    { by destruct first; exact (read_group _ _ Hg Hrest). }
    cbn [length Nat.min replicate concat app]. rewrite Hj.
    cbn [read_groups]. rewrite H4, H16, IH, if_same. done.
Qed.

(** The longest run of zeros is a run of zeros. *)
Definition zeros_at (l : list Z) (span : nat * nat) : Prop :=
  ∀ i, (span.1 ≤ i < span.1 + span.2)%nat → l !! i = Some 0.

Lemma zeros_at_app l l' span : zeros_at l span → zeros_at (l ++ l') span.
Proof. intros H i Hi. apply lookup_app_l_Some. by apply H. Qed.

Lemma zero_span_spec pre gs cur longest :
  (cur.2 = 0%nat ∨ (cur.1 + cur.2)%nat = length pre) →
  zeros_at pre cur → zeros_at pre longest →
  zeros_at (pre ++ gs) (zero_span (length pre) cur longest gs).
Proof.
  revert pre cur longest. induction gs as [|g gs IH]; intros pre [c n] [l m] Hc Hz Hl; cbn.
  - by rewrite app_nil_r.
  - rewrite (cons_middle g pre gs), app_assoc.
    replace (S (length pre)) with (length (pre ++ [g])) by (rewrite length_app; cbn; lia).
    case_match_eqn; zbool; subst; cbn in *.
    + set (start := if (n =? 0)%nat then length pre else c).
      assert ((start + S n)%nat = length (pre ++ [0])) as Hs.
      { rewrite length_app. cbn. unfold start. case_match_eqn; zbool; lia. }
      assert (zeros_at (pre ++ [0]) (start, S n)) as Hz'.
      { intros i Hi. cbn in Hi. rewrite length_app in Hs. cbn in Hs.
        destruct (decide (i = length pre)) as [->|].
        - rewrite lookup_app_r, Nat.sub_diag by lia. done.
        - apply lookup_app_l_Some, Hz. cbn.
          revert Hi. unfold start. case_match_eqn; zbool; lia. }
      apply IH; [by right|done|]. case_match_eqn; [done|by apply zeros_at_app].
    + apply IH; [by left|intros i Hi; cbn in Hi; lia|by apply zeros_at_app].
Qed.

Lemma zeros_at_split l s n :
  zeros_at l (s, n) → (0 < n)%nat →
  (s + n ≤ length l)%nat ∧ l = take s l ++ replicate n 0 ++ drop (s + n) l.
Proof.
  intros Hz Hn. assert (s + n ≤ length l)%nat as Hle.
  { pose proof (lookup_lt_Some l (s + n - 1) 0 (Hz (s + n - 1)%nat ltac:(cbn; lia))). lia. }
  split; [done|]. rewrite <-(take_drop s l) at 1. f_equal.
  rewrite <-(take_drop n (drop s l)) at 1. rewrite drop_drop. f_equal.
  apply list_eq_same_length with n; [by rewrite length_replicate|len|].
  intros i x y Hi. rewrite lookup_take_lt, lookup_drop, lookup_replicate_2 by lia.
  rewrite Hz by (cbn; lia). congruence.
Qed.

(** ** The 128 bits and their eight segments *)

Lemma segments6_range a : Forall (fun g => 0 ≤ g < 65536) (segments6 a).
Proof.
  unfold segments6. apply Forall_fmap, Forall_forall. intros i _. cbn.
  change 65535 with (Z.ones 16). rewrite Z.land_ones by lia. apply Z.mod_pos_bound. lia.
Qed.

Lemma segment_step z i j :
  0 ≤ i → j = i + 1 →
  Z.shiftr z (16 * j) * 65536 + Z.land (Z.shiftr z (16 * i)) 65535 = Z.shiftr z (16 * i).
Proof.
  intros Hi ->. change 65535 with (Z.ones 16). rewrite Z.land_ones by lia.
  replace (16 * (i + 1)) with (16 * i + 16) by lia.
  rewrite <-Z.shiftr_shiftr, (Z.shiftr_div_pow2 (Z.shiftr z (16 * i)) 16) by lia.
  pose proof (Z.div_mod (Z.shiftr z (16 * i)) (2 ^ 16) ltac:(lia)). lia.
Qed.

Lemma ipv6_segments a : ipv6_wf a → ipv6_of_segments (segments6 a) = a.
Proof.
  intros Hw. destruct a as [z]. unfold ipv6_wf in Hw. cbn [v6_bits] in Hw.
  unfold ipv6_of_segments, segments6. cbn [v6_bits fmap list_fmap foldl]. f_equal.
  assert (Z.shiftr z (16 * 8) = 0) as H8.
  { rewrite Z.shiftr_div_pow2 by lia. by apply Z.div_small. }
  assert (Z.shiftr z (16 * 0) = z) as H0 by apply Z.shiftr_0_r.
  pose proof (segment_step z 7 8). pose proof (segment_step z 6 7).
  pose proof (segment_step z 5 6). pose proof (segment_step z 4 5).
  pose proof (segment_step z 3 4). pose proof (segment_step z 2 3).
  pose proof (segment_step z 1 2). pose proof (segment_step z 0 1). lia.
Qed.

Lemma read_groups_all k gs r :
  Forall (fun g => 0 ≤ g < 65536) gs → (length gs ≤ k)%nat → ends_group r →
  (∀ r', r = COLON :: r' → ∃ r'', r' = COLON :: r'') →
  read_groups k true (join [COLON] (hex16 <$> gs) ++ r) = (gs, false, r).
Proof. exact (read_groups_join k true gs r). Qed.

Lemma read_ipv6_full gs :
  Forall (fun g => 0 ≤ g < 65536) gs → length gs = 8%nat →
  read_ipv6_addr (join [COLON] (hex16 <$> gs)) = Some (ipv6_of_segments gs, []).
Proof.
  intros Hgs Hl. unfold read_ipv6_addr.
  rewrite <-(app_nil_r (join _ _)), read_groups_all by (done || lia). by rewrite Hl.
Qed.

Lemma read_ipv6_compressed head tail :
  Forall (fun g => 0 ≤ g < 65536) head → Forall (fun g => 0 ≤ g < 65536) tail →
  (length head + length tail ≤ 7)%nat →
  read_ipv6_addr (join [COLON] (hex16 <$> head) ++ [COLON; COLON] ++ join [COLON] (hex16 <$> tail)) =
  Some (ipv6_of_segments (head ++ replicate (8 - length tail - length head) 0 ++ tail), []).
Proof.
  intros Hh Ht Hl. unfold read_ipv6_addr. cbn [app].
  rewrite read_groups_all; [|done|lia|done|naive_solver].
  rewrite (proj2 (Nat.eqb_neq _ _)) by lia.
  cbn [read_given_char]. rewrite !decide_True by done. cbn [mbind option_bind].
  cbn [read_given_char]. rewrite !decide_True by done. cbn [mbind option_bind].
  rewrite <-(app_nil_r (join _ (hex16 <$> tail))), read_groups_all by (done || lia). done.
Qed.

(** The mapped form [::ffff:a.b.c.d]. *)
Lemma read_ipv6_mapped i :
  ipv4_wf i →
  read_ipv6_addr (str "::ffff:" ++ show_ipv4 i) =
  Some (ipv6_of_segments ([0; 0; 0; 0; 0] ++
          [65535; Z.shiftr (v4_bits i) 16; Z.land (v4_bits i) 65535]), []).
Proof.
  intros Hi.
  assert (read_groups 7 true (str "ffff:" ++ show_ipv4 i) =
    ([65535; Z.shiftr (v4_bits i) 16; Z.land (v4_bits i) 65535], true, [])) as Ht.
  { rewrite read_groups_first.
    change (str "ffff:" ++ show_ipv4 i) with (hex16 65535 ++ COLON :: show_ipv4 i).
    rewrite read_ipv4_group; [|by apply hex16_digits|done].
    rewrite read_group by done. cbn [read_groups].
    unfold read_separator at 1. cbn [read_given_char]. rewrite decide_True by done.
    cbn [mbind option_bind Nat.leb]. rewrite <-(app_nil_r (show_ipv4 i)), read_show_ipv4 by done.
    done. }
  unfold read_ipv6_addr.
  change (str "::ffff:" ++ show_ipv4 i) with (COLON :: COLON :: str "ffff:" ++ show_ipv4 i).
  generalize dependent (str "ffff:" ++ show_ipv4 i). intros body Ht. rewrite read_groups_first. change (read_ipv4_addr (COLON :: _)) with (@None (Ipv4Addr * bytes)).
  change (read_number 16 4 true 65535 (COLON :: _)) with (@None (Z * bytes)).
  cbn [length Nat.eqb read_given_char]. rewrite !decide_True by done. cbn [mbind option_bind].
  cbn [read_given_char]. rewrite !decide_True by done. cbn [mbind option_bind].
  change (7 - 0)%nat with 7%nat. by rewrite Ht.
Qed.

(** IPv6 addresses are read back from their text. *)
Lemma parse_show_ipv6 a : ipv6_wf a → parse_ipv6 (show_ipv6 a) = Some a.
Proof.
  intros Hw. unfold show_ipv6, parse_ipv6, whole. pose proof (segments6_range a) as Hr.
  pose proof (ipv6_segments a Hw) as Hseg.
  assert (length (segments6 a) = 8)%nat as Hl by done.
  case_bool_decide as Hm.
  - rewrite read_ipv6_mapped.
    + cbn [mbind option_bind]. rewrite decide_True by done. f_equal.
      etransitivity; [|exact Hseg]. f_equal. rewrite <-(take_drop 6 (segments6 a)), Hm.
      cbn [app v4_bits segments6 fmap list_fmap drop]. rewrite Z.shiftr_0_r.
      replace (Z.land (Z.land (v6_bits a) (2 ^ 32 - 1)) 65535) with (Z.land (v6_bits a) 65535)
        by by rewrite <-Z.land_assoc.
      by rewrite Z.shiftr_land.
    + unfold ipv4_wf. cbn. change (2 ^ 32 - 1) with (Z.ones 32).
      rewrite Z.land_ones by lia. by apply Z.mod_pos_bound.
  - generalize dependent (segments6 a). intros gs Hr Hseg Hl Hm.
    destruct (zero_span 0 (0, 0)%nat (0, 0)%nat gs) as [s n] eqn:Hz.
    assert (zeros_at gs (s, n)) as Hzero.
    { rewrite <-Hz. apply (zero_span_spec []); [by left|intros i Hi; cbn in Hi; lia..]. }
    destruct (1 <? n)%nat eqn:Hn; zbool.
    + destruct (zeros_at_split _ _ _ Hzero) as [Hsn Hsplit]; [lia|].
      rewrite read_ipv6_compressed; [|by apply Forall_take|by apply Forall_drop|len].
      cbn. rewrite <-Hseg. do 2 f_equal. etransitivity; [|symmetry; exact Hsplit].
      rewrite length_drop, length_take. do 3 f_equal. lia.
    + rewrite read_ipv6_full by done. cbn. by rewrite Hseg.
Qed.

(** ** Properties *)

(** The addresses whose text names them: IP addresses in range, and hostnames
    that have no colon and do not read as an IPv4 literal. *)
Definition address_wf (a : Address) : Prop :=
  match a with
  | Addr_Ipv4 i => ipv4_wf i
  | Addr_Ipv6 i => ipv6_wf i
  | Addr_Hostname h => (COLON ∉ h) ∧ parse_ipv4 h = None
  end.

Lemma address_from_show a : address_wf a → address_from (show_address a) = Ok a.
Proof.
  rewrite address_from_eq. unfold address_spec.
  destruct a as [i|i|h]; cbn [address_wf show_address]; intros Hw.
  - by rewrite parse_show_ipv4.
  - rewrite parse_show_ipv6 by done.
    destruct (parse_ipv4 (show_ipv6 i)) as [i4|] eqn:E; [|done]. exfalso.
    apply address_scan_ipv4 in E.
    destruct (parse_ipv6_inv _ _ (parse_show_ipv6 i Hw)) as (p & q & Heq & Hp).
    rewrite Heq in E. apply (f_equal possible_ipv6) in E. by rewrite address_scan_hex in E.
  - destruct Hw as [Hc ->]. by rewrite parse_ipv6_colon, colon_first_none.
Qed.

(** A text split at its last colon, when a port follows it. *)
Lemma netloc_from_str_port s p dp :
  0 ≤ p < 65536 →
  netloc_from_str (s ++ [COLON] ++ dec p) dp = (a ← address_from s; Ok (NetLoc a p)).
Proof.
  intros Hp. unfold netloc_from_str. cbn [app].
  rewrite rsplit_once_app by (apply dec_no_colon; lia).
  rewrite parse_u16_dec by done. by destruct (address_from s).
Qed.

(** Parsing a location returns a location or an error. *)
Lemma netloc_from_str_returns s dp :
  panics (netloc_from_str s dp) = false ∧ netloc_from_str s dp ≠ OutOfFuel.
Proof.
  assert (∀ t, ∃ r, address_from t = r ∧ panics r = false ∧ r ≠ OutOfFuel) as Ha.
  { intros t. eexists. split; [done|]. unfold address_from. cbv zeta.
    by repeat case_match_eqn. }
  unfold netloc_from_str.
  destruct (rsplit_once COLON s) as [[before after]|]; [destruct (parse_u16 after)|];
    cbv beta iota zeta;
    match goal with |- context [address_from ?t] => destruct (Ha t) as (r & -> & Hp & Hf) end;
    destruct r as [[]|e|w|]; try done; by destruct dp.
Qed.


(** C30: a location is read back from its [Display] text, whatever its kind of
    address and whatever the default port. *)
Theorem netloc_roundtrip (l : NetLocation) (default_port : option Z) :
  address_wf (nl_address l) → 0 ≤ nl_port l < 65536 →
  netloc_from_str (show_netloc l) default_port = Ok l.
Proof.
  intros Ha Hp. unfold show_netloc. rewrite netloc_from_str_port by done.
  rewrite address_from_show by done. by destruct l.
Qed.

Lemma netloc_roundtrip_witness :
  netloc_from_str (show_netloc (NetLoc (Addr_Ipv6 (Ipv6 1)) 443)) None =
  Ok (NetLoc (Addr_Ipv6 (Ipv6 1)) 443).
Proof. apply netloc_roundtrip; [by vm_compute|by vm_compute]. Defined.

(** The documented form [[ipv6]:port] is not understood: the text that
    [SocketAddr] prints for an IPv6 endpoint parses to a location whose address
    is a hostname with the brackets in it. *)
Theorem netloc_bracketed_ipv6_is_hostname (ip : Ipv6Addr) (port : Z) :
  0 ≤ port < 65536 →
  netloc_from_str (show_socket_addr (SocketV6 ip port)) None =
  Ok (NetLoc (Addr_Hostname (str "[" ++ show_ipv6 ip ++ str "]")) port).
Proof.
  intros Hp. cbn [show_socket_addr].
  replace (str "[" ++ show_ipv6 ip ++ str "]:" ++ dec port)
    with ((str "[" ++ show_ipv6 ip ++ str "]") ++ [COLON] ++ dec port)
    by by rewrite <-!app_assoc.
  by rewrite netloc_from_str_port by done.
Qed.

Lemma netloc_bracketed_ipv6_witness :
  netloc_from_str (str "[::1]:443") None = Ok (NetLoc (Addr_Hostname (str "[::1]")) 443).
Proof. exact (netloc_bracketed_ipv6_is_hostname (Ipv6 1) 443 ltac:(lia)). Defined.
