(* ===== verification/AnyTlsTypes.v ===== *)
(** * AnyTLS frames and settings (src/anytls/types.rs)

    The command set, the frame encoder, the incremental frame decoder, and the
    [key=value] settings format.  A [Bytes], a [BytesMut] or a [Vec<u8>] is the
    list of its bytes; [put_u8], [put_u32], [put_u16] and [extend_from_slice]
    append to it, [advance] and [split_to] take from its front. *)

From Stdlib Require Import String.
From Stdlib Require Import Wf_nat.
From S2P Require Import Prelude RustStd.

Definition FRAME_HEADER_SIZE : nat := 7.

Inductive Command : Set :=
| Waste | Syn | Psh | Fin | Settings | Alert | UpdatePaddingScheme
| SynAck | HeartRequest | HeartResponse | ServerSettings.

#[export] Instance Command_eq_dec : EqDecision Command.
Proof. solve_decision. Defined.

(** [cmd as u8]. *)
Definition command_u8 (c : Command) : byte :=
  match c with
  | Waste => x00 | Syn => x01 | Psh => x02 | Fin => x03 | Settings => x04
  | Alert => x05 | UpdatePaddingScheme => x06 | SynAck => x07
  | HeartRequest => x08 | HeartResponse => x09 | ServerSettings => x0a
  end.

Definition command_try_from (value : byte) : res Command :=
  match b2z value with
  | 0 => Ok Waste
  | 1 => Ok Syn
  | 2 => Ok Psh
  | 3 => Ok Fin
  | 4 => Ok Settings
  | 5 => Ok Alert
  | 6 => Ok UpdatePaddingScheme
  | 7 => Ok SynAck
  | 8 => Ok HeartRequest
  | 9 => Ok HeartResponse
  | 10 => Ok ServerSettings
  | v => Err (IoError InvalidData (str "unknown command: " ++ dec v))
  end.

Record Frame : Set := MkFrame { f_cmd : Command; f_stream_id : Z; f_data : bytes }.

#[export] Instance Frame_eq_dec : EqDecision Frame.
Proof. solve_decision. Defined.

Definition frame_control (cmd : Command) (stream_id : Z) : Frame := MkFrame cmd stream_id [].
Definition frame_with_data (cmd : Command) (stream_id : Z) (data : bytes) : Frame :=
  MkFrame cmd stream_id data.
Definition frame_data (stream_id : Z) (data : bytes) : Frame :=
  frame_with_data Psh stream_id data.

(** [Frame::encode_into]: the length goes through [as u16]. *)
Definition encode_into (f : Frame) (buf : bytes) : bytes :=
  let buf := buf ++ [command_u8 (f_cmd f)] in
  let buf := buf ++ be_encode 4 (f_stream_id f) in
  let buf := buf ++ be_encode 2 (wrap 16 (Z.of_nat (length (f_data f)))) in
  if bool_decide (f_data f = []) then buf else buf ++ f_data f.

Definition encode_frame (f : Frame) : bytes := encode_into f [].

(** [Frame::decode_header] on a seven-byte array. *)
Definition decode_header (header : bytes) : res (Command * Z * Z) :=
  match header with
  | [h0; h1; h2; h3; h4; h5; h6] =>
      cmd ← command_try_from h0;
      let stream_id := be_decode [h1; h2; h3; h4] in
      let len := be_decode [h5; h6] in
      Ok (cmd, stream_id, len)
  | _ => Panic "try_into().unwrap()"
  end.

(** [FrameCodec::decode]: the state is the receive buffer. *)
Definition decode : M bytes (option Frame) := fun buf =>
  if (length buf <? FRAME_HEADER_SIZE)%nat then (Ok None, buf)
  else
    match decode_header (take FRAME_HEADER_SIZE buf) with
    | Ok (cmd, stream_id, data_len) =>
        let total_len := (FRAME_HEADER_SIZE + Z.to_nat data_len)%nat in
        if (length buf <? total_len)%nat then (Ok None, buf)
        else
          let buf := drop FRAME_HEADER_SIZE buf in
          let '(data, buf) :=
            if 0 <? data_len then (take (Z.to_nat data_len) buf, drop (Z.to_nat data_len) buf)
            else ([], buf) in
          (Ok (Some (MkFrame cmd stream_id data)), buf)
    | Err e => (Err e, buf)
    | Panic w => (Panic w, buf)
    | OutOfFuel => (OutOfFuel, buf)
    end.

(** ** StringMap *)

Abbreviation StringMap := (gmap bytes bytes).

Definition EQ : byte := x3d.

Definition stringmap_insert (k v : bytes) (m : StringMap) : StringMap := <[k := v]> m.
Definition stringmap_get (k : bytes) (m : StringMap) : option bytes := m !! k.

Definition stringmap_line (m : StringMap) (line : bytes) : StringMap :=
  match split_once EQ line with
  | Some (k, v) => stringmap_insert k v m
  | None => m
  end.

Definition stringmap_from_bytes (data : bytes) : StringMap :=
  foldl stringmap_line ∅ (lines (utf8_lossy data)).

Definition kv_line (kv : bytes * bytes) : bytes := kv.1 ++ [EQ] ++ kv.2.

(** [StringMap::to_bytes]; [iter] is the hash map's iteration order. *)
Definition stringmap_to_bytes (iter : StringMap → list (bytes * bytes)) (m : StringMap) : bytes :=
  join [LF] (kv_line <$> iter m).

(** ** The receive side as a whole

    The [while let Some(frame) = FrameCodec::decode(&mut buffer)?] loop of
    [recv_loop]: every frame the buffer holds, what is left, and the error that
    stopped it if one did.  A frame takes at least seven bytes, so the length of
    the buffer is enough fuel. *)

Fixpoint drain_fuel (fuel : nat) (buf : bytes) : list Frame * res unit * bytes :=
  match fuel with
  | O => ([], OutOfFuel, buf)
  | S fuel' =>
      match decode buf with
      | (Ok (Some f), buf') =>
          let '(fs, r, buf'') := drain_fuel fuel' buf' in (f :: fs, r, buf'')
      | (Ok None, buf') => ([], Ok tt, buf')
      | (Err e, buf') => ([], Err e, buf')
      | (Panic w, buf') => ([], Panic w, buf')
      | (OutOfFuel, buf') => ([], OutOfFuel, buf')
      end
  end.

Definition drain (buf : bytes) : list Frame * res unit * bytes := drain_fuel (S (length buf)) buf.

(** ** Lemmas on commands and headers *)

Definition frame_wf (f : Frame) : Prop :=
  0 ≤ f_stream_id f < 2 ^ 32 ∧ Z.of_nat (length (f_data f)) < 2 ^ 16.

Lemma command_try_from_u8 c : command_try_from (command_u8 c) = Ok c.
Proof. by destruct c. Qed.

Lemma command_u8_try_from b c : command_try_from b = Ok c → command_u8 c = b.
Proof. intros H. destruct b; vm_compute in H; simplify_eq; reflexivity. Qed.

Lemma command_try_from_err b e :
  command_try_from b = Err e → 10 < b2z b.
Proof. intros H. destruct b; (discriminate H || reflexivity). Qed.

Lemma command_try_from_cases b :
  (∃ c, command_try_from b = Ok c) ∨ (∃ e, command_try_from b = Err e).
Proof. destruct b; vm_compute; eauto. Qed.

Lemma encode_frame_eq f :
  encode_frame f =
  [command_u8 (f_cmd f)] ++ be_encode 4 (f_stream_id f) ++
  be_encode 2 (wrap 16 (Z.of_nat (length (f_data f)))) ++ f_data f.
Proof.
  unfold encode_frame, encode_into. case_bool_decide as Hd.
  - rewrite Hd, app_nil_r. by rewrite <-!app_assoc.
  - by rewrite <-!app_assoc.
Qed.

Lemma length_encode_frame f : length (encode_frame f) = (7 + length (f_data f))%nat.
Proof. rewrite encode_frame_eq, !length_app, !length_be_encode. cbn. lia. Qed.

Lemma encode_into_app f buf : encode_into f buf = buf ++ encode_frame f.
Proof.
  unfold encode_frame, encode_into. case_bool_decide; by rewrite <-!app_assoc.
Qed.

(** The seven header bytes of an encoded frame. *)
Lemma decode_header_encode c id n :
  0 ≤ id < 2 ^ 32 → 0 ≤ n < 2 ^ 16 →
  decode_header ([command_u8 c] ++ be_encode 4 id ++ be_encode 2 n) = Ok (c, id, n).
Proof.
  intros Hid Hn.
  pose proof (be_decode_encode_small 4 id Hid) as H4.
  pose proof (be_decode_encode_small 2 n Hn) as H2.
  pose proof (length_be_encode 4 id) as L4. pose proof (length_be_encode 2 n) as L2.
  destruct (be_encode 4 id) as [|a0 [|a1 [|a2 [|a3 [|]]]]]; try discriminate L4.
  destruct (be_encode 2 n) as [|c0 [|c1 [|]]]; try discriminate L2.
  cbn [app decode_header]. rewrite command_try_from_u8. cbn [mbind res_bind].
  by rewrite H4, H2.
Qed.

Lemma decode_header_cases h :
  length h = 7%nat →
  (∃ c id n, decode_header h = Ok (c, id, n) ∧
     h = [command_u8 c] ++ be_encode 4 id ++ be_encode 2 n ∧
     0 ≤ id < 2 ^ 32 ∧ 0 ≤ n < 2 ^ 16) ∨
  (∃ e, decode_header h = Err e ∧ ∃ b t, h = b :: t ∧ 10 < b2z b).
Proof.
  intros Hl. destruct h as [|h0 [|h1 [|h2 [|h3 [|h4 [|h5 [|h6 [|]]]]]]]]; try discriminate Hl.
  cbn [decode_header].
  destruct (command_try_from_cases h0) as [[c Hc]|[e He]].
  - left. exists c, (be_decode [h1; h2; h3; h4]), (be_decode [h5; h6]).
    rewrite Hc. pose proof (be_encode_decode [h1; h2; h3; h4]) as E4.
    pose proof (be_encode_decode [h5; h6]) as E2. cbn [length] in E4, E2.
    pose proof (be_decode_range [h1; h2; h3; h4] : 0 ≤ _ < 2 ^ 32).
    pose proof (be_decode_range [h5; h6] : 0 ≤ _ < 2 ^ 16).
    rewrite E4, E2, (command_u8_try_from _ _ Hc). done.
  - right. exists e. rewrite He. split; [done|]. eauto using command_try_from_err.
Qed.

(** ** The decoder on each kind of buffer *)

Lemma decode_short buf : (length buf < 7)%nat → decode buf = (Ok None, buf).
Proof. intros. unfold decode. by rewrite (proj2 (Nat.ltb_lt _ _)). Qed.

(** A header and at least the data it announces. *)
Lemma decode_full c id n data rest :
  0 ≤ id < 2 ^ 32 → 0 ≤ n < 2 ^ 16 → length data = Z.to_nat n →
  decode (([command_u8 c] ++ be_encode 4 id ++ be_encode 2 n) ++ data ++ rest) =
  (Ok (Some (MkFrame c id data)), rest).
Proof.
  intros Hid Hn Hd. unfold decode. pose proof (decode_header_encode c id n Hid Hn) as Hdec.
  assert (length ([command_u8 c] ++ be_encode 4 id ++ be_encode 2 n) = 7%nat) as Hh
    by by rewrite !length_app, !length_be_encode.
  generalize dependent ([command_u8 c] ++ be_encode 4 id ++ be_encode 2 n). intros h Hdec Hh.
  rewrite (proj2 (Nat.ltb_ge _ _)) by (rewrite length_app; unfold FRAME_HEADER_SIZE; lia).
  rewrite take_app_length' by done. rewrite Hdec.
  rewrite (proj2 (Nat.ltb_ge _ _)) by (rewrite !length_app; unfold FRAME_HEADER_SIZE; lia).
  rewrite drop_app_length' by done. destruct (0 <? n) eqn:Hz; zbool.
  - by rewrite take_app_length', drop_app_length' by lia.
  - destruct data; [done|]. cbn in Hd. lia.
Qed.

(** A header with less data than it announces. *)
Lemma decode_partial c id n data :
  0 ≤ id < 2 ^ 32 → 0 ≤ n < 2 ^ 16 → (length data < Z.to_nat n)%nat →
  let buf := ([command_u8 c] ++ be_encode 4 id ++ be_encode 2 n) ++ data in
  decode buf = (Ok None, buf).
Proof.
  intros Hid Hn Hd. unfold decode. pose proof (decode_header_encode c id n Hid Hn) as Hdec.
  assert (length ([command_u8 c] ++ be_encode 4 id ++ be_encode 2 n) = 7%nat) as Hh
    by by rewrite !length_app, !length_be_encode.
  generalize dependent ([command_u8 c] ++ be_encode 4 id ++ be_encode 2 n). intros h Hdec Hh.
  cbv zeta. rewrite (proj2 (Nat.ltb_ge _ _)) by (rewrite length_app; unfold FRAME_HEADER_SIZE; lia).
  rewrite take_app_length' by done. rewrite Hdec.
  by rewrite (proj2 (Nat.ltb_lt _ _)) by (rewrite length_app; unfold FRAME_HEADER_SIZE; lia).
Qed.

(** Every buffer is one of four: too short for a header, a bad command, a
    partial frame, or a frame and more. *)
Inductive buffer_view (buf : bytes) : res (option Frame) * bytes → Prop :=
| view_short : (length buf < 7)%nat → buffer_view buf (Ok None, buf)
| view_bad e b t : buf = b :: t → 10 < b2z b → (7 ≤ length buf)%nat →
    buffer_view buf (Err e, buf)
| view_partial c id n data : 0 ≤ id < 2 ^ 32 → 0 ≤ n < 2 ^ 16 → (length data < Z.to_nat n)%nat →
    buf = ([command_u8 c] ++ be_encode 4 id ++ be_encode 2 n) ++ data →
    buffer_view buf (Ok None, buf)
| view_frame f rest : frame_wf f → buf = encode_frame f ++ rest →
    buffer_view buf (Ok (Some f), rest).

Lemma decode_view buf : buffer_view buf (decode buf).
Proof.
  destruct (decide (length buf < 7)%nat) as [Hs|Hs].
  { rewrite decode_short by done. by constructor. }
  rewrite <-(take_drop 7 buf). set (h := take 7 buf). set (d := drop 7 buf).
  assert (length h = 7%nat) as Hh by (unfold h; len).
  destruct (decode_header_cases h Hh) as [(c & id & n & Hdec & Heq & Hid & Hn)|(e & Hdec & b & t & Heq & Hb)].
  - destruct (decide (length d < Z.to_nat n)%nat) as [Hp|Hp].
    + rewrite Heq, decode_partial by done. by eapply view_partial.
    + rewrite <-(take_drop (Z.to_nat n) d), Heq.
      assert (length (take (Z.to_nat n) d) = Z.to_nat n) as Hl by (rewrite length_take; lia).
      rewrite decode_full by done. eapply view_frame.
      * split; cbn; lia.
      * rewrite encode_frame_eq. cbn [f_cmd f_stream_id f_data]. rewrite Hl, Z2Nat.id by lia.
        unfold wrap. rewrite Z.mod_small by lia. by rewrite <-!app_assoc.
  - replace (decode (h ++ d)) with (@Err (option Frame) e, h ++ d).
    + eapply view_bad; [by rewrite Heq|done|rewrite length_app; lia].
    + unfold decode.
      rewrite (proj2 (Nat.ltb_ge _ _)) by (rewrite length_app; unfold FRAME_HEADER_SIZE; lia).
      rewrite take_app_length' by done. by rewrite Hdec.
Qed.

Lemma decode_encode f rest :
  frame_wf f → decode (encode_frame f ++ rest) = (Ok (Some f), rest).
Proof.
  intros [Hid Hd].
  replace (encode_frame f ++ rest) with
    (([command_u8 (f_cmd f)] ++ be_encode 4 (f_stream_id f) ++
      be_encode 2 (Z.of_nat (length (f_data f)))) ++ f_data f ++ rest).
  - rewrite decode_full by lia. by destruct f.
  - rewrite encode_frame_eq. unfold wrap. rewrite Z.mod_small by lia. by rewrite <-!app_assoc.
Qed.

(** ** Draining the buffer *)

Lemma decode_length f buf buf' :
  decode buf = (Ok (Some f), buf') → length buf = (length buf' + 7 + length (f_data f))%nat.
Proof.
  intros H. pose proof (decode_view buf) as V. rewrite H in V. inversion V; subst.
  rewrite length_app, length_encode_frame. lia.
Qed.

Lemma drain_fuel_enough n m buf :
  (length buf < n)%nat → (length buf < m)%nat → drain_fuel n buf = drain_fuel m buf.
Proof.
  revert m buf. induction n as [|n IH]; intros m buf Hn Hm; [lia|].
  destruct m as [|m]; [lia|]. cbn [drain_fuel].
  destruct (decode buf) as [[[f|]| | |] buf'] eqn:E; try done.
  apply decode_length in E. by rewrite (IH m) by lia.
Qed.

Lemma drain_step buf :
  drain buf =
  match decode buf with
  | (Ok (Some f), buf') => let '(fs, r, buf'') := drain buf' in (f :: fs, r, buf'')
  | (Ok None, buf') => ([], Ok tt, buf')
  | (Err e, buf') => ([], Err e, buf')
  | (Panic w, buf') => ([], Panic w, buf')
  | (OutOfFuel, buf') => ([], OutOfFuel, buf')
  end.
Proof.
  unfold drain at 1. cbn [drain_fuel].
  destruct (decode buf) as [[[f|]| | |] buf'] eqn:E; try done.
  apply decode_length in E. unfold drain. by rewrite (drain_fuel_enough (length buf) (S (length buf'))) by lia.
Qed.

(** Bytes that arrive later do not change a frame that is already complete, nor
    the verdict on a bad command. *)
Lemma decode_more f buf buf' more :
  decode buf = (Ok (Some f), buf') → decode (buf ++ more) = (Ok (Some f), buf' ++ more).
Proof.
  intros H. pose proof (decode_view buf) as V. rewrite H in V. inversion V; subst.
  rewrite <-app_assoc. by apply decode_encode.
Qed.

Lemma decode_err_more e buf buf' more :
  decode buf = (Err e, buf') → decode (buf ++ more) = (Err e, buf' ++ more) ∧ buf' = buf.
Proof.
  unfold decode. intros H. destruct (length buf <? FRAME_HEADER_SIZE)%nat eqn:Hs; [done|]. zbool.
  rewrite (proj2 (Nat.ltb_ge _ _)) by (rewrite length_app; lia).
  rewrite take_app_le by done.
  destruct (decode_header _) as [[[c id] n]|e'|w|]; try done; [|by simplify_eq].
  repeat case_in H; simplify_eq.
Qed.

Lemma decode_none buf buf' : decode buf = (Ok None, buf') → buf' = buf.
Proof.
  intros H. pose proof (decode_view buf) as V. rewrite H in V. by inversion V.
Qed.

Lemma decode_no_panic buf :
  (∃ o, (decode buf).1 = Ok o) ∨ (∃ e, (decode buf).1 = Err e).
Proof. destruct (decode_view buf); cbn; eauto. Qed.

Lemma drain_app buf more :
  drain (buf ++ more) =
  let '(fs, r, rest) := drain buf in
  match r with
  | Ok _ => let '(fs', r', rest') := drain (rest ++ more) in (fs ++ fs', r', rest')
  | _ => (fs, r, rest ++ more)
  end.
Proof.
  induction buf as [buf IH] using (induction_ltof1 _ (@length byte)).
  unfold ltof in IH. rewrite (drain_step buf).
  destruct (decode buf) as [[[f|]|e|w|] buf'] eqn:E.
  - rewrite drain_step, (decode_more _ _ _ more E). rewrite IH by (apply decode_length in E; lia).
    destruct (drain buf') as [[fs r] rest]. destruct r; try done.
    by destruct (drain (rest ++ more)) as [[fs' r'] rest'].
  - apply decode_none in E as ->. by destruct (drain (buf ++ more)) as [[fs' r'] rest'].
  - rewrite drain_step. by destruct (decode_err_more _ _ _ more E) as [-> _].
  - by destruct (decode_no_panic buf) as [[o H]|[e H]]; rewrite E in H.
  - by destruct (decode_no_panic buf) as [[o H]|[e H]]; rewrite E in H.
Qed.

Lemma drain_frames fs tail :
  Forall frame_wf fs →
  drain (concat (encode_frame <$> fs) ++ tail) =
  let '(fs', r, rest) := drain tail in (fs ++ fs', r, rest).
Proof.
  induction 1 as [|f fs Hf _ IH]; cbn [fmap list_fmap concat app].
  - by destruct (drain tail) as [[]].
  - rewrite <-app_assoc, drain_step, decode_encode by done. rewrite IH.
    by destruct (drain tail) as [[]].
Qed.

Lemma drain_terminates buf fs r rest : drain buf = (fs, r, rest) → r ≠ OutOfFuel ∧ panics r = false.
Proof.
  revert fs r rest. induction buf as [buf IH] using (induction_ltof1 _ (@length byte)).
  unfold ltof in IH. intros fs r rest. rewrite drain_step.
  destruct (decode_no_panic buf) as [[o H]|[e H]];
    destruct (decode buf) as [[[f|]| | |] buf'] eqn:E; cbn in H; simplify_eq; intros H'.
  - destruct (drain buf') as [[]] eqn:E'. simplify_eq. apply (IH buf') in E'; [done|].
    apply decode_length in E. lia.
  - by simplify_eq.
  - by simplify_eq.
Qed.

(** ** Settings *)

(** A pair the settings format can carry. *)
Definition setting_wf (kv : bytes * bytes) : Prop :=
  utf8_valid kv.1 = true ∧ utf8_valid kv.2 = true ∧
  (EQ ∉ kv.1) ∧ (LF ∉ kv.1) ∧ (LF ∉ kv.2) ∧ last kv.2 ≠ Some CR.

Lemma kv_line_wf kv :
  setting_wf kv → kv_line kv ≠ [] ∧ (LF ∉ kv_line kv) ∧ last (kv_line kv) ≠ Some CR.
Proof.
  intros (_ & _ & _ & Hk & Hv & Hcr). unfold kv_line. destruct kv as [k v]; cbn in *.
  repeat split.
  - by destruct k.
  - intros [?|[Heq|?]%elem_of_cons]%elem_of_app; [done| |done]. discriminate Heq.
  - rewrite last_app_cons. destruct v as [|b v]; [done|]. by rewrite last_cons_cons.
Qed.

Lemma stringmap_lines_foldl kvs acc :
  Forall setting_wf kvs →
  foldl stringmap_line acc (kv_line <$> kvs) = foldl (fun m kv => <[kv.1 := kv.2]> m) acc kvs.
Proof.
  intros H. revert acc. induction H as [|[k v] kvs (_ & _ & Hk & _) _ IH]; intros acc; [done|].
  cbn [fmap list_fmap foldl]. rewrite <-IH. unfold stringmap_line at 2, kv_line, stringmap_insert.
  cbn in Hk |- *. by rewrite split_once_app.
Qed.

Lemma foldl_insert_map (kvs : list (bytes * bytes)) (acc : StringMap) :
  NoDup kvs.*1 → foldl (fun m kv => <[kv.1 := kv.2]> m) acc kvs = list_to_map kvs ∪ acc.
Proof.
  revert acc. induction kvs as [|[k v] kvs IH]; intros acc Hnd; cbn.
  - by rewrite (left_id_L ∅ (∪)).
  - apply NoDup_cons in Hnd as [Hk Hnd]. rewrite IH by done.
    rewrite <-insert_union_r by by apply not_elem_of_list_to_map. by rewrite insert_union_l.
Qed.

(** Settings are read back from their serialized form, whatever order the
    hash map iterates in. *)
Theorem stringmap_roundtrip (iter : StringMap → list (bytes * bytes)) (m : StringMap) :
  iter m ≡ₚ map_to_list m → Forall setting_wf (map_to_list m) →
  stringmap_from_bytes (stringmap_to_bytes iter m) = m.
Proof.
  intros Hp Hwf. rewrite <-Hp in Hwf. unfold stringmap_from_bytes, stringmap_to_bytes.
  rewrite utf8_lossy_valid, lines_join, stringmap_lines_foldl, foldl_insert_map.
  - rewrite (right_id_L ∅ (∪)). etransitivity; [|apply list_to_map_to_list].
    apply list_to_map_proper; [|done]. rewrite Hp. apply NoDup_fst_map_to_list.
  - rewrite Hp. apply NoDup_fst_map_to_list.
  - done.
  - apply Forall_fmap. eapply Forall_impl; [done|]. intros kv. apply kv_line_wf.
  - apply utf8_valid_join; [done|]. apply Forall_fmap. eapply Forall_impl; [done|].
    intros kv (Hk & Hv & _). cbn. unfold kv_line. by rewrite !utf8_valid_app.
Qed.

Lemma stringmap_roundtrip_witness :
  stringmap_from_bytes (stringmap_to_bytes map_to_list {[str "v" := str "2"]}) =
  {[str "v" := str "2"]}.
Proof.
  apply stringmap_roundtrip; [done|].
  rewrite map_to_list_singleton. apply Forall_singleton.
  unfold setting_wf. vm_compute.
  repeat split; try done; intros H; repeat (apply elem_of_cons in H as [H|H]; [discriminate H|]);
    by apply elem_of_nil in H.
Defined.

(** C6: [FrameCodec::decode] is the exact inverse of [Frame::encode_into] on
    frames whose id and length fit their fields: it returns a frame precisely
    when the buffer starts with that frame's encoding, and leaves what follows. *)
Theorem decode_iff_encode (buf rest : bytes) (f : Frame) :
  decode buf = (Ok (Some f), rest) ↔ frame_wf f ∧ buf = encode_into f [] ++ rest.
Proof.
  split.
  - intros H. pose proof (decode_view buf) as V. rewrite H in V. by inversion V.
  - intros [Hf ->]. by apply decode_encode.
Qed.

(** A frame of 64 KiB or more does not survive: its length field wraps, and
    the decoder returns a frame that is cut short and resumes inside the data. *)
Theorem encode_wraps_length (c : Command) (id : Z) (data rest : bytes) :
  0 ≤ id < 2 ^ 32 → 2 ^ 16 ≤ Z.of_nat (length data) →
  let n := Z.to_nat (Z.of_nat (length data) mod 2 ^ 16) in
  decode (encode_into (MkFrame c id data) [] ++ rest) =
  (Ok (Some (MkFrame c id (take n data))), drop n data ++ rest).
Proof.
  intros Hid Hbig n. change (encode_into ?f []) with (encode_frame f).
  pose proof (Z.mod_pos_bound (Z.of_nat (length data)) (2 ^ 16) ltac:(lia)) as Hr.
  pose proof (Z.mod_le (Z.of_nat (length data)) (2 ^ 16) ltac:(lia) ltac:(lia)) as Hle.
  rewrite encode_frame_eq. cbn [f_cmd f_stream_id f_data].
  rewrite <-(take_drop n data) at 2.
  rewrite <-!app_assoc, (app_assoc (be_encode 4 id)), (app_assoc [_]).
  apply decode_full; [done|exact Hr|]. rewrite length_take. unfold n, wrap. lia.
Qed.

Lemma encode_wraps_length_witness :
  let data := replicate (Z.to_nat 65537) x41 in
  decode (encode_into (MkFrame Psh 1 data) [] ++ []) =
  (Ok (Some (MkFrame Psh 1 (take 1 data))), drop 1 data ++ []).
Proof.
  intros data.
  assert (Z.to_nat (Z.of_nat (length data) mod 2 ^ 16) = 1%nat) as Hn
    by (unfold data; rewrite length_replicate, Z2Nat.id by lia; reflexivity).
  rewrite (encode_wraps_length Psh 1 data [] ltac:(lia)).
  - by rewrite Hn.
  - unfold data. rewrite length_replicate. lia.
Defined.
