(* ===== verification/Padding.v ===== *)
(** * The AnyTLS padding scheme (src/anytls/padding.rs)

    Parsing the scheme and drawing the record sizes of a packet.  MD5 and the
    random generator are parameters: [md5] maps the scheme to its digest, and
    [random_range i lo hi] is the [i]-th draw from [lo..=hi]. *)

From Stdlib Require Import String.
From S2P Require Import Prelude RustStd AnyTlsTypes.

Definition CHECK_MARK : Z := -1.

(** [as i32]. *)
Definition as_i32 (z : Z) : Z := (z + 2 ^ 31) mod 2 ^ 32 - 2 ^ 31.

Definition DEFAULT_PADDING_SCHEME : bytes := join [LF]
  [str "stop=8"; str "0=30-30"; str "1=100-400";
   str "2=400-500,c,500-1000,c,500-1000,c,500-1000,c,500-1000";
   str "3=9-9,500-1000"; str "4=500-1000"; str "5=500-1000"; str "6=500-1000";
   str "7=500-1000"].

Record PaddingFactory : Type := MkPadding {
  pf_scheme : StringMap;
  pf_raw_scheme : bytes;
  pf_stop : Z;
  pf_md5 : bytes }.

(** The error of [PaddingFactory::new] is a plain [String]. *)
Definition padding_new (md5 : bytes → bytes) (raw_scheme : bytes) : PaddingFactory + bytes :=
  let scheme := stringmap_from_bytes raw_scheme in
  match stringmap_get (str "stop") scheme with
  | None => inr (str "missing 'stop' in padding scheme")
  | Some s =>
      match parse_u32 s with
      | None => inr (str "invalid 'stop' value in padding scheme")
      | Some stop =>
          inl (MkPadding scheme raw_scheme stop (concat (hex_byte <$> md5 raw_scheme)))
      end
  end.

(** [default_factory] and [Default::default]: [expect] panics on an error. *)
Definition default_factory (md5 : bytes → bytes) : res PaddingFactory :=
  match padding_new md5 DEFAULT_PADDING_SCHEME with
  | inl f => Ok f
  | inr _ => Panic "default padding scheme should be valid"
  end.

Definition COMMA : byte := x2c.
Definition DASH : byte := x2d.

(** A positive [i64], as the two bounds of a range must be. *)
Definition parse_bound (s : bytes) : option Z :=
  match parse_i64 (trim s) with
  | Some v => if 0 <? v then Some v else None
  | None => None
  end.

(** One comma-separated part: the size it contributes, if any, and whether it drew. *)
Definition part_size (random_range : nat → Z → Z → Z) (draw : nat) (part : bytes) :
    option Z * nat :=
  let part := trim part in
  if decide (part = str "c") then (Some CHECK_MARK, draw)
  else
    match split_once DASH part with
    | None => (None, draw)
    | Some (min_str, max_str) =>
        match parse_bound min_str, parse_bound max_str with
        | Some a, Some b =>
            let min_val := Z.min a b in
            let max_val := Z.max a b in
            if min_val =? max_val then (Some (as_i32 min_val), draw)
            else (Some (as_i32 (random_range draw min_val max_val)), S draw)
        | _, _ => (None, draw)
        end
    end.

Fixpoint parts_sizes (random_range : nat → Z → Z → Z) (draw : nat) (parts : list bytes) : list Z :=
  match parts with
  | [] => []
  | p :: ps =>
      let '(o, draw') := part_size random_range draw p in
      match o with
      | Some size => size :: parts_sizes random_range draw' ps
      | None => parts_sizes random_range draw' ps
      end
  end.

Definition generate_record_payload_sizes (random_range : nat → Z → Z → Z)
    (f : PaddingFactory) (pkt : Z) : list Z :=
  match stringmap_get (dec pkt) (pf_scheme f) with
  | None => []
  | Some spec => parts_sizes random_range 0 (split COMMA spec)
  end.

(** What the generator promises. *)
Definition random_range_ok (random_range : nat → Z → Z → Z) : Prop :=
  ∀ i lo hi, lo ≤ hi → lo ≤ random_range i lo hi ≤ hi.

(** ** Lemmas *)

Lemma as_i32_small z : - 2 ^ 31 ≤ z < 2 ^ 31 → as_i32 z = z.
Proof. intros. unfold as_i32. rewrite Z.mod_small; lia. Qed.

Lemma as_i32_range z : - 2 ^ 31 ≤ as_i32 z < 2 ^ 31.
Proof. unfold as_i32. pose proof (Z.mod_pos_bound (z + 2 ^ 31) (2 ^ 32) ltac:(lia)). lia. Qed.

(** The bounds a part writes down; [None] when the part contributes no range. *)
Definition part_bounds (part : bytes) : option (Z * Z) :=
  '(a, b) ← split_once DASH (trim part);
  a ← parse_bound a; b ← parse_bound b; Some (Z.min a b, Z.max a b).

Lemma parse_bound_pos s v : parse_bound s = Some v → 0 < v.
Proof. unfold parse_bound. intros H. repeat case_in H; simplify_eq. by zbool. Qed.

Lemma part_size_range rr draw part size draw' :
  random_range_ok rr → part_size rr draw part = (Some size, draw') →
  size = CHECK_MARK ∨
  ∃ lo hi v, part_bounds part = Some (lo, hi) ∧ 0 < lo ∧ lo ≤ v ≤ hi ∧ size = as_i32 v.
Proof.
  intros Hrr H. unfold part_size, part_bounds in *. cbv zeta in H.
  destruct (decide (trim part = str "c")); [left; congruence|].
  destruct (split_once DASH (trim part)) as [[a b]|]; [|done]. cbn [mbind option_bind].
  destruct (parse_bound a) as [a'|] eqn:Ea; [|done].
  destruct (parse_bound b) as [b'|] eqn:Eb; [|done].
  apply parse_bound_pos in Ea, Eb. right. cbn [mbind option_bind].
  exists (Z.min a' b'), (Z.max a' b').
  destruct (Z.min a' b' =? Z.max a' b') eqn:Em; zbool; simplify_eq.
  - exists (Z.min a' b'). repeat split; lia.
  - exists (rr draw (Z.min a' b') (Z.max a' b')). pose proof (Hrr draw (Z.min a' b') (Z.max a' b')).
    repeat split; lia.
Qed.

(** Every size drawn comes from a part of the list: a check mark or a value of a range. *)
Lemma parts_sizes_range rr draw parts :
  random_range_ok rr →
  Forall (fun size => size = CHECK_MARK ∨
    ∃ part lo hi v, part ∈ parts ∧ part_bounds part = Some (lo, hi) ∧ 0 < lo ∧ lo ≤ v ≤ hi ∧
      size = as_i32 v) (parts_sizes rr draw parts).
Proof.
  intros Hrr. revert draw. induction parts as [|p ps IH]; intros draw; cbn; [constructor|].
  destruct (part_size rr draw p) as [[size|] draw'] eqn:E.
  - constructor.
    + destruct (part_size_range _ _ _ _ _ Hrr E) as [?|(lo & hi & v & ?)]; [by left|].
      right. exists p, lo, hi, v. split; [left|done].
    + eapply Forall_impl; [apply IH|]. cbn. intros size' [?|(q & ? & ? & ? & ? & ?)]; [by left|].
      right. do 4 eexists. split; [by right|done].
  - eapply Forall_impl; [apply IH|]. cbn. intros size' [?|(q & ? & ? & ? & ? & ?)]; [by left|].
    right. do 4 eexists. split; [by right|done].
Qed.

(** The ranges of a part stay under [limit]. *)
Definition part_below (limit : Z) (part : bytes) : bool :=
  match part_bounds part with Some (_, hi) => hi <=? limit | None => true end.

Lemma parts_sizes_below rr draw parts limit :
  random_range_ok rr → limit < 2 ^ 31 → forallb (part_below limit) parts = true →
  Forall (fun size => size = CHECK_MARK ∨ 0 < size ≤ limit) (parts_sizes rr draw parts).
Proof.
  intros Hrr Hl Hb. eapply Forall_impl; [by apply parts_sizes_range|].
  intros size [?|(part & lo & hi & v & Hin & Hp & Hlo & Hv & ->)]; [by left|right].
  rewrite forallb_forall in Hb. apply list_elem_of_In, Hb in Hin.
  unfold part_below in Hin. rewrite Hp in Hin. zbool.
  rewrite as_i32_small by lia. lia.
Qed.

(** The default scheme's own map, for every MD5. *)
Definition default_scheme : StringMap := stringmap_from_bytes DEFAULT_PADDING_SCHEME.

Definition default_padding (md5 : bytes → bytes) : PaddingFactory :=
  MkPadding default_scheme DEFAULT_PADDING_SCHEME 8 (concat (hex_byte <$> md5 DEFAULT_PADDING_SCHEME)).

Lemma padding_new_default md5 : padding_new md5 DEFAULT_PADDING_SCHEME = inl (default_padding md5).
Proof.
  unfold padding_new.
  replace (stringmap_get (str "stop") (stringmap_from_bytes DEFAULT_PADDING_SCHEME))
    with (Some (str "8")) by by vm_compute.
  done.
Qed.

(** ** Properties *)

(** The default scheme is valid, so the [expect] in [default_factory] never
    panics; padding stops at packet eight, and the digest sent to clients is the
    hexadecimal MD5 of the very bytes sent to them. *)
Theorem default_factory_valid (md5 : bytes → bytes) :
  ∃ f, default_factory md5 = Ok f ∧ pf_stop f = 8 ∧
       pf_raw_scheme f = DEFAULT_PADDING_SCHEME ∧
       pf_md5 f = concat (hex_byte <$> md5 (pf_raw_scheme f)).
Proof. exists (default_padding md5). unfold default_factory. by rewrite padding_new_default. Qed.

(** With any scheme whose ranges stay below 2^31, every size of a packet is
    the check mark or a positive number no larger than the largest bound written
    in that packet's rule: no size turns negative in the cast to [i32]. *)
Theorem generate_sizes_bounded (random_range : nat → Z → Z → Z) (f : PaddingFactory)
    (pkt limit : Z) (spec : bytes) :
  random_range_ok random_range → stringmap_get (dec pkt) (pf_scheme f) = Some spec →
  forallb (part_below limit) (split COMMA spec) = true → limit < 2 ^ 31 →
  Forall (fun size => size = CHECK_MARK ∨ 0 < size ≤ limit)
    (generate_record_payload_sizes random_range f pkt).
Proof.
  intros Hrr Hs Hb Hl. unfold generate_record_payload_sizes. rewrite Hs.
  by apply parts_sizes_below.
Qed.

Lemma generate_sizes_bounded_witness :
  Forall (fun size => size = CHECK_MARK ∨ 0 < size ≤ 1000)
    (generate_record_payload_sizes (fun _ lo _ => lo) (default_padding (fun _ => [])) 2).
Proof.
  apply (generate_sizes_bounded (fun _ lo _ => lo) (default_padding (fun _ => [])) 2 1000
           (str "400-500,c,500-1000,c,500-1000,c,500-1000,c,500-1000")).
  - intros i lo hi H. split; [apply Z.le_refl|exact H].
  - by vm_compute.
  - by vm_compute.
  - by vm_compute.
Defined.
