(* ===== verification/AsyncStream.v ===== *)
(** * Streams (src/async_stream.rs, src/util.rs)

    The traits the protocol code is written against, as type classes, and what
    it relies on of them, as laws.  A poll either is [Pending] or is [Ready] with
    a result; [poll_read n s] polls with a [ReadBuf] of [n] free bytes and
    returns the bytes put into it.  An [.await] polls until [Ready]. *)

From Stdlib Require Import String.
From S2P Require Import Prelude.

Inductive poll (A : Type) : Type := Ready (a : A) | Pending.
Arguments Ready {A} _.
Arguments Pending {A}.

(** [waits s] bounds how many polls in a row come back with nothing, [Pending]
    or [Interrupted]: it is the fuel of the loops that await the stream. *)
Class AsyncRead (T : Type) : Type := {
  poll_read : nat → T → poll (res bytes) * T;
  waits : T → nat }.

Class AsyncWrite (T : Type) : Type := {
  poll_write : bytes → T → poll (res nat) * T;
  poll_flush : T → poll (res unit) * T;
  poll_shutdown : T → poll (res unit) * T;
  write_waits : T → nat }.

Class AsyncPing (T : Type) : Type := {
  supports_ping : T → bool;
  poll_write_ping : T → poll (res bool) * T }.

Class AsyncReadMessage (T : Type) : Type :=
  poll_read_message : nat → T → poll (res bytes) * T.
Class AsyncWriteMessage (T : Type) : Type :=
  poll_write_message : bytes → T → poll (res unit) * T.
Class AsyncFlushMessage (T : Type) : Type :=
  poll_flush_message : T → poll (res unit) * T.
Class AsyncShutdownMessage (T : Type) : Type :=
  poll_shutdown_message : T → poll (res unit) * T.

(** ** What a reader promises

    [incoming s] is what the peer still delivers before the end of the stream
    or an error. *)
Class AsyncReadLaws (T : Type) `{AsyncRead T} : Type := {
  incoming : T → bytes;
  poll_read_ok n s bs s' : poll_read n s = (Ready (Ok bs), s') →
    (length bs ≤ n)%nat ∧ incoming s = bs ++ incoming s' ∧
    ((0 < n)%nat → bs = [] → incoming s = []);
  poll_read_pending n s s' : poll_read n s = (Pending, s') →
    incoming s' = incoming s ∧ (waits s' < waits s)%nat;
  poll_read_interrupted n s e s' : poll_read n s = (Ready (Err e), s') →
    err_kind e = Interrupted → incoming s' = incoming s ∧ (waits s' < waits s)%nat;
  poll_read_returns n s r s' : poll_read n s = (Ready r, s') →
    r ≠ OutOfFuel ∧ panics r = false }.

(** ** What a writer promises: it accepts a prefix of what it is given. *)
Class AsyncWriteLaws (T : Type) `{AsyncWrite T} : Type := {
  written : T → bytes;
  poll_write_ok bs s k s' : poll_write bs s = (Ready (Ok k), s') →
    (k ≤ length bs)%nat ∧ written s' = written s ++ take k bs;
  poll_write_pending bs s s' : poll_write bs s = (Pending, s') →
    written s' = written s ∧ (write_waits s' < write_waits s)%nat;
  poll_write_err bs s e s' : poll_write bs s = (Ready (Err e), s') → written s' = written s;
  poll_write_returns bs s r s' : poll_write bs s = (Ready r, s') →
    r ≠ OutOfFuel ∧ panics r = false;
  poll_flush_written s : written (poll_flush s).2 = written s;
  poll_flush_pending s s' : poll_flush s = (Pending, s') → (write_waits s' < write_waits s)%nat;
  poll_flush_returns s r s' : poll_flush s = (Ready r, s') → r ≠ OutOfFuel ∧ panics r = false;
  poll_shutdown_written s : written (poll_shutdown s).2 = written s;
  poll_shutdown_pending s s' : poll_shutdown s = (Pending, s') →
    (write_waits s' < write_waits s)%nat;
  poll_shutdown_returns s r s' : poll_shutdown s = (Ready r, s') → r ≠ OutOfFuel ∧ panics r = false }.

(** A writer that takes at least one byte whenever it takes any. *)
Class WriteProgress (T : Type) `{AsyncWrite T} : Prop :=
  poll_write_progress bs s k s' : poll_write bs s = (Ready (Ok k), s') → bs ≠ [] → (0 < k)%nat.

(** A ping does not count as payload, and one that is supported returns; whether
    pings are supported does not change. *)
Class AsyncPingLaws (T : Type) `{AsyncWriteLaws T} `{!AsyncPing T} : Prop := {
  ping_written (s : T) : written (poll_write_ping s).2 = written s;
  ping_returns (s : T) r s' : supports_ping s = true → poll_write_ping s = (Ready r, s') →
    r ≠ OutOfFuel ∧ panics r = false;
  ping_supports (s : T) : supports_ping (poll_write_ping s).2 = supports_ping s;
  write_supports bs (s : T) : supports_ping (poll_write bs s).2 = supports_ping s;
  flush_supports (s : T) : supports_ping (poll_flush s).2 = supports_ping s }.

(** The two halves of a stream do not interfere. *)
Class AsyncStreamLaws (T : Type) `{AsyncReadLaws T} `{AsyncWriteLaws T} `{!AsyncPing T} : Prop := {
  stream_ping :: AsyncPingLaws T;
  read_keeps n (s : T) : written (poll_read n s).2 = written s ∧
    supports_ping (poll_read n s).2 = supports_ping s;
  write_keeps bs (s : T) : incoming (poll_write bs s).2 = incoming s;
  flush_keeps (s : T) : incoming (poll_flush s).2 = incoming s;
  ping_keeps (s : T) : incoming (poll_write_ping s).2 = incoming s;
  shutdown_keeps (s : T) : incoming (poll_shutdown s).2 = incoming s }.

(** ** Awaiting *)

Section Await.
Context {T A : Type}.

(** Poll until [Ready]; [fuel] polls may be [Pending]. *)
Fixpoint await (fuel : nat) (p : T → poll (res A) * T) (s : T) : res A * T :=
  match p s with
  | (Ready r, s') => (r, s')
  | (Pending, s') => match fuel with O => (OutOfFuel, s') | S f => await f p s' end
  end.
End Await.

(** [AsyncReadExt::read(..).await]. *)
Definition read `{AsyncRead T} (n : nat) : M T bytes := fun s => await (waits s) (poll_read n) s.

(** [AsyncWriteExt::write(..).await] and [flush().await]. *)
Definition write `{AsyncWrite T} (bs : bytes) : M T nat :=
  fun s => await (write_waits s) (poll_write bs) s.
Definition flush `{AsyncWrite T} : M T unit := fun s => await (write_waits s) poll_flush s.

(** [AsyncWriteExt::shutdown().await]. *)
Definition shutdown `{AsyncWrite T} : M T unit :=
  fun s => await (write_waits s) poll_shutdown s.

(** [AsyncReadExt::read_exact(..).await]: each round reads at least one byte. *)
Fixpoint read_exact_fuel `{AsyncRead T} (fuel : nat) (n : nat) (got : bytes) : M T bytes :=
  match fuel with
  | O => lift (if (n =? 0)%nat then Ok got else OutOfFuel)
  | S f =>
      if (n =? 0)%nat then mret got
      else bs ← read n;
           if decide (bs = []) then throw (io_err UnexpectedEof "early eof")
           else read_exact_fuel f (n - length bs) (got ++ bs)
  end.
Definition read_exact `{AsyncRead T} (n : nat) : M T bytes := read_exact_fuel n n [].

(** [AsyncWriteExt::write_all(..).await]. *)
Fixpoint write_all_fuel `{AsyncWrite T} (fuel : nat) (bs : bytes) : M T unit :=
  match fuel with
  | O => lift (if decide (bs = []) then Ok tt else OutOfFuel)
  | S f =>
      if decide (bs = []) then mret tt
      else k ← write bs;
           if (k =? 0)%nat then throw (io_err WriteZero "failed to write whole buffer")
           else write_all_fuel f (drop k bs)
  end.
Definition write_all `{AsyncWrite T} (bs : bytes) : M T unit := write_all_fuel (length bs) bs.

(** [Result::map_err]. *)
Definition map_err {A} (f : io_error → io_error) (r : res A) : res A :=
  match r with Err e => Err (f e) | _ => r end.

(** [while i < n { i += stream.write(&buf[i..]).await.map_err(f)?; }]: unlike
    tokio's [write_all], a write of zero bytes is simply tried again. *)
Fixpoint write_loop `{AsyncWrite T} (f : io_error → io_error) (fuel : nat) (buf : bytes) (i : nat)
    : M T unit := fun s =>
  if (i <? length buf)%nat then
    match fuel with
    | O => (OutOfFuel, s)
    | S fuel' =>
        let '(r, s') := write (drop i buf) s in
        match map_err f r with
        | Ok n => write_loop f fuel' buf (i + n) s'
        | Err e => (Err e, s')
        | Panic w => (Panic w, s')
        | OutOfFuel => (OutOfFuel, s')
        end
    end
  else (Ok tt, s).

(** [write_all] of src/util.rs. *)
Definition util_write_all `{AsyncWrite T} (fuel : nat) (buf : bytes) : M T unit :=
  write_loop id fuel buf 0.

(** [allocate_vec] of src/util.rs: the bytes are whatever memory held. *)
Definition allocate_vec (mem : nat → byte) (len : nat) : bytes := mem <$> seq 0 len.

Lemma length_allocate_vec mem n : length (allocate_vec mem n) = n.
Proof. unfold allocate_vec. by rewrite length_fmap, length_seq. Qed.

(** ** Lemmas on awaiting *)

Section ReadLemmas.
Context `{AsyncReadLaws T}.

Lemma await_read_spec fuel n s r s' :
  await fuel (poll_read n) s = (r, s') → (waits s ≤ fuel)%nat →
  r ≠ OutOfFuel ∧ panics r = false ∧
  match r with
  | Ok bs => (length bs ≤ n)%nat ∧ incoming s = bs ++ incoming s' ∧
             ((0 < n)%nat → bs = [] → incoming s = [])
  | Err e => err_kind e = Interrupted → incoming s' = incoming s ∧ (waits s' < waits s)%nat
  | _ => True
  end.
Proof.
  revert s. induction fuel as [|fuel IH]; intros s Ha Hf; cbn in Ha;
    destruct (poll_read n s) as [[r1|] s1] eqn:E; simplify_eq.
  - destruct (poll_read_returns _ _ _ _ E). split_and!; [done..|].
    destruct r; eauto using poll_read_ok, poll_read_interrupted.
  - apply poll_read_pending in E. lia.
  - destruct (poll_read_returns _ _ _ _ E). split_and!; [done..|].
    destruct r; eauto using poll_read_ok, poll_read_interrupted.
  - apply poll_read_pending in E as [Hi Hw].
    destruct (IH s1 Ha ltac:(lia)) as (? & ? & Hr). rewrite Hi in Hr. split_and!; [done..|].
    destruct r; try done. intros He. specialize (Hr He). intuition lia.
Qed.

Lemma read_spec n s r s' :
  read n s = (r, s') →
  r ≠ OutOfFuel ∧ panics r = false ∧
  match r with
  | Ok bs => (length bs ≤ n)%nat ∧ incoming s = bs ++ incoming s' ∧
             ((0 < n)%nat → bs = [] → incoming s = [])
  | Err e => err_kind e = Interrupted → incoming s' = incoming s ∧ (waits s' < waits s)%nat
  | _ => True
  end.
Proof. intros Hr. by eapply await_read_spec. Qed.

Lemma read_exact_fuel_spec fuel n got s r s' :
  read_exact_fuel fuel n got s = (r, s') → (n ≤ fuel)%nat →
  r ≠ OutOfFuel ∧ panics r = false ∧
  match r with
  | Ok bs => ∃ new, bs = got ++ new ∧ length new = n ∧ incoming s = new ++ incoming s'
  | _ => True
  end.
Proof.
  revert n got s. induction fuel as [|fuel IH]; intros n got s Hr Hn.
  - assert (n = 0%nat) as -> by lia. cbn in Hr. run_in Hr. simplify_eq. split_and!; [done..|].
    exists []. by rewrite app_nil_r.
  - cbn in Hr. destruct (n =? 0)%nat eqn:En; zbool; simplify_eq.
    + run_in Hr. simplify_eq. split_and!; [done..|]. exists []. by rewrite app_nil_r.
    + unfold mbind, M_bind in Hr. destruct (read n s) as [r1 s1] eqn:E.
      destruct (read_spec _ _ _ _ E) as (Hf & Hp & Hrd).
      destruct r1 as [bs|e|w|]; simplify_eq; try done.
      destruct Hrd as (Hl & Hi & _). case_decide as Hb; [unfold throw in Hr; simplify_eq; by split_and!|].
      assert (length bs ≠ 0%nat) by by destruct bs.
      destruct (IH _ _ _ Hr ltac:(lia)) as (? & ? & Hok). split_and!; [done..|].
      destruct r; try done. destruct Hok as (new & -> & Hnew & Hi').
      exists (bs ++ new). rewrite <-app_assoc, length_app, Hi, Hi', <-app_assoc.
      split_and!; [done|lia|done].
Qed.

(** What [read_exact] returns is the next [n] bytes of the stream. *)
Lemma read_exact_spec n s r s' :
  read_exact n s = (r, s') →
  r ≠ OutOfFuel ∧ panics r = false ∧
  match r with
  | Ok bs => length bs = n ∧ incoming s = bs ++ incoming s'
  | _ => True
  end.
Proof.
  intros Hr. destruct (read_exact_fuel_spec _ _ _ _ _ _ Hr (le_n n)) as (? & ? & Hok).
  split_and!; [done..|]. destruct r; try done. destruct Hok as (new & -> & ? & ?). done.
Qed.
End ReadLemmas.

Section WriteLemmas.
Context `{AsyncWriteLaws T}.

Lemma await_write_spec fuel bs s r s' :
  await fuel (poll_write bs) s = (r, s') → (write_waits s ≤ fuel)%nat →
  r ≠ OutOfFuel ∧ panics r = false ∧
  match r with
  | Ok k => (k ≤ length bs)%nat ∧ written s' = written s ++ take k bs
  | Err _ => written s' = written s
  | _ => True
  end.
Proof.
  revert s. induction fuel as [|fuel IH]; intros s Ha Hf; cbn in Ha;
    destruct (poll_write bs s) as [[r1|] s1] eqn:E; simplify_eq.
  - destruct (poll_write_returns _ _ _ _ E). split_and!; [done..|].
    destruct r; eauto using poll_write_ok, poll_write_err.
  - apply poll_write_pending in E. lia.
  - destruct (poll_write_returns _ _ _ _ E). split_and!; [done..|].
    destruct r; eauto using poll_write_ok, poll_write_err.
  - apply poll_write_pending in E as [Hi Hw].
    destruct (IH s1 Ha ltac:(lia)) as (? & ? & Hr). by rewrite Hi in Hr.
Qed.

Lemma write_spec bs s r s' :
  write bs s = (r, s') →
  r ≠ OutOfFuel ∧ panics r = false ∧
  match r with
  | Ok k => (k ≤ length bs)%nat ∧ written s' = written s ++ take k bs
  | Err _ => written s' = written s
  | _ => True
  end.
Proof. intros Hr. by eapply await_write_spec. Qed.

Lemma await_flush_spec fuel s r s' :
  await fuel poll_flush s = (r, s') → (write_waits s ≤ fuel)%nat →
  r ≠ OutOfFuel ∧ panics r = false ∧ written s' = written s.
Proof.
  revert s. induction fuel as [|fuel IH]; intros s Ha Hf; cbn in Ha;
    pose proof (poll_flush_written s) as Hw;
    destruct (poll_flush s) as [[r1|] s1] eqn:E; cbn in Hw; simplify_eq.
  - by destruct (poll_flush_returns _ _ _ E).
  - apply poll_flush_pending in E. lia.
  - by destruct (poll_flush_returns _ _ _ E).
  - apply poll_flush_pending in E. destruct (IH s1 Ha ltac:(lia)) as (? & ? & ->). done.
Qed.

Lemma flush_spec s r s' :
  flush s = (r, s') → r ≠ OutOfFuel ∧ panics r = false ∧ written s' = written s.
Proof. intros Hr. by eapply await_flush_spec. Qed.

Lemma await_shutdown_spec fuel s r s' :
  await fuel poll_shutdown s = (r, s') → (write_waits s ≤ fuel)%nat →
  r ≠ OutOfFuel ∧ panics r = false ∧ written s' = written s.
Proof.
  revert s. induction fuel as [|fuel IH]; intros s Ha Hf; cbn in Ha;
    pose proof (poll_shutdown_written s) as Hw;
    destruct (poll_shutdown s) as [[r1|] s1] eqn:E; cbn in Hw; simplify_eq.
  - by destruct (poll_shutdown_returns _ _ _ E).
  - apply poll_shutdown_pending in E. lia.
  - by destruct (poll_shutdown_returns _ _ _ E).
  - apply poll_shutdown_pending in E. destruct (IH s1 Ha ltac:(lia)) as (? & ? & ->). done.
Qed.

Lemma shutdown_spec s r s' :
  shutdown s = (r, s') → r ≠ OutOfFuel ∧ panics r = false ∧ written s' = written s.
Proof. intros Hr. by eapply await_shutdown_spec. Qed.

Lemma write_all_fuel_spec fuel bs s r s' :
  write_all_fuel fuel bs s = (r, s') → (length bs ≤ fuel)%nat →
  r ≠ OutOfFuel ∧ panics r = false ∧
  (∃ k, written s' = written s ++ take k bs) ∧ (is_ok r = true → written s' = written s ++ bs).
Proof.
  revert bs s. induction fuel as [|fuel IH]; intros bs s Hr Hn.
  - destruct bs; [|cbn in Hn; lia]. cbn in Hr. run_in Hr. simplify_eq. split_and!; [done..| |].
    + exists 0%nat. by rewrite app_nil_r.
    + by rewrite app_nil_r.
  - cbn in Hr. case_decide as Hb.
    + subst. run_in Hr. simplify_eq. split_and!; [done..| |].
      * exists 0%nat. by rewrite app_nil_r.
      * by rewrite app_nil_r.
    + unfold mbind, M_bind in Hr. destruct (write bs s) as [r1 s1] eqn:E.
      destruct (write_spec _ _ _ _ E) as (Hf & Hp & Hrd).
      destruct r1 as [k|e|w|]; simplify_eq; try done.
      * destruct Hrd as [Hk Hw]. destruct (k =? 0)%nat eqn:Ek; zbool.
        { unfold throw in Hr. simplify_eq. split_and!; [done..| |done]. by exists 0%nat. }
        destruct (IH _ _ Hr ltac:(rewrite length_drop; lia)) as (? & ? & (j & Hj) & Hok).
        split_and!; [done..| |].
        { exists (k + j)%nat. rewrite Hj, Hw, <-app_assoc. by rewrite take_take_drop. }
        { intros Ho. rewrite (Hok Ho), Hw, <-app_assoc. by rewrite take_drop. }
      * split_and!; [done..| |done]. exists 0%nat. by rewrite app_nil_r.
Qed.

(** [write_all] writes everything, or stops with an error after a prefix. *)
Lemma write_all_spec bs s r s' :
  write_all bs s = (r, s') →
  r ≠ OutOfFuel ∧ panics r = false ∧
  (∃ k, written s' = written s ++ take k bs) ∧ (is_ok r = true → written s' = written s ++ bs).
Proof. intros Hr. by eapply write_all_fuel_spec. Qed.

Lemma write_progress `{!WriteProgress T} bs s k s' :
  write bs s = (Ok k, s') → bs ≠ [] → (0 < k)%nat.
Proof.
  unfold write. generalize (write_waits s). intros fuel. revert s.
  induction fuel as [|fuel IH]; intros s Hr Hb; cbn in Hr;
    destruct (poll_write bs s) as [[r|] s1] eqn:E; simplify_eq; eauto using poll_write_progress.
Qed.

Lemma write_loop_spec `{!WriteProgress T} f fuel buf i s r s' :
  write_loop f fuel buf i s = (r, s') → (i ≤ length buf)%nat → (length buf ≤ fuel + i)%nat →
  r ≠ OutOfFuel ∧ panics r = false ∧
  (∃ k, written s' = written s ++ take k (drop i buf)) ∧
  (is_ok r = true → written s' = written s ++ drop i buf).
Proof.
  revert i s. induction fuel as [|fuel IH]; intros i s Hr Hi Hf; cbn [write_loop] in Hr;
    destruct (i <? length buf)%nat eqn:Hc; zbool; simplify_eq.
  1: lia.
  1, 3: rewrite drop_ge by lia; repeat split; [done|exists 0%nat|intros _]; by rewrite ?app_nil_r.
  destruct (write (drop i buf) s) as [r1 s1] eqn:E.
  destruct (write_spec _ _ _ _ E) as (Hnf & Hnp & Hw). destruct r1 as [k|e|w|]; cbn in Hr; try done.
  - destruct Hw as [Hk Hw]. rewrite length_drop in Hk.
    assert (0 < k)%nat.
    { eapply write_progress; [done|]. intros Hn%(f_equal length). rewrite length_drop in Hn.
      cbn in Hn. lia. }
    destruct (IH _ _ Hr ltac:(lia) ltac:(lia)) as (? & ? & [j Hj] & Hok).
    split_and!; [done..| |].
    + exists (k + j)%nat. rewrite Hj, Hw, <-app_assoc. f_equal.
      by rewrite <-take_take_drop, drop_drop.
    + intros Ho. rewrite (Hok Ho), Hw, <-app_assoc. f_equal.
      rewrite <-(take_drop k (drop i buf)) at 2. by rewrite drop_drop.
  - simplify_eq. split_and!; [done..| |done]. exists 0%nat. by rewrite app_nil_r.
Qed.
End WriteLemmas.

(** ** What writing leaves alone: a property the polls keep, every operation keeps. *)

Lemma await_frame {T A} (P : T → Prop) (p : T → poll (res A) * T) fuel s :
  (∀ s, P s → P (p s).2) → P s → P (await fuel p s).2.
Proof.
  intros Hp. revert s. induction fuel as [|fuel IH]; intros s Hs; cbn [await];
    pose proof (Hp s Hs) as Hs'; destruct (p s) as [[x|] s']; auto.
Qed.

Lemma write_loop_frame {T} `{AsyncWrite T} (P : T → Prop) f fuel buf i s :
  (∀ bs s, P s → P (poll_write bs s).2) → P s → P (write_loop f fuel buf i s).2.
Proof.
  intros Hp. revert i s. induction fuel as [|fuel IH]; intros i s Hs; cbn [write_loop];
    destruct (i <? length buf)%nat; try done.
  pose proof (await_frame P (poll_write (drop i buf)) (write_waits s) s (Hp _) Hs) as Hs'.
  unfold write. destruct (await _ _ s) as [r s']. cbn [snd] in Hs'.
  destruct (map_err f r); auto.
Qed.

(** ** Scripted streams

    A reader and a writer that play a list of outcomes: any finite run of a
    reader or writer is one of them.  They show that the laws can hold, and the
    witnesses run on them. *)

Inductive event : Set := EData (b : byte) (bs : bytes) | EPending | EError (e : io_error).
Record Script : Set := MkScript { events : list event }.

Definition script_rest (bs : bytes) (es : list event) : list event :=
  match bs with [] => es | b :: bs' => EData b bs' :: es end.

Definition script_poll_read (n : nat) (s : Script) : poll (res bytes) * Script :=
  match events s with
  | [] => (Ready (Ok []), s)
  | EData b bs :: es =>
      (Ready (Ok (take n (b :: bs))), MkScript (script_rest (drop n (b :: bs)) es))
  | EPending :: es => (Pending, MkScript es)
  | EError e :: es => (Ready (Err e), MkScript es)
  end.

#[export] Instance Script_AsyncRead : AsyncRead Script :=
  {| poll_read := script_poll_read; waits s := length (events s) |}.

Fixpoint script_bytes (es : list event) : bytes :=
  match es with
  | [] => []
  | EData b bs :: es' => b :: bs ++ script_bytes es'
  | EPending :: es' => script_bytes es'
  | EError e :: es' => if decide (err_kind e = Interrupted) then script_bytes es' else []
  end.

Lemma script_rest_bytes bs es : script_bytes (script_rest bs es) = bs ++ script_bytes es.
Proof. by destruct bs. Qed.

#[export] Instance Script_laws : AsyncReadLaws Script.
Proof.
  refine {| incoming s := script_bytes (events s) |}.
  - intros n [es] out s' Hr. cbn in Hr. unfold script_poll_read in Hr.
    destruct es as [|[b d| |e'] es]; cbn [events] in Hr; simplify_eq; [by split_and!; [apply Nat.le_0_l|..]|].
    split_and!.
    + rewrite length_take. lia.
    + cbn [events]. rewrite script_rest_bytes, app_assoc, take_drop. done.
    + intros Hn Hb. destruct n; [lia|]. done.
  - intros n [es] s' Hr. cbn in Hr. unfold script_poll_read in Hr.
    destruct es as [|[b d| |e'] es]; cbn [events] in Hr; simplify_eq. cbn. auto with lia.
  - intros n [es] e s' Hr Hk. cbn in Hr. unfold script_poll_read in Hr.
    destruct es as [|[b d| |e'] es]; cbn [events] in Hr; simplify_eq. cbn.
    rewrite decide_True by done. auto with lia.
  - intros n [es] r s' Hr. cbn in Hr. unfold script_poll_read in Hr.
    destruct es as [|[b d| |e'] es]; cbn [events] in Hr; by simplify_eq.
Defined.

Inductive wevent : Set := WAccept (k : nat) | WPending | WError (e : io_error).
Record Sink : Set := MkSink { accepted : bytes; outcomes : list wevent }.

Definition sink_poll_write (bs : bytes) (s : Sink) : poll (res nat) * Sink :=
  match outcomes s with
  | [] => (Ready (Ok (length bs)), MkSink (accepted s ++ bs) [])
  | WAccept k :: os =>
      (Ready (Ok (Nat.min (S k) (length bs))), MkSink (accepted s ++ take (S k) bs) os)
  | WPending :: os => (Pending, MkSink (accepted s) os)
  | WError e :: os => (Ready (Err e), MkSink (accepted s) os)
  end.

#[export] Instance Sink_AsyncWrite : AsyncWrite Sink :=
  {| poll_write := sink_poll_write;
     poll_flush s := (Ready (Ok tt), s);
     poll_shutdown s := (Ready (Ok tt), s);
     write_waits s := length (outcomes s) |}.

#[export] Instance Sink_laws : AsyncWriteLaws Sink.
Proof.
  refine {| written s := accepted s |}; try done.
  - intros bs [a os] k s' H. cbn in H. unfold sink_poll_write in H.
    destruct os as [|[j| |e] os]; cbn [outcomes accepted] in H; simplify_eq; cbn [accepted].
    + by rewrite firstn_all.
    + change (match length bs with 0 => 0 | S m' => S (j `min` m') end)%nat
        with (Nat.min (S j) (length bs)).
      split; [lia|]. f_equal. rewrite <-(firstn_all bs) at 1. by rewrite take_take.
  - intros bs [a os] s' H. cbn in H. unfold sink_poll_write in H.
    destruct os as [|[j| |e] os]; cbn in H; simplify_eq; cbn. auto with lia.
  - intros bs [a os] e s' H. cbn in H. unfold sink_poll_write in H.
    destruct os as [|[j| |e'] os]; cbn in H; simplify_eq; done.
  - intros bs [a os] r s' H. cbn in H. unfold sink_poll_write in H.
    destruct os as [|[j| |e'] os]; cbn in H; by simplify_eq.
  - intros s r s' H. cbn in H. by simplify_eq.
  - intros s r s' H. cbn in H. by simplify_eq.
Defined.

#[export] Instance Sink_progress : WriteProgress Sink.
Proof.
  intros bs [a os] k s' Hr Hb. cbn in Hr. unfold sink_poll_write in Hr.
  assert (0 < length bs)%nat by (destruct bs; [done|cbn; lia]).
  destruct os as [|[j| |e] os]; cbn [outcomes] in Hr; simplify_eq; [done|].
  destruct bs; [done|]. cbn. lia.
Qed.
