(* ===== verification/AnyTlsLocation.v ===== *)
(** * Destinations of AnyTLS streams (src/anytls/session.rs, [read_location_direct])

    A stream starts with its destination in the format of SOCKS5. *)

From Stdlib Require Import String.
From S2P Require Import Prelude RustStd Address AsyncStream.

Definition ADDR_TYPE_IPV4 : Z := 1.
Definition ADDR_TYPE_IPV6 : Z := 4.
Definition ADDR_TYPE_DOMAIN_NAME : Z := 3.

Definition unknown_type (ty : Z) : io_error :=
  IoError InvalidInput (str "Unknown address type: " ++ dec ty).

(** The two addresses of fixed length, and a name with its port. *)
Definition ipv4_location (buf : bytes) : NetLocation :=
  NetLoc (Addr_Ipv4 (Ipv4 (be_decode (take 4 buf)))) (be_decode (slice 4 6 buf)).
Definition ipv6_location (buf : bytes) : NetLocation :=
  NetLoc (Addr_Ipv6 (Ipv6 (be_decode (take 16 buf)))) (be_decode (slice 16 18 buf)).
Definition domain_location (domain_len : nat) (buf : bytes) : res NetLocation :=
  let domain := take domain_len buf in
  if negb (utf8_valid domain) then Err (io_err InvalidData "Invalid domain encoding")
  else a ← address_from domain; Ok (NetLoc a (be_decode (slice domain_len (domain_len + 2) buf))).

Definition read_location_direct {T} `{AsyncRead T} : M T NetLocation :=
  addr_type ← read_exact 1;
  let ty := be_decode addr_type in
  if ty =? ADDR_TYPE_IPV4 then buf ← read_exact 6; mret (ipv4_location buf)
  else if ty =? ADDR_TYPE_IPV6 then buf ← read_exact 18; mret (ipv6_location buf)
  else if ty =? ADDR_TYPE_DOMAIN_NAME then
    len ← read_exact 1;
    let domain_len := Z.to_nat (be_decode len) in
    buf ← read_exact (domain_len + 2);
    lift (domain_location domain_len buf)
  else throw (unknown_type ty).

(** ** The format *)

(** [n] bytes off the front, if they are there. *)
Definition take_bytes (n : nat) (l : bytes) : option (bytes * bytes) :=
  if (length l <? n)%nat then None else Some (take n l, drop n l).

(** The destination at the front of some bytes and what follows it; [None]: more bytes
    are needed. *)
Definition parse_location (l : bytes) : option (res NetLocation * bytes) :=
  '(t, l1) ← take_bytes 1 l;
  let ty := be_decode t in
  if ty =? ADDR_TYPE_IPV4 then '(buf, l2) ← take_bytes 6 l1; Some (Ok (ipv4_location buf), l2)
  else if ty =? ADDR_TYPE_IPV6 then '(buf, l2) ← take_bytes 18 l1; Some (Ok (ipv6_location buf), l2)
  else if ty =? ADDR_TYPE_DOMAIN_NAME then
    '(len, l2) ← take_bytes 1 l1;
    let domain_len := Z.to_nat (be_decode len) in
    '(buf, l3) ← take_bytes (domain_len + 2) l2;
    Some (domain_location domain_len buf, l3)
  else Some (Err (unknown_type ty), l1).

Definition encode_location (l : NetLocation) : bytes :=
  match nl_address l with
  | Addr_Ipv4 i => be_encode 1 ADDR_TYPE_IPV4 ++ be_encode 4 (v4_bits i) ++ be_encode 2 (nl_port l)
  | Addr_Ipv6 i => be_encode 1 ADDR_TYPE_IPV6 ++ be_encode 16 (v6_bits i) ++ be_encode 2 (nl_port l)
  | Addr_Hostname h =>
      be_encode 1 ADDR_TYPE_DOMAIN_NAME ++ be_encode 1 (Z.of_nat (length h)) ++ h ++ be_encode 2 (nl_port l)
  end.

(** Destinations a client can name in it. *)
Definition location_wf (l : NetLocation) : Prop :=
  address_wf (nl_address l) ∧ 0 ≤ nl_port l < 65536 ∧
  match nl_address l with
  | Addr_Hostname h => (length h ≤ 255)%nat ∧ utf8_valid h = true
  | _ => True
  end.

Lemma take_bytes_app a l n : length a = n → take_bytes n (a ++ l) = Some (a, l).
Proof.
  intros <-. unfold take_bytes. rewrite (proj2 (Nat.ltb_ge _ _)) by len.
  by rewrite take_app_length, drop_app_length.
Qed.

Lemma take_be_encode n z l : take_bytes n (be_encode n z ++ l) = Some (be_encode n z, l).
Proof. apply take_bytes_app, length_be_encode. Qed.

Lemma slice_app_end {A} (a b : list A) n m : length a = n → length b = m → slice n (n + m) (a ++ b) = b.
Proof.
  intros <- <-. unfold slice. rewrite drop_app_length. rewrite take_ge; [done|lia].
Qed.

Lemma parse_location_encode l rest :
  location_wf l → parse_location (encode_location l ++ rest) = Some (Ok l, rest).
Proof.
  destruct l as [[i|i|h] port]; intros (Ha & Hp & Hh); cbn [nl_address nl_port] in *;
    unfold encode_location, parse_location; cbn [nl_address nl_port]; rewrite <-!app_assoc;
    rewrite take_be_encode; cbn [mbind option_bind]; rewrite be_decode_encode_small by done.
  - destruct i as [z]. cbn [address_wf] in Ha. unfold ipv4_wf in Ha. cbn [v4_bits] in *. cbn -[be_encode take_bytes].
    rewrite app_assoc, take_bytes_app by (by rewrite length_app, !length_be_encode).
    cbn [mbind option_bind]. unfold ipv4_location. rewrite take_app_length' by (by rewrite length_be_encode).
    rewrite (slice_app_end _ _ 4 2) by apply length_be_encode.
    by rewrite !be_decode_encode_small by lia.
  - destruct i as [z]. cbn [address_wf] in Ha. unfold ipv6_wf in Ha. cbn [v6_bits] in *. cbn -[be_encode take_bytes].
    rewrite app_assoc, take_bytes_app by (by rewrite length_app, !length_be_encode).
    cbn [mbind option_bind]. unfold ipv6_location. rewrite take_app_length' by (by rewrite length_be_encode).
    rewrite (slice_app_end _ _ 16 2) by apply length_be_encode.
    by rewrite !be_decode_encode_small by lia.
  - destruct Hh as [Hl Hu]. cbn -[be_encode take_bytes].
    rewrite take_be_encode. cbn [mbind option_bind]. rewrite be_decode_encode_small by lia.
    rewrite Nat2Z.id, app_assoc, take_bytes_app by (by rewrite length_app, length_be_encode).
    cbn [mbind option_bind]. unfold domain_location. rewrite take_app_length, Hu. cbn [negb].
    pose proof (address_from_show (Addr_Hostname h) Ha) as Hf. cbn [show_address] in Hf. rewrite Hf.
    cbn [mbind res_bind].
    rewrite slice_app_end by (done || apply length_be_encode). by rewrite be_decode_encode_small by lia.
Qed.

(** ** Reading *)

Section Laws.
Context {T : Type} `{AsyncReadLaws T}.

Definition early_eof : io_error := io_err UnexpectedEof "early eof".

(** An error of the stream itself. *)
Definition read_error (e : io_error) : Prop := ∃ n (s s' : T), read n s = (Err e, s').

(** [read_exact] fails only with the stream, or when too few bytes come. *)
Lemma read_exact_fuel_err fuel n got (s : T) e s' :
  read_exact_fuel fuel n got s = (Err e, s') → (n ≤ fuel)%nat →
  read_error e ∨ e = early_eof ∧ (length (incoming s) < n)%nat.
Proof.
  revert n got s. induction fuel as [|fuel IH]; intros n got s Hr Hn; cbn in Hr.
  { assert (n = 0%nat) as -> by lia. discriminate Hr. }
  destruct (n =? 0)%nat eqn:En; zbool; [discriminate Hr|]. rewrite M_bind_eq in Hr.
  destruct (read n s) as [r1 s1] eqn:E. destruct (read_spec _ _ _ _ E) as (_ & _ & Hrd).
  destruct r1 as [bs|e1|w|]; simplify_eq; [|left; by repeat eexists].
  destruct Hrd as (Hl & Hi & He). case_decide as Hb.
  - subst bs. injection Hr as <- <-. right. split; [done|]. rewrite He by (done || lia). cbn. lia.
  - destruct (IH _ _ _ Hr ltac:(destruct bs; cbn in *; [done|lia])) as [?|[-> Hlt]]; [by left|right].
    split; [done|]. rewrite Hi, length_app. lia.
Qed.

Lemma read_exact_cases n (s : T) :
  match read_exact n s with
  | (Ok bs, s') => take_bytes n (incoming s) = Some (bs, incoming s')
  | (Err e, _) => read_error e ∨ e = early_eof ∧ take_bytes n (incoming s) = None
  | _ => False
  end.
Proof.
  destruct (read_exact n s) as [r s'] eqn:E. destruct (read_exact_spec _ _ _ _ E) as (Hf & Hp & Hr).
  destruct r as [bs|e|w|]; try done.
  - destruct Hr as [Hl ->]. by apply take_bytes_app.
  - destruct (read_exact_fuel_err _ _ _ _ _ _ E (le_n _)) as [?|[-> Hlt]]; [by left|right].
    split; [done|]. unfold take_bytes. by rewrite (proj2 (Nat.ltb_lt _ _)).
Qed.

(** What [read_location_direct] does, against the bytes to come. *)
Definition location_post (s : T) (r : res NetLocation) (s' : T) : Prop :=
  (∃ e, r = Err e ∧ read_error e) ∨
  match parse_location (incoming s) with
  | Some (x, rest) => r = x ∧ incoming s' = rest
  | None => r = Err early_eof
  end.

Ltac next_read :=
  match goal with |- context [read_exact ?n ?s] =>
    pose proof (read_exact_cases n s) as Hc; destruct (read_exact n s) as [[?bs|?e|?w|] ?s'];
    try done; cbv zeta beta iota;
    [rewrite Hc; cbn [mbind option_bind]; clear Hc
    |destruct Hc as [Hc|[-> Hc]]; [left; by eexists|right; by rewrite Hc]]
  end.

Lemma address_from_returns s : panics (address_from s) = false ∧ address_from s ≠ OutOfFuel.
Proof. rewrite address_from_eq. unfold address_spec. by repeat case_match. Qed.

Lemma read_location_spec (s : T) :
  location_post s (read_location_direct s).1 (read_location_direct s).2.
Proof.
  unfold location_post, read_location_direct, parse_location. rewrite !M_bind_eq. next_read.
  destruct (be_decode bs =? ADDR_TYPE_IPV4).
  { rewrite M_bind_eq. next_read. by right. }
  destruct (be_decode bs =? ADDR_TYPE_IPV6).
  { rewrite M_bind_eq. next_read. by right. }
  destruct (be_decode bs =? ADDR_TYPE_DOMAIN_NAME); [|by right].
  rewrite M_bind_eq. next_read. rewrite M_bind_eq. next_read. by right.
Qed.

Lemma domain_location_returns n buf : panics (domain_location n buf) = false ∧ domain_location n buf ≠ OutOfFuel.
Proof.
  unfold domain_location. destruct (utf8_valid _); [|done]. cbn [negb].
  destruct (address_from_returns (take n buf)) as [Hp Hf]. by destruct (address_from (take n buf)).
Qed.

Lemma parse_location_returns l x rest :
  parse_location l = Some (x, rest) → panics x = false ∧ x ≠ OutOfFuel.
Proof.
  unfold parse_location. destruct (take_bytes 1 l) as [[t l1]|]; [|done]. cbn [mbind option_bind].
  destruct (_ =? _); [destruct (take_bytes 6 l1) as [[]|]; by intros [= <- <-]|].
  destruct (_ =? _); [destruct (take_bytes 18 l1) as [[]|]; by intros [= <- <-]|].
  destruct (_ =? _); [|by intros [= <- <-]].
  destruct (take_bytes 1 l1) as [[len l2]|]; [|done]. cbn [mbind option_bind].
  destruct (take_bytes _ l2) as [[buf l3]|]; [|done]. cbn [mbind option_bind]. intros [= <- _].
  apply domain_location_returns.
Qed.
End Laws.

(** ** Properties *)

(** C24: [read_location_direct] agrees with the format on the bytes the peer sends, however
    they arrive: it returns what they parse to and consumes exactly that, fails at
    the end of the stream when they stop short, and otherwise fails only with the
    stream; a destination a client encodes is read back.  It never panics. *)
Theorem read_location_correct {T : Type} `{AsyncReadLaws T} (s : T) (r : res NetLocation) (s' : T) :
  read_location_direct s = (r, s') →
  panics r = false ∧ r ≠ OutOfFuel ∧
  ((∃ e, r = Err e ∧ read_error (T := T) e) ∨
   match parse_location (incoming s) with
   | Some (x, rest) => r = x ∧ incoming s' = rest
   | None => r = Err early_eof
   end) ∧
  ∀ l rest, location_wf l → incoming s = encode_location l ++ rest →
    r = Ok l ∧ incoming s' = rest ∨ ∃ e, r = Err e ∧ read_error (T := T) e.
Proof.
  intros Hr. pose proof (read_location_spec s) as Hs. rewrite Hr in Hs. cbn [fst snd] in Hs.
  unfold location_post in Hs.
  assert (panics r = false ∧ r ≠ OutOfFuel) as [Hp Hf].
  { destruct Hs as [(e & -> & _)|Hs]; [done|].
    destruct (parse_location (incoming s)) as [[x rest]|] eqn:E; [|by subst r].
    destruct Hs as [-> _]. by eapply parse_location_returns. }
  split_and!; [done..|].
  intros l rest Hw Hi. destruct Hs as [?|Hs]; [by right|left].
  rewrite Hi, parse_location_encode in Hs by done. done.
Qed.

Definition demo_location : NetLocation := NetLoc (Addr_Hostname (str "a.b")) 443.
Definition demo_stream : Script :=
  MkScript [EData x03 [x03]; EPending; EData x61 (str ".b" ++ [x01; xbb; x07])].

Lemma demo_location_wf : location_wf demo_location.
Proof. vm_compute. split_and!; try done; try lia. intros Hc. repeat (inversion Hc as [|? ? ? Hc']; clear Hc; rename Hc' into Hc). Qed.

Lemma read_location_correct_witness :
  read_location_direct demo_stream = (Ok demo_location, MkScript [EData x07 []]) ∧
  (Ok demo_location = Ok demo_location ∧ incoming (MkScript [EData x07 []]) = [x07] ∨
   ∃ e, Ok demo_location = Err e ∧ read_error (T := Script) e).
Proof.
  split; [vm_compute; reflexivity|].
  eapply (read_location_correct demo_stream _ (MkScript [EData x07 []]));
    [vm_compute; reflexivity|exact demo_location_wf|vm_compute; reflexivity].
Defined.
