(* ===== verification/StreamReader.v ===== *)
(** * The buffered reader (src/stream_reader.rs)

    A fixed buffer with a window of bytes read and not yet consumed.  The state
    of an operation is the reader and the stream it reads from. *)

From Stdlib Require Import String.
From S2P Require Import Prelude AsyncStream.

Definition DEFAULT_BUFFER_SIZE : nat := Z.to_nat 32768.

Record StreamReader : Set := MkReader { sr_buf : bytes; start_offset : nat; end_offset : nat }.

Definition new_with_buffer_size (mem : nat → byte) (buffer_size : nat) : StreamReader :=
  MkReader (allocate_vec mem buffer_size) 0 0.

Definition new_reader (mem : nat → byte) : StreamReader :=
  new_with_buffer_size mem DEFAULT_BUFFER_SIZE.

Definition reset_buf_offset (r : StreamReader) : StreamReader :=
  if (start_offset r =? 0)%nat then r
  else MkReader (copy_within0 (start_offset r) (end_offset r) (sr_buf r))
                0 (end_offset r - start_offset r).

Definition is_cache_full (r : StreamReader) : bool :=
  (start_offset r =? 0)%nat && (end_offset r =? length (sr_buf r))%nat.

Definition unparsed_data (r : StreamReader) : bytes :=
  slice (start_offset r) (end_offset r) (sr_buf r).

Definition unparsed_data_owned (r : StreamReader) : option bytes :=
  if decide (unparsed_data r = []) then None else Some (unparsed_data r).

(** The end of [read_u8], [read_u16_be], [read_slice] and [consume]. *)
Definition advance (n : nat) (r : StreamReader) : StreamReader :=
  let new_start_offset := (start_offset r + n)%nat in
  if (new_start_offset =? end_offset r)%nat then MkReader (sr_buf r) 0 0
  else MkReader (sr_buf r) new_start_offset (end_offset r).

Section Ops.
Context {T : Type} `{AsyncRead T}.

(** The [loop] of [read]: an interrupted read is retried. *)
Fixpoint sr_read_loop (fuel : nat) : M (StreamReader * T) unit := fun '(r, s) =>
  match read (length (sr_buf r) - end_offset r) s with
  | (Ok bs, s') =>
      if decide (bs = []) then (Err (io_err ConnectionAborted "EOF while reading"), (r, s'))
      else (Ok tt, (MkReader (splice (end_offset r) bs (sr_buf r))
                             (start_offset r) (end_offset r + length bs), s'))
  | (Err e, s') =>
      if decide (err_kind e = Interrupted) then
        match fuel with O => (OutOfFuel, (r, s')) | S f => sr_read_loop f (r, s') end
      else (Err e, (r, s'))
  | (Panic w, s') => (Panic w, (r, s'))
  | (OutOfFuel, s') => (OutOfFuel, (r, s'))
  end.

Definition sr_read : M (StreamReader * T) unit := fun '(r, s) =>
  if is_cache_full r then (Err (io_err ConnectionAborted "cache is full"), (r, s))
  else sr_read_loop (waits s) (reset_buf_offset r, s).

(** [while self.end_offset - self.start_offset < len { self.read(stream).await? }]:
    each round adds a byte. *)
Fixpoint sr_fill (fuel len : nat) : M (StreamReader * T) unit := fun '(r, s) =>
  if (end_offset r - start_offset r <? len)%nat then
    match fuel with
    | O => (OutOfFuel, (r, s))
    | S f => (sr_read ≫= fun _ => sr_fill f len) (r, s)
    end
  else (Ok tt, (r, s)).

(** [self.buf[i]]. *)
Definition buf_at (i : nat) (r : StreamReader) : res byte :=
  match sr_buf r !! i with Some b => Ok b | None => Panic "index out of bounds" end.

(** [&self.buf[start..start + len]]. *)
Definition buf_slice (start len : nat) (r : StreamReader) : res bytes :=
  if (start + len <=? length (sr_buf r))%nat then Ok (slice start (start + len) (sr_buf r))
  else Panic "range end index out of range".

Definition sr_advance (n : nat) : M (StreamReader * T) unit :=
  modify (fun '(r, s) => (advance n r, s)).

Definition read_u8 : M (StreamReader * T) byte :=
  sr_fill 1 1 ;;
  rs ← get;
  value ← lift (buf_at (start_offset rs.1) rs.1);
  sr_advance 1 ;;
  mret value.

Definition too_long (len : nat) (r : StreamReader) : io_error :=
  io_err InvalidInput "Requested length exceeds buffer size".

Definition peek_slice (len : nat) : M (StreamReader * T) bytes :=
  rs ← get;
  if (length (sr_buf rs.1) <? len)%nat then throw (too_long len rs.1)
  else
    sr_fill len len ;;
    rs ← get;
    lift (buf_slice (start_offset rs.1) len rs.1).

(** [consume]; the [debug_assert!] is the panic. *)
Definition consume (len : nat) : M (StreamReader * T) unit :=
  rs ← get;
  if (start_offset rs.1 + len <=? end_offset rs.1)%nat then sr_advance len
  else lift (Panic "assertion failed: new_start_offset <= self.end_offset").

Definition read_u16_be : M (StreamReader * T) Z :=
  sr_fill 2 2 ;;
  rs ← get;
  b0 ← lift (buf_at (start_offset rs.1) rs.1);
  b1 ← lift (buf_at (start_offset rs.1 + 1) rs.1);
  sr_advance 2 ;;
  mret (be_decode [b0; b1]).

Definition read_slice (len : nat) : M (StreamReader * T) bytes :=
  rs ← get;
  if (length (sr_buf rs.1) <? len)%nat then throw (too_long len rs.1)
  else
    sr_fill len len ;;
    rs ← get;
    slice ← lift (buf_slice (start_offset rs.1) len rs.1);
    sr_advance len ;;
    mret slice.
End Ops.

(** ** The invariant and the view *)

Definition sr_inv (r : StreamReader) : Prop :=
  (start_offset r ≤ end_offset r ≤ length (sr_buf r))%nat.

Lemma new_inv mem n : sr_inv (new_with_buffer_size mem n).
Proof. unfold sr_inv. cbn. lia. Qed.

Lemma unparsed_new mem n : unparsed_data (new_with_buffer_size mem n) = [].
Proof. apply slice_nil. Qed.

Lemma length_unparsed r :
  sr_inv r → length (unparsed_data r) = (end_offset r - start_offset r)%nat.
Proof. intros [? ?]. by apply length_slice. Qed.

Lemma reset_inv r : sr_inv r → sr_inv (reset_buf_offset r).
Proof.
  intros Hi. unfold reset_buf_offset, sr_inv in *. case_match_eqn; [done|]. cbn.
  rewrite length_copy_within0 by lia. lia.
Qed.

Lemma reset_unparsed r : sr_inv r → unparsed_data (reset_buf_offset r) = unparsed_data r.
Proof.
  intros Hi. unfold reset_buf_offset, unparsed_data, sr_inv in *. case_match_eqn; [done|]. cbn.
  by apply slice_copy_within0.
Qed.

Lemma reset_length r : sr_inv r → length (sr_buf (reset_buf_offset r)) = length (sr_buf r).
Proof.
  intros Hi. unfold reset_buf_offset, sr_inv in *. case_match_eqn; [done|]. cbn.
  apply length_copy_within0. lia.
Qed.

(** After a reset there is room, unless the buffer was full. *)
Lemma reset_room r :
  sr_inv r → is_cache_full r = false → (0 < length (sr_buf r))%nat →
  (end_offset (reset_buf_offset r) < length (sr_buf (reset_buf_offset r)))%nat.
Proof.
  intros Hi Hf Hl. unfold reset_buf_offset, is_cache_full, sr_inv in *.
  destruct (start_offset r =? 0)%nat eqn:Hs; zbool; cbn in *.
  - zbool. lia.
  - rewrite length_copy_within0 by lia. lia.
Qed.

Lemma advance_inv n r :
  sr_inv r → (n ≤ end_offset r - start_offset r)%nat → sr_inv (advance n r).
Proof. intros Hi Hn. unfold advance, sr_inv in *. case_match_eqn; cbn; zbool; lia. Qed.

Lemma advance_unparsed n r :
  sr_inv r → (n ≤ end_offset r - start_offset r)%nat →
  unparsed_data (advance n r) = drop n (unparsed_data r).
Proof.
  intros Hi Hn. unfold advance, unparsed_data, sr_inv in *. cbv zeta.
  destruct (start_offset r + n =? end_offset r)%nat eqn:He; zbool;
    cbn [sr_buf start_offset end_offset].
  - rewrite slice_nil. symmetry. apply drop_ge. len.
  - rewrite (slice_split (start_offset r) (start_offset r + n) (end_offset r)) by lia.
    rewrite drop_app_length'; [done|]. rewrite length_slice; lia.
Qed.

(** ** Reading from the stream *)

Section Laws.
Context {T : Type} `{AsyncReadLaws T}.

(** Everything the reader can still return: its window, then the stream. *)
Definition ahead (rs : StreamReader * T) : bytes := unparsed_data rs.1 ++ incoming rs.2.

(** A hard error that the stream itself reported. *)
Definition stream_error (e : io_error) : Prop :=
  err_kind e ≠ Interrupted ∧ ∃ n (s s' : T), read n s = (Err e, s').

Definition eof_error : io_error := io_err ConnectionAborted "EOF while reading".

(** What one [read] does, and what a whole operation does while filling. *)
Definition read_post (rs : StreamReader * T) (r : res unit) (rs' : StreamReader * T) : Prop :=
  sr_inv rs'.1 ∧ length (sr_buf rs'.1) = length (sr_buf rs.1) ∧
  match r with
  | Ok _ => ahead rs' = ahead rs ∧
            (length (unparsed_data rs.1) < length (unparsed_data rs'.1))%nat
  | Err e => (e = eof_error ∧ ahead rs' = ahead rs ∧ ahead rs = unparsed_data rs.1) ∨ stream_error e
  | _ => False
  end.

(** The bytes of a successful read land right after the window. *)
Lemma unparsed_splice rd bs :
  sr_inv rd → (end_offset rd + length bs ≤ length (sr_buf rd))%nat →
  unparsed_data (MkReader (splice (end_offset rd) bs (sr_buf rd)) (start_offset rd)
    (end_offset rd + length bs)) = unparsed_data rd ++ bs.
Proof.
  intros [? ?] Hl. unfold unparsed_data. cbn [start_offset end_offset sr_buf].
  rewrite (slice_split _ (end_offset rd)) by lia.
  by rewrite slice_splice_below, slice_splice_eq by lia.
Qed.

Lemma read_post_ok rd s bs s1 :
  read (length (sr_buf rd) - end_offset rd) s = (Ok bs, s1) → bs ≠ [] → sr_inv rd →
  read_post (rd, s) (Ok tt)
    (MkReader (splice (end_offset rd) bs (sr_buf rd)) (start_offset rd)
       (end_offset rd + length bs), s1).
Proof.
  intros E Hb Hi. destruct (read_spec _ _ _ _ E) as (_ & _ & Hl & Hinc & _).
  pose proof Hi as Hi'. unfold sr_inv in Hi'.
  unfold read_post, ahead. cbn [fst snd]. rewrite unparsed_splice by (done || lia).
  assert (length bs ≠ 0%nat) by by destruct bs.
  unfold sr_inv. cbn [sr_buf start_offset end_offset].
  rewrite length_splice, Hinc, <-app_assoc, length_app by lia. split_and!; [lia..|done|lia].
Qed.

Lemma read_post_eof rd s s1 :
  read (length (sr_buf rd) - end_offset rd) s = (Ok [], s1) → sr_inv rd →
  (end_offset rd < length (sr_buf rd))%nat → read_post (rd, s) (Err eof_error) (rd, s1).
Proof.
  intros E Hi Hroom. destruct (read_spec _ _ _ _ E) as (_ & _ & Hl & Hinc & Heof).
  split_and!; [done..|]. left. unfold ahead. cbn [fst snd]. rewrite <-app_nil_l, <-Hinc at 1.
  split_and!; [done..|]. rewrite Heof by (done || lia). apply app_nil_r.
Qed.

Lemma sr_read_loop_spec fuel rd s r rs' :
  sr_read_loop fuel (rd, s) = (r, rs') → sr_inv rd → (end_offset rd < length (sr_buf rd))%nat →
  (waits s ≤ fuel)%nat → read_post (rd, s) r rs'.
Proof.
  revert s. induction fuel as [|fuel IH]; intros s Hr Hi Hroom Hf; cbn in Hr;
    destruct (read (length (sr_buf rd) - end_offset rd) s) as [r1 s1] eqn:E;
    destruct (read_spec _ _ _ _ E) as (Hnf & Hnp & Hs); destruct r1 as [bs|e|w|]; try done;
    case_decide as Hb; simplify_eq; eauto using read_post_ok, read_post_eof.
  - destruct (Hs Hb). lia.
  - split_and!; [done..|]. right. split; eauto.
  - destruct (Hs Hb) as [Hinc ?].
    destruct (IH s1 Hr Hi Hroom ltac:(lia)) as (? & ? & Hp). split_and!; [done..|].
    unfold ahead in *. cbn [fst snd] in *. by rewrite Hinc in Hp.
  - split_and!; [done..|]. right. split; eauto.
Qed.

Lemma sr_read_spec rd s r rs' :
  sr_read (rd, s) = (r, rs') → sr_inv rd → is_cache_full rd = false →
  (0 < length (sr_buf rd))%nat → read_post (rd, s) r rs'.
Proof.
  intros Hr Hi Hf Hl. unfold sr_read in Hr. rewrite Hf in Hr.
  destruct (sr_read_loop_spec _ _ _ _ _ Hr) as (? & Hlen & Hp);
    [by apply reset_inv|by apply reset_room|done|].
  cbn [fst] in Hlen. rewrite reset_length in Hlen by done. split_and!; [done..|].
  unfold ahead in *. cbn [fst snd] in *. by rewrite !reset_unparsed in Hp.
Qed.

Lemma is_cache_full_unparsed rd :
  sr_inv rd → is_cache_full rd = true → length (unparsed_data rd) = length (sr_buf rd).
Proof. intros Hi Hf. rewrite length_unparsed by done. unfold is_cache_full in Hf. zbool. lia. Qed.

(** Filling either has the bytes, or found the end of the stream before them, or
    met a stream error; it never finds the buffer full, panics or loops. *)
Definition fill_post (len : nat) (rs : StreamReader * T) (r : res unit) (rs' : StreamReader * T)
    : Prop :=
  sr_inv rs'.1 ∧ length (sr_buf rs'.1) = length (sr_buf rs.1) ∧
  match r with
  | Ok _ => ahead rs' = ahead rs ∧ (len ≤ length (unparsed_data rs'.1))%nat
  | Err e => (e = eof_error ∧ ahead rs' = ahead rs ∧ (length (ahead rs) < len)%nat) ∨
             stream_error e
  | _ => False
  end.

Lemma sr_fill_spec fuel len rs r rs' :
  sr_fill fuel len rs = (r, rs') → sr_inv rs.1 → (len ≤ length (sr_buf rs.1))%nat →
  (len ≤ fuel + length (unparsed_data rs.1))%nat → fill_post len rs r rs'.
Proof.
  revert rs. induction fuel as [|fuel IH]; intros [rd s] Hr Hi Hlen Hf; cbn [fst] in *;
    cbn [sr_fill] in Hr; rewrite <-length_unparsed in Hr by done;
    destruct (length (unparsed_data rd) <? len)%nat eqn:Hc; zbool; simplify_eq;
    try (by unfold fill_post; split_and!).
  - lia.
  - unfold mbind, M_bind in Hr. destruct (sr_read (rd, s)) as [r1 [rd1 s1]] eqn:E.
    assert (is_cache_full rd = false) as Hnf.
    { destruct (is_cache_full rd) eqn:Hx; [|done].
      apply is_cache_full_unparsed in Hx; [lia|done]. }
    destruct (sr_read_spec _ _ _ _ E Hi Hnf ltac:(lia)) as (Hi1 & Hl1 & Hp). cbn [fst] in *.
    destruct r1 as [[]|e|w|]; simplify_eq; try done.
    + destruct Hp as [Ha Hg]. destruct (IH (rd1, s1) Hr Hi1) as (? & Hl2 & Hp2); cbn [fst]; [lia..|].
      cbn [fst] in Hl2. unfold fill_post. cbn [fst] in *. rewrite Ha in Hp2.
      split_and!; [done|congruence|done].
    + split_and!; [done..|]. destruct Hp as [(-> & Ha & Hb)|?]; [left|by right].
      split_and!; [done..|]. rewrite Hb. done.
Qed.
(** ** The operations against an abstract stream

    The abstract reader is just the bytes still ahead. *)

Inductive sr_op : Set :=
| OpReadU8 | OpPeek (len : nat) | OpConsume (len : nat) | OpReadU16 | OpReadSlice (len : nat).

Inductive sr_out : Set := OutByte (b : byte) | OutBytes (bs : bytes) | OutU16 (z : Z) | OutUnit.

Definition sr_exec (op : sr_op) : M (StreamReader * T) sr_out :=
  match op with
  | OpReadU8 => b ← read_u8; mret (OutByte b)
  | OpPeek n => bs ← peek_slice n; mret (OutBytes bs)
  | OpConsume n => consume n ;; mret OutUnit
  | OpReadU16 => z ← read_u16_be; mret (OutU16 z)
  | OpReadSlice n => bs ← read_slice n; mret (OutBytes bs)
  end.

Definition op_len (op : sr_op) : nat :=
  match op with OpReadU8 => 1 | OpReadU16 => 2 | OpPeek n | OpConsume n | OpReadSlice n => n end.

Definition spec_out (op : sr_op) (bs : bytes) : sr_out :=
  match op with
  | OpReadU8 => OutByte (default x00 (head bs))
  | OpPeek _ | OpReadSlice _ => OutBytes bs
  | OpConsume _ => OutUnit
  | OpReadU16 => OutU16 (be_decode bs)
  end.

Definition spec_exec (op : sr_op) (l : bytes) : option (sr_out * bytes) :=
  let n := op_len op in
  if (length l <? n)%nat then None
  else Some (spec_out op (take n l), match op with OpPeek _ => l | _ => drop n l end).

Fixpoint sr_run (ops : list sr_op) : M (StreamReader * T) (list sr_out) :=
  match ops with
  | [] => mret []
  | op :: ops' => o ← sr_exec op; os ← sr_run ops'; mret (o :: os)
  end.

Fixpoint spec_run (ops : list sr_op) (l : bytes) : option (list sr_out * bytes) :=
  match ops with
  | [] => Some ([], l)
  | op :: ops' => '(o, l') ← spec_exec op l; '(os, l'') ← spec_run ops' l'; Some (o :: os, l'')
  end.

(** The window, once it has the bytes asked for. *)
Lemma take_ahead len rs :
  (len ≤ length (unparsed_data rs.1))%nat → take len (ahead rs) = take len (unparsed_data rs.1).
Proof. intros. unfold ahead. by rewrite take_app_le. Qed.

Lemma buf_slice_window len rd :
  sr_inv rd → (len ≤ length (unparsed_data rd))%nat →
  buf_slice (start_offset rd) len rd = Ok (take len (unparsed_data rd)).
Proof.
  intros Hi Hl. rewrite length_unparsed in Hl by done. unfold buf_slice, sr_inv in *.
  rewrite (proj2 (Nat.leb_le _ _)) by lia. f_equal. unfold unparsed_data, slice.
  rewrite take_take. f_equal. lia.
Qed.

Lemma buf_at_window i rd b :
  sr_inv rd → unparsed_data rd !! i = Some b → buf_at (start_offset rd + i) rd = Ok b.
Proof.
  intros Hi Hl. unfold buf_at. replace (sr_buf rd !! (start_offset rd + i)%nat) with (Some b); [done|].
  unfold unparsed_data, slice in Hl. apply lookup_take_Some in Hl as [Hl _].
  by rewrite lookup_drop in Hl.
Qed.

Lemma advance_ahead n rd s :
  sr_inv rd → (n ≤ length (unparsed_data rd))%nat →
  sr_inv (advance n rd) ∧ ahead (advance n rd, s) = drop n (ahead (rd, s)).
Proof.
  intros Hi Hn. pose proof Hn as Hn'. rewrite length_unparsed in Hn' by done.
  split; [by apply advance_inv|]. unfold ahead. cbn [fst snd].
  by rewrite advance_unparsed, drop_app_le.
Qed.

Lemma length_buf_advance n rd : length (sr_buf (advance n rd)) = length (sr_buf rd).
Proof. unfold advance. cbv zeta. by case_match_eqn. Qed.

(** What each operation does, on every branch. *)
Definition op_post (op : sr_op) (rs : StreamReader * T) (r : res sr_out) (rs' : StreamReader * T)
    : Prop :=
  sr_inv rs'.1 ∧ length (sr_buf rs'.1) = length (sr_buf rs.1) ∧
  match r with
  | Ok o => spec_exec op (ahead rs) = Some (o, ahead rs')
  | Err e => (e = eof_error ∧ ahead rs' = ahead rs ∧ spec_exec op (ahead rs) = None) ∨
             (length (sr_buf rs.1) < op_len op)%nat ∧ rs' = rs ∧ err_kind e = InvalidInput ∨
             stream_error e
  | Panic _ => ∃ n, op = OpConsume n ∧ (length (unparsed_data rs.1) < n)%nat
  | OutOfFuel => False
  end.

Lemma spec_exec_some op l :
  (op_len op ≤ length l)%nat →
  spec_exec op l = Some (spec_out op (take (op_len op) l),
                         match op with OpPeek _ => l | _ => drop (op_len op) l end).
Proof. intros. unfold spec_exec. by rewrite (proj2 (Nat.ltb_ge _ _)). Qed.

Lemma length_ahead rs : (length (unparsed_data rs.1) ≤ length (ahead rs))%nat.
Proof. unfold ahead. rewrite length_app. lia. Qed.

(** An operation that fills the window and then looks at it. *)
Lemma fill_then (op : sr_op) (k : M (StreamReader * T) sr_out) rs r rs' :
  (sr_fill (op_len op) (op_len op) ;; k) rs = (r, rs') →
  sr_inv rs.1 → (op_len op ≤ length (sr_buf rs.1))%nat →
  (∀ rs1 r rs', k rs1 = (r, rs') → sr_inv rs1.1 → (op_len op ≤ length (unparsed_data rs1.1))%nat →
     op_post op rs1 r rs') →
  op_post op rs r rs'.
Proof.
  intros Hr Hi Hl Hk. unfold mbind, M_bind in Hr.
  destruct (sr_fill (op_len op) (op_len op) rs) as [r1 rs1] eqn:E.
  destruct (sr_fill_spec _ _ _ _ _ E Hi Hl ltac:(lia)) as (Hi1 & Hl1 & Hp).
  destruct r1 as [[]|e|w|]; simplify_eq; try done.
  - destruct Hp as [Ha Hw]. destruct (Hk _ _ _ Hr Hi1 Hw) as (Hi2 & Hl2 & Hp2).
    unfold op_post. split_and!; [done|congruence|].
    rewrite <-Ha, <-Hl1. destruct r; try done.
    + destruct Hp2 as [?|[(? & ? & ?)|?]]; [by left| |by right; right]. lia.
    + destruct Hp2 as (n & -> & Hlt). cbn in Hw. lia.
  - split_and!; [done..|]. destruct Hp as [(-> & Ha & Hlt)|?]; [left|by right; right].
    split_and!; [done..|]. unfold spec_exec. by rewrite (proj2 (Nat.ltb_lt _ _)).
Qed.

Lemma sr_exec_read_u8 rs r rs' :
  sr_exec OpReadU8 rs = (r, rs') → sr_inv rs.1 → (1 ≤ length (sr_buf rs.1))%nat →
  op_post OpReadU8 rs r rs'.
Proof.
  intros Hr Hi Hl. apply (fill_then OpReadU8 (rs ← get; value ← lift (buf_at (start_offset rs.1) rs.1);
    sr_advance 1 ;; mret (OutByte value)) rs); [|done..|].
  - rewrite <-Hr. cbn [sr_exec op_len]. unfold read_u8, sr_advance. run.
    by destruct (sr_fill 1 1 rs) as [[[]| | |] [rd s]]; [destruct (buf_at _ _)|..].
  - clear. intros [rd s] r rs' Hr Hi Hw. cbn [fst op_len] in *.
    cbv delta [sr_advance] in Hr. run_in Hr. cbn [fst] in Hr.
    destruct (unparsed_data rd) as [|b u] eqn:Hu; [cbn in Hw; lia|].
    pose proof (buf_at_window 0 rd b Hi ltac:(by rewrite Hu)) as Hb. rewrite Nat.add_0_r in Hb.
    rewrite Hb in Hr. simplify_eq.
    destruct (advance_ahead 1 rd s Hi) as [Hi' Ha]; [rewrite Hu; cbn; lia|].
    split_and!; [done|apply length_buf_advance|]. rewrite Ha, spec_exec_some.
    + cbn [op_len spec_out]. unfold ahead. cbn [fst]. by rewrite Hu.
    + pose proof (length_ahead (rd, s)). cbn [fst op_len] in *. rewrite Hu in *. cbn in *. lia.
Qed.

Lemma sr_exec_read_u16 rs r rs' :
  sr_exec OpReadU16 rs = (r, rs') → sr_inv rs.1 → (2 ≤ length (sr_buf rs.1))%nat →
  op_post OpReadU16 rs r rs'.
Proof.
  intros Hr Hi Hl. apply (fill_then OpReadU16 (rs ← get;
    b0 ← lift (buf_at (start_offset rs.1) rs.1); b1 ← lift (buf_at (start_offset rs.1 + 1) rs.1);
    sr_advance 2 ;; mret (OutU16 (be_decode [b0; b1]))) rs); [|done..|].
  - rewrite <-Hr. cbn [sr_exec op_len]. unfold read_u16_be, sr_advance. run.
    by destruct (sr_fill 2 2 rs) as [[[]| | |] [rd s]];
      [destruct (buf_at (start_offset (rd, s).1) _); [destruct (buf_at (_ + 1) _)|..]|..].
  - clear. intros [rd s] r rs' Hr Hi Hw. cbn [fst op_len] in *.
    cbv delta [sr_advance] in Hr. run_in Hr. cbn [fst] in Hr.
    destruct (unparsed_data rd) as [|b0 [|b1 u]] eqn:Hu; [cbn in Hw; lia..|].
    pose proof (buf_at_window 0 rd b0 Hi ltac:(by rewrite Hu)) as Hb. rewrite Nat.add_0_r in Hb.
    rewrite Hb, (buf_at_window 1 rd b1 Hi ltac:(by rewrite Hu)) in Hr. simplify_eq.
    destruct (advance_ahead 2 rd s Hi) as [Hi' Ha]; [rewrite Hu; cbn; lia|].
    split_and!; [done|apply length_buf_advance|]. rewrite Ha, spec_exec_some.
    + cbn [op_len spec_out]. unfold ahead. cbn [fst]. by rewrite Hu.
    + pose proof (length_ahead (rd, s)). cbn [fst op_len] in *. rewrite Hu in *. cbn in *. lia.
Qed.

Lemma sr_exec_slice (op : sr_op) len rs r rs' :
  op = OpPeek len ∨ op = OpReadSlice len →
  sr_exec op rs = (r, rs') → sr_inv rs.1 → op_post op rs r rs'.
Proof.
  intros Hop Hr Hi.
  destruct (decide (length (sr_buf rs.1) < len)%nat) as [Hbig|Hbig].
  { assert (op_len op = len) as Hol by by destruct Hop; subst.
    destruct Hop as [-> | ->]; cbn [sr_exec] in Hr; unfold peek_slice, read_slice in Hr;
      run_in Hr; rewrite (proj2 (Nat.ltb_lt _ _)) in Hr by done; simplify_eq;
      (split_and!; [done..|]); right; left; by split_and!. }
  destruct Hop as [-> | ->].
  - apply (fill_then (OpPeek len) (rs ← get; bs ← lift (buf_slice (start_offset rs.1) len rs.1);
      mret (OutBytes bs)) rs); [|done|cbn; lia|].
    + rewrite <-Hr. cbn [sr_exec op_len]. unfold peek_slice. run.
      rewrite (proj2 (Nat.ltb_ge _ _)) by lia.
      by destruct (sr_fill len len rs) as [[[]| | |] [rd s]].
    + clear. intros [rd s] r rs' Hr Hi Hw. cbn [fst op_len] in *.
    cbv delta [sr_advance] in Hr. run_in Hr. cbn [fst] in Hr.
      rewrite buf_slice_window in Hr by done. simplify_eq. split_and!; [done..|].
      pose proof (length_ahead (rd, s)). cbn [fst] in *.
      rewrite spec_exec_some by (cbn [op_len]; lia). cbn [op_len spec_out]. by rewrite take_ahead.
  - apply (fill_then (OpReadSlice len) (rs ← get; bs ← lift (buf_slice (start_offset rs.1) len rs.1);
      sr_advance len ;; mret (OutBytes bs)) rs); [|done|cbn; lia|].
    + rewrite <-Hr. cbn [sr_exec op_len]. unfold read_slice, sr_advance. run.
      rewrite (proj2 (Nat.ltb_ge _ _)) by lia.
      by destruct (sr_fill len len rs) as [[[]| | |] [rd s]]; [destruct (buf_slice _ _ _)|..].
    + clear. intros [rd s] r rs' Hr Hi Hw. cbn [fst op_len] in *.
    cbv delta [sr_advance] in Hr. run_in Hr. cbn [fst] in Hr.
      rewrite buf_slice_window in Hr by done. simplify_eq.
      destruct (advance_ahead len rd s Hi Hw) as [Hi' Ha].
      split_and!; [done|apply length_buf_advance|]. pose proof (length_ahead (rd, s)). cbn [fst] in *.
      rewrite Ha, spec_exec_some by (cbn [op_len]; lia). cbn [op_len spec_out]. by rewrite take_ahead.
Qed.

Lemma sr_exec_consume len rs r rs' :
  sr_exec (OpConsume len) rs = (r, rs') → sr_inv rs.1 → op_post (OpConsume len) rs r rs'.
Proof.
  intros Hr Hi. cbn [sr_exec] in Hr. unfold consume, sr_advance in Hr. destruct rs as [rd s].
  run_in Hr. cbn [fst] in *. pose proof (length_unparsed rd Hi) as Hu. unfold sr_inv in Hi.
  destruct (start_offset rd + len <=? end_offset rd)%nat eqn:Hc; zbool; run_in Hr; simplify_eq.
  - destruct (advance_ahead len rd s Hi) as [Hi' Ha]; [lia|].
    split_and!; [done|apply length_buf_advance|]. pose proof (length_ahead (rd, s)). cbn [fst] in *.
    rewrite Ha, spec_exec_some by (cbn [op_len]; lia). done.
  - split_and!; [done..|]. exists len. split; [done|]. cbn [fst]. lia.
Qed.

(** Every operation, on every branch, does what the abstract reader does. *)
Lemma sr_exec_spec op rs r rs' :
  sr_exec op rs = (r, rs') → sr_inv rs.1 → (2 ≤ length (sr_buf rs.1))%nat → op_post op rs r rs'.
Proof.
  intros Hr Hi Hl. destruct op.
  - apply sr_exec_read_u8; [done..|lia].
  - by apply (sr_exec_slice _ len); [left|..].
  - by apply sr_exec_consume.
  - by apply sr_exec_read_u16.
  - by apply (sr_exec_slice _ len); [right|..].
Qed.

(** The same, operation by operation, as their callers use it. *)
Definition input_error (len : nat) (rs : StreamReader * T) (e : io_error) : Prop :=
  (e = eof_error ∧ (length (ahead rs) < len)%nat) ∨ stream_error e.

Definition keeps (rs rs' : StreamReader * T) : Prop :=
  sr_inv rs'.1 ∧ length (sr_buf rs'.1) = length (sr_buf rs.1).

Lemma spec_exec_none op l : spec_exec op l = None → (length l < op_len op)%nat.
Proof. unfold spec_exec. intros Hs. by destruct (_ <? _)%nat eqn:Hlt in Hs; zbool. Qed.

Lemma read_u8_spec rs r rs' :
  read_u8 rs = (r, rs') → sr_inv rs.1 → (2 ≤ length (sr_buf rs.1))%nat →
  keeps rs rs' ∧
  match r with
  | Ok b => ahead rs = b :: ahead rs'
  | Err e => input_error 1 rs e
  | _ => False
  end.
Proof.
  intros Hr Hi H2.
  assert (sr_exec OpReadU8 rs = (OutByte <$> r, rs')) as E.
  { cbn [sr_exec]. unfold mbind, M_bind. rewrite Hr. by destruct r. }
  destruct (sr_exec_spec _ _ _ _ E Hi H2) as (Hi' & Hl & Hp). split; [done|].
  destruct r as [b|e|w|]; cbn in Hp; try done; [| |by destruct Hp as (? & ? & _)].
  - unfold spec_exec in Hp. cbn [op_len] in Hp. destruct (ahead rs); [done|].
    by injection Hp as <- <-.
  - destruct Hp as [(? & ? & Hs)|[[? ?]|?]]; [left|lia|by right]. by apply spec_exec_none in Hs.
Qed.

Lemma read_u16_be_spec rs r rs' :
  read_u16_be rs = (r, rs') → sr_inv rs.1 → (2 ≤ length (sr_buf rs.1))%nat →
  keeps rs rs' ∧
  match r with
  | Ok z => ∃ b0 b1, ahead rs = b0 :: b1 :: ahead rs' ∧ z = be_decode [b0; b1]
  | Err e => input_error 2 rs e
  | _ => False
  end.
Proof.
  intros Hr Hi H2.
  assert (sr_exec OpReadU16 rs = (OutU16 <$> r, rs')) as E.
  { cbn [sr_exec]. unfold mbind, M_bind. rewrite Hr. by destruct r. }
  destruct (sr_exec_spec _ _ _ _ E Hi H2) as (Hi' & Hl & Hp). split; [done|].
  destruct r as [z|e|w|]; cbn in Hp; try done; [| |by destruct Hp as (? & ? & _)].
  - unfold spec_exec in Hp. cbn [op_len] in Hp. destruct (ahead rs) as [|b0 [|b1 l]]; [done..|].
    injection Hp as Hz Hd. exists b0, b1. by rewrite <-Hd.
  - destruct Hp as [(? & ? & Hs)|[[? ?]|?]]; [left|lia|by right]. by apply spec_exec_none in Hs.
Qed.

Lemma read_slice_spec len rs r rs' :
  read_slice len rs = (r, rs') → sr_inv rs.1 → (2 ≤ length (sr_buf rs.1))%nat →
  (len ≤ length (sr_buf rs.1))%nat →
  keeps rs rs' ∧
  match r with
  | Ok bs => ahead rs = bs ++ ahead rs' ∧ length bs = len
  | Err e => (e = eof_error ∧ ahead rs' = ahead rs ∧ (length (ahead rs) < len)%nat) ∨ stream_error e
  | _ => False
  end.
Proof.
  intros Hr Hi H2 Hl.
  assert (sr_exec (OpReadSlice len) rs = (OutBytes <$> r, rs')) as E.
  { cbn [sr_exec]. unfold mbind, M_bind. rewrite Hr. by destruct r. }
  destruct (sr_exec_spec _ _ _ _ E Hi H2) as (Hi' & Hl' & Hp). split; [done|].
  destruct r as [bs|e|w|]; cbn in Hp; try done; [| |by destruct Hp as (? & ? & _)].
  - unfold spec_exec in Hp. cbn [op_len spec_out] in Hp.
    destruct (_ <? len)%nat eqn:Hlt in Hp; [done|]. zbool. injection Hp as Hbs Hd.
    rewrite <-Hbs, <-Hd. rewrite take_drop, length_take. split; [done|lia].
  - destruct Hp as [(? & ? & Hs)|[[? ?]|?]]; [left|lia|by right].
    split_and!; [done..|]. by apply spec_exec_none in Hs.
Qed.

Lemma peek_slice_spec len rs r rs' :
  peek_slice len rs = (r, rs') → sr_inv rs.1 → (2 ≤ length (sr_buf rs.1))%nat →
  (len ≤ length (sr_buf rs.1))%nat →
  keeps rs rs' ∧
  match r with
  | Ok bs => ahead rs' = ahead rs ∧ bs = take len (ahead rs) ∧ length bs = len
  | Err e => (e = eof_error ∧ ahead rs' = ahead rs ∧ (length (ahead rs) < len)%nat) ∨ stream_error e
  | _ => False
  end.
Proof.
  intros Hr Hi H2 Hl.
  assert (sr_exec (OpPeek len) rs = (OutBytes <$> r, rs')) as E.
  { cbn [sr_exec]. unfold mbind, M_bind. rewrite Hr. by destruct r. }
  destruct (sr_exec_spec _ _ _ _ E Hi H2) as (Hi' & Hl' & Hp). split; [done|].
  destruct r as [bs|e|w|]; cbn in Hp; try done; [| |by destruct Hp as (? & ? & _)].
  - unfold spec_exec in Hp. cbn [op_len spec_out] in Hp.
    destruct (_ <? len)%nat eqn:Hlt in Hp; [done|]. zbool. injection Hp as Hbs Hd.
    rewrite <-Hbs, length_take. split_and!; [done..|lia].
  - destruct Hp as [(? & ? & Hs)|[[? ?]|?]]; [left|lia|by right].
    split_and!; [done..|]. by apply spec_exec_none in Hs.
Qed.

(** After a successful peek the window holds what was peeked, so [consume] is safe. *)
Lemma peek_window len rs bs rs' :
  peek_slice len rs = (Ok bs, rs') → sr_inv rs.1 → (len ≤ length (sr_buf rs.1))%nat →
  (len ≤ length (unparsed_data rs'.1))%nat.
Proof.
  intros Hr Hi Hl. unfold peek_slice in Hr. run_in Hr.
  rewrite (proj2 (Nat.ltb_ge _ _)) in Hr by done.
  destruct (sr_fill len len rs) as [[[]| | |] rs1] eqn:E; simplify_eq.
  destruct (sr_fill_spec _ _ _ _ _ E Hi Hl ltac:(lia)) as (_ & _ & _ & Hw). done.
Qed.

Lemma consume_ok len rs :
  sr_inv rs.1 → (len ≤ length (unparsed_data rs.1))%nat →
  ∃ rs', consume len rs = (Ok tt, rs') ∧ keeps rs rs' ∧ ahead rs' = drop len (ahead rs).
Proof.
  intros Hi Hw. destruct rs as [rd s]. cbn [fst] in *. pose proof Hi as Hi'. unfold sr_inv in Hi'.
  pose proof (length_unparsed rd Hi) as Hu. exists (advance len rd, s).
  destruct (advance_ahead len rd s Hi Hw) as [Hi2 Ha].
  split_and!; [|split; [done|apply length_buf_advance]|done].
  unfold consume, sr_advance. run. cbn [fst]. by rewrite (proj2 (Nat.leb_le _ _)) by lia.
Qed.

Lemma sr_run_spec ops rs os rs' :
  sr_run ops rs = (Ok os, rs') → sr_inv rs.1 → (2 ≤ length (sr_buf rs.1))%nat →
  spec_run ops (ahead rs) = Some (os, ahead rs') ∧ sr_inv rs'.1.
Proof.
  revert rs os. induction ops as [|op ops IH]; intros rs os Hr Hi Hl.
  - cbn in Hr. run_in Hr. by simplify_eq.
  - cbn [sr_run spec_run] in *. apply M_bind_ok_inv in Hr as (o & rs1 & E & Hr).
    apply M_bind_ok_inv in Hr as (os1 & rs2 & E2 & Hr). run_in Hr. simplify_eq.
    destruct (sr_exec_spec _ _ _ _ E Hi Hl) as (Hi1 & Hl1 & ->). cbn [mbind option_bind].
    destruct (IH _ _ E2 Hi1) as [-> ?]; [lia|]. done.
Qed.
End Laws.

(** ** What reading leaves alone

    A property of the stream that polls for reading keep, every operation keeps. *)

Section ReadFrame.
Context {T : Type} `{AsyncRead T} (P : T → Prop) (HP : ∀ n s, P s → P (poll_read n s).2).

Lemma await_read_frame fuel n s : P s → P (await fuel (poll_read n) s).2.
Proof using HP.
  revert s. induction fuel as [|fuel IH]; intros s Hs; cbn [await];
    pose proof (HP n s Hs) as Hs'; destruct (poll_read n s) as [[x|] s']; auto.
Qed.

Lemma sr_read_loop_frame fuel rs : P rs.2 → P (sr_read_loop fuel rs).2.2.
Proof using HP.
  revert rs. induction fuel as [|fuel IH]; intros [r s] Hs; cbn [sr_read_loop snd] in *;
    pose proof (await_read_frame (waits s) (length (sr_buf r) - end_offset r) s Hs) as Hs';
    unfold read; destruct (await _ _ s) as [[bs|e|w|] s']; cbn [snd] in *; try done; case_decide; try done.
  by apply IH.
Qed.

Lemma sr_fill_frame fuel len rs : P rs.2 → P (sr_fill fuel len rs).2.2.
Proof using HP.
  revert rs. induction fuel as [|fuel IH]; intros [r s] Hs; cbn [sr_fill];
    destruct (_ <? len)%nat; try done.
  unfold mbind, M_bind, sr_read. destruct (is_cache_full r); [done|].
  pose proof (sr_read_loop_frame (waits s) (reset_buf_offset r, s) Hs) as Hs'.
  destruct (sr_read_loop _ _) as [[[]| | |] rs']; try done. by apply IH.
Qed.

Lemma bind_frame {A B} (m : M (StreamReader * T) A) (k : A → M (StreamReader * T) B) rs :
  P (m rs).2.2 → (∀ a rs', P rs'.2 → P (k a rs').2.2) → P ((m ≫= k) rs).2.2.
Proof using. intros Hm Hk. rewrite M_bind_eq. destruct (m rs) as [[] rs']; auto. Qed.

Lemma peek_slice_frame len rs : P rs.2 → P (peek_slice len rs).2.2.
Proof using HP.
  intros Hs. unfold peek_slice. apply bind_frame; [done|]. intros rs1 rs2 Hs2.
  destruct (_ <? len)%nat; [done|]. apply bind_frame; [by apply sr_fill_frame|].
  intros _ rs3 Hs3. by apply bind_frame.
Qed.

Lemma consume_frame len rs : P rs.2 → P (consume len rs).2.2.
Proof using.
  intros Hs. unfold consume. apply bind_frame; [done|]. intros rs1 rs2 Hs2.
  destruct (_ <=? _)%nat; [|done]. by destruct rs2.
Qed.

Lemma read_u16_be_frame rs : P rs.2 → P (read_u16_be rs).2.2.
Proof using HP.
  intros Hs. unfold read_u16_be. apply bind_frame; [by apply sr_fill_frame|].
  intros _ rs1 Hs1. repeat (apply bind_frame; [done|]; intros ? ? ?).
  apply bind_frame; [|done]. by destruct rs'1.
Qed.

Lemma read_slice_frame len rs : P rs.2 → P (read_slice len rs).2.2.
Proof using HP.
  intros Hs. unfold read_slice. apply bind_frame; [done|]. intros rs1 rs2 Hs2.
  destruct (_ <? len)%nat; [done|]. apply bind_frame; [by apply sr_fill_frame|].
  intros _ rs3 Hs3. repeat (apply bind_frame; [done|]; intros ? ? ?).
  apply bind_frame; [|done]. by destruct rs'0.
Qed.
End ReadFrame.

(** ** Properties *)

(** C8: any sequence of reads, peeks and consumes on a fresh reader returns what
    the same sequence returns on the plain list of bytes the peer sends, however
    the stream cuts, delays or interrupts them, whatever the buffer's memory
    held; and no byte is lost between the window and the stream. *)
Theorem stream_reader_refines {T : Type} `{AsyncReadLaws T} (mem : nat → byte) (cap : nat)
    (s : T) (ops : list sr_op) (os : list sr_out) (rs' : StreamReader * T) :
  (2 ≤ cap)%nat → sr_run ops (new_with_buffer_size mem cap, s) = (Ok os, rs') →
  spec_run ops (incoming s) = Some (os, unparsed_data rs'.1 ++ incoming rs'.2).
Proof.
  intros Hc Hr. apply sr_run_spec in Hr as [Hr _].
  - unfold ahead in Hr. cbn [fst snd] in Hr. by rewrite unparsed_new in Hr.
  - apply new_inv.
  - cbn. by rewrite length_allocate_vec.
Qed.

Definition demo_script : Script :=
  MkScript [EData x01 []; EPending; EData x02 [x03; x04]; EError (io_err Interrupted "");
            EData x05 [x06]].

Lemma stream_reader_refines_witness :
  spec_run [OpPeek 2; OpReadU8; OpReadU16; OpReadSlice 2] (incoming demo_script) =
  Some ([OutBytes [x01; x02]; OutByte x01; OutU16 515; OutBytes [x04; x05]], [x06]).
Proof.
  exact (stream_reader_refines (fun _ => xff) 4 demo_script
    [OpPeek 2; OpReadU8; OpReadU16; OpReadSlice 2] _
    (MkReader [x04; x05; x06; x04] 2 3, MkScript []) ltac:(lia) eq_refl).
Defined.

(** [read_slice] for a length the buffer can hold always returns: with the
    next [len] bytes and the rest still ahead, with the end-of-stream error and
    nothing lost when the peer sent fewer, or with an error the stream reported.
    It never panics, never spins and never reports a full cache. *)
Theorem read_slice_total {T : Type} `{AsyncReadLaws T} (len : nat) (rd : StreamReader) (s : T)
    (r : res bytes) (rd' : StreamReader) (s' : T) :
  sr_inv rd → (2 ≤ length (sr_buf rd))%nat → (len ≤ length (sr_buf rd))%nat →
  read_slice len (rd, s) = (r, (rd', s')) →
  sr_inv rd' ∧
  match r with
  | Ok bs => unparsed_data rd ++ incoming s = bs ++ unparsed_data rd' ++ incoming s' ∧ length bs = len
  | Err e =>
      (e = eof_error ∧ unparsed_data rd' ++ incoming s' = unparsed_data rd ++ incoming s ∧
       (length (unparsed_data rd ++ incoming s) < len)%nat) ∨
      (err_kind e ≠ Interrupted ∧ ∃ n (s1 s2 : T), read n s1 = (Err e, s2))
  | Panic _ | OutOfFuel => False
  end.
Proof.
  intros Hi H2 Hl Hr. apply read_slice_spec in Hr as [[Hi' _] Hp]; [|done..]. split; [done|].
  unfold ahead in Hp. cbn [fst snd] in Hp. by destruct r.
Qed.

Lemma read_slice_total_witness :
  [] ++ incoming demo_script =
    [x01; x02; x03] ++ unparsed_data (MkReader [x01; x02; x03; x04] 3 4) ++ [x05; x06] ∧
  length [x01; x02; x03] = 3%nat.
Proof.
  exact (proj2 (read_slice_total 3 (new_with_buffer_size (fun _ => x00) 4) demo_script
    (Ok [x01; x02; x03]) (MkReader [x01; x02; x03; x04] 3 4)
    (MkScript [EError (io_err Interrupted ""); EData x05 [x06]])
    ltac:(unfold sr_inv; cbn; lia) ltac:(cbn; lia) ltac:(cbn; lia) eq_refl)).
Defined.
