(* ===== verification/Varint.v ===== *)
(** * QUIC variable-length integers (src/hysteria2.rs)

    [encode_varint], and the two decoders: [read_varint] on a stream, and the
    one written inline in the datagram loop. *)

From Stdlib Require Import String.
From S2P Require Import Prelude AsyncStream StreamReader.

(** [bytes[0] |= mask]. *)
Definition or_first (mask : Z) (bs : bytes) : bytes :=
  match bs with [] => [] | b :: t => z2b (Z.lor (b2z b) mask) :: t end.

Definition encode_varint (value : Z) : res bytes :=
  if value <=? 63 then Ok [z2b value]
  else if value <? Z.shiftl 1 14 then Ok (or_first 64 (be_encode 2 (wrap 16 value)))
  else if value <? Z.shiftl 1 30 then Ok (or_first 128 (be_encode 4 (wrap 32 value)))
  else if value <? Z.shiftl 1 62 then Ok (or_first 192 (be_encode 8 value))
  else Err (io_err Other "value too large to encode as varint").

(** The two top bits of the first byte give the length. *)
Definition varint_num_bytes (first_byte : byte) : res nat :=
  match Z.shiftr (b2z first_byte) 6 with
  | 0 => Ok 1%nat
  | 1 => Ok 2%nat
  | 2 => Ok 4%nat
  | 3 => Ok 8%nat
  | _ => Panic "invalid num bytes value"
  end.

Definition varint_head (first_byte : byte) : Z := Z.land (b2z first_byte) 63.

(** [value <<= 8; value |= *byte as u64]. *)
Definition varint_step (value : Z) (b : byte) : Z := Z.lor (wrap 64 (Z.shiftl value 8)) (b2z b).

Definition read_varint {T} `{AsyncRead T} : M (StreamReader * T) Z :=
  first_byte ← read_u8;
  num_bytes ← lift (varint_num_bytes first_byte);
  if (1 <? num_bytes)%nat then
    remaining ← read_slice (num_bytes - 1);
    mret (foldl varint_step (varint_head first_byte) remaining)
  else mret (varint_head first_byte).

(** The inline decoder of [run_udp_local_to_remote_loop]: the value as [usize]
    and the index after it; the slice it takes is not checked against the length
    of the datagram. *)
Definition datagram_varint (data : bytes) : res (Z * nat) :=
  match data !! 8%nat with
  | None => Panic "index out of bounds"
  | Some first_byte =>
      num_bytes ← varint_num_bytes first_byte;
      if (1 <? num_bytes)%nat then
        if (9 + (num_bytes - 1) <=? length data)%nat then
          let remaining := slice 9 (9 + (num_bytes - 1)) data in
          Ok (foldl varint_step (varint_head first_byte) remaining, (9 + (num_bytes - 1))%nat)
        else Panic "range end index out of range for slice"
      else Ok (varint_head first_byte, 9%nat)
  end.

(** ** The value a varint denotes *)

Definition spec_varint (l : bytes) : option (Z * bytes) :=
  match l with
  | [] => None
  | b :: t =>
      match varint_num_bytes b with
      | Ok n => if (length t <? n - 1)%nat then None
                else Some (foldl be_step (varint_head b) (take (n - 1) t), drop (n - 1) t)
      | _ => None
      end
  end.

(** ** Lemmas *)

Lemma varint_num_bytes_cases b :
  ∃ n, varint_num_bytes b = Ok n ∧ (1 ≤ n ≤ 8)%nat.
Proof. destruct b; vm_compute; eexists; (split; [reflexivity|lia]). Qed.

Lemma varint_head_range b : 0 ≤ varint_head b < 64.
Proof.
  unfold varint_head. change 63 with (Z.ones 6). rewrite Z.land_ones by lia.
  apply Z.mod_pos_bound. lia.
Qed.

Lemma lor_shift8 v b : Z.lor (Z.shiftl v 8) (b2z b) = v * 256 + b2z b.
Proof.
  pose proof (b2z_range b).
  assert (Z.land (Z.shiftl v 8) (b2z b) = 0) as Hl.
  { replace (b2z b) with (Z.land (b2z b) (Z.ones 8)) by (rewrite Z.land_ones, Z.mod_small; lia).
    rewrite (Z.land_comm (b2z b)), Z.land_assoc, Z.land_ones by lia.
    rewrite Z.shiftl_mul_pow2, Z.mod_mul by lia. done. }
  rewrite <-(Z.lxor_lor _ _ Hl), <-Z.add_nocarry_lxor by done.
  rewrite Z.shiftl_mul_pow2 by lia. lia.
Qed.

Lemma varint_step_be v b : 0 ≤ v < 2 ^ 56 → varint_step v b = be_step v b.
Proof.
  intros Hv. unfold varint_step, be_step, wrap. rewrite Z.mod_small, lor_shift8; [done|].
  rewrite Z.shiftl_mul_pow2 by lia. lia.
Qed.

(** The shift-and-or loop computes the big-endian value, without overflow. *)
Lemma varint_fold bs v :
  0 ≤ v → (v + 1) * 256 ^ Z.of_nat (length bs) ≤ 2 ^ 62 →
  foldl varint_step v bs = foldl be_step v bs.
Proof.
  revert v. induction bs as [|b bs IH]; intros v Hv Hb; [done|]. cbn [foldl length] in *.
  rewrite Nat2Z.inj_succ, Z.pow_succ_r in Hb by lia.
  assert (0 < 256 ^ Z.of_nat (length bs)) by (apply Z.pow_pos_nonneg; lia).
  pose proof (b2z_range b). rewrite varint_step_be by nia. apply IH; unfold be_step; nia.
Qed.

Lemma varint_fold_head b bs :
  (length bs ≤ 7)%nat → foldl varint_step (varint_head b) bs = foldl be_step (varint_head b) bs.
Proof.
  intros Hl. pose proof (varint_head_range b). apply varint_fold; [lia|].
  assert (256 ^ Z.of_nat (length bs) ≤ 256 ^ 7) by (apply Z.pow_le_mono_r; lia).
  change (2 ^ 62) with (64 * 256 ^ 7). apply Z.mul_le_mono_nonneg; lia.
Qed.

(** ** Encoding *)

Definition mask_len (mask : Z) : nat :=
  match mask with 0 => 1 | 64 => 2 | 128 => 4 | _ => 8 end.

Lemma varint_head_or b mask :
  b2z b < 64 → mask ∈ [0; 64; 128; 192] →
  varint_head (z2b (Z.lor (b2z b) mask)) = b2z b ∧
  varint_num_bytes (z2b (Z.lor (b2z b) mask)) =
    Ok (mask_len mask).
Proof.
  intros Hb Hm. repeat (apply elem_of_cons in Hm as [->|Hm]); [..|by apply elem_of_nil in Hm];
    destruct b; try (vm_compute in Hb; discriminate Hb); by vm_compute.
Qed.

Lemma be_encode_head n v :
  0 ≤ v < 64 * 256 ^ Z.of_nat n → ∃ b t, be_encode (S n) v = b :: t ∧ b2z b < 64 ∧ length t = n.
Proof.
  intros Hv. cbn [be_encode]. do 2 eexists. split; [done|]. rewrite length_be_encode. split; [|done].
  rewrite b2z_z2b, Z.shiftr_div_pow2, Z.pow_mul_r by lia. change (2 ^ 8) with 256.
  assert (0 < 256 ^ Z.of_nat n) by (apply Z.pow_pos_nonneg; lia).
  assert (v / 256 ^ Z.of_nat n < 64) by (apply Z.div_lt_upper_bound; lia).
  assert (0 ≤ v / 256 ^ Z.of_nat n) by (apply Z.div_pos; lia).
  rewrite Z.mod_small; lia.
Qed.

(** A marked big-endian encoding denotes its value. *)
Lemma spec_varint_marked n mask v rest :
  0 ≤ v < 64 * 256 ^ Z.of_nat n → mask ∈ [0; 64; 128; 192] → mask_len mask = S n →
  spec_varint (or_first mask (be_encode (S n) v) ++ rest) = Some (v, rest).
Proof.
  intros Hv Hm Hlen. destruct (be_encode_head n v Hv) as (b & t & Hbt & Hb & Ht).
  pose proof (be_decode_encode_small (S n) v) as Hd. rewrite Hbt in *. cbn [or_first app spec_varint].
  destruct (varint_head_or b mask Hb Hm) as [-> ->]. rewrite Hlen.
  replace (S n - 1)%nat with n by lia.
  rewrite (proj2 (Nat.ltb_ge _ _)) by (rewrite length_app; lia).
  rewrite take_app_length', drop_app_length' by done. do 2 f_equal.
  unfold be_decode in Hd. cbn [foldl] in Hd. unfold be_step in Hd at 2. rewrite Z.add_0_l in Hd.
  apply Hd. rewrite Nat2Z.inj_succ, Z.pow_succ_r by lia. lia.
Qed.

Lemma encode_varint_spec v rest :
  0 ≤ v < 2 ^ 62 → ∃ bs, encode_varint v = Ok bs ∧ (1 ≤ length bs ≤ 8)%nat ∧
    spec_varint (bs ++ rest) = Some (v, rest).
Proof.
  intros Hv. unfold encode_varint. change (Z.shiftl 1 14) with (2 ^ 14).
  change (Z.shiftl 1 30) with (2 ^ 30). change (Z.shiftl 1 62) with (2 ^ 62).
  repeat case_match_eqn; zbool; try lia; eexists; (split; [done|]).
  - split; [cbn; lia|].
    assert ([z2b v] = or_first 0 (be_encode 1 v)) as ->.
    { cbn. by rewrite Z.lor_0_r, z2b_b2z, Z.shiftr_0_r. }
    apply spec_varint_marked; [lia|by repeat first [left; done | right]|done].
  - unfold wrap. rewrite Z.mod_small by lia. split; [cbn; lia|].
    apply spec_varint_marked; [lia|by repeat first [left; done | right]|done].
  - unfold wrap. rewrite Z.mod_small by lia. split; [cbn; lia|].
    apply spec_varint_marked; [lia|by repeat first [left; done | right]|done].
  - split; [cbn; lia|]. apply spec_varint_marked; [lia|by repeat first [left; done | right]|done].
Qed.

(** ** Decoding from a stream *)

Section Stream.
Context {T : Type} `{AsyncReadLaws T}.

Lemma read_varint_spec (rs : StreamReader * T) r rs' :
  read_varint rs = (r, rs') → sr_inv rs.1 → (8 ≤ length (sr_buf rs.1))%nat →
  keeps rs rs' ∧
  match r with
  | Ok v => spec_varint (ahead rs) = Some (v, ahead rs') ∧ 0 ≤ v < 2 ^ 62
  | Err e => (e = eof_error ∧ spec_varint (ahead rs) = None) ∨ stream_error (T := T) e
  | _ => False
  end.
Proof.
  intros Hr Hi Hl. unfold read_varint in Hr. rewrite M_bind_eq in Hr.
  destruct (read_u8 rs) as [r1 rs1] eqn:E1.
  destruct (read_u8_spec _ _ _ E1 Hi ltac:(lia)) as [[Hi1 Hl1] Hp1].
  destruct r1 as [b|e|w|]; simplify_eq; try done.
  2: { split; [done|]. destruct Hp1 as [[-> Hlt]|?]; [left|by right]. split; [done|].
       destruct (ahead rs); [done|]. cbn in Hlt. lia. }
  rewrite Hp1. rewrite M_bind_eq in Hr. unfold lift in Hr. cbn [spec_varint].
  destruct (varint_num_bytes_cases b) as (n & Hn & Hnr). rewrite Hn in *.
  pose proof (varint_head_range b) as Hh.
  destruct (1 <? n)%nat eqn:H1; zbool.
  - rewrite M_bind_eq in Hr. destruct (read_slice (n - 1) rs1) as [r2 rs2] eqn:E2.
    destruct (read_slice_spec _ _ _ _ E2 Hi1 ltac:(lia) ltac:(lia)) as [[Hi2 Hl2] Hp2].
    destruct r2 as [bs|e|w|]; try done.
    + destruct Hp2 as [Ha Hb]. unfold mret, M_ret in Hr. simplify_eq.
      rewrite Ha, (proj2 (Nat.ltb_ge _ _)) by (rewrite length_app; lia).
      rewrite take_app_length', drop_app_length', varint_fold_head by lia.
      split; [split; congruence|]. split; [done|].
      rewrite foldl_be_step. pose proof (be_decode_range bs).
      assert (256 ^ Z.of_nat (length bs) ≤ 256 ^ 7) by (apply Z.pow_le_mono_r; lia). nia.
    + simplify_eq. split; [split; congruence|].
      destruct Hp2 as [(-> & ? & Hlt)|?]; [left|by right].
      by rewrite (proj2 (Nat.ltb_lt _ _)).
  - unfold mret, M_ret in Hr. simplify_eq. split; [done|]. assert (n = 1%nat) as -> by lia.
    cbn. rewrite drop_0. split; [done|lia].
Qed.
End Stream.

(** ** Properties *)

(** C29: every value below 2^62 is encoded, in one, two, four or eight bytes, and
    [read_varint] reads that value back from any stream that begins with the
    encoding, consuming exactly it. *)
Theorem varint_roundtrip {T : Type} `{AsyncReadLaws T} (v : Z) (rest : bytes)
    (rd : StreamReader) (s : T) :
  0 ≤ v < 2 ^ 62 → sr_inv rd → (8 ≤ length (sr_buf rd))%nat →
  ∃ bs, encode_varint v = Ok bs ∧ (1 ≤ length bs ≤ 8)%nat ∧
    (unparsed_data rd ++ incoming s = bs ++ rest →
     match read_varint (rd, s) with
     | (Ok v', (rd', s')) => v' = v ∧ unparsed_data rd' ++ incoming s' = rest
     | (Err e, _) => err_kind e ≠ Interrupted ∧ ∃ n (s1 s2 : T), read n s1 = (Err e, s2)
     | _ => False
     end).
Proof.
  intros Hv Hi Hl. destruct (encode_varint_spec v rest Hv) as (bs & -> & Hlen & Hs).
  exists bs. split_and!; [done|lia..|]. intros Hin.
  destruct (read_varint (rd, s)) as [r [rd' s']] eqn:E.
  destruct (read_varint_spec _ _ _ E Hi Hl) as [_ Hp]. unfold ahead in Hp. cbn [fst snd] in Hp.
  rewrite Hin, Hs in Hp. destruct r as [v'|e|w|]; try done.
  - destruct Hp as [Heq _]. by simplify_eq.
  - by destruct Hp as [[_ ?]|?].
Qed.

Lemma varint_roundtrip_witness :
  encode_varint 300 = Ok [x41; x2c] ∧
  match read_varint (MkReader (replicate 8 x00) 0 0, MkScript [EData x41 []; EPending; EData x2c [xff]]) with
  | (Ok v', (rd', s')) => v' = 300 ∧ unparsed_data rd' ++ incoming s' = [xff]
  | _ => False
  end.
Proof.
  destruct (varint_roundtrip 300 [xff] (MkReader (replicate 8 x00) 0 0)
    (MkScript [EData x41 []; EPending; EData x2c [xff]])
    ltac:(lia) ltac:(unfold sr_inv; cbn; lia) ltac:(cbn; lia)) as (bs & Hb & _ & Hr).
  injection Hb as <-. split; [reflexivity|]. exact (Hr eq_refl).
Defined.

(** [encode_varint] refuses exactly the values that do not fit in 62 bits. *)
Theorem encode_varint_rejects (v : Z) :
  0 ≤ v < 2 ^ 64 → (is_ok (encode_varint v) = false ↔ 2 ^ 62 ≤ v).
Proof.
  intros Hv. split.
  - intros Hf. destruct (decide (v < 2 ^ 62)) as [Hlt|]; [|lia].
    destruct (encode_varint_spec v []) as (bs & Hb & _); [lia|]. by rewrite Hb in Hf.
  - intros Hge. unfold encode_varint. change (Z.shiftl 1 14) with (2 ^ 14).
    change (Z.shiftl 1 30) with (2 ^ 30). change (Z.shiftl 1 62) with (2 ^ 62).
    rewrite (proj2 (Z.leb_gt _ _)), !(proj2 (Z.ltb_ge _ _)) by lia. done.
Qed.

Lemma encode_varint_rejects_witness :
  is_ok (encode_varint (2 ^ 62)) = false ↔ 2 ^ 62 ≤ 2 ^ 62.
Proof. apply encode_varint_rejects. lia. Defined.
