(* ===== verification/Hysteria2Tcp.v ===== *)
(** * The Hysteria2 TCP request (src/hysteria2.rs, [handle_tcp_header])

    A client opens a QUIC stream and sends a request: a frame type, the target
    as text, and padding.  The server answers with a status and padding of its
    own, and keeps what it read past the request for the relay. *)

From Stdlib Require Import String.
From S2P Require Import Prelude RustStd Address AsyncStream StreamReader Varint.

Definition FRAME_TYPE_TCP_REQUEST : Z := 1025.
Definition MAX_ADDRESS_LEN : Z := 2048.
Definition MAX_PADDING_LEN : Z := 4096.
Definition HEADER_BUFFER_SIZE : nat := Z.to_nat 8192.

(** The request, up to and including its padding. *)
Definition tcp_request {T} `{AsyncRead T} : M (StreamReader * T) NetLocation :=
  tcp_request_id ← read_varint;
  if negb (tcp_request_id =? FRAME_TYPE_TCP_REQUEST)
  then throw (io_err Other "invalid tcp request id")
  else
    address_len ← read_varint;
    if MAX_ADDRESS_LEN <? address_len then throw (io_err Other "invalid address length")
    else
      address_bytes ← read_slice (Z.to_nat address_len);
      if negb (utf8_valid address_bytes)
      then throw (io_err Other "invalid address encoding")
      else
        remote_location ← lift (netloc_from_str address_bytes None);
        padding_len ← read_varint;
        if MAX_PADDING_LEN <? padding_len then throw (io_err Other "invalid padding length")
        else
          read_slice (Z.to_nat padding_len) ;;
          mret remote_location.

(** Status 0, an empty message, and the padding the generator drew. *)
Definition tcp_response (padding : bytes) : bytes :=
  [x00; x00; z2b (Z.of_nat (length padding))] ++ padding.

Definition h3_write_error (e : io_error) : io_error := io_err Other "H3 stream write failed".

Definition handle_tcp_header {T W} `{AsyncRead T} `{AsyncWrite W}
    (mem : nat → byte) (padding : bytes) : M (W * T) (NetLocation * StreamReader) :=
  fun '(send, recv) =>
    match tcp_request (new_with_buffer_size mem HEADER_BUFFER_SIZE, recv) with
    | (Ok remote_location, (stream_reader, recv')) =>
        let response_bytes := tcp_response padding in
        match write_loop h3_write_error (length response_bytes) response_bytes 0 send with
        | (Ok _, send') => (Ok (remote_location, stream_reader), (send', recv'))
        | (Err e, send') => (Err e, (send', recv'))
        | (Panic w, send') => (Panic w, (send', recv'))
        | (OutOfFuel, send') => (OutOfFuel, (send', recv'))
        end
    | (Err e, (_, recv')) => (Err e, (send, recv'))
    | (Panic w, (_, recv')) => (Panic w, (send, recv'))
    | (OutOfFuel, (_, recv')) => (OutOfFuel, (send, recv'))
    end.

(** ** The request format *)

Definition take_exact (n : Z) (l : bytes) : option (bytes * bytes) :=
  if Z.of_nat (length l) <? n then None else Some (take (Z.to_nat n) l, drop (Z.to_nat n) l).

Definition guard_opt (b : bool) : option unit := if b then Some tt else None.

Definition res_opt {A} (r : res A) : option A := match r with Ok a => Some a | _ => None end.

Definition spec_tcp_request (l : bytes) : option (NetLocation * bytes) :=
  '(id, l) ← spec_varint l;
  _ ← guard_opt (id =? FRAME_TYPE_TCP_REQUEST);
  '(n, l) ← spec_varint l;
  _ ← guard_opt (n <=? MAX_ADDRESS_LEN);
  '(a, l) ← take_exact n l;
  _ ← guard_opt (utf8_valid a);
  loc ← res_opt (netloc_from_str a None);
  '(p, l) ← spec_varint l;
  _ ← guard_opt (p <=? MAX_PADDING_LEN);
  '(_, l) ← take_exact p l;
  Some (loc, l).

(** What a client sends for a target. *)
Definition encode_tcp_request (address padding : bytes) : res bytes :=
  id ← encode_varint FRAME_TYPE_TCP_REQUEST;
  alen ← encode_varint (Z.of_nat (length address));
  plen ← encode_varint (Z.of_nat (length padding));
  Ok (id ++ alen ++ address ++ plen ++ padding).

(** ** Lemmas *)

Lemma spec_varint_range l v l' : spec_varint l = Some (v, l') → 0 ≤ v.
Proof.
  destruct l as [|b t]; [done|]. cbn [spec_varint]. destruct (varint_num_bytes b) as [n| | |]; try done.
  destruct (_ <? _)%nat; [done|]. intros [= <- _]. rewrite foldl_be_step.
  pose proof (varint_head_range b). pose proof (be_decode_range (take (n - 1) t)). nia.
Qed.

Lemma take_exact_app a l : take_exact (Z.of_nat (length a)) (a ++ l) = Some (a, l).
Proof.
  unfold take_exact. rewrite (proj2 (Z.ltb_ge _ _)) by (rewrite length_app; lia).
  by rewrite Nat2Z.id, take_app_length, drop_app_length.
Qed.

(** What a client sends for a target it may name is a request for that target. *)
Lemma spec_tcp_request_encode address padding rest loc :
  netloc_from_str address None = Ok loc → utf8_valid address = true →
  (length address ≤ Z.to_nat 2048)%nat → (length padding ≤ Z.to_nat 4096)%nat →
  ∃ bs, encode_tcp_request address padding = Ok bs ∧
    spec_tcp_request (bs ++ rest) = Some (loc, rest).
Proof.
  intros Hloc Hutf Ha Hp. unfold encode_tcp_request.
  destruct (encode_varint_spec (Z.of_nat (length padding)) (padding ++ rest)) as (bp & -> & _ & Hbp); [lia|].
  destruct (encode_varint_spec (Z.of_nat (length address)) (address ++ bp ++ padding ++ rest))
    as (ba & -> & _ & Hba); [lia|].
  destruct (encode_varint_spec FRAME_TYPE_TCP_REQUEST (ba ++ address ++ bp ++ padding ++ rest))
    as (bi & -> & _ & Hbi); [unfold FRAME_TYPE_TCP_REQUEST; lia|].
  eexists. split; [done|]. rewrite <-!app_assoc. unfold spec_tcp_request, guard_opt.
  rewrite Hbi. cbn [mbind option_bind]. rewrite Z.eqb_refl, Hba. cbn [mbind option_bind].
  rewrite (proj2 (Z.leb_le _ _)) by (unfold MAX_ADDRESS_LEN; lia).
  rewrite take_exact_app. cbn [mbind option_bind]. rewrite Hutf, Hloc. cbn [res_opt mbind option_bind].
  rewrite Hbp. cbn [mbind option_bind].
  rewrite (proj2 (Z.leb_le _ _)) by (unfold MAX_PADDING_LEN; lia). cbn [mbind option_bind].
  by rewrite take_exact_app.
Qed.

Section Laws.
Context {T : Type} `{AsyncReadLaws T}.

(** A parsing step agrees with its counterpart on the bytes ahead. *)
Definition agrees {A} (spec : bytes → option (A * bytes)) (rs : StreamReader * T)
    (r : res A) (rs' : StreamReader * T) : Prop :=
  keeps rs rs' ∧
  match r with
  | Ok a => spec (ahead rs) = Some (a, ahead rs')
  | Err e => spec (ahead rs) = None ∨ stream_error (T := T) e
  | _ => False
  end.

Definition parses {A} (m : M (StreamReader * T) A) (spec : bytes → option (A * bytes)) : Prop :=
  ∀ rs r rs', m rs = (r, rs') → sr_inv rs.1 → length (sr_buf rs.1) = HEADER_BUFFER_SIZE →
  agrees spec rs r rs'.

Lemma parses_bind {A B} (m : M (StreamReader * T) A) (k : A → M (StreamReader * T) B) sp spk :
  parses m sp → (∀ a l l', sp l = Some (a, l') → parses (k a) (spk a)) →
  parses (m ≫= k) (fun l => '(a, l') ← sp l; spk a l').
Proof.
  intros Hm Hk rs r rs' Hr Hi Hl. rewrite M_bind_eq in Hr.
  destruct (m rs) as [r1 rs1] eqn:E. destruct (Hm _ _ _ E Hi Hl) as [[Hi1 Hl1] Hp].
  destruct r1 as [a|e|w|]; simplify_eq; try done.
  - destruct (Hk a _ _ Hp _ _ _ Hr Hi1 ltac:(congruence)) as [[Hi2 Hl2] Hp2].
    unfold agrees. rewrite Hp. cbn. by split; [split; congruence|].
  - split; [done|]. destruct Hp as [Hn|?]; [left; by rewrite Hn|by right].
Qed.

Lemma parses_ext {A} (m : M (StreamReader * T) A) sp sp' :
  parses m sp → (∀ l, sp l = sp' l) → parses m sp'.
Proof.
  intros Hm He rs r rs' Hr Hi Hl. destruct (Hm _ _ _ Hr Hi Hl) as [? Hp].
  split; [done|]. rewrite <-He. done.
Qed.

Lemma parses_throw {A} (e : io_error) : parses (A := A) (throw e) (fun _ => None).
Proof. intros rs r rs' Hr Hi Hl. run_in Hr. simplify_eq. by split; [|left]. Qed.

Lemma parses_ret {A} (a : A) : parses (mret a) (fun l => Some (a, l)).
Proof. intros rs r rs' Hr Hi Hl. run_in Hr. by simplify_eq. Qed.

Lemma parses_lift {A} (r0 : res A) :
  panics r0 = false → r0 ≠ OutOfFuel → parses (lift r0) (fun l => a ← res_opt r0; Some (a, l)).
Proof.
  intros Hp Hf rs r rs' Hr Hi Hl. run_in Hr. simplify_eq. split; [done|].
  by destruct r; [|left|..].
Qed.

Lemma parses_if {A} (b : bool) (m1 m2 : M (StreamReader * T) A) sp1 sp2 :
  (b = true → parses m1 sp1) → (b = false → parses m2 sp2) →
  parses (if b then m1 else m2) (fun l => if b then sp1 l else sp2 l).
Proof. destruct b; auto. Qed.

Lemma parses_varint : parses read_varint spec_varint.
Proof.
  intros rs r rs' Hr Hi Hl. unfold HEADER_BUFFER_SIZE in Hl.
  destruct (read_varint_spec _ _ _ Hr Hi ltac:(lia)) as [? Hp]. split; [done|].
  destruct r as [v|e|w|]; try done; [by destruct Hp|].
  destruct Hp as [[_ ?]|?]; [by left|by right].
Qed.

Lemma parses_slice (n : Z) :
  0 ≤ n ≤ 8192 → parses (read_slice (Z.to_nat n)) (take_exact n).
Proof.
  intros Hn rs r rs' Hr Hi Hl. unfold HEADER_BUFFER_SIZE in Hl.
  destruct (read_slice_spec _ _ _ _ Hr Hi ltac:(lia) ltac:(lia)) as [? Hp]. split; [done|].
  unfold take_exact. destruct r as [bs|e|w|]; try done.
  - destruct Hp as [-> Hb]. rewrite (proj2 (Z.ltb_ge _ _)) by (rewrite length_app; lia).
    by rewrite take_app_length', drop_app_length'.
  - destruct Hp as [(_ & _ & Hlt)|?]; [left|by right].
    by rewrite (proj2 (Z.ltb_lt _ _)) by lia.
Qed.

(** The whole request, step by step. *)
Lemma parses_tcp_request : parses tcp_request spec_tcp_request.
Proof.
  unfold tcp_request, spec_tcp_request, guard_opt.
  apply parses_bind; [apply parses_varint|]. intros id _ _ _.
  destruct (id =? _); cbn [negb]; [|apply parses_throw].
  apply parses_bind; [apply parses_varint|]. intros n l l' Hn%spec_varint_range. cbn [mbind option_bind].
  rewrite Z.leb_antisym. destruct (MAX_ADDRESS_LEN <? n) eqn:Hlt; cbn [negb]; [apply parses_throw|].
  zbool. unfold MAX_ADDRESS_LEN in Hlt.
  apply parses_bind; [apply parses_slice; lia|]. intros a _ _ _.
  destruct (utf8_valid a); cbn [negb]; [|apply parses_throw].
  destruct (netloc_from_str_returns a None) as [Hp Hf].
  eapply parses_ext; [eapply parses_bind; [by apply parses_lift|]|].
  - intros loc _ _ _. apply parses_bind; [apply parses_varint|]. intros p pl pl' Hpr%spec_varint_range.
    eapply parses_if; [intros _; apply parses_throw|]. intros Hlt'. zbool. unfold MAX_PADDING_LEN in Hlt'.
    apply parses_bind; [apply parses_slice; lia|]. intros ? _ _ _. apply parses_ret.
  - intros l0. cbn [mbind option_bind]. destruct (res_opt _) as [loc|]; [|done]. cbn [mbind option_bind].
    destruct (spec_varint l0) as [[p l1]|]; [|done]. cbn [mbind option_bind].
    rewrite Z.leb_antisym. by destruct (MAX_PADDING_LEN <? p).
Qed.
End Laws.

(** The response's padding length is a one-byte varint. *)
Lemma tcp_response_padding padding :
  (length padding ≤ 63)%nat →
  spec_varint (drop 2 (tcp_response padding)) = Some (Z.of_nat (length padding), padding).
Proof.
  intros Hp. unfold tcp_response. cbn [app drop].
  destruct (encode_varint_spec (Z.of_nat (length padding)) padding) as (bs & Hb & _ & Hs); [lia|].
  unfold encode_varint in Hb. rewrite (proj2 (Z.leb_le _ _)) in Hb by lia. by simplify_eq.
Qed.

(** What [handle_tcp_header] may do, given the bytes the client sends. *)
Definition tcp_header_post {T W} `{AsyncReadLaws T} `{AsyncWriteLaws W} (padding : bytes)
    (s : W * T) (r : res (NetLocation * StreamReader)) (s' : W * T) : Prop :=
  match r with
  | Ok (loc, rd) =>
      sr_inv rd ∧
      spec_tcp_request (incoming s.2) = Some (loc, unparsed_data rd ++ incoming s'.2) ∧
      written s'.1 = written s.1 ++ tcp_response padding
  | Err e =>
      (written s'.1 = written s.1 ∧
       (spec_tcp_request (incoming s.2) = None ∨ stream_error (T := T) e)) ∨
      (e = io_err Other "H3 stream write failed" ∧ is_Some (spec_tcp_request (incoming s.2)) ∧
       ∃ k, written s'.1 = written s.1 ++ take k (tcp_response padding))
  | Panic _ | OutOfFuel => False
  end.

Lemma write_loop_err `{AsyncWriteLaws W} f fuel buf i s e (s' : W) :
  write_loop f fuel buf i s = (Err e, s') → ∃ e0, e = f e0.
Proof.
  revert i s. induction fuel as [|fuel IH]; intros i s Hr; cbn [write_loop] in Hr;
    destruct (i <? length buf)%nat; simplify_eq.
  destruct (write (drop i buf) s) as [[k|e0|w|] s1]; cbn in Hr; simplify_eq; eauto.
Qed.

Lemma handle_tcp_header_post {T W} `{AsyncReadLaws T} `{AsyncWriteLaws W} `{!WriteProgress W}
    mem padding (s : W * T) r s' :
  handle_tcp_header mem padding s = (r, s') → tcp_header_post padding s r s'.
Proof.
  destruct s as [send recv]. unfold handle_tcp_header.
  destruct (tcp_request _) as [r1 [rd recv1]] eqn:E. intros Hr.
  destruct (parses_tcp_request _ _ _ E) as [[Hi _] Hp];
    [apply new_inv|apply length_allocate_vec|].
  unfold ahead in Hp. cbn [fst snd] in *. rewrite unparsed_new in Hp. cbn [app] in Hp.
  destruct r1 as [loc|e|w|]; simplify_eq; try done; [|by left].
  destruct (write_loop _ _ _ _ send) as [r2 send2] eqn:E2.
  destruct (write_loop_spec _ _ _ _ _ _ _ E2) as (Hnf & Hnp & Hk & Hok); [cbn; lia..|].
  rewrite drop_0 in *. destruct r2 as [[]|e|w|]; simplify_eq; try done.
  - split_and!; [done..|by apply Hok].
  - right. destruct (write_loop_err _ _ _ _ _ _ _ E2) as [e0 ->]. split_and!; [done|cbn [snd]; by rewrite Hp|done].
Qed.

(** ** Properties *)

(** C19: [handle_tcp_header] accepts exactly the requests the format allows.  When
    it returns a target, the bytes the client sent are a request for it, what
    follows them is split between the returned reader and the stream with
    nothing lost, and the response has been written: status OK, an empty
    message, and its padding behind a length that decodes to it.  It fails
    without answering when the bytes are not a request or the stream fails; it
    never panics and never spins. *)
Theorem tcp_header_correct {T W} `{AsyncReadLaws T} `{AsyncWriteLaws W} `{!WriteProgress W}
    (mem : nat → byte) (padding : bytes) (s : W * T) :
  (length padding ≤ 63)%nat →
  tcp_header_post padding s (handle_tcp_header mem padding s).1 (handle_tcp_header mem padding s).2 ∧
  take 2 (tcp_response padding) = [x00; x00] ∧
  spec_varint (drop 2 (tcp_response padding)) = Some (Z.of_nat (length padding), padding).
Proof.
  intros Hp. split_and!; [|done|by apply tcp_response_padding].
  eapply handle_tcp_header_post. apply surjective_pairing.
Qed.

Definition demo_request : Script :=
  MkScript [EData x44 [x01; x04]; EPending; EData x61 [x3a; x38; x30]; EData x01 [x00; x47; x45]].

Lemma tcp_header_correct_witness :
  written (handle_tcp_header (fun _ => x00) [xaa] (MkSink [] [WAccept 1; WPending], demo_request)).2.1 =
    [] ++ tcp_response [xaa].
Proof.
  destruct (tcp_header_correct (fun _ => x00) [xaa] (MkSink [] [WAccept 1; WPending], demo_request)
    ltac:(cbn; lia)) as [Hp _].
  destruct (handle_tcp_header _ _ _) as [r s'] eqn:E. vm_compute in E. injection E as <- <-.
  exact (proj2 (proj2 Hp)).
Defined.

(** A client's request for a target it may name is accepted, whatever padding
    it chose and whatever it sends right after, and however the stream cuts it. *)
Theorem tcp_header_accepts {T W} `{AsyncReadLaws T} `{AsyncWriteLaws W} `{!WriteProgress W}
    (mem : nat → byte) (padding address client_padding payload : bytes) (loc : NetLocation)
    (send : W) (recv : T) :
  netloc_from_str address None = Ok loc → utf8_valid address = true →
  (length address ≤ Z.to_nat 2048)%nat → (length client_padding ≤ Z.to_nat 4096)%nat →
  ∃ bs, encode_tcp_request address client_padding = Ok bs ∧
    (incoming recv = bs ++ payload →
     match handle_tcp_header mem padding (send, recv) with
     | (Ok (loc', rd), (send', recv')) =>
         loc' = loc ∧ unparsed_data rd ++ incoming recv' = payload
     | (Err e, _) => stream_error (T := T) e ∨ e = io_err Other "H3 stream write failed"
     | _ => False
     end).
Proof.
  intros Hloc Hutf Ha Hc.
  destruct (spec_tcp_request_encode address client_padding payload loc Hloc Hutf Ha Hc)
    as (bs & Hb & Hs). exists bs. split; [done|]. intros Hin.
  destruct (handle_tcp_header mem padding (send, recv)) as [r [send' recv']] eqn:E.
  apply handle_tcp_header_post in E. unfold tcp_header_post in E. cbn [fst snd] in E.
  rewrite Hin, Hs in E. destruct r as [[loc' rd]|e|w|]; try done.
  - destruct E as (_ & Heq & _). by simplify_eq.
  - destruct E as [[_ [?|?]]|[? _]]; [done|by left|by right].
Qed.

Lemma tcp_header_accepts_witness :
  match handle_tcp_header (fun _ => x00) [] (MkSink [] [], demo_request) with
  | (Ok (loc', rd), (send', recv')) =>
      loc' = NetLoc (Addr_Hostname [x61]) 80 ∧ unparsed_data rd ++ incoming recv' = [x47; x45]
  | (Err e, _) => stream_error (T := Script) e ∨ e = io_err Other "H3 stream write failed"
  | _ => False
  end.
Proof.
  destruct (tcp_header_accepts (fun _ => x00) [] [x61; x3a; x38; x30] [x00] [x47; x45]
    (NetLoc (Addr_Hostname [x61]) 80) (MkSink [] []) demo_request
    eq_refl eq_refl ltac:(cbn; lia) ltac:(cbn; lia)) as (bs & Hb & Hr).
  injection Hb as <-. exact (Hr eq_refl).
Defined.
