(* ===== verification/LruCache.v ===== *)
(** * The LRU cache (crate [lru])

    The cache is third-party code: the components that keep one (src/resolver.rs,
    the UDP sessions of src/hysteria2.rs) are written against this interface.  A
    cache is seen as a finite map of bounded size; a [put] of a new key into a
    full cache drops some other key.  A cache built on [gmap] shows the laws can
    hold. *)

From S2P Require Import Prelude.

(** [lru_write k v] is the assignment through the reference [get_mut] returns. *)
Class Lru (K V C : Type) : Type := {
  lru_new : nat → C;
  lru_contains : K → C → bool;
  lru_get : K → C → option V * C;
  lru_write : K → V → C → C;
  lru_put : K → V → C → C;
  lru_pop : K → C → option V * C }.

Class LruLaws (K V C : Type) `{Countable K} `{!Lru K V C} : Type := {
  lru_map : C → gmap K V;
  lru_cap : C → nat;
  lru_new_map n : lru_map (lru_new n) = ∅ ∧ lru_cap (lru_new n) = n;
  lru_contains_map k c : lru_contains k c = bool_decide (is_Some (lru_map c !! k));
  lru_get_map k c : (lru_get k c).1 = lru_map c !! k ∧
    lru_map (lru_get k c).2 = lru_map c ∧ lru_cap (lru_get k c).2 = lru_cap c;
  lru_write_map k v c : is_Some (lru_map c !! k) →
    lru_map (lru_write k v c) = <[k := v]> (lru_map c) ∧ lru_cap (lru_write k v c) = lru_cap c;
  lru_put_cap k v c : lru_cap (lru_put k v c) = lru_cap c;
  lru_put_room k v c : is_Some (lru_map c !! k) ∨ (size (lru_map c) < lru_cap c)%nat →
    lru_map (lru_put k v c) = <[k := v]> (lru_map c);
  lru_put_full k v c : (0 < lru_cap c)%nat → lru_map c !! k = None →
    (lru_cap c ≤ size (lru_map c))%nat →
    ∃ victim, is_Some (lru_map c !! victim) ∧
      lru_map (lru_put k v c) = <[k := v]> (delete victim (lru_map c));
  lru_pop_map k c : (lru_pop k c).1 = lru_map c !! k ∧
    lru_map (lru_pop k c).2 = delete k (lru_map c) ∧ lru_cap (lru_pop k c).2 = lru_cap c }.

Section Derived.
Context {K V C : Type} `{LruLaws K V C}.

(** A [put] keeps or drops each other entry; it never changes one. *)
Lemma lru_put_lookup k v c k' :
  (0 < lru_cap c)%nat →
  lru_map (lru_put k v c) !! k = Some v ∧
  (k' ≠ k → lru_map (lru_put k v c) !! k' = lru_map c !! k' ∨
            lru_map (lru_put k v c) !! k' = None).
Proof.
  intros Hc.
  destruct (decide (is_Some (lru_map c !! k) ∨ (size (lru_map c) < lru_cap c)%nat)) as [Hr|Hr].
  - rewrite lru_put_room by done. rewrite lookup_insert_eq. split; [done|]. intros Hk.
    rewrite lookup_insert_ne by done. by left.
  - destruct (lru_put_full k v c Hc) as (victim & _ & ->).
    + apply eq_None_not_Some. tauto.
    + lia.
    + rewrite lookup_insert_eq. split; [done|]. intros Hk. rewrite lookup_insert_ne by done.
      destruct (decide (k' = victim)) as [->|]; [right; apply lookup_delete_eq|].
      left. by rewrite lookup_delete_ne.
Qed.

(** The cache stays within its capacity. *)
Lemma lru_put_size k v c :
  (0 < lru_cap c)%nat → (size (lru_map c) ≤ lru_cap c)%nat →
  (size (lru_map (lru_put k v c)) ≤ lru_cap (lru_put k v c))%nat.
Proof.
  intros Hc Hs. rewrite lru_put_cap.
  destruct (lru_map c !! k) as [v0|] eqn:Hk.
  - rewrite lru_put_room by (left; eauto). by rewrite map_size_insert_Some.
  - destruct (decide (size (lru_map c) < lru_cap c)%nat) as [Hlt|Hlt].
    + rewrite lru_put_room by auto. rewrite map_size_insert_None by done. lia.
    + destruct (lru_put_full k v c Hc Hk ltac:(lia)) as (victim & [w Hv] & ->).
      rewrite map_size_insert_None.
      * rewrite map_size_delete_Some by eauto. lia.
      * destruct (decide (victim = k)) as [->|]; [apply lookup_delete_eq|].
        by rewrite lookup_delete_ne.
Qed.
End Derived.

(** ** A cache on [gmap], most recently used key first *)

Record MapLru (K V : Type) `{Countable K} : Type :=
  MkLru { ml_entries : gmap K V; ml_order : list K; ml_cap : nat }.
Arguments MkLru {K V _ _} _ _ _.
Arguments ml_entries {K V _ _} _.
Arguments ml_order {K V _ _} _.
Arguments ml_cap {K V _ _} _.

Section MapLru.
Context {K V : Type} `{Countable K}.

Definition ml_touch (k : K) (order : list K) : list K :=
  k :: filter (fun k' => k' ≠ k) order.

Definition ml_victim (c : MapLru K V) : option K :=
  match filter (fun k => is_Some (ml_entries c !! k)) (reverse (ml_order c)) with
  | k :: _ => Some k
  | [] => fst <$> head (map_to_list (ml_entries c))
  end.

#[export] Instance MapLru_Lru : Lru K V (MapLru K V) := {|
  lru_new n := MkLru ∅ [] n;
  lru_contains k c := bool_decide (is_Some (ml_entries c !! k));
  lru_get k c := (ml_entries c !! k, MkLru (ml_entries c) (ml_touch k (ml_order c)) (ml_cap c));
  lru_write k v c := MkLru (<[k := v]> (ml_entries c)) (ml_order c) (ml_cap c);
  lru_put k v c :=
    if bool_decide (is_Some (ml_entries c !! k)) || (size (ml_entries c) <? ml_cap c)%nat
    then MkLru (<[k := v]> (ml_entries c)) (ml_touch k (ml_order c)) (ml_cap c)
    else MkLru (<[k := v]> (match ml_victim c with
                            | Some victim => delete victim (ml_entries c)
                            | None => ml_entries c
                            end)) (ml_touch k (ml_order c)) (ml_cap c);
  lru_pop k c := (ml_entries c !! k, MkLru (delete k (ml_entries c)) (ml_order c) (ml_cap c)) |}.

Lemma ml_victim_spec c :
  (0 < size (ml_entries c))%nat → ∃ k, ml_victim c = Some k ∧ is_Some (ml_entries c !! k).
Proof.
  intros Hs. unfold ml_victim.
  destruct (filter _ (reverse (ml_order c))) as [|k l] eqn:E.
  - destruct (map_to_list (ml_entries c)) as [|[k v] l] eqn:E2.
    + apply map_to_list_empty_iff in E2. rewrite E2, map_size_empty in Hs. lia.
    + exists k. split; [done|]. exists v. apply elem_of_map_to_list. rewrite E2. left.
  - exists k. split; [done|].
    assert (k ∈ filter (fun k => is_Some (ml_entries c !! k)) (reverse (ml_order c))) as Hk
      by (rewrite E; left).
    by apply list_elem_of_filter in Hk as [? _].
Qed.

#[export] Instance MapLru_laws : LruLaws K V (MapLru K V).
Proof.
  refine {| lru_map c := ml_entries c; lru_cap c := ml_cap c |}; try done.
  - intros k v c. cbn. by case_match_eqn.
  - intros k v c Hr. cbn [lru_put MapLru_Lru]. destruct (bool_decide _ || _) eqn:E; [done|].
    apply orb_false_iff in E as [E1 E2]. apply bool_decide_eq_false in E1. zbool.
    destruct Hr as [Hr|Hr]; [done|]. cbn in Hr. lia.
  - intros k v c Hc Hk Hs. cbn [lru_put MapLru_Lru]. rewrite bool_decide_eq_false_2 by (rewrite Hk; by intros []).
    rewrite (proj2 (Nat.ltb_ge _ _)) by done. cbn [orb ml_entries].
    destruct (ml_victim_spec c) as (victim & -> & Hv); [cbn in Hs; lia|]. eauto.
Defined.
End MapLru.
