(* ===== verification/Resolver.v ===== *)
(** * The resolver (src/resolver.rs)

    [resolve] answers IP literals at once; a hostname goes to the system resolver
    through a cache of 1024 entries that are good for 60 seconds.  The cache is
    behind a mutex that is released while the system resolver runs, so calls
    interleave: the two critical sections are the two steps of the machine below.
    Time is in nanoseconds. *)

From Stdlib Require Import String.
From stdpp Require Import relations.
From S2P Require Import Prelude RustStd Address LruCache.

Definition CACHE_SIZE : nat := 1024.
Definition CACHE_TTL : Z := 60 * 10 ^ 9.

Record CacheEntry : Set := MkEntry { ce_addr : SocketAddr; inserted : Z }.

Definition is_ipv4_addr (a : SocketAddr) : bool :=
  match a with SocketV4 _ _ => true | SocketV6 _ _ => false end.

(** [sort_by_key(|a| !a.is_ipv4())]: a stable sort on a boolean key. *)
Definition sort_ipv4_first (addrs : list SocketAddr) : list SocketAddr :=
  filter (fun a => is_ipv4_addr a = true) addrs ++ filter (fun a => is_ipv4_addr a = false) addrs.

(** The end of [lookup_host], on what the system resolver returned. *)
Definition pick_addr (hostname : bytes) (port : Z) (addrs : list SocketAddr) : res SocketAddr :=
  ok_or (head (sort_ipv4_first addrs))
    (IoError Other (str "no addresses for " ++ hostname ++ str ":" ++ dec port)).

Definition lookup_host (system : bytes → Z → res (list SocketAddr)) (hostname : bytes) (port : Z)
    : res SocketAddr :=
  addrs ← system hostname port; pick_addr hostname port addrs.

Definition cache_key (hostname : bytes) (port : Z) : bytes := hostname ++ str ":" ++ dec port.

Section Resolver.
Context {C : Type} `{LruLaws bytes CacheEntry C}.

Record Resolver : Type := MkResolver { cache : C; tcp_congestion : bytes }.

Definition with_tcp_congestion (algo : bytes) : Resolver := MkResolver (lru_new CACHE_SIZE) algo.

(** What the first part of [resolve] decides: the answer, or the name to look up. *)
Inductive lookup_step : Set :=
| Answer (a : SocketAddr)
| Query (hostname : bytes) (port : Z).

(** Up to the end of the first critical section. *)
Definition resolve_cached (now : Z) (location : NetLocation) (r : Resolver)
    : res lookup_step * Resolver :=
  match to_socket_addr_nonblocking location with
  | Some addr => (Ok (Answer addr), r)
  | None =>
      match hostname (nl_address location) with
      | None => (Panic "non-IP location", r)
      | Some h =>
          let '(e, c') := lru_get (cache_key h (nl_port location)) (cache r) in
          let r' := MkResolver c' (tcp_congestion r) in
          match e with
          | Some entry =>
              if elapsed now (inserted entry) <? CACHE_TTL
              then (Ok (Answer (ce_addr entry)), r')
              else (Ok (Query h (nl_port location)), r')
          | None => (Ok (Query h (nl_port location)), r')
          end
      end
  end.

(** The second critical section. *)
Definition resolve_store (now : Z) (hostname : bytes) (port : Z) (addr : SocketAddr)
    (r : Resolver) : Resolver :=
  MkResolver (lru_put (cache_key hostname port) (MkEntry addr now) (cache r)) (tcp_congestion r).

(** [resolve] run alone: the clock reads [now] at the cache and [later] at the store. *)
Definition resolve (system : bytes → Z → res (list SocketAddr)) (now later : Z)
    (location : NetLocation) (r : Resolver) : res SocketAddr * Resolver :=
  match resolve_cached now location r with
  | (Ok (Answer a), r') => (Ok a, r')
  | (Ok (Query h p), r') =>
      match lookup_host system h p with
      | Ok addr => (Ok addr, resolve_store later h p addr r')
      | Err e => (Err e, r')
      | Panic w => (Panic w, r')
      | OutOfFuel => (OutOfFuel, r')
      end
  | (Err e, r') => (Err e, r')
  | (Panic w, r') => (Panic w, r')
  | (OutOfFuel, r') => (OutOfFuel, r')
  end.

(** ** The calls in flight

    Any number of tasks resolve at once.  [EvAnswered] records an answer of the
    system resolver, [EvReturned] what a call returned. *)

Inductive event : Set :=
| EvAnswered (hostname : bytes) (port : Z) (addrs : list SocketAddr) (t : Z)
| EvReturned (location : NetLocation) (a : SocketAddr) (t : Z)
| EvFailed (location : NetLocation).

Record machine : Type := MkMachine {
  resolver : Resolver; clock : Z;
  pending : gmap nat (NetLocation * bytes * Z);
  trace : list event }.

Inductive step : machine → machine → Prop :=
| step_tick m d : 0 ≤ d →
    step m (MkMachine (resolver m) (clock m + d) (pending m) (trace m))
| step_answer m loc a r' :
    0 ≤ nl_port loc < 65536 →
    resolve_cached (clock m) loc (resolver m) = (Ok (Answer a), r') →
    step m (MkMachine r' (clock m) (pending m) (EvReturned loc a (clock m) :: trace m))
| step_query m id loc h p r' :
    0 ≤ nl_port loc < 65536 →
    resolve_cached (clock m) loc (resolver m) = (Ok (Query h p), r') →
    pending m !! id = None →
    step m (MkMachine r' (clock m) (<[id := (loc, h, p)]> (pending m)) (trace m))
| step_found m id loc h p addrs a :
    pending m !! id = Some (loc, h, p) →
    pick_addr h p addrs = Ok a →
    step m (MkMachine (resolve_store (clock m) h p a (resolver m)) (clock m)
      (delete id (pending m))
      (EvReturned loc a (clock m) :: EvAnswered h p addrs (clock m) :: trace m))
| step_failed m id loc h p :
    pending m !! id = Some (loc, h, p) →
    step m (MkMachine (resolver m) (clock m) (delete id (pending m)) (EvFailed loc :: trace m)).

Definition initial (algo : bytes) (now : Z) : machine :=
  MkMachine (with_tcp_congestion algo) now ∅ [].

Definition reachable (m : machine) : Prop := ∃ algo now, rtc step (initial algo now) m.

(** ** The invariant *)

(** An address the system resolver gave for this name and port, at [t0]. *)
Definition answered (tr : list event) (h : bytes) (p : Z) (a : SocketAddr) (t0 : Z) : Prop :=
  ∃ addrs, EvAnswered h p addrs t0 ∈ tr ∧ pick_addr h p addrs = Ok a.

(** What [resolve] may return for a location at time [t]. *)
Definition justified (tr : list event) (loc : NetLocation) (a : SocketAddr) (t : Z) : Prop :=
  match nl_address loc with
  | Addr_Hostname h => ∃ t0, answered tr h (nl_port loc) a t0 ∧ 0 ≤ t - t0 < CACHE_TTL
  | _ => to_socket_addr_nonblocking loc = Some a
  end.

Definition valid_event (m : machine) (e : event) : Prop :=
  match e with
  | EvReturned loc a t => justified (trace m) loc a t
  | EvAnswered _ _ _ _ | EvFailed _ => True
  end.

Record inv (m : machine) : Prop := {
  inv_cap : lru_cap (cache (resolver m)) = CACHE_SIZE;
  inv_size : (size (lru_map (cache (resolver m))) ≤ CACHE_SIZE)%nat;
  inv_cache k e : lru_map (cache (resolver m)) !! k = Some e →
    ∃ h p, k = cache_key h p ∧ 0 ≤ p < 65536 ∧
      answered (trace m) h p (ce_addr e) (inserted e) ∧ inserted e ≤ clock m;
  inv_pending id loc h p : pending m !! id = Some (loc, h, p) →
    nl_address loc = Addr_Hostname h ∧ nl_port loc = p ∧ 0 ≤ p < 65536;
  inv_trace e : e ∈ trace m → valid_event m e }.

(** The key determines the name and the port. *)
Lemma cache_key_inj h p h' p' :
  0 ≤ p < 65536 → 0 ≤ p' < 65536 → cache_key h p = cache_key h' p' → h = h' ∧ p = p'.
Proof.
  intros Hp Hp' He. unfold cache_key in He. change (str ":") with [COLON] in He. cbn [app] in He.
  apply (f_equal (rsplit_once COLON)) in He.
  rewrite !rsplit_once_app in He by (apply dec_no_colon; lia). injection He as -> Hd.
  split; [done|]. apply (f_equal parse_u16) in Hd. rewrite !parse_u16_dec in Hd by done. by simplify_eq.
Qed.

Lemma answered_mono tr e h p a t : answered tr h p a t → answered (e :: tr) h p a t.
Proof. intros (addrs & ? & ?). exists addrs. split; [by right|done]. Qed.

Lemma justified_mono tr e loc a t : justified tr loc a t → justified (e :: tr) loc a t.
Proof.
  unfold justified. destruct (nl_address loc); try done. intros (t0 & ? & ?).
  eauto using answered_mono.
Qed.

(** The first critical section: the cache's content is untouched, and an answer is
    a literal or a fresh entry. *)
Lemma resolve_cached_spec now loc r o r' :
  resolve_cached now loc r = (o, r') →
  lru_map (cache r') = lru_map (cache r) ∧ lru_cap (cache r') = lru_cap (cache r) ∧
  match o with
  | Ok (Answer a) =>
      match nl_address loc with
      | Addr_Hostname h => ∃ e, lru_map (cache r) !! cache_key h (nl_port loc) = Some e ∧
          ce_addr e = a ∧ elapsed now (inserted e) < CACHE_TTL
      | _ => to_socket_addr_nonblocking loc = Some a
      end
  | Ok (Query h p) => nl_address loc = Addr_Hostname h ∧ nl_port loc = p
  | _ => False
  end.
Proof.
  unfold resolve_cached, to_socket_addr_nonblocking, hostname. intros Hr.
  destruct (nl_address loc) as [i|i|h] eqn:Ha; simplify_eq; [by rewrite ?Ha..|].
  destruct (lru_get_map (cache_key h (nl_port loc)) (cache r)) as (He & Hm & Hc).
  destruct (lru_get _ _) as [e c']. cbn [fst snd] in *. subst e.
  destruct (lru_map (cache r) !! _) as [e|] eqn:Hl; [|by simplify_eq].
  destruct (_ <? CACHE_TTL) eqn:Ht; simplify_eq; [|done]. zbool. split_and!; eauto.
Qed.

Lemma inv_initial algo now : inv (initial algo now).
Proof.
  destruct (lru_new_map (K := bytes) (V := CacheEntry) (C := C) CACHE_SIZE) as [Hm Hc].
  split; cbn [initial resolver with_tcp_congestion cache pending trace].
  - done.
  - rewrite Hm, map_size_empty. lia.
  - intros k e. rewrite Hm. by rewrite lookup_empty.
  - intros *. by rewrite lookup_empty.
  - intros e He. by apply elem_of_nil in He.
Qed.

(** Growing the trace keeps what it justified. *)
Lemma valid_event_mono m m' e x :
  trace m' = x :: trace m → valid_event m e → valid_event m' e.
Proof. intros Ht. destruct e; cbn [valid_event]; rewrite ?Ht; eauto using justified_mono. Qed.

Lemma inv_store m id loc h p addrs a :
  inv m → pending m !! id = Some (loc, h, p) → pick_addr h p addrs = Ok a →
  inv (MkMachine (resolve_store (clock m) h p a (resolver m)) (clock m) (delete id (pending m))
    (EvReturned loc a (clock m) :: EvAnswered h p addrs (clock m) :: trace m)).
Proof.
  intros [Hcap Hsize Hcache Hpend Htrace] Hid Hpick. destruct (Hpend _ _ _ _ Hid) as (Hloc & Hport & Hp).
  assert (0 < lru_cap (cache (resolver m)))%nat by (rewrite Hcap; unfold CACHE_SIZE; lia).
  assert (answered (EvAnswered h p addrs (clock m) :: trace m) h p a (clock m)) as Hans
    by (exists addrs; split; [left|done]).
  split; cbn [resolver resolve_store cache pending trace clock].
  - by rewrite lru_put_cap.
  - rewrite <-Hcap, <-(lru_put_cap (cache_key h p) (MkEntry a (clock m))).
    apply lru_put_size; [done|by rewrite Hcap].
  - intros k e Hk.
    destruct (lru_put_lookup (cache_key h p) (MkEntry a (clock m)) (cache (resolver m)) k)
      as [Heq Hne]; [done|].
    destruct (decide (k = cache_key h p)) as [->|Hd].
    + rewrite Heq in Hk. injection Hk as <-. exists h, p. cbn [ce_addr inserted].
      split_and!; [done|lia..|by apply answered_mono|lia].
    + destruct (Hne Hd) as [Hx|Hx]; rewrite Hx in Hk; [|done].
      destruct (Hcache _ _ Hk) as (h' & p' & ? & ? & ? & ?). exists h', p'.
      eauto 10 using answered_mono.
  - intros id' loc' h' p' Hx. apply lookup_delete_Some in Hx as [_ Hx]. eauto.
  - intros e He. apply elem_of_cons in He as [->|He]; [|apply elem_of_cons in He as [->|He]].
    + cbn [valid_event trace]. apply justified_mono. unfold justified. rewrite Hloc, Hport.
      exists (clock m). split; [done|]. unfold CACHE_TTL. lia.
    + done.
    + specialize (Htrace _ He). destruct e; cbn [valid_event trace] in *; eauto using justified_mono.
Qed.

Lemma step_inv m m' : inv m → step m m' → inv m'.
Proof.
  intros Hi Hs. destruct Hs as [m d Hd|m loc a r' Hp Hr|m id loc h p r' Hp Hr Hn
    |m id loc h p addrs a Hid Hpick|m id loc h p Hid].
  - destruct Hi as [? ? Hcache ? Htrace]. split; try done. intros k e Hk.
    destruct (Hcache _ _ Hk) as (h & p & ? & ? & ? & ?). exists h, p. cbn. split_and!; eauto with lia.
  - destruct Hi as [Hcap Hsize Hcache Hpend Htrace].
    destruct (resolve_cached_spec _ _ _ _ _ Hr) as (Hm & Hc & Ha).
    split; cbn [resolver pending trace clock]; rewrite ?Hm, ?Hc; try done.
    + intros k e Hk. destruct (Hcache _ _ Hk) as (h & p & ? & ? & ? & ?). exists h, p.
      eauto using answered_mono.
    + intros e He. apply elem_of_cons in He as [->|He]; [|eapply valid_event_mono; eauto; done].
      cbn [valid_event trace]. apply justified_mono. unfold justified.
      destruct (nl_address loc) as [| |h]; try done. destruct Ha as (e & Hk & <- & Ht).
      destruct (Hcache _ _ Hk) as (h' & p' & Hkey & Hp' & Hans & Hle).
      apply cache_key_inj in Hkey as [-> ->]; [|done..]. exists (inserted e). split; [done|].
      unfold elapsed in Ht. lia.
  - destruct Hi as [Hcap Hsize Hcache Hpend Htrace].
    destruct (resolve_cached_spec _ _ _ _ _ Hr) as (Hm & Hc & Ha1 & Ha2).
    split; cbn [resolver pending trace clock]; rewrite ?Hm, ?Hc; try done.
    intros id' loc' h' p' Hx. apply lookup_insert_Some in Hx as [[_ ?]|[_ ?]]; [|eauto]. by simplify_eq.
  - by eapply inv_store.
  - destruct Hi as [Hcap Hsize Hcache Hpend Htrace].
    split; cbn [resolver pending trace clock]; try done.
    + intros k e Hk. destruct (Hcache _ _ Hk) as (h' & p' & ? & ? & ? & ?). exists h', p'.
      eauto using answered_mono.
    + intros id' loc' h' p' Hx. apply lookup_delete_Some in Hx as [_ Hx]. eauto.
    + intros e He. apply elem_of_cons in He as [->|He]; [done|]. eapply valid_event_mono; eauto; done.
Qed.

Lemma reachable_inv m : reachable m → inv m.
Proof.
  intros (algo & now & Hr). assert (inv (initial algo now)) as Hi by apply inv_initial.
  induction Hr; eauto using step_inv.
Qed.
End Resolver.

(** ** Properties *)

(** C15: whatever calls of [resolve] run at once, however they interleave at the
    mutex and however long the system resolver takes, what a call returns is
    the location's own address when it is an IP literal, and otherwise an
    address the system resolver gave for that very name and port less than 60
    seconds before; the cache never outgrows its 1024 entries. *)
Theorem resolver_sound {C : Type} `{LruLaws bytes CacheEntry C} (m : machine (C := C))
    (loc : NetLocation) (a : SocketAddr) (t : Z) :
  reachable m → EvReturned loc a t ∈ trace m →
  justified (trace m) loc a t ∧
  (size (lru_map (cache (resolver m))) ≤ CACHE_SIZE)%nat.
Proof.
  intros Hr He. apply reachable_inv in Hr. split; [by apply (inv_trace m Hr) in He|].
  by apply inv_size.
Qed.

Definition demo_loc : NetLocation := NetLoc (Addr_Hostname (str "a.example")) 443.
Definition demo_addrs : list SocketAddr :=
  [SocketV6 (Ipv6 1) 443; SocketV4 (Ipv4 (127 * 2 ^ 24 + 1)) 443].
Definition demo_addr : SocketAddr := SocketV4 (Ipv4 (127 * 2 ^ 24 + 1)) 443.

(** A call that queries, and one that hits the entry it left 59 seconds later. *)
Lemma resolver_sound_witness :
  ∃ m : machine (C := MapLru bytes CacheEntry),
    justified (trace m) demo_loc demo_addr (59 * 10 ^ 9) ∧
    (size (lru_map (cache (resolver m))) ≤ CACHE_SIZE)%nat.
Proof.
  set (m0 := initial (C := MapLru bytes CacheEntry) [] 0).
  assert (∃ m, rtc step m0 m ∧ EvReturned demo_loc demo_addr (59 * 10 ^ 9) ∈ trace m) as (m & Hm & He).
  { eexists. split.
    - eapply rtc_l; [apply (step_query _ 0 demo_loc); [cbn; lia|reflexivity|reflexivity]|].
      eapply rtc_l; [eapply (step_found _ 0 demo_loc _ _ demo_addrs); [reflexivity|reflexivity]|].
      eapply rtc_l; [apply (step_tick _ (59 * 10 ^ 9)); lia|].
      eapply rtc_l; [apply (step_answer _ demo_loc); [cbn; lia|reflexivity]|].
      apply rtc_refl.
    - left. }
  exists m. exact (resolver_sound m demo_loc demo_addr (59 * 10 ^ 9)
    (ex_intro _ [] (ex_intro _ 0 Hm)) He).
Defined.


