(* ===== verification/Dial.v ===== *)
(** * Outbound connections and sockets (src/dial.rs, src/socket_util.rs)

    The system calls and the crates that wrap them are the interface [SocketSys],
    over a state [K] of the system; a socket is a handle.  [System] is a system that
    records the calls made on it and lets any of them fail: what the functions
    here ask of the system is stated on its record. *)

From Stdlib Require Import String.
From S2P Require Import Prelude RustStd Address LruCache Resolver.

Inductive sock_type : Set := DGRAM | STREAM.

(** [Socket::new], the options, [bind] and [listen] are socket2's; [udp_from_std],
    [listener_from_std], [udp_connect], [tcp_connect] and [set_nodelay] are tokio's. *)
Class SocketSys (K : Type) : Type := {
  socket_new : bool → sock_type → M K nat;
  set_nonblocking : bool → nat → M K unit;
  set_recv_buffer_size : Z → nat → M K unit;
  set_send_buffer_size : Z → nat → M K unit;
  set_reuse_port : bool → nat → M K unit;
  set_reuse_address : bool → nat → M K unit;
  bind : SocketAddr → nat → M K unit;
  listen : Z → nat → M K unit;
  set_keepalive : bool → nat → M K unit;
  set_tcp_keepalive_params : Z → Z → nat → M K unit;
  set_congestion : bytes → nat → M K unit;
  udp_from_std : nat → M K unit;
  listener_from_std : nat → M K unit;
  udp_connect : SocketAddr → nat → M K unit;
  tcp_connect : SocketAddr → M K nat;
  set_nodelay : bool → nat → M K unit }.

(** [let _ = ..], [.ok()] and [if let Err(e) = .. { log }]: an error is ignored. *)
Definition ignore {K A} (m : M K A) : M K unit := fun k =>
  match m k with
  | (Ok _, k') | (Err _, k') => (Ok tt, k')
  | (Panic w, k') => (Panic w, k')
  | (OutOfFuel, k') => (OutOfFuel, k')
  end.

Definition is_ipv6_addr (a : SocketAddr) : bool := negb (is_ipv4_addr a).

Definition get_unspecified_socket_addr (is_ipv6 : bool) : SocketAddr :=
  if negb is_ipv6 then SocketV4 (Ipv4 0) 0 else SocketV6 (Ipv6 0) 0.

Definition secs (n : Z) : Z := n * 10 ^ 9.

Section SocketUtil.
Context {K : Type} `{SocketSys K}.

Definition new_socket2_udp_socket_with_buffer_size (is_ipv6 : bool) (bind_address : option SocketAddr)
    (reuse_port : bool) (buffer_size : option Z) : M K nat :=
  socket ← socket_new is_ipv6 DGRAM;
  set_nonblocking true socket ;;
  (match buffer_size with
   | Some size => ignore (set_recv_buffer_size size socket) ;; ignore (set_send_buffer_size size socket)
   | None => mret tt
   end) ;;
  (if reuse_port then set_reuse_port true socket else mret tt) ;;
  (match bind_address with Some a => bind a socket | None => mret tt end) ;;
  mret socket.

Definition new_socket2_udp_socket (is_ipv6 : bool) (bind_address : option SocketAddr)
    (reuse_port : bool) : M K nat :=
  new_socket2_udp_socket_with_buffer_size is_ipv6 bind_address reuse_port None.

Definition into_tokio_udp_socket (socket : nat) : M K nat := udp_from_std socket ;; mret socket.

Definition new_udp_socket (is_ipv6 : bool) : M K nat :=
  socket ← new_socket2_udp_socket is_ipv6 (Some (get_unspecified_socket_addr is_ipv6)) false;
  into_tokio_udp_socket socket.

(** [backlog.try_into().unwrap_or(4096)], a [u32] to an [i32]. *)
Definition listen_backlog (backlog : Z) : Z := if backlog <? 2 ^ 31 then backlog else 4096.

Definition new_tcp_listener (bind_address : SocketAddr) (backlog : Z) : M K nat :=
  socket ← socket_new (is_ipv6_addr bind_address) STREAM;
  set_nonblocking true socket ;;
  set_reuse_address true socket ;;
  bind bind_address socket ;;
  listen (listen_backlog backlog) socket ;;
  listener_from_std socket ;;
  mret socket.

Definition set_tcp_keepalive (tcp_stream : nat) (idle_time send_interval : Z) : M K unit :=
  if (idle_time =? 0) && (send_interval =? 0) then set_keepalive false tcp_stream
  else set_keepalive true tcp_stream ;; set_tcp_keepalive_params idle_time send_interval tcp_stream.

(** On Linux. *)
Definition set_tcp_congestion (tcp_stream : nat) (algorithm : bytes) : M K bool :=
  set_congestion algorithm tcp_stream ;; mret true.

Definition probe_tcp_congestion_available (algorithm : bytes) : M K bool := fun k =>
  match socket_new false STREAM k with
  | (Ok sock, k') =>
      match set_congestion algorithm sock k' with
      | (Ok _, k') => (Ok true, k')
      | (Err _, k') => (Ok false, k')
      | (Panic w, k') => (Panic w, k')
      | (OutOfFuel, k') => (OutOfFuel, k')
      end
  | (Err _, k') => (Ok false, k')
  | (Panic w, k') => (Panic w, k')
  | (OutOfFuel, k') => (OutOfFuel, k')
  end.
End SocketUtil.

(** ** Dialling *)

Section Dial.
Context {K C : Type} `{SocketSys K} `{!Lru bytes CacheEntry C}.
(** The system resolver, and the clock at the resolver's cache and at its store. *)
Context (system : bytes → Z → res (list SocketAddr)) (t_cache t_store : Z).
Abbreviation Net := (Resolver (C := C) * K)%type.

Definition net_resolve (location : NetLocation) : M Net SocketAddr := fun '(rv, k) =>
  let '(a, rv') := resolve system t_cache t_store location rv in (a, (rv', k)).

Definition net_sys {A} (m : M K A) : M Net A := fun '(rv, k) => let '(a, k') := m k in (a, (rv, k')).

Definition connect_tcp (location : NetLocation) : M Net nat :=
  addr ← net_resolve location;
  stream ← net_sys (tcp_connect addr);
  net_sys (ignore (set_nodelay true stream)) ;;
  net_sys (ignore (set_tcp_keepalive stream (secs 60) (secs 15))) ;;
  mret stream.

Definition connect_tcp_with_cc (location : NetLocation) (congestion_algo : bytes) : M Net nat :=
  stream ← connect_tcp location;
  (if decide (congestion_algo = []) then mret tt
   else net_sys (ignore (set_tcp_congestion stream congestion_algo))) ;;
  mret stream.

Definition connect_udp (location : NetLocation) : M Net nat :=
  addr ← net_resolve location;
  socket ← net_sys (new_udp_socket (is_ipv6_addr addr));
  net_sys (udp_connect addr socket) ;;
  mret socket.

Definition connect_tcp_arc (location : NetLocation) : M Net nat := fun '(rv, k) =>
  connect_tcp_with_cc location (tcp_congestion rv) (rv, k).
End Dial.

(** ** A system that records its calls *)

Inductive syscall : Set :=
| CSocket (is_ipv6 : bool) (ty : sock_type)
| CNonblocking (b : bool) (fd : nat)
| CRecvBuffer (n : Z) (fd : nat)
| CSendBuffer (n : Z) (fd : nat)
| CReusePort (b : bool) (fd : nat)
| CReuseAddress (b : bool) (fd : nat)
| CBind (a : SocketAddr) (fd : nat)
| CListen (n : Z) (fd : nat)
| CKeepalive (b : bool) (fd : nat)
| CKeepaliveParams (idle interval : Z) (fd : nat)
| CCongestion (algo : bytes) (fd : nat)
| CUdpFromStd (fd : nat)
| CListenerFromStd (fd : nat)
| CUdpConnect (a : SocketAddr) (fd : nat)
| CTcpConnect (a : SocketAddr)
| CNodelay (b : bool) (fd : nat).

(** [failure n] says whether and how the n-th call fails; a new handle is the number
    of calls before it. *)
Record System : Type := MkSystem { calls : list syscall; failure : nat → option io_error }.

Definition record_call (c : syscall) : M System nat := fun k =>
  (match failure k (length (calls k)) with Some e => Err e | None => Ok (length (calls k)) end,
   MkSystem (calls k ++ [c]) (failure k)).

Definition call (c : syscall) : M System unit := record_call c ;; mret tt.

#[export] Instance System_sockets : SocketSys System := {|
  socket_new v ty := record_call (CSocket v ty);
  set_nonblocking b fd := call (CNonblocking b fd);
  set_recv_buffer_size n fd := call (CRecvBuffer n fd);
  set_send_buffer_size n fd := call (CSendBuffer n fd);
  set_reuse_port b fd := call (CReusePort b fd);
  set_reuse_address b fd := call (CReuseAddress b fd);
  bind a fd := call (CBind a fd);
  listen n fd := call (CListen n fd);
  set_keepalive b fd := call (CKeepalive b fd);
  set_tcp_keepalive_params i s fd := call (CKeepaliveParams i s fd);
  set_congestion algo fd := call (CCongestion algo fd);
  udp_from_std fd := call (CUdpFromStd fd);
  listener_from_std fd := call (CListenerFromStd fd);
  udp_connect a fd := call (CUdpConnect a fd);
  tcp_connect a := record_call (CTcpConnect a);
  set_nodelay b fd := call (CNodelay b fd) |}.

(** [made cs k k']: exactly the calls [cs] were made. *)
Definition made (cs : list syscall) (k k' : System) : Prop :=
  calls k' = calls k ++ cs ∧ failure k' = failure k.

Lemma made_nil k : made [] k k.
Proof. split; [by rewrite app_nil_r|done]. Qed.

Lemma made_trans cs1 cs2 k1 k2 k3 : made cs1 k1 k2 → made cs2 k2 k3 → made (cs1 ++ cs2) k1 k3.
Proof. intros [Ha Hf] [Hb Hg]. split; [by rewrite Hb, Ha, app_assoc|congruence]. Qed.

Lemma call_spec c k :
  ∃ k', made [c] k k' ∧
    (failure k (length (calls k)) = None ∧ call c k = (Ok tt, k') ∨
     ∃ e, failure k (length (calls k)) = Some e ∧ call c k = (Err e, k')).
Proof.
  exists (MkSystem (calls k ++ [c]) (failure k)). split; [done|]. unfold call. rewrite M_bind_eq. unfold record_call.
  destruct (failure k _) as [e|]; [right; by exists e|by left].
Qed.

Lemma record_call_spec c k :
  ∃ k', made [c] k k' ∧
    (failure k (length (calls k)) = None ∧ record_call c k = (Ok (length (calls k)), k') ∨
     ∃ e, failure k (length (calls k)) = Some e ∧ record_call c k = (Err e, k')).
Proof.
  exists (MkSystem (calls k ++ [c]) (failure k)). split; [done|]. unfold record_call.
  destruct (failure k _) as [e|]; [right; by exists e|by left].
Qed.

Lemma ignore_ok {A} (m : M System A) cs k r k' :
  m k = (r, k') → made cs k k' → r ≠ OutOfFuel → panics r = false →
  ignore m k = (Ok tt, k').
Proof. intros Hm _ Hf Hp. unfold ignore. rewrite Hm. by destruct r. Qed.

(** The calls of a sequence, up to the first that fails. *)
Fixpoint call_all (cs : list syscall) : M System unit :=
  match cs with [] => mret tt | c :: cs' => call c ;; call_all cs' end.

Lemma call_all_spec cs k r k' :
  call_all cs k = (r, k') →
  (r = Ok tt ∧ made cs k k') ∨
  (∃ e cs1 c cs2, r = Err e ∧ cs = cs1 ++ c :: cs2 ∧ made (cs1 ++ [c]) k k' ∧
     failure k (length (calls k) + length cs1) = Some e).
Proof.
  revert k. induction cs as [|c cs IH]; intros k; cbn [call_all].
  { intros [= <- <-]. left. split; [done|apply made_nil]. }
  rewrite M_bind_eq. destruct (call_spec c k) as (k1 & Hm & [[_ ->]|(e & He & ->)]).
  - intros [[-> Hm2]|(e & cs1 & d & cs2 & -> & -> & Hm2 & He)]%IH.
    + left. split; [done|]. change (c :: cs) with ([c] ++ cs). by eapply made_trans.
    + right. exists e, (c :: cs1), d, cs2. split_and!; try done.
      * change ((c :: cs1) ++ [d]) with ([c] ++ (cs1 ++ [d])). by eapply made_trans.
      * destruct Hm as [Hc Hf]. rewrite Hc, Hf, length_app in He. cbn [length] in *.
        by rewrite Nat.add_succ_r, <-Nat.add_succ_l, <-Nat.add_1_r.
  - intros [= <- <-]. right. exists e, [], c, cs. split_and!; try done. cbn. by rewrite Nat.add_0_r.
Qed.

(** A call that gives a handle, then calls on it: all are made, or the first that fails
    is the last. *)
Definition handle_calls (c : syscall) (f : nat → list syscall) : M System nat := fun k =>
  match record_call c k with
  | (Ok fd, k1) => let '(r, k2) := call_all (f fd) k1 in ((fun _ => fd) <$> r, k2)
  | x => x
  end.

Lemma handle_calls_spec c f k r k' :
  handle_calls c f k = (r, k') →
  let cs := c :: f (length (calls k)) in
  (r = Ok (length (calls k)) ∧ made cs k k') ∨
  (∃ e cs1 d cs2, r = Err e ∧ cs = cs1 ++ d :: cs2 ∧ made (cs1 ++ [d]) k k' ∧
     failure k (length (calls k) + length cs1) = Some e).
Proof.
  intros Hr cs. unfold handle_calls in Hr.
  destruct (record_call_spec c k) as (k1 & Hm1 & [[Hf Hc]|(e & Hf & Hc)]); rewrite Hc in Hr.
  - destruct (call_all _ k1) as [r2 k2] eqn:E. injection Hr as <- <-.
    apply call_all_spec in E as [[-> Hm2]|(e & cs1 & d & cs2 & -> & Heq & Hm2 & He)].
    + left. split; [done|]. by eapply (made_trans [_]).
    + right. exists e, (c :: cs1), d, cs2.
      split_and!; [done|unfold cs; by rewrite Heq|by eapply (made_trans [_])|].
      destruct Hm1 as [Hcl Hfl]. rewrite Hcl, Hfl, length_app in He. cbn [length] in *.
      by rewrite Nat.add_succ_r, <-Nat.add_succ_l, <-Nat.add_1_r.
  - injection Hr as <- <-. right. exists e, [], c, (f (length (calls k))).
    split_and!; try done. cbn. by rewrite Nat.add_0_r.
Qed.

Lemma new_udp_socket_eq is_ipv6 k :
  new_udp_socket is_ipv6 k =
  handle_calls (CSocket is_ipv6 DGRAM)
    (fun fd => [CNonblocking true fd; CBind (get_unspecified_socket_addr is_ipv6) fd; CUdpFromStd fd]) k.
Proof.
  unfold handle_calls, new_udp_socket, new_socket2_udp_socket, new_socket2_udp_socket_with_buffer_size, into_tokio_udp_socket.
  cbn [socket_new set_nonblocking bind udp_from_std System_sockets call_all]. run.
  destruct (record_call _ k) as [[fd|e|w|] k1]; try done.
  repeat (match goal with |- context [call ?c ?s] => is_var s; destruct (call c s) as [[[]|?|?|] ?] end;
    try reflexivity).
Qed.

Lemma new_udp_socket_returns is_ipv6 (k : System) :
  panics (new_udp_socket is_ipv6 k).1 = false ∧ (new_udp_socket is_ipv6 k).1 ≠ OutOfFuel.
Proof.
  rewrite new_udp_socket_eq. destruct (handle_calls _ _ k) as [r k'] eqn:E.
  by apply handle_calls_spec in E as [[-> _]|(e & cs1 & c & cs2 & -> & _)].
Qed.

Section DialCalls.
Context {C : Type} `{LruLaws bytes CacheEntry C} (system : bytes → Z → res (list SocketAddr)) (t1 t2 : Z).
Implicit Types rv : Resolver (C := C).

(** What [connect_udp] asks of the system once it has a socket. *)
Definition udp_calls (addr : SocketAddr) (fd : nat) : list syscall :=
  [CNonblocking true fd; CBind (get_unspecified_socket_addr (is_ipv6_addr addr)) fd; CUdpFromStd fd;
   CUdpConnect addr fd].

Lemma connect_udp_eq location rv k :
  connect_udp system t1 t2 location (rv, k) =
  let '(a, rv') := resolve system t1 t2 location rv in
  match a with
  | Ok addr =>
      let '(r, k2) := handle_calls (CSocket (is_ipv6_addr addr) DGRAM) (udp_calls addr) k in (r, (rv', k2))
  | Err e => (Err e, (rv', k))
  | Panic w => (Panic w, (rv', k))
  | OutOfFuel => (OutOfFuel, (rv', k))
  end.
Proof.
  unfold connect_udp, handle_calls. rewrite M_bind_eq. unfold net_resolve.
  destruct (resolve system t1 t2 location rv) as [[addr|e|w|] rv']; try done.
  rewrite M_bind_eq. unfold net_sys, new_udp_socket, new_socket2_udp_socket, new_socket2_udp_socket_with_buffer_size,
    into_tokio_udp_socket. cbn [socket_new set_nonblocking bind udp_from_std udp_connect System_sockets call_all udp_calls].
  run. destruct (record_call _ k) as [[fd|e|w|] k1]; try done. cbn [call_all udp_calls]. run.
  repeat (match goal with |- context [call ?c ?s] => is_var s; destruct (call c s) as [[[]|?|?|] ?] end;
    try reflexivity).
Qed.

(** The options of an outbound connection: the parameters of the keepalive are set only
    when it could be switched on. *)
Definition tcp_options (keepalive_on : bool) (algo : bytes) (fd : nat) : list syscall :=
  [CNodelay true fd; CKeepalive true fd] ++
  (if keepalive_on then [CKeepaliveParams (secs 60) (secs 15) fd] else []) ++
  (if decide (algo = []) then [] else [CCongestion algo fd]).

Lemma ignore_call c k : ∃ k', made [c] k k' ∧ ignore (call c) k = (Ok tt, k').
Proof.
  destruct (call_spec c k) as (k' & Hm & [[_ Hc]|(e & _ & Hc)]); exists k'; unfold ignore; by rewrite Hc.
Qed.

Lemma ignore_keepalive fd k :
  ∃ k' on, made (CKeepalive true fd :: (if on : bool then [CKeepaliveParams (secs 60) (secs 15) fd] else [])) k k' ∧
    ignore (set_tcp_keepalive fd (secs 60) (secs 15)) k = (Ok tt, k').
Proof.
  unfold ignore, set_tcp_keepalive. cbn [set_keepalive set_tcp_keepalive_params System_sockets].
  change ((secs 60 =? 0) && (secs 15 =? 0)) with false. cbn [negb]. rewrite M_bind_eq.
  destruct (call_spec (CKeepalive true fd) k) as (k1 & Hm & [[_ ->]|(e & _ & ->)]); [|by exists k1, false].
  destruct (call_spec (CKeepaliveParams (secs 60) (secs 15) fd) k1) as (k2 & Hm2 & [[_ ->]|(e & _ & ->)]);
    exists k2, true; (split; [by eapply (made_trans [_])|done]).
Qed.

Lemma ignore_congestion algo fd k :
  ∃ k', made [CCongestion algo fd] k k' ∧ ignore (set_tcp_congestion fd algo) k = (Ok tt, k').
Proof.
  unfold ignore, set_tcp_congestion. cbn [set_congestion System_sockets]. rewrite M_bind_eq.
  destruct (call_spec (CCongestion algo fd) k) as (k' & Hm & [[_ Hc]|(e & _ & Hc)]); exists k'; by rewrite Hc.
Qed.

Lemma connect_tcp_with_cc_spec location algo rv k :
  ∃ r k', connect_tcp_with_cc system t1 t2 location algo (rv, k) = (r, ((resolve system t1 t2 location rv).2, k')) ∧
  match (resolve system t1 t2 location rv).1 with
  | Ok addr =>
      match failure k (length (calls k)) with
      | Some e => r = Err e ∧ made [CTcpConnect addr] k k'
      | None => r = Ok (length (calls k)) ∧
          ∃ on, made (CTcpConnect addr :: tcp_options on algo (length (calls k))) k k'
      end
  | Err e => r = Err e ∧ made [] k k'
  | Panic w => r = Panic w
  | OutOfFuel => r = OutOfFuel
  end.
Proof.
  unfold connect_tcp_with_cc, connect_tcp. rewrite !M_bind_eq. unfold net_resolve.
  destruct (resolve system t1 t2 location rv) as [[addr|e|w|] rv']; cbn [fst snd];
    try (eexists; exists k; split; [done|]; by try (split; [done|apply made_nil])).
  rewrite M_bind_eq. unfold net_sys at 1. cbn [tcp_connect System_sockets].
  destruct (record_call_spec (CTcpConnect addr) k) as (k1 & Hm1 & [[Hf ->]|(e & Hf & ->)]); rewrite Hf;
    [|by eexists; exists k1].
  set (fd := length (calls k)). rewrite M_bind_eq. unfold net_sys at 1. cbn [set_nodelay System_sockets].
  destruct (ignore_call (CNodelay true fd) k1) as (k2 & Hm2 & ->).
  rewrite M_bind_eq. unfold net_sys at 1. destruct (ignore_keepalive fd k2) as (k3 & on & Hm3 & ->).
  cbn [mret M_ret]. rewrite M_bind_eq. unfold tcp_options. destruct (decide (algo = [])).
  - cbn [mret M_ret]. eexists; exists k3. split; [done|]. split; [done|]. exists on. rewrite app_nil_r.
    eapply (made_trans [_]); [done|]. by eapply (made_trans [_]).
  - unfold net_sys. destruct (ignore_congestion algo fd k3) as (k4 & Hm4 & ->). cbn [mret M_ret].
    eexists; exists k4. split; [done|]. split; [done|]. exists on.
    eapply (made_trans [_]); [done|]. eapply (made_trans [_]); [done|]. cbn [app].
    change (CKeepalive true fd :: ?l ++ ?m) with ((CKeepalive true fd :: l) ++ m). by eapply made_trans.
Qed.
End DialCalls.

(** ** Properties *)


(** A UDP socket for a destination has the family of the address the resolver gives,
    is non-blocking, bound to the unspecified address of that family and connected
    to the address, by exactly those calls; when one fails its error is returned
    and none follows. *)
Theorem dial_udp_calls {C : Type} `{LruLaws bytes CacheEntry C}
    (system : bytes → Z → res (list SocketAddr)) (t1 t2 : Z) (location : NetLocation) (addr : SocketAddr)
    (rv rv' : Resolver (C := C)) (k k' : System) (r : res nat) :
  (resolve system t1 t2 location rv).1 = Ok addr →
  connect_udp system t1 t2 location (rv, k) = (r, (rv', k')) →
  let cs := CSocket (is_ipv6_addr addr) DGRAM :: udp_calls addr (length (calls k)) in
  (r = Ok (length (calls k)) ∧ made cs k k') ∨
  (∃ e cs1 c cs2, r = Err e ∧ cs = cs1 ++ c :: cs2 ∧ made (cs1 ++ [c]) k k' ∧
     failure k (length (calls k) + length cs1) = Some e).
Proof.
  intros Ha Hr. rewrite connect_udp_eq in Hr.
  destruct (resolve system t1 t2 location rv) as [a rv1]. cbn [fst] in Ha. subst a. cbv zeta.
  destruct (handle_calls _ _ k) as [r1 k1] eqn:E. injection Hr as <- <- <-. by apply handle_calls_spec in E.
Qed.

(** A system on which the second call fails. *)
Definition demo_sys : System :=
  MkSystem [] (fun n => if (n =? 1)%nat then Some (io_err Other "not supported") else None).
Definition demo_rv : Resolver (C := MapLru bytes CacheEntry) := with_tcp_congestion (str "bbr").
Definition demo_target : NetLocation := NetLoc (Addr_Ipv6 (Ipv6 1)) 80.
Definition no_names (h : bytes) (p : Z) : res (list SocketAddr) := Err (io_err Other "no such name").

Definition demo_tcp := connect_tcp_arc no_names 0 0 demo_target (demo_rv, demo_sys).
Definition demo_udp := connect_udp no_names 0 0 demo_target (demo_rv, demo_sys).


Lemma dial_udp_calls_witness :
  demo_udp.1 = Err (io_err Other "not supported") ∧
  made [CSocket true DGRAM; CNonblocking true 0] demo_sys demo_udp.2.2.
Proof.
  destruct (dial_udp_calls no_names 0 0 demo_target (SocketV6 (Ipv6 1) 80) demo_rv demo_udp.2.1 demo_sys
    demo_udp.2.2 demo_udp.1) as [[Hr _]|_]; [reflexivity..|discriminate Hr|]. done.
Defined.
