(* ===== verification/Hysteria2Udp.v ===== *)
(** * Hysteria2 UDP (src/hysteria2.rs, the two UDP loops)

    UDP packets travel in QUIC datagrams.  A packet that does not fit in one is
    cut into at most 255 fragments, each with the whole header; the receiver
    keeps the packets it has only part of in an LRU cache per session.  A
    session's socket is opened on its first packet. *)

From Stdlib Require Import String.
From S2P Require Import Prelude RustStd Address AsyncStream StreamReader Varint LruCache.

Definition MAX_FRAGMENT_CACHE_SIZE : nat := 256.

Record FragmentedPacket : Set := MkFrag {
  fragment_count : Z; fragment_received : Z; packet_len : nat;
  received : list (option bytes); fp_location : NetLocation }.

(** ** Parsing a datagram *)

Record udp_message : Set := MkMsg {
  session_id : Z; packet_id : Z; fragment_id : Z; um_count : Z;
  payload_fragment : bytes; um_location : NetLocation }.

(** [None] is a [continue]: the datagram is ignored. *)
Definition parse_datagram (data : bytes) : res (option udp_message) :=
  if (length data <? 9)%nat then Ok None
  else
    let session_id := be_decode (slice 0 4 data) in
    let packet_id := be_decode (slice 4 6 data) in
    let fragment_id := b2z (nth 6 data x00) in
    let fragment_count := b2z (nth 7 data x00) in
    '(address_len, next_index) ← datagram_varint data;
    if address_len =? 0 then Ok None
    else if 2048 <? address_len then Ok None
    else if (length data <? next_index + Z.to_nat address_len)%nat then Ok None
    else
      let address_bytes := slice next_index (next_index + Z.to_nat address_len) data in
      let payload_fragment := drop (next_index + Z.to_nat address_len) data in
      if negb (utf8_valid address_bytes) then Ok None
      else
        match netloc_from_str address_bytes None with
        | Ok remote_location =>
            Ok (Some (MkMsg session_id packet_id fragment_id fragment_count
                            payload_fragment remote_location))
        | Err _ => Ok None
        | Panic w => Panic w
        | OutOfFuel => OutOfFuel
        end.

(** ** Reassembly *)

(** The packet a first fragment starts. *)
Definition new_packet (m : udp_message) : FragmentedPacket :=
  MkFrag (um_count m) 0 0 (replicate (Z.to_nat (um_count m)) None) (um_location m).

(** The entry with this fragment; [None] when it is to be dropped. *)
Definition accept (m : udp_message) (e : FragmentedPacket) : res (option FragmentedPacket) :=
  if negb (fragment_count e =? um_count m) then Ok None
  else
    match received e !! Z.to_nat (fragment_id m) with
    | None => Panic "index out of bounds"
    | Some (Some _) => Ok None
    | Some None =>
        Ok (Some (MkFrag (fragment_count e) (wrap 8 (fragment_received e + 1))
          (packet_len e + length (payload_fragment m))
          (<[Z.to_nat (fragment_id m) := Some (payload_fragment m)]> (received e))
          (fp_location e)))
    end.

(** [complete_payload.extend_from_slice(frag.as_ref().unwrap())] in a loop. *)
Fixpoint join_fragments (fs : list (option bytes)) : res bytes :=
  match fs with
  | [] => Ok []
  | Some f :: fs' => rest ← join_fragments fs'; Ok (f ++ rest)
  | None :: _ => Panic "called `Option::unwrap()` on a `None` value"
  end.

Section Sessions.
Context {C : Type} `{Lru Z FragmentedPacket C}.

Definition cache_pop (k : Z) : M C (option FragmentedPacket) := fun c =>
  let '(e, c') := lru_pop k c in (Ok e, c').

Definition cache_get_mut (k : Z) : M C (option FragmentedPacket) := fun c =>
  let '(e, c') := lru_get k c in (Ok e, c').

(** The whole payload and where it goes, once complete. *)
Definition reassemble (m : udp_message) : M C (option (bytes * NetLocation)) :=
  if um_count m =? 0 then mret None
  else if um_count m =? 1 then mret (Some (payload_fragment m, um_location m))
  else
    c ← get;
    (if lru_contains (packet_id m) c then mret tt
     else modify (lru_put (packet_id m) (new_packet m))) ;;
    entry ← cache_get_mut (packet_id m);
    match entry with
    | None => mret None
    | Some entry =>
        entry' ← lift (accept m entry);
        match entry' with
        | None => cache_pop (packet_id m) ;; mret None
        | Some entry' =>
            modify (lru_write (packet_id m) entry') ;;
            if negb (fragment_received entry' =? fragment_count entry') then mret None
            else
              popped ← cache_pop (packet_id m);
              match popped with
              | None => lift (Panic "called `Option::unwrap()` on a `None` value")
              | Some p =>
                  payload ← lift (join_fragments (received p));
                  mret (Some (payload, fp_location p))
              end
        end
    end.

Fixpoint reassemble_run (ms : list udp_message) : M C (list (option (bytes * NetLocation))) :=
  match ms with
  | [] => mret []
  | m :: ms' => o ← reassemble m; os ← reassemble_run ms'; mret (o :: os)
  end.

(** ** The loop from the client to the remote *)

Record UdpSession : Type := MkSession {
  fragments : C; send_socket : nat; last_location : NetLocation;
  last_socket_addr : SocketAddr; override_remote_write_address : option SocketAddr;
  last_activity : Z }.

(** What the loop uses of the resolver, the sockets and the runtime.  A socket also
    names the task and the cancellation token of its session. *)
Class UdpWorld (W : Type) : Type := {
  resolve_location : NetLocation → M W SocketAddr;
  new_udp_socket : bool → M W nat;
  spawn_remote_to_local : Z → nat → option NetLocation → W → W;
  cancel_session : nat → W → W;
  send_to : nat → bytes → SocketAddr → M W unit }.

Context {W : Type} `{UdpWorld W}.

Abbreviation sessions := (gmap Z UdpSession).

(** An operation of the world, between the two halves of the state. *)
Definition in_world {A} (op : M W A) : M (sessions * W) A := fun '(ss, w) =>
  let '(r, w') := op w in (r, (ss, w')).

(** An error that is logged, the datagram being dropped. *)
Definition attempt {A} (op : M W A) : M (sessions * W) (option A) := fun '(ss, w) =>
  match op w with
  | (Ok a, w') => (Ok (Some a), (ss, w'))
  | (Err _, w') => (Ok None, (ss, w'))
  | (Panic s, w') => (Panic s, (ss, w'))
  | (OutOfFuel, w') => (OutOfFuel, (ss, w'))
  end.

Definition set_session (sid : Z) (s : UdpSession) : M (sessions * W) unit :=
  modify (fun '(ss, w) => (<[sid := s]> ss, w)).

(** [UdpSession::start]. *)
Definition session_start (now sid : Z) (client_socket : nat) (initial_location : NetLocation)
    (initial_socket_addr : SocketAddr) (override_local_write_location : option NetLocation)
    (override_remote_write_address : option SocketAddr) (w : W) : UdpSession * W :=
  (MkSession (lru_new MAX_FRAGMENT_CACHE_SIZE) client_socket initial_location initial_socket_addr
     override_remote_write_address now,
   spawn_remote_to_local sid client_socket override_local_write_location w).

(** The session of a message, started when there is none. *)
Definition session_entry (now : Z) (m : udp_message) : M (sessions * W) (option UdpSession) :=
  st ← get;
  match st.1 !! session_id m with
  | Some s => mret (Some s)
  | None =>
      resolved ← attempt (resolve_location (um_location m));
      match resolved with
      | None => mret None
      | Some resolved_address =>
          let '(override_remote, override_local) :=
            if bool_decide (show_socket_addr resolved_address = show_netloc (um_location m))
            then (None, None) else (Some resolved_address, Some (um_location m)) in
          client_socket ← in_world (new_udp_socket true);
          st ← get;
          let '(s, w') := session_start now (session_id m) client_socket (um_location m)
                            resolved_address override_local override_remote st.2 in
          put (<[session_id m := s]> st.1, w') ;;
          mret (Some s)
      end
  end.

(** [reassemble] on the cache of a session. *)
Definition reassemble_in (m : udp_message) (s : UdpSession)
    : M (sessions * W) (option (bytes * NetLocation)) := fun '(ss, w) =>
  let '(r, c') := reassemble m (fragments s) in
  (r, (<[session_id m := MkSession c' (send_socket s) (last_location s) (last_socket_addr s)
                           (override_remote_write_address s) (last_activity s)]> ss, w)).

(** The address a payload goes to; a change of location is resolved and kept. *)
Definition target_addr (sid : Z) (loc : NetLocation) (s : UdpSession)
    : M (sessions * W) (option SocketAddr) :=
  match override_remote_write_address s with
  | Some addr => mret (Some addr)
  | None =>
      if decide (loc = last_location s) then mret (Some (last_socket_addr s))
      else
        updated ← attempt (resolve_location loc);
        match updated with
        | None => mret None
        | Some addr =>
            set_session sid (MkSession (fragments s) (send_socket s) loc addr
              (override_remote_write_address s) (last_activity s)) ;;
            mret (Some addr)
        end
  end.

Definition forward (sid : Z) (s : UdpSession) (payload : bytes) (addr : SocketAddr)
    : M (sessions * W) unit :=
  sent ← attempt (send_to (send_socket s) payload addr);
  match sent with
  | Some _ => mret tt
  | None => modify (fun '(ss, w) => (delete sid ss, w))
  end.

(** One message, from its session to the socket. *)
Definition handle_message (now : Z) (m : udp_message) : M (sessions * W) unit :=
  entry ← session_entry now m;
  match entry with
  | None => mret tt
  | Some s =>
      complete ← reassemble_in m s;
      match complete with
      | None => mret tt
      | Some (payload, loc) =>
          st ← get;
          match st.1 !! session_id m with
          | None => mret tt
          | Some s' =>
              addr ← target_addr (session_id m) loc s';
              match addr with
              | None => mret tt
              | Some addr => forward (session_id m) s' payload addr
              end
          end
      end
  end.

Definition CLEANUP_INTERVAL : Z := 10 * 10 ^ 9.
Definition IDLE_TIMEOUT : Z := 60 * 10 ^ 9.

Definition expired (now : Z) (s : UdpSession) : bool :=
  IDLE_TIMEOUT <? Z.max 0 (now - last_activity s).

(** [sessions.retain(..)], cancelling what it removes. *)
Definition retain_sessions (now : Z) : M (sessions * W) unit :=
  modify (fun '(ss, w) =>
    (filter (fun '(_, s) => expired now s = false) ss,
     map_fold (fun _ s w => if expired now s then cancel_session (send_socket s) w else w) w ss)).

(** One turn: the clock at its top, the datagram it reads, the clock when a session starts. *)
Record turn : Set := MkTurn { now : Z; data : bytes; later : Z }.

Definition udp_turn (last_cleanup : Z) (t : turn) : M (sessions * W) Z :=
  last_cleanup' ← (if CLEANUP_INTERVAL <? now t - last_cleanup
                   then retain_sessions (now t) ;; mret (now t)
                   else mret last_cleanup);
  m ← lift (parse_datagram (data t));
  match m with
  | None => mret last_cleanup'
  | Some m => handle_message (later t) m ;; mret last_cleanup'
  end.

(** The loop: it ends when the connection does. *)
Fixpoint run_udp_local_to_remote_loop (last_cleanup : Z) (ts : list turn) : M (sessions * W) unit :=
  match ts with
  | [] => throw (io_err Other "failed to read datagram")
  | t :: ts' =>
      last_cleanup' ← udp_turn last_cleanup t;
      run_udp_local_to_remote_loop last_cleanup' ts'
  end.
End Sessions.

(** ** The loop from the remote to the client *)

(** [usize::div_ceil]. *)
Definition div_ceil (a b : Z) : Z := if a mod b =? 0 then a / b else a / b + 1.

Definition datagram (sid pid fid cnt : Z) (address_len_bytes address_bytes body : bytes) : bytes :=
  be_encode 4 sid ++ be_encode 2 pid ++ [z2b fid; z2b cnt] ++
  address_len_bytes ++ address_bytes ++ body.

(** [&buf[start..end]] for the fragment [i]. *)
Definition fragment_body (available : nat) (payload : bytes) (i : nat) : bytes :=
  let start := (i * available)%nat in
  let stop := Nat.min (start + available) (length payload) in
  slice start stop payload.

Definition packet_fragments (max_datagram_size sid pid : Z)
    (address_len_bytes address_bytes payload : bytes) : res (list bytes) :=
  let header_overhead := 8 + Z.of_nat (length address_len_bytes) + Z.of_nat (length address_bytes) in
  let payload_len := Z.of_nat (length payload) in
  if negb (header_overhead <? max_datagram_size)
  then Panic "max datagram size is smaller than header overhead"
  else if header_overhead + payload_len <=? max_datagram_size
  then Ok [datagram sid pid 0 1 address_len_bytes address_bytes payload]
  else
    let available_payload := max_datagram_size - header_overhead in
    let fragment_count := wrap 8 (div_ceil payload_len available_payload) in
    Ok ((fun i => datagram sid pid (Z.of_nat i) fragment_count address_len_bytes address_bytes
                    (fragment_body (Z.to_nat available_payload) payload i))
        <$> seq 0 (Z.to_nat fragment_count)).

(** What the loop uses of the connection. *)
Class DatagramConnection (Q : Type) : Type := {
  max_datagram_size : Q → option Z;
  send_datagram : bytes → M Q unit }.

Section RemoteToLocal.
Context {Q : Type} `{DatagramConnection Q}.

Definition encode_address (address_bytes : bytes) : res (bytes * bytes) :=
  address_len_bytes ← encode_varint (Z.of_nat (length address_bytes));
  Ok (address_bytes, address_len_bytes).

(** [send_datagram(..).map_err(..)?]. *)
Definition send_one (d : bytes) : M Q unit := fun q =>
  let '(r, q') := send_datagram d q in
  (map_err (fun e => IoError Other (str "Failed to send datagram: " ++ err_msg e)) r, q').

Fixpoint send_datagrams (ds : list bytes) : M Q unit :=
  match ds with [] => mret tt | d :: ds' => send_one d ;; send_datagrams ds' end.

(** One packet from the socket. *)
Definition remote_packet (max sid pid : Z) (original : option (bytes * bytes))
    (payload : bytes) (src_addr : SocketAddr) : M Q unit :=
  '(address_bytes, address_len_bytes) ←
    lift (match original with
          | Some ab => Ok ab
          | None => encode_address (show_socket_addr src_addr)
          end);
  ds ← lift (packet_fragments max sid pid address_len_bytes address_bytes payload);
  send_datagrams ds.

Inductive socket_event : Set :=
| Received (payload : bytes) (src_addr : SocketAddr)
| ReceiveFailed
| SessionCancelled.

(** The loop, on what the socket has delivered so far. *)
Fixpoint remote_loop (max sid next_packet_id : Z) (original : option (bytes * bytes))
    (es : list socket_event) : M Q unit :=
  match es with
  | [] | SessionCancelled :: _ => mret tt
  | ReceiveFailed :: _ => throw (io_err Other "failed to receive from UDP socket")
  | Received payload src_addr :: es' =>
      remote_packet max sid next_packet_id original payload src_addr ;;
      remote_loop max sid (wrap 16 (next_packet_id + 1)) original es'
  end.

Definition run_udp_remote_to_local_loop (sid : Z) (override_local_write_address : option NetLocation)
    (es : list socket_event) : M Q unit :=
  q ← get;
  max ← lift (ok_or (max_datagram_size q) (io_err Other "datagram not supported by remote endpoint"));
  original ← lift (match override_local_write_address with
                   | Some a => ab ← encode_address (show_netloc a); Ok (Some ab)
                   | None => Ok None
                   end);
  remote_loop max sid 0 original es.
End RemoteToLocal.

(** ** The state of the cache *)

(** The slots that hold a fragment, in order. *)
Fixpoint filled (fs : list (option bytes)) : list bytes :=
  match fs with
  | [] => []
  | Some f :: fs' => f :: filled fs'
  | None :: fs' => filled fs'
  end.

(** A packet waiting for fragments. *)
Record packet_wf (p : FragmentedPacket) : Prop := {
  pw_count : 2 ≤ fragment_count p ≤ 255;
  pw_slots : Z.of_nat (length (received p)) = fragment_count p;
  pw_received : Z.of_nat (length (filled (received p))) = fragment_received p;
  pw_waiting : fragment_received p < fragment_count p;
  pw_len : packet_len p = length (concat (filled (received p))) }.

Definition message_wf (m : udp_message) : Prop :=
  0 ≤ um_count m ≤ 255 ∧ 0 ≤ fragment_id m.

Lemma filled_insert fs i (f : bytes) :
  fs !! i = Some None →
  length (filled (<[i := Some f]> fs)) = S (length (filled fs)) ∧
  length (concat (filled (<[i := Some f]> fs))) = (length f + length (concat (filled fs)))%nat.
Proof.
  revert i. induction fs as [|[g|] fs IH]; intros [|i] Hi; try done.
  - destruct (IH i Hi) as [IH1 IH2].
    change (<[S i := Some f]> (Some g :: fs)) with (Some g :: <[i := Some f]> fs).
    cbn [filled length concat]. rewrite !length_app. lia.
  - cbn. by rewrite length_app.
  - by apply (IH i).
Qed.

Lemma length_filled fs : (length (filled fs) ≤ length fs)%nat.
Proof. induction fs as [|[g|] fs IH]; cbn; lia. Qed.

(** A packet with every slot filled joins. *)
Lemma join_filled fs :
  length (filled fs) = length fs → join_fragments fs = Ok (concat (filled fs)).
Proof.
  induction fs as [|[g|] fs IH]; intros Hl; cbn in *; [done| |].
  - by rewrite IH by lia.
  - pose proof (length_filled fs). lia.
Qed.

Lemma filled_replicate n : filled (replicate n None) = [].
Proof. by induction n. Qed.

Lemma new_packet_wf m : 2 ≤ um_count m ≤ 255 → packet_wf (new_packet m).
Proof.
  intros Hc. split; cbn [new_packet fragment_count fragment_received packet_len received];
    rewrite ?filled_replicate, ?length_replicate; cbn; lia.
Qed.

(** What taking a fragment does to a waiting packet. *)
Lemma accept_spec m e :
  packet_wf e → 0 ≤ fragment_id m →
  match accept m e with
  | Ok None => True
  | Ok (Some e') =>
      fragment_count e' = fragment_count e ∧ fp_location e' = fp_location e ∧
      received e' = <[Z.to_nat (fragment_id m) := Some (payload_fragment m)]> (received e) ∧
      fragment_received e' = fragment_received e + 1 ∧
      (fragment_received e' = fragment_count e' →
       join_fragments (received e') = Ok (concat (filled (received e')))) ∧
      (fragment_received e' ≠ fragment_count e' → packet_wf e')
  | Err _ | OutOfFuel => False
  | Panic _ => fragment_count e = um_count m ∧ um_count m ≤ fragment_id m
  end.
Proof.
  intros [Hc Hs Hr Hw Hl] Hf. unfold accept.
  destruct (fragment_count e =? um_count m) eqn:Heq; cbn [negb]; [|done]. zbool.
  destruct (received e !! _) as [[f|]|] eqn:Hi; [done| |].
  - pose proof (lookup_lt_Some _ _ _ Hi).
    destruct (filled_insert _ _ (payload_fragment m) Hi) as [Hf1 Hf2].
    cbn [fragment_count fp_location received fragment_received packet_len].
    assert (wrap 8 (fragment_received e + 1) = fragment_received e + 1) as Hwr
      by (unfold wrap; apply Z.mod_small; lia).
    rewrite Hwr. split_and!; [done..| |].
    + intros Hall. apply join_filled. rewrite length_insert. lia.
    + intros Hne. split; cbn [fragment_count fp_location received fragment_received packet_len];
        rewrite ?length_insert; lia.
  - apply lookup_ge_None in Hi. lia.
Qed.

Section Cache.
Context {C : Type} `{LruLaws Z FragmentedPacket C}.

Definition cache_wf (c : C) : Prop :=
  (0 < lru_cap c)%nat ∧ map_Forall (fun _ p => packet_wf p) (lru_map c).

(** No entry has to go to make room for [k]. *)
Definition has_room (k : Z) (c : C) : Prop :=
  is_Some (lru_map c !! k) ∨ (size (lru_map c) < lru_cap c)%nat.

(** Entries other than [k] survive, but for one when there was no room. *)
Definition others_kept (k : Z) (c c' : C) : Prop :=
  lru_cap c' = lru_cap c ∧
  ∀ k', k' ≠ k → lru_map c' !! k' = lru_map c !! k' ∨
                 (lru_map c' !! k' = None ∧ ¬ has_room k c).

(** The entry a fragment meets: its packet's, or a new one. *)
Definition entry_for (m : udp_message) (c : C) : FragmentedPacket :=
  default (new_packet m) (lru_map c !! packet_id m).

Definition ensured (m : udp_message) (c : C) : C :=
  if lru_contains (packet_id m) c then c else lru_put (packet_id m) (new_packet m) c.

Lemma ensured_spec m c :
  (0 < lru_cap c)%nat →
  lru_map (ensured m c) !! packet_id m = Some (entry_for m c) ∧
  others_kept (packet_id m) c (ensured m c).
Proof.
  intros Hc. unfold ensured, entry_for, others_kept. rewrite lru_contains_map.
  case_bool_decide as Hk.
  - destruct Hk as [e He]. rewrite He. cbn. auto.
  - rewrite lru_put_cap. apply eq_None_not_Some in Hk. rewrite Hk. cbn [default].
    split; [by apply (lru_put_lookup _ _ _ 0)|]. split; [done|]. intros k' Hne.
    destruct (decide (size (lru_map c) < lru_cap c)%nat) as [Hs|Hs].
    + left. rewrite lru_put_room by auto. by rewrite lookup_insert_ne.
    + destruct (lru_put_lookup (packet_id m) (new_packet m) c k' Hc) as [_ Hl].
      destruct (Hl Hne); [by left|right]. split; [done|]. unfold has_room. rewrite Hk.
      intros [[? ?]|?]; [done|lia].
Qed.

Lemma others_kept_trans k c c1 c2 :
  others_kept k c c1 → lru_cap c2 = lru_cap c1 →
  (∀ k', k' ≠ k → lru_map c2 !! k' = lru_map c1 !! k') → others_kept k c c2.
Proof.
  intros [Hc Hk] Hc2 Hk2. split; [congruence|]. intros k' Hne. rewrite Hk2 by done. by apply Hk.
Qed.

Lemma others_kept_none k k' c c' :
  others_kept k c c' → k' ≠ k → lru_map c !! k' = None → lru_map c' !! k' = None.
Proof. intros [_ Hk] Hne Hn. destruct (Hk _ Hne) as [He|[He _]]; congruence. Qed.

Lemma cache_pop_spec k (c : C) e c' :
  cache_pop k c = (e, c') →
  e = Ok (lru_map c !! k) ∧ lru_map c' = delete k (lru_map c) ∧ lru_cap c' = lru_cap c.
Proof.
  unfold cache_pop. destruct (lru_pop_map k c) as (Ho & Hm & Hc).
  destruct (lru_pop k c) as [o c1]. cbn [fst snd] in *. intros [= <- <-]. by rewrite Ho.
Qed.

Lemma cache_get_spec k (c : C) e c' :
  cache_get_mut k c = (e, c') →
  e = Ok (lru_map c !! k) ∧ lru_map c' = lru_map c ∧ lru_cap c' = lru_cap c.
Proof.
  unfold cache_get_mut. destruct (lru_get_map k c) as (Ho & Hm & Hc).
  destruct (lru_get k c) as [o c1]. cbn [fst snd] in *. intros [= <- <-]. by rewrite Ho.
Qed.

(** What [reassemble] returns and leaves, in terms of the entry. *)
Definition reassemble_post (m : udp_message) (c : C) (r : res (option (bytes * NetLocation)))
    (c' : C) : Prop :=
  match accept m (entry_for m c) with
  | Ok None => r = Ok None ∧ lru_map c' !! packet_id m = None
  | Ok (Some e) =>
      if fragment_received e =? fragment_count e
      then r = Ok (Some (concat (filled (received e)), fp_location e)) ∧
           lru_map c' !! packet_id m = None
      else r = Ok None ∧ lru_map c' !! packet_id m = Some e
  | Panic w => r = Panic w
  | Err _ | OutOfFuel => False
  end.

Lemma entry_for_wf m c : cache_wf c → 2 ≤ um_count m ≤ 255 → packet_wf (entry_for m c).
Proof.
  intros [_ Hc] Hm. unfold entry_for. destruct (lru_map c !! _) eqn:He; cbn.
  - by eapply Hc.
  - by apply new_packet_wf.
Qed.

Lemma reassemble_spec m c r c' :
  reassemble m c = (r, c') → cache_wf c → 2 ≤ um_count m ≤ 255 → 0 ≤ fragment_id m →
  others_kept (packet_id m) c c' ∧ reassemble_post m c r c'.
Proof.
  intros Hr Hwf Hm Hf. pose proof (entry_for_wf m c Hwf Hm) as He.
  destruct Hwf as [Hc _]. destruct (ensured_spec m c Hc) as [Hent Hkept].
  unfold reassemble in Hr. rewrite !(proj2 (Z.eqb_neq _ _)) in Hr by lia.
  assert ((if lru_contains (packet_id m) c then mret tt
     else modify (lru_put (packet_id m) (new_packet m))) c = (Ok tt, ensured m c)) as Hens
    by (unfold ensured; by destruct (lru_contains _ _)).
  rewrite (M_bind_ok _ _ _ c c) in Hr by done. rewrite (M_bind_ok _ _ _ _ _ Hens) in Hr.
  destruct (cache_get_mut (packet_id m) (ensured m c)) as [e1 c1] eqn:E1. rewrite M_bind_eq, E1 in Hr.
  destruct (cache_get_spec _ _ _ _ E1) as (-> & Hm1 & Hc1). rewrite Hent in Hr. cbv beta iota in Hr.
  rewrite M_bind_eq in Hr. unfold lift in Hr at 1.
  pose proof (accept_spec m (entry_for m c) He Hf) as Ha. unfold reassemble_post.
  destruct (accept m (entry_for m c)) as [[e|]|e|w|]; try done.
  - destruct Ha as (Hcnt & Hloc & Hrcv & Hnum & Hdone & Hgo).
    rewrite (M_bind_ok _ _ _ tt (lru_write (packet_id m) e c1)) in Hr by done.
    destruct (lru_write_map (packet_id m) e c1) as [Hm2 Hc2]; [rewrite Hm1; eauto|].
    destruct (fragment_received e =? fragment_count e) eqn:Hfin; cbn [negb] in Hr; zbool.
    + rewrite M_bind_eq in Hr.
      destruct (cache_pop (packet_id m) (lru_write (packet_id m) e c1)) as [p c3] eqn:E3.
      destruct (cache_pop_spec _ _ _ _ E3) as (-> & Hm3 & Hc3).
      rewrite Hm2, lookup_insert_eq in Hr. cbv beta iota in Hr. run_in Hr.
      rewrite (Hdone Hfin) in Hr. cbv beta iota in Hr. injection Hr as <- <-.
      rewrite Hm3, lookup_delete_eq. split; [|done].
      eapply others_kept_trans; [done|congruence|]. intros k' Hne.
      rewrite Hm3, lookup_delete_ne, Hm2, lookup_insert_ne, Hm1 by done. done.
    + run_in Hr. injection Hr as <- <-. rewrite Hm2, lookup_insert_eq. split; [|done].
      eapply others_kept_trans; [done|congruence|]. intros k' Hne.
      by rewrite Hm2, lookup_insert_ne, Hm1.
  - rewrite M_bind_eq in Hr. destruct (cache_pop (packet_id m) c1) as [p c3] eqn:E3.
    destruct (cache_pop_spec _ _ _ _ E3) as (-> & Hm3 & Hc3). run_in Hr. injection Hr as <- <-.
    rewrite Hm3, lookup_delete_eq. split; [|done].
    eapply others_kept_trans; [done|congruence|]. intros k' Hne.
    by rewrite Hm3, lookup_delete_ne, Hm1.
  - injection Hr as <- <-. split; [|done].
    eapply others_kept_trans; [done|congruence|]. intros k' _. by rewrite Hm1.
Qed.

(** A message whose fragment number is one of its packet's. *)
Definition in_range (m : udp_message) : Prop :=
  0 ≤ um_count m ≤ 255 ∧ 0 ≤ fragment_id m ∧ (2 ≤ um_count m → fragment_id m < um_count m).

Lemma reassemble_small m c :
  0 ≤ um_count m < 2 → ∃ o, reassemble m c = (Ok o, c).
Proof.
  intros Hm. unfold reassemble.
  destruct (um_count m =? 0) eqn:E0; [by eexists|].
  destruct (um_count m =? 1) eqn:E1; [by eexists|]. zbool. lia.
Qed.

Lemma others_kept_wf k c c' :
  others_kept k c c' → cache_wf c → (∀ p, lru_map c' !! k = Some p → packet_wf p) → cache_wf c'.
Proof.
  intros [Hc Hk] [Hpos Hwf] Hp. split; [lia|]. intros k' p Hl.
  destruct (decide (k' = k)) as [->|Hne]; [by apply Hp|].
  destruct (Hk _ Hne) as [He|[He _]]; rewrite He in Hl; [|done]. by eapply Hwf.
Qed.

(** In range, [reassemble] returns, and the cache stays well formed. *)
Lemma reassemble_total m c :
  cache_wf c → in_range m →
  ∃ o c', reassemble m c = (Ok o, c') ∧ cache_wf c' ∧ others_kept (packet_id m) c c'.
Proof.
  intros Hwf (Hm & Hf & Hlt). destruct (decide (um_count m < 2)) as [Hs|Hs].
  - destruct (reassemble_small m c) as [o Ho]; [lia|]. exists o, c. split_and!; [done..|].
    split; auto.
  - destruct (reassemble m c) as [r c'] eqn:E.
    destruct (reassemble_spec _ _ _ _ E Hwf ltac:(lia) Hf) as [Hk Hp].
    pose proof (accept_spec m (entry_for m c) (entry_for_wf m c Hwf ltac:(lia)) Hf) as Ha.
    unfold reassemble_post in Hp. destruct (accept m _) as [[e|]|e|w|]; try done.
    + destruct Ha as (_ & _ & _ & _ & _ & Hgo).
      destruct (_ =? _) eqn:Hfin in Hp; zbool; destruct Hp as [-> Hl]; do 2 eexists;
        (split_and!; [done| |done]); (eapply others_kept_wf; [done..|]); intros p; rewrite Hl;
        intros ?; simplify_eq. auto.
    + destruct Hp as [-> Hl]. do 2 eexists. split_and!; [done| |done].
      eapply others_kept_wf; [done..|]. intros p. by rewrite Hl.
    + lia.
Qed.

(** ** One packet among others *)

Section OnePacket.
Context (pid : Z) (frs : list bytes) (loc : NetLocation).
Hypothesis Hn : (1 ≤ length frs ≤ 255)%nat.

(** The slots, when the fragments in [seen] have arrived. *)
Definition partial (seen : list nat) : list (option bytes) :=
  imap (fun i f => if decide (i ∈ seen) then Some f else None) frs.

Lemma partial_nil : partial [] = replicate (length frs) None.
Proof.
  unfold partial. clear Hn. induction frs as [|f l IH]; [done|]. cbn [imap length replicate].
  f_equal. rewrite <-IH. by apply imap_ext.
Qed.

Lemma partial_cons seen i f :
  frs !! i = Some f → <[i := Some f]> (partial seen) = partial (i :: seen).
Proof.
  intros Hi. apply list_eq. intros j. unfold partial. rewrite list_lookup_insert.
  rewrite length_imap, !list_lookup_imap. pose proof (lookup_lt_Some _ _ _ Hi).
  case_decide as Hd.
  - destruct Hd as [-> _]. rewrite Hi. cbn. by rewrite decide_True by left.
  - assert (j ≠ i) by (intros ->; tauto). destruct (frs !! j); [|done]. cbn. f_equal.
    destruct (decide (j ∈ seen)) as [Hj|Hj].
    + by rewrite decide_True by (by right).
    + rewrite decide_False; [done|]. by intros [->|?]%elem_of_cons.
Qed.

Lemma partial_all seen : seen ≡ₚ seq 0 (length frs) → filled (partial seen) = frs.
Proof.
  intros Hp. assert (partial seen = Some <$> frs) as ->.
  { apply list_eq. intros j. unfold partial. rewrite list_lookup_imap, list_lookup_fmap.
    destruct (frs !! j) eqn:Hj; [|done]. cbn. rewrite decide_True; [done|].
    rewrite Hp. apply elem_of_seq. apply lookup_lt_Some in Hj. lia. }
  clear. induction frs as [|f l IH]; [done|]. cbn. by rewrite IH.
Qed.

Definition carries (m : udp_message) (i : nat) : Prop :=
  packet_id m = pid ∧ um_count m = Z.of_nat (length frs) ∧ fragment_id m = Z.of_nat i ∧
  frs !! i = Some (payload_fragment m) ∧ um_location m = loc.

(** The cache's entry for the packet. *)
Definition tracks (seen : list nat) (c : C) : Prop :=
  if decide (seen = []) then lru_map c !! pid = None
  else ∃ e, lru_map c !! pid = Some e ∧ fragment_count e = Z.of_nat (length frs) ∧
    fragment_received e = Z.of_nat (length seen) ∧ received e = partial seen ∧ fp_location e = loc.

Lemma tracks_entry m i seen c :
  carries m i → tracks seen c →
  fragment_count (entry_for m c) = Z.of_nat (length frs) ∧
  fragment_received (entry_for m c) = Z.of_nat (length seen) ∧
  received (entry_for m c) = partial seen ∧ fp_location (entry_for m c) = loc.
Proof.
  intros (Hp & Hc & _ & _ & Hl) Ht. unfold tracks, entry_for in *. rewrite Hp.
  case_decide as Hs.
  - rewrite Ht. subst seen. cbn. rewrite Hc, Nat2Z.id, partial_nil. done.
  - destruct Ht as (e & -> & ?). done.
Qed.

(** Its next fragment arrives. *)
Lemma reassemble_next m i seen c o c' :
  reassemble m c = (Ok o, c') → cache_wf c → carries m i → tracks seen c → i ∉ seen →
  (length seen < length frs)%nat →
  (if decide (S (length seen) = length frs)
   then seen ++ [i] ≡ₚ seq 0 (length frs) → o = Some (concat frs, loc) ∧ lru_map c' !! pid = None
   else o = None ∧ tracks (i :: seen) c').
Proof.
  intros Hr Hwf Hm Ht Hi Hseen. destruct (decide (length frs = 1%nat)) as [H1|H1].
  { rewrite decide_True by lia. intros _. destruct Hm as (_ & Hc & _ & Hfr & Hl).
    unfold reassemble in Hr. rewrite Hc, H1 in Hr. run_in Hr. cbn in Hr. injection Hr as <- <-.
    split; [|unfold tracks in Ht; by destruct seen; [|cbn [length] in Hseen; lia]].
    destruct frs as [|f [|]]; try done. rewrite Hl. destruct i; [|done]. cbn in *. simplify_eq.
    by rewrite app_nil_r. }
  destruct (tracks_entry _ _ _ _ Hm Ht) as (Hcnt & Hrcv & Hpart & Hloc).
  destruct Hm as (Hp & Hc & Hf & Hfr & _).
  destruct (reassemble_spec _ _ _ _ Hr Hwf ltac:(lia) ltac:(lia)) as [_ Hpost].
  pose proof (accept_spec m (entry_for m c) (entry_for_wf m c Hwf ltac:(lia)) ltac:(lia)) as Ha.
  unfold reassemble_post in Hpost. pose proof (lookup_lt_Some _ _ _ Hfr) as Hlt.
  assert (partial seen !! i = Some None) as Hslot.
  { unfold partial. rewrite list_lookup_imap, Hfr. cbn. by rewrite decide_False. }
  destruct (accept m (entry_for m c)) as [[e|]|e|w|] eqn:Eacc; try done.
  2: { exfalso. unfold accept in Eacc. rewrite Hcnt, Hc, Z.eqb_refl in Eacc. cbn [negb] in Eacc.
       by rewrite Hpart, Hf, Nat2Z.id, Hslot in Eacc. }
  destruct Ha as (Hc' & Hl' & Hr' & Hn' & _).
  rewrite Hpart, Hf, Nat2Z.id, (partial_cons _ _ _ Hfr) in Hr'.
  case_decide as Hfin.
  - intros Hperm. rewrite (proj2 (Z.eqb_eq _ _)) in Hpost by lia. destruct Hpost as [[= ->] Hgone].
    split; [|by rewrite <-Hp]. rewrite Hr', partial_all, Hl', Hloc; [done|]. rewrite <-Hperm. apply Permutation_cons_append.
  - rewrite (proj2 (Z.eqb_neq _ _)) in Hpost by lia. destruct Hpost as [[= ->] Hl]. split; [done|].
    unfold tracks. rewrite decide_False by done. exists e. rewrite <-Hp.
    split_and!; [done|lia|cbn [length]; lia|done|congruence].
Qed.

(** The packets the cache knows or will meet fit in it. *)
Definition ids (ms : list udp_message) : gset Z := list_to_set (packet_id <$> ms).
Definition fits (ms : list udp_message) (c : C) : Prop :=
  (size (dom (lru_map c) ∪ ids ms) ≤ lru_cap c)%nat.

Lemma fits_room m ms c : fits (m :: ms) c → has_room (packet_id m) c.
Proof.
  unfold fits, has_room. intros Hs.
  destruct (lru_map c !! packet_id m) as [e|] eqn:He; [by left; eexists|right].
  rewrite <-size_dom. eapply Nat.lt_le_trans; [|exact Hs]. apply subset_size.
  apply not_elem_of_dom in He. unfold ids. cbn. set_solver.
Qed.

Lemma fits_step m ms c c' : others_kept (packet_id m) c c' → fits (m :: ms) c → fits ms c'.
Proof.
  intros [Hc Hk] Hs. unfold fits in *. rewrite Hc. etrans; [|exact Hs]. apply subseteq_size.
  unfold ids. cbn. intros k [Hd|Hin]%elem_of_union; [|set_solver].
  destruct (decide (k = packet_id m)) as [->|Hne]; [set_solver|].
  apply elem_of_dom in Hd as [p Hp]. destruct (Hk _ Hne) as [He|[He _]]; rewrite He in Hp; [|done].
  apply elem_of_union_l, elem_of_dom. eauto.
Qed.

(** With room, a message of another packet does not disturb this one. *)
Lemma tracks_frame m seen c c' :
  others_kept (packet_id m) c c' → has_room (packet_id m) c → packet_id m ≠ pid →
  tracks seen c → tracks seen c'.
Proof.
  intros [_ Hk] Hroom Hne. destruct (Hk pid ltac:(done)) as [He|[_ ?]]; [|done].
  unfold tracks. by rewrite He.
Qed.

(** The outcomes of the packet's own messages: nothing until the last. *)
Definition mine (m : udp_message) : bool := bool_decide (packet_id m = pid).
Fixpoint own_results (ms : list udp_message) (os : list (option (bytes * NetLocation)))
    : list (option (bytes * NetLocation)) :=
  match ms, os with
  | m :: ms', o :: os' => if mine m then o :: own_results ms' os' else own_results ms' os'
  | _, _ => []
  end.

Definition expected (todo : list nat) : list (option (bytes * NetLocation)) :=
  match length todo with
  | O => []
  | S k => replicate k None ++ [Some (concat frs, loc)]
  end.

Lemma reassemble_run_own ms c seen todo :
  cache_wf c → Forall in_range ms → fits ms c →
  Forall2 carries (filter (fun m => mine m = true) ms) todo →
  seen ++ todo ≡ₚ seq 0 (length frs) → (if decide (todo = []) then lru_map c !! pid = None else tracks seen c) →
  ∃ os c', reassemble_run ms c = (Ok os, c') ∧ own_results ms os = expected todo ∧
    cache_wf c' ∧ lru_map c' !! pid = None ∧
    (∀ k, k ∉ ids ms → lru_map c !! k = None → lru_map c' !! k = None).
Proof.
  revert c seen todo. induction ms as [|m ms IH]; intros c seen todo Hwf Hin Hfit Hc Hperm Ht.
  - inversion Hc; subst. exists [], c. by split_and!.
  - inversion Hin as [|? ? Hm Hms]; subst.
    destruct (reassemble_total m c Hwf Hm) as (o & c1 & E & Hwf1 & Hk).
    pose proof (fits_room _ _ _ Hfit) as Hroom. pose proof (fits_step _ _ _ _ Hk Hfit) as Hfit1.
    assert (∀ k, k ∉ ids (m :: ms) → k ∉ ids ms ∧ k ≠ packet_id m) as Hids by (unfold ids; set_solver).
    cbn [reassemble_run]. rewrite (M_bind_ok _ _ _ _ _ E). rewrite filter_cons in Hc.
    destruct (decide (mine m = true)) as [Hmine|Hmine]; unfold mine in Hmine.
    + inversion Hc as [|? i ? todo' Hcar Hrest]; subst. rewrite decide_False in Ht by done.
      assert (NoDup (seen ++ i :: todo')) as Hnd by (rewrite Hperm; apply NoDup_seq).
      assert (i ∉ seen) as Hi by (apply NoDup_app in Hnd as (_ & Hd & _); set_solver).
      pose proof (Permutation_length Hperm) as Hlen. rewrite length_app, length_seq in Hlen.
      cbn [length] in Hlen.
      pose proof (reassemble_next _ _ _ _ _ _ E Hwf Hcar Ht Hi ltac:(lia)) as Hnext.
      assert (if decide (todo' = []) then o = Some (concat frs, loc) ∧ lru_map c1 !! pid = None
              else o = None ∧ tracks (i :: seen) c1) as Hstep.
      { destruct todo' as [|j todo']; cbn [length] in Hlen.
        - rewrite decide_True in Hnext by lia. by apply Hnext.
        - rewrite decide_False in Hnext by lia. by rewrite decide_False. }
      destruct (IH c1 (i :: seen) todo') as (os & c2 & E2 & Hos & Hwf2 & Hp2 & Hk2); try done.
      { rewrite <-Hperm. cbn. apply Permutation_middle. }
      { by case_decide; destruct Hstep. }
      exists (o :: os), c2. rewrite (M_bind_ok _ _ _ _ _ E2). split_and!; [done| |done..|].
      * cbn [own_results]. unfold mine. rewrite Hmine, Hos. unfold expected. cbn [length].
        destruct todo' as [|j todo']; [by destruct Hstep as [-> _]|].
        rewrite decide_False in Hstep by done. by destruct Hstep as [-> _].
      * intros k [Hk1 Hne]%Hids Hn1. eauto using others_kept_none.
    + apply not_true_is_false in Hmine. assert (packet_id m ≠ pid) as Hne by (by apply bool_decide_eq_false in Hmine).
      destruct (IH c1 seen todo) as (os & c2 & E2 & Hos & Hwf2 & Hp2 & Hk2); try done.
      { case_decide; [|by eauto using tracks_frame]. by eapply others_kept_none. }
      exists (o :: os), c2. rewrite (M_bind_ok _ _ _ _ _ E2). split_and!; [done| |done..|].
      * cbn [own_results]. unfold mine. by rewrite Hmine.
      * intros k [Hk1 Hnk]%Hids Hn1. eauto using others_kept_none.
Qed.
End OnePacket.
End Cache.

(** ** The wire format *)

Lemma drop8 (data : bytes) :
  (9 ≤ length data)%nat → ∃ b, data !! 8%nat = Some b ∧ drop 8 data = b :: drop 9 data.
Proof.
  intros Hl. destruct (data !! 8%nat) as [b|] eqn:Hb.
  - exists b. split; [done|]. by apply drop_S.
  - apply lookup_ge_None in Hb. lia.
Qed.

(** The inline decoder reads the varint at byte 8, or panics where it is cut off. *)
Lemma datagram_varint_spec data :
  (9 ≤ length data)%nat →
  match spec_varint (drop 8 data) with
  | Some (v, rest) => ∃ k, datagram_varint data = Ok (v, k) ∧ drop k data = rest ∧ (k ≤ length data)%nat
  | None => panics (datagram_varint data) = true
  end.
Proof.
  intros Hl. destruct (drop8 data Hl) as (b & Hb & Hd). rewrite Hd. unfold datagram_varint.
  rewrite Hb. cbn [spec_varint]. destruct (varint_num_bytes_cases b) as (n & -> & Hn).
  cbn [mbind res_bind]. rewrite length_drop.
  destruct (length data - 9 <? n - 1)%nat eqn:E; zbool.
  - rewrite (proj2 (Nat.ltb_lt _ _)), (proj2 (Nat.leb_gt _ _)) by lia. done.
  - rewrite drop_drop. destruct (1 <? n)%nat eqn:E1; zbool.
    + rewrite (proj2 (Nat.leb_le _ _)) by lia. eexists. split_and!; [|done|lia].
      rewrite varint_fold_head by len. unfold slice.
      by replace (9 + (n - 1) - 9)%nat with (n - 1)%nat by lia.
    + assert (n = 1%nat) as -> by lia. exists 9%nat. split_and!; [done..|lia].
Qed.

Lemma datagram_header sid pid fid cnt alen addr body :
  0 ≤ sid < 2 ^ 32 → 0 ≤ pid < 2 ^ 16 → 0 ≤ fid < 256 → 0 ≤ cnt < 256 →
  let d := datagram sid pid fid cnt alen addr body in
  be_decode (slice 0 4 d) = sid ∧ be_decode (slice 4 6 d) = pid ∧
  b2z (nth 6 d x00) = fid ∧ b2z (nth 7 d x00) = cnt ∧ drop 8 d = alen ++ addr ++ body ∧
  length d = (8 + length alen + length addr + length body)%nat.
Proof.
  intros Hs Hp Hf Hc d. subst d. unfold datagram.
  pose proof (length_be_encode 4 sid) as H4. pose proof (length_be_encode 2 pid) as H2.
  pose proof (be_decode_encode_small 4 sid ltac:(lia)) as Hd4.
  pose proof (be_decode_encode_small 2 pid ltac:(lia)) as Hd2.
  destruct (be_encode 4 sid) as [|a1 [|a2 [|a3 [|a4 [|]]]]]; try done.
  destruct (be_encode 2 pid) as [|p1 [|p2 [|]]]; try done.
  split_and!; try done.
  - cbn. by rewrite b2z_z2b, Z.mod_small.
  - cbn. by rewrite b2z_z2b, Z.mod_small.
  - cbn. rewrite !length_app. lia.
Qed.

(** The address of a datagram, as both sides write it. *)
Definition good_address (addr alen : bytes) (loc : NetLocation) : Prop :=
  (1 ≤ length addr ≤ Z.to_nat 2048)%nat ∧ utf8_valid addr = true ∧
  netloc_from_str addr None = Ok loc ∧ encode_varint (Z.of_nat (length addr)) = Ok alen.

Lemma parse_datagram_datagram sid pid fid cnt addr alen body loc :
  0 ≤ sid < 2 ^ 32 → 0 ≤ pid < 2 ^ 16 → 0 ≤ fid < 256 → 0 ≤ cnt < 256 →
  good_address addr alen loc →
  parse_datagram (datagram sid pid fid cnt alen addr body) =
    Ok (Some (MkMsg sid pid fid cnt body loc)).
Proof.
  intros Hs Hp Hf Hc (Hlen & Hutf & Hloc & Henc).
  destruct (datagram_header sid pid fid cnt alen addr body Hs Hp Hf Hc)
    as (H1 & H2 & H3 & H4 & Hdrop & Hl).
  destruct (encode_varint_spec (Z.of_nat (length addr)) (addr ++ body)) as (bs & Hb & Hbl & Hspec); [lia|].
  rewrite Henc in Hb. injection Hb as <-.
  pose proof (datagram_varint_spec (datagram sid pid fid cnt alen addr body) ltac:(lia)) as Hv.
  rewrite Hdrop, Hspec in Hv. destruct Hv as (k & Hk & Hrest & Hkl).
  unfold parse_datagram. rewrite (proj2 (Nat.ltb_ge _ _)) by lia. cbv zeta.
  rewrite H1, H2, H3, H4, Hk. cbn [mbind res_bind].
  pose proof (f_equal length Hrest) as Hrl. rewrite length_drop, length_app in Hrl.
  rewrite (proj2 (Z.eqb_neq _ _)), (proj2 (Z.ltb_ge _ _)) by lia. rewrite Nat2Z.id.
  rewrite (proj2 (Nat.ltb_ge _ _)) by lia. unfold slice.
  replace (k + length addr - k)%nat with (length addr) by lia.
  rewrite <-drop_drop, Hrest, take_app_length, drop_app_length, Hutf, Hloc. done.
Qed.

(** ** Cutting a packet *)

Lemma div_ceil_spec a b : 0 < a → 0 < b → (div_ceil a b - 1) * b < a ≤ div_ceil a b * b.
Proof.
  intros Ha Hb. unfold div_ceil. pose proof (Z_div_mod_eq_full a b).
  pose proof (Z.mod_pos_bound a b Hb). destruct (a mod b =? 0) eqn:E; zbool; nia.
Qed.

(** The first [k] fragments are the first bytes of the payload. *)
Lemma concat_fragments avail (payload : bytes) k :
  (0 < avail)%nat → concat (fragment_body avail payload <$> seq 0 k) = take (k * avail) payload.
Proof.
  intros Ha. induction k as [|k IH]; [done|].
  rewrite seq_S, fmap_app, concat_app, IH. cbn [fmap list_fmap concat]. rewrite app_nil_r.
  unfold fragment_body, slice. rewrite Nat.add_0_l. cbv zeta.
  replace (S k * avail)%nat with (k * avail + avail)%nat by lia. rewrite <-take_take_drop. f_equal.
  destruct (decide (k * avail + avail ≤ length payload)%nat) as [Hle|Hgt].
  - rewrite Nat.min_l by lia. f_equal. lia.
  - rewrite Nat.min_r by lia. rewrite !take_ge; [done|rewrite length_drop; lia..].
Qed.

Lemma length_fragment_body avail (payload : bytes) i :
  (length (fragment_body avail payload i) ≤ avail)%nat.
Proof. unfold fragment_body. cbv zeta. len. Qed.

Section Properties.
Context {C : Type} `{LruLaws Z FragmentedPacket C}.

(** The bodies of the datagrams of a packet, and the datagrams around them. *)
Lemma packet_fragments_spec max sid pid alen addr payload ds :
  packet_fragments max sid pid alen addr payload = Ok ds →
  div_ceil (Z.of_nat (length payload))
    (max - (8 + Z.of_nat (length alen) + Z.of_nat (length addr))) ≤ 255 →
  ∃ frs, (1 ≤ length frs ≤ 255)%nat ∧ concat frs = payload ∧
    ds = imap (fun i f => datagram sid pid (Z.of_nat i) (Z.of_nat (length frs)) alen addr f) frs ∧
    Forall (fun d => Z.of_nat (length d) ≤ max) ds.
Proof.
  intros Hd Hle. unfold packet_fragments in Hd. cbv zeta in Hd.
  set (over := 8 + Z.of_nat (length alen) + Z.of_nat (length addr)) in *.
  destruct (over <? max) eqn:Ho; [|done]. cbn [negb] in Hd. zbool.
  assert (∀ fid cnt body, Z.of_nat (length (datagram sid pid fid cnt alen addr body)) =
    over + Z.of_nat (length body)) as Hlen.
  { intros. unfold datagram, over. rewrite !length_app, !length_be_encode. cbn [length]. lia. }
  destruct (_ <=? max) eqn:Hfit; zbool; injection Hd as <-.
  - exists [payload]. cbn [concat length imap]. rewrite app_nil_r. split_and!; [lia..|done|done|].
    constructor; [|constructor]. rewrite Hlen. lia.
  - destruct (div_ceil_spec (Z.of_nat (length payload)) (max - over)) as [Hlo Hhi]; [lia..|].
    set (n := div_ceil _ _) in *. assert (2 ≤ n) by nia.
    assert (wrap 8 n = n) as -> by (unfold wrap; apply Z.mod_small; lia).
    exists (fragment_body (Z.to_nat (max - over)) payload <$> seq 0 (Z.to_nat n)).
    rewrite length_fmap, length_seq, concat_fragments by lia.
    split_and!; [lia..|apply take_ge; nia| |].
    + apply list_eq. intros j. rewrite list_lookup_imap, !list_lookup_fmap.
      destruct (seq 0 (Z.to_nat n) !! j) as [i|] eqn:Hj; [|done]. cbn.
      apply lookup_seq in Hj as [-> Hj]. by rewrite Z2Nat.id by lia.
    + apply Forall_fmap, Forall_forall. intros i _. cbv beta.
      unfold compose. rewrite Hlen. pose proof (length_fragment_body (Z.to_nat (max - over)) payload i). lia.
Qed.

(** The messages of the datagrams, in the order they arrive. *)
Lemma arrivals_carry sid pid alen addr loc frs arrivals ms :
  0 ≤ sid < 2 ^ 32 → 0 ≤ pid < 2 ^ 16 → good_address addr alen loc → (length frs ≤ 255)%nat →
  arrivals ≡ₚ imap (fun i f => datagram sid pid (Z.of_nat i) (Z.of_nat (length frs)) alen addr f) frs →
  Forall2 (fun d m => parse_datagram d = Ok (Some m)) arrivals ms →
  ∃ order, order ≡ₚ seq 0 (length frs) ∧ Forall2 (carries pid frs loc) ms order.
Proof.
  intros Hs Hp Ha Hl Hperm Hms.
  set (f i := datagram sid pid (Z.of_nat i) (Z.of_nat (length frs)) alen addr (nth i frs [])).
  assert (imap (fun i f => datagram sid pid (Z.of_nat i) (Z.of_nat (length frs)) alen addr f) frs =
    f <$> seq 0 (length frs)) as Heq.
  { apply list_eq. intros j. rewrite list_lookup_imap, list_lookup_fmap.
    destruct (frs !! j) as [g|] eqn:Hj.
    - rewrite lookup_seq_lt by (by eapply lookup_lt_Some). cbn [fmap option_fmap option_map].
      unfold f. by erewrite nth_lookup_Some by done.
    - rewrite lookup_seq_ge; [done|]. by apply lookup_ge_None. }
  rewrite Heq in Hperm. apply Permutation_map_inv in Hperm as (order & -> & Hperm).
  exists order. split; [done|]. apply Forall2_fmap_l in Hms.
  assert (Forall (fun i => i < length frs)%nat order) as Hlt.
  { apply Forall_forall. intros i Hi. rewrite <-Hperm in Hi. apply elem_of_seq in Hi. lia. }
  clear Hperm. induction Hms as [|i m order ms Hm Hms IH]; inversion Hlt as [|? ? Hi Hrest]; subst;
    constructor; [|by apply IH].
  assert (∃ g, frs !! i = Some g) as [g Hg] by (by apply lookup_lt_is_Some).
  unfold compose, f in Hm. rewrite (nth_lookup_Some _ _ _ _ Hg) in Hm.
  rewrite (parse_datagram_datagram _ _ _ _ _ _ _ loc) in Hm by (done || lia).
  injection Hm as <-. unfold carries. cbn. by split_and!.
Qed.
End Properties.

(** ** Properties *)

(** C7: a packet cut into at most 255 fragments arrives whole.  No datagram is
    larger than the connection allows, and whatever order the datagrams arrive
    in, interleaved with any messages of other packets of the session as long as
    the cache has room for them all, the fragments before the last complete
    nothing and the last completes exactly the payload and its address. *)
Theorem fragmentation_roundtrip {C : Type} `{LruLaws Z FragmentedPacket C}
    (max sid pid : Z) (addr alen payload : bytes) (loc : NetLocation) (ds arrivals : list bytes)
    (ms : list udp_message) (c : C) :
  0 ≤ sid < 2 ^ 32 → 0 ≤ pid < 2 ^ 16 → good_address addr alen loc →
  packet_fragments max sid pid alen addr payload = Ok ds →
  div_ceil (Z.of_nat (length payload))
    (max - (8 + Z.of_nat (length alen) + Z.of_nat (length addr))) ≤ 255 →
  arrivals ≡ₚ ds →
  Forall2 (fun d m => parse_datagram d = Ok (Some m)) arrivals
    (filter (fun m => mine pid m = true) ms) →
  cache_wf c → lru_map c !! pid = None → Forall in_range ms → fits ms c →
  Forall (fun d => Z.of_nat (length d) ≤ max) ds ∧
  ∃ os c', reassemble_run ms c = (Ok os, c') ∧
    own_results pid ms os = replicate (length ds - 1) None ++ [Some (payload, loc)].
Proof.
  intros Hs Hp Ha Hd Hle Hperm Hms Hwf Hnone Hin Hfit.
  destruct (packet_fragments_spec _ _ _ _ _ _ _ Hd Hle) as (frs & Hn & Hcat & Hds & Hsize).
  split; [done|]. subst ds.
  destruct (arrivals_carry sid pid alen addr loc frs arrivals _ Hs Hp Ha ltac:(lia) Hperm Hms)
    as (order & Hord & Hcar).
  destruct (reassemble_run_own pid frs loc Hn ms c [] order) as (os & c' & Hr & Hown & _); try done.
  { by case_decide. }
  exists os, c'. split; [done|]. rewrite Hown, length_imap. unfold expected.
  rewrite Hord, length_seq, Hcat. destruct (length frs) as [|k]; [lia|].
  by replace (S k - 1)%nat with k by lia.
Qed.

Definition demo_addr_bytes : bytes := [x61; x3a; x38; x30].
Definition demo_udp_loc : NetLocation := NetLoc (Addr_Hostname [x61]) 80.
Definition demo_msg (pid fid cnt : Z) (body : bytes) : udp_message :=
  MkMsg 7 pid fid cnt body demo_udp_loc.

(** Two fragments of packet 5, out of order, around one of packet 6. *)
Lemma fragmentation_roundtrip_witness :
  ∃ os c', reassemble_run (C := MapLru Z FragmentedPacket)
      [demo_msg 5 1 2 [x03]; demo_msg 6 0 3 [x09]; demo_msg 5 0 2 [x01; x02]]
      (lru_new MAX_FRAGMENT_CACHE_SIZE) = (Ok os, c') ∧
    own_results 5 [demo_msg 5 1 2 [x03]; demo_msg 6 0 3 [x09]; demo_msg 5 0 2 [x01; x02]] os =
      replicate 1 None ++ [Some ([x01; x02; x03], demo_udp_loc)].
Proof.
  refine (proj2 (fragmentation_roundtrip 15 7 5 demo_addr_bytes [x04] [x01; x02; x03] demo_udp_loc
    [datagram 7 5 0 2 [x04] demo_addr_bytes [x01; x02]; datagram 7 5 1 2 [x04] demo_addr_bytes [x03]]
    [datagram 7 5 1 2 [x04] demo_addr_bytes [x03]; datagram 7 5 0 2 [x04] demo_addr_bytes [x01; x02]]
    [demo_msg 5 1 2 [x03]; demo_msg 6 0 3 [x09]; demo_msg 5 0 2 [x01; x02]]
    (lru_new MAX_FRAGMENT_CACHE_SIZE) _ _ _ _ _ _ _ _ _ _ _)); [lia|lia|..].
  - split_and!; [cbn; lia..|reflexivity|reflexivity|reflexivity].
  - reflexivity.
  - vm_compute. discriminate.
  - apply Permutation_swap.
  - repeat constructor.
  - split; [apply Nat.ltb_lt; reflexivity|apply map_Forall_empty].
  - reflexivity.
  - repeat constructor; cbn; lia.
  - apply Nat.leb_le. vm_compute. reflexivity.
Defined.

(** C28: [reassemble] on any message: it panics exactly when the fragment number is
    not below a fragment count of two or more that its packet's entry agrees
    with; it never runs out of slots otherwise, and then keeps the cache well
    formed: every entry has one slot per fragment, counts the filled ones, and
    waits for at least one more. *)
Theorem reassemble_safe {C : Type} `{LruLaws Z FragmentedPacket C} (m : udp_message) (c : C) :
  cache_wf c → 0 ≤ um_count m ≤ 255 → 0 ≤ fragment_id m →
  (panics (reassemble m c).1 = true ↔
   2 ≤ um_count m ≤ fragment_id m ∧ fragment_count (entry_for m c) = um_count m) ∧
  (panics (reassemble m c).1 = false → is_ok (reassemble m c).1 = true ∧ cache_wf (reassemble m c).2).
Proof.
  intros Hwf Hc Hf. destruct (decide (2 ≤ um_count m ≤ fragment_id m)) as [Hbad|Hin].
  2: { assert (in_range m) as Hrange by (unfold in_range; lia).
    destruct (reassemble_total m c Hwf Hrange) as (o & c' & -> & Hwf' & _). cbn.
    split; [|done]. split; [done|tauto]. }
  destruct (reassemble m c) as [r c'] eqn:E. cbn [fst snd].
  destruct (reassemble_spec _ _ _ _ E Hwf ltac:(lia) Hf) as [Hk Hp].
  pose proof (entry_for_wf m c Hwf ltac:(lia)) as He.
  pose proof (accept_spec m (entry_for m c) He Hf) as Ha.
  unfold reassemble_post in Hp.
  assert (fragment_count (entry_for m c) = um_count m ↔ panics (accept m (entry_for m c)) = true) as Hiff.
  { unfold accept. destruct (_ =? _) eqn:Heq; cbn [negb]; zbool; [|by split].
    rewrite lookup_ge_None_2; [done|]. destruct He as [_ Hsl _ _ _]. lia. }
  destruct (accept m _) as [[e|]|e|w|] eqn:Eacc; try done.
  + exfalso. unfold accept in Eacc. destruct (_ =? _) eqn:Heq in Eacc; [|done]. zbool.
    cbn [negb] in Eacc. rewrite lookup_ge_None_2 in Eacc; [done|]. destruct He as [_ Hsl _ _ _]. lia.
  + destruct Hp as [-> Hl]. cbn in *. split; [by rewrite Hiff; split; [|intros []]|].
    intros _. split; [done|]. eapply others_kept_wf; [done..|]. intros p. by rewrite Hl.
  + subst r. cbn in *. split; [|done]. rewrite Hiff. done.
Qed.

(** A first fragment numbered past its own count. *)
Lemma reassemble_safe_witness :
  panics (reassemble (C := MapLru Z FragmentedPacket) (demo_msg 5 2 2 [x03])
            (lru_new MAX_FRAGMENT_CACHE_SIZE)).1 = true.
Proof.
  apply (reassemble_safe (demo_msg 5 2 2 [x03]) (lru_new MAX_FRAGMENT_CACHE_SIZE));
    [split; [apply Nat.ltb_lt; reflexivity|apply map_Forall_empty]|cbn; lia|cbn; lia|].
  split; [cbn; lia|reflexivity].
Defined.

(** C38: [parse_datagram] ignores what it cannot parse, except that a datagram of
    nine bytes or more that ends inside the address length panics. *)
Theorem parse_datagram_panics_iff (data : bytes) :
  panics (parse_datagram data) = true ↔
  ∃ b n, data !! 8%nat = Some b ∧ varint_num_bytes b = Ok n ∧ (length data < 8 + n)%nat.
Proof.
  unfold parse_datagram. destruct (length data <? 9)%nat eqn:Hl; zbool.
  { split; [done|]. intros (b & n & Hb & _). apply lookup_lt_Some in Hb. lia. }
  pose proof (datagram_varint_spec data Hl) as Hv. destruct (drop8 data Hl) as (b & Hb & Hd).
  destruct (varint_num_bytes_cases b) as (n & Hn & Hr). rewrite Hd in Hv. cbn [spec_varint] in Hv.
  rewrite Hn, length_drop in Hv. destruct (length data - 9 <? n - 1)%nat eqn:Hlt; zbool; cbv zeta.
  - destruct (datagram_varint data) as [[]|e|w|]; try done. split; [|done]. intros _.
    exists b, n. split_and!; [done..|lia].
  - destruct Hv as (k & -> & _). cbn [mbind res_bind]. split.
    + repeat (case_match_eqn; try done).
      match goal with H : netloc_from_str ?a None = Panic _ |- _ =>
        destruct (netloc_from_str_returns a None) as [Hret _]; by rewrite H in Hret end.
    + intros (b' & n' & Hb' & Hn' & Hlt'). rewrite Hb in Hb'. injection Hb' as <-.
      rewrite Hn in Hn'. injection Hn' as <-. lia.
Qed.

(** A packet that needs exactly 256 fragments is dropped without an error: the
    fragment count wraps to zero and no datagram is sent. *)
Theorem fragment_count_wraps (max sid pid : Z) (alen addr payload : bytes) :
  let over := 8 + Z.of_nat (length alen) + Z.of_nat (length addr) in
  over < max → 255 * (max - over) < Z.of_nat (length payload) ≤ 256 * (max - over) →
  packet_fragments max sid pid alen addr payload = Ok [].
Proof.
  intros over Ho Hp. unfold packet_fragments. cbv zeta. fold over.
  rewrite (proj2 (Z.ltb_lt _ _)) by done. cbn [negb]. rewrite (proj2 (Z.leb_gt _ _)) by lia.
  destruct (div_ceil_spec (Z.of_nat (length payload)) (max - over)) as [Hlo Hhi]; [lia..|].
  assert (div_ceil (Z.of_nat (length payload)) (max - over) = 256) as ->; [|done].
  set (n := div_ceil _ _) in *. set (a := max - over) in *. assert (0 < a) by lia.
  assert (n < 257) by nia. assert (255 < n) by nia. lia.
Qed.

Lemma fragment_count_wraps_witness :
  packet_fragments 14 7 5 [x04] demo_addr_bytes (replicate 256 x00) = Ok [].
Proof. apply (fragment_count_wraps 14 7 5 [x04] demo_addr_bytes); cbn; lia. Defined.

(** ** The loop's sessions *)

Section Loop.
Context {C : Type} `{Lru Z FragmentedPacket C} {W : Type} `{UdpWorld W}.
Implicit Types (ss : gmap Z (UdpSession (C := C))) (w : W).

Lemma attempt_spec {A} (op : M W A) ss w r st' :
  attempt op (ss, w) = (r, st') → st'.1 = ss ∧
  match r with
  | Ok (Some a) => op w = (Ok a, st'.2)
  | Ok None => ∃ e, op w = (Err e, st'.2)
  | _ => True
  end.
Proof. unfold attempt. intros Hr. destruct (op w) as [[]]; simplify_eq; cbn; eauto. Qed.

(** The session a message meets is in the table; the others are as they were. *)
Lemma session_entry_spec now m ss w r st' :
  session_entry now m (ss, w) = (r, st') →
  (∀ k s, ss !! k = Some s → st'.1 !! k = Some s) ∧
  match r with Ok (Some s) => st'.1 !! session_id m = Some s | _ => True end.
Proof.
  unfold session_entry. rewrite (M_bind_ok _ _ _ (ss, w) (ss, w)) by done. cbn [fst].
  destruct (ss !! session_id m) as [s|] eqn:Hs; [intros Hr; run_in Hr; by simplify_eq|].
  rewrite M_bind_eq. destruct (attempt _ (ss, w)) as [r1 [ss1 w1]] eqn:E1.
  apply attempt_spec in E1 as [Hss _]. cbn in Hss. subst ss1.
  destruct r1 as [[a|]|e|x|]; try (intros Hr; run_in Hr; by simplify_eq).
  destruct (if bool_decide _ then _ else _) as [orem oloc]. rewrite M_bind_eq. unfold in_world at 1.
  destruct (new_udp_socket true w1) as [[sock|e|x|] w2]; try (intros Hr; by simplify_eq).
  rewrite (M_bind_ok _ _ _ (ss, w2) (ss, w2)) by done. cbn [session_start snd].
  intros Hr. run_in Hr. simplify_eq. cbn [fst]. split; [|apply lookup_insert_eq].
  intros k s' Hk. rewrite lookup_insert_ne by congruence. done.
Qed.

(** Every session is still there, with the same last activity. *)
Definition activity_stays ss ss' : Prop :=
  ∀ k s, ss !! k = Some s → ∃ s', ss' !! k = Some s' ∧ last_activity s' = last_activity s.

#[local] Instance activity_stays_preorder : PreOrder activity_stays.
Proof.
  split; [intros ss k s Hs; eauto|]. intros ss1 ss2 ss3 H12 H23 k s Hs.
  destruct (H12 _ _ Hs) as (s2 & Hs2 & <-). by apply H23.
Qed.

Lemma activity_stays_insert ss k s s' :
  ss !! k = Some s → last_activity s' = last_activity s → activity_stays ss (<[k := s']> ss).
Proof.
  intros Hs Ha k' x Hx. destruct (decide (k' = k)) as [->|].
  - exists s'. rewrite lookup_insert_eq. by simplify_eq.
  - exists x. by rewrite lookup_insert_ne.
Qed.

Lemma target_addr_stays sid loc s ss w r st' :
  target_addr sid loc s (ss, w) = (r, st') → ss !! sid = Some s → activity_stays ss st'.1.
Proof.
  unfold target_addr, set_session. intros Hr Hs. destruct (override_remote_write_address s).
  { run_in Hr. by simplify_eq. }
  destruct (decide _); [run_in Hr; by simplify_eq|].
  rewrite M_bind_eq in Hr. destruct (attempt _ (ss, w)) as [r1 [ss1 w1]] eqn:E1.
  apply attempt_spec in E1 as [Hss _]. cbn in Hss. subst ss1.
  destruct r1 as [[a|]|e|x|]; run_in Hr; simplify_eq; try done.
  by eapply activity_stays_insert.
Qed.

Lemma forward_only_removes sid s payload addr ss w r st' k x :
  forward sid s payload addr (ss, w) = (r, st') → st'.1 !! k = Some x → ss !! k = Some x.
Proof.
  unfold forward. intros Hr. rewrite M_bind_eq in Hr.
  destruct (attempt _ (ss, w)) as [r1 [ss1 w1]] eqn:E1.
  apply attempt_spec in E1 as [Hss _]. cbn in Hss. subst ss1.
  destruct r1 as [[a|]|e|y|]; run_in Hr; simplify_eq; try done.
  cbn. intros Hx. by apply lookup_delete_Some in Hx as [_ ?].
Qed.

(** A message leaves the last activity of every session alone. *)
Lemma handle_message_activity now m ss w r st' k s s' :
  handle_message now m (ss, w) = (r, st') → ss !! k = Some s → st'.1 !! k = Some s' →
  last_activity s' = last_activity s.
Proof.
  intros Hr Hs Hs'.
  assert (∃ ss1, activity_stays ss ss1 ∧ ∀ x, st'.1 !! k = Some x → ss1 !! k = Some x) as (ss1 & H1 & H2).
  { unfold handle_message in Hr. rewrite M_bind_eq in Hr.
    destruct (session_entry now m (ss, w)) as [r1 [ss1 w1]] eqn:E1.
    apply session_entry_spec in E1 as [Hk Hin]. cbn [fst] in *.
    assert (activity_stays ss ss1) as H1 by (intros k' x Hx; eauto).
    destruct r1 as [[s1|]|e|x|]; [|run_in Hr; simplify_eq; eauto..].
    rewrite M_bind_eq in Hr. unfold reassemble_in at 1 in Hr.
    destruct (reassemble m (fragments s1)) as [r2 c2].
    set (s2 := MkSession _ _ _ _ _ _) in Hr.
    assert (activity_stays ss (<[session_id m := s2]> ss1)) as H2
      by (etrans; [done|by eapply activity_stays_insert]).
    destruct r2 as [[[payload loc]|]|e|x|]; [|run_in Hr; simplify_eq; eauto..].
    rewrite M_bind_eq in Hr. unfold get at 1 in Hr. cbn [fst] in Hr. rewrite lookup_insert_eq in Hr.
    rewrite M_bind_eq in Hr.
    destruct (target_addr _ _ _ _) as [r3 [ss3 w3]] eqn:E3.
    apply target_addr_stays in E3; [|apply lookup_insert_eq]. cbn [fst] in E3.
    assert (activity_stays ss ss3) as H3 by (by etrans).
    destruct r3 as [[addr|]|e|x|]; [|run_in Hr; simplify_eq; eauto..].
    exists ss3. eauto using forward_only_removes. }
  destruct (H1 _ _ Hs) as (x & Hx & <-). rewrite (H2 _ Hs') in Hx. by simplify_eq.
Qed.
End Loop.

(** C39: a session is dropped 60 seconds after it was opened even when it is in use.
    The time of the last activity is only set when the session starts: a message
    that arrives on it, however recent, does not keep the next cleanup from
    removing it. *)
Theorem session_expires_despite_traffic {C W : Type} `{Lru Z FragmentedPacket C} `{UdpWorld W}
    (ss : gmap Z (UdpSession (C := C))) (w : W) (m : udp_message) (s : UdpSession (C := C))
    (received_at now : Z) (r : res unit) (st' : gmap Z (UdpSession (C := C)) * W) :
  ss !! session_id m = Some s → IDLE_TIMEOUT < now - last_activity s →
  handle_message received_at m (ss, w) = (r, st') →
  (retain_sessions now st').2.1 !! session_id m = None.
Proof.
  intros Hs Hold Hr. destruct st' as [ss' w']. cbn [retain_sessions modify snd fst].
  apply map_lookup_filter_None. destruct (ss' !! session_id m) as [s'|] eqn:Hs'; [right|by left].
  intros x Hx. simplify_eq. unfold expired.
  rewrite (handle_message_activity _ _ _ _ _ _ _ _ _ Hr Hs Hs').
  rewrite (proj2 (Z.ltb_lt _ _)); [done|]. unfold IDLE_TIMEOUT in *. lia.
Qed.

(** A world that knows IP literals and one name, and records what is sent. *)
Record UdpLog : Set := MkLog {
  sockets : nat; sent : list (nat * bytes * SocketAddr); cancelled : list nat }.

Definition demo_target : SocketAddr := SocketV4 (Ipv4 (10 * 2 ^ 24 + 1)) 80.

#[export] Instance UdpLog_world : UdpWorld UdpLog := {|
  resolve_location loc := fun w =>
    match to_socket_addr_nonblocking loc with
    | Some a => (Ok a, w)
    | None => (Ok demo_target, w)
    end;
  new_udp_socket _ := fun w => (Ok (sockets w), MkLog (S (sockets w)) (sent w) (cancelled w));
  spawn_remote_to_local _ _ _ w := w;
  cancel_session n w := MkLog (sockets w) (sent w) (n :: cancelled w);
  send_to n payload a := fun w =>
    (Ok tt, MkLog (sockets w) ((n, payload, a) :: sent w) (cancelled w)) |}.

Definition demo_session : UdpSession (C := MapLru Z FragmentedPacket) :=
  MkSession (lru_new MAX_FRAGMENT_CACHE_SIZE) 0 demo_udp_loc demo_target (Some demo_target) 0.

(** A message at the 61st second, and a cleanup at that very time. *)
Lemma session_expires_despite_traffic_witness :
  (retain_sessions (61 * 10 ^ 9)
    (handle_message (61 * 10 ^ 9) (demo_msg 5 0 1 [x03]) ({[7 := demo_session]}, MkLog 1 [] [])).2).2.1
    !! 7 = None.
Proof.
  exact (session_expires_despite_traffic {[7 := demo_session]} (MkLog 1 [] []) (demo_msg 5 0 1 [x03])
    demo_session (61 * 10 ^ 9) (61 * 10 ^ 9) _ _ eq_refl eq_refl (surjective_pairing _)).
Defined.

(** Once the first packet of a session was addressed by name, every later whole
    packet of the session goes to the address that name resolved to, whatever
    target it asks for; the second packet's own target is never resolved. *)
Theorem session_pinned_to_first_target {C W : Type} `{Lru Z FragmentedPacket C} `{UdpWorld W}
    (ss : gmap Z (UdpSession (C := C))) (w w1 w2 w3 : W) (m1 m2 : udp_message) (t1 t2 : Z)
    (a : SocketAddr) (sock : nat) :
  um_count m1 = 1 → um_count m2 = 1 → session_id m2 = session_id m1 →
  ss !! session_id m1 = None →
  resolve_location (um_location m1) w = (Ok a, w1) →
  show_socket_addr a ≠ show_netloc (um_location m1) →
  new_udp_socket true w1 = (Ok sock, w2) →
  send_to sock (payload_fragment m1) a
    (spawn_remote_to_local (session_id m1) sock (Some (um_location m1)) w2) = (Ok tt, w3) →
  ∃ ss', (handle_message t1 m1 ;; handle_message t2 m2) (ss, w) =
    match send_to sock (payload_fragment m2) a w3 with
    | (Ok _, w') => (Ok tt, (ss', w'))
    | (Err _, w') => (Ok tt, (delete (session_id m1) ss', w'))
    | (Panic x, w') => (Panic x, (ss', w'))
    | (OutOfFuel, w') => (OutOfFuel, (ss', w'))
    end.
Proof.
  intros Hc1 Hc2 Hsid Hnone Hres Hshow Hsock Hsend.
  set (s := MkSession (C := C) (lru_new MAX_FRAGMENT_CACHE_SIZE) sock (um_location m1) a (Some a) t1).
  assert (handle_message t1 m1 (ss, w) = (Ok tt, (<[session_id m1 := s]> ss, w3))) as H1.
  { unfold handle_message, session_entry, reassemble_in, target_addr, forward, in_world, attempt,
      session_start, reassemble. run. cbn [fst snd]. rewrite Hnone, Hres.
    rewrite bool_decide_eq_false_2 by done. cbv beta iota. rewrite Hsock. cbn [fst snd]. rewrite Hc1.
    cbn [Z.eqb Pos.eqb fragments fst]. rewrite lookup_insert_eq. cbn [override_remote_write_address send_socket].
    rewrite Hsend, insert_insert_eq. done. }
  exists (<[session_id m1 := s]> ss). rewrite (M_bind_ok _ _ _ _ _ H1).
  unfold handle_message, session_entry, reassemble_in, target_addr, forward, attempt, reassemble. run.
  cbn [fst snd]. rewrite Hsid, lookup_insert_eq, Hc2. cbn [Z.eqb Pos.eqb fragments fst].
  rewrite lookup_insert_eq. cbn [override_remote_write_address send_socket s].
  rewrite insert_insert_eq. by destruct (send_to sock (payload_fragment m2) a w3) as [[]].
Qed.

(** To [a:80] first, then to [127.0.0.1:53]. *)
Lemma session_pinned_to_first_target_witness :
  sent ((handle_message 0 (demo_msg 5 0 1 [x03]) ;;
    handle_message 1 (MkMsg 7 6 0 1 [x04] (NetLoc (Addr_Ipv4 (Ipv4 (127 * 2 ^ 24 + 1))) 53)))
    (∅ : gmap Z (UdpSession (C := MapLru Z FragmentedPacket)), MkLog 0 [] [])).2.2 =
  [(0%nat, [x04], demo_target); (0%nat, [x03], demo_target)].
Proof.
  edestruct (session_pinned_to_first_target (C := MapLru Z FragmentedPacket) (W := UdpLog) ∅
    (MkLog 0 [] []) (MkLog 0 [] []) (MkLog 1 [] []) (MkLog 1 [(0%nat, [x03], demo_target)] [])
    (demo_msg 5 0 1 [x03]) (MkMsg 7 6 0 1 [x04] (NetLoc (Addr_Ipv4 (Ipv4 (127 * 2 ^ 24 + 1))) 53)) 0 1
    demo_target 0) as [ss' Hss].
  1-3: reflexivity.
  - apply lookup_empty.
  - reflexivity.
  - vm_compute. discriminate.
  - reflexivity.
  - reflexivity.
  - rewrite Hss. reflexivity.
Defined.
