(* ===== verification/Hysteria2UdpRelay.v ===== *)
(** * The UDP sessions of a Hysteria2 connection, end to end

    What the two loops of [Hysteria2Udp] do with whole packets: what a remote sends
    to a session's socket reaches the client, and what the client sends in a
    session leaves on its socket. *)

From Stdlib Require Import String.
From S2P Require Import Prelude RustStd Address AsyncStream StreamReader Varint LruCache Hysteria2Udp.

(** ** Texts of socket addresses *)

Lemma Forall_join (P : byte → Prop) sep ps : Forall P sep → Forall (Forall P) ps → Forall P (join sep ps).
Proof.
  intros Hs. induction ps as [|p ps IH]; intros Hp; [constructor|]. inversion Hp; subst.
  destruct ps; [done|]. cbn [join]. rewrite !Forall_app. auto.
Qed.

Lemma length_join c n ps : Forall (fun p => length p ≤ n)%nat ps → (length (join [c] ps) ≤ S n * length ps)%nat.
Proof.
  induction ps as [|p ps IH]; intros Hp; [cbn; lia|]. inversion Hp; subst.
  destruct ps as [|q ps]; [cbn; lia|]. specialize (IH ltac:(done)). cbn [join] in *.
  rewrite !length_app. cbn [length] in *. lia.
Qed.

Abbreviation ascii := (Forall (fun b => b2z b < 128)).

Lemma digits_ascii s : Forall (fun b => is_ascii_digit b = true) s → ascii s.
Proof. intros Hs. eapply Forall_impl; [exact Hs|]. intros b. destruct b; vm_compute; congruence. Qed.

Lemma hex_ascii s : Forall (fun b => hex_or_digit b = true) s → ascii s.
Proof. intros Hs. eapply Forall_impl; [exact Hs|]. intros b. destruct b; vm_compute; congruence. Qed.

Lemma dec_ascii z : 0 ≤ z → ascii (dec z).
Proof. intros Hz. by apply digits_ascii, dec_fuel_digits. Qed.

Lemma length_dec z : (length (dec z) ≤ 20)%nat.
Proof.
  unfold dec. generalize 20%nat as f. intros f. revert z. induction f as [|f IH]; intros z; [done|].
  cbn [dec_fuel]. destruct (z <? 10); [cbn; lia|]. rewrite length_app. specialize (IH (z / 10)). cbn [length]. lia.
Qed.

Lemma length_hex16 z : (length (hex16 z) ≤ 4)%nat.
Proof.
  unfold hex16. generalize 4%nat as f. intros f. revert z. induction f as [|f IH]; intros z; [done|].
  cbn [hex_fuel]. destruct (z <? 16); [cbn; lia|]. rewrite length_app. specialize (IH (z / 16)). cbn [length]. lia.
Qed.

Lemma show_ipv4_ascii a : ascii (show_ipv4 a).
Proof.
  apply Forall_join; [by repeat constructor|]. apply Forall_fmap, Forall_forall. intros b _. cbv beta.
  apply dec_ascii, b2z_range.
Qed.

(** Groups in hexadecimal, between colons. *)
Lemma groups_text gs : Forall (fun g => 0 ≤ g < 65536) gs →
  ascii (join [COLON] (hex16 <$> gs)) ∧ (length (join [COLON] (hex16 <$> gs)) ≤ 5 * length gs)%nat.
Proof.
  intros Hg. split.
  - apply Forall_join; [by repeat constructor|]. apply Forall_fmap. eapply Forall_impl; [exact Hg|].
    intros g Hr. by apply hex_ascii, hex16_digits.
  - rewrite <-(length_fmap hex16). apply length_join. apply Forall_fmap, Forall_forall. intros g _. apply length_hex16.
Qed.

Lemma show_ipv6_text a : ascii (show_ipv6 a) ∧ (length (show_ipv6 a) ≤ 82)%nat.
Proof.
  unfold show_ipv6. cbv zeta. case_bool_decide.
  - rewrite Forall_app, length_app. pose proof (length_show_ipv4 (Ipv4 (Z.land (v6_bits a) (2 ^ 32 - 1)))).
    split; [split; [by repeat constructor|apply show_ipv4_ascii]|change (length (str "::ffff:")) with 7%nat; lia].
  - pose proof (segments6_range a) as Hs. assert (length (segments6 a) = 8%nat) as Hl by done.
    destruct (zero_span _ _ _ _) as [start n].
    destruct (groups_text (take start (segments6 a))) as [H1 H2]; [by apply Forall_take|].
    destruct (groups_text (drop (start + n) (segments6 a))) as [H3 H4]; [by apply Forall_drop|].
    destruct (groups_text _ Hs) as [H5 H6]. rewrite length_take in H2. rewrite length_drop in H4.
    destruct (1 <? n)%nat.
    + rewrite !Forall_app, !length_app. cbn [length]. split; [|lia].
      split_and!; [done|by repeat constructor|done].
    + split; [done|lia].
Qed.

(** The location a socket address is read as: an IPv6 one is a hostname with brackets. *)
Definition src_location (a : SocketAddr) : NetLocation :=
  match a with
  | SocketV4 ip p => NetLoc (Addr_Ipv4 ip) p
  | SocketV6 ip p => NetLoc (Addr_Hostname (str "[" ++ show_ipv6 ip ++ str "]")) p
  end.

Definition socket_addr_wf (a : SocketAddr) : Prop :=
  match a with
  | SocketV4 ip p => ipv4_wf ip ∧ 0 ≤ p < 65536
  | SocketV6 _ p => 0 ≤ p < 65536
  end.

Lemma encode_varint_len (bs : bytes) :
  (length bs ≤ Z.to_nat 2048)%nat → ∃ alen, encode_varint (Z.of_nat (length bs)) = Ok alen ∧ (1 ≤ length alen ≤ 8)%nat.
Proof.
  intros Hl. destruct (encode_varint_spec (Z.of_nat (length bs)) []) as (alen & He & Hr & _); [lia|].
  exists alen. split; [done|lia].
Qed.

Lemma good_address_intro addr loc :
  (1 ≤ length addr ≤ Z.to_nat 2048)%nat → utf8_valid addr = true → netloc_from_str addr None = Ok loc →
  ∃ alen, encode_address addr = Ok (addr, alen) ∧ good_address addr alen loc.
Proof.
  intros Hl Hu Hn. destruct (encode_varint_len addr) as (alen & He & _); [lia|].
  exists alen. unfold encode_address, good_address. rewrite He. done.
Qed.

(** What a session writes for a socket address is understood. *)
Lemma socket_addr_good a : socket_addr_wf a →
  ∃ alen, encode_address (show_socket_addr a) = Ok (show_socket_addr a, alen) ∧
    good_address (show_socket_addr a) alen (src_location a).
Proof.
  intros Ha. assert (ascii (show_socket_addr a) ∧ (1 ≤ length (show_socket_addr a) ≤ 105)%nat ∧
    netloc_from_str (show_socket_addr a) None = Ok (src_location a)) as (Hasc & Hl & Hn).
  { destruct a as [ip p|ip p]; cbn [show_socket_addr socket_addr_wf src_location] in *.
    - destruct Ha as [Hi Hp]. split_and!.
      + rewrite !Forall_app. split_and!; [apply show_ipv4_ascii|by repeat constructor|apply dec_ascii; lia].
      + rewrite !length_app. cbn [length]. lia.
      + rewrite !length_app. cbn [length]. pose proof (length_show_ipv4 ip). pose proof (length_dec p). lia.
      + rewrite netloc_from_str_port by done. pose proof (address_from_show (Addr_Ipv4 ip) Hi) as Hs.
        cbn [show_address] in Hs. by rewrite Hs.
    - destruct (show_ipv6_text ip) as [H1 H2]. split_and!.
      + rewrite !Forall_app. split_and!; [by repeat constructor|done|by repeat constructor|apply dec_ascii; lia].
      + rewrite !length_app. change (length (str "[")) with 1%nat. lia.
      + rewrite !length_app. change (length (str "[")) with 1%nat. change (length (str "]:")) with 2%nat.
        pose proof (length_dec p). lia.
      + replace (str "[" ++ show_ipv6 ip ++ str "]:" ++ dec p)
          with ((str "[" ++ show_ipv6 ip ++ str "]") ++ [COLON] ++ dec p) by by rewrite <-!app_assoc.
        by rewrite netloc_from_str_port by done. }
  apply good_address_intro; [lia|by apply utf8_valid_ascii|done].
Qed.

(** ** Whole packets, one after the other *)

Section Packets.
Context {C : Type} `{LruLaws Z FragmentedPacket C}.

(** A packet as its fragments. *)
Record cut : Set := MkCut { cut_id : Z; cut_frags : list bytes; cut_loc : NetLocation }.
Definition cut_wf (p : cut) : Prop := (1 ≤ length (cut_frags p) ≤ 255)%nat.
Definition cut_messages (sid : Z) (p : cut) : list udp_message :=
  imap (fun i f => MkMsg sid (cut_id p) (Z.of_nat i) (Z.of_nat (length (cut_frags p))) f (cut_loc p)) (cut_frags p).
Definition cut_whole (p : cut) : bytes * NetLocation := (concat (cut_frags p), cut_loc p).

Definition idle_cache (c : C) : Prop := cache_wf c ∧ lru_map c = ∅.

Lemma new_idle : idle_cache (lru_new MAX_FRAGMENT_CACHE_SIZE).
Proof.
  unfold idle_cache, cache_wf. destruct (lru_new_map MAX_FRAGMENT_CACHE_SIZE) as [-> ->]. split; [split; [|apply map_Forall_empty]|done].
  apply Nat.ltb_lt. reflexivity.
Qed.

Lemma cut_carries sid p : Forall2 (carries (cut_id p) (cut_frags p) (cut_loc p)) (cut_messages sid p) (seq 0 (length (cut_frags p))).
Proof.
  apply Forall2_same_length_lookup. unfold cut_messages. split; [by rewrite length_imap, length_seq|].
  intros i m j Hm Hj. apply lookup_seq in Hj as [-> _]. rewrite list_lookup_imap in Hm.
  destruct (cut_frags p !! i) as [f|] eqn:Hf; [|done]. cbn in Hm. simplify_eq. by split_and!.
Qed.

Lemma cut_mine sid p : Forall (fun m => packet_id m = cut_id p ∧ session_id m = sid) (cut_messages sid p).
Proof. unfold cut_messages. apply Forall_lookup. intros i m. rewrite list_lookup_imap.
  destruct (cut_frags p !! i); [|done]. intros ?. by simplify_eq/=. Qed.

Lemma cut_in_range sid p : cut_wf p → Forall in_range (cut_messages sid p).
Proof.
  intros Hp. unfold cut_wf in Hp. apply Forall_lookup. intros i m. unfold cut_messages. rewrite list_lookup_imap.
  destruct (cut_frags p !! i) as [f|] eqn:Hf; [|done]. intros ?. simplify_eq/=. unfold in_range. cbn.
  apply lookup_lt_Some in Hf. lia.
Qed.

Lemma own_results_all pid ms os :
  Forall (fun m => packet_id m = pid) ms → length os = length ms → own_results pid ms os = os.
Proof.
  intros Hm. revert os. induction Hm as [|m ms Hm Hms IH]; intros [|o os] Hl; try done.
  cbn [own_results]. unfold mine. rewrite bool_decide_eq_true_2 by done. f_equal. apply IH. by injection Hl.
Qed.

Lemma reassemble_run_length ms c os c' : reassemble_run ms c = (Ok os, c') → length os = length ms.
Proof.
  revert c os. induction ms as [|m ms IH]; intros c os Hr; cbn [reassemble_run] in Hr.
  - run_in Hr. by injection Hr as <- _.
  - apply M_bind_ok_inv in Hr as (o & c1 & _ & Hr). apply M_bind_ok_inv in Hr as (os' & c2 & Hr & Hq).
    run_in Hq. injection Hq as <- <-. cbn. f_equal. by eapply IH.
Qed.

(** A packet that finds the cache idle completes with its last fragment, and leaves it idle. *)
Lemma reassemble_cut sid p c :
  cut_wf p → idle_cache c →
  ∃ c', reassemble_run (cut_messages sid p) c =
      (Ok (replicate (length (cut_frags p) - 1) None ++ [Some (cut_whole p)]), c') ∧ idle_cache c'.
Proof.
  intros Hp [Hwf Hm]. set (ms := cut_messages sid p).
  pose proof (cut_mine sid p) as Hmine. fold ms in Hmine.
  assert (Forall (fun m => packet_id m = cut_id p) ms) as Hpid by (eapply Forall_impl; [exact Hmine|naive_solver]).
  assert (filter (fun m => mine (cut_id p) m = true) ms = ms) as Hfil.
  { clear -Hpid. induction Hpid as [|m ms Hm _ IH]; [done|].
    rewrite filter_cons, decide_True by (by apply bool_decide_eq_true_2). by rewrite IH. }
  assert (ids ms ⊆ {[cut_id p]}) as Hids.
  { unfold ids. intros k Hk. apply elem_of_list_to_set, list_elem_of_fmap in Hk as (m & -> & Hin).
    apply elem_of_singleton. by eapply Forall_forall in Hpid. }
  destruct (reassemble_run_own (cut_id p) (cut_frags p) (cut_loc p) Hp ms c [] (seq 0 (length (cut_frags p))))
    as (os & c' & Hr & Hown & Hwf' & Hnone & Hk); try done.
  - by apply cut_in_range.
  - unfold fits. rewrite Hm, dom_empty_L, union_empty_l_L. destruct Hwf as [Hpos _].
    etrans; [by apply subseteq_size|]. rewrite size_singleton. lia.
  - rewrite Hfil. apply cut_carries.
  - case_decide as Hz; unfold tracks; rewrite ?decide_True by done; by rewrite Hm, lookup_empty.
  - exists c'. rewrite own_results_all in Hown; [|done|by eapply reassemble_run_length]. subst os.
    unfold expected in Hr. rewrite length_seq in Hr. unfold cut_wf in Hp. destruct (length (cut_frags p)) as [|k]; [lia|].
    replace (S k - 1)%nat with k by lia. split; [done|]. split; [done|].
    apply map_empty. intros k'. destruct (decide (k' = cut_id p)) as [->|Hne]; [done|].
    apply Hk; [set_solver|]. by rewrite Hm, lookup_empty.
Qed.

Lemma reassemble_run_app ms1 ms2 c :
  reassemble_run (ms1 ++ ms2) c = (os1 ← reassemble_run ms1; os2 ← reassemble_run ms2; mret (os1 ++ os2)) c.
Proof.
  revert c. induction ms1 as [|m ms1 IH]; intros c.
  - cbn [app reassemble_run]. run. destruct (reassemble_run ms2 c) as [[]]; done.
  - cbn [app reassemble_run]. rewrite !M_bind_eq. destruct (reassemble m c) as [[o|e|w|] c1]; try done.
    rewrite !M_bind_eq, IH, M_bind_eq. destruct (reassemble_run ms1 c1) as [[os1|e|w|] c2]; try done.
    run. destruct (reassemble_run ms2 c2) as [[]]; done.
Qed.

(** Packets that follow each other come out whole, in order. *)
Lemma reassemble_cuts sid ps c :
  Forall cut_wf ps → idle_cache c →
  ∃ os c', reassemble_run (ps ≫= cut_messages sid) c = (Ok os, c') ∧ omap id os = cut_whole <$> ps ∧ idle_cache c'.
Proof.
  intros Hps. revert c. induction Hps as [|p ps Hp Hps IH]; intros c Hc; [by exists [], c|].
  destruct (reassemble_cut sid p c Hp Hc) as (c1 & E1 & Hc1). destruct (IH c1 Hc1) as (os & c2 & E2 & Hos & Hc2).
  eexists _, c2. rewrite bind_cons, reassemble_run_app, M_bind_eq, E1, M_bind_eq, E2. run. split_and!; [done| |done]. rewrite !omap_app, Hos. cbn [fmap list_fmap].
  assert (∀ n, omap (M := list) id (replicate n (None : option (bytes * NetLocation))) = []) as Hnone
    by (intros n; by induction n). by rewrite Hnone.
Qed.

Lemma cuts_first sid p ps :
  cut_wf p → ∃ rest, (p :: ps) ≫= cut_messages sid =
    MkMsg sid (cut_id p) 0 (Z.of_nat (length (cut_frags p))) (nth 0 (cut_frags p) []) (cut_loc p) :: rest.
Proof.
  intros Hp. rewrite bind_cons. unfold cut_wf in Hp. unfold cut_messages at 1.
  destruct (cut_frags p) as [|f fs]; [cbn in Hp; lia|]. cbn [imap app]. eexists. reflexivity.
Qed.

(** Cut short, they are still the first ones. *)
Lemma reassemble_run_prefix ms1 ms c os c' :
  reassemble_run ms c = (Ok os, c') → ms1 `prefix_of` ms →
  ∃ os1 c1, reassemble_run ms1 c = (Ok os1, c1) ∧ omap id os1 `prefix_of` omap id os.
Proof.
  intros Hr [ms2 ->]. rewrite reassemble_run_app in Hr. apply M_bind_ok_inv in Hr as (os1 & c1 & E1 & Hr).
  apply M_bind_ok_inv in Hr as (os2 & c2 & E2 & Hr). run_in Hr. injection Hr as <- <-.
  exists os1, c1. split; [done|]. rewrite omap_app. by apply prefix_app_r.
Qed.
End Packets.

(** ** From the remote to the client *)

Definition parses (d : bytes) (m : udp_message) : Prop := parse_datagram d = Ok (Some m).

(** What [send_datagram] promises: [dg_sent] is what has been sent. *)
Class DatagramConnLaws (Q : Type) `{DatagramConnection Q} : Type := {
  dg_sent : Q → list bytes;
  send_datagram_law d q r q' : send_datagram d q = (r, q') →
    match r with
    | Ok _ => dg_sent q' = dg_sent q ++ [d]
    | Err _ => dg_sent q' = dg_sent q
    | _ => False
    end }.

(** What the socket delivers before it fails or the session is cancelled. *)
Fixpoint arrived (es : list socket_event) : list (bytes * SocketAddr) :=
  match es with
  | Received payload src_addr :: es' => (payload, src_addr) :: arrived es'
  | _ => []
  end.

(** The location a packet is sent with, and its text. *)
Definition label (ov : option NetLocation) (a : SocketAddr) : NetLocation := default (src_location a) ov.
Definition label_text (ov : option NetLocation) (a : SocketAddr) : bytes :=
  match ov with Some l => show_netloc l | None => show_socket_addr a end.
Definition labelled (ov : option NetLocation) (p : bytes * SocketAddr) : bytes * NetLocation := (p.1, label ov p.2).

Definition location_sendable (l : NetLocation) : Prop :=
  address_wf (nl_address l) ∧ 0 ≤ nl_port l < 65536 ∧
  utf8_valid (show_netloc l) = true ∧ (length (show_netloc l) ≤ Z.to_nat 2048)%nat.

(** A packet the loop can send: its header fits in a datagram, and 255 are enough. *)
Definition sendable (max : Z) (ov : option NetLocation) (p : bytes * SocketAddr) : Prop :=
  socket_addr_wf p.2 ∧
  ∀ alen, encode_varint (Z.of_nat (length (label_text ov p.2))) = Ok alen →
    let over := 8 + Z.of_nat (length alen) + Z.of_nat (length (label_text ov p.2)) in
    over < max ∧ div_ceil (Z.of_nat (length p.1)) (max - over) ≤ 255.

Lemma location_good l : location_sendable l →
  ∃ alen, encode_address (show_netloc l) = Ok (show_netloc l, alen) ∧ good_address (show_netloc l) alen l.
Proof.
  intros (Ha & Hp & Hu & Hl). apply good_address_intro; [|done|].
  - split; [|done]. unfold show_netloc. rewrite !length_app. cbn [length]. lia.
  - unfold show_netloc. rewrite netloc_from_str_port by done. rewrite address_from_show by done. by destruct l.
Qed.

Lemma label_good ov a :
  (∀ l, ov = Some l → location_sendable l) → socket_addr_wf a →
  ∃ alen, encode_address (label_text ov a) = Ok (label_text ov a, alen) ∧ good_address (label_text ov a) alen (label ov a).
Proof. intros Hov Ha. destruct ov as [l|]; [by apply location_good, Hov|by apply socket_addr_good]. Qed.

(** The datagrams of a packet are the messages of its fragments. *)
Lemma fragments_cut max sid pid alen addr payload loc :
  0 ≤ sid < 2 ^ 32 → 0 ≤ pid < 2 ^ 16 → good_address addr alen loc →
  let over := 8 + Z.of_nat (length alen) + Z.of_nat (length addr) in
  over < max → div_ceil (Z.of_nat (length payload)) (max - over) ≤ 255 →
  ∃ ds p, packet_fragments max sid pid alen addr payload = Ok ds ∧ cut_wf p ∧ cut_whole p = (payload, loc) ∧
    Forall2 parses ds (cut_messages sid p) ∧ Forall (fun d => Z.of_nat (length d) ≤ max) ds.
Proof.
  intros Hs Hp Ha over Ho Hd. assert (∃ ds, packet_fragments max sid pid alen addr payload = Ok ds) as [ds Hds].
  { unfold packet_fragments. cbv zeta. fold over. rewrite (proj2 (Z.ltb_lt _ _) Ho). cbn [negb].
    destruct (_ <=? _); by eexists. }
  destruct (packet_fragments_spec _ _ _ _ _ _ _ Hds Hd) as (frs & Hn & Hcat & -> & Hsize).
  eexists _, (MkCut pid frs loc). split; [exact Hds|]. split_and!; [done|by unfold cut_whole; rewrite <-Hcat| |done].
  unfold cut_messages. cbn [cut_id cut_frags cut_loc]. apply Forall2_same_length_lookup.
  split; [by rewrite !length_imap|]. intros i d m. rewrite !list_lookup_imap.
  destruct (frs !! i) as [f|] eqn:Hf; [|done]. cbn. intros [= <-] [= <-]. apply lookup_lt_Some in Hf.
  apply parse_datagram_datagram; [done..|lia|lia|done].
Qed.

Section Replies.
Context {Q : Type} `{DatagramConnLaws Q}.

Definition send_failure (e : io_error) : Prop := ∃ msg, e = IoError Other (str "Failed to send datagram: " ++ msg).

(** Datagrams are sent in order, until one fails. *)
Lemma send_datagrams_spec ds q r q' :
  send_datagrams ds q = (r, q') →
  ∃ ds0, ds0 `prefix_of` ds ∧ dg_sent q' = dg_sent q ++ ds0 ∧
    match r with Ok _ => ds0 = ds | Err e => send_failure e | _ => False end.
Proof.
  revert q. induction ds as [|d ds IH]; intros q Hr; cbn [send_datagrams] in Hr.
  { run_in Hr. injection Hr as <- <-. exists []. by rewrite app_nil_r. }
  rewrite M_bind_eq in Hr. unfold send_one at 1 in Hr. destruct (send_datagram d q) as [r1 q1] eqn:E1.
  apply send_datagram_law in E1. destruct r1 as [[]|e|w|]; try done; cbn [map_err] in Hr.
  - destruct (IH _ Hr) as (ds0 & Hpre & Hsent & Hout). exists (d :: ds0). split_and!; [by apply prefix_cons| |].
    + by rewrite Hsent, E1, <-app_assoc.
    + destruct r; [by subst|done..].
  - injection Hr as <- <-. exists []. rewrite app_nil_r. split_and!; [apply prefix_nil|done|by eexists].
Qed.

Context (max sid : Z) (ov : option NetLocation) (original : option (bytes * bytes)).
Hypothesis Hsid : 0 ≤ sid < 2 ^ 32.
Hypothesis Hov : ∀ l, ov = Some l → location_sendable l.
Hypothesis Horig : match ov with
  | Some l => ∃ alen, encode_address (show_netloc l) = Ok (show_netloc l, alen) ∧ original = Some (show_netloc l, alen)
  | None => original = None
  end.

(** One packet from the socket is the datagrams of one cut. *)
Lemma remote_packet_spec pid payload a q r q' :
  0 ≤ pid < 2 ^ 16 → sendable max ov (payload, a) →
  remote_packet max sid pid original payload a q = (r, q') →
  ∃ p ds ds0, cut_wf p ∧ cut_whole p = labelled ov (payload, a) ∧ Forall2 parses ds (cut_messages sid p) ∧
    Forall (fun d => Z.of_nat (length d) ≤ max) ds ∧ ds0 `prefix_of` ds ∧ dg_sent q' = dg_sent q ++ ds0 ∧
    match r with Ok _ => ds0 = ds | Err e => send_failure e | _ => False end.
Proof.
  intros Hpid [Ha Hfit] Hr. cbn [fst snd] in *.
  destruct (label_good ov a Hov Ha) as (alen & He & Hgood).
  pose proof Hgood as (_ & _ & _ & Hlen). destruct (Hfit _ Hlen) as [Ho Hd].
  destruct (fragments_cut max sid pid alen (label_text ov a) payload (label ov a) Hsid Hpid Hgood Ho Hd)
    as (ds & p & Hds & Hp & Hw & Hparse & Hsize).
  unfold remote_packet in Hr. rewrite M_bind_eq in Hr. unfold lift at 1 in Hr.
  assert (match original with Some ab => Ok ab | None => encode_address (show_socket_addr a) end =
    Ok (label_text ov a, alen)) as Hab.
  { destruct ov as [l|]; cbn [label_text] in *; [|by rewrite Horig].
    destruct Horig as (alen' & He' & ->). congruence. }
  rewrite Hab in Hr. cbv beta iota in Hr. rewrite M_bind_eq in Hr. unfold lift at 1 in Hr. rewrite Hds in Hr.
  apply send_datagrams_spec in Hr as (ds0 & ? & ? & ?). exists p, ds, ds0. by split_and!.
Qed.

Lemma wrap16_range z : 0 ≤ wrap 16 z < 2 ^ 16.
Proof. unfold wrap. apply Z.mod_pos_bound. lia. Qed.

Lemma remote_loop_spec es pid q r q' :
  0 ≤ pid < 2 ^ 16 → Forall (sendable max ov) (arrived es) →
  remote_loop max sid pid original es q = (r, q') →
  ∃ ps ds ds0, Forall cut_wf ps ∧ cut_whole <$> ps `prefix_of` labelled ov <$> arrived es ∧
    Forall2 parses ds (ps ≫= cut_messages sid) ∧ Forall (fun d => Z.of_nat (length d) ≤ max) ds ∧
    ds0 `prefix_of` ds ∧ dg_sent q' = dg_sent q ++ ds0 ∧
    (ds0 = ds ∧ cut_whole <$> ps = labelled ov <$> arrived es ∧
       (r = Ok tt ∨ r = Err (io_err Other "failed to receive from UDP socket")) ∨
     ∃ e, r = Err e ∧ send_failure e).
Proof.
  revert pid q. induction es as [|[payload a| |] es IH]; intros pid q Hpid Hall Hr; cbn [remote_loop arrived] in *.
  1,3,4: run_in Hr; injection Hr as <- <-; exists [], [], []; rewrite app_nil_r; split_and!; (done || left; auto).
  inversion Hall as [|? ? Hone Hrest]; subst. rewrite M_bind_eq in Hr.
  destruct (remote_packet _ _ _ _ _ _ q) as [r1 q1] eqn:E1.
  destruct (remote_packet_spec _ _ _ _ _ _ Hpid Hone E1) as (p & d1 & d0 & Hp & Hw & Hpar & Hsz & Hpre & Hsent & Hout).
  destruct r1 as [[]|e|w|]; try done.
  - subst d0. destruct (IH _ _ (wrap16_range _) Hrest Hr) as (ps & ds & ds0 & Hps & Hws & Hpars & Hszs & Hpres & Hsents & Houts).
    exists (p :: ps), (d1 ++ ds), (d1 ++ ds0). rewrite bind_cons. cbn [fmap list_fmap]. rewrite Hw. split_and!.
    + by constructor.
    + by apply prefix_cons.
    + by apply Forall2_app.
    + by apply Forall_app.
    + by apply prefix_app.
    + by rewrite Hsents, Hsent, app_assoc.
    + destruct Houts as [(-> & <- & Hres)|?]; auto.
  - injection Hr as <- <-. exists [p], d1, d0. rewrite bind_cons, app_nil_r. cbn [fmap list_fmap]. rewrite Hw.
    split_and!; [by apply Forall_singleton|by apply prefix_cons, prefix_nil|done..|eauto].
Qed.
End Replies.

(** The loop starts with the packet number 0. *)
Lemma remote_to_local_runs {Q : Type} `{DatagramConnection Q} max sid ov es (q : Q) x :
  max_datagram_size q = Some max → (∀ l, ov = Some l → location_sendable l) →
  run_udp_remote_to_local_loop sid ov es q = x →
  ∃ original, match ov with
    | Some l => ∃ alen, encode_address (show_netloc l) = Ok (show_netloc l, alen) ∧ original = Some (show_netloc l, alen)
    | None => original = None
    end ∧ remote_loop max sid 0 original es q = x.
Proof.
  intros Hmax Hov Hr. unfold run_udp_remote_to_local_loop in Hr. rewrite M_bind_eq in Hr. unfold get at 1 in Hr.
  rewrite M_bind_eq in Hr. unfold lift at 1 in Hr. rewrite Hmax in Hr. cbn [ok_or] in Hr.
  rewrite M_bind_eq in Hr. unfold lift at 1 in Hr. destruct ov as [l|]; [|by exists None].
  destruct (location_good l (Hov _ eq_refl)) as (alen & He & _). rewrite He in Hr. cbn in Hr. eauto.
Qed.

(** ** From the client to the remote *)

(** A resolver that answers, and sockets that can be opened and take what is sent:
    [uw_sent] is what was sent, [uw_socks] the sockets opened. *)
Class UdpWorldLaws (W : Type) `{UdpWorld W} : Type := {
  names : NetLocation → SocketAddr;
  uw_sent : W → list (nat * (bytes * SocketAddr));
  uw_socks : W → list nat;
  resolve_location_law loc w : ∃ w', resolve_location loc w = (Ok (names loc), w') ∧
    uw_sent w' = uw_sent w ∧ uw_socks w' = uw_socks w;
  new_udp_socket_law w : ∃ sock w', new_udp_socket true w = (Ok sock, w') ∧ sock ∉ uw_socks w ∧
    uw_socks w' = uw_socks w ++ [sock] ∧ uw_sent w' = uw_sent w;
  spawn_law sid sock ov w :
    uw_sent (spawn_remote_to_local sid sock ov w) = uw_sent w ∧
    uw_socks (spawn_remote_to_local sid sock ov w) = uw_socks w;
  send_to_law sock payload addr w : ∃ w', send_to sock payload addr w = (Ok tt, w') ∧
    uw_sent w' = uw_sent w ++ [(sock, (payload, addr))] ∧ uw_socks w' = uw_socks w }.

Section Requests.
Context {C : Type} `{!Lru Z FragmentedPacket C} `{!LruLaws Z FragmentedPacket C} {W : Type} `{UdpWorldLaws W}.
Abbreviation table := (gmap Z (UdpSession (C := C))).
Implicit Types (ss : table) (w : W) (hist : list udp_message).

(** What was sent on a socket. *)
Definition sent_on (sock : nat) (w : W) : list (bytes * SocketAddr) :=
  (filter (fun x => x.1 = sock) (uw_sent w)).*2.

(** Where a packet goes, in a session whose first message was for [l0]: a session opened
    by name stays with the address of that name. *)
Definition pinned (l0 : NetLocation) : bool := negb (bool_decide (show_socket_addr (names l0) = show_netloc l0)).
Definition routed (l0 : NetLocation) (p : bytes * NetLocation) : bytes * SocketAddr :=
  (p.1, names (if pinned l0 then l0 else p.2)).

Definition own (sid : Z) hist : list udp_message := filter (fun m => session_id m = sid) hist.

(** A session after the messages [ms], the first of them for [l0]. *)
Record session_inv (t0 : Z) (l0 : NetLocation) (ms : list udp_message) (s : UdpSession (C := C)) w : Prop := {
  si_run : ∃ os, reassemble_run ms (lru_new MAX_FRAGMENT_CACHE_SIZE) = (Ok os, fragments s) ∧
             sent_on (send_socket s) w = routed l0 <$> omap id os;
  si_wf : cache_wf (fragments s);
  si_override : override_remote_write_address s = if pinned l0 then Some (names l0) else None;
  si_last : last_socket_addr s = names (last_location s);
  si_open : send_socket s ∈ uw_socks w;
  si_started : t0 ≤ last_activity s }.

Definition first_location (ms : list udp_message) : option NetLocation := um_location <$> head ms.

Definition known (t0 : Z) hist ss w : Prop := ∀ sid,
  match ss !! sid with
  | None => own sid hist = []
  | Some s => ∃ l0, first_location (own sid hist) = Some l0 ∧ session_inv t0 l0 (own sid hist) s w
  end.

Definition apart ss : Prop :=
  ∀ sid1 sid2 s1 s2, ss !! sid1 = Some s1 → ss !! sid2 = Some s2 → send_socket s1 = send_socket s2 → sid1 = sid2.

Definition accounted_for w : Prop := Forall (fun x => x.1 ∈ uw_socks w) (uw_sent w).

Record table_inv (t0 : Z) hist ss w : Prop := {
  ti_known : known t0 hist ss w; ti_apart : apart ss; ti_sent : accounted_for w }.

Lemma sent_on_fresh sock w : accounted_for w → sock ∉ uw_socks w → sent_on sock w = [].
Proof.
  intros Ha Hs. unfold sent_on. assert (filter (fun x => x.1 = sock) (uw_sent w) = []) as ->; [|done].
  induction Ha as [|x l Hx _ IH]; [done|]. rewrite filter_cons, decide_False, IH; [done|]. congruence.
Qed.

Lemma sent_on_snoc sock sock' p w w' :
  uw_sent w' = uw_sent w ++ [(sock', p)] →
  sent_on sock w' = if decide (sock' = sock) then sent_on sock w ++ [p] else sent_on sock w.
Proof.
  intros Hw. unfold sent_on. rewrite Hw, filter_app, fmap_app, filter_cons. cbn [fst].
  case_decide; [done|]. by rewrite filter_nil, app_nil_r.
Qed.

Lemma session_inv_world t0 l0 ms s w w' :
  session_inv t0 l0 ms s w → sent_on (send_socket s) w' = sent_on (send_socket s) w →
  uw_socks w ⊆ uw_socks w' → session_inv t0 l0 ms s w'.
Proof. intros [Hr ? ? ? Ho ?] Hs Hsub. split; try done; [by rewrite Hs|by apply Hsub]. Qed.

Lemma own_app sid h1 h2 : own sid (h1 ++ h2) = own sid h1 ++ own sid h2.
Proof. apply filter_app. Qed.

Lemma own_snoc sid hist m : own sid (hist ++ [m]) = if decide (session_id m = sid) then own sid hist ++ [m] else own sid hist.
Proof.
  rewrite own_app. unfold own at 2. rewrite filter_cons, filter_nil. case_decide; [done|]. by rewrite app_nil_r.
Qed.

Lemma reassemble_run_snoc ms m (c c1 c2 : C) os o :
  reassemble_run ms c = (Ok os, c1) → reassemble m c1 = (Ok o, c2) →
  reassemble_run (ms ++ [m]) c = (Ok (os ++ [o]), c2).
Proof.
  intros E1 E2. rewrite reassemble_run_app, M_bind_eq, E1, M_bind_eq. cbn [reassemble_run].
  by rewrite M_bind_eq, E2.
Qed.

Lemma first_location_snoc ms m l0 : first_location ms = Some l0 → first_location (ms ++ [m]) = Some l0.
Proof. by destruct ms. Qed.

(** The session of a message, opened when there is none. *)
Lemma session_entry_inv t0 hist ss w now m :
  table_inv t0 hist ss w → t0 ≤ now →
  ∃ s ss1 w1 l0, session_entry now m (ss, w) = (Ok (Some s), (ss1, w1)) ∧ ss1 = <[session_id m := s]> ss ∧
    first_location (own (session_id m) hist ++ [m]) = Some l0 ∧ session_inv t0 l0 (own (session_id m) hist) s w1 ∧
    uw_sent w1 = uw_sent w ∧ uw_socks w ⊆ uw_socks w1 ∧ apart ss1 ∧ accounted_for w1.
Proof.
  intros [Hk Ha Hs] Hnow. pose proof (Hk (session_id m)) as Hm. unfold session_entry.
  rewrite M_bind_eq. unfold get at 1. cbn [fst]. destruct (ss !! session_id m) as [s|] eqn:E.
  { destruct Hm as (l0 & Hf & Hi). exists s, ss, w, l0. rewrite insert_id by done.
    split_and!; [done|done|by apply first_location_snoc|done..]. }
  destruct (resolve_location_law (um_location m) w) as (w1 & E1 & Hs1 & Ho1).
  destruct (new_udp_socket_law w1) as (sock & w2 & E2 & Hfresh & Ho2 & Hs2).
  rewrite M_bind_eq. unfold attempt at 1. rewrite E1. cbv beta iota.
  set (pin := bool_decide (show_socket_addr (names (um_location m)) = show_netloc (um_location m))).
  set (ov := if pin then None else Some (um_location m)).
  set (s := MkSession (C := C) (lru_new MAX_FRAGMENT_CACHE_SIZE) sock (um_location m) (names (um_location m))
    (if pin then None else Some (names (um_location m))) now).
  set (w3 := spawn_remote_to_local (session_id m) sock ov w2).
  destruct (spawn_law (session_id m) sock ov w2) as [Hs3 Ho3]. fold w3 in Hs3, Ho3.
  assert (uw_sent w3 = uw_sent w) as Hsent by congruence.
  assert (uw_socks w3 = uw_socks w ++ [sock]) as Hsocks by congruence. rewrite Ho1 in Hfresh.
  assert (accounted_for w3) as Hacc.
  { unfold accounted_for. rewrite Hsent, Hsocks. eapply Forall_impl; [exact Hs|]. set_solver. }
  exists s, (<[session_id m := s]> ss), w3, (um_location m). rewrite Hm. split_and!; try done.
  - destruct pin; cbv beta iota; rewrite M_bind_eq; unfold in_world at 1; rewrite E2; cbv beta iota;
      rewrite M_bind_eq; done.
  - split; cbn [fragments override_remote_write_address last_socket_addr last_location send_socket last_activity s];
      [|apply new_idle|unfold pinned; fold pin; by destruct pin|done| |done].
    + exists []. split; [done|]. unfold sent_on. rewrite Hsent. fold (sent_on sock w). by rewrite sent_on_fresh.
    + rewrite Hsocks. set_solver.
  - rewrite Hsocks. set_solver.
  - assert (∀ k s', ss !! k = Some s' → send_socket s' ≠ sock) as Hother.
    { intros k s' Hk' Heq. pose proof (Hk k) as Hx. rewrite Hk' in Hx. destruct Hx as (l0 & _ & [_ _ _ _ Ho _]). by rewrite Heq in Ho. }
    intros k1 k2 s1 s2 H1' H2' Heq. apply lookup_insert_Some in H1' as [[<- <-]|[? H1']];
      apply lookup_insert_Some in H2' as [[<- <-]|[? H2']]; [done|..].
    + by destruct (Hother _ _ H2').
    + by destruct (Hother _ _ H1').
    + by eapply Ha.
Qed.

(** The session with another last location. *)
Definition moved (s : UdpSession (C := C)) (loc : NetLocation) : UdpSession (C := C) :=
  MkSession (fragments s) (send_socket s) loc (names loc) (override_remote_write_address s) (last_activity s).

Lemma routed_target l0 s w sid loc ss :
  override_remote_write_address s = (if pinned l0 then Some (names l0) else None) →
  last_socket_addr s = names (last_location s) → ss !! sid = Some s →
  ∃ loc' w', target_addr sid loc s (ss, w) =
      (Ok (Some (names (if pinned l0 then l0 else loc))), (<[sid := moved s loc']> ss, w')) ∧
    uw_sent w' = uw_sent w ∧ uw_socks w' = uw_socks w.
Proof.
  intros Ho Hl Hs. assert (<[sid := moved s (last_location s)]> ss = ss) as Hsame.
  { apply insert_id. rewrite Hs. f_equal. destruct s. unfold moved. cbn in *. by subst. }
  unfold target_addr. rewrite Ho. destruct (pinned l0) eqn:Hpin.
  { exists (last_location s), w. by rewrite Hsame. }
  destruct (decide (loc = last_location s)) as [->|Hne].
  { exists (last_location s), w. rewrite Hsame. by rewrite <-Hl. }
  destruct (resolve_location_law loc w) as (w1 & E1 & Hs1 & Ho1).
  rewrite M_bind_eq. unfold attempt. rewrite E1. cbv beta iota. exists loc, w1. unfold moved. by rewrite Ho.
Qed.

(** A message's session is put back, with what it has sent since. *)
Lemma table_inv_put t0 hist ss w w1 m s l0 s' w' :
  known t0 hist ss w → uw_sent w1 = uw_sent w → uw_socks w ⊆ uw_socks w1 → apart (<[session_id m := s]> ss) →
  first_location (own (session_id m) hist ++ [m]) = Some l0 →
  send_socket s' = send_socket s → session_inv t0 l0 (own (session_id m) hist ++ [m]) s' w' →
  (∀ sock, sock ≠ send_socket s → sent_on sock w' = sent_on sock w1) → uw_socks w' = uw_socks w1 →
  accounted_for w' → table_inv t0 (hist ++ [m]) (<[session_id m := s']> ss) w'.
Proof.
  set (sid := session_id m). intros Hk Hsent Hsub Hap Hf Hsock Hs' Hoth Hsame Hacc'. split; [| |done].
  - intros k. rewrite own_snoc. fold sid. destruct (decide (sid = k)) as [<-|Hne].
    + rewrite lookup_insert_eq. eauto.
    + rewrite lookup_insert_ne by done. pose proof (Hk k) as Hkk. destruct (ss !! k) as [sk|] eqn:Ek; [|done].
      destruct Hkk as (lk & Hfk & Hik). exists lk. split; [done|]. eapply session_inv_world; [done| |by rewrite Hsame].
      rewrite Hoth; [by unfold sent_on; rewrite Hsent|]. intros Heq. apply Hne.
      eapply (Hap sid k s sk); [apply lookup_insert_eq|by rewrite lookup_insert_ne|done].
  - intros k1 k2 x1 x2 H1 H2 Heq.
    apply (Hap k1 k2 (if decide (k1 = sid) then s else x1) (if decide (k2 = sid) then s else x2)).
    + case_decide; subst; [apply lookup_insert_eq|]. by rewrite lookup_insert_ne in * by done.
    + case_decide; subst; [apply lookup_insert_eq|]. by rewrite lookup_insert_ne in * by done.
    + do 2 case_decide; subst; rewrite ?lookup_insert_eq in *; simplify_eq; congruence.
Qed.

Lemma handle_message_inv t0 hist ss w now m :
  table_inv t0 hist ss w → t0 ≤ now → in_range m →
  ∃ ss' w', handle_message now m (ss, w) = (Ok tt, (ss', w')) ∧ table_inv t0 (hist ++ [m]) ss' w'.
Proof.
  intros Hinv Hnow Hm.
  destruct (session_entry_inv _ _ _ _ now m Hinv Hnow) as (s & ss1 & w1 & l0 & E & -> & Hf & Hi & Hsent & Hsub & Hap & Hacc).
  destruct Hinv as [Hk _ _]. unfold handle_message. rewrite M_bind_eq, E, M_bind_eq. unfold reassemble_in.
  destruct (reassemble_total m (fragments s) (si_wf _ _ _ _ _ Hi) Hm) as (o & c' & Er & Hwf' & _). rewrite Er.
  set (s1 := MkSession c' _ _ _ _ _). set (sid := session_id m) in *. rewrite insert_insert_eq.
  pose proof (fun s' w' => table_inv_put t0 hist ss w w1 m s l0 s' w' Hk Hsent Hsub Hap Hf) as Hput. fold sid in Hput.
  pose proof Hi as [(os & Hrun & Hon) _ Hov Hlast Hopen Hst].
  pose proof (reassemble_run_snoc _ _ _ _ _ _ _ Hrun Er) as Hrun'.
  destruct o as [[payload loc]|].
  2: { run. exists (<[sid := s1]> ss), w1. split; [done|]. apply Hput; try done. split; try done.
       exists (os ++ [None]). split; [done|]. by rewrite omap_app, app_nil_r. }
  rewrite M_bind_eq. unfold get at 1. cbn [fst]. rewrite lookup_insert_eq, M_bind_eq.
  destruct (routed_target l0 s1 w1 sid loc (<[sid := s1]> ss) Hov Hlast (lookup_insert_eq _ _ _))
    as (loc' & w2 & E2 & Hs2 & Ho2). rewrite E2, insert_insert_eq. cbv beta iota. unfold forward. rewrite M_bind_eq.
  unfold attempt. set (addr := names (if pinned l0 then l0 else loc)) in *.
  destruct (send_to_law (send_socket s1) payload addr w2) as (w3 & E3 & Hs3 & Ho3). rewrite E3. run.
  assert (uw_sent w3 = uw_sent w1 ++ [(send_socket s, (payload, addr))]) as Hs by (by rewrite Hs3, Hs2).
  exists (<[sid := moved s1 loc']> ss), w3. split; [done|]. apply Hput; try done.
  - split; try done; [|by rewrite Ho3, Ho2].
    exists (os ++ [Some (payload, loc)]). split; [done|]. rewrite omap_app, fmap_app.
    change (send_socket (moved s1 loc')) with (send_socket s). rewrite (sent_on_snoc _ _ _ _ _ Hs), decide_True by done.
    by rewrite Hon.
  - intros sock Hne. by rewrite (sent_on_snoc _ _ _ _ _ Hs), decide_False.
  - by rewrite Ho3.
  - unfold accounted_for. rewrite Hs, Ho3, Ho2. apply Forall_app. split; [done|]. by apply Forall_singleton.
Qed.

(** No session is dropped before it is a minute old. *)
Lemma retain_young now ss w :
  (∀ k s, ss !! k = Some s → expired now s = false) → retain_sessions now (ss, w) = (Ok tt, (ss, w)).
Proof.
  intros Hy. unfold retain_sessions, modify. do 2 f_equal.
  - apply map_filter_id. intros k s Hk. by apply (Hy k).
  - revert Hy. apply (map_fold_weak_ind (fun r ss => (∀ k s, ss !! k = Some s → expired now s = false) → r = w)); [done|].
    intros k s ss' r Hk IH Hy. rewrite (Hy k s) by apply lookup_insert_eq. apply IH.
    intros k' s' Hk'. apply (Hy k'). rewrite lookup_insert_ne by congruence. done.
Qed.

(** The messages of the datagrams that parse. *)
Definition parsed (t : turn) : option udp_message :=
  match parse_datagram (data t) with Ok m => m | _ => None end.

(** Within the first minute, and without a datagram that makes the parser panic. *)
Record turn_ok (t0 : Z) (t : turn) : Prop := {
  to_parse : is_ok (parse_datagram (data t)) = true;
  to_now : t0 ≤ now t ≤ t0 + IDLE_TIMEOUT;
  to_later : t0 ≤ later t;
  to_range : ∀ m, parsed t = Some m → in_range m }.

Lemma udp_turn_inv t0 hist ss w lc t :
  table_inv t0 hist ss w → turn_ok t0 t →
  ∃ lc' ss' w', udp_turn lc t (ss, w) = (Ok lc', (ss', w')) ∧ table_inv t0 (hist ++ option_list (parsed t)) ss' w'.
Proof.
  intros Hinv [Hp Hn Hl Hr]. unfold udp_turn.
  set (lc' := if CLEANUP_INTERVAL <? now t - lc then now t else lc).
  assert ((if CLEANUP_INTERVAL <? now t - lc then retain_sessions (now t) ;; mret (now t) else mret lc) (ss, w) =
    (Ok lc', (ss, w))) as ->%(M_bind_ok _ _ (ss, w)).
  { unfold lc'. destruct (_ <? _); [|done]. rewrite M_bind_eq, retain_young; [done|].
    intros k s Hk. destruct Hinv as [Hkn _ _]. specialize (Hkn k). rewrite Hk in Hkn. destruct Hkn as (l0 & _ & Hi).
    pose proof (si_started _ _ _ _ _ Hi). unfold expired. apply Z.ltb_ge. unfold IDLE_TIMEOUT in *. lia. }
  unfold parsed in *. rewrite M_bind_eq. unfold lift.
  destruct (parse_datagram (data t)) as [[m|]| | |]; try done; cbn [option_list].
  - destruct (handle_message_inv t0 hist ss w (later t) m Hinv Hl (Hr m eq_refl)) as (ss' & w' & E & Hinv').
    exists lc', ss', w'. by rewrite M_bind_eq, E.
  - exists lc', ss, w. by rewrite app_nil_r.
Qed.

Lemma client_loop_inv t0 ts hist ss w lc :
  table_inv t0 hist ss w → Forall (turn_ok t0) ts →
  ∃ ss' w', run_udp_local_to_remote_loop lc ts (ss, w) = (Err (io_err Other "failed to read datagram"), (ss', w')) ∧
    table_inv t0 (hist ++ omap parsed ts) ss' w'.
Proof.
  intros Hinv Hts. revert hist ss w lc Hinv. induction Hts as [|t ts Ht Hts IH]; intros hist ss w lc Hinv.
  - exists ss, w. by rewrite app_nil_r.
  - destruct (udp_turn_inv t0 hist ss w lc t Hinv Ht) as (lc' & ss1 & w1 & E1 & H1).
    destruct (IH _ _ _ lc' H1) as (ss2 & w2 & E2 & H2). exists ss2, w2. cbn [run_udp_local_to_remote_loop].
    rewrite M_bind_eq, E1. split; [done|]. rewrite <-app_assoc in H2. cbn [omap list_omap].
    by destruct (parsed t).
Qed.

Lemma table_inv_empty t0 w : accounted_for w → table_inv t0 [] ∅ w.
Proof.
  intros Ha. split; [|intros ? ? ? ?; by rewrite lookup_empty|done]. intros sid. by rewrite lookup_empty.
Qed.
End Requests.

(** ** Properties *)

(** C5: what a remote sends to a session's socket reaches the client.  The datagrams
    the loop sends are no larger than the connection allows; parsed and put together
    as they come, they are the packets the socket delivered, whole and in order, with
    the location the client asked for, or else the address they came from; all of
    them, unless a datagram cannot be sent, and then the first ones.  The packet
    number may wrap.  The loop never panics. *)
Theorem udp_replies_delivered {Q C : Type} `{DatagramConnLaws Q} `{LruLaws Z FragmentedPacket C}
    (max sid : Z) (ov : option NetLocation) (es : list socket_event) (q q' : Q) (r : res unit) :
  max_datagram_size q = Some max → 0 ≤ sid < 2 ^ 32 → (∀ l, ov = Some l → location_sendable l) →
  Forall (sendable max ov) (arrived es) →
  run_udp_remote_to_local_loop sid ov es q = (r, q') →
  ∃ ds ms os (c' : C), dg_sent q' = dg_sent q ++ ds ∧ Forall (fun d => Z.of_nat (length d) ≤ max) ds ∧
    Forall2 parses ds ms ∧ Forall (fun m => session_id m = sid) ms ∧
    reassemble_run ms (lru_new MAX_FRAGMENT_CACHE_SIZE) = (Ok os, c') ∧
    omap id os `prefix_of` labelled ov <$> arrived es ∧
    (omap id os = labelled ov <$> arrived es ∧
       (r = Ok tt ∨ r = Err (io_err Other "failed to receive from UDP socket")) ∨
     ∃ e, r = Err e ∧ send_failure e).
Proof.
  intros Hmax Hsid Hov Hall Hr. destruct (remote_to_local_runs max sid ov es q _ Hmax Hov Hr) as (original & Horig & Hr').
  assert (0 ≤ 0 < 2 ^ 16) as H16 by lia.
  destruct (remote_loop_spec _ _ _ _ Hsid Hov Horig _ _ _ _ _ H16 Hall Hr')
    as (ps & ds & ds0 & Hps & Hws & Hpars & Hszs & Hpre & Hsent & Hout).
  destruct (reassemble_cuts (C := C) sid ps _ Hps new_idle) as (os & c & Hos & Hwhole & _).
  destruct Hpre as [ds1 ->]. apply Forall2_app_inv_l in Hpars as (ms & ms1 & Hms & Hms1 & Heq).
  apply Forall_app in Hszs as [Hszs _].
  assert (Forall (fun m => session_id m = sid) (ps ≫= cut_messages sid)) as Hsids.
  { apply Forall_bind, Forall_forall. intros p _. eapply Forall_impl; [apply cut_mine|]. naive_solver. }
  rewrite Heq in Hsids, Hos. apply Forall_app in Hsids as [Hsids _].
  destruct (reassemble_run_prefix _ _ _ _ _ Hos (prefix_app_r _ _ _ (reflexivity ms))) as (os1 & c1 & Hos1 & Hpre1).
  exists ds0, ms, os1, c1. rewrite <-Hwhole in *. split_and!; [done..| |].
  - by etrans.
  - destruct Hout as [(Hd & Hw & Hres)|?]; [left|by right]. split; [|done].
    assert (ds1 = []) as -> by (apply (app_inv_head ds0); by rewrite app_nil_r).
    apply Forall2_nil_inv_l in Hms1 as ->. rewrite app_nil_r in Hos. rewrite Hos in Hos1. injection Hos1 as <- <-. done.
Qed.

(** A connection that takes every datagram. *)
Record Wire : Set := MkWire { wire_max : Z; wire_sent : list bytes }.

#[export] Instance Wire_conn : DatagramConnection Wire := {|
  max_datagram_size q := Some (wire_max q);
  send_datagram d := fun q => (Ok tt, MkWire (wire_max q) (wire_sent q ++ [d])) |}.

#[export] Instance Wire_laws : DatagramConnLaws Wire.
Proof. refine {| dg_sent := wire_sent |}. by intros d q r q' [= <- <-]. Defined.

Definition demo_dns : SocketAddr := SocketV4 (Ipv4 (127 * 2 ^ 24 + 1)) 53.
Definition demo_replies : list socket_event :=
  [Received (replicate 20 x01) demo_dns; Received [x02; x03] demo_dns; SessionCancelled; Received [x04] demo_dns].
Abbreviation demo_reply_run := (run_udp_remote_to_local_loop 7 None demo_replies (MkWire 30 [])).

Lemma demo_sendable payload : (length payload ≤ 100)%nat → sendable 30 None (payload, demo_dns).
Proof.
  intros Hl. split; [vm_compute; intuition congruence|]. intros alen Ha. injection Ha as <-.
  change (length (label_text None demo_dns)) with 12%nat. cbv zeta. cbn [fst length].
  split; [done|]. unfold div_ceil. change (30 - _) with 9. pose proof (Z.div_lt_upper_bound (Z.of_nat (length payload)) 9 12).
  destruct (_ =? 0); lia.
Qed.

Lemma demo_replies_sendable : Forall (sendable 30 None) (arrived demo_replies).
Proof. repeat first [apply Forall_nil_2|apply Forall_cons_2; [apply demo_sendable; cbn; lia|]]. Qed.

Lemma demo_reply_ok : demo_reply_run.1 = Ok tt.
Proof. vm_compute. reflexivity. Qed.

(** The first packet needs three datagrams. *)
Lemma udp_replies_delivered_witness :
  ∃ ds ms os c', wire_sent demo_reply_run.2 = ds ∧ Forall2 parses ds ms ∧
    reassemble_run (C := MapLru Z FragmentedPacket) ms (lru_new MAX_FRAGMENT_CACHE_SIZE) = (Ok os, c') ∧
    omap id os = [(replicate 20 x01, src_location demo_dns); ([x02; x03], src_location demo_dns)].
Proof.
  destruct (udp_replies_delivered (C := MapLru Z FragmentedPacket) 30 7 None demo_replies (MkWire 30 [])
    demo_reply_run.2 (Ok tt)) as (ds & ms & os & c' & Hs & _ & Hp & _ & Hr & _ & [[Ho _]|(e & He & _)]).
  - reflexivity.
  - lia.
  - intros l Hl. discriminate Hl.
  - exact demo_replies_sendable.
  - apply with_fst, demo_reply_ok.
  - exists ds, ms, os, c'. split_and!; [exact Hs|exact Hp|exact Hr|exact Ho].
  - discriminate He.
Defined.


#[export] Instance UdpLog_laws : UdpWorldLaws UdpLog.
Proof.
  refine {| names loc := default demo_target (to_socket_addr_nonblocking loc);
            uw_sent w := (fun x => (x.1.1, (x.1.2, x.2))) <$> reverse (sent w);
            uw_socks w := seq 0 (sockets w) |}.
  - intros loc w. cbn [resolve_location UdpLog_world]. destruct (to_socket_addr_nonblocking loc); eauto.
  - intros w. eexists _, _. split; [reflexivity|]. cbn [sockets sent]. rewrite seq_S.
    split_and!; [|done..]. rewrite elem_of_seq. lia.
  - done.
  - intros sock payload addr w. eexists. split; [reflexivity|]. cbn [sockets sent].
    by rewrite reverse_cons, fmap_app.
Defined.

Definition demo_dns_loc : NetLocation := NetLoc (Addr_Ipv4 (Ipv4 (127 * 2 ^ 24 + 1))) 53.
Definition demo_dns_text : bytes := str "127.0.0.1:53".

(** A packet of session 7 in two fragments, one of session 8 between them, and noise. *)
Definition demo_turns : list turn :=
  [MkTurn 0 (datagram 7 5 0 2 [x04] demo_addr_bytes [x01; x02]) 0;
   MkTurn 1 (datagram 8 0 0 1 [x0c] demo_dns_text [x09]) 1;
   MkTurn 2 [x00; x01] 2;
   MkTurn 3 (datagram 7 5 1 2 [x04] demo_addr_bytes [x03]) 3].

Definition demo_packets (sid : Z) : list cut :=
  if sid =? 7 then [MkCut 5 [[x01; x02]; [x03]] demo_udp_loc]
  else if sid =? 8 then [MkCut 0 [[x09]] demo_dns_loc] else [].

Definition demo_parsed : list udp_message :=
  [MkMsg 7 5 0 2 [x01; x02] demo_udp_loc; MkMsg 8 0 0 1 [x09] demo_dns_loc; MkMsg 7 5 1 2 [x03] demo_udp_loc].

Lemma demo_turns_parsed : omap parsed demo_turns = demo_parsed.
Proof. vm_compute. reflexivity. Qed.

Lemma demo_turns_own sid :
  Forall cut_wf (demo_packets sid) ∧ own sid (omap parsed demo_turns) = demo_packets sid ≫= cut_messages sid.
Proof.
  rewrite demo_turns_parsed. unfold demo_packets, own. destruct (sid =? 7) eqn:E7; zbool; [subst; split; [|reflexivity]|].
  { repeat constructor; cbn; lia. }
  destruct (sid =? 8) eqn:E8; zbool; [subst; split; [|reflexivity]|].
  { repeat constructor; cbn; lia. }
  split; [constructor|]. unfold demo_parsed. rewrite !filter_cons. cbn [session_id]. by rewrite !decide_False by congruence.
Qed.

Lemma demo_turns_ok :
  Forall (fun t => is_ok (parse_datagram (data t)) = true ∧ 0 ≤ now t ≤ 0 + IDLE_TIMEOUT ∧ 0 ≤ later t) demo_turns.
Proof. repeat first [apply Forall_nil_2|apply Forall_cons_2; [vm_compute; intuition congruence|]]. Qed.

Lemma demo_nothing_sent : accounted_for (MkLog 0 [] []).
Proof. unfold accounted_for. change (uw_sent (MkLog 0 [] [])) with (@nil (nat * (bytes * SocketAddr))). constructor. Qed.

