(* ===== verification/QuicStream.v ===== *)
(** * QUIC streams (src/quic_stream.rs)

    A pair of a sending and a receiving half, which are the transport's own: the
    write side turns every error into one of kind [Other].  The pair keeps the
    promises of its halves, and is a full stream. *)

From Stdlib Require Import String.
From S2P Require Import Prelude AsyncStream.

Record QuicStream (S R : Type) : Type := MkQuic { qs_send : S; qs_recv : R }.
Arguments MkQuic {S R} _ _.
Arguments qs_send {S R} _.
Arguments qs_recv {S R} _.

(** [io::Error::other(e.to_string())]. *)
Definition other_error (e : io_error) : io_error := IoError Other (err_msg e).

Section Ops.
Context {S R : Type} `{AsyncWrite S} `{AsyncRead R}.

(** The [match] of the three write-side methods. *)
Definition on_send {A} (op : S → poll (res A) * S) (q : QuicStream S R)
    : poll (res A) * QuicStream S R :=
  match op (qs_send q) with
  | (Ready x, s) => (Ready (map_err other_error x), MkQuic s (qs_recv q))
  | (Pending, s) => (Pending, MkQuic s (qs_recv q))
  end.

#[export] Instance QuicStream_AsyncRead : AsyncRead (QuicStream S R) := {|
  poll_read n q := let '(x, r) := poll_read n (qs_recv q) in (x, MkQuic (qs_send q) r);
  waits q := waits (qs_recv q) |}.

#[export] Instance QuicStream_AsyncWrite : AsyncWrite (QuicStream S R) := {|
  poll_write bs := on_send (poll_write bs);
  poll_flush := on_send poll_flush;
  poll_shutdown := on_send poll_shutdown;
  write_waits q := write_waits (qs_send q) |}.

#[export] Instance QuicStream_AsyncPing : AsyncPing (QuicStream S R) := {|
  supports_ping _ := false;
  poll_write_ping q := (Ready (Ok false), q) |}.
End Ops.

(** ** The promises of a stream *)

Section Laws.
Context {S R : Type} `{AsyncWriteLaws S} `{AsyncReadLaws R}.

#[export] Instance QuicStream_read_laws : AsyncReadLaws (QuicStream S R).
Proof.
  refine {| incoming q := incoming (qs_recv q) |}; intros n [s r]; cbn; intros *;
    destruct (poll_read n r) as [x' r'] eqn:E; intros Hr; simplify_eq;
    eauto using poll_read_ok, poll_read_pending, poll_read_interrupted, poll_read_returns.
Defined.

(** The outcome of a write-side method, before the error is turned. *)
Lemma on_send_inv {A} (op : S → poll (res A) * S) q x q' :
  on_send (R := R) op q = (x, q') →
  ∃ y, op (qs_send q) = (y, qs_send q') ∧ qs_recv q' = qs_recv q ∧
    x = match y with Ready z => Ready (map_err other_error z) | Pending => Pending end.
Proof.
  unfold on_send. destruct (op (qs_send q)) as [[z|] s]; intros Hr; simplify_eq; eauto.
Qed.

Lemma on_send_snd {A} (op : S → poll (res A) * S) q :
  qs_send (on_send (R := R) op q).2 = (op (qs_send q)).2 ∧
  qs_recv (on_send (R := R) op q).2 = qs_recv q.
Proof. unfold on_send. by destruct (op (qs_send q)) as [[z|] s]. Qed.

Lemma map_err_returns {A} (f : io_error → io_error) (x : res A) :
  x ≠ OutOfFuel ∧ panics x = false → map_err f x ≠ OutOfFuel ∧ panics (map_err f x) = false.
Proof. by destruct x. Qed.

#[export] Instance QuicStream_write_laws : AsyncWriteLaws (QuicStream S R).
Proof.
  refine {| written q := written (qs_send q) |}; cbn [poll_write poll_flush poll_shutdown
    QuicStream_AsyncWrite write_waits].
  - intros bs q k q' (y & E & _ & Hy)%on_send_inv. destruct y as [[]|]; simplify_eq/=.
    by eapply poll_write_ok.
  - intros bs q q' (y & E & _ & Hy)%on_send_inv. destruct y; simplify_eq/=.
    by apply poll_write_pending in E.
  - intros bs q e q' (y & E & _ & Hy)%on_send_inv. destruct y as [[]|]; simplify_eq/=.
    by eapply poll_write_err.
  - intros bs q x q' (y & E & _ & Hy)%on_send_inv. destruct y as [z|]; simplify_eq/=.
    eapply map_err_returns, poll_write_returns, E.
  - intros q. rewrite (proj1 (on_send_snd _ _)). apply poll_flush_written.
  - intros q q' (y & E & _ & Hy)%on_send_inv. destruct y; simplify_eq/=. by eapply poll_flush_pending.
  - intros q x q' (y & E & _ & Hy)%on_send_inv. destruct y as [z|]; simplify_eq/=.
    eapply map_err_returns, poll_flush_returns, E.
  - intros q. rewrite (proj1 (on_send_snd _ _)). apply poll_shutdown_written.
  - intros q q' (y & E & _ & Hy)%on_send_inv. destruct y; simplify_eq/=.
    by eapply poll_shutdown_pending.
  - intros q x q' (y & E & _ & Hy)%on_send_inv. destruct y as [z|]; simplify_eq/=.
    eapply map_err_returns, poll_shutdown_returns, E.
Defined.

#[export] Instance QuicStream_progress `{!WriteProgress S} : WriteProgress (QuicStream S R).
Proof.
  intros bs q k q' (y & E & _ & Hy)%on_send_inv. destruct y as [[]|]; simplify_eq/=.
  by eapply poll_write_progress.
Qed.

#[export] Instance QuicStream_laws : AsyncStreamLaws (QuicStream S R).
Proof.
  split; [split|..]; try done.
  - intros n [s r]. cbn. by destruct (poll_read n r).
  - intros bs q. cbn. by rewrite (proj2 (on_send_snd _ _)).
  - intros q. cbn. by rewrite (proj2 (on_send_snd _ _)).
  - intros q. cbn. by rewrite (proj2 (on_send_snd _ _)).
Qed.
End Laws.
