(* ===== verification/CopyBidirectional.v ===== *)
(** * Copying between two streams (src/copy_bidirectional.rs)

    Each direction has a ring buffer: [poll_copy] reads into its free part and
    writes its used part until neither stream is ready.  [CopyBidirectional] polls
    the two directions and shuts each side down when the other has ended. *)

From Stdlib Require Import String.
From S2P Require Import Prelude AsyncStream QuicStream.

Definition DEFAULT_BUF_SIZE : nat := Z.to_nat 16384.

Record CopyBuffer : Set := MkCopy {
  read_done : bool; need_flush : bool; need_write_ping : bool;
  start_index : nat; cache_length : nat; size : nat; buf : bytes }.

Definition copy_buffer_new (mem : nat → byte) (size : nat) (need_initial_flush : bool) : CopyBuffer :=
  MkCopy false need_initial_flush false 0 0 size (allocate_vec mem size).

(** Assignments to single fields. *)
Definition set_read_done (b : CopyBuffer) : CopyBuffer :=
  MkCopy true (need_flush b) (need_write_ping b) (start_index b) (cache_length b) (size b) (buf b).
Definition set_need_flush (f : bool) (b : CopyBuffer) : CopyBuffer :=
  MkCopy (read_done b) f (need_write_ping b) (start_index b) (cache_length b) (size b) (buf b).
Definition set_need_write_ping (p : bool) (b : CopyBuffer) : CopyBuffer :=
  MkCopy (read_done b) (need_flush b) p (start_index b) (cache_length b) (size b) (buf b).

(** The free part a read may fill. *)
Definition unused_start_index (b : CopyBuffer) : nat :=
  (start_index b + cache_length b) mod size b.
Definition unused_end_index_exclusive (b : CopyBuffer) : nat :=
  if (unused_start_index b <? start_index b)%nat then start_index b else size b.

(** [n] bytes were read into it. *)
Definition cache_bytes (bs : bytes) (b : CopyBuffer) : CopyBuffer :=
  MkCopy (read_done b) (need_flush b) (need_write_ping b) (start_index b)
    (cache_length b + length bs) (size b) (splice (unused_start_index b) bs (buf b)).

(** The used part a write may take. *)
Definition used_bytes (b : CopyBuffer) : bytes :=
  slice (start_index b) (Nat.min (start_index b + cache_length b) (size b)) (buf b).

(** [written] bytes of it were taken. *)
Definition uncache_bytes (written : nat) (b : CopyBuffer) : CopyBuffer :=
  let cache_length' := (cache_length b - written)%nat in
  MkCopy (read_done b) true (need_write_ping b)
    (if (cache_length' =? 0)%nat then 0 else (start_index b + written) mod size b)
    cache_length' (size b) (buf b).

(** How a loop of [poll_copy] ends: on its condition, on a [break] after a
    [Pending], or on an error that [?] returns. *)
Inductive loop_end : Set := LoopDone | LoopPending | LoopError (r : res unit).

Section Copy.
Context {R W : Type} `{AsyncRead R} `{AsyncWrite W} `{AsyncPing W}.

(** [while !self.read_done && self.cache_length < self.size]: each round fills a
    byte or sees the end of the stream, so [size] rounds and one more are enough. *)
Fixpoint copy_read_loop (fuel : nat) (b : CopyBuffer) (r : R) : loop_end * CopyBuffer * R :=
  if negb (read_done b) && (cache_length b <? size b)%nat then
    match fuel with
    | O => (LoopError OutOfFuel, b, r)
    | S f =>
        match poll_read (unused_end_index_exclusive b - unused_start_index b) r with
        | (Ready (Ok bs), r') =>
            if (length bs =? 0)%nat then copy_read_loop f (set_read_done b) r'
            else copy_read_loop f (cache_bytes bs b) r'
        | (Ready (Err e), r') => (LoopError (Err e), b, r')
        | (Ready (Panic x), r') => (LoopError (Panic x), b, r')
        | (Ready OutOfFuel, r') => (LoopError OutOfFuel, b, r')
        | (Pending, r') => (LoopPending, b, r')
        end
    end
  else (LoopDone, b, r).

(** The ping, when one is due and nothing is cached. *)
Definition copy_ping (b : CopyBuffer) (w : W) : loop_end * CopyBuffer * W :=
  if need_write_ping b then
    if (cache_length b =? 0)%nat then
      match poll_write_ping w with
      | (Ready (Ok written), w') =>
          let b' := set_need_write_ping false b in
          (LoopDone, if written then set_need_flush true b' else b', w')
      | (Ready (Err e), w') => (LoopError (Err e), b, w')
      | (Ready (Panic x), w') => (LoopError (Panic x), b, w')
      | (Ready OutOfFuel, w') => (LoopError OutOfFuel, b, w')
      | (Pending, w') => (LoopPending, b, w')
      end
    else (LoopDone, set_need_write_ping false b, w)
  else (LoopDone, b, w).

(** [while self.cache_length > 0]: each round writes a byte. *)
Fixpoint copy_write_loop (fuel : nat) (b : CopyBuffer) (w : W) : loop_end * CopyBuffer * W :=
  if (0 <? cache_length b)%nat then
    match fuel with
    | O => (LoopError OutOfFuel, b, w)
    | S f =>
        match poll_write (used_bytes b) w with
        | (Ready (Ok written), w') =>
            if (written =? 0)%nat
            then (LoopError (Err (io_err WriteZero "write zero byte into writer")), b, w')
            else copy_write_loop f (uncache_bytes written b) w'
        | (Ready (Err e), w') => (LoopError (Err e), b, w')
        | (Ready (Panic x), w') => (LoopError (Panic x), b, w')
        | (Ready OutOfFuel, w') => (LoopError OutOfFuel, b, w')
        | (Pending, w') => (LoopPending, b, w')
        end
    end
  else (LoopDone, b, w).

(** The flush at the end of a round; [LoopPending] and [LoopError] leave [poll_copy]. *)
Definition copy_flush (b : CopyBuffer) (w : W) : loop_end * CopyBuffer * W :=
  if need_flush b then
    match poll_flush w with
    | (Ready (Ok _), w') => (LoopDone, set_need_flush false b, w')
    | (Ready (Err e), w') => (LoopError (Err e), b, w')
    | (Ready (Panic x), w') => (LoopError (Panic x), b, w')
    | (Ready OutOfFuel, w') => (LoopError OutOfFuel, b, w')
    | (Pending, w') => (LoopPending, b, w')
    end
  else (LoopDone, b, w).

Definition is_pending (e : loop_end) : bool := match e with LoopPending => true | _ => false end.

(** One round of the outer [loop], after its reads: the outcome it returns, or none
    to go round again. *)
Definition copy_after_read (read_pending : bool) (b : CopyBuffer) (w : W)
    : option (poll (res unit)) * (CopyBuffer * W) :=
  match copy_ping b w with
  | (LoopError x, b, w) => (Some (Ready x), (b, w))
  | (ping_end, b, w) =>
      match copy_write_loop (cache_length b) b w with
      | (LoopError x, b, w) => (Some (Ready x), (b, w))
      | (write_end, b, w) =>
          match copy_flush b w with
          | (LoopError x, b, w) => (Some (Ready x), (b, w))
          | (LoopPending, b, w) => (Some Pending, (b, w))
          | (LoopDone, b, w) =>
              if read_done b && (cache_length b =? 0)%nat then (Some (Ready (Ok tt)), (b, w))
              else if read_pending || is_pending ping_end || is_pending write_end
              then (Some Pending, (b, w))
              else (None, (b, w))
          end
      end
  end.

Definition copy_round (b : CopyBuffer) (r : R) (w : W)
    : option (poll (res unit)) * (CopyBuffer * R * W) :=
  match copy_read_loop (S (size b)) b r with
  | (LoopError x, b, r) => (Some (Ready x), (b, r, w))
  | (read_end, b, r) =>
      let '(o, (b, w)) := copy_after_read (is_pending read_end) b w in (o, (b, r, w))
  end.

(** The outer [loop]. *)
Fixpoint copy_loop (fuel : nat) (b : CopyBuffer) (r : R) (w : W)
    : poll (res unit) * (CopyBuffer * R * W) :=
  match copy_round b r w with
  | (Some x, st) => (x, st)
  | (None, (b, r, w)) =>
      match fuel with
      | O => (Ready OutOfFuel, (b, r, w))
      | S f => copy_loop f b r w
      end
  end.

(** [poll_copy]; [coop] says whether the task has budget left. *)
Definition poll_copy (fuel : nat) (coop : bool) (b : CopyBuffer) (r : R) (w : W)
    : poll (res unit) * (CopyBuffer * R * W) :=
  if coop then copy_loop fuel b r w else (Pending, (b, r, w)).

Inductive TransferState : Set := Running | ShuttingDown | Done.

(** The states are passed in order, so the loop is three rounds at most. *)
Definition transfer_shutdown (b : CopyBuffer) (r : R) (w : W)
    : poll (res unit) * (TransferState * CopyBuffer * R * W) :=
  match poll_shutdown w with
  | (Ready (Ok _), w') => (Ready (Ok tt), (Done, b, r, w'))
  | (Ready x, w') => (Ready x, (ShuttingDown, b, r, w'))
  | (Pending, w') => (Pending, (ShuttingDown, b, r, w'))
  end.

Definition transfer_one_direction (fuel : nat) (coop : bool) (state : TransferState)
    (b : CopyBuffer) (r : R) (w : W) : poll (res unit) * (TransferState * CopyBuffer * R * W) :=
  match state with
  | Running =>
      match poll_copy fuel coop b r w with
      | (Ready (Ok _), (b', r', w')) => transfer_shutdown b' r' w'
      | (x, (b', r', w')) => (x, (Running, b', r', w'))
      end
  | ShuttingDown => transfer_shutdown b r w
  | Done => (Ready (Ok tt), (Done, b, r, w))
  end.
End Copy.

Section Bidirectional.
Context {A B : Type} `{AsyncRead A} `{AsyncWrite A} `{AsyncPing A}
  `{AsyncRead B} `{AsyncWrite B} `{AsyncPing B}.

Record CopyBidirectional : Type := MkBidi {
  side_a : A; side_b : B; a_buf : CopyBuffer; b_buf : CopyBuffer;
  a_to_b : TransferState; b_to_a : TransferState; has_sleep : bool }.

(** [poll]: [ping_fired] is whether the timer is due; each direction has its own
    share of the task's budget. *)
Definition bidirectional_poll (fuel : nat) (ping_fired coop1 coop2 : bool) (c : CopyBidirectional)
    : poll (res unit) * CopyBidirectional :=
  let fired := has_sleep c && ping_fired in
  let a_buf := if fired then set_need_write_ping (supports_ping (side_b c)) (a_buf c) else a_buf c in
  let b_buf := if fired then set_need_write_ping (supports_ping (side_a c)) (b_buf c) else b_buf c in
  let '(ab, (s_ab, a_buf, a, b)) :=
    transfer_one_direction fuel coop1 (a_to_b c) a_buf (side_a c) (side_b c) in
  let '(ba, (s_ba, b_buf, b, a)) :=
    transfer_one_direction fuel coop2 (b_to_a c) b_buf b a in
  let c' := MkBidi a b a_buf b_buf s_ab s_ba (has_sleep c) in
  match ab, ba with
  | Ready (Ok _), Ready (Ok _) => (Ready (Ok tt), c')
  | Ready (Ok _), Pending | Pending, Ready (Ok _) | Pending, Pending => (Pending, c')
  | Ready (Ok _), Ready x | Pending, Ready x | Ready x, _ => (Ready x, c')
  end.

Definition copy_bidirectional_start (mem_a mem_b : nat → byte) (a : A) (b : B)
    (a_need_initial_flush b_need_initial_flush : bool) (a_to_b_buf_size b_to_a_buf_size : nat)
    : CopyBidirectional :=
  MkBidi a b (copy_buffer_new mem_a a_to_b_buf_size b_need_initial_flush)
    (copy_buffer_new mem_b b_to_a_buf_size a_need_initial_flush)
    Running Running (supports_ping a || supports_ping b).

(** With buffers of the default size. *)
Definition copy_bidirectional (mem_a mem_b : nat → byte) (a : A) (b : B)
    (a_need_initial_flush b_need_initial_flush : bool) : CopyBidirectional :=
  copy_bidirectional_start mem_a mem_b a b a_need_initial_flush b_need_initial_flush DEFAULT_BUF_SIZE DEFAULT_BUF_SIZE.
End Bidirectional.

(** ** The ring *)

(** The bytes cached and not yet written, oldest first. *)
Definition content (b : CopyBuffer) : bytes :=
  take (cache_length b) (drop (start_index b) (buf b) ++ take (start_index b) (buf b)).

Record copy_inv (b : CopyBuffer) : Prop := {
  ci_len : length (buf b) = size b;
  ci_size : (0 < size b)%nat;
  ci_start : (start_index b < size b)%nat;
  ci_cache : (cache_length b ≤ size b)%nat }.

Lemma length_content b : copy_inv b → length (content b) = cache_length b.
Proof. intros []. unfold content. len. Qed.

Lemma copy_new_inv mem n f : (0 < n)%nat → copy_inv (copy_buffer_new mem n f).
Proof. intros Hn. split; cbn; rewrite ?length_allocate_vec; lia. Qed.

(** Where the free part is. *)
Lemma unused_cases b :
  copy_inv b → (cache_length b < size b)%nat →
  (start_index b + cache_length b < size b ∧
   unused_start_index b = start_index b + cache_length b ∧
   unused_end_index_exclusive b = size b)%nat ∨
  (size b ≤ start_index b + cache_length b ∧
   unused_start_index b = start_index b + cache_length b - size b ∧
   unused_end_index_exclusive b = start_index b)%nat.
Proof.
  intros [Hl Hs Hst Hc] Hlt. unfold unused_end_index_exclusive, unused_start_index.
  destruct (decide (start_index b + cache_length b < size b)%nat) as [Hd|Hd].
  - left. rewrite Nat.mod_small by done. rewrite (proj2 (Nat.ltb_ge _ _)) by lia. done.
  - right. rewrite <-(Nat.mod_unique _ _ 1 (start_index b + cache_length b - size b)) by lia.
    rewrite (proj2 (Nat.ltb_lt _ _)) by lia. split_and!; lia.
Qed.

Lemma unused_room b :
  copy_inv b → (cache_length b < size b)%nat →
  (0 < unused_end_index_exclusive b - unused_start_index b)%nat.
Proof. intros Hi Hlt. destruct Hi, (unused_cases b); lia || (split; lia). Qed.

(** Bytes read go to the back of the ring. *)
Lemma cache_bytes_spec bs b :
  copy_inv b → (cache_length b < size b)%nat →
  (length bs ≤ unused_end_index_exclusive b - unused_start_index b)%nat →
  copy_inv (cache_bytes bs b) ∧ content (cache_bytes bs b) = content b ++ bs.
Proof.
  intros Hi Hlt Hbs. pose proof Hi as [Hl Hs Hst Hc].
  destruct (unused_cases b Hi Hlt) as [(Hd & Hus & Hue)|(Hd & Hus & Hue)]; rewrite Hus, Hue in Hbs.
  - split.
    { split; cbn; rewrite ?Hus, ?length_splice by lia; lia. }
    unfold content, cache_bytes. cbn [start_index cache_length buf]. rewrite Hus.
    rewrite !take_app_le by (rewrite ?length_drop, ?length_splice by lia; lia).
    rewrite <-take_take_drop, drop_drop. unfold splice. f_equal.
    + rewrite drop_app_le by len. rewrite take_app_le by len.
      rewrite <-(take_drop (start_index b + cache_length b) (buf b)) at 2.
      rewrite drop_app_le by len. by rewrite take_app_le by len.
    + rewrite drop_app_length' by len. by rewrite take_app_length.
  - split.
    { split; cbn; rewrite ?Hus, ?length_splice by lia; lia. }
    unfold content, cache_bytes. cbn [start_index cache_length buf]. rewrite Hus.
    set (us := (start_index b + cache_length b - size b)%nat) in *.
    rewrite !take_app_ge by len. rewrite !length_drop, length_splice by lia.
    rewrite <-app_assoc. f_equal.
    + unfold splice. rewrite app_assoc, drop_app_ge by len. rewrite drop_drop. f_equal. len.
    + replace (cache_length b + length bs - (length (buf b) - start_index b))%nat
        with (us + length bs)%nat by (unfold us; lia).
      replace (cache_length b - (length (buf b) - start_index b))%nat with us by (unfold us; lia).
      rewrite !take_take, !Nat.min_l by (unfold us in *; lia). unfold splice.
      rewrite app_assoc, take_app_le by len. rewrite take_app_ge by len.
      f_equal. apply take_ge. len.
Qed.

(** What a write is offered is the front of the ring. *)
Lemma used_bytes_spec b :
  copy_inv b → (0 < cache_length b)%nat →
  ∃ k, used_bytes b = take k (content b) ∧ (0 < k ≤ cache_length b)%nat ∧
    length (used_bytes b) = k ∧ (start_index b + k ≤ size b)%nat.
Proof.
  intros [Hl Hs Hst Hc] Hpos. exists (Nat.min (cache_length b) (size b - start_index b)).
  unfold used_bytes, content, slice. split_and!; [|lia..| |lia].
  - rewrite take_take. rewrite take_app_le by len.
    f_equal. lia.
  - len.
Qed.

(** Bytes written leave from the front. *)
Lemma uncache_bytes_spec k b :
  copy_inv b → (k ≤ cache_length b)%nat → (start_index b + k ≤ size b)%nat →
  copy_inv (uncache_bytes k b) ∧ content (uncache_bytes k b) = drop k (content b).
Proof.
  intros Hi Hk Hsk. pose proof Hi as [Hl Hs Hst Hc].
  unfold uncache_bytes, content. cbv zeta. cbn [start_index cache_length buf].
  destruct (cache_length b - k =? 0)%nat eqn:Hz; zbool.
  - split; [split; cbn; lia|]. rewrite Hz. cbn [take]. symmetry. apply drop_ge. len.
  - split.
    { split; cbn; try lia. apply Nat.mod_upper_bound. lia. }
    rewrite skipn_firstn_comm, drop_app_le, drop_drop by len.
    destruct (decide (start_index b + k = size b)%nat) as [He|He].
    + rewrite He, Nat.Div0.mod_same, drop_0, (drop_ge (buf b) (size b)) by lia. cbn [take app].
      rewrite app_nil_r, take_take. f_equal. lia.
    + rewrite Nat.mod_small by lia. rewrite <-(take_take_drop (buf b) (start_index b) k), app_assoc.
      rewrite take_app_le by len. done.
Qed.

Section CopyLaws.
Context {R W : Type} `{AsyncReadLaws R} `{AsyncWriteLaws W} `{!AsyncPing W} `{!AsyncPingLaws W}.

(** The end of the stream is only seen when nothing is left. *)
Definition done_inv (b : CopyBuffer) (r : R) : Prop := read_done b = true → incoming r = [].

Definition same_config (b b' : CopyBuffer) : Prop :=
  size b' = size b ∧ need_flush b' = need_flush b ∧ need_write_ping b' = need_write_ping b.

Lemma copy_read_loop_spec fuel b r e b' r' :
  copy_read_loop fuel b r = (e, b', r') → copy_inv b → done_inv b r →
  (size b - cache_length b + (if read_done b then 0 else 1) ≤ fuel)%nat →
  copy_inv b' ∧ same_config b b' ∧
  match e with
  | LoopError x => (∃ e0 n r0, x = Err e0 ∧ poll_read n r0 = (Ready (Err e0), r')) ∧
      ∃ rest, content b ++ incoming r = content b' ++ rest
  | _ => content b' ++ incoming r' = content b ++ incoming r ∧ done_inv b' r' ∧
      (cache_length b ≤ cache_length b')%nat ∧
      (e = LoopPending ∨ read_done b' = true ∨ cache_length b' = size b')
  end.
Proof.
  revert b r. induction fuel as [|fuel IH]; intros b r Hr Hi Hd Hf; cbn [copy_read_loop] in Hr;
    destruct (negb (read_done b) && (cache_length b <? size b)%nat) eqn:Hc;
    pose proof Hi as [Hl Hs Hst Hcl].
  1: { apply andb_prop in Hc as [Hrd Hlt]. zbool. rewrite Hrd in Hf. lia. }
  1, 3: simplify_eq; split_and!; [done..|lia|right];
    apply andb_false_iff in Hc as [Hc|Hc]; zbool; [by left|right; lia].
  apply andb_prop in Hc as [Hrd Hlt]. zbool. rewrite Hrd in Hf.
  destruct (poll_read _ r) as [[[bs|e0|x|]|] r1] eqn:E; simplify_eq;
    try (by destruct (poll_read_returns _ _ _ _ E)).
  - destruct (poll_read_ok _ _ _ _ E) as (Hlen & Hinc & Heof).
    destruct (length bs =? 0)%nat eqn:Hz; zbool.
    + apply length_zero_iff_nil in Hz. subst bs.
      assert (incoming r = []) as Hnil by (apply Heof; [by apply unused_room|done]).
      rewrite Hnil in Hinc. cbn [app] in Hinc.
      destruct (IH (set_read_done b) r1 Hr) as (Hi' & Hcfg & Hp).
      { by split. }
      { intros _. by rewrite <-Hinc. }
      { cbn. lia. }
      split_and!; [done..|]. rewrite Hnil. by rewrite <-Hinc in Hp.
    + destruct (cache_bytes_spec bs b Hi ltac:(lia) Hlen) as [Hi1 Hcont].
      destruct (IH (cache_bytes bs b) r1 Hr Hi1) as (Hi' & Hcfg & Hp).
      { unfold done_inv. cbn. congruence. }
      { cbn [cache_bytes size cache_length read_done]. rewrite Hrd. lia. }
      split_and!; [done..|]. rewrite Hcont, <-app_assoc, <-Hinc in Hp.
      cbn [cache_bytes cache_length] in Hp.
      destruct e; [..|done]; destruct Hp as (? & ? & ? & ?); split_and!; done || lia.
  - split; [done|]. split; [done|]. split; [eauto 6|]. by eexists.
  - destruct (poll_read_pending _ _ _ E) as [Hinc _]. split; [done|]. split; [done|].
    rewrite Hinc. split_and!; [done| |lia|by left]. unfold done_inv. congruence.
Qed.

(** Steps that only touch the flags. *)
Definition same_ring (b b' : CopyBuffer) : Prop :=
  read_done b' = read_done b ∧ start_index b' = start_index b ∧ cache_length b' = cache_length b ∧
  size b' = size b ∧ buf b' = buf b.

Lemma same_ring_inv b b' : same_ring b b' → copy_inv b → copy_inv b' ∧ content b' = content b.
Proof.
  intros (_ & Hs & Hc & Hz & Hb) [Hl Hp Hst Hcl]. unfold content. rewrite Hs, Hc, Hb.
  split; [|done]. split; congruence || lia.
Qed.

Definition err_end (e : loop_end) : Prop :=
  match e with LoopError x => ∃ e0, x = Err e0 | _ => True end.

Lemma returned_err {A} (r : res A) : r ≠ OutOfFuel → panics r = false → is_ok r = false →
  ∃ e, r = Err e.
Proof. destruct r; try done. eauto. Qed.

(** A ping is only due on a stream that supports it. *)
Definition ping_ok (b : CopyBuffer) (w : W) : Prop :=
  need_write_ping b = true → supports_ping w = true.

Lemma copy_ping_spec b w e b' w' :
  copy_ping b w = (e, b', w') → ping_ok b w →
  same_ring b b' ∧ written w' = written w ∧ err_end e ∧ ping_ok b' w'.
Proof.
  unfold copy_ping, ping_ok. intros Hr Hok. destruct (need_write_ping b) eqn:Hn;
    [|simplify_eq; repeat split; try done; congruence].
  specialize (Hok eq_refl). destruct (_ =? 0)%nat; [|by simplify_eq].
  pose proof (ping_written w) as Hw. pose proof (ping_supports w) as Hsup.
  destruct (poll_write_ping w) as [[r|] w1] eqn:E; cbn [fst snd] in *; 
    [|simplify_eq; repeat split; try done; rewrite Hsup; eauto].
  destruct (ping_returns _ _ _ Hok E). destruct r as [[]| | |]; simplify_eq;
    repeat split; try done; cbn; try rewrite Hsup; eauto.
Qed.

Lemma copy_flush_spec b w e b' w' :
  copy_flush b w = (e, b', w') → ping_ok b w →
  same_ring b b' ∧ written w' = written w ∧ err_end e ∧ (e = LoopDone → need_flush b' = false) ∧
  ping_ok b' w'.
Proof.
  unfold copy_flush, ping_ok. intros Hr Hok. destruct (need_flush b) eqn:Hf; [|by simplify_eq].
  pose proof (poll_flush_written w) as Hw. pose proof (flush_supports w) as Hsup.
  destruct (poll_flush w) as [[r|] w1] eqn:E; cbn [fst snd] in *; 
    [|simplify_eq; repeat split; try done; rewrite Hsup; eauto].
  destruct (poll_flush_returns _ _ _ E). destruct r; simplify_eq;
    repeat split; try done; cbn; try rewrite Hsup; eauto.
Qed.

Lemma copy_write_loop_spec fuel b w e b' w' :
  copy_write_loop fuel b w = (e, b', w') → copy_inv b → ping_ok b w → (cache_length b ≤ fuel)%nat →
  copy_inv b' ∧ size b' = size b ∧ read_done b' = read_done b ∧
  written w' ++ content b' = written w ++ content b ∧ err_end e ∧
  (e = LoopDone → cache_length b' = 0%nat) ∧ ping_ok b' w'.
Proof.
  revert b w. induction fuel as [|fuel IH]; intros b w Hr Hi Hok Hf; cbn [copy_write_loop] in Hr;
    destruct (0 <? cache_length b)%nat eqn:Hc; zbool.
  1: lia.
  1, 3: simplify_eq; split_and!; done || (intros; lia).
  assert (ping_ok b (poll_write (used_bytes b) w).2) as Hok1
    by (unfold ping_ok; by rewrite write_supports).
  destruct (poll_write (used_bytes b) w) as [[r|] w1] eqn:E; cbn [snd] in Hok1.
  2: { simplify_eq. destruct (poll_write_pending _ _ _ E) as [-> _]. by split_and!. }
  destruct (poll_write_returns _ _ _ _ E). destruct r as [k|e0|x|]; try done.
  2: { simplify_eq. rewrite (poll_write_err _ _ _ _ E). split_and!; try done. by eexists. }
  destruct (poll_write_ok _ _ _ _ E) as [Hk Hw].
  destruct (used_bytes_spec b Hi Hc) as (m & Hu & Hm & Hlen & Hsm). rewrite Hlen in Hk.
  rewrite Hu, take_take, Nat.min_l in Hw by lia.
  destruct (k =? 0)%nat eqn:Hz; zbool.
  - simplify_eq. split_and!; try done; [|by eexists]. rewrite Hw. by rewrite app_nil_r.
  - destruct (uncache_bytes_spec k b Hi ltac:(lia) ltac:(lia)) as [Hi1 Hcont].
    destruct (IH _ _ Hr Hi1) as (? & ? & ? & Hcons & ? & ? & ?).
    { done. }
    { cbn. lia. }
    split_and!; try done. rewrite Hcons, Hcont, Hw, <-app_assoc. by rewrite take_drop.
Qed.

(** Everything there is to copy: written, cached, or still to come. *)
Definition pipeline (b : CopyBuffer) (r : R) (w : W) : bytes :=
  written w ++ content b ++ incoming r.

Definition copy_post (b : CopyBuffer) (r : R) (w : W) (x : poll (res unit))
    (b' : CopyBuffer) (r' : R) (w' : W) : Prop :=
  copy_inv b' ∧ size b' = size b ∧
  match x with
  | Ready (Ok _) => written w' = pipeline b r w ∧ content b' = [] ∧ incoming r' = [] ∧
      read_done b' = true ∧ need_flush b' = false
  | Pending => pipeline b' r' w' = pipeline b r w ∧ done_inv b' r' ∧ ping_ok b' w'
  | Ready (Err _) => ∃ rest, written w' ++ content b' ++ rest = pipeline b r w
  | Ready (Panic _) | Ready OutOfFuel => False
  end.

Lemma copy_after_read_spec read_pending b w o b' w' :
  copy_after_read read_pending b w = (o, (b', w')) → copy_inv b → ping_ok b w →
  ping_ok b' w' ∧ copy_inv b' ∧ size b' = size b ∧ read_done b' = read_done b ∧
  written w' ++ content b' = written w ++ content b ∧
  match o with
  | Some (Ready (Ok _)) => read_done b = true ∧ cache_length b' = 0%nat ∧ need_flush b' = false
  | Some (Ready (Err _)) | Some Pending => True
  | Some (Ready _) => False
  | None => read_pending = false ∧ read_done b = false ∧ cache_length b' = 0%nat
  end.
Proof.
  unfold copy_after_read. intros Hr Hi Hok.
  destruct (copy_ping b w) as [[e2 b2] w2] eqn:E2.
  destruct (copy_ping_spec _ _ _ _ _ E2 Hok) as (Hring2 & Hw2 & Hpe2 & Hok2).
  destruct (same_ring_inv _ _ Hring2 Hi) as [Hi2 Hc2]. destruct Hring2 as (Hrd2 & _ & _ & Hsz2 & _).
  destruct (copy_write_loop (cache_length b2) b2 w2) as [[e3 b3] w3] eqn:E3.
  destruct (copy_write_loop_spec _ _ _ _ _ _ E3 Hi2 Hok2 ltac:(lia))
    as (Hi3 & Hs3 & Hrd3 & Hw3 & Hpe3 & Hd3 & Hok3).
  destruct (copy_flush b3 w3) as [[e4 b4] w4] eqn:E4.
  destruct (copy_flush_spec _ _ _ _ _ E4 Hok3) as (Hring4 & Hw4 & Hpe4 & Hd4 & Hok4).
  destruct (same_ring_inv _ _ Hring4 Hi3) as [Hi4 Hc4].
  destruct Hring4 as (Hrd4 & _ & Hcl4 & Hsz4 & _).
  destruct e2 as [| |x]; [..|destruct Hpe2 as [? ->]; simplify_eq; split_and!; congruence || done];
    (destruct e3 as [| |x]; [..|destruct Hpe3 as [? ->]; simplify_eq; split_and!; congruence || done]);
    (destruct e4 as [| |x]; [..|destruct Hpe4 as [? ->]; simplify_eq; split_and!; congruence || done]);
    try (simplify_eq; split_and!; congruence || done);
    destruct (read_done b4 && (cache_length b4 =? 0)%nat) eqn:Hfin;
    try (apply andb_prop in Hfin as [Hf1 Hf2]; zbool; simplify_eq; split_and!; congruence || auto);
    cbn [is_pending] in Hr; destruct read_pending; cbn [orb] in Hr; simplify_eq;
    try (split_and!; congruence || done).
  specialize (Hd3 eq_refl). rewrite Hcl4, Hd3, andb_true_r in Hfin.
  split_and!; done || congruence.
Qed.

(** A round that goes on has written all it had cached. *)
Lemma copy_round_spec b r w o b' r' w' :
  copy_round b r w = (o, (b', r', w')) → copy_inv b → done_inv b r → ping_ok b w →
  match o with
  | Some x => copy_post b r w x b' r' w'
  | None => copy_inv b' ∧ ping_ok b' w' ∧ size b' = size b ∧ done_inv b' r' ∧
      pipeline b' r' w' = pipeline b r w ∧
      (length (content b' ++ incoming r') < length (content b ++ incoming r))%nat
  end.
Proof.
  intros Hr Hi Hd Hok. unfold copy_round in Hr.
  destruct (copy_read_loop (S (size b)) b r) as [[e1 b1] r1] eqn:E1.
  destruct (copy_read_loop_spec _ _ _ _ _ _ E1 Hi Hd) as (Hi1 & (Hs1 & _ & Hnp1) & Hp1).
  { destruct (read_done b); lia. }
  destruct (copy_after_read (is_pending e1) b1 w) as [o2 [b2 w2]] eqn:E2.
  assert (ping_ok b1 w) as Hok1 by (unfold ping_ok; by rewrite Hnp1).
  destruct (copy_after_read_spec _ _ _ _ _ _ E2 Hi1 Hok1) as (Hok2 & Hi2 & Hs2 & Hrd2 & Hw2 & Hp2).
  destruct e1 as [| |x].
  3: { simplify_eq. destruct Hp1 as [(e0 & _ & _ & -> & _) [rest Hrest]].
       split_and!; [done..|]. exists rest. unfold pipeline. by rewrite Hrest. }
  all: simplify_eq; destruct Hp1 as (Hcons & Hd1 & _ & Hend).
  all: assert (pipeline b' r' w' = pipeline b r w) as Hpipe
    by (unfold pipeline; rewrite app_assoc, Hw2, <-app_assoc; by rewrite Hcons).
  all: assert (done_inv b' r') as Hd' by (unfold done_inv; by rewrite Hrd2).
  all: clear E1 E2; destruct o as [[[u|e|p|]|]|]; try done;
    try (split_and!; [done|congruence|by exists (incoming r')]);
    try (split_and!; congruence || done).
  all: destruct Hp2 as (Hx & Hy & Hz); try done.
  1, 3: specialize (Hd1 Hx); pose proof (length_content b' Hi2) as Hlen; rewrite Hy in Hlen;
    apply length_zero_iff_nil in Hlen; unfold pipeline in Hpipe at 1;
    rewrite Hlen, Hd1, !app_nil_r in Hpipe; split_and!; congruence || done.
  split_and!; [done|done|congruence|done..|]. rewrite <-Hcons, !length_app, !length_content, Hz by done.
  destruct Hi1, Hend as [?|[?|?]]; [done|congruence|lia].
Qed.

Lemma copy_loop_spec fuel b r w x b' r' w' :
  copy_loop fuel b r w = (x, (b', r', w')) → copy_inv b → done_inv b r → ping_ok b w →
  (length (content b ++ incoming r) ≤ fuel)%nat → copy_post b r w x b' r' w'.
Proof.
  revert b r w. induction fuel as [|fuel IH]; intros b r w Hr Hi Hd Hok Hf; cbn [copy_loop] in Hr;
    destruct (copy_round b r w) as [o [[b1 r1] w1]] eqn:E;
    pose proof (copy_round_spec _ _ _ _ _ _ _ E Hi Hd Hok) as Hp; destruct o as [y|]; simplify_eq; try done.
  - destruct Hp as (_ & _ & _ & _ & _ & Hlt). lia.
  - destruct Hp as (Hi1 & Hok1 & Hs1 & Hd1 & Hpipe & Hlt).
    destruct (IH _ _ _ Hr Hi1 Hd1 Hok1 ltac:(lia)) as (Hi' & Hs' & Hx). unfold copy_post.
    rewrite Hpipe in Hx. split_and!; [done|lia|done].
Qed.
End CopyLaws.

(** ** Both directions *)

(** What holds of the reader through reads, and of the writer through writes, holds
    through a copy. *)
Section Frame.
Context {R W : Type} `{AsyncRead R} `{AsyncWrite W} `{AsyncPing W}.
Context (P : R → Prop) (Q : W → Prop).
Hypothesis HP : ∀ n r, P r → P (poll_read n r).2.
Hypothesis HQw : ∀ bs w, Q w → Q (poll_write bs w).2.
Hypothesis HQf : ∀ w, Q w → Q (poll_flush w).2.
Hypothesis HQp : ∀ w, Q w → Q (poll_write_ping w).2.
Hypothesis HQs : ∀ w, Q w → Q (poll_shutdown w).2.

Lemma copy_read_loop_frame fuel b r : P r → P (copy_read_loop fuel b r).2.
Proof.
  revert b r. induction fuel as [|fuel IH]; intros b r Hr; cbn [copy_read_loop];
    destruct (negb _ && _); try done.
  specialize (HP (unused_end_index_exclusive b - unused_start_index b) r Hr).
  destruct (poll_read _ r) as [[[]|] r1]; try done. destruct (_ =? 0)%nat; by apply IH.
Qed.

Lemma copy_write_loop_frame fuel b w : Q w → Q (copy_write_loop fuel b w).2.
Proof.
  revert b w. induction fuel as [|fuel IH]; intros b w Hw; cbn [copy_write_loop];
    destruct (0 <? _)%nat; try done.
  specialize (HQw (used_bytes b) w Hw). destruct (poll_write _ w) as [[[]|] w1]; try done.
  destruct (_ =? 0)%nat; [done|]. by apply IH.
Qed.

Lemma copy_after_read_frame rp b w : Q w → Q (copy_after_read rp b w).2.2.
Proof.
  intros Hw. unfold copy_after_read.
  assert (Q (copy_ping b w).2) as Hp.
  { unfold copy_ping. specialize (HQp w Hw). destruct (need_write_ping b); [|done].
    destruct (_ =? 0)%nat; [|done]. by destruct (poll_write_ping w) as [[[]|] w1]. }
  destruct (copy_ping b w) as [[e2 b2] w2]. cbn [snd] in Hp.
  pose proof (copy_write_loop_frame (cache_length b2) b2 w2 Hp) as Hwl.
  destruct (copy_write_loop _ b2 w2) as [[e3 b3] w3]. cbn [snd] in Hwl.
  assert (Q (copy_flush b3 w3).2) as Hf.
  { unfold copy_flush. specialize (HQf w3 Hwl). destruct (need_flush b3); [|done].
    by destruct (poll_flush w3) as [[[]|] w4]. }
  destruct (copy_flush b3 w3) as [[e4 b4] w4]. cbn [snd] in Hf.
  destruct e2, e3, e4; try done; repeat case_match_eqn; done.
Qed.

Lemma copy_loop_frame fuel b r w :
  P r → Q w → P (copy_loop fuel b r w).2.1.2 ∧ Q (copy_loop fuel b r w).2.2.
Proof.
  revert b r w. induction fuel as [|fuel IH]; intros b r w Hr Hw; cbn [copy_loop];
    pose proof (copy_read_loop_frame (S (size b)) b r Hr) as Hr1; unfold copy_round;
    destruct (copy_read_loop (S (size b)) b r) as [[e1 b1] r1]; cbn [snd] in Hr1;
    pose proof (copy_after_read_frame (is_pending e1) b1 w Hw) as Hw1;
    destruct e1; try done; destruct (copy_after_read _ b1 w) as [[] [b2 w2]]; try done;
    by apply IH.
Qed.

Lemma transfer_frame fuel coop st b r w :
  P r → Q w → P (transfer_one_direction fuel coop st b r w).2.1.2 ∧
              Q (transfer_one_direction fuel coop st b r w).2.2.
Proof.
  intros Hr Hw. unfold transfer_one_direction, poll_copy, transfer_shutdown.
  destruct st; [|specialize (HQs w Hw); by destruct (poll_shutdown w) as [[[]|] w1]|done].
  destruct coop; [|done]. destruct (copy_loop_frame fuel b r w Hr Hw) as [Hr1 Hw1].
  destruct (copy_loop fuel b r w) as [[[[]| | |]|] [[b1 r1] w1]]; cbn [fst snd] in *; try done.
  specialize (HQs w1 Hw1). by destruct (poll_shutdown w1) as [[[]|] w2].
Qed.
End Frame.

Section Direction.
Context {R W : Type} `{AsyncReadLaws R} `{AsyncWriteLaws W} `{!AsyncPing W} `{!AsyncPingLaws W}.

(** Where a direction stands, [all] being what it has to deliver. *)
Definition dir_inv (all : bytes) (st : TransferState) (b : CopyBuffer) (r : R) (w : W) : Prop :=
  copy_inv b ∧
  match st with
  | Running => done_inv b r ∧ ping_ok b w ∧ pipeline b r w = all
  | ShuttingDown | Done => written w = all ∧ incoming r = []
  end.

Definition transfer_post (all : bytes) (x : poll (res unit)) (st : TransferState) (b : CopyBuffer)
    (r : R) (w : W) : Prop :=
  match x with
  | Ready (Ok _) => st = Done ∧ dir_inv all st b r w
  | Pending => dir_inv all st b r w
  | Ready (Err _) => written w `prefix_of` all
  | Ready (Panic _) | Ready OutOfFuel => False
  end.

Lemma transfer_shutdown_spec all b r w x st' b' r' w' :
  transfer_shutdown b r w = (x, (st', b', r', w')) →
  copy_inv b → written w = all → incoming r = [] → transfer_post all x st' b' r' w'.
Proof.
  unfold transfer_shutdown. intros Hr Hi Hw Hinc. pose proof (poll_shutdown_written w) as Hs.
  destruct (poll_shutdown w) as [[y|] w1] eqn:E; cbn [snd] in Hs.
  - destruct (poll_shutdown_returns _ _ _ E). destruct y; injection Hr as <- <- <- <- <-; try done;
      cbn [transfer_post]; unfold dir_inv; rewrite Hs, Hw; first [reflexivity|by split_and!].
  - injection Hr as <- <- <- <- <-. cbn [transfer_post]. unfold dir_inv. rewrite Hs, Hw. by split_and!.
Qed.

Lemma pipeline_length all b r w :
  pipeline b r w = all → (length (content b ++ incoming r) ≤ length all)%nat.
Proof. intros <-. unfold pipeline. rewrite (length_app (written w)). lia. Qed.

Lemma transfer_spec fuel coop st all b r w x st' b' r' w' :
  transfer_one_direction fuel coop st b r w = (x, (st', b', r', w')) →
  dir_inv all st b r w → (length all ≤ fuel)%nat → transfer_post all x st' b' r' w'.
Proof.
  unfold transfer_one_direction. intros Hr [Hi Hst] Hf. destruct st.
  - destruct Hst as (Hd & Hok & Hp). unfold poll_copy in Hr. destruct coop; [|by simplify_eq].
    destruct (copy_loop fuel b r w) as [y [[b1 r1] w1]] eqn:E.
    pose proof (pipeline_length _ _ _ _ Hp) as Hlen.
    destruct (copy_loop_spec _ _ _ _ _ _ _ _ E Hi Hd Hok ltac:(lia)) as (Hi1 & _ & Hy).
    rewrite Hp in Hy. destruct y as [[u|e|p|]|]; simplify_eq; try done.
    + destruct Hy as (? & ? & ? & _). by eapply transfer_shutdown_spec.
    + destruct Hy as [rest Hrest]. cbn. exists (content b' ++ rest). done.
    + destruct Hy as (? & ? & ?). by split.
  - destruct Hst. by eapply transfer_shutdown_spec.
  - simplify_eq. by split.
Qed.

(** Another direction may use the other halves of the streams meanwhile. *)
Lemma dir_inv_frame all st b (r : R) (w : W) r' w' :
  incoming r' = incoming r → written w' = written w → supports_ping w' = supports_ping w →
  dir_inv all st b r w → dir_inv all st b r' w'.
Proof.
  intros Hr Hw Hs [Hi Hst]. split; [done|].
  unfold done_inv, ping_ok, pipeline in *. rewrite Hr, Hw, Hs. by destruct st.
Qed.

Lemma dir_inv_prefix all st b (r : R) (w : W) : dir_inv all st b r w → written w `prefix_of` all.
Proof.
  intros [_ Hst]. destruct st; [|by destruct Hst as [-> _]..].
  destruct Hst as (_ & _ & <-). unfold pipeline. by eexists.
Qed.

Lemma transfer_post_prefix all x st b (r : R) (w : W) :
  transfer_post all x st b r w → written w `prefix_of` all.
Proof.
  destruct x as [[]|]; cbn [transfer_post]; try done; [intros [_ ?]|intros ?];
    by eapply dir_inv_prefix.
Qed.
End Direction.

Section Halves.
Context {R W : Type} `{AsyncReadLaws R} `{AsyncWriteLaws R} `{!AsyncPing R} `{!AsyncStreamLaws R}
  `{AsyncReadLaws W} `{AsyncWriteLaws W} `{!AsyncPing W} `{!AsyncStreamLaws W}.

Lemma dir_inv_set_ping all st b (r : R) (w : W) :
  dir_inv all st b r w → dir_inv all st (set_need_write_ping (supports_ping w) b) r w.
Proof.
  intros [Hi Hst]. split; [by destruct Hi; split|]. destruct st; [|done..].
  destruct Hst as (Hd & _ & Hp).
  split; [exact Hd|]. split; [intros Hx; exact Hx|exact Hp].
Qed.

(** One direction leaves the other's halves alone. *)
Lemma transfer_keeps fuel coop st b (r : R) (w : W) x st' b' r' w' :
  transfer_one_direction fuel coop st b r w = (x, (st', b', r', w')) →
  written r' = written r ∧ supports_ping r' = supports_ping r ∧ incoming w' = incoming w.
Proof.
  intros Hr.
  assert (∀ r0 : R, r0 = r → written r0 = written r ∧ supports_ping r0 = supports_ping r) as Hp
    by (by intros ? ->).
  pose proof (transfer_frame
    (fun r1 : R => written r1 = written r ∧ supports_ping r1 = supports_ping r)
    (fun w1 : W => incoming w1 = incoming w)) as Hf.
  specialize (Hf ltac:(intros n r1 [<- <-]; apply read_keeps)
    ltac:(intros bs w1 <-; apply write_keeps) ltac:(intros w1 <-; apply flush_keeps)
    ltac:(intros w1 <-; apply ping_keeps) ltac:(intros w1 <-; apply shutdown_keeps)
    fuel coop st b r w ltac:(done) eq_refl).
  rewrite Hr in Hf. cbn [fst snd] in Hf. tauto.
Qed.

End Halves.

Section Both.
Context {A B : Type} `{AsyncReadLaws A} `{AsyncWriteLaws A} `{!AsyncPing A} `{!AsyncStreamLaws A}
  `{AsyncReadLaws B} `{AsyncWriteLaws B} `{!AsyncPing B} `{!AsyncStreamLaws B}.
Implicit Types c : CopyBidirectional (A := A) (B := B).

(** A scheduler's choices for one poll: the timer, and the two budgets. *)
Abbreviation choice := (bool * bool * bool)%type.

(** [.await]: polled until ready, or until the choices run out. *)
Fixpoint bidirectional_run (fuel : nat) (cs : list choice) (c : CopyBidirectional (A := A) (B := B))
    : poll (res unit) * CopyBidirectional (A := A) (B := B) :=
  match cs with
  | [] => (Pending, c)
  | (p, c1, c2) :: cs' =>
      match bidirectional_poll fuel p c1 c2 c with
      | (Ready x, c') => (Ready x, c')
      | (Pending, c') => bidirectional_run fuel cs' c'
      end
  end.

Definition bidi_inv (all_b all_a : bytes) c : Prop :=
  dir_inv all_b (a_to_b c) (a_buf c) (side_a c) (side_b c) ∧
  dir_inv all_a (b_to_a c) (b_buf c) (side_b c) (side_a c).

Definition bidi_post (all_b all_a : bytes) (x : poll (res unit)) c : Prop :=
  match x with
  | Ready (Ok _) =>
      written (side_b c) = all_b ∧ written (side_a c) = all_a ∧
      incoming (side_a c) = [] ∧ incoming (side_b c) = [] ∧ a_to_b c = Done ∧ b_to_a c = Done
  | Pending => bidi_inv all_b all_a c
  | Ready (Err _) => written (side_b c) `prefix_of` all_b ∧ written (side_a c) `prefix_of` all_a
  | Ready (Panic _) | Ready OutOfFuel => False
  end.

Lemma bidirectional_poll_spec fuel p k1 k2 c all_b all_a x c' :
  bidirectional_poll fuel p k1 k2 c = (x, c') → bidi_inv all_b all_a c →
  (length all_b ≤ fuel)%nat → (length all_a ≤ fuel)%nat → bidi_post all_b all_a x c'.
Proof.
  unfold bidirectional_poll. intros Hr [Hab Hba] Hf1 Hf2. cbv zeta in Hr.
  set (buf1 := if has_sleep c && p then _ else a_buf c) in Hr.
  set (buf2 := if has_sleep c && p then _ else b_buf c) in Hr.
  assert (dir_inv all_b (a_to_b c) buf1 (side_a c) (side_b c)) as Hab1
    by (unfold buf1; destruct (_ && p); [by apply dir_inv_set_ping|done]).
  assert (dir_inv all_a (b_to_a c) buf2 (side_b c) (side_a c)) as Hba1
    by (unfold buf2; destruct (_ && p); [by apply dir_inv_set_ping|done]).
  destruct (transfer_one_direction fuel k1 _ buf1 _ _) as [x1 [[[s1 b1] ra] wb]] eqn:E1.
  destruct (transfer_keeps _ _ _ _ _ _ _ _ _ _ _ E1) as (Hwa & Hsa & Hib).
  assert (dir_inv all_a (b_to_a c) buf2 wb ra) as Hba2 by (by eapply dir_inv_frame).
  destruct (transfer_one_direction fuel k2 _ buf2 wb ra) as [x2 [[[s2 b2] rb] wa]] eqn:E2.
  destruct (transfer_keeps _ _ _ _ _ _ _ _ _ _ _ E2) as (Hwb & Hsb & Hia).
  pose proof (transfer_spec _ _ _ _ _ _ _ _ _ _ _ _ E1 Hab1 Hf1) as Hp1.
  pose proof (transfer_spec _ _ _ _ _ _ _ _ _ _ _ _ E2 Hba2 Hf2) as Hp2.
  clear E1 E2 Hab Hba Hab1 Hba1 Hba2.
  assert (written rb `prefix_of` all_b ∧ written wa `prefix_of` all_a) as [Hpre1 Hpre2].
  { rewrite Hwb. split; [exact (transfer_post_prefix _ _ _ _ _ _ Hp1)|exact (transfer_post_prefix _ _ _ _ _ _ Hp2)]. }
  assert (∀ s, dir_inv all_b s b1 ra wb → dir_inv all_b s b1 wa rb) as Hmove
    by (intros s; by apply dir_inv_frame).
  destruct x1 as [[]|], x2 as [[]|]; try done; simplify_eq; cbn in *; try done.
  - destruct Hp1 as [-> [_ [? ?]]], Hp2 as [-> [_ [? ?]]]. cbn. split_and!; congruence.
  - destruct Hp1 as [-> ?]. split; [by apply Hmove|done].
  - destruct Hp2 as [-> ?]. split; [by apply Hmove|done].
  - split; [by apply Hmove|done].
Qed.

Lemma bidirectional_run_spec fuel cs c all_b all_a x c' :
  bidirectional_run fuel cs c = (x, c') → bidi_inv all_b all_a c →
  (length all_b ≤ fuel)%nat → (length all_a ≤ fuel)%nat → bidi_post all_b all_a x c'.
Proof.
  revert c. induction cs as [|[[p k1] k2] cs IH]; intros c Hr Hi Hf1 Hf2; cbn in Hr;
    [by simplify_eq|].
  destruct (bidirectional_poll fuel p k1 k2 c) as [y c1] eqn:E.
  pose proof (bidirectional_poll_spec _ _ _ _ _ _ _ _ _ E Hi Hf1 Hf2) as Hp.
  destruct y as [z|]; [by simplify_eq|]. eauto.
Qed.

Lemma bidi_inv_start mem_a mem_b a b fa fb na nb :
  (0 < na)%nat → (0 < nb)%nat →
  bidi_inv (written b ++ incoming a) (written a ++ incoming b)
    (copy_bidirectional_start mem_a mem_b a b fa fb na nb).
Proof. intros Ha Hb. split; (split; [by apply copy_new_inv|]);
    (split; [intros Hx; discriminate Hx|]); (split; [intros Hx; discriminate Hx|reflexivity]). Qed.

(** A copy and then the shutdown of both sides, whose errors are ignored, as every
    caller does it.  [OutOfFuel]: the copy is still running when the schedule ends. *)
Definition copy_and_shutdown (fuel : nat) (cs : list choice) (c : CopyBidirectional (A := A) (B := B))
    : res unit * (A * B) :=
  match bidirectional_run fuel cs c with
  | (Ready r, c') => (r, ((shutdown (side_a c')).2, (shutdown (side_b c')).2))
  | (Pending, c') => (OutOfFuel, (side_a c', side_b c'))
  end.

Lemma shutdown_written {T} `{AsyncWriteLaws T} (s : T) : written (shutdown s).2 = written s.
Proof. destruct (shutdown s) as [r s'] eqn:Es. by apply shutdown_spec in Es as (_ & _ & ?). Qed.

Lemma copy_and_shutdown_spec fuel cs mem_a mem_b a b fa fb na nb r a' b' :
  copy_and_shutdown fuel cs (copy_bidirectional_start mem_a mem_b a b fa fb na nb) = (r, (a', b')) →
  (0 < na)%nat → (0 < nb)%nat →
  (length (written b ++ incoming a) ≤ fuel)%nat → (length (written a ++ incoming b) ≤ fuel)%nat →
  panics r = false ∧ written b' `prefix_of` written b ++ incoming a ∧
  written a' `prefix_of` written a ++ incoming b ∧
  (r = Ok tt → written b' = written b ++ incoming a ∧ written a' = written a ++ incoming b).
Proof.
  unfold copy_and_shutdown. intros Hr Ha Hb Hf1 Hf2.
  destruct (bidirectional_run fuel cs _) as [x c] eqn:E.
  pose proof (bidirectional_run_spec _ _ _ _ _ _ _ E (bidi_inv_start _ _ _ _ _ _ _ _ Ha Hb) Hf1 Hf2) as Hp.
  destruct x as [[[]|e|w|]|]; try done; injection Hr as <- <- <-; rewrite ?shutdown_written.
  - destruct Hp as (-> & -> & _). by split_and!.
  - destruct Hp as (? & ?). by split_and!.
  - destruct Hp as [Hab Hba]. split_and!; [done|exact (dir_inv_prefix _ _ _ _ _ Hab)|exact (dir_inv_prefix _ _ _ _ _ Hba)|done].
Qed.
End Both.

(** ** Properties *)

(** C1: a bidirectional copy with any buffer sizes, under any schedule: when it ends
    well, each side has been given exactly what the other sent, in order, both
    streams are at their end, and both directions have gone through their
    shutdown; while it runs, and when a stream fails, what each side has been
    given is a prefix of what the other sent.  It never panics, not even on a stream that has no ping, and
    a poll never spins: rounds are bounded by the bytes there are. *)
Theorem copy_bidirectional_correct {A B : Type}
    `{AsyncReadLaws A} `{AsyncWriteLaws A} `{!AsyncPing A} `{!AsyncStreamLaws A}
    `{AsyncReadLaws B} `{AsyncWriteLaws B} `{!AsyncPing B} `{!AsyncStreamLaws B}
    (mem_a mem_b : nat → byte) (a : A) (b : B) (fa fb : bool) (na nb fuel : nat)
    (cs : list (bool * bool * bool)) (x : poll (res unit)) (c : CopyBidirectional) :
  (0 < na)%nat → (0 < nb)%nat →
  (length (written b ++ incoming a) ≤ fuel)%nat → (length (written a ++ incoming b) ≤ fuel)%nat →
  bidirectional_run fuel cs (copy_bidirectional_start mem_a mem_b a b fa fb na nb) = (x, c) →
  match x with
  | Ready (Ok _) =>
      written (side_b c) = written b ++ incoming a ∧ written (side_a c) = written a ++ incoming b ∧
      incoming (side_a c) = [] ∧ incoming (side_b c) = [] ∧ a_to_b c = Done ∧ b_to_a c = Done
  | Pending | Ready (Err _) =>
      written (side_b c) `prefix_of` written b ++ incoming a ∧
      written (side_a c) `prefix_of` written a ++ incoming b
  | Ready (Panic _) | Ready OutOfFuel => False
  end.
Proof.
  intros Ha Hb Hf1 Hf2 Hr.
  pose proof (bidirectional_run_spec _ _ _ _ _ _ _ Hr (bidi_inv_start _ _ _ _ _ _ _ _ Ha Hb) Hf1 Hf2) as Hp.
  destruct x as [[]|]; try done. destruct Hp as [Hab Hba].
  split; [exact (dir_inv_prefix _ _ _ _ _ Hab)|exact (dir_inv_prefix _ _ _ _ _ Hba)].
Qed.

Definition demo_a : QuicStream Sink Script :=
  MkQuic (MkSink [] [WAccept 0; WPending]) (MkScript [EData x01 [x02; x03]; EPending; EData x04 []]).
Definition demo_b : QuicStream Sink Script :=
  MkQuic (MkSink [] [WPending; WAccept 1]) (MkScript [EPending; EData x05 [x06]]).

Definition demo_copy : poll (res unit) * CopyBidirectional :=
  bidirectional_run 10 (replicate 10 (false, true, true))
    (copy_bidirectional_start (fun _ => xff) (fun _ => xff) demo_a demo_b false false 2 3).

Lemma copy_bidirectional_correct_witness :
  written (side_b demo_copy.2) = [x01; x02; x03; x04] ∧ written (side_a demo_copy.2) = [x05; x06] ∧
  incoming (side_a demo_copy.2) = [] ∧ incoming (side_b demo_copy.2) = [] ∧
  a_to_b demo_copy.2 = Done ∧ b_to_a demo_copy.2 = Done.
Proof.
  refine (copy_bidirectional_correct (fun _ => xff) (fun _ => xff) demo_a demo_b false false 2 3 10
    (replicate 10 (false, true, true)) (Ready (Ok tt)) demo_copy.2 _ _ _ _ _); [cbn; lia..|].
  vm_compute. reflexivity.
Defined.
