(* ===== verification/Hysteria2Stream.v ===== *)
(** * Hysteria2 TCP streams (src/hysteria2.rs, [process_tcp_stream])

    A client's stream from its request to the end of the relay: the target is
    dialled, what arrived with the request is sent on, and the two sides are
    copied until both have ended.  The stream behind a handle of the system is a
    parameter, and so is whether the 60 s of the connection run out. *)

From Stdlib Require Import String.
From S2P Require Import Prelude RustStd Address AsyncStream StreamReader Varint Hysteria2Tcp.
From S2P Require Import LruCache Resolver Dial QuicStream CopyBidirectional.

(** What is left of a client's stream. *)
Inductive tcp_end (S R B : Type) : Type :=
| NoRequest (send : S) (recv : R)
| NotConnected (server : QuicStream S R)
| Served (server : QuicStream S R) (client : B).
Arguments NoRequest {S R B} _ _.
Arguments NotConnected {S R B} _.
Arguments Served {S R B} _ _.

Definition TCP_COPY_SIZE : nat := Z.to_nat 32768.

Section Process.
Context {S R B C K : Type} `{AsyncWrite S} `{AsyncRead R} `{AsyncRead B} `{AsyncWrite B} `{AsyncPing B}
  `{!Lru bytes CacheEntry C} `{SocketSys K}.
Context (system : bytes → Z → res (list SocketAddr)) (t1 t2 : Z) (tcp_stream : nat → B)
  (mem mem_a mem_b : nat → byte) (padding : bytes).
Abbreviation Net := (Resolver (C := C) * K)%type.
(** When the timeout of the connection runs out: how it leaves the network. *)
Context (setup_timeout : option Net) (fuel : nat) (polls : list (bool * bool * bool)).

Definition setup_failed (remote_location : NetLocation) (e : io_error) : io_error :=
  IoError (err_kind e) (str "failed to setup client stream to " ++ show_netloc remote_location ++ str ": " ++ err_msg e).
Definition setup_timed_out (remote_location : NetLocation) : io_error :=
  IoError TimedOut (str "client setup to " ++ show_netloc remote_location ++ str " timed out").

(** The relay, once the target is connected. *)
Definition serve_tcp (server_stream : QuicStream S R) (client_stream : B) (unparsed_data : bytes)
    : res unit * tcp_end S R B :=
  let client_requires_flush := negb (bool_decide (unparsed_data = [])) in
  match write_loop h3_write_error (length unparsed_data) unparsed_data 0 client_stream with
  | (Ok _, client_stream) =>
      let '(copy_result, (server_stream, client_stream)) :=
        copy_and_shutdown fuel polls
          (copy_bidirectional_start mem_a mem_b server_stream client_stream false client_requires_flush
             TCP_COPY_SIZE TCP_COPY_SIZE) in
      (copy_result, Served server_stream client_stream)
  | (Err e, client_stream) => (Err e, Served server_stream client_stream)
  | (Panic w, client_stream) => (Panic w, Served server_stream client_stream)
  | (OutOfFuel, client_stream) => (OutOfFuel, Served server_stream client_stream)
  end.

Definition process_tcp_stream (send : S) (recv : R) (net : Net) : res unit * tcp_end S R B * Net :=
  match handle_tcp_header mem padding (send, recv) with
  | (Err e, (send, recv)) => (Err e, NoRequest (shutdown send).2 recv, net)
  | (Panic w, (send, recv)) => (Panic w, NoRequest send recv, net)
  | (OutOfFuel, (send, recv)) => (OutOfFuel, NoRequest send recv, net)
  | (Ok (remote_location, stream_reader), (send, recv)) =>
      let server_stream := MkQuic send recv in
      match setup_timeout with
      | Some net =>
          (Err (setup_timed_out remote_location), NotConnected (shutdown server_stream).2, net)
      | None =>
          match connect_tcp_arc system t1 t2 remote_location net with
          | (Ok fd, net) =>
              let '(r, e) := serve_tcp server_stream (tcp_stream fd) (unparsed_data stream_reader) in (r, e, net)
          | (Err e, net) =>
              (Err (setup_failed remote_location e), NotConnected (shutdown server_stream).2, net)
          | (Panic w, net) => (Panic w, NotConnected server_stream, net)
          | (OutOfFuel, net) => (OutOfFuel, NotConnected server_stream, net)
          end
      end
  end.
End Process.

(** ** Lemmas *)

Section Lemmas.
Context {S R B : Type} `{AsyncWriteLaws S} `{AsyncReadLaws R}
  `{AsyncReadLaws B} `{AsyncWriteLaws B} `{!WriteProgress B} `{!AsyncPing B} `{!AsyncStreamLaws B}.
Context (mem_a mem_b : nat → byte) (fuel : nat) (polls : list (bool * bool * bool)).

(** The target is given what came with the request, then what the client sends. *)
Lemma serve_tcp_spec (server : QuicStream S R) (client : B) bs r e :
  serve_tcp mem_a mem_b fuel polls server client bs = (r, e) →
  (length (written client ++ bs ++ incoming server) ≤ fuel)%nat →
  (length (written server ++ incoming client) ≤ fuel)%nat →
  panics r = false ∧ ∃ server' client', e = Served server' client' ∧
    written client' `prefix_of` written client ++ bs ++ incoming server ∧
    written server' `prefix_of` written server ++ incoming client ∧
    (r = Ok tt → written client' = written client ++ bs ++ incoming server ∧
                 written server' = written server ++ incoming client).
Proof.
  unfold serve_tcp. intros Hr Hf1 Hf2.
  pose proof (write_loop_frame (fun d : B => incoming d = incoming client) h3_write_error (length bs) bs 0 client) as Hi.
  specialize (Hi ltac:(intros b d <-; apply write_keeps) eq_refl).
  destruct (write_loop _ _ bs 0 client) as [r1 c1] eqn:E1. cbn [snd] in Hi.
  destruct (write_loop_spec _ _ _ _ _ _ _ E1 ltac:(lia) ltac:(lia)) as (Hnf & Hnp & [k Hk] & Hok).
  rewrite drop_0 in Hk, Hok. destruct r1 as [[]|err|w|]; try done.
  - specialize (Hok eq_refl). destruct (copy_and_shutdown _ _ _) as [r2 [s2 c2]] eqn:E2. injection Hr as <- <-.
    assert (0 < TCP_COPY_SIZE)%nat as Hpos by (unfold TCP_COPY_SIZE; lia).
    rewrite <-Hi in *. rewrite app_assoc, <-Hok in *.
    destruct (copy_and_shutdown_spec _ _ _ _ _ _ _ _ _ _ _ _ _ E2 Hpos Hpos Hf1 Hf2) as (? & ? & ? & ?).
    split; [done|]. exists s2, c2. by split_and!.
  - injection Hr as <- <-. split; [done|]. exists server, c1. split_and!; [done| |by apply prefix_app_r|done].
    rewrite Hk. apply prefix_app. exists (drop k bs ++ incoming server). by rewrite app_assoc, take_drop.
Qed.
End Lemmas.

Section Claims.
Context {S R B C K : Type} `{AsyncWriteLaws S} `{!WriteProgress S} `{AsyncReadLaws R}
  `{AsyncReadLaws B} `{AsyncWriteLaws B} `{!WriteProgress B} `{!AsyncPing B} `{!AsyncStreamLaws B}
  `{!Lru bytes CacheEntry C} `{SocketSys K}.
Context (system : bytes → Z → res (list SocketAddr)) (t1 t2 : Z) (tcp_stream : nat → B)
  (mem mem_a mem_b : nat → byte) (padding : bytes) (setup_timeout : option (Resolver (C := C) * K))
  (fuel : nat) (polls : list (bool * bool * bool)).
Context (send : S) (recv : R) (net net' : Resolver (C := C) * K) (r : res unit) (e : tcp_end S R B).

Abbreviation process :=
  (process_tcp_stream system t1 t2 tcp_stream mem mem_a mem_b padding setup_timeout fuel polls send recv net).

(** What the client and the target have been sent when a stream to [fd] ends with [r]. *)
Definition relayed (payload : bytes) (fd : nat) (net1 : Resolver (C := C) * K) : Prop :=
  panics r = false ∧
  ((∃ server client, e = Served server client ∧ net' = net1 ∧
      written client `prefix_of` written (tcp_stream fd) ++ payload ∧
      written server `prefix_of` written send ++ tcp_response padding ++ incoming (tcp_stream fd) ∧
      (r = Ok tt → written client = written (tcp_stream fd) ++ payload ∧
                   written server = written send ++ tcp_response padding ++ incoming (tcp_stream fd))) ∨
   (∃ err send' recv', r = Err err ∧ e = NoRequest send' recv' ∧ net' = net ∧
      (stream_error (T := R) err ∨ err = io_err Other "H3 stream write failed"))).

(** A client that asks for a target that can be reached is connected to it: it is
    sent the response and then what the target sends, and the target what follows
    the request, in order, all of it when the stream ends without an error.  The
    stream fails before that only if reading the request or writing the response
    fails.  It never panics. *)
Theorem hysteria_stream_relayed loc payload fd net1 :
  spec_tcp_request (incoming recv) = Some (loc, payload) → setup_timeout = None →
  connect_tcp_arc system t1 t2 loc net = (Ok fd, net1) →
  (length (written (tcp_stream fd) ++ payload) ≤ fuel)%nat →
  (length (written send ++ tcp_response padding ++ incoming (tcp_stream fd)) ≤ fuel)%nat →
  process = (r, e, net') →
  relayed payload fd net1.
Proof.
  intros Hs Ht Hd Hf1 Hf2 Hr. unfold process_tcp_stream in Hr. unfold relayed. rewrite Ht in Hr.
  destruct (handle_tcp_header mem padding (send, recv)) as [x [send1 recv1]] eqn:Eh.
  apply handle_tcp_header_post in Eh. unfold tcp_header_post in Eh. cbn [fst snd] in Eh. rewrite Hs in Eh.
  destruct x as [[loc1 rd]|err|w|]; try done.
  - destruct Eh as (_ & [= <- ->] & Hw). rewrite Hd in Hr.
    destruct (serve_tcp _ _ _ _ _ _ _) as [r1 e1] eqn:E1. injection Hr as <- <- <-.
    rewrite (app_assoc (written send)), <-Hw in Hf2 |- *.
    destruct (serve_tcp_spec _ _ _ _ _ _ _ _ _ E1 Hf1 Hf2) as (Hp & server & client & -> & Hc & Hsv & Hok).
    split; [done|]. left. exists server, client. by split_and!.
  - injection Hr as <- <- <-. split; [done|]. right. eexists _, _, _. split_and!; [done..|].
    destruct Eh as [[_ [?|?]]|[? _]]; [done|by left|by right].
Qed.

(** No connection is made for a stream whose request is malformed: it fails, the
    client is sent nothing and the network is left as it was. *)
Theorem hysteria_malformed_not_dialled :
  spec_tcp_request (incoming recv) = None → process = (r, e, net') →
  (∃ err, r = Err err) ∧ net' = net ∧
  ∃ send' recv', e = NoRequest send' recv' ∧ written send' = written send.
Proof.
  intros Hs Hr. unfold process_tcp_stream in Hr.
  destruct (handle_tcp_header mem padding (send, recv)) as [x [send1 recv1]] eqn:Eh.
  apply handle_tcp_header_post in Eh. unfold tcp_header_post in Eh. cbn [fst snd] in Eh. rewrite Hs in Eh.
  destruct x as [[loc1 rd]|err|w|]; [by destruct Eh as (_ & ? & _)| |done..].
  injection Hr as <- <- <-. destruct Eh as [[Hw _]|(_ & [? ?] & _)]; [|done].
  split_and!; [by exists err|done|]. eexists _, _. split; [done|]. by rewrite shutdown_written.
Qed.
End Claims.

(** ** Runs *)

Definition demo_names (host : bytes) (port : Z) : res (list SocketAddr) := Ok [SocketV4 (Ipv4 1) port].
Definition demo_net : Resolver (C := MapLru bytes CacheEntry) * System := (demo_rv, MkSystem [] (fun _ => None)).
Definition demo_target (fd : nat) : QuicStream Sink Script :=
  MkQuic (MkSink [] [WAccept 1]) (MkScript [EPending; EData x32 [x30; x30]]).
Definition demo_process (recv : Script) :=
  process_tcp_stream demo_names 0 0 demo_target (fun _ => x00) (fun _ => x00) (fun _ => x00) [xaa] None 100
    (replicate 5 (false, true, true)) (MkSink [] []) recv demo_net.

Lemma demo_process_eta recv :
  process_tcp_stream demo_names 0 0 demo_target (fun _ => x00) (fun _ => x00) (fun _ => x00) [xaa] None 100
    (replicate 5 (false, true, true)) (MkSink [] []) recv demo_net =
  ((demo_process recv).1.1, (demo_process recv).1.2, (demo_process recv).2).
Proof. fold (demo_process recv). by destruct (demo_process recv) as [[] ?]. Qed.

Lemma demo_process_ok : (demo_process demo_request).1.1 = Ok tt.
Proof. vm_compute. reflexivity. Qed.

Definition demo_loc : NetLocation := NetLoc (Addr_Hostname [x61]) 80.

Lemma hysteria_stream_relayed_witness :
  ∃ server client, (demo_process demo_request).1.2 = Served server client ∧
    written client = [x47; x45] ∧ written server = tcp_response [xaa] ++ [x32; x30; x30].
Proof.
  destruct (hysteria_stream_relayed demo_names 0 0 demo_target (fun _ => x00) (fun _ => x00) (fun _ => x00) [xaa] None
    100 (replicate 5 (false, true, true)) (MkSink [] []) demo_request demo_net (demo_process demo_request).2
    (demo_process demo_request).1.1 (demo_process demo_request).1.2 demo_loc [x47; x45] 0%nat
    (connect_tcp_arc demo_names 0 0 demo_loc demo_net).2) with (6 := demo_process_eta demo_request)
    as [_ [(server & client & He & _ & _ & _ & Hw)|(err & ? & ? & Hr & _)]].
  - vm_compute. reflexivity.
  - reflexivity.
  - apply with_fst. vm_compute. reflexivity.
  - apply Nat.leb_le. vm_compute. reflexivity.
  - apply Nat.leb_le. vm_compute. reflexivity.
  - exists server, client. split; [exact He|]. exact (Hw demo_process_ok).
  - rewrite demo_process_ok in Hr. discriminate Hr.
Defined.

(** A request of another type. *)
Lemma hysteria_malformed_not_dialled_witness :
  (demo_process (MkScript [EData x44 [x02; x04]])).2 = demo_net.
Proof.
  refine (proj1 (proj2 (hysteria_malformed_not_dialled demo_names 0 0 demo_target (fun _ => x00) (fun _ => x00)
    (fun _ => x00) [xaa] None 100 (replicate 5 (false, true, true)) (MkSink [] []) (MkScript [EData x44 [x02; x04]])
    demo_net _ _ _ _ (demo_process_eta _)))).
  vm_compute. reflexivity.
Defined.
