(* ===== verification/Hysteria2Conn.v ===== *)
(** * Hysteria2 connections (src/hysteria2.rs)

    A connection must authenticate with an HTTP/3 request before anything is
    done for it; then its UDP, unidirectional and TCP loops run until the
    connection is lost.

    quinn, h3 and http are interfaces: requests are asked for their URI, method and
    headers ([HttpRequest]), the HTTP/3 server for the next request ([H3Server]), the
    connection for its next stream or datagram ([QuicConn]).  [try_join!] runs the
    three loops under a schedule: which of them takes its next turn. *)

From Stdlib Require Import String.
From S2P Require Import Prelude RustStd Address AsyncStream StreamReader LruCache Hysteria2Udp QuicStream.

(** [Request::uri], [Request::method] compared with a text; a header of the request,
    and its [to_str], [None] for one that is not text. *)
Class HttpRequest (Q : Type) : Type := {
  uri_is : Q → bytes → bool;
  method_is : Q → bytes → bool;
  header_str : Q → bytes → option (option bytes) }.

Record Response : Set := MkResponse { status : Z; resp_headers : list (bytes * bytes) }.

(** [P] is a request that has arrived and is still to be resolved, [V] the stream the
    response is sent on; [requests_left] bounds the requests still to come. *)
Class H3Server (X Q P V : Type) : Type := {
  h3_accept : M X (option P);
  h3_resolve : P → M X (Q * V);
  h3_send_response : V → Response → M X unit;
  h3_finish : V → M X unit;
  requests_left : X → nat }.

Definition AUTH_TIMEOUT : Z := 3 * 10 ^ 9.
Definition CLOSE_ERR_CODE_OK : Z := 256.

(** An error wrapped with a message, of which the fixed part is kept. *)
Definition wrap_err {X A} (msg : string) (m : M X A) : M X A := fun x =>
  let '(r, x') := m x in (map_err (fun _ => io_err Other msg) r, x').

(** ** Authentication *)

Section Auth.
Context {X Q P V : Type} `{HttpRequest Q} `{H3Server X Q P V}.

Definition validate_auth_request (req : Q) (password : bytes) : res unit :=
  if negb (uri_is req (str "https://hysteria/auth")) then Err (io_err Other "unexpected uri")
  else if negb (method_is req (str "POST")) then Err (io_err Other "unexpected method")
  else
    match header_str req (str "hysteria-auth") with
    | None => Err (io_err Other "missing auth header")
    | Some None => Err (io_err Other "invalid auth header value")
    | Some (Some auth_str) =>
        if bool_decide (auth_str = password) then Ok tt
        else Err (io_err Other "incorrect auth password")
    end.

(** Between 1 and 79 letters and digits; both draws are the generator's. *)
Definition generate_ascii_string (random_range : Z → Z → Z) (sample : nat → byte) : bytes :=
  sample <$> seq 0 (Z.to_nat (random_range 1 80)).

Definition auth_response (udp_enabled : bool) (padding : bytes) : Response :=
  MkResponse 233
    [(str "Hysteria-UDP", if udp_enabled then str "true" else str "false");
     (str "Hysteria-CC-RX", str "0");
     (str "Hysteria-Padding", padding)].

Definition reject_response : Response := MkResponse 404 [].

Context (password : bytes) (udp_enabled : bool) (random_range : Z → Z → Z) (sample : nat → byte).

Fixpoint auth_loop (fuel : nat) : M X unit :=
  match fuel with
  | O => lift OutOfFuel
  | S fuel' =>
      accepted ← wrap_err "H3 accept failed" h3_accept;
      match accepted with
      | None => throw (io_err UnexpectedEof "no streams")
      | Some resolver =>
          '(req, stream) ← wrap_err "Failed to resolve request" (h3_resolve resolver);
          match validate_auth_request req password with
          | Ok _ =>
              wrap_err "failed to send auth response"
                (h3_send_response stream
                   (auth_response udp_enabled (generate_ascii_string random_range sample))) ;;
              wrap_err "failed to finish auth stream" (h3_finish stream)
          | Err _ =>
              wrap_err "failed to send reject response" (h3_send_response stream reject_response) ;;
              wrap_err "failed to finish reject stream" (h3_finish stream) ;;
              auth_loop fuel'
          | Panic w => lift (Panic w)
          | OutOfFuel => lift OutOfFuel
          end
      end
  end.

Definition auth_connection : M X unit := fun x => auth_loop (S (requests_left x)) x.
End Auth.

(** ** The loops *)

(** [quinn::ConnectionError]: how the connection was lost. *)
Inductive conn_error : Set := ApplicationClosed | ConnectionClosed | LostOther (e : io_error).

(** [next_turn] is the next datagram with the times the loop reads it at, [None] when
    the connection is lost; [spawn_tcp] starts the task of a stream. *)
Class QuicConn (X S R : Type) : Type := {
  accept_bi : X → (S * R + conn_error) * X;
  accept_uni : X → (R + conn_error) * X;
  next_turn : X → option turn * X;
  spawn_tcp : S * R → X → X;
  stop : R → X → X;
  conn_close : Z → bytes → X → X;
  cancel : X → X }.

(** One turn of a loop: it goes on, with what it keeps, or it ends. *)
Inductive flow (L : Type) : Type := Go (l : L) | Done (r : res unit).
Arguments Go {L} _.
Arguments Done {L} _.

Inductive branch : Set := UdpBranch | UniBranch | TcpBranch.
#[export] Instance branch_eq_dec : EqDecision branch.
Proof. solve_decision. Defined.

Section Loops.
Context {X S R C : Type} `{QuicConn X S R} `{!Lru Z FragmentedPacket C} `{UdpWorld X}.

(** Every stream accepted is given to a task of its own. *)
Definition tcp_step (x : X) : flow unit * X :=
  match accept_bi x with
  | (inl streams, x) => (Go tt, spawn_tcp streams x)
  | (inr (ApplicationClosed | ConnectionClosed), x) => (Done (Ok tt), x)
  | (inr (LostOther _), x) => (Done (Err (io_err Other "failed to accept bidirectional stream")), x)
  end.

(** Unidirectional streams are stopped as they come. *)
Definition uni_step (x : X) : flow unit * X :=
  match accept_uni x with
  | (inl recv_stream, x) => (Go tt, stop recv_stream x)
  | (inr (ApplicationClosed | ConnectionClosed), x) => (Done (Ok tt), x)
  | (inr (LostOther _), x) => (Done (Err (io_err Other "unidirectional loop error")), x)
  end.

(** What the UDP loop keeps: the time of the last cleanup and its sessions. *)
Abbreviation udp_state := (Z * gmap Z (UdpSession (C := C)))%type.

Definition udp_step (l : udp_state) (x : X) : flow udp_state * X :=
  match next_turn x with
  | (None, x) => (Done (Err (io_err Other "failed to read datagram")), x)
  | (Some t, x) =>
      match udp_turn l.1 t (l.2, x) with
      | (Ok last_cleanup, (sessions, x)) => (Go (last_cleanup, sessions), x)
      | (Err e, (_, x)) => (Done (Err e), x)
      | (Panic w, (_, x)) => (Done (Panic w), x)
      | (OutOfFuel, (_, x)) => (Done OutOfFuel, x)
      end
  end.

(** The loops that have not ended. *)
Record joined : Type := MkJoined { udp_left : option udp_state; uni_left : bool; tcp_left : bool }.

(** A turn of a loop that has not ended, and the loops left after it. *)
Definition branch_step (b : branch) (j : joined) (x : X) : flow joined * X :=
  match b with
  | UdpBranch =>
      match udp_left j with
      | None => (Go j, x)
      | Some l =>
          match udp_step l x with
          | (Go l, x) => (Go (MkJoined (Some l) (uni_left j) (tcp_left j)), x)
          | (Done (Ok _), x) => (Go (MkJoined None (uni_left j) (tcp_left j)), x)
          | (Done r, x) => (Done r, x)
          end
      end
  | UniBranch =>
      if uni_left j then
        match uni_step x with
        | (Go _, x) => (Go j, x)
        | (Done (Ok _), x) => (Go (MkJoined (udp_left j) false (tcp_left j)), x)
        | (Done r, x) => (Done r, x)
        end
      else (Go j, x)
  | TcpBranch =>
      if tcp_left j then
        match tcp_step x with
        | (Go _, x) => (Go j, x)
        | (Done (Ok _), x) => (Go (MkJoined (udp_left j) (uni_left j) false), x)
        | (Done r, x) => (Done r, x)
        end
      else (Go j, x)
  end.

(** [try_join!]: all of them, or the first that fails; the rest are then dropped.
    A schedule that ends before that leaves them waiting. *)
Definition all_ended (j : joined) : bool :=
  match udp_left j with None => negb (uni_left j) && negb (tcp_left j) | Some _ => false end.

Fixpoint try_join (schedule : list branch) (j : joined) : M X unit := fun x =>
  if all_ended j then (Ok tt, x)
  else
    match schedule with
    | [] => (OutOfFuel, x)
    | b :: schedule =>
        match branch_step b j x with
        | (Go j, x) => try_join schedule j x
        | (Done r, x) => (r, x)
        end
    end.
End Loops.
Arguments joined C : clear implicits.

(** ** A connection *)

Section Connection.
Context {X Q P V S R C : Type} `{HttpRequest Q} `{H3Server X Q P V} `{QuicConn X S R}
  `{!Lru Z FragmentedPacket C} `{UdpWorld X}.
Context (password : bytes) (udp_enabled : bool) (random_range : Z → Z → Z) (sample : nat → byte).
(** The set-up of HTTP/3; whether the authentication times out, and how it leaves the
    connection then; the time the UDP loop starts at; the schedule of the loops. *)
Context (h3_new : M X unit) (auth_timeout : option X) (start : Z) (schedule : list branch).

Definition loops : joined C :=
  MkJoined (if udp_enabled then Some (start, ∅) else None) true true.

Definition after_auth : M X unit := fun connection =>
  let '(result, connection) := try_join schedule loops connection in
  match result with
  | Ok _ => (Ok tt, cancel connection)
  | Err e => (Err e, conn_close CLOSE_ERR_CODE_OK [] (cancel connection))
  | Panic w => (Panic w, connection)
  | OutOfFuel => (OutOfFuel, connection)
  end.

Definition process_connection (conn : res X) : res unit * option X :=
  match conn with
  | Err e => (Err e, None)
  | Panic w => (Panic w, None)
  | OutOfFuel => (OutOfFuel, None)
  | Ok connection =>
      match wrap_err "H3 connection setup failed" h3_new connection with
      | (Ok _, connection) =>
          match auth_timeout with
          | Some connection =>
              (Err (io_err TimedOut "authentication timeout"),
               Some (conn_close CLOSE_ERR_CODE_OK (str "auth timeout") connection))
          | None =>
              match auth_connection password udp_enabled random_range sample connection with
              | (Ok _, connection) =>
                  let '(r, connection) := after_auth connection in (r, Some connection)
              | (Err e, connection) =>
                  (Err e, Some (conn_close CLOSE_ERR_CODE_OK (str "auth failed") connection))
              | (Panic w, connection) => (Panic w, Some connection)
              | (OutOfFuel, connection) => (OutOfFuel, Some connection)
              end
          end
      | (Err e, connection) => (Err e, Some connection)
      | (Panic w, connection) => (Panic w, Some connection)
      | (OutOfFuel, connection) => (OutOfFuel, Some connection)
      end
  end.
End Connection.

(** ** What the HTTP/3 server promises

    [requests x] are the requests that will be accepted, in order, and [responses x]
    what has been sent. *)
Class H3Laws (X Q P V : Type) `{H3Server X Q P V} : Type := {
  requests : X → list P;
  request_of : P → Q;
  stream_of : P → V;
  responses : X → list (V * Response);
  requests_left_law x : (length (requests x) ≤ requests_left x)%nat;
  h3_accept_law x r x' : h3_accept x = (r, x') → responses x' = responses x ∧
    match r with
    | Ok (Some p) => requests x = p :: requests x'
    | Ok None => requests x = []
    | Err _ => True
    | _ => False
    end;
  h3_resolve_law p x r x' : h3_resolve p x = (r, x') → requests x' = requests x ∧ responses x' = responses x ∧
    match r with Ok (q, v) => q = request_of p ∧ v = stream_of p | Err _ => True | _ => False end;
  h3_send_law v m x r x' : h3_send_response v m x = (r, x') → requests x' = requests x ∧
    match r with
    | Ok _ => responses x' = responses x ++ [(v, m)]
    | Err _ => responses x' = responses x
    | _ => False
    end;
  h3_finish_law v x r x' : h3_finish v x = (r, x') → requests x' = requests x ∧ responses x' = responses x ∧
    match r with Ok _ | Err _ => True | _ => False end }.

Lemma wrap_err_inv {X A} msg (m : M X A) x r x' :
  wrap_err msg m x = (r, x') →
  ∃ r0, m x = (r0, x') ∧ r = map_err (fun _ => io_err Other msg) r0.
Proof. unfold wrap_err. destruct (m x) as [r0 x0]. intros [= <- <-]. eauto. Qed.

Section AuthLemmas.
Context {X Q P V : Type} `{HttpRequest Q} `{H3Laws X Q P V}.
Context (password : bytes) (udp_enabled : bool) (random_range : Z → Z → Z) (sample : nat → byte).

Definition valid (p : P) : Prop := validate_auth_request (request_of p) password = Ok tt.
Definition rejected (p : P) : V * Response := (stream_of p, reject_response).
Definition accepted (p : P) : V * Response :=
  (stream_of p, auth_response udp_enabled (generate_ascii_string random_range sample)).

(** Every request before the one that is accepted is answered with a 404. *)
Definition auth_post (x : X) (r : res unit) (x' : X) : Prop :=
  ∃ bad, Forall (fun p => ~ valid p) bad ∧
  match r with
  | Ok _ => ∃ p, requests x = bad ++ p :: requests x' ∧ valid p ∧
      responses x' = responses x ++ (rejected <$> bad) ++ [accepted p]
  | Err e =>
      (bad `prefix_of` requests x ∧ responses x' = responses x ++ (rejected <$> bad) ∧
       (e = io_err UnexpectedEof "no streams" → bad = requests x)) ∨
      (∃ p, bad ++ [p] `prefix_of` requests x ∧ valid p ∧ e = io_err Other "failed to finish auth stream" ∧
         responses x' = responses x ++ (rejected <$> bad) ++ [accepted p])
  | _ => False
  end.

Lemma validate_returns (q : Q) :
  match validate_auth_request q password with Ok _ | Err _ => True | _ => False end.
Proof. unfold validate_auth_request. by repeat case_match. Qed.

(** The checks, in words. *)
Lemma valid_iff (p : P) :
  valid p ↔ uri_is (request_of p) (str "https://hysteria/auth") = true ∧
            method_is (request_of p) (str "POST") = true ∧
            header_str (request_of p) (str "hysteria-auth") = Some (Some password).
Proof.
  unfold valid, validate_auth_request. destruct (uri_is _ _), (method_is _ _); cbn [negb]; try naive_solver.
  destruct (header_str _ _) as [[h|]|]; try naive_solver. case_bool_decide; naive_solver.
Qed.

(** A failure before any response of this round. *)
Lemma auth_post_fail x x' msg : responses x' = responses x → auth_post x (Err (io_err Other msg)) x'.
Proof. intros Hr. exists []. split; [constructor|]. left. rewrite app_nil_r. split_and!; [apply prefix_nil|done..]. Qed.

(** A request is turned away, and the loop goes on. *)
Lemma auth_post_reject x x1 x' p r :
  requests x = p :: requests x1 → responses x1 = responses x ++ [rejected p] → ~ valid p →
  auth_post x1 r x' → auth_post x r x'.
Proof.
  intros Hq Hs Hv (bad & Hbad & Hp). exists (p :: bad). split; [by constructor|].
  destruct r as [[]|e|w|]; try done; rewrite Hq; cbn [fmap list_fmap app].
  - destruct Hp as (p' & Hq' & Hv' & Hs'). exists p'. rewrite Hq', Hs', Hs, <-app_assoc. done.
  - destruct Hp as [(Hpre & Hs' & He)|(p' & Hpre & Hv' & He & Hs')]; rewrite Hs', Hs, <-app_assoc.
    + left. split_and!; [by apply prefix_cons|done|]. intros Heq. by rewrite He.
    + right. exists p'. split_and!; [by apply prefix_cons|done..].
Qed.

Abbreviation auth := (auth_loop password udp_enabled random_range sample).

Lemma auth_loop_spec fuel x r x' :
  auth fuel x = (r, x') → (length (requests x) < fuel)%nat → auth_post x r x'.
Proof.
  revert x. induction fuel as [|fuel IH]; intros x Hr Hf; [lia|]. cbn [auth_loop] in Hr. rewrite M_bind_eq in Hr.
  destruct (wrap_err _ h3_accept x) as [r1 x1] eqn:E1. apply wrap_err_inv in E1 as (y1 & E1 & ->).
  apply h3_accept_law in E1 as [Hs1 Hq1].
  destruct y1 as [[p|]|e|w|]; try done; cbn [map_err] in Hr; simplify_eq/=; [| |by apply auth_post_fail].
  2: { injection Hr as <- <-. exists []. split; [constructor|]. left. rewrite app_nil_r, Hq1. by split_and!. }
  rewrite M_bind_eq in Hr.
  destruct (wrap_err _ (h3_resolve p) x1) as [r2 x2] eqn:E2. apply wrap_err_inv in E2 as (y2 & E2 & ->).
  apply h3_resolve_law in E2 as (Hq2 & Hs2 & Hy2).
  destruct y2 as [[q v]|e|w|]; try done; cbn [map_err] in Hr; simplify_eq/=; [|apply auth_post_fail; congruence].
  destruct Hy2 as [-> ->]. pose proof (validate_returns (request_of p)) as Hval.
  destruct (validate_auth_request (request_of p) password) as [[]|e|w|] eqn:Ev; try done; rewrite M_bind_eq in Hr.
  - destruct (wrap_err _ _ x2) as [r3 x3] eqn:E3. apply wrap_err_inv in E3 as (y3 & E3 & ->).
    apply h3_send_law in E3 as [Hq3 Hs3].
    destruct y3 as [[]|e|w|]; try done; cbn [map_err] in Hr; simplify_eq/=; [|apply auth_post_fail; congruence].
    apply wrap_err_inv in Hr as (y4 & E4 & ->). apply h3_finish_law in E4 as (Hq4 & Hs4 & Hy4).
    exists []. split; [constructor|]. destruct y4 as [[]|e|w|]; try done; cbn [map_err].
    + exists p. split_and!; [|done|]; [rewrite Hq1|]; unfold accepted; cbn; congruence.
    + right. exists p. rewrite Hq1. split_and!; [by apply prefix_cons, prefix_nil|done..|unfold accepted; cbn; congruence].
  - destruct (wrap_err _ _ x2) as [r3 x3] eqn:E3. apply wrap_err_inv in E3 as (y3 & E3 & ->).
    apply h3_send_law in E3 as [Hq3 Hs3].
    destruct y3 as [[]|e3|w|]; try done; cbn [map_err] in Hr; simplify_eq/=; [|apply auth_post_fail; congruence].
    rewrite M_bind_eq in Hr. destruct (wrap_err _ _ x3) as [r4 x4] eqn:E4. apply wrap_err_inv in E4 as (y4 & E4 & ->).
    apply h3_finish_law in E4 as (Hq4 & Hs4 & Hy4).
    assert (~ valid p) as Hnv by (unfold valid; congruence).
    eapply (auth_post_reject x x4); [by rewrite Hq4, Hq3, Hq2, Hq1|by rewrite Hs4, Hs3, Hs2, Hs1|done|].
    destruct y4 as [[]|e4|w|]; try done; cbn [map_err] in Hr; simplify_eq/=; [|by apply auth_post_fail].
    apply (IH x4); [done|]. rewrite Hq1 in Hf. cbn [length] in Hf. rewrite Hq4, Hq3, Hq2. lia.
Qed.
End AuthLemmas.

(** ** What the connection promises

    Its view: the streams that have tasks, those the client has opened and that are
    still to be accepted, and how many unidirectional streams and datagrams will come. *)
Record conn_view (S R : Type) : Type := MkView {
  given : list (S * R); opened : list (S * R); unis : nat; datagrams : nat }.
Arguments MkView {S R} _ _ _ _.
Arguments given {S R} _.
Arguments opened {S R} _.
Arguments unis {S R} _.
Arguments datagrams {S R} _.

Class QuicConnLaws (X S R : Type) `{QuicConn X S R} : Type := {
  view : X → conn_view S R;
  accept_bi_law x y x' : accept_bi x = (y, x') →
    match y with
    | inl s => ∃ l, opened (view x) = s :: l ∧ view x' = MkView (given (view x)) l (unis (view x)) (datagrams (view x))
    | inr _ => view x' = view x
    end;
  accept_uni_law x y x' : accept_uni x = (y, x') →
    match y with
    | inl _ => ∃ n, unis (view x) = Datatypes.S n ∧ view x' = MkView (given (view x)) (opened (view x)) n (datagrams (view x))
    | inr _ => view x' = view x
    end;
  next_turn_law x y x' : next_turn x = (y, x') →
    match y with
    | Some _ => ∃ n, datagrams (view x) = Datatypes.S n ∧ view x' = MkView (given (view x)) (opened (view x)) (unis (view x)) n
    | None => view x' = view x
    end;
  spawn_tcp_law s x :
    view (spawn_tcp s x) = MkView (given (view x) ++ [s]) (opened (view x)) (unis (view x)) (datagrams (view x));
  stop_law r x : view (stop r x) = view x;
  conn_close_law code why x : view (conn_close code why x) = view x;
  cancel_law x : view (cancel x) = view x }.

(** ** Properties *)

(** C11: authentication succeeds only for a request to the authentication URI, with the
    method POST and the configured password, which is answered with 233 and whether
    UDP is served; every request before it was refused with a 404.  When it fails,
    no request was let in, but for one whose stream could not be finished; it fails
    for want of requests only when every request was refused.  It always returns. *)
Theorem hysteria_auth_correct {X Q P V : Type} `{HttpRequest Q} `{H3Laws X Q P V}
    (password : bytes) (udp_enabled : bool) (random_range : Z → Z → Z) (sample : nat → byte)
    (x x' : X) (r : res unit) :
  auth_connection password udp_enabled random_range sample x = (r, x') →
  auth_post password udp_enabled random_range sample x r x' ∧
  (∀ p : P, valid password p ↔
     uri_is (request_of p) (str "https://hysteria/auth") = true ∧
     method_is (request_of p) (str "POST") = true ∧
     header_str (request_of p) (str "hysteria-auth") = Some (Some password)).
Proof.
  intros Hr. split; [|apply valid_iff]. apply (auth_loop_spec _ _ _ _ _ _ _ _ Hr).
  pose proof (requests_left_law x). lia.
Qed.

(** Nothing is served to a client that never sends a valid request: whatever its
    loops would do, they are not started; the connection is closed, as failed or as
    timed out, and the error returned. *)
Theorem hysteria_unauthenticated_closed {X Q P V S R C : Type} `{HttpRequest Q} `{H3Laws X Q P V} `{QuicConn X S R}
    `{!Lru Z FragmentedPacket C} `{UdpWorld X}
    (password : bytes) (udp_enabled : bool) (random_range : Z → Z → Z) (sample : nat → byte)
    (h3_new : M X unit) (auth_timeout : option X) (start : Z) (schedule : list branch)
    (x x1 : X) (r : res unit) (x' : option X) :
  h3_new x = (Ok tt, x1) → Forall (fun p => ~ valid password p) (requests x1) →
  process_connection (C := C) password udp_enabled random_range sample h3_new auth_timeout start schedule (Ok x) =
    (r, x') →
  ∃ e y why, r = Err e ∧ x' = Some (conn_close CLOSE_ERR_CODE_OK why y) ∧
    (auth_timeout = Some y ∧ why = str "auth timeout" ∨
     auth_connection password udp_enabled random_range sample x1 = (Err e, y) ∧ why = str "auth failed").
Proof.
  intros Hn Hbad Hr. unfold process_connection, wrap_err in Hr. rewrite Hn in Hr. cbn [map_err] in Hr.
  destruct auth_timeout as [y|].
  { injection Hr as <- <-. eexists _, y, _. split_and!; [done..|]. by left. }
  destruct (auth_connection _ _ _ _ x1) as [r1 y] eqn:Ea.
  pose proof (requests_left_law x1) as Hl.
  destruct (auth_loop_spec _ _ _ _ _ _ _ _ Ea ltac:(lia)) as (bad & _ & Hp).
  destruct r1 as [[]|e|w|]; try done.
  - destruct Hp as (p & Hq & Hv & _). rewrite Hq in Hbad. apply Forall_app in Hbad as [_ Hbad].
    by apply Forall_cons in Hbad as [? _].
  - injection Hr as <- <-. eexists e, y, _. split_and!; [done..|]. by right.
Qed.

(** ** Runs *)

(** Requests as records, and a server that answers from a list of them. *)
Record Req : Set := MkReq { req_uri : bytes; req_method : bytes; req_auth : option (option bytes) }.

#[export] Instance Req_http : HttpRequest Req := {|
  uri_is q u := bool_decide (req_uri q = u);
  method_is q m := bool_decide (req_method q = m);
  header_str q h := if decide (h = str "hysteria-auth") then req_auth q else None |}.

Record Desk : Set := MkDesk {
  waiting : list (nat * Req); answers : list (nat * Response); closes : list (Z * bytes);
  arriving : list (Sink * Script); tasks : list (Sink * Script) }.

#[export] Instance Desk_h3 : H3Server Desk Req (nat * Req) nat := {|
  h3_accept d :=
    match waiting d with
    | p :: l => (Ok (Some p), MkDesk l (answers d) (closes d) (arriving d) (tasks d))
    | [] => (Ok None, d)
    end;
  h3_resolve p d := (Ok (p.2, p.1), d);
  h3_send_response v m d := (Ok tt, MkDesk (waiting d) (answers d ++ [(v, m)]) (closes d) (arriving d) (tasks d));
  h3_finish v d := (Ok tt, d);
  requests_left d := length (waiting d) |}.

#[export] Instance Desk_laws : H3Laws Desk Req (nat * Req) nat.
Proof.
  refine {| requests := waiting; request_of := snd; stream_of := fst; responses := answers |}.
  - intros d. cbn. lia.
  - intros [[|p l] a c st ta] r x' [= <- <-]; done.
  - by intros p d r x' [= <- <-].
  - by intros v m d r x' [= <- <-].
  - by intros v d r x' [= <- <-].
Defined.

#[export] Instance Desk_conn : QuicConn Desk Sink Script := {|
  accept_bi d :=
    match arriving d with
    | s :: l => (inl s, MkDesk (waiting d) (answers d) (closes d) l (tasks d))
    | [] => (inr ConnectionClosed, d)
    end;
  accept_uni d := (inr ConnectionClosed, d);
  next_turn d := (None, d);
  spawn_tcp s d := MkDesk (waiting d) (answers d) (closes d) (arriving d) (tasks d ++ [s]);
  stop _ d := d;
  conn_close code why d := MkDesk (waiting d) (answers d) (closes d ++ [(code, why)]) (arriving d) (tasks d);
  cancel d := d |}.

#[export] Instance Desk_conn_laws : QuicConnLaws Desk Sink Script.
Proof.
  refine {| view d := MkView (tasks d) (arriving d) 0%nat 0%nat |}.
  - intros [w a c [|s l] t] y x' [= <- <-]; [done|]. eexists. split; [reflexivity|done].
  - by intros x y x' [= <- <-].
  - by intros x y x' [= <- <-].
  - done.
  - done.
  - done.
  - done.
Defined.

(** No UDP on this one. *)
#[export] Instance Desk_udp : UdpWorld Desk := {|
  resolve_location _ := throw (io_err Other "no such name");
  new_udp_socket _ := throw (io_err Other "no sockets");
  spawn_remote_to_local _ _ _ d := d;
  cancel_session _ d := d;
  send_to _ _ _ := throw (io_err Other "no sockets") |}.

Definition demo_probe : Req := MkReq (str "https://example.org/") (str "GET") None.
Definition demo_wrong : Req := MkReq (str "https://hysteria/auth") (str "POST") (Some (Some (str "guess"))).
Definition demo_right : Req := MkReq (str "https://hysteria/auth") (str "POST") (Some (Some (str "secret"))).
Definition demo_sample (n : nat) : byte := x61.

Abbreviation demo_auth qs :=
  (auth_connection (str "secret") true (fun lo _ => lo) demo_sample (MkDesk qs [] [] [] [])).

Definition demo_queue : list (nat * Req) := [(0%nat, demo_probe); (4%nat, demo_right); (8%nat, demo_wrong)].
Definition demo_strangers : Desk := MkDesk [(0%nat, demo_probe); (4%nat, demo_wrong)] [] [] [] [].
Abbreviation demo_process :=
  (process_connection (C := MapLru Z FragmentedPacket) (str "secret") true (fun lo _ => lo) demo_sample (mret tt) None
    0 [TcpBranch; UniBranch] (Ok demo_strangers)).

Lemma demo_auth_ok : demo_auth demo_queue = (Ok tt, (demo_auth demo_queue).2).
Proof. vm_compute. reflexivity. Qed.

Lemma demo_strangers_invalid : Forall (fun p => ~ valid (str "secret") p) (requests demo_strangers).
Proof. repeat constructor; intros Hv; vm_compute in Hv; discriminate Hv. Qed.

Lemma hysteria_auth_correct_witness :
  ∃ bad p, demo_queue = bad ++ p :: waiting (demo_auth demo_queue).2 ∧ valid (str "secret") p ∧
    answers (demo_auth demo_queue).2 = (rejected <$> bad) ++ [accepted true (fun lo _ => lo) demo_sample p].
Proof.
  destruct (hysteria_auth_correct (str "secret") true (fun lo _ => lo) demo_sample (MkDesk demo_queue [] [] [] [])
    (demo_auth demo_queue).2 (Ok tt) demo_auth_ok) as [(bad & _ & p & Hq & Hv & Hs) _].
  exists bad, p. split_and!; [exact Hq|exact Hv|exact Hs].
Defined.

Lemma hysteria_unauthenticated_closed_witness :
  ∃ e y, demo_process = (Err e, Some (conn_close CLOSE_ERR_CODE_OK (str "auth failed") y)).
Proof.
  destruct (hysteria_unauthenticated_closed (P := nat * Req) (V := nat) (C := MapLru Z FragmentedPacket) (str "secret") true
    (fun lo _ => lo) demo_sample (mret tt) None 0 [TcpBranch; UniBranch] demo_strangers demo_strangers demo_process.1 demo_process.2 eq_refl
    demo_strangers_invalid (surjective_pairing demo_process)) as (e & y & why & Hr & Hx & [[Hn _]|[_ Hw]]).
  - discriminate Hn.
  - exists e, y. rewrite (surjective_pairing demo_process), Hr, Hx, Hw. reflexivity.
Defined.
