(* ===== verification/Hysteria2EndToEnd.v ===== *)
(** * Hysteria2, from the connection to the targets

    The loops of an authenticated connection run side by side ([try_join] of
    [Hysteria2Conn]), and every stream one of them accepts is served by a task
    ([process_tcp_stream] of [Hysteria2Stream]). *)

From Stdlib Require Import String.
From S2P Require Import Prelude RustStd Address AsyncStream StreamReader Varint Hysteria2Tcp.
From S2P Require Import LruCache Resolver Dial QuicStream CopyBidirectional.
From S2P Require Import Hysteria2Udp Hysteria2Stream Hysteria2Conn.

(** ** What the UDP loop leaves alone

    An operation on the sessions that keeps what every operation of the world keeps,
    and returns when they do. *)
Definition returns {A} (r : res A) : Prop := match r with OutOfFuel => False | _ => True end.

Section Frame.
Context {C : Type} `{!Lru Z FragmentedPacket C} {W : Type} `{UdpWorld W} (I : W → Prop).
Abbreviation table := (gmap Z (UdpSession (C := C))).

Definition op_keeps {A} (op : M W A) : Prop := ∀ w, I w → returns (op w).1 ∧ I (op w).2.

Record world_keeps : Prop := {
  wk_resolve loc : op_keeps (resolve_location loc);
  wk_socket b : op_keeps (new_udp_socket b);
  wk_spawn sid sock ov w : I w → I (spawn_remote_to_local sid sock ov w);
  wk_cancel sock w : I w → I (cancel_session sock w);
  wk_send sock payload addr : op_keeps (send_to sock payload addr) }.

Definition framed {A} (m : M (table * W) A) : Prop := ∀ st, I st.2 → returns (m st).1 ∧ I (m st).2.2.

Lemma framed_bind {A B} (m : M (table * W) A) (k : A → M (table * W) B) :
  framed m → (∀ a, framed (k a)) → framed (m ≫= k).
Proof.
  intros Hm Hk st Hi. rewrite M_bind_eq. destruct (Hm st Hi) as [Hr Hi1].
  destruct (m st) as [[a|e|w|] st1]; cbn [fst snd] in *; try done. by apply Hk.
Qed.

Lemma framed_mret {A} (a : A) : framed (mret a).
Proof. by intros st Hi. Qed.

Lemma framed_get : framed get.
Proof. by intros st Hi. Qed.

Lemma framed_lift {A} (r : res A) : returns r → framed (lift r).
Proof. intros Hr st Hi. by destruct r. Qed.

Lemma framed_modify (f : table * W → table * W) : (∀ st, I st.2 → I (f st).2) → framed (modify f).
Proof. intros Hf st Hi. split; [done|]. by apply Hf. Qed.

Lemma framed_in_world {A} (op : M W A) : op_keeps op → framed (in_world op).
Proof. intros Ho [ss w] Hi. unfold in_world. destruct (Ho w Hi). by destruct (op w). Qed.

Lemma framed_attempt {A} (op : M W A) : op_keeps op → framed (attempt op).
Proof. intros Ho [ss w] Hi. unfold attempt. destruct (Ho w Hi). by destruct (op w) as [[]]. Qed.

Lemma parse_datagram_returns data : returns (parse_datagram data).
Proof.
  unfold parse_datagram. destruct (length data <? 9)%nat eqn:Hl; [done|]. zbool. cbv zeta.
  pose proof (datagram_varint_spec data Hl) as Hv. destruct (spec_varint _) as [[v rest]|].
  2: { destruct (datagram_varint data); done. }
  destruct Hv as (k & -> & _). cbn [mbind res_bind]. repeat (case_match_eqn; try done).
  match goal with E : netloc_from_str ?a None = OutOfFuel |- _ => by destruct (netloc_from_str_returns a None) end.
Qed.

Lemma join_fragments_returns fs : returns (join_fragments fs).
Proof. induction fs as [|[f|] fs IH]; cbn; [done| |done]. by destruct (join_fragments fs). Qed.

Lemma accept_returns m e : returns (accept m e).
Proof. unfold accept. by repeat case_match_eqn. Qed.

Lemma reassemble_returns m (c : C) : returns (reassemble m c).1.
Proof.
  unfold reassemble. destruct (um_count m =? 0); [done|]. destruct (um_count m =? 1); [done|].
  rewrite M_bind_eq. unfold get at 1. rewrite M_bind_eq.
  destruct (lru_contains _ _); unfold mret, M_ret, modify; cbv beta iota;
    rewrite M_bind_eq; unfold cache_get_mut at 1; destruct (lru_get _ _) as [[e|] c1]; try done; cbv beta iota;
    rewrite M_bind_eq; unfold lift at 1; pose proof (accept_returns m e) as Ha;
    destruct (accept m e) as [[e'|]|x|w|]; try done; cbv beta iota; rewrite M_bind_eq.
  all: try (unfold cache_pop; by destruct (lru_pop _ _)).
  all: cbv beta iota; destruct (negb _); [done|]; rewrite M_bind_eq; unfold cache_pop at 1;
    destruct (lru_pop _ _) as [[p|] c2]; try done; cbv beta iota; rewrite M_bind_eq; unfold lift at 1;
    pose proof (join_fragments_returns (received p)) as Hj; by destruct (join_fragments (received p)).
Qed.

Hypothesis Hw : world_keeps.

Lemma framed_put_session sid s : framed (set_session sid s).
Proof. apply framed_modify. by intros []. Qed.

Lemma framed_session_entry now m : framed (session_entry now m).
Proof.
  destruct Hw as [Hr Hs Hsp _ _]. unfold session_entry. apply framed_bind; [apply framed_get|]. intros st.
  destruct (st.1 !! session_id m); [apply framed_mret|].
  apply framed_bind; [by apply framed_attempt|]. intros [a|]; [|apply framed_mret].
  destruct (if bool_decide _ then _ else _) as [orem oloc].
  apply framed_bind; [by apply framed_in_world|]. intros sock [ss w] Hi.
  rewrite M_bind_eq. unfold get at 1. cbn [session_start fst snd]. split; [done|]. by apply Hsp.
Qed.

Lemma framed_handle_message now m : framed (handle_message now m).
Proof.
  destruct Hw as [Hr _ _ _ Hse]. unfold handle_message.
  apply framed_bind; [apply framed_session_entry|]. intros [s|]; [|apply framed_mret].
  apply framed_bind.
  { intros [ss w] Hi. unfold reassemble_in. pose proof (reassemble_returns m (fragments s)). by destruct (reassemble _ _). }
  intros [[payload loc]|]; [|apply framed_mret]. apply framed_bind; [apply framed_get|]. intros st.
  destruct (st.1 !! session_id m) as [s'|]; [|apply framed_mret]. apply framed_bind.
  - unfold target_addr. destruct (override_remote_write_address s'); [apply framed_mret|].
    destruct (decide _); [apply framed_mret|]. apply framed_bind; [by apply framed_attempt|].
    intros [a|]; [|apply framed_mret]. apply framed_bind; [apply framed_put_session|]. intros _. apply framed_mret.
  - intros [addr|]; [|apply framed_mret]. unfold forward. apply framed_bind; [by apply framed_attempt|].
    intros [[]|]; [apply framed_mret|]. apply framed_modify. by intros [].
Qed.

Lemma framed_retain now : framed (retain_sessions now).
Proof.
  apply framed_modify. intros [ss w] Hi. cbn [snd] in *. apply (map_fold_weak_ind (fun r _ => I r)); [done|].
  intros k s ss' r _ IH. destruct (expired now s); [|done]. by apply (wk_cancel Hw).
Qed.

(** A turn of the loop returns, and keeps what the world's operations keep. *)
Lemma framed_udp_turn lc t : framed (udp_turn lc t).
Proof.
  unfold udp_turn. apply framed_bind.
  { destruct (_ <? _); [|apply framed_mret]. apply framed_bind; [apply framed_retain|]. intros _. apply framed_mret. }
  intros lc'. apply framed_bind; [apply framed_lift, parse_datagram_returns|].
  intros [m|]; [|apply framed_mret]. apply framed_bind; [apply framed_handle_message|]. intros _. apply framed_mret.
Qed.
End Frame.

(** ** The three loops *)

(** The UDP loop's use of the network leaves the connection's streams alone. *)
Class UdpKeepsView (X S R : Type) `{QuicConnLaws X S R} `{UdpWorld X} : Prop :=
  udp_keeps_view : ∀ v, world_keeps (fun x => view x = v).

Section Join.
Context {X S R C : Type} `{UdpKeepsView X S R} `{!Lru Z FragmentedPacket C}.
Implicit Types (x : X) (j : joined C).

(** No stream is lost between the client and the tasks. *)
Definition conserved x x' : Prop :=
  given (view x') ++ opened (view x') = given (view x) ++ opened (view x) ∧
  given (view x) `prefix_of` given (view x').

#[local] Instance conserved_preorder : PreOrder conserved.
Proof. split; [by split|]. intros x y z [Ha Hb] [Hc Hd]. split; [congruence|by etrans]. Qed.

Lemma conserved_view x x' : view x' = view x → conserved x x'.
Proof. unfold conserved. by intros ->. Qed.

(** How often a loop can still go on, and whether it has ended. *)
Definition left_of (b : branch) x : nat :=
  match b with
  | UdpBranch => datagrams (view x)
  | UniBranch => unis (view x)
  | TcpBranch => length (opened (view x))
  end.
Definition running (b : branch) j : bool :=
  match b with UdpBranch => bool_decide (is_Some (udp_left j)) | UniBranch => uni_left j | TcpBranch => tcp_left j end.

Lemma udp_step_spec (l : Z * gmap Z (UdpSession (C := C))) x y x' :
  udp_step l x = (y, x') →
  given (view x') = given (view x) ∧ opened (view x') = opened (view x) ∧ unis (view x') = unis (view x) ∧
  match y with
  | Go _ => datagrams (view x) = Datatypes.S (datagrams (view x'))
  | Done r => (datagrams (view x') ≤ datagrams (view x))%nat ∧ returns r ∧ r ≠ Ok tt
  end.
Proof.
  unfold udp_step. destruct (next_turn x) as [[t|] x1] eqn:Et; apply next_turn_law in Et.
  - destruct Et as (n & Hn & Hv). intros Hr.
    destruct (framed_udp_turn (fun x => view x = view x1) (udp_keeps_view _) l.1 t (l.2, x1) eq_refl) as [Hret Hk].
    destruct (udp_turn l.1 t (l.2, x1)) as [[lc|e|w|] [ss x2]]; cbn [fst snd] in *; try done;
      injection Hr as <- <-; rewrite Hk, Hv; cbn [given opened unis datagrams]; split_and!; (done || lia).
  - intros [= <- <-]. by rewrite Et.
Qed.

Lemma uni_step_spec x y x' :
  uni_step x = (y, x') →
  given (view x') = given (view x) ∧ opened (view x') = opened (view x) ∧ datagrams (view x') = datagrams (view x) ∧
  match y with
  | Go _ => unis (view x) = Datatypes.S (unis (view x'))
  | Done r => unis (view x') = unis (view x) ∧ returns r
  end.
Proof.
  unfold uni_step. destruct (accept_uni x) as [[s|e] x1] eqn:Ea; apply accept_uni_law in Ea.
  - destruct Ea as (n & Hn & Hv). intros [= <- <-]. by rewrite stop_law, Hv.
  - destruct e; intros [= <- <-]; by rewrite Ea.
Qed.

Lemma tcp_step_spec x y x' :
  tcp_step x = (y, x') →
  unis (view x') = unis (view x) ∧ datagrams (view x') = datagrams (view x) ∧ conserved x x' ∧
  match y with
  | Go _ => length (opened (view x)) = Datatypes.S (length (opened (view x')))
  | Done r => view x' = view x ∧ returns r
  end.
Proof.
  unfold tcp_step, conserved. destruct (accept_bi x) as [[s|e] x1] eqn:Ea; apply accept_bi_law in Ea.
  - destruct Ea as (l & Hl & Hv). intros [= <- <-]. rewrite spawn_tcp_law, Hv, Hl. cbn [given opened unis datagrams].
    rewrite <-app_assoc. split_and!; try done. by apply prefix_app_r.
  - destruct e; intros [= <- <-]; by rewrite Ea.
Qed.

(** A loop that has ended takes no turn. *)
Ltac idle_branch El := intros [= <- <-]; split_and!; [done|lia|done|done|]; cbn [running]; by rewrite El.

(** One turn, whichever loop takes it. *)
Lemma branch_step_spec b j x y x' :
  branch_step b j x = (y, x') →
  conserved x x' ∧ (∀ b', left_of b' x' ≤ left_of b' x)%nat ∧
  match y with
  | Go j' =>
      (∀ b', running b' j' = true → running b' j = true) ∧ running UdpBranch j' = running UdpBranch j ∧
      (running b j' = true → left_of b x' < left_of b x)%nat
  | Done r => returns r ∧ (r = Ok tt → False)
  end.
Proof.
  assert (∀ x1 x2 : X, given (view x2) = given (view x1) → opened (view x2) = opened (view x1) → conserved x1 x2) as Hsame
    by (intros x1 x2 Hg Ho; split; by rewrite Hg, ?Ho).
  destruct b; cbn [branch_step].
  - destruct (udp_left j) as [l|] eqn:El.
    2: { idle_branch El. }
    destruct (udp_step l x) as [f x1] eqn:Es. apply udp_step_spec in Es as (Hg & Ho & Hu & Hf).
    destruct f as [l'|[[]|e|w|]]; intros [= <- <-]; (split; [by apply Hsame|]);
      (split; [intros []; cbn [left_of]; rewrite ?Ho, ?Hu; lia|]); try (by destruct Hf as (_ & ? & ?)).
    split_and!; [by intros []; cbn [running udp_left]; rewrite ?El|by cbn [running udp_left]; rewrite El|]. cbn [left_of]. lia.
  - destruct (uni_left j) eqn:El.
    2: { idle_branch El. }
    destruct (uni_step x) as [f x1] eqn:Es. apply uni_step_spec in Es as (Hg & Ho & Hu & Hf).
    destruct f as [l'|[[]|e|w|]]; intros [= <- <-]; (split; [by apply Hsame|]);
      (split; [intros []; cbn [left_of]; rewrite ?Ho, ?Hu; lia|]); try (by destruct Hf as (_ & ?)).
    + split_and!; [done..|]. cbn [left_of]. lia.
    + by split_and!; [intros []| |].
  - destruct (tcp_left j) eqn:El.
    2: { idle_branch El. }
    destruct (tcp_step x) as [f x1] eqn:Es. apply tcp_step_spec in Es as (Hu & Hd & Hc & Hf).
    destruct f as [l'|[[]|e|w|]]; intros [= <- <-]; (split; [done|]);
      (split; [intros []; cbn [left_of]; rewrite ?Hd, ?Hu; first [lia|destruct Hf as [-> _]; lia]|]);
      try (by destruct Hf as (_ & ?)).
    + split_and!; [done..|]. cbn [left_of]. lia.
    + by split_and!; [intros []| |].
Qed.

Definition turns_of (b : branch) (schedule : list branch) : nat := length (filter (fun b' => b' = b) schedule).

Lemma all_ended_running j : all_ended j = false → ∃ b, running b j = true.
Proof.
  unfold all_ended. destruct j as [[l|] [] []]; cbn; intros ?; try done;
    [exists UdpBranch|exists UdpBranch|exists UdpBranch|exists UdpBranch|exists UniBranch|exists UniBranch|exists TcpBranch];
    done.
Qed.

(** Whatever the schedule, no stream is lost; with turns enough for what the client
    has sent, it ends. *)
Lemma try_join_spec schedule j x r x' :
  try_join schedule j x = (r, x') →
  conserved x x' ∧ (r = Ok tt → running UdpBranch j = false) ∧
  ((∀ b, running b j = true → left_of b x < turns_of b schedule)%nat → returns r).
Proof.
  revert j x. induction schedule as [|b schedule IH]; intros j x Hr; cbn [try_join] in Hr.
  - destruct (all_ended j) eqn:Ea; injection Hr as <- <-.
    + split_and!; [done| |done]. unfold all_ended in Ea. intros _. cbn. by destruct (udp_left j).
    + split_and!; [done..|]. intros Hall. destruct (all_ended_running j Ea) as [b Hb].
      specialize (Hall b Hb). unfold turns_of in Hall. cbn in Hall. lia.
  - destruct (all_ended j) eqn:Ea.
    { injection Hr as <- <-. split_and!; [done| |done]. unfold all_ended in Ea. intros _. cbn. by destruct (udp_left j). }
    destruct (branch_step b j x) as [[j1|r1] x1] eqn:Es; apply branch_step_spec in Es as (Hc & Hl & Hf).
    + destruct Hf as (Hrun & Hudp & Hdec). destruct (IH j1 x1 Hr) as (Hc1 & Hok & Hret).
      split_and!; [by etrans|by rewrite Hudp in Hok|]. intros Hall. apply Hret. intros b' Hb'.
      specialize (Hall b' (Hrun _ Hb')). specialize (Hl b'). unfold turns_of in *. rewrite filter_cons in Hall.
      case_decide; [|lia]. subst b'. specialize (Hdec Hb'). cbn [length] in Hall. lia.
    + injection Hr as <- <-. destruct Hf as [Hret Hno]. split_and!; [done|by intros ?%Hno|done].
Qed.
End Join.

(** ** The whole of a connection *)

Class H3KeepsView (X Q P V S R : Type) `{H3Server X Q P V} `{QuicConnLaws X S R} : Prop := {
  h3_accept_view x : view (h3_accept x).2 = view x;
  h3_resolve_view p x : view (h3_resolve p x).2 = view x;
  h3_send_view v m x : view (h3_send_response v m x).2 = view x;
  h3_finish_view v x : view (h3_finish v x).2 = view x }.

Section Auth.
Context {X Q P V S R : Type} `{HttpRequest Q} `{H3KeepsView X Q P V S R}.

Definition still {A} (m : M X A) : Prop := ∀ x, view (m x).2 = view x.

Lemma still_bind {A B} (m : M X A) (k : A → M X B) : still m → (∀ a, still (k a)) → still (m ≫= k).
Proof.
  intros Hm Hk x. rewrite M_bind_eq. specialize (Hm x). destruct (m x) as [[a|e|w|] x1]; cbn [snd] in *; try done.
  by rewrite Hk.
Qed.

Lemma still_wrap {A} msg (m : M X A) : still m → still (wrap_err msg m).
Proof. intros Hm x. unfold wrap_err. specialize (Hm x). by destruct (m x). Qed.

(** Authentication accepts no stream of the client's. *)
Lemma auth_still password udp_enabled rr sample fuel : still (auth_loop password udp_enabled rr sample fuel).
Proof.
  induction fuel as [|fuel IH]; [done|]. cbn [auth_loop].
  apply still_bind; [apply still_wrap; intros x; apply h3_accept_view|]. intros [p|]; [|done].
  apply still_bind; [apply still_wrap; intros x; apply h3_resolve_view|]. intros [q v].
  destruct (validate_auth_request q password) as [[]|e|w|]; [| |done..].
  - apply still_bind; [apply still_wrap; intros x; apply h3_send_view|]. intros _.
    apply still_wrap. intros x. apply h3_finish_view.
  - apply still_bind; [apply still_wrap; intros x; apply h3_send_view|]. intros _.
    apply still_bind; [apply still_wrap; intros x; apply h3_finish_view|]. done.
Qed.
End Auth.

(** The task of a stream does its work, on whatever the network is then. *)
Section Task.
Context {S R B K C : Type} `{AsyncWriteLaws S} `{AsyncReadLaws R}
  `{AsyncReadLaws B} `{AsyncWriteLaws B} `{!AsyncPing B} `{!Lru bytes CacheEntry C} `{SocketSys K}.
Context (system : bytes → Z → res (list SocketAddr)) (t1 t2 : Z) (tcp_stream : nat → B)
  (mem mem_a mem_b : nat → byte) (padding : bytes) (fuel : nat) (polls : list (bool * bool * bool)).

Definition task_serves (stream : S * R) : Prop := ∀ loc payload fd (net net1 net' : Resolver (C := C) * K) r e,
  spec_tcp_request (incoming stream.2) = Some (loc, payload) →
  connect_tcp_arc system t1 t2 loc net = (Ok fd, net1) →
  (length (written (tcp_stream fd) ++ payload) ≤ fuel)%nat →
  (length (written stream.1 ++ tcp_response padding ++ incoming (tcp_stream fd)) ≤ fuel)%nat →
  process_tcp_stream system t1 t2 tcp_stream mem mem_a mem_b padding None fuel polls stream.1 stream.2 net = (r, e, net') →
  relayed (R := R) tcp_stream padding stream.1 net net' r e payload fd net1.
End Task.

(** ** Property *)


(** ** A run *)

#[export] Instance Desk_udp_view : UdpKeepsView Desk Sink Script.
Proof. intros v. split; by repeat intro. Qed.

#[export] Instance Desk_h3_view : H3KeepsView Desk Req (nat * Req) nat Sink Script.
Proof. split; try done. by intros [[|p l] a c st ta]. Qed.

(** A probe, the right password, then a stream; the datagrams fail after it. *)
Definition demo_client : Desk := MkDesk demo_queue [] [] [(MkSink [] [], demo_request)] [].
Abbreviation demo_connection :=
  (process_connection (C := MapLru Z FragmentedPacket) (str "secret") true (fun lo _ => lo) demo_sample (mret tt) None
    0 [UniBranch; TcpBranch; UdpBranch] (Ok demo_client)).

Lemma demo_connection_result :
  demo_connection.1 = Err (io_err Other "failed to read datagram") ∧
  (tasks <$> demo_connection.2) = Some [(MkSink [] [], demo_request)].
Proof. vm_compute. done. Qed.

