(* ===== verification/VlessStream.v ===== *)
(** * Length-prefixed messages over a stream (src/message_stream.rs, [VlessMessageStream])

    Each message is its length, two bytes big-endian, and its bytes. *)

From Stdlib Require Import String.
From S2P Require Import Prelude AsyncStream QuicStream.

Definition VLESS_BUFFER : nat := Z.to_nat 65537.

Record VlessMessageStream (T : Type) : Type := MkVless {
  vs_stream : T; vs_read_buf : bytes; read_end_index : nat;
  pending_write : bytes; write_offset : nat; vs_eof : bool }.
Arguments MkVless {T} _ _ _ _ _ _.
Arguments vs_stream {T} _.
Arguments vs_read_buf {T} _.
Arguments read_end_index {T} _.
Arguments pending_write {T} _.
Arguments write_offset {T} _.
Arguments vs_eof {T} _.

Definition vless_new {T} (mem : nat → byte) (stream : T) : VlessMessageStream T :=
  MkVless stream (allocate_vec mem VLESS_BUFFER) 0 [] 0 false.

(** The message at the front of the buffer, if it is all there. *)
Definition vless_message (buf : bytes) (end_index : nat) : option (bytes * nat) :=
  if (2 <=? end_index)%nat then
    let total_len := (2 + Z.to_nat (be_decode (take 2 buf)))%nat in
    if (total_len <=? end_index)%nat then Some (slice 2 total_len buf, total_len) else None
  else None.

Section Ops.
Context {T : Type} `{AsyncRead T} `{AsyncWrite T} `{AsyncPing T}.
Abbreviation V := (VlessMessageStream T).

Definition with_read (v : V) (stream : T) (buf : bytes) (end_index : nat) (eof : bool) : V :=
  MkVless stream buf end_index (pending_write v) (write_offset v) eof.

(** The [loop]: each round reads a byte or returns. *)
Fixpoint vless_read_loop (fuel : nat) (remaining : nat) (v : V) : poll (res bytes) * V :=
  match vless_message (vs_read_buf v) (read_end_index v) with
  | Some (msg, total_len) =>
      if (remaining <? length msg)%nat
      then (Ready (Err (io_err Other "out_buf is too small to hold the message")), v)
      else
        (Ready (Ok msg),
         if (total_len <? read_end_index v)%nat
         then with_read v (vs_stream v) (copy_within0 total_len (read_end_index v) (vs_read_buf v))
                (read_end_index v - total_len) (vs_eof v)
         else with_read v (vs_stream v) (vs_read_buf v) 0 (vs_eof v))
  | None =>
      let room := (length (vs_read_buf v) - read_end_index v)%nat in
      if (room =? 0)%nat then (Ready (Panic "assertion failed: !read_buf_slice.is_empty()"), v)
      else
        match poll_read room (vs_stream v) with
        | (Ready (Ok bs), s) =>
            if (length bs =? 0)%nat then
              let v' := with_read v s (vs_read_buf v) (read_end_index v) true in
              if (read_end_index v =? 0)%nat then (Ready (Ok []), v')
              else (Ready (Err (io_err UnexpectedEof "EOF reached in the middle of a message")), v')
            else
              let v' := with_read v s (splice (read_end_index v) bs (vs_read_buf v))
                          (read_end_index v + length bs) (vs_eof v) in
              match fuel with
              | O => (Ready OutOfFuel, v')
              | S f => vless_read_loop f remaining v'
              end
        | (Ready x, s) => (Ready x, with_read v s (vs_read_buf v) (read_end_index v) (vs_eof v))
        | (Pending, s) => (Pending, with_read v s (vs_read_buf v) (read_end_index v) (vs_eof v))
        end
  end.

Definition vless_poll_read_message (remaining : nat) (v : V) : poll (res bytes) * V :=
  if vs_eof v then (Ready (Ok []), v) else vless_read_loop VLESS_BUFFER remaining v.

Definition with_write (v : V) (stream : T) (pending : bytes) (offset : nat) : V :=
  MkVless stream (vs_read_buf v) (read_end_index v) pending offset (vs_eof v).

(** [while this.write_offset < this.pending_write.len()]: each round writes a byte. *)
Fixpoint vless_write_loop (fuel : nat) (v : V) : poll (res unit) * V :=
  if (write_offset v <? length (pending_write v))%nat then
    match fuel with
    | O => (Ready OutOfFuel, v)
    | S f =>
        match poll_write (drop (write_offset v) (pending_write v)) (vs_stream v) with
        | (Ready (Ok n), s) =>
            if (n =? 0)%nat
            then (Ready (Err (io_err WriteZero "failed to write message")),
                  with_write v s (pending_write v) (write_offset v))
            else vless_write_loop f (with_write v s (pending_write v) (write_offset v + n))
        | (Ready (Err e), s) => (Ready (Err e), with_write v s (pending_write v) (write_offset v))
        | (Ready (Panic w), s) => (Ready (Panic w), with_write v s (pending_write v) (write_offset v))
        | (Ready OutOfFuel, s) => (Ready OutOfFuel, with_write v s (pending_write v) (write_offset v))
        | (Pending, s) => (Pending, with_write v s (pending_write v) (write_offset v))
        end
    end
  else (Ready (Ok tt), v).

Definition vless_poll_flush_message (v : V) : poll (res unit) * V :=
  match vless_write_loop (length (pending_write v)) v with
  | (Ready (Ok _), v) =>
      match poll_flush (vs_stream v) with
      | (Ready (Ok _), s) => (Ready (Ok tt), with_write v s [] 0)
      | (x, s) => (x, with_write v s (pending_write v) (write_offset v))
      end
  | (x, v) => (x, v)
  end.

(** The message is queued behind whatever could not be flushed before. *)
Definition vless_queue (msg : bytes) (v : V) : poll (res unit) * V :=
  if (Z.to_nat 65535 <? length msg)%nat
  then (Ready (Err (io_err InvalidInput "message size too large")), v)
  else (Ready (Ok tt),
        with_write v (vs_stream v)
          (pending_write v ++ be_encode 2 (wrap 16 (Z.of_nat (length msg))) ++ msg) 0).

Definition vless_poll_write_message (msg : bytes) (v : V) : poll (res unit) * V :=
  if decide (pending_write v = []) then vless_queue msg v
  else
    match vless_poll_flush_message v with
    | (Ready (Err e), v) => (Ready (Err e), v)
    | (Ready (Panic w), v) => (Ready (Panic w), v)
    | (Ready OutOfFuel, v) => (Ready OutOfFuel, v)
    | (_, v) => if decide (pending_write v = []) then vless_queue msg v else (Pending, v)
    end.

Definition vless_poll_shutdown_message (v : V) : poll (res unit) * V :=
  match vless_poll_flush_message v with
  | (Ready (Ok _), v) =>
      let '(x, s) := poll_shutdown (vs_stream v) in
      (x, with_write v s (pending_write v) (write_offset v))
  | other => other
  end.

#[export] Instance Vless_read : AsyncReadMessage V := vless_poll_read_message.
#[export] Instance Vless_write : AsyncWriteMessage V := vless_poll_write_message.
#[export] Instance Vless_flush : AsyncFlushMessage V := vless_poll_flush_message.
#[export] Instance Vless_shutdown : AsyncShutdownMessage V := vless_poll_shutdown_message.
#[export] Instance Vless_ping : AsyncPing V := {|
  supports_ping v := supports_ping (vs_stream v);
  poll_write_ping v := let '(x, s) := poll_write_ping (vs_stream v) in
    (x, with_write v s (pending_write v) (write_offset v)) |}.
End Ops.

(** ** The format *)

Definition encode_message (msg : bytes) : bytes := be_encode 2 (Z.of_nat (length msg)) ++ msg.

(** The first message of a stream of bytes, and the rest. *)
Definition spec_message (l : bytes) : option (bytes * bytes) :=
  match l with
  | b0 :: b1 :: t =>
      let n := Z.to_nat (be_decode [b0; b1]) in
      if (length t <? n)%nat then None else Some (take n t, drop n t)
  | _ => None
  end.

Lemma spec_message_encode msg rest :
  (length msg ≤ Z.to_nat 65535)%nat → spec_message (encode_message msg ++ rest) = Some (msg, rest).
Proof.
  intros Hl. unfold encode_message. rewrite <-app_assoc.
  pose proof (length_be_encode 2 (Z.of_nat (length msg))) as Hn.
  pose proof (be_decode_encode_small 2 (Z.of_nat (length msg)) ltac:(lia)) as Hd.
  destruct (be_encode 2 _) as [|b0 [|b1 [|]]]; try done. cbn [app spec_message].
  rewrite Hd, Nat2Z.id, (proj2 (Nat.ltb_ge _ _)) by len. by rewrite take_app_length, drop_app_length.
Qed.

Lemma be_decode2_range b0 b1 : (Z.to_nat (be_decode [b0; b1]) ≤ Z.to_nat 65535)%nat.
Proof. pose proof (be_decode_range [b0; b1]) as Hr. cbn [length] in Hr. lia. Qed.

(** A whole message in the buffer is the first message, whatever follows. *)
Lemma vless_message_spec buf e rest :
  (e ≤ length buf)%nat →
  match vless_message buf e with
  | Some (msg, n) => (n ≤ e)%nat ∧ (length msg ≤ Z.to_nat 65535)%nat ∧
      spec_message (take e buf ++ rest) = Some (msg, slice n e buf ++ rest)
  | None => (e < Z.to_nat 65537)%nat ∧ spec_message (take e buf) = None
  end.
Proof.
  intros He. unfold vless_message. destruct (2 <=? e)%nat eqn:H2; zbool.
  - destruct buf as [|b0 [|b1 t]]; cbn [length] in He; [lia..|].
    destruct e as [|[|e]]; [lia..|]. cbn [take]. rewrite take_0.
    pose proof (be_decode2_range b0 b1) as Hn. set (n := Z.to_nat (be_decode [b0; b1])) in *.
    destruct (2 + n <=? S (S e))%nat eqn:Hle; zbool.
    + unfold slice. cbn [drop app spec_message Nat.sub Nat.add]. fold n. rewrite !Nat.sub_0_r.
      rewrite (proj2 (Nat.ltb_ge _ _)) by len. split_and!; [lia|len|].
      rewrite take_app_le, drop_app_le by len. rewrite take_take, Nat.min_l by lia.
      by rewrite skipn_firstn_comm.
    + cbn [spec_message]. fold n. rewrite (proj2 (Nat.ltb_lt _ _)) by len. split; [lia|done].
  - split; [lia|]. destruct buf as [|b0 [|b1 t]]; destruct e as [|[|e]]; try done; lia.
Qed.

(** ** Reading *)

Section Laws.
Context {T : Type} `{AsyncReadLaws T} `{AsyncWriteLaws T} `{!AsyncPing T} `{!AsyncStreamLaws T}.
Abbreviation V := (VlessMessageStream T).

(** Everything still to be read: the buffer, then the stream. *)
Definition vless_ahead (v : V) : bytes :=
  take (read_end_index v) (vs_read_buf v) ++ incoming (vs_stream v).

Definition vless_inv (v : V) : Prop :=
  length (vs_read_buf v) = VLESS_BUFFER ∧ (read_end_index v ≤ VLESS_BUFFER)%nat ∧
  (write_offset v ≤ length (pending_write v))%nat.

(** What reading a message may do. *)
Definition vless_read_post (remaining : nat) (v : V) (x : poll (res bytes)) (v' : V) : Prop :=
  vless_inv v' ∧ written (vs_stream v') = written (vs_stream v) ∧
  pending_write v' = pending_write v ∧ write_offset v' = write_offset v ∧
  match x with
  | Ready (Ok msg) =>
      (spec_message (vless_ahead v) = Some (msg, vless_ahead v') ∧ vs_eof v' = vs_eof v) ∨
      (msg = [] ∧ vless_ahead v = [] ∧ vless_ahead v' = [] ∧ vs_eof v' = true)
  | Ready (Err e) =>
      (e = io_err Other "out_buf is too small to hold the message" ∧ vless_ahead v' = vless_ahead v ∧
       ∃ msg rest, spec_message (vless_ahead v) = Some (msg, rest) ∧ (remaining < length msg)%nat) ∨
      (err_kind e = UnexpectedEof ∧ vs_eof v' = true ∧ vless_ahead v ≠ [] ∧
       spec_message (vless_ahead v) = None) ∨
      (∃ n (s s' : T), poll_read n s = (Ready (Err e), s'))
  | Pending => vless_ahead v' = vless_ahead v ∧ vs_eof v' = vs_eof v
  | Ready (Panic _) | Ready OutOfFuel => False
  end.

Lemma take_splice_end (buf bs : bytes) e :
  (e + length bs ≤ length buf)%nat → take (e + length bs) (splice e bs buf) = take e buf ++ bs.
Proof.
  intros Hl. unfold splice. rewrite app_assoc, take_app_le by len. apply take_ge. len.
Qed.

(** Taking a message off the buffer. *)
Lemma vless_take_spec v (msg : bytes) n :
  vless_inv v → vless_message (vs_read_buf v) (read_end_index v) = Some (msg, n) →
  let v' := if (n <? read_end_index v)%nat
    then with_read v (vs_stream v) (copy_within0 n (read_end_index v) (vs_read_buf v))
           (read_end_index v - n) (vs_eof v)
    else with_read v (vs_stream v) (vs_read_buf v) 0 (vs_eof v) in
  vless_inv v' ∧ spec_message (vless_ahead v) = Some (msg, vless_ahead v').
Proof.
  intros (Hl & He & Hw) Hm v'.
  pose proof (vless_message_spec (vs_read_buf v) (read_end_index v) (incoming (vs_stream v)) ltac:(lia)) as Hs.
  rewrite Hm in Hs. destruct Hs as (Hn & _ & Hs). unfold vless_ahead. rewrite Hs. subst v'.
  destruct (n <? read_end_index v)%nat eqn:Hlt; zbool; cbn [with_read vs_read_buf read_end_index vs_stream].
  - split.
    { split_and!; cbn; rewrite ?length_copy_within0 by lia; lia. }
    do 3 f_equal. rewrite <-(slice_copy_within0 n (read_end_index v)) by lia.
    unfold slice. by rewrite drop_0, Nat.sub_0_r.
  - split; [by split_and!; cbn; lia|]. assert (n = read_end_index v) as -> by lia.
    by rewrite slice_nil.
Qed.

Lemma vless_read_loop_spec fuel remaining v x v' :
  vless_read_loop fuel remaining v = (x, v') → vless_inv v →
  (VLESS_BUFFER ≤ fuel + read_end_index v)%nat → vless_read_post remaining v x v'.
Proof.
  revert v. induction fuel as [|fuel IH]; intros v Hr Hi Hf; pose proof Hi as (Hl & He & Hw);
    cbn [vless_read_loop] in Hr;
    pose proof (vless_message_spec (vs_read_buf v) (read_end_index v) (incoming (vs_stream v))
      ltac:(lia)) as Hs;
    destruct (vless_message _ _) as [[msg n]|] eqn:Hm.
  1, 3: destruct (vless_take_spec v msg n Hi Hm) as [Hi' Hsp]; destruct Hs as (Hn & Hlm & Hs);
    destruct (remaining <? length msg)%nat eqn:Hrem; zbool; simplify_eq;
    [split_and!; try done; left; eauto 6
    |split_and!; [done|destruct (_ <? _)%nat; done..|left; split; [done|by destruct (_ <? _)%nat]]].
  all: destruct Hs as [Hlt Hnone].
  1: unfold VLESS_BUFFER in Hf; lia.
  cbv zeta in Hr. rewrite (proj2 (Nat.eqb_neq _ _)) in Hr by (unfold VLESS_BUFFER in *; lia).
  set (room := (length (vs_read_buf v) - read_end_index v)%nat) in *.
  destruct (read_keeps room (vs_stream v)) as [Hwr _].
  destruct (poll_read room (vs_stream v)) as [[r|] s1] eqn:E; cbn [snd] in Hwr.
  2: { simplify_eq. destruct (poll_read_pending _ _ _ E) as [Hinc _].
       split_and!; try done. unfold vless_ahead. cbn. by rewrite Hinc. }
  destruct (poll_read_returns _ _ _ _ E). destruct r as [bs|e|w|]; try done.
  2: { simplify_eq. split_and!; try done. right. right. eauto. }
  destruct (poll_read_ok _ _ _ _ E) as (Hlen & Hinc & Heof).
  destruct (length bs =? 0)%nat eqn:Hz; zbool.
  - apply length_zero_iff_nil in Hz. subst bs.
    specialize (Heof ltac:(unfold room, VLESS_BUFFER in *; lia) eq_refl).
    rewrite Heof in Hinc. cbn [app] in Hinc.
    destruct (read_end_index v =? 0)%nat eqn:Hz; zbool; simplify_eq; split_and!; try done.
    + right. unfold vless_ahead. cbn. rewrite Heof, Hz, <-Hinc. done.
    + right. left. unfold vless_ahead. rewrite Heof, app_nil_r. split_and!; try done.
      intros Hn%(f_equal length). rewrite length_take in Hn. cbn in Hn. lia.
  - destruct (IH _ Hr) as (Hi' & Hw' & Hp1 & Hp2 & Hx).
    { split_and!; cbn; rewrite ?length_splice by (unfold room in *; lia); unfold room in *; lia. }
    { cbn. lia. }
    split_and!; [done|by rewrite Hw'|done..|].
    match type of Hx with context [vless_ahead ?u] => assert (vless_ahead u = vless_ahead v) as Ha end.
    { unfold vless_ahead. cbn [with_read vs_read_buf read_end_index vs_stream].
      rewrite take_splice_end, <-app_assoc, Hinc by (unfold room in *; lia). done. }
    by rewrite Ha in Hx.
Qed.

Lemma vless_poll_read_spec remaining v x v' :
  vless_poll_read_message remaining v = (x, v') → vless_inv v → vs_eof v = false →
  vless_read_post remaining v x v'.
Proof.
  unfold vless_poll_read_message. intros Hr Hi He. rewrite He in Hr.
  eapply vless_read_loop_spec; [done..|lia].
Qed.

(** ** Writing *)

(** Everything handed over so far: written, or queued. *)
Definition vless_out (v : V) : bytes :=
  written (vs_stream v) ++ drop (write_offset v) (pending_write v).

(** A step on the write side: the read side is untouched. *)
Definition vless_write_side (v v' : V) : Prop :=
  vless_inv v' ∧ vless_ahead v' = vless_ahead v ∧ vs_eof v' = vs_eof v.

Definition poll_returns {A} (x : poll (res A)) : Prop :=
  match x with Ready (Panic _) | Ready OutOfFuel => False | _ => True end.

Definition ready_ok {A} (x : poll (res A)) : bool :=
  match x with Ready (Ok _) => true | _ => false end.

Lemma vless_with_write_side v s pending off :
  vless_inv v → incoming s = incoming (vs_stream v) → (off ≤ length pending)%nat →
  vless_write_side v (with_write v s pending off).
Proof.
  intros (Hl & He & _) Hs Ho. split_and!; try done. unfold vless_ahead. cbn. by rewrite Hs.
Qed.

Lemma vless_write_side_trans v1 v2 v3 :
  vless_write_side v1 v2 → vless_write_side v2 v3 → vless_write_side v1 v3.
Proof. intros (_ & ? & ?) (? & ? & ?). split_and!; congruence. Qed.

Lemma vless_write_loop_spec fuel v x v' :
  vless_write_loop fuel v = (x, v') → vless_inv v →
  (length (pending_write v) ≤ fuel + write_offset v)%nat →
  vless_write_side v v' ∧ vless_out v' = vless_out v ∧ poll_returns x ∧
  pending_write v' = pending_write v ∧
  (x = Ready (Ok tt) → write_offset v' = length (pending_write v')).
Proof.
  revert v. induction fuel as [|fuel IH]; intros v Hr Hi Hf; pose proof Hi as (Hl & He & Hw);
    cbn [vless_write_loop] in Hr;
    destruct (write_offset v <? length (pending_write v))%nat eqn:Hc; zbool.
  1: lia.
  1, 3: simplify_eq; split_and!; try done; intros; lia.
  pose proof (write_keeps (drop (write_offset v) (pending_write v)) (vs_stream v)) as Hk.
  destruct (poll_write _ _) as [[r|] s1] eqn:E; cbn [snd] in Hk.
  2: { simplify_eq. destruct (poll_write_pending _ _ _ E) as [Hwr _].
       split_and!; try done. - by apply vless_with_write_side. - unfold vless_out. cbn. by rewrite Hwr. }
  destruct (poll_write_returns _ _ _ _ E). destruct r as [n|e|w|]; try done.
  2: { simplify_eq. pose proof (poll_write_err _ _ _ _ E) as Hwr.
       split_and!; try done. - by apply vless_with_write_side. - unfold vless_out. cbn. by rewrite Hwr. }
  destruct (poll_write_ok _ _ _ _ E) as [Hn Hwr]. rewrite length_drop in Hn.
  destruct (n =? 0)%nat eqn:Hz; zbool.
  - simplify_eq. split_and!; try done; [by apply vless_with_write_side|].
    unfold vless_out. cbn. rewrite Hwr. by rewrite app_nil_r.
  - assert (vless_write_side v (with_write v s1 (pending_write v) (write_offset v + n))) as Hside
      by (apply vless_with_write_side; [done..|lia]).
    destruct (IH _ Hr (proj1 Hside)) as (Hs' & Ho' & Hx & Hp & Hd).
    { cbn. lia. }
    split_and!; try done; [by eapply vless_write_side_trans|].
    rewrite Ho'. unfold vless_out. cbn [with_write vs_stream write_offset pending_write].
    rewrite Hwr, <-app_assoc, <-drop_drop. by rewrite take_drop.
Qed.

Lemma vless_flush_spec v x v' :
  vless_poll_flush_message v = (x, v') → vless_inv v →
  vless_write_side v v' ∧ vless_out v' = vless_out v ∧ poll_returns x ∧
  (x = Ready (Ok tt) → pending_write v' = [] ∧ written (vs_stream v') = vless_out v).
Proof.
  unfold vless_poll_flush_message. intros Hr Hi.
  destruct (vless_write_loop _ v) as [y v1] eqn:E.
  destruct (vless_write_loop_spec _ _ _ _ E Hi ltac:(lia)) as (Hs & Ho & Hy & Hp & Hd).
  destruct y as [[[]|e|w|]|]; simplify_eq; try (by split_and!).
  specialize (Hd eq_refl). pose proof Hs as ((_ & _ & Hw1) & _).
  pose proof (flush_keeps (vs_stream v1)) as Hk. pose proof (poll_flush_written (vs_stream v1)) as Hwr.
  destruct (poll_flush (vs_stream v1)) as [z s1] eqn:Ef; cbn [snd] in Hk, Hwr.
  assert (written (vs_stream v1) = vless_out v) as Hall.
  { rewrite <-Ho. unfold vless_out. rewrite Hd, drop_ge by lia. by rewrite app_nil_r. }
  assert (∀ pend off, (off = length pend)%nat →
    vless_write_side v (with_write v1 s1 pend off) ∧ vless_out (with_write v1 s1 pend off) = vless_out v)
    as Hside.
  { intros pend off ->. split.
    - eapply vless_write_side_trans; [done|]. apply vless_with_write_side; [apply Hs|done|lia].
    - unfold vless_out at 1. cbn. rewrite Hwr, Hall, drop_ge by lia. apply app_nil_r. }
  destruct (Hside [] 0%nat eq_refl) as [Hs1 Ho1]. destruct (Hside _ _ Hd) as [Hs2 Ho2].
  destruct z as [[[]|e|w|]|]; simplify_eq; split_and!; try done.
  - intros _. cbn. split; [done|]. by rewrite Hwr.
  - by destruct (poll_flush_returns _ _ _ Ef).
  - by destruct (poll_flush_returns _ _ _ Ef).
Qed.

Lemma vless_queue_spec msg v x v' :
  vless_queue msg v = (x, v') → vless_inv v → pending_write v = [] →
  vless_write_side v v' ∧ poll_returns x ∧
  vless_out v' = vless_out v ++ (if ready_ok x then encode_message msg else []).
Proof.
  unfold vless_queue. intros Hr Hi Hp. pose proof Hi as (_ & _ & Hw). rewrite Hp in Hw.
  destruct (Z.to_nat 65535 <? length msg)%nat eqn:Hl; zbool; simplify_eq.
  - split_and!; [done..|]. by rewrite app_nil_r.
  - split_and!; [apply vless_with_write_side; [done..|lia]|done|].
    unfold vless_out. cbn [with_write vs_stream write_offset pending_write]. rewrite Hp.
    rewrite (drop_ge []) by (cbn in *; lia). cbn [ready_ok]. rewrite drop_0, app_nil_r.
    unfold encode_message, wrap. rewrite Z.mod_small by lia. done.
Qed.

Lemma vless_write_spec msg v x v' :
  vless_poll_write_message msg v = (x, v') → vless_inv v →
  vless_write_side v v' ∧ poll_returns x ∧
  vless_out v' = vless_out v ++ (if ready_ok x then encode_message msg else []).
Proof.
  unfold vless_poll_write_message. intros Hr Hi. destruct (decide (pending_write v = [])) as [Hp|Hp].
  { by eapply vless_queue_spec. }
  destruct (vless_poll_flush_message v) as [y v1] eqn:E.
  destruct (vless_flush_spec _ _ _ E Hi) as (Hs & Ho & Hy & _).
  assert (∀ x' v'', vless_queue msg v1 = (x', v'') → pending_write v1 = [] →
    vless_write_side v v'' ∧ poll_returns x' ∧ vless_out v'' = vless_out v ++
      (if ready_ok x' then encode_message msg else [])) as Hq.
  { intros x' v'' Hq Hp1. destruct (vless_queue_spec _ _ _ _ Hq (proj1 Hs) Hp1) as (? & ? & Ho2).
    split_and!; [by eapply vless_write_side_trans|done|]. by rewrite Ho2, Ho. }
  destruct y as [[[]|e|w|]|]; try done;
    try (destruct (decide (pending_write v1 = [])); [by apply Hq|]);
    simplify_eq; split_and!; try done; rewrite Ho; by rewrite app_nil_r.
Qed.

(** ** Any sequence of polls *)

Inductive vless_op : Set := VRead (remaining : nat) | VWrite (msg : bytes) | VFlush.

(** What happened to the messages: those read, those accepted for writing, whether a
    read failed, and whether a poll panicked or did not return. *)
Record vless_log : Set := MkVLog {
  got : list bytes; accepted_msgs : list bytes; failed : bool; crashed : bool }.

Definition crashes {A} (x : poll (res A)) : bool :=
  match x with Ready (Panic _) | Ready OutOfFuel => true | _ => false end.

Definition vless_poll (op : vless_op) (v : V) (l : vless_log) : V * vless_log :=
  match op with
  | VRead n =>
      let '(x, v') := poll_read_message n v in
      (v', MkVLog (match x with
                   | Ready (Ok msg) => if vs_eof v' then got l else got l ++ [msg]
                   | _ => got l
                   end) (accepted_msgs l)
             (failed l || match x with Ready (Err _) => true | _ => false end)
             (crashed l || crashes x))
  | VWrite msg =>
      let '(x, v') := poll_write_message msg v in
      (v', MkVLog (got l) (if ready_ok x then accepted_msgs l ++ [msg] else accepted_msgs l)
             (failed l) (crashed l || crashes x))
  | VFlush =>
      let '(x, v') := poll_flush_message v in
      (v', MkVLog (got l) (accepted_msgs l) (failed l) (crashed l || crashes x))
  end.

Fixpoint vless_polls (ops : list vless_op) (v : V) (l : vless_log) : V * vless_log :=
  match ops with
  | [] => (v, l)
  | op :: ops' => let '(v', l') := vless_poll op v l in vless_polls ops' v' l'
  end.

Definition encode_messages (ms : list bytes) : bytes := concat (encode_message <$> ms).

Lemma encode_messages_snoc ms m : encode_messages (ms ++ [m]) = encode_messages ms ++ encode_message m.
Proof. unfold encode_messages. rewrite fmap_app, concat_app. cbn. by rewrite app_nil_r. Qed.

Lemma spec_message_inv l msg rest :
  spec_message l = Some (msg, rest) → l = encode_message msg ++ rest.
Proof.
  destruct l as [|b0 [|b1 t]]; try done. cbn [spec_message].
  destruct (_ <? _)%nat eqn:Hl; [done|]. zbool. intros [= <- <-]. unfold encode_message.
  rewrite length_take, Nat.min_l by lia. pose proof (be_decode_range [b0; b1]).
  rewrite Z2Nat.id by lia. change (be_encode 2 ?z) with (be_encode (length [b0; b1]) z).
  rewrite be_encode_decode. cbn [app]. by rewrite take_drop.
Qed.

(** The log against the bytes, from the start [v0] of the trace. *)
Definition vless_trace_inv (v0 v : V) (l : vless_log) : Prop :=
  vless_inv v ∧ crashed l = false ∧
  vless_out v = vless_out v0 ++ encode_messages (accepted_msgs l) ∧
  (failed l = false → vless_ahead v0 = encode_messages (got l) ++ vless_ahead v).

Lemma returns_crashes {A} (x : poll (res A)) : poll_returns x → crashes x = false.
Proof. by destruct x as [[]|]. Qed.

Lemma vless_read_inv v0 n v l v' l' :
  vless_poll (VRead n) v l = (v', l') → vless_trace_inv v0 v l → vless_trace_inv v0 v' l'.
Proof.
  intros Hr (Hi & Hc & Ho & Ha). cbn [vless_poll] in Hr. unfold poll_read_message, Vless_read in Hr.
  destruct (vs_eof v) eqn:He.
  { unfold vless_poll_read_message in Hr. rewrite He in Hr. simplify_eq. rewrite He.
    split_and!; cbn; by rewrite ?orb_false_r. }
  destruct (vless_poll_read_message n v) as [x v1] eqn:E.
  destruct (vless_poll_read_spec _ _ _ _ E Hi He) as (Hi' & Hw & Hp & Hoff & Hx).
  assert (vless_out v1 = vless_out v) as Ho1 by (unfold vless_out; congruence).
  injection Hr as <- <-. unfold vless_trace_inv. cbn [crashed accepted_msgs failed got].
  rewrite Hc, Ho1. destruct x as [[msg|e|w|]|]; try done; cbn [crashes orb]; rewrite ?orb_false_r.
  - split_and!; try done. intros Hf. rewrite (Ha Hf).
    destruct Hx as [[Hs Heq]|(_ & Hnil & Hnil' & Heq)]; rewrite Heq.
    + rewrite He. apply spec_message_inv in Hs. by rewrite Hs, encode_messages_snoc, <-app_assoc.
    + by rewrite Hnil, Hnil'.
  - split_and!; try done. by rewrite orb_true_r.
  - destruct Hx as [-> _]. by split_and!.
Qed.

Lemma vless_poll_inv v0 op v l v' l' :
  vless_poll op v l = (v', l') → vless_trace_inv v0 v l → vless_trace_inv v0 v' l'.
Proof.
  intros Hr Hinv. destruct op as [n|msg|]; [by eapply vless_read_inv|..];
    destruct Hinv as (Hi & Hc & Ho & Ha); cbn [vless_poll] in Hr; unfold vless_trace_inv.
  - unfold poll_write_message, Vless_write in Hr.
    destruct (vless_poll_write_message msg v) as [x v1] eqn:E.
    destruct (vless_write_spec _ _ _ _ E Hi) as ((Hi' & Hah & _) & Hx & Ho1). injection Hr as <- <-.
    cbn [crashed accepted_msgs failed got]. rewrite Hah, Hc, (returns_crashes _ Hx), Ho1, Ho.
    split_and!; try done. destruct (ready_ok x); [by rewrite encode_messages_snoc, <-app_assoc|].
    by rewrite app_nil_r.
  - unfold poll_flush_message, Vless_flush in Hr.
    destruct (vless_poll_flush_message v) as [x v1] eqn:E.
    destruct (vless_flush_spec _ _ _ E Hi) as ((Hi' & Hah & _) & Ho1 & Hx & _). injection Hr as <- <-.
    cbn [crashed accepted_msgs failed got]. by rewrite Hah, Hc, (returns_crashes _ Hx), Ho1.
Qed.

Lemma vless_polls_inv ops v0 v l v' l' :
  vless_polls ops v l = (v', l') → vless_trace_inv v0 v l → vless_trace_inv v0 v' l'.
Proof.
  revert v l. induction ops as [|op ops IH]; intros v l Hr Hi; cbn in Hr; [by simplify_eq|].
  destruct (vless_poll op v l) as [v1 l1] eqn:E. eauto using vless_poll_inv.
Qed.
End Laws.

(** ** Properties *)

(** Any sequence of polls on a message stream, however the stream below it cuts
    and delays its bytes: the bytes written and queued are the encodings of the
    messages accepted, in order; the messages read are the ones whose encodings
    the peer sent, in order, with the rest still ahead, as long as no read has
    failed; and no poll panics or spins. *)
Theorem vless_messages_in_order {T : Type} `{AsyncReadLaws T} `{AsyncWriteLaws T} `{!AsyncPing T}
    `{!AsyncStreamLaws T} (mem : nat → byte) (s : T) (ops : list vless_op)
    (v : VlessMessageStream T) (l : vless_log) :
  vless_polls ops (vless_new mem s) (MkVLog [] [] false false) = (v, l) →
  crashed l = false ∧
  written (vs_stream v) ++ drop (write_offset v) (pending_write v) =
    written s ++ encode_messages (accepted_msgs l) ∧
  (failed l = false → incoming s = encode_messages (got l) ++ vless_ahead v).
Proof.
  intros Hr.
  destruct (vless_polls_inv _ (vless_new mem s) _ _ _ _ Hr) as (_ & Hc & Ho & Ha).
  - split_and!; [|done| |done].
    + split_and!; [apply length_allocate_vec|cbn; lia..].
    + unfold encode_messages. cbn [accepted_msgs fmap list_fmap concat]. by rewrite app_nil_r.
  - unfold vless_out in Ho. cbn in Ho, Ha. rewrite app_nil_r in Ho. done.
Qed.

(** Two messages in, cut across reads, and one out past a full pipe. *)
Definition demo_vless : VlessMessageStream (QuicStream Sink Script) * vless_log :=
  vless_polls [VRead 9; VWrite [x07]; VRead 9; VFlush; VRead 9; VFlush]
    (vless_new (fun _ => x00)
      (MkQuic (MkSink [] [WAccept 0; WPending])
              (MkScript [EData x00 []; EPending; EData x02 [x0a; x0b; x00; x01; x0c]])))
    (MkVLog [] [] false false).

Lemma vless_messages_in_order_witness :
  written (vs_stream demo_vless.1) ++
    drop (write_offset demo_vless.1) (pending_write demo_vless.1) = encode_messages [[x07]] ∧
  got demo_vless.2 = [[x0a; x0b]; [x0c]].
Proof.
  destruct (vless_messages_in_order _ _ _ demo_vless.1 demo_vless.2 (surjective_pairing _))
    as (_ & Ho & _).
  split; [rewrite Ho|]; vm_compute; reflexivity.
Defined.
