(* ===== verification/PacketStream.v ===== *)
(** * Addressed packets over a stream (src/message_stream.rs: [SlideBuffer], the UoT
    address codec and [PacketAddrStream])

    A packet is an address, a two-byte length and the payload.  Packets read carry
    their target, packets written carry their source. *)

From Stdlib Require Import String.
From S2P Require Import Prelude RustStd Address AsyncStream QuicStream VlessStream.

(** ** The sliding buffer *)

Record SlideBuffer : Set := MkSlide { sb_data : bytes; sb_start : nat; sb_end : nat }.

Definition slide_new (mem : nat → byte) (capacity : nat) : SlideBuffer :=
  MkSlide (allocate_vec mem capacity) 0 0.

Definition slide_len (b : SlideBuffer) : nat := sb_end b - sb_start b.
Definition remaining_capacity (b : SlideBuffer) : nat := length (sb_data b) - sb_end b.
Definition as_slice (b : SlideBuffer) : bytes := slice (sb_start b) (sb_end b) (sb_data b).

(** [n] bytes were put at [write_slice] and [advance_write(n)] was called; the
    [debug_assert!] is the panic. *)
Definition slide_write (bs : bytes) (b : SlideBuffer) : res SlideBuffer :=
  if (sb_end b + length bs <=? length (sb_data b))%nat
  then Ok (MkSlide (splice (sb_end b) bs (sb_data b)) (sb_start b) (sb_end b + length bs))
  else Panic "SlideBuffer advance_write overflow".

Definition slide_consume (n : nat) (b : SlideBuffer) : res SlideBuffer :=
  if (n <=? slide_len b)%nat then
    let start := (sb_start b + n)%nat in
    Ok (if (sb_end b <=? start)%nat then MkSlide (sb_data b) 0 0
        else MkSlide (sb_data b) start (sb_end b))
  else Panic "SlideBuffer consume underflow".

Definition maybe_compact (threshold : nat) (b : SlideBuffer) : SlideBuffer :=
  if (threshold <? sb_start b)%nat then
    if (sb_start b <? sb_end b)%nat
    then MkSlide (copy_within0 (sb_start b) (sb_end b) (sb_data b)) 0 (sb_end b - sb_start b)
    else MkSlide (sb_data b) 0 0
  else b.

(** ** The address codec *)

Definition UOT_ATYP_IPV4 : Z := 0.
Definition UOT_ATYP_IPV6 : Z := 1.
Definition UOT_ATYP_DOMAIN : Z := 2.

Definition parse_uot_address (data : bytes) : res (option (NetLocation * nat)) :=
  match data with
  | [] => Ok None
  | atyp :: _ =>
      if b2z atyp =? UOT_ATYP_IPV4 then
        if (length data <? 7)%nat then Ok None
        else Ok (Some (NetLoc (Addr_Ipv4 (Ipv4 (be_decode (slice 1 5 data))))
                              (be_decode (slice 5 7 data)), 7%nat))
      else if b2z atyp =? UOT_ATYP_IPV6 then
        if (length data <? 19)%nat then Ok None
        else Ok (Some (NetLoc (Addr_Ipv6 (Ipv6 (be_decode (slice 1 17 data))))
                              (be_decode (slice 17 19 data)), 19%nat))
      else if b2z atyp =? UOT_ATYP_DOMAIN then
        if (length data <? 2)%nat then Ok None
        else
          let domain_len := Z.to_nat (b2z (nth 1 data x00)) in
          let total_len := (1 + 1 + domain_len + 2)%nat in
          if (length data <? total_len)%nat then Ok None
          else
            let domain := slice 2 (2 + domain_len) data in
            if negb (utf8_valid domain) then Err (io_err Other "invalid domain")
            else Ok (Some (NetLoc (Addr_Hostname domain)
                                  (be_decode (slice (2 + domain_len) (4 + domain_len) data)),
                           total_len))
      else Err (IoError Other (str "unknown UoT ATYP: " ++ dec (b2z atyp)))
  end.

(** The bytes of an address. *)
Definition uot_address (addr : SocketAddr) : bytes :=
  match addr with
  | SocketV4 ip port => z2b UOT_ATYP_IPV4 :: be_encode 4 (v4_bits ip) ++ be_encode 2 port
  | SocketV6 ip port => z2b UOT_ATYP_IPV6 :: be_encode 16 (v6_bits ip) ++ be_encode 2 port
  end.

(** Written over the front of [buf], with their number; the slices panic when short. *)
Definition write_uot_address (buf : bytes) (addr : SocketAddr) : res (bytes * nat) :=
  let bs := uot_address addr in
  if (length bs <=? length buf)%nat then Ok (splice 0 bs buf, length bs)
  else Panic "range end index out of range for slice".

Record AddressCodec : Type := MkCodec {
  codec_parse : bytes → res (option (NetLocation * nat));
  codec_write : bytes → SocketAddr → res (bytes * nat) }.

Definition UOT_ADDR_CODEC : AddressCodec := MkCodec parse_uot_address write_uot_address.

(** ** The stream *)

Definition BUFFER_SIZE : nat := Z.to_nat 65535.
Definition COMPACT_THRESHOLD : nat := Z.to_nat 4096.

Record PacketAddrStream (T : Type) : Type := MkPacket {
  ps_stream : T; ps_codec : AddressCodec; ps_read_buf : SlideBuffer;
  write_buf : bytes; write_buf_len : nat; write_buf_sent : nat; ps_eof : bool }.
Arguments MkPacket {T} _ _ _ _ _ _ _.
Arguments ps_stream {T} _.
Arguments ps_codec {T} _.
Arguments ps_read_buf {T} _.
Arguments write_buf {T} _.
Arguments write_buf_len {T} _.
Arguments write_buf_sent {T} _.
Arguments ps_eof {T} _.

Definition new_with_codec {T} (mem : nat → byte) (stream : T) (codec : AddressCodec)
    : PacketAddrStream T :=
  MkPacket stream codec (slide_new mem BUFFER_SIZE) (allocate_vec mem BUFFER_SIZE) 0 0 false.

Definition new_uot {T} (mem : nat → byte) (stream : T) : PacketAddrStream T :=
  new_with_codec mem stream UOT_ADDR_CODEC.

(** [try_parse_packet] on the bytes of the buffer: the target, and where the payload is. *)
Definition parse_packet (codec : AddressCodec) (data : bytes) : res (option (NetLocation * nat * nat)) :=
  parsed ← codec_parse codec data;
  match parsed with
  | None => Ok None
  | Some (location, addr_len) =>
      if (length data <? addr_len + 2)%nat then Ok None
      else
        let payload_len := Z.to_nat (be_decode (slice addr_len (addr_len + 2) data)) in
        let payload_start := (addr_len + 2)%nat in
        let total_len := (payload_start + payload_len)%nat in
        if (length data <? total_len)%nat then Ok None
        else Ok (Some (location, payload_start, payload_len))
  end.

Definition try_parse_packet {T} (p : PacketAddrStream T) : res (option (NetLocation * nat * nat)) :=
  parse_packet (ps_codec p) (as_slice (ps_read_buf p)).

Section Ops.
Context {T : Type} `{AsyncRead T} `{AsyncWrite T}.
Abbreviation P := (PacketAddrStream T).

Definition set_read (p : P) (stream : T) (b : SlideBuffer) (eof : bool) : P :=
  MkPacket stream (ps_codec p) b (write_buf p) (write_buf_len p) (write_buf_sent p) eof.

(** Copy the payload out and take the packet off the buffer. *)
Definition take_packet (remaining : nat) (location : NetLocation) (payload_start payload_len : nat)
    (p : P) : res (NetLocation * bytes) * P :=
  let payload := slice payload_start (payload_start + payload_len) (as_slice (ps_read_buf p)) in
  if (remaining <? payload_len)%nat then (Panic "buf.len() must fit in remaining()", p)
  else
    match slide_consume (payload_start + payload_len) (ps_read_buf p) with
    | Ok b => (Ok (location, payload), set_read p (ps_stream p) b (ps_eof p))
    | Err e => (Err e, p)
    | Panic w => (Panic w, p)
    | OutOfFuel => (OutOfFuel, p)
    end.

(** The [loop]: each round reads a byte or returns. *)
Fixpoint packet_read_loop (fuel remaining : nat) (p : P) : poll (res (NetLocation * bytes)) * P :=
  match try_parse_packet p with
  | Ok (Some (location, payload_start, payload_len)) =>
      let '(r, p') := take_packet remaining location payload_start payload_len p in (Ready r, p')
  | Err e => (Ready (Err e), p)
  | Panic w => (Ready (Panic w), p)
  | OutOfFuel => (Ready OutOfFuel, p)
  | Ok None =>
      let b := maybe_compact COMPACT_THRESHOLD (ps_read_buf p) in
      if (remaining_capacity b =? 0)%nat
      then (Ready (Err (io_err Other "packet-address read buffer full but no complete packet")),
            set_read p (ps_stream p) b (ps_eof p))
      else
        match poll_read (remaining_capacity b) (ps_stream p) with
        | (Ready (Ok bs), s) =>
            if (length bs =? 0)%nat
            then (Ready (Ok (netloc_unspecified, [])), set_read p s b true)
            else
              match slide_write bs b with
              | Ok b' =>
                  match fuel with
                  | O => (Ready OutOfFuel, set_read p s b' (ps_eof p))
                  | S f => packet_read_loop f remaining (set_read p s b' (ps_eof p))
                  end
              | Err e => (Ready (Err e), set_read p s b (ps_eof p))
              | Panic w => (Ready (Panic w), set_read p s b (ps_eof p))
              | OutOfFuel => (Ready OutOfFuel, set_read p s b (ps_eof p))
              end
        | (Ready (Err e), s) => (Ready (Err e), set_read p s b (ps_eof p))
        | (Ready (Panic w), s) => (Ready (Panic w), set_read p s b (ps_eof p))
        | (Ready OutOfFuel, s) => (Ready OutOfFuel, set_read p s b (ps_eof p))
        | (Pending, s) => (Pending, set_read p s b (ps_eof p))
        end
  end.

Definition poll_read_targeted_message (remaining : nat) (p : P)
    : poll (res (NetLocation * bytes)) * P :=
  if ps_eof p then (Ready (Ok (netloc_unspecified, [])), p)
  else packet_read_loop BUFFER_SIZE remaining p.

Definition set_write (p : P) (stream : T) (buf : bytes) (len sent : nat) : P :=
  MkPacket stream (ps_codec p) (ps_read_buf p) buf len sent (ps_eof p).

(** [while this.write_buf_sent < this.write_buf_len]: a write of zero bytes is tried again. *)
Fixpoint packet_drain (fuel : nat) (p : P) : poll (res unit) * P :=
  if (write_buf_sent p <? write_buf_len p)%nat then
    match fuel with
    | O => (Ready OutOfFuel, p)
    | S f =>
        match poll_write (slice (write_buf_sent p) (write_buf_len p) (write_buf p)) (ps_stream p) with
        | (Ready (Ok n), s) =>
            packet_drain f (set_write p s (write_buf p) (write_buf_len p) (write_buf_sent p + n))
        | (Ready (Err e), s) => (Ready (Err e), set_write p s (write_buf p) (write_buf_len p) (write_buf_sent p))
        | (Ready (Panic w), s) => (Ready (Panic w), set_write p s (write_buf p) (write_buf_len p) (write_buf_sent p))
        | (Ready OutOfFuel, s) => (Ready OutOfFuel, set_write p s (write_buf p) (write_buf_len p) (write_buf_sent p))
        | (Pending, s) => (Pending, set_write p s (write_buf p) (write_buf_len p) (write_buf_sent p))
        end
    end
  else (Ready (Ok tt), set_write p (ps_stream p) (write_buf p) 0 0).

(** The frame of a packet, put at the front of [write_buf]. *)
Definition packet_frame (codec : AddressCodec) (wb : bytes) (source : SocketAddr) (buf : bytes)
    : res (bytes * nat) :=
  let addr_len := match source with SocketV4 _ _ => 7 | SocketV6 _ _ => 19 end%nat in
  let total_len := (addr_len + 2 + length buf)%nat in
  if (length wb <? total_len)%nat then Err (io_err Other "packet-address frame too large")
  else
    '(wb, offset) ← codec_write codec wb source;
    let wb := splice offset (be_encode 2 (wrap 16 (Z.of_nat (length buf)))) wb in
    let data_start := (offset + 2)%nat in
    Ok (splice data_start buf wb, (data_start + length buf)%nat).

Definition poll_write_sourced_message (buf : bytes) (source : SocketAddr) (p : P)
    : poll (res unit) * P :=
  match packet_drain (write_buf_len p - write_buf_sent p) p with
  | (Ready (Ok _), p) =>
      match packet_frame (ps_codec p) (write_buf p) source buf with
      | Ok (wb, len) => (Ready (Ok tt), set_write p (ps_stream p) wb len 0)
      | Err e => (Ready (Err e), p)
      | Panic w => (Ready (Panic w), p)
      | OutOfFuel => (Ready OutOfFuel, p)
      end
  | other => other
  end.

Definition packet_poll_flush (p : P) : poll (res unit) * P :=
  match packet_drain (write_buf_len p - write_buf_sent p) p with
  | (Ready (Ok _), p) =>
      let '(x, s) := poll_flush (ps_stream p) in
      (x, set_write p s (write_buf p) (write_buf_len p) (write_buf_sent p))
  | other => other
  end.

Definition packet_poll_shutdown (p : P) : poll (res unit) * P :=
  match packet_poll_flush p with
  | (Ready (Ok _), p) =>
      let '(x, s) := poll_shutdown (ps_stream p) in
      (x, set_write p s (write_buf p) (write_buf_len p) (write_buf_sent p))
  | other => other
  end.
End Ops.

(** ** The buffer *)

Definition slide_inv (b : SlideBuffer) : Prop :=
  (sb_start b ≤ sb_end b ≤ length (sb_data b))%nat.

Lemma length_as_slice b : slide_inv b → length (as_slice b) = slide_len b.
Proof. intros [? ?]. by apply length_slice. Qed.

Lemma slide_write_ok bs b :
  slide_inv b → (length bs ≤ remaining_capacity b)%nat →
  ∃ b', slide_write bs b = Ok b' ∧ slide_inv b' ∧ as_slice b' = as_slice b ++ bs ∧
    length (sb_data b') = length (sb_data b) ∧ slide_len b' = (slide_len b + length bs)%nat.
Proof.
  intros [Hs He] Hl. unfold slide_write, remaining_capacity in *.
  rewrite (proj2 (Nat.leb_le _ _)) by lia. eexists. split; [done|].
  unfold slide_inv, slide_len, as_slice. cbn [sb_data sb_start sb_end].
  rewrite length_splice by lia. split_and!; [lia..| |done|lia].
  rewrite (slice_split _ (sb_end b)) by lia. by rewrite slice_splice_below, slice_splice_eq by lia.
Qed.

Lemma slide_consume_ok n b :
  slide_inv b → (n ≤ slide_len b)%nat →
  ∃ b', slide_consume n b = Ok b' ∧ slide_inv b' ∧ as_slice b' = drop n (as_slice b) ∧
    length (sb_data b') = length (sb_data b).
Proof.
  intros [Hs He] Hn. pose proof (length_as_slice b (conj Hs He)) as Hl.
  unfold slide_consume, slide_len in *. rewrite (proj2 (Nat.leb_le _ _)) by lia.
  eexists. split; [done|]. cbv zeta.
  destruct (sb_end b <=? sb_start b + n)%nat eqn:Hc; zbool; unfold slide_inv, as_slice;
    cbn [sb_data sb_start sb_end].
  - split_and!; [lia..| |done]. rewrite slice_nil. symmetry. apply drop_ge. unfold as_slice in Hl. lia.
  - split_and!; [lia..| |done]. rewrite (slice_split (sb_start b) (sb_start b + n)) by lia.
    rewrite drop_app_length'; [done|]. rewrite length_slice; lia.
Qed.

Lemma maybe_compact_spec t b :
  slide_inv b →
  slide_inv (maybe_compact t b) ∧ as_slice (maybe_compact t b) = as_slice b ∧
  length (sb_data (maybe_compact t b)) = length (sb_data b) ∧
  slide_len (maybe_compact t b) = slide_len b.
Proof.
  intros [Hs He]. unfold maybe_compact. destruct (t <? sb_start b)%nat; [|done].
  destruct (sb_start b <? sb_end b)%nat eqn:Hlt; zbool; unfold slide_inv, slide_len, as_slice;
    cbn [sb_data sb_start sb_end].
  - rewrite length_copy_within0 by lia. split_and!; try lia. by apply slice_copy_within0.
  - assert (sb_start b = sb_end b) as -> by lia. rewrite !slice_nil. split_and!; done || lia.
Qed.

(** ** The format *)

Definition socket_location (a : SocketAddr) : NetLocation :=
  match a with SocketV4 ip p => NetLoc (Addr_Ipv4 ip) p | SocketV6 ip p => NetLoc (Addr_Ipv6 ip) p end.

Definition socket_addr_wf (a : SocketAddr) : Prop :=
  match a with
  | SocketV4 ip p => ipv4_wf ip ∧ 0 ≤ p < 65536
  | SocketV6 ip p => ipv6_wf ip ∧ 0 ≤ p < 65536
  end.

Definition encode_packet (source : SocketAddr) (payload : bytes) : bytes :=
  uot_address source ++ be_encode 2 (Z.of_nat (length payload)) ++ payload.

Lemma slice_app_l {A} a b (l r : list A) :
  (b ≤ length l)%nat → slice a b (l ++ r) = slice a b l.
Proof.
  intros Hb. unfold slice. destruct (decide (a ≤ length l)%nat).
  - rewrite drop_app_le by done. apply take_app_le. rewrite length_drop. lia.
  - replace (b - a)%nat with 0%nat by lia. done.
Qed.

Lemma slice_app_r {A} a b (l r : list A) :
  (length l ≤ a)%nat → slice a b (l ++ r) = slice (a - length l) (b - length l) r.
Proof.
  intros Ha. unfold slice. rewrite drop_app_ge by done. f_equal. lia.
Qed.

Lemma uot_address_roundtrip_aux addr rest :
  socket_addr_wf addr →
  parse_uot_address (uot_address addr ++ rest) =
    Ok (Some (socket_location addr, length (uot_address addr))) ∧
  length (uot_address addr) = match addr with SocketV4 _ _ => 7 | SocketV6 _ _ => 19 end%nat.
Proof.
  intros Hw. unfold uot_address, parse_uot_address. destruct addr as [[ip] p|[ip] p]; cbn [v4_bits v6_bits].
  - destruct Hw as [Hip Hp]. unfold ipv4_wf in Hip. cbn [v4_bits] in Hip.
    pose proof (length_be_encode 4 ip) as H4. pose proof (length_be_encode 2 p) as H2.
    pose proof (be_decode_encode_small 4 ip ltac:(lia)) as D4.
    pose proof (be_decode_encode_small 2 p ltac:(lia)) as D2.
    destruct (be_encode 4 ip) as [|? [|? [|? [|? [|]]]]]; try done.
    destruct (be_encode 2 p) as [|? [|? [|]]]; try done.
    cbn -[be_decode Nat.ltb]. rewrite (proj2 (Nat.ltb_ge _ _)) by (cbn; lia). unfold slice.
    cbn -[be_decode]. rewrite !take_0, D4, D2. done.
  - destruct Hw as [Hip Hp]. unfold ipv6_wf in Hip. cbn [v6_bits] in Hip.
    pose proof (length_be_encode 16 ip) as H4. pose proof (length_be_encode 2 p) as H2.
    pose proof (be_decode_encode_small 16 ip ltac:(lia)) as D4.
    pose proof (be_decode_encode_small 2 p ltac:(lia)) as D2.
    set (l := be_encode 16 ip) in *. set (k := be_encode 2 p) in *. cbn [app].
    change (b2z (z2b UOT_ATYP_IPV6)) with 1. cbn [Z.eqb UOT_ATYP_IPV4 UOT_ATYP_IPV6 Pos.eqb].
    rewrite (proj2 (Nat.ltb_ge _ _)) by len.
    change (z2b UOT_ATYP_IPV6 :: (l ++ k) ++ rest) with ([z2b UOT_ATYP_IPV6] ++ (l ++ k) ++ rest).
    rewrite (slice_app_r 1 17), (slice_app_r 17 19) by (cbn; lia). cbn [length Nat.sub].
    rewrite <-!app_assoc. rewrite (slice_app_l 0 16) by lia. rewrite (slice_app_r 16 18) by lia.
    rewrite H4. cbn [Nat.sub]. rewrite slice_app_l by lia.
    assert (slice 0 16 l = l) as -> by (rewrite <-H4; apply slice_all).
    assert (slice 0 2 k = k) as -> by (rewrite <-H2; apply slice_all).
    rewrite D4, D2. cbn [length socket_location]. rewrite length_app, H4, H2. done.
Qed.

Lemma parse_packet_encode source payload rest :
  socket_addr_wf source → (length payload ≤ Z.to_nat 65535)%nat →
  parse_packet UOT_ADDR_CODEC (encode_packet source payload ++ rest) =
    Ok (Some (socket_location source, (length (uot_address source) + 2)%nat, length payload)).
Proof.
  intros Hw Hl. unfold parse_packet, encode_packet. rewrite <-!app_assoc. cbn [codec_parse UOT_ADDR_CODEC].
  set (r := be_encode 2 (Z.of_nat (length payload)) ++ payload ++ rest).
  destruct (uot_address_roundtrip_aux source r Hw) as [-> _]. cbn [mbind res_bind].
  pose proof (length_be_encode 2 (Z.of_nat (length payload))) as H2.
  rewrite (proj2 (Nat.ltb_ge _ _)) by (unfold r; len).
  rewrite slice_app_r by lia. replace (length (uot_address source) - length (uot_address source))%nat
    with 0%nat by lia. replace (length (uot_address source) + 2 - length (uot_address source))%nat
    with 2%nat by lia.
  assert (slice 0 2 r = be_encode 2 (Z.of_nat (length payload))) as ->.
  { unfold r. rewrite slice_app_l by lia. rewrite <-H2 at 1. apply slice_all. }
  rewrite be_decode_encode_small, Nat2Z.id by lia.
  rewrite (proj2 (Nat.ltb_ge _ _)) by (unfold r; len). done.
Qed.

Lemma parse_uot_bound l loc n :
  parse_uot_address l = Ok (Some (loc, n)) → (n ≤ length l)%nat.
Proof.
  destruct l as [|a t]; [done|]. unfold parse_uot_address. cbv zeta. intros Hp.
  destruct (b2z a =? UOT_ATYP_IPV4).
  { destruct (_ <? 7)%nat eqn:Hl; simplify_eq. by zbool. }
  destruct (b2z a =? UOT_ATYP_IPV6).
  { destruct (_ <? 19)%nat eqn:Hl; simplify_eq. by zbool. }
  destruct (b2z a =? UOT_ATYP_DOMAIN); [|done]. destruct (_ <? 2)%nat; [done|].
  destruct (_ <? 1 + 1 + _ + 2)%nat eqn:Hl; [done|]. destruct (negb _); simplify_eq. by zbool.
Qed.

(** More bytes do not change what a complete address parses to, nor an error. *)
Lemma parse_uot_stable l r x :
  parse_uot_address l = x → x ≠ Ok None → parse_uot_address (l ++ r) = x.
Proof.
  intros <- Hx. destruct l as [|a t]; [done|]. unfold parse_uot_address in *.
  cbn [app] in *. change (a :: t ++ r) with ((a :: t) ++ r). rewrite length_app.
  destruct (b2z a =? UOT_ATYP_IPV4).
  { destruct (_ <? 7)%nat eqn:Hl; [done|]. zbool. rewrite (proj2 (Nat.ltb_ge _ _)) by lia.
    by rewrite !slice_app_l by lia. }
  destruct (b2z a =? UOT_ATYP_IPV6).
  { destruct (_ <? 19)%nat eqn:Hl; [done|]. zbool. rewrite (proj2 (Nat.ltb_ge _ _)) by lia.
    by rewrite !slice_app_l by lia. }
  destruct (b2z a =? UOT_ATYP_DOMAIN); [|done].
  destruct (length (a :: t) <? 2)%nat eqn:Hl; [done|]. zbool. rewrite (proj2 (Nat.ltb_ge _ _)) by lia.
  rewrite app_nth1 by lia. cbv zeta in *. set (n := Z.to_nat (b2z (nth 1 (a :: t) x00))) in *.
  destruct (length (a :: t) <? 1 + 1 + n + 2)%nat eqn:Hl2; [done|]. zbool.
  rewrite (proj2 (Nat.ltb_ge _ _)) by lia. by rewrite !slice_app_l by lia.
Qed.

Lemma parse_uot_returns l : panics (parse_uot_address l) = false ∧ parse_uot_address l ≠ OutOfFuel.
Proof. unfold parse_uot_address. destruct l; [done|]. cbv zeta. by repeat case_match_eqn. Qed.

Lemma parse_packet_bound l loc s n :
  parse_packet UOT_ADDR_CODEC l = Ok (Some (loc, s, n)) → (s + n ≤ length l)%nat.
Proof.
  unfold parse_packet. intros Hp. apply bind_ok_inv in Hp as ([[loc' k]|] & _ & Hp); [|done].
  repeat case_in Hp; simplify_eq; zbool; lia.
Qed.

Lemma parse_packet_stable l r x :
  parse_packet UOT_ADDR_CODEC l = x → x ≠ Ok None → parse_packet UOT_ADDR_CODEC (l ++ r) = x.
Proof.
  unfold parse_packet. cbn [codec_parse UOT_ADDR_CODEC]. intros <- Hx.
  destruct (parse_uot_address l) as [[[loc k]|]|e|w|] eqn:E; cbn [mbind res_bind] in *; try done;
    (rewrite (parse_uot_stable l r _ E) by done); cbn [mbind res_bind]; try done.
  destruct (length l <? k + 2)%nat eqn:Hl; [done|]. zbool. cbv zeta in *.
  rewrite length_app, (proj2 (Nat.ltb_ge _ _)), slice_app_l by lia.
  destruct (length l <? _)%nat eqn:Hl2 in Hx |- *; [done|]. zbool.
  by rewrite (proj2 (Nat.ltb_ge _ _)) by lia.
Qed.

Lemma parse_packet_returns l :
  panics (parse_packet UOT_ADDR_CODEC l) = false ∧ parse_packet UOT_ADDR_CODEC l ≠ OutOfFuel.
Proof.
  unfold parse_packet. cbn [codec_parse UOT_ADDR_CODEC]. destruct (parse_uot_returns l) as [Hp Hf].
  destruct (parse_uot_address l) as [[[]|]| | |]; cbn [mbind res_bind]; try done.
  cbv zeta. by repeat case_match_eqn.
Qed.

(** ** Reading *)

(** When the buffer is full after a compaction, at most the threshold is wasted. *)
Lemma full_after_compact b :
  slide_inv b → length (sb_data b) = BUFFER_SIZE →
  remaining_capacity (maybe_compact COMPACT_THRESHOLD b) = 0%nat →
  (Z.to_nat 61439 ≤ slide_len (maybe_compact COMPACT_THRESHOLD b))%nat.
Proof.
  intros [Hs He] Hl. unfold maybe_compact, remaining_capacity, slide_len, BUFFER_SIZE,
    COMPACT_THRESHOLD in *.
  destruct (_ <? sb_start b)%nat eqn:Ht; zbool; [destruct (_ <? sb_end b)%nat eqn:Hlt; zbool|];
    cbn [sb_data sb_start sb_end]; rewrite ?length_copy_within0 by lia; lia.
Qed.

(** The frame is what the front of the buffer then holds. *)
Lemma length_uot_address a :
  length (uot_address a) = match a with SocketV4 _ _ => 7 | SocketV6 _ _ => 19 end%nat.
Proof. destruct a; cbn; by rewrite ?length_app, ?length_be_encode. Qed.

Lemma packet_frame_spec wb source buf :
  length wb = BUFFER_SIZE →
  match packet_frame UOT_ADDR_CODEC wb source buf with
  | Ok (wb', len) => length wb' = BUFFER_SIZE ∧ (len ≤ BUFFER_SIZE)%nat ∧
      slice 0 len wb' = encode_packet source buf
  | Err _ => True
  | _ => False
  end.
Proof.
  intros Hl. unfold packet_frame. cbv zeta. destruct (length wb <? _)%nat eqn:Ht; [done|]. zbool.
  rewrite <-length_uot_address in Ht. cbn [codec_write UOT_ADDR_CODEC]. unfold write_uot_address.
  rewrite (proj2 (Nat.leb_le _ _)) by lia. cbn [mbind res_bind].
  set (u := uot_address source) in *. set (k := be_encode 2 (wrap 16 (Z.of_nat (length buf)))).
  assert (length k = 2%nat) as Hk by apply length_be_encode.
  assert (k = be_encode 2 (Z.of_nat (length buf))) as Hkz
    by (unfold k, wrap, BUFFER_SIZE in *; by rewrite Z.mod_small by lia).
  assert (length (splice 0 u wb) = length wb) as Hl1 by (apply length_splice; lia).
  assert (length (splice (length u) k (splice 0 u wb)) = length wb) as Hl2
    by (rewrite length_splice; lia).
  rewrite length_splice by lia. split_and!; [lia..|].
  unfold slice. rewrite drop_0, Nat.sub_0_r, take_splice_end by lia.
  rewrite <-Hk at 1. rewrite take_splice_end by lia.
  rewrite <-(Nat.add_0_l (length u)). rewrite take_splice_end by lia.
  unfold encode_packet. by rewrite <-Hkz, <-app_assoc.
Qed.

Section Laws.
Context {T : Type} `{AsyncReadLaws T} `{AsyncWriteLaws T} `{!AsyncPing T} `{!AsyncStreamLaws T}.
Abbreviation P := (PacketAddrStream T).

Definition packet_ahead (p : P) : bytes := as_slice (ps_read_buf p) ++ incoming (ps_stream p).

Definition packet_inv (p : P) : Prop :=
  ps_codec p = UOT_ADDR_CODEC ∧ slide_inv (ps_read_buf p) ∧
  length (sb_data (ps_read_buf p)) = BUFFER_SIZE ∧ length (write_buf p) = BUFFER_SIZE ∧
  (write_buf_sent p ≤ write_buf_len p ≤ BUFFER_SIZE)%nat.

(** What is written and queued is not touched by a read. *)
Definition packet_out (p : P) : bytes :=
  written (ps_stream p) ++ slice (write_buf_sent p) (write_buf_len p) (write_buf p).

Definition read_side (p p' : P) : Prop := packet_inv p' ∧ packet_out p' = packet_out p.

(** The outcome of a read against the bytes ahead. *)
Definition packet_read_post (remaining : nat) (p : P) (x : poll (res (NetLocation * bytes))) (p' : P)
    : Prop :=
  read_side p p' ∧
  match x with
  | Ready (Ok (loc, payload)) =>
      (ps_eof p' = ps_eof p ∧ ∃ s,
        parse_packet UOT_ADDR_CODEC (packet_ahead p) = Ok (Some (loc, s, length payload)) ∧
        payload = slice s (s + length payload) (packet_ahead p) ∧
        packet_ahead p' = drop (s + length payload) (packet_ahead p)) ∨
      (loc = netloc_unspecified ∧ payload = [] ∧ ps_eof p' = true ∧ packet_ahead p' = packet_ahead p ∧
       parse_packet UOT_ADDR_CODEC (packet_ahead p) = Ok None)
  | Ready (Err e) =>
      parse_packet UOT_ADDR_CODEC (packet_ahead p) = Err e ∨
      (e = io_err Other "packet-address read buffer full but no complete packet" ∧
       (Z.to_nat 61439 ≤ length (as_slice (ps_read_buf p')))%nat ∧ packet_ahead p' = packet_ahead p) ∨
      (∃ n (s s' : T), poll_read n s = (Ready (Err e), s'))
  | Pending => packet_ahead p' = packet_ahead p ∧ ps_eof p' = ps_eof p
  | Ready (Panic _) => ∃ loc s n,
      parse_packet UOT_ADDR_CODEC (packet_ahead p) = Ok (Some (loc, s, n)) ∧ (remaining < n)%nat
  | Ready OutOfFuel => False
  end.

Lemma set_read_side p s b eof :
  packet_inv p → slide_inv b → length (sb_data b) = BUFFER_SIZE → written s = written (ps_stream p) →
  read_side p (set_read p s b eof).
Proof.
  intros (Hc & _ & _ & Hw) Hb Hl Hs. split; [done|]. unfold packet_out. cbn. by rewrite Hs.
Qed.

Lemma take_packet_spec remaining loc ps pl p r p' :
  take_packet remaining loc ps pl p = (r, p') → packet_inv p →
  try_parse_packet p = Ok (Some (loc, ps, pl)) → packet_read_post remaining p (Ready r) p'.
Proof.
  intros Ht Hi Hp. pose proof Hi as (Hc & Hs & Hl & _). unfold try_parse_packet in Hp. rewrite Hc in Hp.
  pose proof (parse_packet_bound _ _ _ _ Hp) as Hb.
  pose proof (parse_packet_stable _ (incoming (ps_stream p)) _ Hp ltac:(done)) as Hst.
  rewrite length_as_slice in Hb by done. unfold take_packet in Ht.
  destruct (remaining <? pl)%nat eqn:Hr; zbool.
  { simplify_eq. split; [by split|]. exists loc, ps, pl. done. }
  destruct (slide_consume_ok (ps + pl) (ps_read_buf p) Hs Hb) as (b & Hcon & Hsb & Hab & Hlb).
  rewrite Hcon in Ht. simplify_eq. split; [apply set_read_side; congruence|]. left. split; [done|].
  assert (length (slice ps (ps + pl) (as_slice (ps_read_buf p))) = pl) as Hlen
    by (rewrite length_slice by (rewrite length_as_slice; done); lia).
  exists ps. rewrite Hlen. unfold packet_ahead at 1 2. cbn [set_read ps_read_buf ps_stream].
  rewrite Hst, slice_app_l by (rewrite length_as_slice; done). split_and!; [done..|].
  unfold packet_ahead. cbn [set_read ps_read_buf ps_stream].
  by rewrite Hab, drop_app_le by (rewrite length_as_slice; done).
Qed.

Lemma packet_read_loop_spec fuel remaining p x p' :
  packet_read_loop fuel remaining p = (x, p') → packet_inv p →
  (BUFFER_SIZE ≤ fuel + slide_len (ps_read_buf p))%nat → packet_read_post remaining p x p'.
Proof.
  revert p. induction fuel as [|fuel IH]; intros p Hr Hi Hf; pose proof Hi as (Hc & Hs & Hl & Hw);
    cbn [packet_read_loop] in Hr; destruct (parse_packet_returns (as_slice (ps_read_buf p))) as [Hnp Hnf];
    rewrite <-Hc in Hnp, Hnf; fold (try_parse_packet p) in Hnp, Hnf;
    destruct (try_parse_packet p) as [[[[loc s] n]|]|e|w|] eqn:Hp; try done.
  1, 4: destruct (take_packet remaining loc s n p) as [r p1] eqn:Et; simplify_eq; by eapply take_packet_spec.
  2, 4: simplify_eq; split; [by split|left]; unfold try_parse_packet in Hp; rewrite Hc in Hp;
    by apply parse_packet_stable.
  all: destruct (maybe_compact_spec COMPACT_THRESHOLD (ps_read_buf p) Hs) as (Hsb & Hab & Hlb & Hnb);
    cbv zeta in Hr; set (b := maybe_compact COMPACT_THRESHOLD (ps_read_buf p)) in *;
    destruct (remaining_capacity b =? 0)%nat eqn:Hrc; zbool.
  1, 3: simplify_eq; split; [apply set_read_side; congruence|]; right; left; split; [done|];
    unfold packet_ahead; cbn [set_read ps_read_buf ps_stream]; rewrite Hab; split; [|done];
    rewrite <-Hab, length_as_slice by done; by apply full_after_compact.
  1: { exfalso. unfold remaining_capacity, slide_len, slide_inv in *. lia. }
  destruct (read_keeps (remaining_capacity b) (ps_stream p)) as [Hwr _].
  destruct (poll_read (remaining_capacity b) (ps_stream p)) as [[r|] s1] eqn:E; cbn [snd] in Hwr.
  2: { simplify_eq. destruct (poll_read_pending _ _ _ E) as [Hinc _].
       split; [apply set_read_side; congruence|]. unfold packet_ahead. cbn. by rewrite Hab, Hinc. }
  destruct (poll_read_returns _ _ _ _ E). destruct r as [bs|e|w|]; try done.
  2: { simplify_eq. split; [apply set_read_side; congruence|]. right. right. eauto. }
  destruct (poll_read_ok _ _ _ _ E) as (Hlen & Hinc & Heof).
  destruct (length bs =? 0)%nat eqn:Hz; zbool.
  - apply length_zero_iff_nil in Hz. subst bs. specialize (Heof ltac:(lia) eq_refl).
    rewrite Heof in Hinc. cbn [app] in Hinc. simplify_eq.
    split; [apply set_read_side; congruence|]. right. unfold packet_ahead.
    cbn [set_read ps_read_buf ps_stream]. rewrite Hab, Heof, <-Hinc, app_nil_r.
    unfold try_parse_packet in Hp. rewrite Hc in Hp. done.
  - destruct (slide_write_ok bs b Hsb Hlen) as (b1 & Hwb & Hsb1 & Hab1 & Hlb1 & Hnb1). rewrite Hwb in Hr.
    assert (read_side p (set_read p s1 b1 (ps_eof p))) as [Hi1 Ho1] by (apply set_read_side; congruence).
    assert (packet_ahead (set_read p s1 b1 (ps_eof p)) = packet_ahead p) as Ha.
    { unfold packet_ahead. cbn [set_read ps_read_buf ps_stream]. by rewrite Hab1, Hab, Hinc, <-app_assoc. }
    destruct (IH _ Hr Hi1) as [[Hi2 Ho2] Hx]; [cbn; lia|]. rewrite Ha in Hx.
    split; [split; congruence|]. done.
Qed.

Lemma packet_poll_read_spec remaining p x p' :
  poll_read_targeted_message remaining p = (x, p') → packet_inv p → ps_eof p = false →
  packet_read_post remaining p x p'.
Proof.
  unfold poll_read_targeted_message. intros Hr Hi He. rewrite He in Hr.
  eapply packet_read_loop_spec; [done..|lia].
Qed.

(** ** Writing *)

(** A step on the write side: the read side is untouched. *)
Definition write_side (p p' : P) : Prop :=
  packet_inv p' ∧ packet_ahead p' = packet_ahead p ∧ ps_eof p' = ps_eof p.

Lemma set_write_side p s wb len sent :
  packet_inv p → incoming s = incoming (ps_stream p) → length wb = BUFFER_SIZE →
  (sent ≤ len ≤ BUFFER_SIZE)%nat → write_side p (set_write p s wb len sent).
Proof.
  intros (Hc & Hs & Hl & _) Hinc Hw Hlen. split_and!; try done; try lia.
  unfold packet_ahead. cbn. by rewrite Hinc.
Qed.

Lemma write_side_trans p1 p2 p3 : write_side p1 p2 → write_side p2 p3 → write_side p1 p3.
Proof. intros (_ & ? & ?) (? & ? & ?). split_and!; congruence. Qed.

Context `{!WriteProgress T}.

Lemma packet_drain_spec fuel p x p' :
  packet_drain fuel p = (x, p') → packet_inv p → (write_buf_len p ≤ fuel + write_buf_sent p)%nat →
  write_side p p' ∧ packet_out p' = packet_out p ∧ poll_returns x ∧
  (x = Ready (Ok tt) → write_buf_len p' = 0%nat ∧ write_buf_sent p' = 0%nat).
Proof.
  revert p. induction fuel as [|fuel IH]; intros p Hr Hi Hf; pose proof Hi as (_ & _ & _ & Hw & Hsl);
    cbn [packet_drain] in Hr; destruct (write_buf_sent p <? write_buf_len p)%nat eqn:Hc; zbool.
  1: lia.
  1, 3: simplify_eq; split_and!; try done; [apply set_write_side; done || lia|];
    unfold packet_out; cbn [set_write ps_stream write_buf_sent write_buf_len write_buf];
    rewrite slice_nil; replace (write_buf_len p) with (write_buf_sent p) by lia; by rewrite slice_nil.
  set (chunk := slice (write_buf_sent p) (write_buf_len p) (write_buf p)) in *.
  assert (length chunk = write_buf_len p - write_buf_sent p)%nat as Hlc by (apply length_slice; lia).
  pose proof (write_keeps chunk (ps_stream p)) as Hk.
  assert (∀ s, incoming s = incoming (ps_stream p) → written s = written (ps_stream p) →
    write_side p (set_write p s (write_buf p) (write_buf_len p) (write_buf_sent p)) ∧
    packet_out (set_write p s (write_buf p) (write_buf_len p) (write_buf_sent p)) = packet_out p) as Hsame.
  { intros s Hinc Hwr. split; [by apply set_write_side|]. unfold packet_out. cbn. by rewrite Hwr. }
  destruct (poll_write chunk (ps_stream p)) as [[r|] s1] eqn:E; cbn [snd] in Hk.
  2: { simplify_eq. destruct (poll_write_pending _ _ _ E) as [Hwr _].
       destruct (Hsame _ Hk Hwr). by split_and!. }
  destruct (poll_write_returns _ _ _ _ E). destruct r as [n|e|w|]; try done.
  2: { simplify_eq. pose proof (poll_write_err _ _ _ _ E) as Hwr. destruct (Hsame _ Hk Hwr). by split_and!. }
  destruct (poll_write_ok _ _ _ _ E) as [Hn Hwr].
  assert (0 < n)%nat by (eapply poll_write_progress; [done|]; intros Hnil; rewrite Hnil in Hlc; cbn in Hlc; lia).
  assert (write_side p (set_write p s1 (write_buf p) (write_buf_len p) (write_buf_sent p + n))) as Hside
    by (apply set_write_side; done || lia).
  destruct (IH _ Hr (proj1 Hside)) as (Hs' & Ho' & Hx & Hd); [cbn; lia|].
  split_and!; try done; [by eapply write_side_trans|]. rewrite Ho'. unfold packet_out.
  cbn [set_write ps_stream write_buf_sent write_buf_len write_buf]. rewrite Hwr, <-app_assoc. f_equal.
  rewrite (slice_split (write_buf_sent p) (write_buf_sent p + n) (write_buf_len p)) by lia.
  f_equal. unfold chunk. unfold slice. rewrite take_take. f_equal. lia.
Qed.

Lemma packet_poll_flush_spec p x p' :
  packet_poll_flush p = (x, p') → packet_inv p →
  write_side p p' ∧ packet_out p' = packet_out p ∧ poll_returns x.
Proof.
  unfold packet_poll_flush. intros Hr Hi. destruct (packet_drain _ p) as [y p1] eqn:E.
  destruct (packet_drain_spec _ _ _ _ E Hi ltac:(lia)) as (Hs & Ho & Hy & _).
  destruct y as [[[]|e|w|]|]; simplify_eq; try (by split_and!).
  pose proof (flush_keeps (ps_stream p1)) as Hk. pose proof (poll_flush_written (ps_stream p1)) as Hwr.
  destruct (poll_flush (ps_stream p1)) as [z s1] eqn:Ef. cbn [snd] in Hk, Hwr. simplify_eq.
  pose proof Hs as ((_ & _ & _ & Hw & Hsl) & _). split_and!.
  - eapply write_side_trans; [done|]. apply set_write_side; [apply Hs|done|done|lia].
  - rewrite <-Ho. unfold packet_out. cbn. by rewrite Hwr.
  - destruct x as [[[]|e|w|]|]; try done; by destruct (poll_flush_returns _ _ _ Ef).
Qed.

Lemma packet_write_spec buf source p x p' :
  poll_write_sourced_message buf source p = (x, p') → packet_inv p →
  write_side p p' ∧ poll_returns x ∧
  packet_out p' = packet_out p ++ (if ready_ok x then encode_packet source buf else []).
Proof.
  unfold poll_write_sourced_message. intros Hr Hi. destruct (packet_drain _ p) as [y p1] eqn:E.
  destruct (packet_drain_spec _ _ _ _ E Hi ltac:(lia)) as (Hs & Ho & Hy & Hd).
  destruct y as [[[]|e|w|]|]; simplify_eq; try (split_and!; try done; by rewrite Ho, app_nil_r).
  destruct (Hd eq_refl) as [Hlen Hsent]. pose proof Hs as ((Hc & _ & _ & Hw & _) & _).
  rewrite Hc in Hr. pose proof (packet_frame_spec (write_buf p1) source buf Hw) as Hf.
  destruct (packet_frame _ (write_buf p1) source buf) as [[wb len]|e|w|]; simplify_eq; try done.
  - destruct Hf as (Hl & Hle & Hfr). split_and!; [|done|].
    + eapply write_side_trans; [done|]. apply set_write_side; [apply Hs|done|done|lia].
    + rewrite <-Ho. unfold packet_out. cbn [set_write ps_stream write_buf_sent write_buf_len write_buf ready_ok].
      by rewrite Hlen, Hsent, slice_nil, app_nil_r, Hfr.
  - split_and!; try done. by rewrite Ho, app_nil_r.
Qed.

(** ** Any sequence of polls *)

Inductive packet_op : Set :=
| PRead (remaining : nat) | PWrite (buf : bytes) (source : SocketAddr) | PFlush.

Record packet_log : Set := MkPLog {
  got_packets : list (NetLocation * bytes); sent_packets : list (SocketAddr * bytes);
  read_failed : bool; poll_crashed : bool }.

Definition packet_poll (op : packet_op) (p : P) (l : packet_log) : P * packet_log :=
  match op with
  | PRead n =>
      let '(x, p') := poll_read_targeted_message n p in
      (p', MkPLog (match x with
                   | Ready (Ok m) => if ps_eof p' then got_packets l else got_packets l ++ [m]
                   | _ => got_packets l
                   end) (sent_packets l)
             (read_failed l || match x with Ready (Err _) => true | _ => false end)
             (poll_crashed l || crashes x))
  | PWrite buf source =>
      let '(x, p') := poll_write_sourced_message buf source p in
      (p', MkPLog (got_packets l)
             (if ready_ok x then sent_packets l ++ [(source, buf)] else sent_packets l)
             (read_failed l) (poll_crashed l || crashes x))
  | PFlush =>
      let '(x, p') := packet_poll_flush p in
      (p', MkPLog (got_packets l) (sent_packets l) (read_failed l) (poll_crashed l || crashes x))
  end.

Fixpoint packet_polls (ops : list packet_op) (p : P) (l : packet_log) : P * packet_log :=
  match ops with
  | [] => (p, l)
  | op :: ops' => let '(p', l') := packet_poll op p l in packet_polls ops' p' l'
  end.

Definition encode_packets (ms : list (SocketAddr * bytes)) : bytes :=
  concat ((fun '(a, b) => encode_packet a b) <$> ms).

(** The first packets of a stream of bytes, and the rest. *)
Definition packet_head (l : bytes) : option (NetLocation * bytes * bytes) :=
  match parse_packet UOT_ADDR_CODEC l with
  | Ok (Some (loc, s, n)) => Some (loc, slice s (s + n) l, drop (s + n) l)
  | _ => None
  end.

Fixpoint read_packets (k : nat) (l : bytes) : option (list (NetLocation * bytes) * bytes) :=
  match k with
  | O => Some ([], l)
  | S k' => '(ms, l') ← read_packets k' l; '(loc, b, l'') ← packet_head l'; Some (ms ++ [(loc, b)], l'')
  end.

(** Every read has room for the largest payload. *)
Definition op_ok (op : packet_op) : Prop :=
  match op with PRead n => (Z.to_nat 65535 ≤ n)%nat | _ => True end.

Definition packet_trace_inv (p0 p : P) (l : packet_log) : Prop :=
  packet_inv p ∧ poll_crashed l = false ∧
  packet_out p = packet_out p0 ++ encode_packets (sent_packets l) ∧
  (read_failed l = false →
   read_packets (length (got_packets l)) (packet_ahead p0) = Some (got_packets l, packet_ahead p)).

Lemma parse_packet_len l loc s n :
  parse_packet UOT_ADDR_CODEC l = Ok (Some (loc, s, n)) → (n ≤ Z.to_nat 65535)%nat.
Proof.
  unfold parse_packet. intros Hp. apply bind_ok_inv in Hp as ([[loc' k]|] & _ & Hp); [|done].
  destruct (length l <? k + 2)%nat eqn:Hk; [done|]. apply Nat.ltb_ge in Hk. cbv zeta in Hp.
  pose proof (be_decode_range (slice k (k + 2) l)) as Hr.
  rewrite length_slice in Hr by lia. replace (k + 2 - k)%nat with 2%nat in Hr by lia.
  destruct (_ <? _)%nat; [done|]. injection Hp as _ _ Hn. lia.
Qed.

Lemma packet_read_inv p0 n p l p' l' :
  packet_poll (PRead n) p l = (p', l') → op_ok (PRead n) → packet_trace_inv p0 p l →
  packet_trace_inv p0 p' l'.
Proof.
  intros Hr Hok (Hi & Hc & Ho & Ha). cbn [packet_poll] in Hr. cbn [op_ok] in Hok.
  destruct (ps_eof p) eqn:He.
  { unfold poll_read_targeted_message in Hr. rewrite He in Hr. simplify_eq. rewrite He.
    split_and!; cbn; by rewrite ?orb_false_r. }
  destruct (poll_read_targeted_message n p) as [x p1] eqn:E.
  destruct (packet_poll_read_spec _ _ _ _ E Hi He) as [[Hi' Ho'] Hx].
  injection Hr as <- <-. unfold packet_trace_inv. cbn [got_packets sent_packets read_failed poll_crashed].
  rewrite Hc, Ho'. destruct x as [[[loc b]|e|w|]|]; try done; cbn [crashes orb]; rewrite ?orb_false_r.
  - split_and!; try done. intros Hf. specialize (Ha Hf).
    destruct Hx as [(Heq & s & Hp & Hb & Hd)|(_ & _ & Heq & Hd & _)]; rewrite Heq.
    + rewrite He, length_app. cbn [length]. rewrite Nat.add_1_r. cbn [read_packets]. rewrite Ha.
      cbn [mbind option_bind]. unfold packet_head. rewrite Hp. cbn [mbind option_bind].
      by rewrite <-Hb, Hd.
    + by rewrite Hd.
  - split_and!; try done. by rewrite orb_true_r.
  - destruct Hx as (loc & s & k & Hp & Hlt). apply parse_packet_len in Hp. lia.
  - destruct Hx as [-> _]. by split_and!.
Qed.

Lemma packet_poll_inv p0 op p l p' l' :
  packet_poll op p l = (p', l') → op_ok op → packet_trace_inv p0 p l → packet_trace_inv p0 p' l'.
Proof.
  intros Hr Hok Hinv. destruct op as [n|buf source|]; [by eapply packet_read_inv|..];
    destruct Hinv as (Hi & Hc & Ho & Ha); cbn [packet_poll] in Hr; unfold packet_trace_inv.
  - destruct (poll_write_sourced_message buf source p) as [x p1] eqn:E.
    destruct (packet_write_spec _ _ _ _ _ E Hi) as ((Hi' & Hah & _) & Hx & Ho1). injection Hr as <- <-.
    cbn [got_packets sent_packets read_failed poll_crashed].
    rewrite Hah, Hc, (returns_crashes _ Hx), Ho1, Ho. split_and!; try done.
    unfold encode_packets. destruct (ready_ok x); [|by rewrite app_nil_r].
    rewrite fmap_app, concat_app. cbn. by rewrite app_nil_r, <-app_assoc.
  - destruct (packet_poll_flush p) as [x p1] eqn:E.
    destruct (packet_poll_flush_spec _ _ _ E Hi) as ((Hi' & Hah & _) & Ho1 & Hx). injection Hr as <- <-.
    cbn [got_packets sent_packets read_failed poll_crashed].
    by rewrite Hah, Hc, (returns_crashes _ Hx), Ho1.
Qed.

Lemma packet_polls_inv ops p0 p l p' l' :
  packet_polls ops p l = (p', l') → Forall op_ok ops → packet_trace_inv p0 p l →
  packet_trace_inv p0 p' l'.
Proof.
  revert p l. induction ops as [|op ops IH]; intros p l Hr Hok Hi; cbn in Hr; [by simplify_eq|].
  inversion Hok; subst. destruct (packet_poll op p l) as [p1 l1] eqn:E. eauto using packet_poll_inv.
Qed.

Lemma new_uot_inv mem (s : T) : packet_inv (new_uot mem s).
Proof. split_and!; cbn; rewrite ?length_allocate_vec; done || (unfold slide_inv; cbn; lia) || lia. Qed.
End Laws.


(** A packet off the front of its encoding. *)
Lemma packet_head_encode source payload rest :
  socket_addr_wf source → (length payload ≤ Z.to_nat 65535)%nat →
  packet_head (encode_packet source payload ++ rest) = Some (socket_location source, payload, rest).
Proof.
  intros Hw Hl. unfold packet_head. rewrite parse_packet_encode by done.
  unfold encode_packet. rewrite <-!app_assoc, (app_assoc (uot_address source)).
  set (h := uot_address source ++ be_encode 2 (Z.of_nat (length payload))).
  assert (length h = length (uot_address source) + 2)%nat as Hh
    by (unfold h; by rewrite length_app, length_be_encode).
  rewrite <-Hh, slice_app_r by lia. do 2 f_equal.
  - f_equal. replace (length h - length h)%nat with 0%nat by lia.
    replace (length h + length payload - length h)%nat with (length payload) by lia.
    rewrite slice_app_l by lia. apply slice_all.
  - rewrite <-drop_drop, drop_app_length. apply drop_app_length.
Qed.

Lemma read_packets_S k l :
  read_packets (S k) l =
  ('(loc, b, l') ← packet_head l; '(ms, l'') ← read_packets k l'; Some ((loc, b) :: ms, l'')).
Proof.
  revert l. induction k as [|k IH]; intros l; [by cbn; destruct (packet_head l) as [[[]]|]|].
  change (read_packets (S (S k)) l) with
    ('(ms, l') ← read_packets (S k) l; '(loc, b, l'') ← packet_head l'; Some (ms ++ [(loc, b)], l'')).
  rewrite IH. destruct (packet_head l) as [[[loc b] l1]|]; [|done]. cbn [mbind option_bind read_packets].
  destruct (read_packets k l1) as [[ms l2]|]; [|done]. cbn [mbind option_bind].
  by destruct (packet_head l2) as [[[loc2 b2] l3]|].
Qed.

(** ** Properties *)

(** C34: any sequence of polls on a packet stream: the bytes written and queued are the
    encodings of the packets accepted, in order; the packets read, with their
    targets, are the ones the bytes the peer sent parse to, in order, with the
    rest still ahead, as long as no read has failed; and no poll panics or
    spins, as long as reads have room for the largest payload. *)
Theorem packets_in_order {T : Type} `{AsyncReadLaws T} `{AsyncWriteLaws T} `{!AsyncPing T}
    `{!AsyncStreamLaws T} `{!WriteProgress T} (mem : nat → byte) (s : T) (ops : list packet_op)
    (p : PacketAddrStream T) (l : packet_log) :
  Forall op_ok ops →
  packet_polls ops (new_uot mem s) (MkPLog [] [] false false) = (p, l) →
  poll_crashed l = false ∧
  written (ps_stream p) ++ slice (write_buf_sent p) (write_buf_len p) (write_buf p) =
    written s ++ encode_packets (sent_packets l) ∧
  (read_failed l = false →
   read_packets (length (got_packets l)) (incoming s) = Some (got_packets l, packet_ahead p)).
Proof.
  intros Hok Hr.
  destruct (packet_polls_inv _ (new_uot mem s) _ _ _ _ Hr Hok) as (_ & Hc & Ho & Ha).
  - split_and!; [apply new_uot_inv|done| |done]. unfold encode_packets. cbn. by rewrite app_nil_r.
  - unfold packet_out, packet_ahead in Ho, Ha.
    cbn [new_uot new_with_codec ps_stream ps_read_buf write_buf_sent write_buf_len write_buf] in Ho, Ha.
    rewrite slice_nil, app_nil_r in Ho. unfold as_slice at 1 in Ha. cbn [slide_new sb_start sb_end] in Ha.
    rewrite slice_nil in Ha. done.
Qed.

Definition demo_source : SocketAddr := SocketV4 (Ipv4 (10 * 2 ^ 24 + 1)) 53.
Definition demo_packet : bytes := encode_packet demo_source [x0a; x0b].

Definition demo_packets : PacketAddrStream (QuicStream Sink Script) * packet_log :=
  packet_polls [PRead (Z.to_nat 65535); PWrite [x07] demo_source; PRead (Z.to_nat 65535); PFlush]
    (new_uot (fun _ => x00)
      (MkQuic (MkSink [] [WAccept 0])
              (MkScript [EData (nth 0 demo_packet x00) (take 3 (drop 1 demo_packet)); EPending;
                         EData (nth 4 demo_packet x00) (drop 5 demo_packet)])))
    (MkPLog [] [] false false).

Lemma packets_in_order_witness :
  written (ps_stream demo_packets.1) ++
    slice (write_buf_sent demo_packets.1) (write_buf_len demo_packets.1) (write_buf demo_packets.1) =
    encode_packets [(demo_source, [x07])] ∧
  got_packets demo_packets.2 = [(socket_location demo_source, [x0a; x0b])].
Proof.
  destruct (packets_in_order (fun _ => x00) _
    [PRead (Z.to_nat 65535); PWrite [x07] demo_source; PRead (Z.to_nat 65535); PFlush]
    demo_packets.1 demo_packets.2 ltac:(repeat constructor) (surjective_pairing _)) as (_ & Ho & _).
  split; [rewrite Ho|]; vm_compute; reflexivity.
Defined.

(** Packets encoded one after the other, whatever follows them, are read back in
    order with their addresses, IPv4 and IPv6, and their payloads. *)
Theorem packets_roundtrip (ms : list (SocketAddr * bytes)) (rest : bytes) :
  Forall (fun '(a, b) => socket_addr_wf a ∧ (length b ≤ Z.to_nat 65535)%nat) ms →
  read_packets (length ms) (encode_packets ms ++ rest) =
    Some ((fun '(a, b) => (socket_location a, b)) <$> ms, rest).
Proof.
  revert rest. induction ms as [|[a b] ms IH]; intros rest Hok; [done|].
  apply Forall_cons in Hok as [[Ha Hb] Hms]. cbn [length]. rewrite read_packets_S.
  unfold encode_packets. cbn [fmap list_fmap concat]. fold (encode_packets ms).
  rewrite <-app_assoc, packet_head_encode by done. cbn [mbind option_bind].
  change (concat _ ++ rest) with (encode_packets ms ++ rest). by rewrite IH.
Qed.

Lemma packets_roundtrip_witness :
  read_packets 2 (encode_packets [(demo_source, [x01]); (SocketV6 (Ipv6 1) 443, [])] ++ [xff]) =
    Some ([(socket_location demo_source, [x01]); (NetLoc (Addr_Ipv6 (Ipv6 1)) 443, [])], [xff]).
Proof.
  apply (packets_roundtrip [(demo_source, [x01]); (SocketV6 (Ipv6 1) 443, [])]).
  apply Forall_cons_2; [|apply Forall_cons_2; [|apply Forall_nil_2]];
    (split; [split; unfold ipv4_wf, ipv6_wf; cbn; lia|cbn; lia]).
Defined.

(** ** A packet that would fit *)

(** The buffer cannot take more, though moving its window would make room. *)
Lemma packet_read_full `{AsyncRead T} `{AsyncWrite T} fuel remaining (p : PacketAddrStream T) :
  try_parse_packet p = Ok None → (sb_start (ps_read_buf p) ≤ COMPACT_THRESHOLD)%nat →
  remaining_capacity (ps_read_buf p) = 0%nat →
  packet_read_loop fuel remaining p =
    (Ready (Err (io_err Other "packet-address read buffer full but no complete packet")),
     set_read p (ps_stream p) (ps_read_buf p) (ps_eof p)).
Proof.
  intros Hp Hs Hr. assert (maybe_compact COMPACT_THRESHOLD (ps_read_buf p) = ps_read_buf p) as Hc.
  { unfold maybe_compact. by rewrite (proj2 (Nat.ltb_ge _ _)) by done. }
  destruct fuel; cbn [packet_read_loop]; rewrite Hp, Hc; cbv zeta; by rewrite Hr.
Qed.

(** A cut packet is not parsed. *)
Lemma parse_packet_cut l r loc s n :
  parse_packet UOT_ADDR_CODEC (l ++ r) = Ok (Some (loc, s, n)) → (length l < s + n)%nat →
  parse_packet UOT_ADDR_CODEC l = Ok None.
Proof.
  intros Hp Hlt. destruct (decide (parse_packet UOT_ADDR_CODEC l = Ok None)) as [|Hne]; [done|].
  pose proof (parse_packet_stable l r _ eq_refl Hne) as Hst. rewrite Hp in Hst. symmetry in Hst.
  apply parse_packet_bound in Hst. lia.
Qed.

(** A read fails on a packet that would fit: when the window starts at byte 4096
    or before it and has reached the end of the buffer, the bytes before it are
    not reclaimed, and a next packet that is not complete yet is reported as too
    large although it is smaller than the buffer. *)
Theorem full_buffer_refuses_fitting_packet {T : Type} `{AsyncReadLaws T} `{AsyncWriteLaws T}
    (p : PacketAddrStream T) (source : SocketAddr) (payload rest : bytes) (remaining : nat) :
  ps_codec p = UOT_ADDR_CODEC → ps_eof p = false → slide_inv (ps_read_buf p) →
  (sb_start (ps_read_buf p) ≤ COMPACT_THRESHOLD)%nat →
  sb_end (ps_read_buf p) = length (sb_data (ps_read_buf p)) →
  socket_addr_wf source → (length (encode_packet source payload) ≤ BUFFER_SIZE)%nat →
  as_slice (ps_read_buf p) ++ incoming (ps_stream p) = encode_packet source payload ++ rest →
  (slide_len (ps_read_buf p) < length (encode_packet source payload))%nat →
  (poll_read_targeted_message remaining p).1 =
    Ready (Err (io_err Other "packet-address read buffer full but no complete packet")).
Proof.
  intros Hc He Hs Hst Hend Hw Hfit Hahead Hlt.
  assert (length (encode_packet source payload) =
    length (uot_address source) + 2 + length payload)%nat as Hlen
    by (unfold encode_packet; rewrite !length_app, length_be_encode; lia).
  unfold poll_read_targeted_message. rewrite He, packet_read_full; [done| |done|].
  - unfold try_parse_packet. rewrite Hc. eapply (parse_packet_cut _ (incoming (ps_stream p))).
    + rewrite Hahead. apply parse_packet_encode; [done|]. unfold BUFFER_SIZE in *. lia.
    + rewrite length_as_slice by done. lia.
  - unfold remaining_capacity. lia.
Qed.

Definition big_payload : bytes := replicate (Z.to_nat 65520) x00.
Definition big_packet : bytes := encode_packet demo_source big_payload.

(** A packet of nine bytes has been taken off a buffer that was filled to its end. *)
Definition demo_full : PacketAddrStream (QuicStream Sink Script) :=
  MkPacket (MkQuic (MkSink [] []) (MkScript (script_rest (drop (Z.to_nat 65526) big_packet) [])))
    UOT_ADDR_CODEC
    (MkSlide (replicate 9 x00 ++ take (Z.to_nat 65526) big_packet) 9 BUFFER_SIZE) [] 0 0 false.

Lemma length_big_packet : length big_packet = Z.to_nat 65529.
Proof.
  unfold big_packet, encode_packet, big_payload.
  rewrite !length_app, length_be_encode, length_replicate, length_uot_address. cbn [demo_source]. lia.
Qed.

Lemma full_buffer_refuses_fitting_packet_witness :
  (poll_read_targeted_message 0 demo_full).1 =
    Ready (Err (io_err Other "packet-address read buffer full but no complete packet")).
Proof.
  pose proof length_big_packet as Hl.
  assert (length (sb_data (ps_read_buf demo_full)) = BUFFER_SIZE) as Hd.
  { unfold demo_full. cbn [ps_read_buf sb_data]. rewrite length_app, length_replicate, length_take, Hl.
    unfold BUFFER_SIZE. lia. }
  apply (full_buffer_refuses_fitting_packet demo_full demo_source big_payload []).
  - reflexivity.
  - reflexivity.
  - unfold slide_inv. rewrite Hd. unfold demo_full, BUFFER_SIZE. cbn [ps_read_buf sb_start sb_end]. lia.
  - unfold demo_full, COMPACT_THRESHOLD. cbn [ps_read_buf sb_start]. lia.
  - by rewrite Hd.
  - split; [unfold ipv4_wf; cbn; lia|lia].
  - fold big_packet. rewrite Hl. unfold BUFFER_SIZE. lia.
  - fold big_packet. unfold demo_full, as_slice, slice, BUFFER_SIZE.
    cbn [ps_read_buf ps_stream sb_start sb_end sb_data]. rewrite drop_app_length' by done.
    rewrite take_ge by (rewrite length_take; lia). cbn [incoming QuicStream_read_laws qs_recv Script_laws events].
    rewrite script_rest_bytes, !app_nil_r. apply take_drop.
  - fold big_packet. rewrite Hl. unfold slide_len, demo_full, BUFFER_SIZE. cbn [ps_read_buf sb_start sb_end]. lia.
Defined.
