(* ===== verification/WellTyped.v ===== *)
(** * Values stay in the range of their Rust types

    Integers are [Z] and strings bytes in this development; the Rust types bound them.
    Every location read from the network, by any of the parsers, is one that Rust's
    types can hold: the bits of an address, the [u16] of a port, the UTF-8 of a
    hostname. *)

From Stdlib Require Import String.
From S2P Require Import Prelude RustStd Address AsyncStream AnyTlsLocation StreamReader Varint Hysteria2Tcp.
From S2P Require Import LruCache Hysteria2Udp PacketStream.

(** ** Text *)

Lemma cont_not_ascii c : b2z c < 128 → is_cont c = false.
Proof. intros Hc. unfold is_cont, between. rewrite (proj2 (Z.leb_gt _ _)) by lia. done. Qed.

Lemma second3_not_ascii b c : b2z c < 128 → second3 b c = false.
Proof.
  intros Hc. unfold second3, between. repeat case_match_eqn; rewrite (proj2 (Z.leb_gt _ _)) by lia; done.
Qed.

Lemma second4_not_ascii b c : b2z c < 128 → second4 b c = false.
Proof.
  intros Hc. unfold second4, between. repeat case_match_eqn; rewrite (proj2 (Z.leb_gt _ _)) by lia; done.
Qed.

(** Text cut before an ASCII byte is text. *)
Lemma utf8_valid_prefix a c b : b2z c < 128 → utf8_valid (a ++ c :: b) = true → utf8_valid a = true.
Proof.
  intros Hc. assert (∀ n a, (length a ≤ n)%nat → utf8_valid (a ++ c :: b) = true → utf8_valid a = true) as Hn.
  2: { by apply (Hn (length a)). }
  clear a. intros n. induction n as [|n IH]; intros [|b0 a] Hle Hv; cbn [app length utf8_valid] in *; try done; [lia|].
  destruct (char_width b0); [apply IH; [lia|done]|..|done].
  - destruct a as [|b1 a]; cbn [app] in Hv; [by rewrite cont_not_ascii in Hv|]. cbn [length] in Hle.
    apply andb_true_iff in Hv as [-> Hv]. apply IH; [lia|done].
  - destruct a as [|b1 [|b2 a]]; cbn [app] in Hv.
    + destruct b; [done|]. by rewrite second3_not_ascii in Hv.
    + by rewrite (cont_not_ascii c), andb_false_r in Hv.
    + cbn [length] in Hle. apply andb_true_iff in Hv as [-> Hv]. apply IH; [lia|done].
  - destruct a as [|b1 [|b2 [|b3 a]]]; cbn [app] in Hv.
    + destruct b as [|? [|? ?]]; [done..|]. by rewrite second4_not_ascii in Hv.
    + destruct b; [done|]. by rewrite (cont_not_ascii c), andb_false_r in Hv.
    + by rewrite (cont_not_ascii c), andb_false_r in Hv.
    + cbn [length] in Hle. apply andb_true_iff in Hv as [-> Hv]. apply IH; [lia|done].
Qed.

(** ** Addresses *)

Lemma be_decode_lt n (l : bytes) : (length l ≤ n)%nat → 0 ≤ be_decode l < 256 ^ Z.of_nat n.
Proof.
  intros Hl. pose proof (be_decode_range l). pose proof (Z.pow_le_mono_r 256 (Z.of_nat (length l)) (Z.of_nat n)). lia.
Qed.

Lemma length_slice_le {A} a b (l : list A) : (length (slice a b l) ≤ b - a)%nat.
Proof. unfold slice. rewrite length_take. lia. Qed.

Lemma read_octets_length n first s os r : read_octets n first s = Some (os, r) → length os = n.
Proof.
  revert first s os r. induction n as [|n IH]; intros first s os r Hr; cbn [read_octets] in Hr; [by simplify_eq|].
  apply bind_Some in Hr as ([v s1] & _ & Hr). apply bind_Some in Hr as ([os' s2] & Hr & ?). simplify_eq. cbn. f_equal. eauto.
Qed.

Lemma read_ipv4_wf s a r : read_ipv4_addr s = Some (a, r) → ipv4_wf a.
Proof.
  unfold read_ipv4_addr. intros Hr. apply bind_Some in Hr as ([os r'] & Hr & ?). simplify_eq.
  apply read_octets_length in Hr. unfold ipv4_wf, ipv4_of_octets. cbn [v4_bits].
  pose proof (be_decode_lt 4 os ltac:(lia)). lia.
Qed.

Lemma read_separator_inv {A} sep first (p : bytes → option (A * bytes)) s x :
  read_separator sep first p s = Some x → ∃ s', p s' = Some x.
Proof. unfold read_separator. destruct first; [by eauto|]. intros Hr. apply bind_Some in Hr as (s' & _ & Hr). eauto. Qed.

Lemma digits_nonneg radix s ds r : read_digits radix s = (ds, r) → Forall (fun d => 0 ≤ d) ds.
Proof.
  revert ds r. induction s as [|b s IH]; intros ds r Hr; cbn [read_digits] in Hr; [by simplify_eq|].
  destruct (to_digit radix b) as [d|] eqn:Ed; [|by simplify_eq]. destruct (read_digits radix s) as [ds' r'].
  injection Hr as <- <-. constructor; [|by eapply IH]. revert Ed. unfold to_digit. cbv zeta.
  unfold is_ascii_digit, between. destruct (_ <? radix) eqn:El in |- *; [|done]. intros [= <-].
  pose proof (b2z_range b). repeat case_match_eqn; zbool; lia.
Qed.

Lemma digits_value_nonneg radix ds : 0 ≤ radix → Forall (fun d => 0 ≤ d) ds → 0 ≤ digits_value radix ds.
Proof.
  intros Hr Hd. unfold digits_value.
  assert (∀ acc, 0 ≤ acc → 0 ≤ foldl (fun acc d => acc * radix + d) acc ds) as Hn; [|by apply Hn].
  induction Hd as [|d ds Hd _ IH]; intros acc Hacc; cbn [foldl]; [done|]. apply IH. nia.
Qed.

Lemma read_number_range radix md az lim s v r : 0 ≤ radix → read_number radix md az lim s = Some (v, r) → 0 ≤ v ≤ lim.
Proof.
  intros Hr. unfold read_number. destruct (read_digits radix s) as [ds r'] eqn:Ed. apply digits_nonneg in Ed.
  destruct (_ <? _)%nat; [done|]. destruct ds as [|d ds]; [done|]. destruct (_ && _); [done|]. cbv zeta.
  destruct (_ <=? lim) eqn:El; [|done]. intros [= <- <-]. zbool. split; [by apply digits_value_nonneg|done].
Qed.

Abbreviation segment := (fun g => 0 ≤ g < 65536).

Lemma read_groups_range k first s gs f r : read_groups k first s = (gs, f, r) → Forall segment gs ∧ (length gs ≤ k)%nat.
Proof.
  revert first s gs f r. induction k as [|k IH]; intros first s gs f r Hr; cbn [read_groups] in Hr.
  { simplify_eq. split; [constructor|done]. }
  cbv zeta in Hr. destruct (if (1 <=? k)%nat then _ else _) as [[a s1]|] eqn:E4.
  - injection Hr as <- <- <-. destruct (1 <=? k)%nat eqn:Ek; [|done]. zbool.
    apply read_separator_inv in E4 as [s' Hv]. apply read_ipv4_wf in Hv. unfold ipv4_wf in Hv.
    split; [|cbn; lia]. repeat constructor; try (apply Z.shiftr_nonneg; lia); try (apply Z.land_nonneg; lia).
    + rewrite Z.shiftr_div_pow2 by lia. apply Z.div_lt_upper_bound; lia.
    + change 65535 with (Z.ones 16). rewrite Z.land_ones by lia. apply Z.mod_pos_bound. lia.
  - destruct (read_separator COLON first (read_number 16 4 true 65535) s) as [[g s1]|] eqn:Eg.
    + apply read_separator_inv in Eg as [s' Hg]. apply read_number_range in Hg; [|lia].
      destruct (read_groups k false s1) as [[gs' f'] s2] eqn:Er. injection Hr as <- <- <-.
      apply IH in Er as [Hgs Hl]. split; [constructor; [lia|done]|cbn; lia].
    + injection Hr as <- <- <-. split; [constructor|cbn; lia].
Qed.

Lemma segments_range gs : Forall segment gs → 0 ≤ v6_bits (ipv6_of_segments gs) < 65536 ^ Z.of_nat (length gs).
Proof.
  intros Hg. unfold ipv6_of_segments. cbn [v6_bits].
  assert (∀ acc n, 0 ≤ acc < 65536 ^ Z.of_nat n →
    0 ≤ foldl (fun acc g => acc * 65536 + g) acc gs < 65536 ^ Z.of_nat (n + length gs)) as Hn.
  2: { apply (Hn 0 0%nat). cbn. lia. }
  induction Hg as [|g gs Hg _ IH]; intros acc n Hacc; cbn [foldl length]; [by rewrite Nat.add_0_r|].
  replace (n + S (length gs))%nat with (S n + length gs)%nat by lia. apply IH.
  rewrite Nat2Z.inj_succ, Z.pow_succ_r by lia. lia.
Qed.

Lemma read_ipv6_wf s a r : read_ipv6_addr s = Some (a, r) → ipv6_wf a.
Proof.
  assert (∀ gs, Forall segment gs → length gs = 8%nat → ipv6_wf (ipv6_of_segments gs)) as H8.
  { intros gs Hg Hl. pose proof (segments_range gs Hg) as Hr. rewrite Hl in Hr. unfold ipv6_wf.
    change (65536 ^ Z.of_nat 8) with (2 ^ 128) in Hr. lia. }
  unfold read_ipv6_addr. destruct (read_groups 8 true s) as [[head h4] s1] eqn:E1.
  apply read_groups_range in E1 as [Hh Hhl]. destruct (length head =? 8)%nat eqn:El; zbool.
  { intros [= <- <-]. by apply H8. }
  destruct h4; [done|]. intros Hr. apply bind_Some in Hr as (s2 & _ & Hr). apply bind_Some in Hr as (s3 & _ & Hr).
  destruct (read_groups _ true s3) as [[tail t4] s4] eqn:E2. apply read_groups_range in E2 as [Ht Htl].
  injection Hr as <- <-. apply H8.
  - rewrite !Forall_app. split_and!; [done| |done]. apply Forall_replicate. lia.
  - rewrite !length_app, length_replicate. lia.
Qed.

(** The address an [Address] can hold. *)
Definition address_typed (a : Address) : Prop :=
  match a with
  | Addr_Ipv4 i => ipv4_wf i
  | Addr_Ipv6 i => ipv6_wf i
  | Addr_Hostname h => utf8_valid h = true
  end.
Definition port_typed (p : Z) : Prop := 0 ≤ p < 65536.
Definition location_typed (l : NetLocation) : Prop := address_typed (nl_address l) ∧ port_typed (nl_port l).

Lemma whole_inv {A} (p : bytes → option (A * bytes)) s a : whole p s = Some a → ∃ r, p s = Some (a, r).
Proof. unfold whole. intros Hr. apply bind_Some in Hr as ([a' r] & Hr & Hd). case_decide; simplify_eq. eauto. Qed.

Lemma address_from_typed s a : utf8_valid s = true → address_from s = Ok a → address_typed a.
Proof.
  intros Hu. rewrite address_from_eq. unfold address_spec. destruct (parse_ipv4 s) as [i|] eqn:E4.
  { intros [= <-]. unfold parse_ipv4 in E4. destruct (_ <? _)%nat; [done|].
    apply whole_inv in E4 as [r Hr]. by eapply read_ipv4_wf. }
  destruct (parse_ipv6 s) as [i|] eqn:E6.
  { intros [= <-]. apply whole_inv in E6 as [r Hr]. by eapply read_ipv6_wf. }
  by destruct (colon_first _ _); intros ?; simplify_eq.
Qed.

Lemma netloc_from_str_typed s dp l :
  utf8_valid s = true → (∀ p, dp = Some p → port_typed p) → netloc_from_str s dp = Ok l → location_typed l.
Proof.
  intros Hu Hdp Hr. unfold netloc_from_str in Hr.
  assert (∃ t port b, utf8_valid t = true ∧ (∀ p, port = Some p → port_typed p) ∧
    (address ← address_from t; if b && negb (is_ipv6 address) then Err (io_err Other "Invalid location")
     else port ← ok_or port (io_err Other "No port"); Ok (NetLoc address port)) = Ok l) as (t & port & b & Ht & Hp & Hr').
  { destruct (rsplit_once COLON s) as [[k v]|] eqn:Es; [|by eauto 10].
    apply rsplit_once_spec in Es as [-> _]. destruct (parse_u16 v) as [p|] eqn:Ep; [|by eauto 10].
    exists k, (Some p), false. split_and!; [|intros ? [= <-]|done].
    - eapply utf8_valid_prefix; [|exact Hu]. done.
    - apply parse_unsigned_range in Ep; [|lia]. unfold port_typed. lia. }
  apply bind_ok_inv in Hr' as (a & Ha & Hr'). destruct (b && _); [done|].
  apply bind_ok_inv in Hr' as (p & Hport & Hr'). injection Hr' as <-. split; cbn [nl_address nl_port].
  - by eapply address_from_typed.
  - destruct port; [|done]. injection Hport as <-. by apply Hp.
Qed.

(** ** The parsers *)

(** A message of the [u32], [u16] and two [u8]s of its datagram. *)
Record message_typed (m : udp_message) : Prop := {
  mt_session : 0 ≤ session_id m < 2 ^ 32;
  mt_packet : 0 ≤ packet_id m < 2 ^ 16;
  mt_fragment : 0 ≤ fragment_id m < 256;
  mt_count : 0 ≤ um_count m < 256;
  mt_location : location_typed (um_location m) }.

Lemma no_default_port p : (None : option Z) = Some p → port_typed p.
Proof. done. Qed.

Lemma parse_datagram_typed d m : parse_datagram d = Ok (Some m) → message_typed m.
Proof.
  unfold parse_datagram. destruct (_ <? 9)%nat; [done|]. cbv zeta. intros Hr.
  apply bind_ok_inv in Hr as ([n k] & _ & Hr). destruct (n =? 0); [done|]. destruct (2048 <? n); [done|].
  destruct (_ <? _)%nat; [done|]. destruct (utf8_valid _) eqn:Hu; [|done]. cbn [negb] in Hr.
  destruct (netloc_from_str _ None) as [l|e|w|] eqn:El; try done. injection Hr as <-.
  apply netloc_from_str_typed in El; [|done|apply no_default_port].
  pose proof (be_decode_lt 4 _ (length_slice_le 0 4 d)). pose proof (be_decode_lt 2 _ (length_slice_le 4 6 d)).
  split; cbn [session_id packet_id fragment_id um_count um_location]; try apply b2z_range; try done; lia.
Qed.

Lemma port_slice_typed a (d : bytes) : port_typed (be_decode (slice a (a + 2) d)).
Proof.
  unfold port_typed. pose proof (length_slice_le a (a + 2) d).
  pose proof (be_decode_lt 2 (slice a (a + 2) d) ltac:(lia)). lia.
Qed.

Lemma parse_uot_address_typed d l n :
  parse_uot_address d = Ok (Some (l, n)) → location_typed l ∧ (0 < n ≤ length d)%nat.
Proof.
  unfold parse_uot_address. destruct d as [|b d']; [done|]. set (d := b :: d').
  destruct (_ =? UOT_ATYP_IPV4); [|destruct (_ =? UOT_ATYP_IPV6); [|destruct (_ =? UOT_ATYP_DOMAIN); [|done]]];
    destruct (_ <? _)%nat eqn:El; try done; zbool; cbv zeta.
  - intros [= <- <-]. split; [|lia]. split; [|apply (port_slice_typed 5)]. cbn [nl_address address_typed].
    pose proof (be_decode_lt 4 _ (length_slice_le 1 5 d)). unfold ipv4_wf. cbn [v4_bits]. lia.
  - intros [= <- <-]. split; [|lia]. split; [|apply (port_slice_typed 17)]. cbn [nl_address address_typed].
    pose proof (be_decode_lt 16 _ (length_slice_le 1 17 d)). unfold ipv6_wf. cbn [v6_bits]. lia.
  - destruct (length d <? _)%nat eqn:El2; [done|]. zbool. destruct (utf8_valid _) eqn:Hu; [|done]. cbn [negb].
    change (nth 1 d x00) with (nth 0 d' x00) in *. intros [= <- <-]. split; [|lia]. split; [done|].
    cbn [nl_port]. replace (S (S (S (S (Z.to_nat (b2z (nth 0 d' x00)))))))
      with (2 + Z.to_nat (b2z (nth 0 d' x00)) + 2)%nat by lia. apply port_slice_typed.
Qed.

Lemma read_location_typed {T} `{AsyncRead T} (s s' : T) l : read_location_direct s = (Ok l, s') → location_typed l.
Proof.
  unfold read_location_direct. intros Hr. apply M_bind_ok_inv in Hr as (t & s1 & _ & Hr). cbv zeta in Hr.
  destruct (_ =? ADDR_TYPE_IPV4).
  { apply M_bind_ok_inv in Hr as (buf & s2 & _ & Hr). run_in Hr. injection Hr as <- <-.
    split; [|apply (port_slice_typed 4)]. cbn [ipv4_location nl_address address_typed]. unfold ipv4_wf. cbn [v4_bits].
    pose proof (be_decode_lt 4 (take 4 buf) ltac:(rewrite length_take; lia)). lia. }
  destruct (_ =? ADDR_TYPE_IPV6).
  { apply M_bind_ok_inv in Hr as (buf & s2 & _ & Hr). run_in Hr. injection Hr as <- <-.
    split; [|apply (port_slice_typed 16)]. cbn [ipv6_location nl_address address_typed]. unfold ipv6_wf. cbn [v6_bits].
    pose proof (be_decode_lt 16 (take 16 buf) ltac:(rewrite length_take; lia)). lia. }
  destruct (_ =? ADDR_TYPE_DOMAIN_NAME); [|done].
  apply M_bind_ok_inv in Hr as (len & s2 & _ & Hr). cbv zeta in Hr. apply M_bind_ok_inv in Hr as (buf & s3 & _ & Hr).
  unfold lift in Hr. injection Hr as Hr _. unfold domain_location in Hr. cbv zeta in Hr.
  destruct (utf8_valid _) eqn:Hu; [|done]. cbn [negb] in Hr. apply bind_ok_inv in Hr as (a & Ha & Hr). injection Hr as <-.
  split; [by eapply address_from_typed|apply port_slice_typed].
Qed.

Lemma tcp_request_typed {T} `{AsyncRead T} (st st' : StreamReader * T) l : tcp_request st = (Ok l, st') → location_typed l.
Proof.
  unfold tcp_request. intros Hr. apply M_bind_ok_inv in Hr as (id & s1 & _ & Hr). destruct (negb _); [done|].
  apply M_bind_ok_inv in Hr as (n & s2 & _ & Hr). destruct (_ <? n); [done|].
  apply M_bind_ok_inv in Hr as (a & s3 & _ & Hr). destruct (utf8_valid a) eqn:Hu; [|done]. cbn [negb] in Hr.
  apply M_bind_ok_inv in Hr as (loc & s4 & Hl & Hr). unfold lift in Hl. injection Hl as Hl _.
  apply M_bind_ok_inv in Hr as (p & s5 & _ & Hr). destruct (_ <? p); [done|].
  apply M_bind_ok_inv in Hr as (x & s6 & _ & Hr). run_in Hr. injection Hr as <- <-.
  by eapply netloc_from_str_typed; [|apply no_default_port|].
Qed.

(** ** Property *)

