(* ===== verification/Sockets.v ===== *)
(** * Sockets as streams (src/async_stream.rs)

    The trait implementations for tokio's sockets and for TLS streams, over the
    socket's own reading and writing, and the messages interface: what a
    message stream promises, with the UDP socket as its first instance. *)

From Stdlib Require Import String.
From S2P Require Import Prelude RustStd Address AsyncStream VlessStream.

(** ** Byte streams: the ping of each *)

(** [TcpStream]: pings are not supported, and asking for one is [unimplemented!()]. *)
Record TcpStream (T : Type) : Type := MkTcp { tcp_io : T }.
Arguments MkTcp {T} _.
Arguments tcp_io {T} _.

(** [tokio_rustls::server::TlsStream]: a ping that writes nothing. *)
Record TlsStream (T : Type) : Type := MkTls { tls_io : T }.
Arguments MkTls {T} _.
Arguments tls_io {T} _.

Section Lift.
Context {T U : Type} (unw : U → T) (wr : T → U).

(** An operation of the wrapped stream. *)
Definition lift_op {A} (op : T → poll A * T) (u : U) : poll A * U :=
  let '(x, t) := op (unw u) in (x, wr t).
End Lift.

Section Streams.
Context {T : Type} `{AsyncRead T} `{AsyncWrite T}.

#[export] Instance TcpStream_read : AsyncRead (TcpStream T) :=
  {| poll_read n := lift_op tcp_io MkTcp (poll_read n); waits s := waits (tcp_io s) |}.
#[export] Instance TcpStream_write : AsyncWrite (TcpStream T) :=
  {| poll_write bs := lift_op tcp_io MkTcp (poll_write bs);
     poll_flush := lift_op tcp_io MkTcp poll_flush;
     poll_shutdown := lift_op tcp_io MkTcp poll_shutdown;
     write_waits s := write_waits (tcp_io s) |}.
#[export] Instance TcpStream_ping : AsyncPing (TcpStream T) :=
  {| supports_ping _ := false; poll_write_ping s := (Ready (Panic "not implemented"), s) |}.

#[export] Instance TlsStream_read : AsyncRead (TlsStream T) :=
  {| poll_read n := lift_op tls_io MkTls (poll_read n); waits s := waits (tls_io s) |}.
#[export] Instance TlsStream_write : AsyncWrite (TlsStream T) :=
  {| poll_write bs := lift_op tls_io MkTls (poll_write bs);
     poll_flush := lift_op tls_io MkTls poll_flush;
     poll_shutdown := lift_op tls_io MkTls poll_shutdown;
     write_waits s := write_waits (tls_io s) |}.
#[export] Instance TlsStream_ping : AsyncPing (TlsStream T) :=
  {| supports_ping _ := false; poll_write_ping s := (Ready (Ok false), s) |}.
End Streams.

Lemma lift_op_inv {T U A} (unw : U → T) (wr : T → U) (op : T → poll A * T) u x u' :
  (∀ t, unw (wr t) = t) → lift_op unw wr op u = (x, u') → op (unw u) = (x, unw u').
Proof.
  unfold lift_op. intros Hg. destruct (op (unw u)) as [y t]. intros Hr. injection Hr as <- <-.
  by rewrite Hg.
Qed.

Lemma lift_op_snd {T U A} (unw : U → T) (wr : T → U) (op : T → poll A * T) u :
  (∀ t, unw (wr t) = t) → unw (lift_op unw wr op u).2 = (op (unw u)).2.
Proof. unfold lift_op. intros Hg. destruct (op (unw u)). apply Hg. Qed.

(** Both wrappers keep the promises of the stream inside. *)
Section WrapLaws.
Context {T U : Type} `{AsyncReadLaws T} `{AsyncWriteLaws T} (unw : U → T) (wr : T → U)
  (unw_wr : ∀ t, unw (wr t) = t).

Definition lift_read : AsyncRead U :=
  {| poll_read n := lift_op unw wr (poll_read n); waits s := waits (unw s) |}.
Definition lift_write : AsyncWrite U :=
  {| poll_write bs := lift_op unw wr (poll_write bs);
     poll_flush := lift_op unw wr poll_flush;
     poll_shutdown := lift_op unw wr poll_shutdown;
     write_waits s := write_waits (unw s) |}.

Lemma lift_read_laws : @AsyncReadLaws U lift_read.
Proof.
  unshelve refine {| incoming (s : U) := incoming (unw s) |}; cbn [poll_read lift_read waits].
  - intros n s bs s' Hr%lift_op_inv; [|done]. by apply poll_read_ok.
  - intros n s s' Hr%lift_op_inv; [|done]. by apply (poll_read_pending n).
  - intros n s e s' Hr%lift_op_inv; [|done]. by eapply poll_read_interrupted.
  - intros n s r s' Hr%lift_op_inv; [|done]. by eapply poll_read_returns.
Defined.

Lemma lift_write_laws : @AsyncWriteLaws U lift_write.
Proof.
  unshelve refine {| written (s : U) := written (unw s) |};
    cbn [poll_write poll_flush poll_shutdown lift_write write_waits].
  - intros bs s k s' Hr%lift_op_inv; [|done]. by eapply poll_write_ok.
  - intros bs s s' Hr%lift_op_inv; [|done]. by eapply poll_write_pending.
  - intros bs s e s' Hr%lift_op_inv; [|done]. by eapply poll_write_err.
  - intros bs s r s' Hr%lift_op_inv; [|done]. by eapply poll_write_returns.
  - intros s. rewrite lift_op_snd by done. apply poll_flush_written.
  - intros s s' Hr%lift_op_inv; [|done]. by eapply poll_flush_pending.
  - intros s r s' Hr%lift_op_inv; [|done]. by eapply poll_flush_returns.
  - intros s. rewrite lift_op_snd by done. apply poll_shutdown_written.
  - intros s s' Hr%lift_op_inv; [|done]. by eapply poll_shutdown_pending.
  - intros s r s' Hr%lift_op_inv; [|done]. by eapply poll_shutdown_returns.
Defined.
End WrapLaws.

Section SocketLaws.
Context {T : Type} `{AsyncReadLaws T} `{AsyncWriteLaws T} `{!AsyncPing T} `{!AsyncStreamLaws T}.

#[export] Instance TcpStream_read_laws : AsyncReadLaws (TcpStream T) :=
  lift_read_laws tcp_io MkTcp (fun _ => eq_refl).
#[export] Instance TcpStream_write_laws : AsyncWriteLaws (TcpStream T) :=
  lift_write_laws tcp_io MkTcp (fun _ => eq_refl).
#[export] Instance TlsStream_read_laws : AsyncReadLaws (TlsStream T) :=
  lift_read_laws tls_io MkTls (fun _ => eq_refl).
#[export] Instance TlsStream_write_laws : AsyncWriteLaws (TlsStream T) :=
  lift_write_laws tls_io MkTls (fun _ => eq_refl).

#[export] Instance TcpStream_progress `{!WriteProgress T} : WriteProgress (TcpStream T).
Proof. intros bs s k s' Hr%lift_op_inv Hb; [|done]. by eapply poll_write_progress. Qed.

#[export] Instance TcpStream_laws : AsyncStreamLaws (TcpStream T).
Proof.
  split; [split|..]; try done; intros *;
    cbn [written incoming TcpStream_read_laws TcpStream_write_laws lift_read_laws lift_write_laws
      poll_read poll_write poll_flush poll_shutdown TcpStream_read TcpStream_write];
    rewrite lift_op_snd by done.
  - split; [apply read_keeps|done].
  - apply write_keeps.
  - apply flush_keeps.
  - apply shutdown_keeps.
Qed.

#[export] Instance TlsStream_laws : AsyncStreamLaws (TlsStream T).
Proof.
  split; [split|..]; try done; intros *;
    cbn [written incoming TlsStream_read_laws TlsStream_write_laws lift_read_laws lift_write_laws
      poll_read poll_write poll_flush poll_shutdown TlsStream_read TlsStream_write];
    rewrite lift_op_snd by done.
  - split; [apply read_keeps|done].
  - apply write_keeps.
  - apply flush_keeps.
  - apply shutdown_keeps.
Qed.
End SocketLaws.

(** ** Message streams

    [msgs_got ms s s']: between [s] and [s'] exactly the messages [ms] were read;
    [msgs_put ms s s']: exactly the messages [ms] were taken for sending.  [msg_valid]
    is the invariant of the stream's own state. *)
Class MessageStream (T : Type) `{AsyncReadMessage T} `{AsyncWriteMessage T} `{AsyncFlushMessage T}
    `{AsyncShutdownMessage T} `{AsyncPing T} : Type := {
  msg_valid : T → Prop;
  msgs_got : list bytes → T → T → Prop;
  msgs_put : list bytes → T → T → Prop;
  got_refl s : msgs_got [] s s;
  got_trans ms1 ms2 s1 s2 s3 : msgs_got ms1 s1 s2 → msgs_got ms2 s2 s3 → msgs_got (ms1 ++ ms2) s1 s3;
  put_refl s : msgs_put [] s s;
  put_trans ms1 ms2 s1 s2 s3 :
    msgs_put ms1 s1 s2 → msgs_put ms2 s2 s3 → msgs_put (ms1 ++ ms2) s1 s3;
  read_message_law n (s : T) x s' : (Z.to_nat 65535 ≤ n)%nat → msg_valid s →
    poll_read_message n s = (x, s') →
    msg_valid s' ∧ msgs_put [] s s' ∧ supports_ping s' = supports_ping s ∧
    match x with
    | Ready (Ok m) => (length m ≤ n)%nat ∧ (msgs_got [m] s s' ∨ m = [] ∧ msgs_got [] s s')
    | Pending => msgs_got [] s s'
    | Ready (Err _) => True
    | Ready (Panic _) | Ready OutOfFuel => False
    end;
  write_message_law m (s : T) x s' : msg_valid s → poll_write_message m s = (x, s') →
    msg_valid s' ∧ msgs_got [] s s' ∧ supports_ping s' = supports_ping s ∧ poll_returns x ∧
    msgs_put (if ready_ok x then [m] else []) s s';
  flush_message_law (s : T) x s' : msg_valid s → poll_flush_message s = (x, s') →
    msg_valid s' ∧ msgs_got [] s s' ∧ msgs_put [] s s' ∧ supports_ping s' = supports_ping s ∧ poll_returns x;
  shutdown_message_law (s : T) x s' : msg_valid s → poll_shutdown_message s = (x, s') →
    msg_valid s' ∧ msgs_got [] s s' ∧ msgs_put [] s s' ∧ poll_returns x;
  ping_message_law (s : T) x s' : msg_valid s → supports_ping s = true → poll_write_ping s = (x, s') →
    msg_valid s' ∧ msgs_got [] s s' ∧ msgs_put [] s s' ∧ supports_ping s' = supports_ping s ∧ poll_returns x }.

(** A stream whose peer sends finitely many messages. *)
Class FiniteReads (T : Type) `{MessageStream T} : Type := {
  reads_left : T → nat;
  reads_left_got ms (s s' : T) : msgs_got ms s s' → (reads_left s' + length ms ≤ reads_left s)%nat }.

(** ** UDP sockets *)

(** A connected socket: [poll_recv] and [poll_send] of tokio's [UdpSocket].  A
    datagram is sent whole or not at all; what does not fit the buffer is cut. *)
Class Datagrams (K : Type) : Type := {
  poll_recv_dgram : nat → K → poll (res bytes) * K;
  poll_send_dgram : bytes → K → poll (res nat) * K }.

Class DatagramLaws (K : Type) `{Datagrams K} : Type := {
  dgrams_got : list bytes → K → K → Prop;
  dgrams_sent : K → list bytes;
  dgrams_left : K → nat;
  dgrams_refl k : dgrams_got [] k k;
  dgrams_trans d1 d2 k1 k2 k3 : dgrams_got d1 k1 k2 → dgrams_got d2 k2 k3 → dgrams_got (d1 ++ d2) k1 k3;
  dgrams_left_got d k k' : dgrams_got d k k' → (dgrams_left k' + length d ≤ dgrams_left k)%nat;
  recv_dgram_law n k x k' : poll_recv_dgram n k = (x, k') → dgrams_sent k' = dgrams_sent k ∧
    match x with
    | Ready (Ok d) => (length d ≤ n)%nat ∧ dgrams_got [d] k k'
    | Pending => dgrams_got [] k k'
    | Ready (Err _) => True
    | Ready (Panic _) | Ready OutOfFuel => False
    end;
  send_dgram_law d k x k' : poll_send_dgram d k = (x, k') → dgrams_got [] k k' ∧ poll_returns x ∧
    dgrams_sent k' = dgrams_sent k ++ (if ready_ok x then [d] else []) }.

Record UdpSocket (K : Type) : Type := MkUdp { udp_io : K }.
Arguments MkUdp {K} _.
Arguments udp_io {K} _.

Section Udp.
Context {K : Type} `{Datagrams K}.

(** [poll_send(..).map(|result| result.map(|_| ()))]. *)
Definition udp_poll_write_message (m : bytes) (u : UdpSocket K) : poll (res unit) * UdpSocket K :=
  match poll_send_dgram m (udp_io u) with
  | (Ready r, k) => (Ready ((fun _ => tt) <$> r), MkUdp k)
  | (Pending, k) => (Pending, MkUdp k)
  end.

#[export] Instance UdpSocket_read : AsyncReadMessage (UdpSocket K) := fun n =>
  lift_op udp_io MkUdp (poll_recv_dgram n).
#[export] Instance UdpSocket_write : AsyncWriteMessage (UdpSocket K) := udp_poll_write_message.
#[export] Instance UdpSocket_flush : AsyncFlushMessage (UdpSocket K) := fun u => (Ready (Ok tt), u).
#[export] Instance UdpSocket_shutdown : AsyncShutdownMessage (UdpSocket K) := fun u => (Ready (Ok tt), u).
#[export] Instance UdpSocket_ping : AsyncPing (UdpSocket K) :=
  {| supports_ping _ := false; poll_write_ping u := (Ready (Panic "not implemented"), u) |}.
End Udp.

#[export] Instance UdpSocket_messages {K} `{DatagramLaws K} : MessageStream (UdpSocket K).
Proof.
  refine {| msg_valid _ := True;
            msgs_got ms u u' := dgrams_got ms (udp_io u) (udp_io u');
            msgs_put ms u u' := dgrams_sent (udp_io u') = dgrams_sent (udp_io u) ++ ms |}; try done.
  - intros u. apply dgrams_refl.
  - intros *. apply dgrams_trans.
  - intros u. by rewrite app_nil_r.
  - intros * Hp1 Hp2. by rewrite Hp2, Hp1, app_assoc.
  - intros n u x u' _ _ Hr%lift_op_inv; [|done].
    apply recv_dgram_law in Hr as [Hs Hx]. rewrite app_nil_r. split_and!; try done.
    destruct x as [[m|e|w|]|]; try done. destruct Hx. split; [done|by left].
  - intros m u x u' _ Hr. unfold poll_write_message, UdpSocket_write, udp_poll_write_message in Hr.
    destruct (poll_send_dgram m (udp_io u)) as [y k] eqn:E. apply send_dgram_law in E as (Hg & Hy & Hs).
    destruct y as [[]|]; injection Hr as <- <-; by split_and!.
  - intros u x u' _ [= <- <-]. split_and!; try done; [apply dgrams_refl|by rewrite app_nil_r].
  - intros u x u' _ [= <- <-]. split_and!; try done; [apply dgrams_refl|by rewrite app_nil_r].
Defined.

#[export] Instance UdpSocket_finite {K} `{DatagramLaws K} : FiniteReads (UdpSocket K).
Proof.
  refine {| reads_left u := dgrams_left (udp_io u) |}. intros ms u u' Hg. by apply dgrams_left_got.
Defined.

(** ** VLESS message streams over any byte stream *)

Section VlessMessages.
Context {T : Type} `{AsyncReadLaws T} `{AsyncWriteLaws T} `{!AsyncPing T} `{!AsyncStreamLaws T}.
Implicit Types v : VlessMessageStream T.

Lemma encode_messages_app ms1 ms2 :
  encode_messages (ms1 ++ ms2) = encode_messages ms1 ++ encode_messages ms2.
Proof. unfold encode_messages. by rewrite fmap_app, concat_app. Qed.

Lemma encode_messages_one (m : bytes) : encode_messages [m] = encode_message m.
Proof. apply app_nil_r. Qed.

(** The stream's own answer on pings survives reading, writing and flushing. *)
Lemma vless_read_loop_ping fuel n v :
  supports_ping (vless_read_loop fuel n v).2 = supports_ping v.
Proof.
  revert v. induction fuel as [|fuel IH]; intros v; cbn [vless_read_loop];
    (destruct (vless_message _ _) as [[]|]; [by repeat case_match|]);
    (case_match; [done|]); destruct (read_keeps (length (vs_read_buf v) - read_end_index v) (vs_stream v))
      as [_ Hs]; destruct (poll_read _ _) as [[[bs|e|w|]|] s]; cbn [snd] in Hs; try done;
    (case_match; [by repeat case_match|]); [done|by rewrite IH].
Qed.

Lemma vless_write_loop_ping fuel v :
  supports_ping (vless_write_loop fuel v).2 = supports_ping v.
Proof.
  revert v. induction fuel as [|fuel IH]; intros v; cbn [vless_write_loop]; (case_match; [|done]); [done|].
  pose proof (write_supports (drop (write_offset v) (pending_write v)) (vs_stream v)) as Hs.
  destruct (poll_write _ _) as [[[k|e|w|]|] s]; cbn [snd] in Hs; try done.
  case_match; [done|]. by rewrite IH.
Qed.

Lemma vless_flush_ping v : supports_ping (vless_poll_flush_message v).2 = supports_ping v.
Proof.
  unfold vless_poll_flush_message. rewrite <-(vless_write_loop_ping (length (pending_write v)) v).
  destruct (vless_write_loop _ v) as [[[[]|e|w|]|] v1]; try done. cbn [snd].
  pose proof (flush_supports (vs_stream v1)) as Hs.
  by destruct (poll_flush (vs_stream v1)) as [[[[]|e|w|]|] s].
Qed.

Lemma vless_write_ping m v : supports_ping (vless_poll_write_message m v).2 = supports_ping v.
Proof.
  unfold vless_poll_write_message, vless_queue. case_match; [by case_match|].
  pose proof (vless_flush_ping v) as Hf.
  destruct (vless_poll_flush_message v) as [[[[]|e|w|]|] v1]; cbn [snd] in Hf |- *; try done;
    by repeat case_match.
Qed.

Lemma vless_shutdown_spec v x v' :
  vless_poll_shutdown_message v = (x, v') → vless_inv v →
  vless_write_side v v' ∧ vless_out v' = vless_out v ∧ poll_returns x.
Proof.
  unfold vless_poll_shutdown_message. intros Hr Hi. destruct (vless_poll_flush_message v) as [y v1] eqn:E.
  destruct (vless_flush_spec _ _ _ E Hi) as (Hs & Ho & Hy & _).
  destruct y as [[[]|e|w|]|]; simplify_eq; try (by split_and!).
  pose proof (shutdown_keeps (vs_stream v1)) as Hk. pose proof (poll_shutdown_written (vs_stream v1)) as Hw.
  destruct (poll_shutdown (vs_stream v1)) as [z s1] eqn:Es; cbn [snd] in Hk, Hw. injection Hr as <- <-.
  pose proof Hs as ((_ & _ & Hw1) & _). split_and!.
  - eapply vless_write_side_trans; [done|]. by apply vless_with_write_side; [apply Hs|..].
  - rewrite <-Ho. unfold vless_out. cbn. by rewrite Hw.
  - destruct z as [r|]; [|done]. destruct (poll_shutdown_returns _ _ _ Es). by destruct r.
Qed.

Lemma vless_read_law n v x v' :
  vless_poll_read_message n v = (x, v') → (Z.to_nat 65535 ≤ n)%nat → vless_inv v →
  vless_inv v' ∧ vless_out v' = vless_out v ∧ supports_ping v' = supports_ping v ∧
  match x with
  | Ready (Ok m) => (length m ≤ n)%nat ∧
      (vless_ahead v = encode_message m ++ vless_ahead v' ∨ m = [] ∧ vless_ahead v = vless_ahead v')
  | Pending => vless_ahead v = vless_ahead v'
  | Ready (Err _) => True
  | Ready (Panic _) | Ready OutOfFuel => False
  end.
Proof.
  intros Hr Hn Hi. destruct (vs_eof v) eqn:He.
  { unfold vless_poll_read_message in Hr. rewrite He in Hr. injection Hr as <- <-.
    split_and!; [done..|cbn; lia|by right]. }
  assert (supports_ping v' = supports_ping v) as Hsp.
  { replace v' with (vless_poll_read_message n v).2 by (by rewrite Hr).
    unfold vless_poll_read_message. rewrite He. apply vless_read_loop_ping. }
  destruct (vless_poll_read_spec _ _ _ _ Hr Hi He) as (Hi' & Hw & Hp & Hoff & Hx).
  split_and!; [done|unfold vless_out; congruence|done|].
  destruct x as [[m|e|w|]|]; try done; [|by destruct Hx as [-> _]].
  destruct Hx as [[Hs _]|(-> & -> & -> & _)]; [|split; [cbn; lia|by right]].
  split; [|left; by apply spec_message_inv].
  destruct (vless_ahead v) as [|b0 [|b1 t]]; try done. cbn [spec_message] in Hs.
  destruct (_ <? _)%nat; [done|]. injection Hs as <- _. pose proof (be_decode2_range b0 b1). len.
Qed.
End VlessMessages.

#[export] Instance Vless_messages {T} `{AsyncReadLaws T} `{AsyncWriteLaws T} `{!AsyncPing T}
    `{!AsyncStreamLaws T} : MessageStream (VlessMessageStream T).
Proof.
  refine {| msg_valid := vless_inv;
            msgs_got ms v v' := vless_ahead v = encode_messages ms ++ vless_ahead v';
            msgs_put ms v v' := vless_out v' = vless_out v ++ encode_messages ms |}; try done.
  - intros * Hg1 Hg2. by rewrite Hg1, Hg2, encode_messages_app, app_assoc.
  - intros v. symmetry. apply app_nil_r.
  - intros * Hp1 Hp2. by rewrite Hp2, Hp1, encode_messages_app, app_assoc.
  - intros n v x v' Hn Hi Hr. destruct (vless_read_law _ _ _ _ Hr Hn Hi) as (Hi' & Ho & Hsp & Hx).
    rewrite app_nil_r. split_and!; try done. destruct x as [[m|e|w|]|]; try done.
    by rewrite encode_messages_one.
  - intros m v x v' Hi Hr. destruct (vless_write_spec _ _ _ _ Hr Hi) as ((Hi' & Hah & _) & Hx & Ho).
    split_and!; [done|by rewrite Hah| |done|].
    + rewrite <-(vless_write_ping m v). unfold poll_write_message, Vless_write in Hr. by rewrite Hr.
    + rewrite Ho. destruct (ready_ok x); [by rewrite encode_messages_one|done].
  - intros v x v' Hi Hr. destruct (vless_flush_spec _ _ _ Hr Hi) as ((Hi' & Hah & _) & Ho & Hx & _).
    rewrite app_nil_r. split_and!; [done|by rewrite Hah|done| |done].
    rewrite <-(vless_flush_ping v). unfold poll_flush_message, Vless_flush in Hr. by rewrite Hr.
  - intros v x v' Hi Hr. destruct (vless_shutdown_spec _ _ _ Hr Hi) as ((Hi' & Hah & _) & Ho & Hx).
    rewrite app_nil_r. split_and!; [done|by rewrite Hah|done|done].
  - intros v x v' Hi Hs Hr. cbn [poll_write_ping Vless_ping] in Hr.
    pose proof (ping_keeps (vs_stream v)) as Hk. pose proof (ping_written (vs_stream v)) as Hw.
    pose proof (ping_supports (vs_stream v)) as Hsp.
    destruct (poll_write_ping (vs_stream v)) as [z s1] eqn:Es; cbn [snd] in Hk, Hw, Hsp.
    injection Hr as <- <-. pose proof Hi as (_ & _ & Hoff).
    destruct (vless_with_write_side v s1 (pending_write v) (write_offset v) Hi Hk Hoff) as (Hi' & Hah & _).
    rewrite app_nil_r. split_and!; [done|by rewrite Hah| |done|].
    + unfold vless_out. cbn. by rewrite Hw.
    + destruct z as [r|]; [|done]. destruct (ping_returns (vs_stream v) _ _ Hs Es). by destruct r.
Defined.

#[export] Instance Vless_finite {T} `{AsyncReadLaws T} `{AsyncWriteLaws T} `{!AsyncPing T}
    `{!AsyncStreamLaws T} : FiniteReads (VlessMessageStream T).
Proof.
  refine {| reads_left v := length (vless_ahead v) |}. intros ms v v' Hg. cbn in Hg. rewrite Hg, length_app.
  assert (length ms ≤ length (encode_messages ms))%nat; [|lia]. clear Hg.
  induction ms as [|m ms IH]; [done|]. unfold encode_messages in *. cbn [fmap list_fmap concat].
  unfold encode_message at 1. rewrite !length_app, length_be_encode. cbn [length]. lia.
Defined.
