(* ===== verification/UdpCopy.v ===== *)
(** * Relaying messages between two streams (src/udp_relay.rs, [copy_bidirectional_message])

    Each direction caches one message at a time: [poll_copy] reads one when none
    is cached, and writes the cached one, until a stream is not ready.  The relay
    ends when either direction has ended, or after 200 s without a message. *)

From Stdlib Require Import String.
From S2P Require Import Prelude AsyncStream QuicStream VlessStream Sockets.

(** Times are nanoseconds. *)
Definition ASSOCIATION_TIMEOUT : Z := 200 * 10 ^ 9.

Definition MESSAGE_BUFFER : nat := Z.to_nat 65535.

Record CopyBuffer : Set := MkCopy {
  read_done : bool; need_flush : bool; need_write_ping : bool;
  cache_length : nat; buf : bytes; read_count : Z }.

Definition copy_buffer_new (mem : nat → byte) (need_flush : bool) : CopyBuffer :=
  MkCopy false need_flush false 0 (allocate_vec mem MESSAGE_BUFFER) 0.

(** The updates of a round. *)
Definition set_read_done (b : CopyBuffer) : CopyBuffer :=
  MkCopy true (need_flush b) (need_write_ping b) (cache_length b) (buf b) (read_count b).
Definition cache_message (m : bytes) (b : CopyBuffer) : CopyBuffer :=
  MkCopy (read_done b) (need_flush b) (need_write_ping b) (length m) (splice 0 m (buf b))
    (wrap 64 (read_count b + Z.of_nat (length m))).
Definition message_written (b : CopyBuffer) : CopyBuffer :=
  MkCopy (read_done b) true false 0 (buf b) (read_count b).
Definition set_need_flush (f : bool) (b : CopyBuffer) : CopyBuffer :=
  MkCopy (read_done b) f (need_write_ping b) (cache_length b) (buf b) (read_count b).
Definition set_need_write_ping (p : bool) (b : CopyBuffer) : CopyBuffer :=
  MkCopy (read_done b) (need_flush b) p (cache_length b) (buf b) (read_count b).

(** How a part of a round ends: it had nothing to do, it did it, its stream was not
    ready, or it failed and [?] returns. *)
Inductive part_end : Set := Skipped | Did | NotReady | Failed (r : res unit).

Section Copy.
Context {R W : Type} `{AsyncReadMessage R} `{AsyncWriteMessage W} `{AsyncFlushMessage W}
  `{AsyncShutdownMessage W} `{AsyncPing W}.

Definition copy_read (b : CopyBuffer) (r : R) : part_end * CopyBuffer * R :=
  if negb (read_done b) && (cache_length b =? 0)%nat then
    match poll_read_message (length (buf b)) r with
    | (Ready (Ok m), r') =>
        if (length m =? 0)%nat then (Skipped, set_read_done b, r') else (Did, cache_message m b, r')
    | (Ready (Err e), r') => (Failed (Err e), b, r')
    | (Ready (Panic x), r') => (Failed (Panic x), b, r')
    | (Ready OutOfFuel, r') => (Failed OutOfFuel, b, r')
    | (Pending, r') => (NotReady, b, r')
    end
  else (Skipped, b, r).

Definition copy_write (b : CopyBuffer) (w : W) : part_end * CopyBuffer * W :=
  if (0 <? cache_length b)%nat then
    match poll_write_message (take (cache_length b) (buf b)) w with
    | (Ready (Ok _), w') => (Did, message_written b, w')
    | (Ready x, w') => (Failed x, b, w')
    | (Pending, w') => (NotReady, b, w')
    end
  else (Skipped, b, w).

Definition copy_ping (write_pending : bool) (b : CopyBuffer) (w : W) : part_end * CopyBuffer * W :=
  if negb write_pending && need_write_ping b then
    match poll_write_ping w with
    | (Ready (Ok written), w') =>
        let b' := set_need_write_ping false b in
        (Did, if written then set_need_flush true b' else b', w')
    | (Ready (Err e), w') => (Failed (Err e), b, w')
    | (Ready (Panic x), w') => (Failed (Panic x), b, w')
    | (Ready OutOfFuel, w') => (Failed OutOfFuel, b, w')
    | (Pending, w') => (NotReady, b, w')
    end
  else (Skipped, b, w).

Definition copy_flush (b : CopyBuffer) (w : W) : part_end * CopyBuffer * W :=
  if need_flush b then
    match poll_flush_message w with
    | (Ready (Ok _), w') => (Did, set_need_flush false b, w')
    | (Ready x, w') => (Failed x, b, w')
    | (Pending, w') => (NotReady, b, w')
    end
  else (Skipped, b, w).

Definition not_ready (e : part_end) : bool := match e with NotReady => true | _ => false end.
Definition did (e : part_end) : bool := match e with Did => true | _ => false end.

(** A round from its write on; [None]: the loop goes round again. *)
Definition copy_after_read (read_end : part_end) (b : CopyBuffer) (w : W)
    : option (poll (res unit)) * (CopyBuffer * W) :=
  match copy_write b w with
  | (Failed x, b, w) => (Some (Ready x), (b, w))
  | (write_end, b, w) =>
      match copy_ping (not_ready write_end) b w with
      | (Failed x, b, w) => (Some (Ready x), (b, w))
      | (ping_end, b, w) =>
          let read_pending := not_ready read_end in
          let write_pending := not_ready write_end || not_ready ping_end in
          if did read_end && did write_end && negb read_pending && negb write_pending
          then (None, (b, w))
          else
            match copy_flush b w with
            | (Failed x, b, w) => (Some (Ready x), (b, w))
            | (NotReady, b, w) => (Some Pending, (b, w))
            | (Did, b, w) => (None, (b, w))
            | (Skipped, b, w) =>
                if read_done b && (cache_length b =? 0)%nat then (Some (Ready (Ok tt)), (b, w))
                else if read_pending || write_pending then (Some Pending, (b, w))
                else (None, (b, w))
            end
      end
  end.

Definition copy_round (b : CopyBuffer) (r : R) (w : W)
    : option (poll (res unit)) * (CopyBuffer * R * W) :=
  match copy_read b r with
  | (Failed x, b, r) => (Some (Ready x), (b, r, w))
  | (read_end, b, r) => let '(o, (b, w)) := copy_after_read read_end b w in (o, (b, r, w))
  end.

(** The [loop]. *)
Fixpoint copy_loop (fuel : nat) (b : CopyBuffer) (r : R) (w : W)
    : poll (res unit) * (CopyBuffer * R * W) :=
  match copy_round b r w with
  | (Some x, st) => (x, st)
  | (None, (b, r, w)) =>
      match fuel with
      | O => (Ready OutOfFuel, (b, r, w))
      | S f => copy_loop f b r w
      end
  end.

(** [poll_copy]; [coop] says whether the task has budget left. *)
Definition poll_copy (fuel : nat) (coop : bool) (b : CopyBuffer) (r : R) (w : W)
    : poll (res unit) * (CopyBuffer * R * W) :=
  if coop then copy_loop fuel b r w else (Pending, (b, r, w)).

Inductive TransferState : Set := Running | ShuttingDown | Done.

(** The states are passed in order, so the loop is three rounds at most. *)
Definition transfer_shutdown (b : CopyBuffer) (r : R) (w : W)
    : poll (res unit) * (TransferState * CopyBuffer * R * W) :=
  match poll_shutdown_message w with
  | (Ready (Ok _), w') => (Ready (Ok tt), (Done, b, r, w'))
  | (Ready x, w') => (Ready x, (ShuttingDown, b, r, w'))
  | (Pending, w') => (Pending, (ShuttingDown, b, r, w'))
  end.

Definition transfer_one_direction (fuel : nat) (coop : bool) (state : TransferState)
    (b : CopyBuffer) (r : R) (w : W) : poll (res unit) * (TransferState * CopyBuffer * R * W) :=
  match state with
  | Running =>
      match poll_copy fuel coop b r w with
      | (Ready (Ok _), (b', r', w')) => transfer_shutdown b' r' w'
      | (x, (b', r', w')) => (x, (Running, b', r', w'))
      end
  | ShuttingDown => transfer_shutdown b r w
  | Done => (Ready (Ok tt), (Done, b, r, w))
  end.
End Copy.

Section Bidirectional.
Context {A B : Type} `{AsyncReadMessage A} `{AsyncWriteMessage A} `{AsyncFlushMessage A}
  `{AsyncShutdownMessage A} `{AsyncPing A} `{AsyncReadMessage B} `{AsyncWriteMessage B}
  `{AsyncFlushMessage B} `{AsyncShutdownMessage B} `{AsyncPing B}.

Record CopyBidirectional : Type := MkBidi {
  side_a : A; side_b : B; a_buf : CopyBuffer; b_buf : CopyBuffer;
  a_to_b : TransferState; b_to_a : TransferState; last_active : Z }.

Definition is_ready {X} (x : poll X) : bool := match x with Ready _ => true | Pending => false end.

(** The runtime's part in one poll: whether the ping timer fired, whether each
    direction has budget, and the time. *)
Record tick : Set := MkTick { ping_fired : bool; coop_a : bool; coop_b : bool; now : Z }.

Definition bidirectional_poll (fuel : nat) (t : tick) (c : CopyBidirectional)
    : poll (res unit) * CopyBidirectional :=
  let a_buf0 := if ping_fired t then set_need_write_ping (supports_ping (side_b c)) (a_buf c) else a_buf c in
  let b_buf0 := if ping_fired t then set_need_write_ping (supports_ping (side_a c)) (b_buf c) else b_buf c in
  let a_count := read_count a_buf0 in
  let b_count := read_count b_buf0 in
  let '(ab, (s_ab, a_buf, a, b)) :=
    transfer_one_direction fuel (coop_a t) (a_to_b c) a_buf0 (side_a c) (side_b c) in
  let '(ba, (s_ba, b_buf, b, a)) :=
    transfer_one_direction fuel (coop_b t) (b_to_a c) b_buf0 b a in
  let result := if is_ready ab then ab else if is_ready ba then ba else Pending in
  if negb (read_count a_buf =? a_count) || negb (read_count b_buf =? b_count)
  then (result, MkBidi a b a_buf b_buf s_ab s_ba (now t))
  else if ASSOCIATION_TIMEOUT <=? elapsed (now t) (last_active c)
  then (Ready (Ok tt), MkBidi a b a_buf b_buf s_ab s_ba (last_active c))
  else (result, MkBidi a b a_buf b_buf s_ab s_ba (last_active c)).

Definition copy_bidirectional_message (mem_a mem_b : nat → byte) (start : Z) (a : A) (b : B)
    (a_initial_flush b_initial_flush : bool) : CopyBidirectional :=
  MkBidi a b (copy_buffer_new mem_a b_initial_flush) (copy_buffer_new mem_b a_initial_flush)
    Running Running start.

(** [.await]: polled until ready, or until the ticks run out. *)
Fixpoint bidirectional_run (fuel : nat) (ts : list tick) (c : CopyBidirectional)
    : poll (res unit) * CopyBidirectional :=
  match ts with
  | [] => (Pending, c)
  | t :: ts' =>
      match bidirectional_poll fuel t c with
      | (Ready x, c') => (Ready x, c')
      | (Pending, c') => bidirectional_run fuel ts' c'
      end
  end.

(** [shutdown_message().await], polled at most [fuel] times more. *)
Definition shutdown_message {T} `{AsyncShutdownMessage T} (fuel : nat) : M T unit :=
  await fuel poll_shutdown_message.

(** [OutOfFuel]: the relay is still running when the ticks end. *)
Definition run_udp_copy (mem_a mem_b : nat → byte) (start : Z) (fuel waits : nat) (ts : list tick)
    (server_need_initial_flush client_need_initial_flush : bool) (server_stream : A) (client_stream : B)
    : res unit * (A * B) :=
  match bidirectional_run fuel ts
    (copy_bidirectional_message mem_a mem_b start server_stream client_stream
       server_need_initial_flush client_need_initial_flush) with
  | (Ready copy_result, c) =>
      (copy_result, ((shutdown_message waits (side_a c)).2, (shutdown_message waits (side_b c)).2))
  | (Pending, c) => (OutOfFuel, (side_a c, side_b c))
  end.
End Bidirectional.

(** ** A direction *)

(** The message cached, if there is one. *)
Definition cached (b : CopyBuffer) : list bytes :=
  if (cache_length b =? 0)%nat then [] else [take (cache_length b) (buf b)].

Lemma cached_nil b : cache_length b = 0%nat → cached b = [].
Proof. unfold cached. by intros ->. Qed.

Lemma cached_message m b :
  m ≠ [] → (length m ≤ length (buf b))%nat → cached (cache_message m b) = [m].
Proof.
  intros Hm Hl. unfold cached, cache_message. cbn [cache_length buf].
  rewrite (proj2 (Nat.eqb_neq _ _)) by (by destruct m). unfold splice.
  rewrite take_0. cbn [app]. by rewrite take_app_length.
Qed.

Section Nil.
Context {T : Type} `{MessageStream T}.

Lemma got_nil_r ms (s1 s2 s3 : T) : msgs_got ms s1 s2 → msgs_got [] s2 s3 → msgs_got ms s1 s3.
Proof. intros Ha Hb. rewrite <-(app_nil_r ms). by eapply got_trans. Qed.

Lemma put_nil_r ms (s1 s2 s3 : T) : msgs_put ms s1 s2 → msgs_put [] s2 s3 → msgs_put ms s1 s3.
Proof. intros Ha Hb. rewrite <-(app_nil_r ms). by eapply put_trans. Qed.
End Nil.

Section Direction.
Context {R W : Type} `{FiniteReads R} `{MessageStream W} (r0 : R) (w0 : W).

(** Where a direction that started at [r0] and [w0] stands: [fwd] has been
    forwarded, then comes the cached message, and [tail] is the empty message
    that ended the reading, if one did. *)
Record copy_ok (fwd tail : list bytes) (b : CopyBuffer) (r : R) (w : W) : Prop := {
  ok_len : length (buf b) = MESSAGE_BUFFER;
  ok_cache : (cache_length b ≤ MESSAGE_BUFFER)%nat;
  ok_r : msg_valid r;
  ok_w : msg_valid w;
  ok_got : msgs_got (fwd ++ cached b ++ tail) r0 r;
  ok_put : msgs_put fwd w0 w;
  ok_tail : tail = [] ∨ tail = [[]] ∧ read_done b = true ∧ cache_length b = 0%nat;
  ok_fwd : Forall (fun m => m ≠ []) fwd;
  ok_ping : need_write_ping b = true → supports_ping w = true }.

(** A direction that failed has forwarded, in order, what it read but for one message. *)
Definition copy_failed (r : R) (w : W) : Prop :=
  msg_valid r ∧ msg_valid w ∧
  ∃ fwd rest r1, msgs_got (fwd ++ rest) r0 r1 ∧ (length rest ≤ 1)%nat ∧ msgs_put fwd w0 w.

Lemma copy_ok_failed fwd tail b r w r' w' :
  copy_ok fwd tail b r w → msg_valid r' → msg_valid w' → msgs_put [] w w' → copy_failed r' w'.
Proof.
  intros [] Hr Hw Hp. split_and!; [done..|]. exists fwd, (cached b ++ tail), r.
  split_and!; [done| |by eapply put_nil_r]. unfold cached. rewrite length_app.
  destruct ok_tail0 as [->|(-> & _ & ->)]; [|done]. case_match; cbn; lia.
Qed.

(** What a direction leaves alone: what its reader has written, what its writer has read. *)
Definition kept (r : R) (w : W) (r' : R) (w' : W) : Prop :=
  msgs_put [] r r' ∧ supports_ping r' = supports_ping r ∧ msgs_got [] w w'.

Lemma kept_refl r w : kept r w r w.
Proof. split_and!; [apply put_refl|done|apply got_refl]. Qed.

Lemma kept_trans r1 w1 r2 w2 r3 w3 : kept r1 w1 r2 w2 → kept r2 w2 r3 w3 → kept r1 w1 r3 w3.
Proof.
  intros (? & Ha & ?) (? & Hb & ?).
  split_and!; [by eapply put_nil_r|by rewrite Hb|by eapply got_nil_r].
Qed.

(** Rounds left before the loop returns. *)
Definition work (b : CopyBuffer) (r : R) : nat :=
  2 * reads_left r + (if (cache_length b =? 0)%nat then 0 else 2) +
  (if need_flush b then 1 else 0) + (if need_write_ping b then 1 else 0).

Lemma copy_read_spec b r w fwd tail e b' r' :
  copy_read b r = (e, b', r') → copy_ok fwd tail b r w →
  kept r w r' w ∧
  match e with
  | Failed x => (∃ e', x = Err e') ∧ copy_failed r' w
  | _ => (∃ tail', copy_ok fwd tail' b' r' w) ∧ (work b' r' ≤ work b r)%nat ∧
      need_flush b' = need_flush b ∧
      match e with
      | Did => cache_length b = 0%nat ∧ (0 < cache_length b')%nat
      | NotReady => cache_length b' = 0%nat
      | _ => read_done b' = true ∨ (0 < cache_length b')%nat
      end
  end.
Proof.
  unfold copy_read. intros Hr Hok. pose proof Hok as [].
  destruct (negb (read_done b) && (cache_length b =? 0)%nat) eqn:Hc.
  2: { injection Hr as <- <- <-. split; [apply kept_refl|]. split_and!; eauto.
       destruct (read_done b); [by left|right]. cbn in Hc. zbool. lia. }
  apply andb_prop in Hc as [Hrd Hc0]. zbool. destruct ok_tail0 as [->|(_ & Hrd' & _)]; [|by rewrite Hrd' in Hrd].
  rewrite (cached_nil _ Hc0) in ok_got0.
  destruct (poll_read_message (length (buf b)) r) as [x r1] eqn:E.
  destruct (read_message_law (length (buf b)) r x r1 ltac:(by rewrite ok_len0) ok_r0 E) as (Hv & Hp & Hs & Hx).
  assert (kept r w r1 w) as Hk by (split_and!; [done..|apply got_refl]).
  destruct x as [[m|e0|p|]|]; try done.
  - destruct Hx as [Hl Hgot].
    destruct (length m =? 0)%nat eqn:Hm; zbool; injection Hr as <- <- <-; (split; [done|]).
    + apply length_zero_iff_nil in Hm. subst m. rewrite !app_nil_r in ok_got0.
      assert (∃ tail', (tail' = [] ∨ tail' = [[]]) ∧ msgs_got tail' r r1) as (tail' & Ht & Hg)
        by (destruct Hgot as [?|[_ ?]]; eauto).
      split_and!; [|unfold work; cbn [set_read_done cache_length need_flush need_write_ping]|done|by left].
      * exists tail'. split; try done; cbn [set_read_done read_done].
        -- rewrite (cached_nil (set_read_done b) Hc0). by eapply got_trans.
        -- destruct Ht; [by left|right; by split_and!].
      * apply reads_left_got in Hg. lia.
    + assert (m ≠ []) as Hm' by (by destruct m). destruct Hgot as [Hgot|[? _]]; [|done].
      pose proof (cached_message m b Hm' Hl) as Hcm. rewrite !app_nil_r in ok_got0.
      split_and!; [|unfold work; cbn [cache_message cache_length need_flush need_write_ping]|done|done|cbn; lia].
      * exists []. split; try done; cbn [cache_message buf cache_length]; [|lia| |by left].
        -- rewrite length_splice; [done|lia].
        -- rewrite Hcm, app_nil_r. by eapply got_trans.
      * apply reads_left_got in Hgot. cbn [length] in Hgot. rewrite Hc0, (proj2 (Nat.eqb_neq _ _)) by lia.
        cbn [Nat.eqb]. lia.
  - injection Hr as <- <- <-. split; [done|]. split; [by eexists|].
    apply (copy_ok_failed _ _ _ _ _ _ _ Hok Hv ok_w0 (put_refl _)).
  - injection Hr as <- <- <-. split; [done|]. split_and!; [|unfold work|done|done].
    + exists []. split; try done; [|by left]. rewrite (cached_nil _ Hc0). by eapply got_nil_r.
    + apply reads_left_got in Hx. cbn [length] in Hx. lia.
Qed.

Lemma copy_write_spec b r w fwd tail e b' w' :
  copy_write b w = (e, b', w') → copy_ok fwd tail b r w →
  kept r w r w' ∧
  match e with
  | Failed x => (∃ e', x = Err e') ∧ copy_failed r w'
  | _ => (∃ fwd', copy_ok fwd' tail b' r w') ∧
      match e with
      | Did => (0 < cache_length b)%nat ∧ b' = message_written b
      | NotReady => b' = b
      | _ => b' = b ∧ cache_length b = 0%nat
      end
  end.
Proof.
  unfold copy_write. intros Hr Hok. pose proof Hok as [].
  destruct (0 <? cache_length b)%nat eqn:Hc; zbool.
  2: { injection Hr as <- <- <-. split; [apply kept_refl|]. split; [by eexists|]. split; [done|lia]. }
  destruct (poll_write_message _ w) as [x w1] eqn:E.
  destruct (write_message_law _ w x w1 ok_w0 E) as (Hv & Hg & Hs & Hx & Hp).
  assert (kept r w r w1) as Hk by (split_and!; [apply put_refl|done..]).
  assert (cached b = [take (cache_length b) (buf b)]) as Hcb.
  { unfold cached. by rewrite (proj2 (Nat.eqb_neq _ _)) by lia. }
  destruct x as [[[]|e0|p|]|]; try done; injection Hr as <- <- <-; (split; [done|]).
  - split; [|done]. exists (fwd ++ [take (cache_length b) (buf b)]). split; try done; cbn [ready_ok] in Hp.
    + cbn. lia.
    + rewrite (cached_nil (message_written b) eq_refl), Hcb in *. cbn [app]. by rewrite <-app_assoc.
    + by eapply put_trans.
    + destruct ok_tail0 as [?|(_ & _ & ?)]; [by left|lia].
    + apply Forall_app. split; [done|]. constructor; [|done]. intros Hn%(f_equal length).
      rewrite length_take in Hn. cbn in Hn. lia.
  - split; [by eexists|]. by apply (copy_ok_failed _ _ _ _ _ _ _ Hok ok_r0 Hv).
  - split; [|done]. exists fwd. split; try done; [by eapply put_nil_r|by rewrite Hs].
Qed.

Lemma msg_copy_ping_spec wp b r w fwd tail e b' w' :
  copy_ping wp b w = (e, b', w') → copy_ok fwd tail b r w →
  kept r w r w' ∧
  match e with
  | Failed x => (∃ e', x = Err e') ∧ copy_failed r w'
  | _ => copy_ok fwd tail b' r w' ∧
      match e with
      | Did => need_write_ping b = true ∧
          ∃ f, b' = set_need_flush (f || need_flush b) (set_need_write_ping false b)
      | _ => b' = b
      end
  end.
Proof.
  unfold copy_ping. intros Hr Hok. pose proof Hok as [].
  destruct (negb wp && need_write_ping b) eqn:Hc.
  2: { injection Hr as <- <- <-. split; [apply kept_refl|done]. }
  apply andb_prop in Hc as [_ Hnp]. specialize (ok_ping0 Hnp).
  destruct (poll_write_ping w) as [x w1] eqn:E.
  destruct (ping_message_law w x w1 ok_w0 ok_ping0 E) as (Hv & Hg & Hp & Hs & Hx).
  assert (kept r w r w1) as Hk by (split_and!; [apply put_refl|done..]).
  assert (msgs_put fwd w0 w1) as Hput by (by eapply put_nil_r).
  destruct x as [[written|e0|p|]|]; try done; injection Hr as <- <- <-; (split; [done|]).
  - split; [destruct written; by split|]. split; [done|]. exists written. by destruct written, b.
  - split; [by eexists|]. by apply (copy_ok_failed _ _ _ _ _ _ _ Hok ok_r0 Hv).
  - split; [|done]. split; try done. intros _. by rewrite Hs.
Qed.

Lemma msg_copy_flush_spec b r w fwd tail e b' w' :
  copy_flush b w = (e, b', w') → copy_ok fwd tail b r w →
  kept r w r w' ∧
  match e with
  | Failed x => (∃ e', x = Err e') ∧ copy_failed r w'
  | _ => copy_ok fwd tail b' r w' ∧
      match e with
      | Did => need_flush b = true ∧ b' = set_need_flush false b
      | NotReady => b' = b
      | _ => need_flush b = false ∧ b' = b
      end
  end.
Proof.
  unfold copy_flush. intros Hr Hok. pose proof Hok as []. destruct (need_flush b) eqn:Hnf.
  2: { injection Hr as <- <- <-. split; [apply kept_refl|done]. }
  destruct (poll_flush_message w) as [x w1] eqn:E.
  destruct (flush_message_law w x w1 ok_w0 E) as (Hv & Hg & Hp & Hs & Hx).
  assert (kept r w r w1) as Hk by (split_and!; [apply put_refl|done..]).
  assert (msgs_put fwd w0 w1) as Hput by (by eapply put_nil_r).
  destruct x as [[[]|e0|p|]|]; try done; injection Hr as <- <- <-; (split; [done|]).
  - split; [|done]. split; try done. by rewrite Hs.
  - split; [by eexists|]. by apply (copy_ok_failed _ _ _ _ _ _ _ Hok ok_r0 Hv).
  - split; [|done]. split; try done. by rewrite Hs.
Qed.

(** What a round, or the loop, may return. *)
Definition copy_post (x : poll (res unit)) (b : CopyBuffer) (r : R) (w : W) : Prop :=
  match x with
  | Ready (Ok _) => (∃ fwd tail, copy_ok fwd tail b r w) ∧ read_done b = true ∧ cache_length b = 0%nat
  | Ready (Err _) => copy_failed r w
  | Pending => ∃ fwd tail, copy_ok fwd tail b r w
  | Ready (Panic _) | Ready OutOfFuel => False
  end.

Lemma copy_failed_post x b r w : (∃ e, x = Err e) ∧ copy_failed r w → copy_post (Ready x) b r w.
Proof. by intros [[e ->] Hf]. Qed.

(** What the read of a round leaves for the rest of it. *)
Definition read_left_off (e : part_end) (b : CopyBuffer) : Prop :=
  match e with
  | Did => (0 < cache_length b)%nat
  | NotReady => cache_length b = 0%nat
  | Skipped => read_done b = true ∨ (0 < cache_length b)%nat
  | Failed _ => False
  end.

(** Once flushed, with nothing more to do and no stream to wait for, the round was not needed. *)
Lemma copy_no_idle_round read_end write_end b1 b2 :
  read_left_off read_end b1 →
  match write_end with
  | Did => need_flush b2 = true
  | NotReady => True
  | _ => cache_length b1 = 0%nat ∧ cache_length b2 = cache_length b1 ∧ read_done b2 = read_done b1
  end →
  need_flush b2 = false → not_ready read_end = false → not_ready write_end = false →
  read_done b2 = true ∧ cache_length b2 = 0%nat.
Proof.
  intros Hre Hwe Hf Hnr Hnw.
  destruct write_end; try done; [|congruence|]; destruct Hwe as (Hc1 & Hc2 & Hd2);
    destruct read_end; cbn in Hre; try done; try lia; destruct Hre; try lia; (split; [congruence|lia]).
Qed.

(** The end of a round, after the ping. *)
Lemma copy_finish_spec (progress write_pending read_pending : bool) bound b r w fwd tail o b' w' :
  (if progress then (None, (b, w))
   else match copy_flush b w with
        | (Failed x, b, w) => (Some (Ready x), (b, w))
        | (NotReady, b, w) => (Some Pending, (b, w))
        | (Did, b, w) => (None, (b, w))
        | (Skipped, b, w) =>
            if read_done b && (cache_length b =? 0)%nat then (Some (Ready (Ok tt)), (b, w))
            else if read_pending || write_pending then (Some Pending, (b, w))
            else (None, (b, w))
        end) = (o, (b', w')) →
  copy_ok fwd tail b r w →
  (progress = true → (work b r < bound)%nat) →
  (need_flush b = true → (work (set_need_flush false b) r < bound)%nat) →
  (need_flush b = false → read_pending = false → write_pending = false →
   read_done b = true ∧ cache_length b = 0%nat) →
  kept r w r w' ∧
  match o with
  | Some x => copy_post x b' r w'
  | None => (∃ fwd' tail', copy_ok fwd' tail' b' r w') ∧ (work b' r < bound)%nat
  end.
Proof.
  intros Hr Hok Hprog Hfl Hidle. destruct progress.
  { injection Hr as <- <- <-. split; [apply kept_refl|]. eauto. }
  destruct (copy_flush b w) as [[fe b1] w1] eqn:Ef.
  destruct (msg_copy_flush_spec _ _ _ _ _ _ _ _ Ef Hok) as [Hk Hf].
  destruct fe as [| | |x]; [| | |injection Hr as <- <- <-; split; [done|by apply copy_failed_post]];
    destruct Hf as [Hok1 Hf].
  - destruct Hf as [Hnf ->]. destruct (read_done b && (cache_length b =? 0)%nat) eqn:Hd.
    { apply andb_prop in Hd as [? ?]. zbool. injection Hr as <- <- <-. split; [done|]. split; eauto. }
    destruct (read_pending || write_pending) eqn:Hp; injection Hr as <- <- <-; (split; [done|]); [cbn; eauto|].
    apply orb_false_elim in Hp as [Hp1 Hp2]. destruct (Hidle Hnf Hp1 Hp2) as [Hd1 Hd2].
    rewrite Hd1, Hd2 in Hd. done.
  - destruct Hf as [Hnf ->]. injection Hr as <- <- <-. split; [done|]. eauto.
  - injection Hr as <- <- <-. split; [done|]. cbn. eauto.
Qed.

Lemma msg_copy_after_read_spec e b r w fwd tail o b' w' :
  copy_after_read e b w = (o, (b', w')) → copy_ok fwd tail b r w → read_left_off e b →
  kept r w r w' ∧
  match o with
  | Some x => copy_post x b' r w'
  | None => (∃ fwd' tail', copy_ok fwd' tail' b' r w') ∧ (work b' r < work b r)%nat
  end.
Proof.
  unfold copy_after_read. intros Hr Hok Hoff.
  destruct (copy_write b w) as [[we b1] w1] eqn:Ew.
  destruct (copy_write_spec _ _ _ _ _ _ _ _ Ew Hok) as [Hk1 Hw1]. clear Ew.
  destruct we as [| | |x]; [| | |injection Hr as <- <- <-; split; [done|by apply copy_failed_post]];
    destruct Hw1 as [[fwd1 Hok1] Hw1];
    destruct (copy_ping _ b1 w1) as [[pe b2] w2] eqn:Ep;
    destruct (msg_copy_ping_spec _ _ _ _ _ _ _ _ _ Ep Hok1) as [Hk2 Hp2]; clear Ep;
    pose proof (kept_trans _ _ _ _ _ _ Hk1 Hk2) as Hk12;
    (destruct pe as [| | |x]; [| | |injection Hr as <- <- <-; split; [done|by apply copy_failed_post]]);
    destruct Hp2 as [Hok2 Hp2].
  all: match type of Hr with _ = (?o, (?b', ?w')) =>
    assert (kept r w2 r w' ∧ match o with
      | Some x => copy_post x b' r w'
      | None => (∃ fwd' tail', copy_ok fwd' tail' b' r w') ∧ (work b' r < work b r)%nat end) as [Hk3 Hpost];
      [|split; [by eapply kept_trans|done]] end.
  all: eapply copy_finish_spec; [exact Hr|exact Hok2|..]; clear Hr Hok2 Hok1 Hk1 Hk2 Hk12.
  all: clear - Hoff Hw1 Hp2; unfold work, read_left_off in *;
    repeat match goal with Hx : _ ∧ _ |- _ => destruct Hx | Hx : ∃ f, _ |- _ => destruct Hx as [[] ?] end;
    subst; destruct b as [rd nf np cl bu rc]; cbn in *; intros;
    destruct e, nf, np, cl; cbn in *; try done; try lia;
    destruct Hoff; try lia; done.
Qed.

(** One round: it returns, or there is less left to do. *)
Lemma msg_copy_round_spec b r w fwd tail o b' r' w' :
  copy_round b r w = (o, (b', r', w')) → copy_ok fwd tail b r w →
  kept r w r' w' ∧
  match o with
  | Some x => copy_post x b' r' w'
  | None => (∃ fwd' tail', copy_ok fwd' tail' b' r' w') ∧ (work b' r' < work b r)%nat
  end.
Proof.
  unfold copy_round. intros Hr Hok. destruct (copy_read b r) as [[re b1] r1] eqn:Er.
  destruct (copy_read_spec _ _ _ _ _ _ _ _ Er Hok) as [Hk1 Hre]. clear Er.
  destruct re as [| | |x]; [| | |injection Hr as <- <- <- <-; split; [done|by apply copy_failed_post]];
    destruct (copy_after_read _ b1 w) as [o1 [b2 w2]] eqn:Ea; injection Hr as <- <- <- <-;
    destruct Hre as ([tail1 Hok1] & Hwork & _ & Hoff);
    (destruct (msg_copy_after_read_spec _ _ _ _ _ _ _ _ _ Ea Hok1) as [Hk2 Hpost]; [cbn; tauto|]);
    (split; [by eapply kept_trans|]); destruct o1; try done; destruct Hpost; (split; [done|lia]).
Qed.

Lemma msg_copy_loop_spec fuel b r w fwd tail x b' r' w' :
  copy_loop fuel b r w = (x, (b', r', w')) → copy_ok fwd tail b r w → (work b r ≤ fuel)%nat →
  kept r w r' w' ∧ copy_post x b' r' w'.
Proof.
  revert b r w fwd tail. induction fuel as [|fuel IH]; intros b r w fwd tail Hr Hok Hf; cbn [copy_loop] in Hr;
    destruct (copy_round b r w) as [[y|] [[b1 r1] w1]] eqn:E;
    destruct (msg_copy_round_spec _ _ _ _ _ _ _ _ _ E Hok) as [Hk Hp].
  - by injection Hr as <- <- <- <-.
  - destruct Hp as [_ ?]. lia.
  - by injection Hr as <- <- <- <-.
  - destruct Hp as [(fwd1 & tail1 & Hok1) Hw]. destruct (IH _ _ _ _ _ Hr Hok1 ltac:(lia)) as [Hk2 Hpost].
    split; [by eapply kept_trans|done].
Qed.

(** Where a direction stands in each of its states. *)
Definition dir_ok (st : TransferState) (b : CopyBuffer) (r : R) (w : W) : Prop :=
  match st with
  | Running => ∃ fwd tail, copy_ok fwd tail b r w
  | _ => msg_valid r ∧ msg_valid w ∧ length (buf b) = MESSAGE_BUFFER ∧
      ∃ fwd tail, msgs_got (fwd ++ tail) r0 r ∧ msgs_put fwd w0 w ∧ (tail = [] ∨ tail = [[]]) ∧
        Forall (fun m => m ≠ []) fwd
  end.

Definition transfer_post (x : poll (res unit)) (st : TransferState) (b : CopyBuffer) (r : R) (w : W)
    : Prop :=
  match x with
  | Ready (Ok _) => st = Done ∧ dir_ok st b r w
  | Pending => dir_ok st b r w
  | Ready (Err _) => copy_failed r w
  | Ready (Panic _) | Ready OutOfFuel => False
  end.

Lemma msg_transfer_shutdown_spec b r w x st' b' r' w' :
  transfer_shutdown b r w = (x, (st', b', r', w')) → dir_ok ShuttingDown b r w →
  kept r w r' w' ∧ transfer_post x st' b' r' w'.
Proof.
  unfold transfer_shutdown. intros Hr (Hvr & Hvw & Hl & fwd & tail & Hg & Hp & Ht & Hf).
  destruct (poll_shutdown_message w) as [y w1] eqn:E.
  destruct (shutdown_message_law w y w1 Hvw E) as (Hv & Hg1 & Hp1 & Hy).
  assert (kept r w r w1) as Hk by (split_and!; [apply put_refl|done..]).
  assert (msgs_put fwd w0 w1) as Hput by (by eapply put_nil_r).
  destruct y as [[[]|e0|p|]|]; try done; injection Hr as <- <- <- <- <-; (split; [done|]); cbn.
  - split; [done|]. eauto 10.
  - split_and!; [done..|]. exists fwd, tail, r. split_and!; [done| |done]. by destruct Ht as [->| ->]; cbn; lia.
  - eauto 10.
Qed.

Lemma msg_transfer_spec fuel coop st b r w x st' b' r' w' :
  transfer_one_direction fuel coop st b r w = (x, (st', b', r', w')) → dir_ok st b r w →
  (2 * reads_left r + 4 ≤ fuel)%nat →
  kept r w r' w' ∧ transfer_post x st' b' r' w'.
Proof.
  unfold transfer_one_direction. intros Hr Hok Hf. destruct st.
  - unfold poll_copy in Hr. destruct coop.
    2: { injection Hr as <- <- <- <- <-. split; [apply kept_refl|done]. }
    destruct Hok as (fwd & tail & Hok).
    destruct (copy_loop fuel b r w) as [y [[b1 r1] w1]] eqn:E.
    destruct (msg_copy_loop_spec _ _ _ _ _ _ _ _ _ _ E Hok) as [Hk Hp].
    { unfold work. repeat case_match; lia. }
    destruct y as [[u|e|p|]|]; try done; try (injection Hr as <- <- <- <- <-; by split).
    destruct Hp as ((fwd1 & tail1 & []) & Hd & Hc). rewrite (cached_nil _ Hc) in ok_got0.
    destruct (msg_transfer_shutdown_spec _ _ _ _ _ _ _ _ Hr) as [Hk2 Hp2].
    { split_and!; [done..|]. exists fwd1, tail1. split_and!; try done.
      destruct ok_tail0 as [->|(-> & _)]; [by left|by right]. }
    split; [by eapply kept_trans|done].
  - by eapply msg_transfer_shutdown_spec.
  - injection Hr as <- <- <- <- <-. split; [apply kept_refl|by split].
Qed.
End Direction.

(** Another direction may use the other halves of the streams meanwhile. *)
Section Halves.
Context {R W : Type} `{FiniteReads R} `{FiniteReads W}.

Lemma dir_ok_frame (r0 : R) (w0 : W) st b r w r' w' :
  dir_ok r0 w0 st b r w → kept w r w' r' → msg_valid r' → msg_valid w' → dir_ok r0 w0 st b r' w'.
Proof.
  intros Hok (Hp & Hs & Hg) Hr Hw. destruct st.
  - destruct Hok as (fwd & tail & []). exists fwd, tail.
    split; try done; [by eapply got_nil_r|by eapply put_nil_r|by rewrite Hs].
  - destruct Hok as (_ & _ & Hl & fwd & tail & Hg0 & Hp0 & Ht). split_and!; [done..|].
    exists fwd, tail. split_and!; [by eapply got_nil_r|by eapply put_nil_r|apply Ht..].
  - destruct Hok as (_ & _ & Hl & fwd & tail & Hg0 & Hp0 & Ht). split_and!; [done..|].
    exists fwd, tail. split_and!; [by eapply got_nil_r|by eapply put_nil_r|apply Ht..].
Qed.

Lemma copy_failed_frame (r0 : R) (w0 : W) r w r' w' :
  copy_failed r0 w0 r w → kept w r w' r' → msg_valid r' → msg_valid w' → copy_failed r0 w0 r' w'.
Proof.
  intros (_ & _ & fwd & rest & r1 & Hg & Hl & Hp) (Hp1 & _ & _) Hr Hw. split_and!; [done..|].
  exists fwd, rest, r1. split_and!; [done..|by eapply put_nil_r].
Qed.

Lemma dir_ok_set_ping (r0 : R) (w0 : W) st b r w :
  dir_ok r0 w0 st b r w → dir_ok r0 w0 st (set_need_write_ping (supports_ping w) b) r w.
Proof. destruct st; [|done..]. intros (fwd & tail & []). exists fwd, tail. by split. Qed.

Lemma dir_ok_delivers (r0 : R) (w0 : W) st b r w : dir_ok r0 w0 st b r w → copy_failed r0 w0 r w.
Proof.
  destruct st; [|intros (Hr & Hw & Hl & fwd & tail & Hg & Hp & Ht & _)..].
  - intros (fwd & tail & Hok). apply (copy_ok_failed _ _ _ _ _ _ _ _ _ Hok); [by destruct Hok..|apply put_refl].
  - split_and!; [done..|]. exists fwd, tail, r. split_and!; [done| |done]. destruct Ht as [->| ->]; cbn; lia.
  - split_and!; [done..|]. exists fwd, tail, r. split_and!; [done| |done]. destruct Ht as [->| ->]; cbn; lia.
Qed.

Lemma transfer_post_delivers (r0 : R) (w0 : W) x st b r w :
  transfer_post r0 w0 x st b r w → copy_failed r0 w0 r w.
Proof.
  destruct x as [[]|]; try done; [intros [_ Hd]|intros Hd]; by eapply dir_ok_delivers.
Qed.

Lemma dir_ok_reads (r0 : R) (w0 : W) st b r w :
  dir_ok r0 w0 st b r w → (reads_left r ≤ reads_left r0)%nat.
Proof.
  destruct st; [intros (fwd & tail & [])|intros (_ & _ & _ & fwd & tail & ok_got0 & _)..];
    apply reads_left_got in ok_got0; lia.
Qed.
End Halves.

(** ** Both directions *)

(** Messages [r0] sent were forwarded in order, all that were read but for one. *)
Definition delivered {R W} `{MessageStream R} `{MessageStream W} (r0 : R) (w0 w : W) : Prop :=
  ∃ fwd rest r1, msgs_got (fwd ++ rest) r0 r1 ∧ (length rest ≤ 1)%nat ∧ msgs_put fwd w0 w.

(** All that was read, but for the empty message that ended it, was forwarded. *)
Definition drained {R W} `{MessageStream R} `{MessageStream W} (r0 : R) (w0 : W) (r : R) (w : W) : Prop :=
  ∃ fwd tail, msgs_got (fwd ++ tail) r0 r ∧ msgs_put fwd w0 w ∧ (tail = [] ∨ tail = [[]]) ∧
    Forall (fun m => m ≠ []) fwd.

Section Both.
Context {A B : Type} `{FiniteReads A} `{FiniteReads B} (a0 : A) (b0 : B).
Abbreviation Bidi := (CopyBidirectional (A := A) (B := B)).

Definition bidi_ok (c : Bidi) : Prop :=
  dir_ok a0 b0 (a_to_b c) (a_buf c) (side_a c) (side_b c) ∧
  dir_ok b0 a0 (b_to_a c) (b_buf c) (side_b c) (side_a c).

Definition bidi_ended (c : Bidi) : Prop :=
  msg_valid (side_a c) ∧ msg_valid (side_b c) ∧ delivered a0 b0 (side_b c) ∧ delivered b0 a0 (side_a c).

Definition bidi_post (t : Z) (x : poll (res unit)) (c : Bidi) : Prop :=
  match x with
  | Pending => bidi_ok c
  | Ready (Ok _) => bidi_ended c ∧
      (drained a0 b0 (side_a c) (side_b c) ∨ drained b0 a0 (side_b c) (side_a c) ∨
       ASSOCIATION_TIMEOUT ≤ elapsed t (last_active c))
  | Ready (Err _) => bidi_ended c
  | Ready (Panic _) | Ready OutOfFuel => False
  end.

Lemma ended_of_posts a b x1 s1 b1 x2 s2 b2 t1 t2 la :
  transfer_post a0 b0 x1 s1 b1 a b → transfer_post b0 a0 x2 s2 b2 b a →
  bidi_ended (MkBidi a b b1 b2 t1 t2 la).
Proof.
  intros Hp1%transfer_post_delivers Hp2%transfer_post_delivers.
  destruct Hp1 as (? & ? & ?), Hp2 as (_ & _ & ?). by split_and!.
Qed.

Lemma msg_bidirectional_poll_spec fuel t c x c' :
  bidirectional_poll fuel t c = (x, c') → bidi_ok c →
  (2 * reads_left a0 + 4 ≤ fuel)%nat → (2 * reads_left b0 + 4 ≤ fuel)%nat → bidi_post (now t) x c'.
Proof.
  unfold bidirectional_poll. intros Hr [Hab Hba] Hf1 Hf2. cbv zeta in Hr.
  set (buf1 := if ping_fired t then _ else a_buf c) in Hr.
  set (buf2 := if ping_fired t then _ else b_buf c) in Hr.
  assert (dir_ok a0 b0 (a_to_b c) buf1 (side_a c) (side_b c)) as Hab1
    by (unfold buf1; destruct (ping_fired t); [by apply dir_ok_set_ping|done]).
  assert (dir_ok b0 a0 (b_to_a c) buf2 (side_b c) (side_a c)) as Hba1
    by (unfold buf2; destruct (ping_fired t); [by apply dir_ok_set_ping|done]).
  destruct (transfer_one_direction fuel _ (a_to_b c) buf1 _ _) as [x1 [[[s1 b1] ra] wb]] eqn:E1.
  pose proof (dir_ok_reads _ _ _ _ _ _ Hab1) as Hl1. pose proof (dir_ok_reads _ _ _ _ _ _ Hba1) as Hl2.
  destruct (msg_transfer_spec _ _ _ _ _ _ _ _ _ _ _ _ _ E1 Hab1 ltac:(lia)) as [Hk1 Hp1].
  destruct (transfer_post_delivers _ _ _ _ _ _ _ Hp1) as (Hva & Hvb & _).
  pose proof (dir_ok_frame _ _ _ _ _ _ _ _ Hba1 Hk1 Hvb Hva) as Hba2.
  destruct (transfer_one_direction fuel _ (b_to_a c) buf2 wb ra) as [x2 [[[s2 b2] rb] wa]] eqn:E2.
  pose proof (dir_ok_reads _ _ _ _ _ _ Hba2) as Hl3.
  destruct (msg_transfer_spec _ _ _ _ _ _ _ _ _ _ _ _ _ E2 Hba2 ltac:(lia)) as [Hk2 Hp2].
  destruct (transfer_post_delivers _ _ _ _ _ _ _ Hp2) as (Hvb' & Hva' & _).
  assert (transfer_post a0 b0 x1 s1 b1 wa rb) as Hp1'.
  { destruct x1 as [[u|e|p|]|]; try done; cbn in *.
    - split; [apply Hp1|]. destruct Hp1. by eapply dir_ok_frame.
    - by eapply copy_failed_frame.
    - by eapply dir_ok_frame. }
  set (a_to := negb (read_count b1 =? _) || _) in Hr.
  assert (∀ la, bidi_post (now t) (if is_ready x1 then x1 else if is_ready x2 then x2 else Pending)
    (MkBidi wa rb b1 b2 s1 s2 la)) as Hpost.
  { intros la. pose proof (ended_of_posts _ _ _ _ _ _ _ _ s1 s2 la Hp1' Hp2) as Hend.
    destruct x1 as [[u|e|p|]|]; try done; cbn [is_ready].
    - destruct Hp1' as [-> (_ & _ & _ & Hd)]. split; [done|by left].
    - destruct x2 as [[u|e|p|]|]; try done; cbn [is_ready bidi_post].
      + destruct Hp2 as [-> (_ & _ & _ & Hd)]. split; [done|right; by left]. }
  destruct a_to; [by injection Hr as <- <-|].
  destruct (ASSOCIATION_TIMEOUT <=? _) eqn:Ht; [|by injection Hr as <- <-]. zbool.
  injection Hr as <- <-. split; [by eapply ended_of_posts|]. right. by right.
Qed.

Lemma msg_bidirectional_run_spec fuel ts c x c' :
  bidirectional_run fuel ts c = (x, c') → bidi_ok c →
  (2 * reads_left a0 + 4 ≤ fuel)%nat → (2 * reads_left b0 + 4 ≤ fuel)%nat →
  match x with Pending => bidi_ok c' | _ => ∃ t, t ∈ ts ∧ bidi_post (now t) x c' end.
Proof.
  revert c. induction ts as [|t ts IH]; intros c Hr Hok Hf1 Hf2; cbn in Hr; [by injection Hr as <- <-|].
  destruct (bidirectional_poll fuel t c) as [y c1] eqn:E.
  pose proof (msg_bidirectional_poll_spec _ _ _ _ _ E Hok Hf1 Hf2) as Hp.
  destruct y as [r|].
  - injection Hr as <- <-. exists t. split; [left|done].
  - specialize (IH _ Hr Hp Hf1 Hf2). destruct x as [r|]; [|done].
    destruct IH as (t' & Hin & Hpost). exists t'. split; [by right|done].
Qed.

Lemma bidi_ok_start mem_a mem_b start fa fb :
  msg_valid a0 → msg_valid b0 → bidi_ok (copy_bidirectional_message mem_a mem_b start a0 b0 fa fb).
Proof.
  intros Ha Hb. split; exists [], []; split; cbn -[allocate_vec]; try done; try (by rewrite length_allocate_vec);
    try lia; try apply got_refl; try apply put_refl; by left.
Qed.

Lemma shutdown_message_spec {T} `{MessageStream T} fuel (s : T) :
  msg_valid s → msgs_got [] s (shutdown_message fuel s).2 ∧ msgs_put [] s (shutdown_message fuel s).2.
Proof.
  unfold shutdown_message. revert s. induction fuel as [|fuel IH]; intros s Hv; cbn [await];
    destruct (poll_shutdown_message s) as [[x|] s1] eqn:E;
    destruct (shutdown_message_law s _ s1 Hv E) as (Hv1 & Hg & Hp & _); try done.
  destruct (IH s1 Hv1). split; [by eapply got_nil_r|by eapply put_nil_r].
Qed.
End Both.

(** ** The idle timeout *)

Section Idle.
Context {A B : Type} `{FiniteReads A} `{FiniteReads B}.
Abbreviation Bidi := (CopyBidirectional (A := A) (B := B)).
Implicit Types c : Bidi.

(** Messages arrived between two states of a relay. *)
Definition counted c c' : Prop :=
  read_count (a_buf c') ≠ read_count (a_buf c) ∨ read_count (b_buf c') ≠ read_count (b_buf c).

Lemma poll_last_active fuel t c c' :
  bidirectional_poll fuel t c = (Pending, c') →
  (last_active c' = now t ∧ counted c c') ∨
  (last_active c' = last_active c ∧ elapsed (now t) (last_active c) < ASSOCIATION_TIMEOUT).
Proof.
  unfold bidirectional_poll, counted. intros Hr. cbv zeta in Hr.
  assert (∀ p b, read_count (if ping_fired t then set_need_write_ping p b else b) = read_count b) as Hc
    by (intros; by destruct (ping_fired t)). rewrite !Hc in Hr.
  destruct (transfer_one_direction fuel _ (a_to_b c) _ _ _) as [x1 [[[s1 b1] ra] wb]].
  destruct (transfer_one_direction fuel _ (b_to_a c) _ _ _) as [x2 [[[s2 b2] rb] wa]].
  destruct (negb _ || negb _) eqn:Hn.
  - left. injection Hr as _ <-. cbn. split; [done|].
    apply orb_prop in Hn as [Hn|Hn]; apply negb_true_iff in Hn; zbool; tauto.
  - right. destruct (ASSOCIATION_TIMEOUT <=? _) eqn:Ht; [done|]. injection Hr as _ <-. zbool. done.
Qed.

Lemma bidirectional_run_app fuel ts1 ts2 c :
  bidirectional_run fuel (ts1 ++ ts2) c =
    match bidirectional_run fuel ts1 c with
    | (Pending, c') => bidirectional_run fuel ts2 c'
    | x => x
    end.
Proof.
  revert c. induction ts1 as [|t ts1 IH]; intros c; cbn; [done|].
  by destruct (bidirectional_poll fuel t c) as [[]?].
Qed.

(** The last poll in which a message arrived, if there was one. *)
Lemma run_last_active fuel ts c c' :
  bidirectional_run fuel ts c = (Pending, c') →
  last_active c' = last_active c ∨
  ∃ ts1 t ts2 c1 c2, ts = ts1 ++ t :: ts2 ∧ bidirectional_run fuel ts1 c = (Pending, c1) ∧
    bidirectional_poll fuel t c1 = (Pending, c2) ∧ counted c1 c2 ∧ last_active c' = now t.
Proof.
  revert c'. induction ts as [|t ts IH] using rev_ind; intros c' Hr; [left; by injection Hr as <-|].
  rewrite bidirectional_run_app in Hr. destruct (bidirectional_run fuel ts c) as [[?|] c1] eqn:E; [done|].
  cbn in Hr. destruct (bidirectional_poll fuel t c1) as [[?|] c2] eqn:Ep; [done|]. injection Hr as <-.
  destruct (poll_last_active _ _ _ _ Ep) as [[Hl Hc]|[Hl _]].
  - right. exists ts, t, [], c1, c2. by split_and!.
  - rewrite Hl. destruct (IH _ eq_refl) as [?|(ts1 & t1 & ts2 & d1 & d2 & -> & Hs)]; [by left|].
    destruct Hs as (? & ? & ? & ?). right. exists ts1, t1, (ts2 ++ [t]), d1, d2. rewrite <-app_assoc.
    by split_and!.
Qed.
End Idle.

Lemma run_udp_copy_spec {A B : Type} `{FiniteReads A} `{FiniteReads B} (mem_a mem_b : nat → byte)
    (start : Z) (fuel waits : nat) (ts : list tick) (fa fb : bool) (a a' : A) (b b' : B) (r : res unit) :
  msg_valid a → msg_valid b →
  (2 * reads_left a + 4 ≤ fuel)%nat → (2 * reads_left b + 4 ≤ fuel)%nat →
  run_udp_copy mem_a mem_b start fuel waits ts fa fb a b = (r, (a', b')) →
  panics r = false ∧ delivered a b b' ∧ delivered b a a'.
Proof.
  intros Ha Hb Hf1 Hf2 Hr. unfold run_udp_copy in Hr.
  destruct (bidirectional_run fuel ts _) as [x c] eqn:E.
  pose proof (msg_bidirectional_run_spec a b _ _ _ _ _ E (bidi_ok_start _ _ _ _ _ _ _ Ha Hb) Hf1 Hf2) as Hp.
  destruct x as [x|].
  2: { injection Hr as <- <- <-. destruct Hp as [Hp1 Hp2]. split; [done|].
       apply dir_ok_delivers in Hp1 as (_ & _ & ?), Hp2 as (_ & _ & ?). by split_and!. }
  destruct Hp as (t & Hin & Hp).
  assert (bidi_ended a b c) as (Hva & Hvb & (f1 & l1 & r1 & Hg1 & Hl1 & Hp1) & (f2 & l2 & r2 & Hg2 & Hl2 & Hp2))
    by (destruct x; try done; apply Hp).
  injection Hr as <- <- <-.
  destruct (shutdown_message_spec waits _ Hva) as [Hga Hpa].
  destruct (shutdown_message_spec waits _ Hvb) as [Hgb Hpb].
  split_and!; [by destruct x|..].
  - exists f1, l1, r1. split_and!; [done..|by eapply put_nil_r].
  - exists f2, l2, r2. split_and!; [done..|by eapply put_nil_r].
Qed.

(** ** Properties *)


(** C26: every poll of a relay returns: the loops of [poll_copy] end after two rounds for
    each message the peer still sends, and four more. *)
Theorem relay_polls_return {A B : Type} `{FiniteReads A} `{FiniteReads B} (mem_a mem_b : nat → byte)
    (start : Z) (fuel : nat) (ts : list tick) (fa fb : bool) (a : A) (b : B) :
  msg_valid a → msg_valid b →
  (2 * reads_left a + 4 ≤ fuel)%nat → (2 * reads_left b + 4 ≤ fuel)%nat →
  poll_returns (bidirectional_run fuel ts (copy_bidirectional_message mem_a mem_b start a b fa fb)).1.
Proof.
  intros Ha Hb Hf1 Hf2. destruct (bidirectional_run fuel ts _) as [x c] eqn:E.
  pose proof (msg_bidirectional_run_spec a b _ _ _ _ _ E (bidi_ok_start _ _ _ _ _ _ _ Ha Hb) Hf1 Hf2) as Hp.
  destruct x as [x|]; [|done]. destruct Hp as (t & _ & Hp). by destruct x.
Qed.

(** C27: a relay that is still waiting after a poll has started, or seen a message, less than
    200 s before it: an idle relay ends at the first poll after that. *)
Theorem relay_idle_ends {A B : Type} `{FiniteReads A} `{FiniteReads B} (mem_a mem_b : nat → byte)
    (start : Z) (fuel : nat) (ts : list tick) (t : tick) (fa fb : bool) (a : A) (b : B)
    (c : CopyBidirectional (A := A) (B := B)) :
  let c0 := copy_bidirectional_message mem_a mem_b start a b fa fb in
  bidirectional_run fuel (ts ++ [t]) c0 = (Pending, c) →
  elapsed (now t) start < ASSOCIATION_TIMEOUT ∨
  ∃ ts1 t1 ts2 c1 c2, ts ++ [t] = ts1 ++ t1 :: ts2 ∧ bidirectional_run fuel ts1 c0 = (Pending, c1) ∧
    bidirectional_poll fuel t1 c1 = (Pending, c2) ∧ counted c1 c2 ∧
    elapsed (now t) (now t1) < ASSOCIATION_TIMEOUT.
Proof.
  intros c0 Hr. rewrite bidirectional_run_app in Hr.
  destruct (bidirectional_run fuel ts c0) as [[?|] c1] eqn:E; [done|].
  cbn in Hr. destruct (bidirectional_poll fuel t c1) as [[?|] c2] eqn:Ep; [done|].
  destruct (poll_last_active _ _ _ _ Ep) as [[Hl Hc]|[Hl Ht]].
  - right. exists ts, t, [], c1, c2. split_and!; try done. unfold elapsed. by rewrite Z.sub_diag.
  - destruct (run_last_active _ _ _ _ E) as [Hs|(ts1 & t1 & ts2 & d1 & d2 & -> & Hs)].
    + left. rewrite Hs in Ht. done.
    + right. exists ts1, t1, (ts2 ++ [t]), d1, d2. rewrite <-app_assoc.
      destruct Hs as (? & ? & ? & Hs). rewrite Hs in Ht. by split_and!.
Qed.

(** A socket that delivers the datagrams of a script, [None] standing for a wait. *)
Record Inbox : Set := MkInbox { arrivals : list (option bytes); departures : list bytes }.

#[export] Instance Inbox_datagrams : Datagrams Inbox := {|
  poll_recv_dgram n k :=
    match arrivals k with
    | Some d :: l => (Ready (Ok (take n d)), MkInbox l (departures k))
    | None :: l => (Pending, MkInbox l (departures k))
    | [] => (Pending, k)
    end;
  poll_send_dgram d k := (Ready (Ok (length d)), MkInbox (arrivals k) (departures k ++ [d])) |}.

(** Datagrams may arrive cut to the buffer they were read into. *)
Definition inbox_got (ds : list bytes) (k k' : Inbox) : Prop :=
  ∃ full, omap id (arrivals k) = full ++ omap id (arrivals k') ∧ Forall2 (fun d f => d `prefix_of` f) ds full.

#[export] Instance Inbox_laws : DatagramLaws Inbox.
Proof.
  refine {| dgrams_got := inbox_got; dgrams_sent := departures;
            dgrams_left k := length (omap id (arrivals k)) |}.
  - intros k. by exists [].
  - intros d1 d2 k1 k2 k3 (f1 & E1 & Hf1) (f2 & E2 & Hf2). exists (f1 ++ f2).
    split; [by rewrite E1, E2, app_assoc|by apply Forall2_app].
  - intros d k k' (f & -> & Hf). rewrite length_app, <-(Forall2_length _ _ _ Hf). lia.
  - intros n [[|[d|] l] o] x k' [= <- <-]; (split; [done|]); cbn.
    + by exists [].
    + split; [rewrite length_take; lia|]. exists [d]. split; [done|]. constructor; [|done].
      exists (drop n d). by rewrite take_drop.
    + by exists [].
  - intros d k x k' [= <- <-]. split_and!; [by exists []|done..].
Defined.

(** A client's messages to a UDP socket and the answers, over 100 s, then silence. *)
Definition demo_ticks : list tick :=
  [MkTick false true true 0; MkTick true true false (10 ^ 9); MkTick false true true (100 * 10 ^ 9)].

Definition demo_server : VlessMessageStream (QuicStream Sink Script) :=
  vless_new (fun _ => x00)
    (MkQuic (MkSink [] [WAccept 0; WPending])
       (MkScript ([EData x00 []; EPending; EData x02 [x0a; x0b; x00; x01; x0c]] ++ repeat EPending 20))).

Definition demo_client : UdpSocket Inbox := MkUdp (MkInbox ([None; None; Some [x07]] ++ repeat None 20) []).

Definition demo_relay (ts : list tick) :=
  run_udp_copy (fun _ => x00) (fun _ => x00) 0 100 3 ts true false demo_server demo_client.

Lemma demo_server_valid : msg_valid demo_server.
Proof. split_and!; [apply length_allocate_vec|cbn; lia..]. Qed.

Lemma demo_client_valid : msg_valid demo_client.
Proof. exact I. Qed.

Lemma demo_relay_result :
  let x := demo_relay (demo_ticks ++ [MkTick false true true (400 * 10 ^ 9)]) in
  x.1 = Ok tt ∧ departures (udp_io x.2.2) = [[x0a; x0b]; [x0c]].
Proof. vm_compute. done. Qed.

Lemma demo_relay_fuel : (2 * reads_left demo_server + 4 ≤ 100)%nat ∧ (2 * reads_left demo_client + 4 ≤ 100)%nat.
Proof. vm_compute. lia. Qed.

Lemma pair_eta {X Y Z} (p : X * (Y * Z)) : p = (p.1, (p.2.1, p.2.2)).
Proof. by destruct p as [? []]. Qed.


Lemma relay_polls_return_witness :
  poll_returns (bidirectional_run 100 demo_ticks
    (copy_bidirectional_message (fun _ => x00) (fun _ => x00) 0 demo_server demo_client true false)).1.
Proof.
  destruct demo_relay_fuel as [Hf1 Hf2]. exact (relay_polls_return _ _ _ _ _ _ _ _ _ demo_server_valid demo_client_valid Hf1 Hf2).
Defined.

(** Still waiting at 250 s, because a message arrived at 100 s. *)
Definition demo_late : tick := MkTick false true true (250 * 10 ^ 9).
Definition demo_start : CopyBidirectional :=
  copy_bidirectional_message (fun _ => x00) (fun _ => x00) 0 demo_server demo_client true false.

Lemma demo_waits : (bidirectional_run 100 (demo_ticks ++ [demo_late]) demo_start).1 = Pending.
Proof. vm_compute. reflexivity. Qed.

Lemma demo_not_early : ~ elapsed (now demo_late) 0 < ASSOCIATION_TIMEOUT.
Proof. vm_compute. intros Hx. discriminate Hx. Qed.

Lemma relay_idle_ends_witness :
  ∃ ts1 t1 ts2 c1 c2, demo_ticks ++ [demo_late] = ts1 ++ t1 :: ts2 ∧
    bidirectional_run 100 ts1 demo_start = (Pending, c1) ∧ bidirectional_poll 100 t1 c1 = (Pending, c2) ∧
    counted c1 c2 ∧ elapsed (now demo_late) (now t1) < ASSOCIATION_TIMEOUT.
Proof.
  destruct (bidirectional_run 100 (demo_ticks ++ [demo_late]) demo_start) as [x c] eqn:E.
  pose proof demo_waits as Hw. rewrite E in Hw. cbn [fst] in Hw. subst x.
  destruct (relay_idle_ends _ _ _ _ _ _ _ _ _ _ _ E) as [Hs|Hs]; [by destruct demo_not_early|exact Hs].
Defined.
