(* ===== verification/UdpRouting.v ===== *)
(** * Routing packets to their destinations (src/udp_relay.rs, [run_udp_routing])

    Each packet a client sends carries its destination; the loop keeps one UDP
    socket per destination, with a task that puts what arrives on it into a
    channel, and writes what the channel holds to the client.  The socket calls
    and the system resolver are parameters. *)

From Stdlib Require Import String.
From S2P Require Import Prelude RustStd Address AsyncStream LruCache Resolver Dial QuicStream VlessStream PacketStream UdpCopy.

(** ** Targeted message streams *)

Class AsyncReadTargetedMessage (T : Type) : Type :=
  poll_read_targeted : nat → T → poll (res (NetLocation * bytes)) * T.
Class AsyncWriteSourcedMessage (T : Type) : Type :=
  poll_write_sourced : bytes → SocketAddr → T → poll (res unit) * T.

(** [tgt_got ps s s']: between [s] and [s'] exactly the packets [ps] were read;
    [tgt_put rs s s']: exactly the packets [rs] were taken for the client;
    [tgt_done s]: the peer's packets have all been read, and it has closed.  The end
    of the stream is read as an empty packet to [UNSPECIFIED]. *)
Class TargetedStream (T : Type) `{AsyncReadTargetedMessage T} `{AsyncWriteSourcedMessage T}
    `{AsyncFlushMessage T} `{AsyncShutdownMessage T} : Type := {
  tgt_valid : T → Prop;
  tgt_got : list (NetLocation * bytes) → T → T → Prop;
  tgt_put : list (SocketAddr * bytes) → T → T → Prop;
  tgt_done : T → Prop;
  tgt_got_refl s : tgt_got [] s s;
  tgt_got_trans p1 p2 s1 s2 s3 : tgt_got p1 s1 s2 → tgt_got p2 s2 s3 → tgt_got (p1 ++ p2) s1 s3;
  tgt_put_refl s : tgt_put [] s s;
  tgt_put_trans r1 r2 s1 s2 s3 : tgt_put r1 s1 s2 → tgt_put r2 s2 s3 → tgt_put (r1 ++ r2) s1 s3;
  read_targeted_law n (s : T) x s' : (MESSAGE_BUFFER ≤ n)%nat → tgt_valid s →
    poll_read_targeted n s = (x, s') →
    tgt_valid s' ∧ tgt_put [] s s' ∧
    match x with
    | Ready (Ok (loc, m)) => tgt_got [(loc, m)] s s' ∨ loc = netloc_unspecified ∧ tgt_got [] s s' ∧ tgt_done s'
    | Pending => tgt_got [] s s'
    | Ready (Err _) => True
    | Ready (Panic _) | Ready OutOfFuel => False
    end;
  write_sourced_law m source (s : T) x s' : tgt_valid s → poll_write_sourced m source s = (x, s') →
    tgt_valid s' ∧ tgt_got [] s s' ∧ poll_returns x ∧
    tgt_put (if ready_ok x then [(source, m)] else []) s s';
  flush_targeted_law (s : T) x s' : tgt_valid s → poll_flush_message s = (x, s') →
    tgt_valid s' ∧ tgt_got [] s s' ∧ tgt_put [] s s' ∧ poll_returns x;
  shutdown_targeted_law (s : T) x s' : tgt_valid s → poll_shutdown_message s = (x, s') →
    tgt_valid s' ∧ tgt_got [] s s' ∧ tgt_put [] s s' ∧ poll_returns x }.

(** ** The loop *)

(** [socket] and [cancel] name the socket and its token; a token's task runs until
    it is cancelled. *)
Record Session : Set := MkSession { socket : nat; cancel : nat; last_activity : Z }.

(** What the loop does to the world: a socket with its task, a datagram sent, a
    token cancelled. *)
Inductive effect : Set :=
| Created (socket : nat) (dest : NetLocation) (ipv6 : bool)
| SentTo (socket : nat) (dest : NetLocation) (payload : bytes) (addr : SocketAddr)
| Cancelled (cancel : nat).

Definition CLEANUP_INTERVAL : Z := 10 * 10 ^ 9.

(** How a turn of the loop ends: with the next turn, with [break], still waiting when
    the polls run out, or in a panic. *)
Inductive flow : Set := Continue | Break | Waiting | Crash.

Section Routing.
Context {T C K : Type} `{AsyncReadTargetedMessage T} `{AsyncWriteSourcedMessage T}
  `{AsyncFlushMessage T} `{AsyncShutdownMessage T} `{!Lru bytes CacheEntry C} `{SocketSys K}.
(** The system resolver. *)
Context (system : bytes → Z → res (list SocketAddr)).

Record routing : Type := MkRouting {
  server : T; resolver : Resolver (C := C); sys : K; response_rx : list (SocketAddr * bytes);
  sessions : gmap NetLocation Session; last_cleanup : Z; next_socket : nat; effects : list effect }.

Definition set_server (s : T) (st : routing) : routing :=
  MkRouting s (resolver st) (sys st) (response_rx st) (sessions st) (last_cleanup st) (next_socket st) (effects st).
Definition set_responses (q : list (SocketAddr * bytes)) (st : routing) : routing :=
  MkRouting (server st) (resolver st) (sys st) q (sessions st) (last_cleanup st) (next_socket st) (effects st).
Definition set_resolver (r : Resolver) (st : routing) : routing :=
  MkRouting (server st) r (sys st) (response_rx st) (sessions st) (last_cleanup st) (next_socket st) (effects st).

(** [sessions.retain(..)] every ten seconds. *)
Definition routing_cleanup (now : Z) (st : routing) : routing :=
  if CLEANUP_INTERVAL <=? elapsed now (last_cleanup st) then
    let idle s := ASSOCIATION_TIMEOUT <? elapsed now (last_activity s) in
    let removed := filter (fun kv => idle kv.2 = true) (sessions st) in
    MkRouting (server st) (resolver st) (sys st) (response_rx st)
      (filter (fun kv => idle kv.2 = false) (sessions st)) now (next_socket st)
      (effects st ++ ((fun kv => Cancelled (cancel kv.2)) <$> map_to_list removed))
  else st.

Inductive selected : Set :=
| Response (source : SocketAddr) (payload : bytes)
| Inbound (result : res (NetLocation * bytes)).

(** The times a packet sees: at the resolver's cache, at its store, and after it. *)
Record packet_times : Set := MkTimes { t_cache : Z; t_store : Z; t_now : Z }.

(** One poll of the [select!]: what the tasks have put into the channel since the last
    poll, the time of the cleanup, if the turn starts with this poll, and the times
    of the packet, if one is read. *)
Record tick : Set := MkTick {
  t_arrived : list (SocketAddr * bytes); t_cleanup : Z; t_packet : packet_times }.

(** A poll of the future of [read_targeted_message]: the destination, and the payload put
    at the front of the loop's buffer. *)
Definition read_targeted_message (s : T) : poll (res (NetLocation * bytes)) * T :=
  poll_read_targeted MESSAGE_BUFFER s.

(** The [select!] is biased, and takes responses only while there are sessions; [None]
    while neither branch is ready. *)
Definition routing_select (t : tick) (st : routing) : option selected * routing :=
  let st := set_responses (response_rx st ++ t_arrived t) st in
  match (if decide (sessions st = ∅) then [] else response_rx st) with
  | (source, payload) :: q => (Some (Response source payload), set_responses q st)
  | [] =>
      match read_targeted_message (server st) with
      | (Ready r, s) => (Some (Inbound r), set_server s st)
      | (Pending, s) => (None, set_server s st)
      end
  end.

(** [write_sourced_message]: each await may take [waits] more polls. *)
Definition write_sourced_message (waits : nat) (payload : bytes) (source : SocketAddr) : M T unit :=
  await waits (poll_write_sourced payload source) ;; await waits poll_flush_message.

(** [get_mut(&destination)], the update of its activity, and [send_to], whose result is
    ignored. *)
Definition send_packet (now : Z) (destination : NetLocation) (payload : bytes) (addr : SocketAddr)
    (s : Session) (st : routing) : routing :=
  MkRouting (server st) (resolver st) (sys st) (response_rx st)
    (<[destination := MkSession (socket s) (cancel s) now]> (sessions st)) (last_cleanup st)
    (next_socket st) (effects st ++ [SentTo (socket s) destination payload addr]).

(** [create_session], the spawn of its [recv_loop] and the insertion.  Sockets and tokens
    are numbered in the order they are made. *)
Definition create_session (is_ipv6 : bool) (st : routing) : res (nat * nat) * K :=
  let '(r, k) := new_udp_socket is_ipv6 (sys st) in
  ((fun _ => (next_socket st, next_socket st)) <$> r, k).

Definition open_session (now : Z) (destination : NetLocation) (ipv6 : bool) (st : routing)
    : res Session * routing :=
  let '(r, k) := create_session ipv6 st in
  let st := MkRouting (server st) (resolver st) k (response_rx st) (sessions st) (last_cleanup st)
              (next_socket st) (effects st) in
  match r with
  | Ok (socket, cancel) =>
      let s := MkSession socket cancel now in
      (Ok s, MkRouting (server st) (resolver st) k (response_rx st) (<[destination := s]> (sessions st))
               (last_cleanup st) (S (next_socket st)) (effects st ++ [Created socket destination ipv6]))
  | Err e => (Err e, st)
  | Panic w => (Panic w, st)
  | OutOfFuel => (OutOfFuel, st)
  end.

Definition route_packet (t : packet_times) (destination : NetLocation) (payload : bytes) (st : routing)
    : flow * routing :=
  if is_unspecified destination then (Break, st)
  else
    let '(a, rv) := resolve system (t_cache t) (t_store t) destination (resolver st) in
    let st := set_resolver rv st in
    match a with
    | Ok addr =>
        match sessions st !! destination with
        | Some s => (Continue, send_packet (t_now t) destination payload addr s st)
        | None =>
            match open_session (t_now t) destination (is_ipv6_addr addr) st with
            | (Ok s, st) => (Continue, send_packet (t_now t) destination payload addr s st)
            | (Err _, st) => (Continue, st)
            | (_, st) => (Crash, st)
            end
        end
    | Err _ => (Continue, st)
    | _ => (Crash, st)
    end.

(** The handler of the branch taken. *)
Definition routing_handle (waits : nat) (t : packet_times) (sel : selected) (st : routing)
    : flow * routing :=
  match sel with
  | Response source payload =>
      let '(r, s) := write_sourced_message waits payload source (server st) in
      (match r with Ok _ => Continue | Err _ => Break | OutOfFuel => Waiting | Panic _ => Crash end,
       set_server s st)
  | Inbound (Ok (destination, payload)) => route_packet t destination payload st
  | Inbound (Err _) => (Break, st)
  | Inbound _ => (Crash, st)
  end.

(** After the loop: every session is cancelled, and the stream shut down. *)
Definition routing_finish (waits : nat) (st : routing) : routing :=
  MkRouting (shutdown_message waits (server st)).2 (resolver st) (sys st) (response_rx st) ∅ (last_cleanup st)
    (next_socket st) (effects st ++ ((fun kv => Cancelled (cancel kv.2)) <$> map_to_list (sessions st))).

(** The [loop], one tick for each poll of its [select!]; [starting] at the top of a turn.
    [OutOfFuel]: still running when the ticks end. *)
Fixpoint routing_loop (waits : nat) (starting : bool) (ts : list tick) (st : routing)
    : res unit * routing :=
  match ts with
  | [] => (OutOfFuel, st)
  | t :: ts' =>
      let st := if starting then routing_cleanup (t_cleanup t) st else st in
      match routing_select t st with
      | (None, st) => routing_loop waits false ts' st
      | (Some sel, st) =>
          match routing_handle waits (t_packet t) sel st with
          | (Continue, st) => routing_loop waits true ts' st
          | (Break, st) => (Ok tt, routing_finish waits st)
          | (Waiting, st) => (OutOfFuel, st)
          | (Crash, st) => (Panic "UDP routing", st)
          end
      end
  end.

Definition run_udp_routing (waits : nat) (start : Z) (ts : list tick) (s : T) (rv : Resolver (C := C))
    (k : K) : res unit * routing :=
  routing_loop waits true ts (MkRouting s rv k [] ∅ start 0 []).
End Routing.
Arguments routing T C K : clear implicits.

(** [recv_loop], the task of a session: an event is what its [select!] picks.  The
    result, none while it runs, and what it put into the channel. *)
Inductive recv_event : Set :=
| RecvCancelled
| Received (result : res (bytes * SocketAddr)) (tx_open : bool).

Fixpoint recv_loop (es : list recv_event) : option (res unit) * list (SocketAddr * bytes) :=
  match es with
  | [] => (None, [])
  | RecvCancelled :: _ => (Some (Ok tt), [])
  | Received (Ok (payload, source)) true :: es' =>
      let '(r, out) := recv_loop es' in (r, (source, payload) :: out)
  | Received (Ok _) false :: _ => (Some (Ok tt), [])
  | Received (Err e) _ :: _ => (Some (Err e), [])
  | Received (Panic w) _ :: _ => (Some (Panic w), [])
  | Received OutOfFuel _ :: _ => (Some OutOfFuel, [])
  end.

(** ** The session table *)

(** The tokens of the tasks that run. *)
Definition live (es : list effect) : gset nat :=
  foldl (fun s e => match e with
                    | Created k _ _ => {[k]} ∪ s
                    | Cancelled k => s ∖ {[k]}
                    | SentTo _ _ _ _ => s
                    end) ∅ es.

Lemma live_created es k d v : live (es ++ [Created k d v]) = {[k]} ∪ live es.
Proof. unfold live. by rewrite foldl_app. Qed.

Lemma live_sent es k d p a : live (es ++ [SentTo k d p a]) = live es.
Proof. unfold live. by rewrite foldl_app. Qed.

Lemma live_cancelled es (l : list (NetLocation * Session)) k :
  k ∈ live (es ++ ((fun kv => Cancelled (cancel kv.2)) <$> l)) ↔
  k ∈ live es ∧ ∀ d s, (d, s) ∈ l → cancel s ≠ k.
Proof.
  revert es. induction l as [|[d s] l IH]; intros es; cbn [fmap list_fmap].
  - rewrite app_nil_r. split; [|tauto]. intros ?. split; [done|]. by intros d s []%not_elem_of_nil.
  - rewrite (cons_middle _ es), app_assoc, IH. unfold live at 1. rewrite foldl_app. cbn [foldl snd]. fold (live es).
    split.
    + intros [Hk Hl]. split; [set_solver|]. intros d' s' [Heq|Hin]%elem_of_cons; [|by eapply Hl].
      injection Heq as -> ->. set_solver.
    + intros [Hk Hl]. split; [|intros d' s' Hin; eapply Hl; by right].
      assert (cancel s ≠ k) by (apply (Hl d); left). set_solver.
Qed.

(** The table against the world: the tasks that run are those of the sessions in it,
    and every socket was made for one destination. *)
Record table_ok (m : gmap NetLocation Session) (n : nat) (es : list effect) : Prop := {
  tb_live k : k ∈ live es ↔ ∃ d s, m !! d = Some s ∧ cancel s = k;
  tb_made d s : m !! d = Some s → socket s = cancel s ∧ ∃ v, Created (socket s) d v ∈ es;
  tb_fresh k d v : Created k d v ∈ es → (k < n)%nat;
  tb_owner k d1 v1 d2 v2 : Created k d1 v1 ∈ es → Created k d2 v2 ∈ es → d1 = d2;
  tb_sent k d p a : SentTo k d p a ∈ es → ∃ v, Created k d v ∈ es }.

Lemma table_empty n : table_ok ∅ n [].
Proof.
  split; try (intros; by match goal with Hx : _ ∈ [] |- _ => apply not_elem_of_nil in Hx end).
  - intros k. split; [set_solver|]. by intros (d & s & ?%lookup_empty_Some & _).
  - by intros d s ?%lookup_empty_Some.
Qed.

(** Sessions dropped from the table, each with its token cancelled. *)
Lemma table_cancel (P : NetLocation * Session → Prop) `{∀ kv, Decision (P kv)} m m' n es l :
  table_ok m n es → m' = filter P m →
  (∀ d s, (d, s) ∈ l ↔ m !! d = Some s ∧ ¬ P (d, s)) →
  table_ok m' n (es ++ ((fun kv => Cancelled (cancel kv.2)) <$> l)).
Proof.
  intros [Hlive Hmade Hfresh Howner Hsent] -> Hl.
  assert (∀ k d v, Created k d v ∈ es ++ ((fun kv => Cancelled (cancel kv.2)) <$> l) → Created k d v ∈ es) as Hcr.
  { intros k d v [?|(kv & ? & _)%list_elem_of_fmap]%elem_of_app; done. }
  assert (∀ d1 s1 d2 s2, m !! d1 = Some s1 → m !! d2 = Some s2 → cancel s1 = cancel s2 → d1 = d2) as Hinj.
  { intros d1 s1 d2 s2 H1 H2 Hc. destruct (Hmade _ _ H1) as [E1 [v1 C1]], (Hmade _ _ H2) as [E2 [v2 C2]].
    rewrite E1 in C1. rewrite E2, <-Hc in C2. by eapply Howner. }
  split.
  - intros k. rewrite live_cancelled, Hlive. split.
    + intros [(d & s & Hd & Hk) Hno]. exists d, s. split; [|done]. apply map_lookup_filter_Some. split; [done|].
      destruct (decide (P (d, s))); [done|]. exfalso. apply (Hno d s); [by apply Hl|done].
    + intros (d & s & [Hd HP]%map_lookup_filter_Some & Hk). split; [eauto|].
      intros d' s' [Hd' HP']%Hl Hk'. assert (d' = d) as -> by (eapply Hinj; [done..|congruence]).
      assert (s' = s) as -> by congruence. done.
  - intros d s [Hd _]%map_lookup_filter_Some. destruct (Hmade _ _ Hd) as [? [v ?]]. split; [done|].
    exists v. apply elem_of_app. by left.
  - intros k d v Hin%Hcr. by eapply Hfresh.
  - intros k d1 v1 d2 v2 H1%Hcr H2%Hcr. by eapply Howner.
  - intros k d p a [Hin|(kv & ? & _)%list_elem_of_fmap]%elem_of_app; [|done].
    destruct (Hsent _ _ _ _ Hin) as [v ?]. exists v. apply elem_of_app. by left.
Qed.

(** A new session for a destination that has none. *)
Lemma table_open m n es d v now :
  table_ok m n es → m !! d = None →
  table_ok (<[d := MkSession n n now]> m) (S n) (es ++ [Created n d v]).
Proof.
  intros [Hlive Hmade Hfresh Howner Hsent] Hd.
  assert (∀ k d' v', Created k d' v' ∈ es ++ [Created n d v] →
    Created k d' v' ∈ es ∧ (k < n)%nat ∨ k = n ∧ d' = d) as Hcr.
  { intros k d' v' [Hin|Heq%list_elem_of_singleton]%elem_of_app; [left; eauto|right; by injection Heq]. }
  split.
  - intros k. rewrite live_created, elem_of_union, elem_of_singleton, Hlive. split.
    + intros [->|(d' & s & Hd' & Hk)]; [exists d; eexists; by rewrite lookup_insert_eq|].
      exists d', s. rewrite lookup_insert_ne by congruence. done.
    + intros (d' & s & [[<- <-]|[_ Hd']]%lookup_insert_Some & <-); [by left|]. right. eauto.
  - intros d' s [[<- <-]|[_ Hd']]%lookup_insert_Some; cbn.
    + split; [done|]. exists v. apply elem_of_app. right. by apply list_elem_of_singleton.
    + destruct (Hmade _ _ Hd') as [? [v' ?]]. split; [done|]. exists v'. apply elem_of_app. by left.
  - intros k d' v' [[_ ?]|[-> _]]%Hcr; lia.
  - intros k d1 v1 d2 v2 [[H1 ?]|[-> ->]]%Hcr [[H2 ?]|[? ->]]%Hcr; try lia; [by eapply Howner|done].
  - intros k d' p a [Hin|Heq%list_elem_of_singleton]%elem_of_app; [|done].
    destruct (Hsent _ _ _ _ Hin) as [v' ?]. exists v'. apply elem_of_app. by left.
Qed.

(** A datagram to a destination with a session. *)
Lemma table_send m n es d s p a now :
  table_ok m n es → m !! d = Some s →
  table_ok (<[d := MkSession (socket s) (cancel s) now]> m) n (es ++ [SentTo (socket s) d p a]).
Proof.
  intros [Hlive Hmade Hfresh Howner Hsent] Hd.
  assert (∀ k d' v', Created k d' v' ∈ es ++ [SentTo (socket s) d p a] → Created k d' v' ∈ es) as Hcr.
  { intros k d' v' [Hin|Heq%list_elem_of_singleton]%elem_of_app; done. }
  destruct (Hmade _ _ Hd) as [Hsc [v Hv]].
  split.
  - intros k. rewrite live_sent, Hlive. split.
    + intros (d' & s' & Hd' & Hk). destruct (decide (d' = d)) as [->|Hne].
      * exists d. eexists. rewrite lookup_insert_eq. split; [done|]. cbn. congruence.
      * exists d', s'. by rewrite lookup_insert_ne.
    + intros (d' & s' & [[<- <-]|[_ Hd']]%lookup_insert_Some & Hk); eauto.
  - intros d' s' [[<- <-]|[_ Hd']]%lookup_insert_Some; cbn.
    + split; [done|]. exists v. apply elem_of_app. by left.
    + destruct (Hmade _ _ Hd') as [? [v' ?]]. split; [done|]. exists v'. apply elem_of_app. by left.
  - intros k d' v' Hin%Hcr. by eapply Hfresh.
  - intros k d1 v1 d2 v2 H1%Hcr H2%Hcr. by eapply Howner.
  - intros k d' p' a' [Hin|Heq%list_elem_of_singleton]%elem_of_app.
    + destruct (Hsent _ _ _ _ Hin) as [v' ?]. exists v'. apply elem_of_app. by left.
    + injection Heq as -> -> -> ->. exists v. apply elem_of_app. by left.
Qed.

(** ** The resolver as the loop uses it *)

Section Resolve.
Context {C : Type} `{LruLaws bytes CacheEntry C} (system : bytes → Z → res (list SocketAddr)).

Lemma resolve_cached_returns now loc (r : Resolver (C := C)) :
  ∃ x, (resolve_cached now loc r).1 = Ok x.
Proof.
  unfold resolve_cached, to_socket_addr_nonblocking. destruct (nl_address loc) as [i|i|h] eqn:E; cbn; [by eexists..|].
  destruct (lru_get _ _) as [[entry|] c]; [destruct (_ <? _)|]; by eexists.
Qed.

(** [resolve] fails only as the system resolver does, or when it has no answer. *)
Lemma resolve_returns now later loc (r : Resolver (C := C)) :
  (∀ h p, panics (system h p) = false ∧ system h p ≠ OutOfFuel) →
  panics (resolve system now later loc r).1 = false ∧ (resolve system now later loc r).1 ≠ OutOfFuel.
Proof.
  intros Hsys. unfold resolve. destruct (resolve_cached_returns now loc r) as [x Hx].
  destruct (resolve_cached now loc r) as [y r']. cbn in Hx. subst y. destruct x as [a|h p]; [done|].
  unfold lookup_host, pick_addr, ok_or. destruct (Hsys h p) as [Hp Hf].
  destruct (system h p) as [addrs|e|w|]; cbn; try done. by destruct (head _).
Qed.

Lemma resolve_succeeds now later loc (r : Resolver (C := C)) :
  (∀ h p, ∃ a l, system h p = Ok (a :: l)) → ∃ a, (resolve system now later loc r).1 = Ok a.
Proof.
  intros Hsys. unfold resolve. destruct (resolve_cached_returns now loc r) as [x Hx].
  destruct (resolve_cached now loc r) as [y r']. cbn in Hx. subst y. destruct x as [a|h p]; [by eexists|].
  unfold lookup_host. destruct (Hsys h p) as (a & l & ->). cbn [mbind res_bind]. unfold pick_addr, sort_ipv4_first.
  assert (∃ b, head (filter (fun a => is_ipv4_addr a = true) (a :: l) ++
    filter (fun a => is_ipv4_addr a = false) (a :: l)) = Some b) as [b ->]; [|by eexists].
  rewrite !filter_cons. destruct (is_ipv4_addr a) eqn:Hb.
  - rewrite decide_True by done. by eexists.
  - rewrite decide_False by done. rewrite decide_True by done.
    destruct (filter _ l); by eexists.
Qed.
End Resolve.

(** ** The loop against the streams *)

(** The packets sent, with their destinations, in order. *)
Definition sent_packet (e : effect) : option (NetLocation * bytes) :=
  match e with SentTo _ d p _ => Some (d, p) | _ => None end.
Definition sent_packets (es : list effect) : list (NetLocation * bytes) := omap sent_packet es.

Lemma sent_packets_app es1 es2 : sent_packets (es1 ++ es2) = sent_packets es1 ++ sent_packets es2.
Proof. apply omap_app. Qed.

Lemma sent_cancelled (l : list (NetLocation * Session)) :
  sent_packets ((fun kv => Cancelled (cancel kv.2)) <$> l) = [].
Proof. by induction l. Qed.

Section Nil.
Context {T : Type} `{TargetedStream T}.

Lemma tgt_got_nil_r ps (s1 s2 s3 : T) : tgt_got ps s1 s2 → tgt_got [] s2 s3 → tgt_got ps s1 s3.
Proof. intros Ha Hb. rewrite <-(app_nil_r ps). by eapply tgt_got_trans. Qed.

Lemma tgt_put_nil_r rs (s1 s2 s3 : T) : tgt_put rs s1 s2 → tgt_put [] s2 s3 → tgt_put rs s1 s3.
Proof. intros Ha Hb. rewrite <-(app_nil_r rs). by eapply tgt_put_trans. Qed.

Lemma await_flush_targeted waits (s : T) r s' :
  await waits poll_flush_message s = (r, s') → tgt_valid s →
  tgt_valid s' ∧ tgt_got [] s s' ∧ tgt_put [] s s' ∧ panics r = false.
Proof.
  revert s. induction waits as [|n IH]; intros s Hr Hv; cbn [await] in Hr;
    destruct (poll_flush_message s) as [[x|] s1] eqn:E;
    destruct (flush_targeted_law s _ s1 Hv E) as (Hv1 & Hg & Hp & Hx); try (injection Hr as <- <-).
  1, 3: split_and!; try done; by destruct x.
  - by split_and!.
  - destruct (IH _ Hr Hv1) as (? & ? & ? & ?).
    split_and!; [done|by eapply tgt_got_nil_r|by eapply tgt_put_nil_r|done].
Qed.

(** A response is taken whole, or not at all. *)
Lemma await_write_sourced waits m source (s : T) r s' :
  await waits (poll_write_sourced m source) s = (r, s') → tgt_valid s →
  tgt_valid s' ∧ tgt_got [] s s' ∧ panics r = false ∧
  tgt_put (if is_ok r then [(source, m)] else []) s s'.
Proof.
  revert s. induction waits as [|n IH]; intros s Hr Hv; cbn [await] in Hr;
    destruct (poll_write_sourced m source s) as [[x|] s1] eqn:E;
    destruct (write_sourced_law m source s _ s1 Hv E) as (Hv1 & Hg & Hx & Hp); try (injection Hr as <- <-).
  1, 3: split_and!; try done; by destruct x.
  - by split_and!.
  - destruct (IH _ Hr Hv1) as (? & ? & ? & Hput).
    split_and!; [done|by eapply tgt_got_nil_r|done|]. change (tgt_put ([] ++ (if is_ok r then [(source, m)] else [])) s s').
    by eapply tgt_put_trans.
Qed.

Lemma write_sourced_message_spec waits m source (s : T) r s' :
  write_sourced_message waits m source s = (r, s') → tgt_valid s →
  tgt_valid s' ∧ tgt_got [] s s' ∧ panics r = false ∧
  ∃ rs, tgt_put rs s s' ∧ (rs = [(source, m)] ∨ rs = [] ∧ is_ok r = false).
Proof.
  unfold write_sourced_message. rewrite M_bind_eq. intros Hr Hv.
  destruct (await waits (poll_write_sourced m source) s) as [x s1] eqn:E.
  destruct (await_write_sourced _ _ _ _ _ _ E Hv) as (Hv1 & Hg & Hx & Hp).
  destruct x as [[]|e|w|]; try (injection Hr as <- <-; split_and!; try done; exists []; by split; [|right]).
  destruct (await_flush_targeted _ _ _ _ Hr Hv1) as (Hv2 & Hg2 & Hp2 & Hr2).
  split_and!; [done|by eapply tgt_got_nil_r|done|]. exists [(source, m)]. split; [by eapply tgt_put_nil_r|by left].
Qed.
End Nil.

Section Invariant.
Context {T C K : Type} `{TargetedStream T} `{LruLaws bytes CacheEntry C} `{SocketSys K}.
Context (system : bytes → Z → res (list SocketAddr)) (t0 : T).

(** An address the resolver gave for a destination. *)
Definition resolved (d : NetLocation) (a : SocketAddr) : Prop :=
  ∃ now later (r r' : Resolver (C := C)), resolve system now later d r = (Ok a, r').

(** Every name has an address and every socket can be made. *)
Definition never_fails : Prop :=
  (∀ h p, ∃ a l, system h p = Ok (a :: l)) ∧ ∀ v (k : K), ∃ fd, (new_udp_socket v k).1 = Ok fd.

(** What was sent, against the packets read. *)
Definition sent_ok (ps : list (NetLocation * bytes)) (es : list effect) : Prop :=
  sent_packets es `sublist_of` ps ∧ (never_fails → sent_packets es = ps) ∧
  ∀ k d p a, SentTo k d p a ∈ es → resolved d a.

Record route_ok (arrived : list (SocketAddr * bytes)) (st : routing T C K) : Prop := {
  ro_valid : tgt_valid (server st);
  ro_table : table_ok (sessions st) (next_socket st) (effects st);
  ro_put : ∃ rs, tgt_put rs t0 (server st) ∧ rs ++ response_rx st = arrived;
  ro_got : ∃ ps, tgt_got ps t0 (server st) ∧ sent_ok ps (effects st) }.

(** Why the loop may stop at a stream: the client has sent all its packets, a read of
    it fails, its next packet is to [UNSPECIFIED], or a response cannot be written. *)
Inductive stops (s : T) : Prop :=
| stops_done : tgt_done s → stops s
| stops_read n e s' : poll_read_targeted n s = (Ready (Err e), s') → stops s
| stops_unspecified m s' : tgt_got [(netloc_unspecified, m)] s s' → stops s
| stops_write waits source m e s' : write_sourced_message waits m source s = (Err e, s') → stops s.

Definition stopped (es : list effect) : Prop := ∃ ps s, tgt_got ps t0 s ∧ sent_ok ps es ∧ stops s.

(** When the loop ends: the packets read up to the last were handled; a response that
    could not be written is lost. *)
Record route_end (arrived : list (SocketAddr * bytes)) (st : routing T C K) : Prop := {
  re_valid : tgt_valid (server st);
  re_table : table_ok (sessions st) (next_socket st) (effects st);
  re_put : ∃ rs, tgt_put rs t0 (server st) ∧ rs `prefix_of` arrived;
  re_got : ∃ ps s, tgt_got ps t0 s ∧ sent_ok ps (effects st) }.

Lemma route_ok_end arrived st : route_ok arrived st → route_end arrived st.
Proof. intros [Hv Ht (rs & Hp & <-) (ps & Hg & Hs)]. split; [done..| |]; [exists rs|exists ps]; eauto using prefix_app_r. Qed.

Lemma route_ok_start (rv : Resolver (C := C)) (k : K) start :
  tgt_valid t0 → route_ok [] (MkRouting t0 rv k [] ∅ start 0 []).
Proof.
  intros Hv. split; cbn; [done|apply table_empty| |].
  - exists []. split; [apply tgt_put_refl|done].
  - exists []. split; [apply tgt_got_refl|]. split_and!; try done. by intros ? d p a ?%not_elem_of_nil.
Qed.

Lemma sent_ok_same ps es es' :
  sent_ok ps es → sent_packets es' = [] → (∀ k d p a, SentTo k d p a ∉ es') → sent_ok ps (es ++ es').
Proof.
  intros (Hs & Hn & Hr) He Hno. unfold sent_ok. rewrite sent_packets_app, He, app_nil_r. split_and!; [done..|].
  intros k d p a [Hin|Hin]%elem_of_app; [by eapply Hr|by apply Hno in Hin].
Qed.

Lemma sent_ok_cancel ps es (l : list (NetLocation * Session)) :
  sent_ok ps es → sent_ok ps (es ++ ((fun kv => Cancelled (cancel kv.2)) <$> l)).
Proof.
  intros Hs. apply sent_ok_same; [done|apply sent_cancelled|]. by intros k d p a (kv & ? & _)%list_elem_of_fmap.
Qed.

Lemma routing_cleanup_spec now arrived st : route_ok arrived st → route_ok arrived (routing_cleanup now st).
Proof.
  intros [Hv Ht Hp (ps & Hg & Hs)]. unfold routing_cleanup. destruct (CLEANUP_INTERVAL <=? _); [|by split; eauto].
  split; cbn; [done| |done|].
  - eapply (table_cancel (fun kv => (ASSOCIATION_TIMEOUT <? elapsed now (last_activity kv.2)) = false));
      [done|reflexivity|]. intros d s. rewrite elem_of_map_to_list, map_lookup_filter_Some. cbn.
    by rewrite not_false_iff_true.
  - exists ps. split; [done|]. by apply sent_ok_cancel.
Qed.

(** The select takes the first response, or one packet off the stream. *)
Lemma routing_select_spec t arrived st o st' :
  routing_select t st = (o, st') → route_ok arrived st →
  match o with
  | None => route_ok (arrived ++ t_arrived t) st'
  | Some (Response source m) =>
      tgt_valid (server st') ∧ table_ok (sessions st') (next_socket st') (effects st') ∧
      (∃ rs, tgt_put rs t0 (server st') ∧ rs ++ (source, m) :: response_rx st' = arrived ++ t_arrived t) ∧
      ∃ ps, tgt_got ps t0 (server st') ∧ sent_ok ps (effects st')
  | Some (Inbound r) => route_end (arrived ++ t_arrived t) st' ∧ panics r = false ∧ r ≠ OutOfFuel ∧
      ((∀ d m, r = Ok (d, m) → is_unspecified d = true) → stopped (effects st')) ∧
      ∀ d m, r = Ok (d, m) → is_unspecified d = false →
      table_ok (sessions st') (next_socket st') (effects st') ∧
      (∃ rs, tgt_put rs t0 (server st') ∧ rs ++ response_rx st' = arrived ++ t_arrived t) ∧
      ∃ ps, tgt_got (ps ++ [(d, m)]) t0 (server st') ∧ sent_ok ps (effects st')
  end.
Proof.
  unfold routing_select. intros Hr [Hv Ht (rs & Hp & Hq) (ps & Hg & Hs)].
  set (st1 := set_responses _ st) in Hr.
  assert (rs ++ response_rx st1 = arrived ++ t_arrived t) as Hq1 by (cbn; by rewrite <-Hq, app_assoc).
  destruct (if decide (sessions st1 = ∅) then [] else response_rx st1) as [|[source m] q] eqn:Eq.
  - unfold read_targeted_message in Hr.
    destruct (poll_read_targeted MESSAGE_BUFFER (server st1)) as [x s1] eqn:E.
    destruct (read_targeted_law MESSAGE_BUFFER _ x s1 (le_n _) Hv E) as (Hv1 & Hp1 & Hx).
    assert (tgt_put rs t0 s1) as Hp2 by (by eapply tgt_put_nil_r).
    destruct x as [r|]; injection Hr as <- <-.
    + split_and!; [|by destruct r|by destruct r| |].
      * split; cbn; [done..|exists rs; split; [done|by eexists]|exists ps, (server st); done].
      * intros Hno. destruct r as [[d m]|e|w|]; try done; [|exists ps, (server st); eauto using stops_read].
        pose proof (Hno d m eq_refl) as ->%bool_decide_eq_true. destruct Hx as [Hx|(_ & Hx & Hdone)].
        -- exists ps, (server st). eauto using stops_unspecified.
        -- exists ps, s1. split_and!; [by eapply tgt_got_nil_r|done|by apply stops_done].
      * intros d m -> Hd. destruct Hx as [Hx|[-> _]]; [|unfold is_unspecified in Hd; by rewrite bool_decide_true in Hd].
        split_and!; [done|by exists rs|]. exists ps. split; [by eapply tgt_got_trans|done].
    + split; cbn; [done..|by exists rs|]. exists ps. split; [by eapply tgt_got_nil_r|done].
  - injection Hr as <- <-. assert (response_rx st1 = (source, m) :: q) as Hq2 by (by destruct (decide _)).
    rewrite Hq2 in Hq1. split_and!; [done..|by exists rs|by exists ps].
Qed.

Lemma sent_ok_send ps es d m k a :
  sent_ok ps es → resolved d a → sent_ok (ps ++ [(d, m)]) (es ++ [SentTo k d m a]).
Proof.
  intros (Hs & Hn & Hr) Ha. unfold sent_ok. rewrite sent_packets_app. split_and!.
  - by apply sublist_app.
  - intros Hnf. by rewrite (Hn Hnf).
  - intros k' d' p' a' [Hin|Heq%list_elem_of_singleton]%elem_of_app; [by eapply Hr|].
    by injection Heq as -> -> -> ->.
Qed.

Lemma sent_ok_drop ps es d m : sent_ok ps es → ¬ never_fails → sent_ok (ps ++ [(d, m)]) es.
Proof.
  intros (Hs & Hn & Hr) Hf. split_and!; [|done|done]. by apply sublist_inserts_r.
Qed.

Lemma sent_ok_created ps es k d v : sent_ok ps es → sent_ok ps (es ++ [Created k d v]).
Proof. intros Hs. apply sent_ok_same; [done..|]. by intros k' d' p' a' ?%list_elem_of_singleton. Qed.

Lemma route_packet_spec t d m arrived ps st f st' :
  (∀ h p, panics (system h p) = false ∧ system h p ≠ OutOfFuel) →
  (∀ v (k : K), panics (new_udp_socket v k).1 = false ∧ (new_udp_socket v k).1 ≠ OutOfFuel) →
  route_packet system t d m st = (f, st') → is_unspecified d = false →
  tgt_valid (server st) → table_ok (sessions st) (next_socket st) (effects st) →
  (∃ rs, tgt_put rs t0 (server st) ∧ rs ++ response_rx st = arrived) →
  tgt_got (ps ++ [(d, m)]) t0 (server st) → sent_ok ps (effects st) →
  f = Continue ∧ route_ok arrived st'.
Proof.
  intros Hsys Hsock Hr Hd Hv Ht Hq Hg Hs. unfold route_packet in Hr. rewrite Hd in Hr.
  destruct (resolve_returns system (t_cache t) (t_store t) d (resolver st) Hsys) as [Hp Hf].
  pose proof (resolve_succeeds system (t_cache t) (t_store t) d (resolver st)) as Hsucc.
  destruct (resolve system _ _ d (resolver st)) as [a rv] eqn:Ea. cbn [fst] in Hp, Hf, Hsucc.
  destruct a as [addr|e|w|]; try done.
  2: { injection Hr as <- <-. split; [done|]. split; cbn; [done..|]. exists (ps ++ [(d, m)]). split; [done|].
       apply sent_ok_drop; [done|]. intros [Hnf _]. by destruct (Hsucc Hnf). }
  assert (resolved d addr) as Hres by (by repeat eexists). clear Hp Hf Hsucc Ea.
  cbn [set_resolver sessions] in Hr. destruct (sessions st !! d) as [s|] eqn:Es.
  { injection Hr as <- <-. split; [done|]. split; cbn; [done|by apply table_send|done|].
    exists (ps ++ [(d, m)]). split; [done|by apply sent_ok_send]. }
  unfold open_session, create_session in Hr. destruct (Hsock (is_ipv6_addr addr) (sys st)) as [Hp Hf].
  cbn [set_resolver next_socket sys] in Hr.
  destruct (new_udp_socket (is_ipv6_addr addr) (sys st)) as [[fd|e|w|] k] eqn:En; try done;
    injection Hr as <- <-; (split; [done|]); split; cbn; try done.
  - rewrite insert_insert_eq. pose proof (table_open _ _ _ d (is_ipv6_addr addr) (t_now t) Ht Es) as Ho.
    pose proof (table_send _ _ _ d _ m addr (t_now t) Ho (lookup_insert_eq _ _ _)) as Hse.
    by rewrite insert_insert_eq in Hse.
  - exists (ps ++ [(d, m)]). split; [done|]. apply sent_ok_send; [by apply sent_ok_created|done].
  - exists (ps ++ [(d, m)]). split; [done|]. apply sent_ok_drop; [done|]. intros [_ Hnf].
    destruct (Hnf (is_ipv6_addr addr) (sys st)) as [fd Hfd]. by rewrite En in Hfd.
Qed.

Lemma route_end_more arrived more st : route_end arrived st → route_end (arrived ++ more) st.
Proof.
  intros [Hv Ht (rs & Hp & Hpre) Hg]. split; [done..| |done]. exists rs. split; [done|by apply prefix_app_r].
Qed.

Lemma shutdown_targeted_spec waits (s : T) :
  tgt_valid s → tgt_valid (shutdown_message waits s).2 ∧ tgt_put [] s (shutdown_message waits s).2.
Proof.
  unfold shutdown_message. revert s. induction waits as [|n IH]; intros s Hv; cbn [await];
    destruct (poll_shutdown_message s) as [[x|] s1] eqn:E;
    destruct (shutdown_targeted_law s _ s1 Hv E) as (Hv1 & Hg & Hp & _); try done.
  destruct (IH s1 Hv1). split; [done|by eapply tgt_put_nil_r].
Qed.

Lemma routing_finish_spec waits arrived st :
  route_end arrived st → route_end arrived (routing_finish waits st).
Proof.
  intros [Hv Ht (rs & Hp & Hpre) (ps & s & Hg & Hs)].
  destruct (shutdown_targeted_spec waits _ Hv) as [Hv1 Hp1]. split; cbn; [done| | |].
  - eapply (table_cancel (fun _ => False)); [done| |].
    + apply map_eq. intros d. rewrite lookup_empty. symmetry. apply map_lookup_filter_None. right. by intros x _ [].
    + intros d s'. rewrite elem_of_map_to_list. tauto.
  - exists rs. split; [by eapply tgt_put_nil_r|done].
  - exists ps, s. split; [done|by apply sent_ok_cancel].
Qed.

(** The loop never panics, and keeps or ends as above. *)
Lemma routing_loop_spec waits starting ts arrived st r st' :
  (∀ h p, panics (system h p) = false ∧ system h p ≠ OutOfFuel) →
  (∀ v (k : K), panics (new_udp_socket v k).1 = false ∧ (new_udp_socket v k).1 ≠ OutOfFuel) →
  routing_loop system waits starting ts st = (r, st') → route_ok arrived st →
  panics r = false ∧ (r = Ok tt → sessions st' = ∅ ∧ stopped (effects st')) ∧
  route_end (arrived ++ concat (t_arrived <$> ts)) st'.
Proof.
  intros Hsys Hsock. revert starting arrived st. induction ts as [|t ts IH]; intros starting arrived st Hr Hok.
  { injection Hr as <- <-. rewrite app_nil_r. split_and!; [done..|by apply route_ok_end]. }
  cbn [routing_loop] in Hr. set (st1 := if starting then _ else st) in Hr.
  assert (route_ok arrived st1) as Hok1 by (unfold st1; destruct starting; [by apply routing_cleanup_spec|done]).
  cbn [fmap list_fmap concat]. rewrite app_assoc.
  destruct (routing_select t st1) as [o st2] eqn:Esel.
  pose proof (routing_select_spec _ _ _ _ _ Esel Hok1) as Hsel.
  destruct o as [sel|]; [|by eapply IH].
  destruct (routing_handle system waits (t_packet t) sel st2) as [f st3] eqn:Eh.
  assert (f ≠ Crash ∧ route_end (arrived ++ t_arrived t) st3 ∧
    (f = Continue → route_ok (arrived ++ t_arrived t) st3) ∧ (f = Break → stopped (effects st3)))
    as (Hcr & Hend & Hcont & Hstop).
  { clear Hr IH. unfold routing_handle in Eh. destruct sel as [source m|x].
    - destruct Hsel as (Hv & Ht & (rs & Hp & Hq) & (ps & Hg & Hs)).
      destruct (write_sourced_message _ _ _ _) as [y s] eqn:Ew.
      destruct (write_sourced_message_spec _ _ _ _ _ _ Ew Hv) as (Hv1 & Hg1 & Hy & rs1 & Hp1 & Hrs).
      assert (tgt_put (rs ++ rs1) t0 s) as Hput by (by eapply tgt_put_trans).
      injection Eh as <- <-. split_and!; [by destruct y| | |].
      + split; cbn; [done..| |exists ps, (server st2); done]. exists (rs ++ rs1). split; [done|]. rewrite <-Hq.
        destruct Hrs as [->|[-> _]]; [exists (response_rx st2); by rewrite <-app_assoc|].
        rewrite app_nil_r. by eexists.
      + intros Hc. destruct Hrs as [->|[_ Hy1]]; [|by destruct y]. split; cbn; [done..| |].
        * exists (rs ++ [(source, m)]). split; [done|]. by rewrite <-Hq, <-app_assoc.
        * exists ps. split; [by eapply tgt_got_nil_r|done].
      + intros Hb. destruct y; try done. exists ps, (server st2). eauto using stops_write.
    - destruct Hsel as (Hend & Hx1 & Hx2 & Hst & Hx). destruct x as [[d m]|e|w|]; try done.
      2: { injection Eh as <- <-. split_and!; try done. intros _. by apply Hst. }
      destruct (is_unspecified d) eqn:Hd.
      { unfold route_packet in Eh. rewrite Hd in Eh. injection Eh as <- <-. split_and!; try done.
        intros _. apply Hst. by intros d' m' [= <- <-]. }
      destruct (Hx d m eq_refl Hd) as (Ht & Hq & (ps & Hg & Hs)).
      destruct (route_packet_spec _ _ _ _ _ _ _ _ Hsys Hsock Eh Hd (re_valid _ _ Hend) Ht Hq Hg Hs) as [-> Hok3].
      split_and!; [done|by apply route_ok_end|done..]. }
  destruct f; try done.
  - eapply IH; eauto.
  - injection Hr as <- <-. destruct (Hstop eq_refl) as (ps & s & Hg & Hs & Hw).
    split_and!; [done|intros _; split; [done|]|by apply route_end_more, routing_finish_spec].
    exists ps, s. split_and!; [done|by apply sent_ok_cancel|done].
  - injection Hr as <- <-. split_and!; [done..|]. by apply route_end_more.
Qed.
End Invariant.

(** ** Packet streams as targeted streams *)

#[export] Instance Packet_read {T} `{AsyncRead T} `{AsyncWrite T} : AsyncReadTargetedMessage (PacketAddrStream T) :=
  poll_read_targeted_message.
#[export] Instance Packet_write {T} `{AsyncRead T} `{AsyncWrite T} : AsyncWriteSourcedMessage (PacketAddrStream T) :=
  poll_write_sourced_message.
#[export] Instance Packet_flush {T} `{AsyncWrite T} : AsyncFlushMessage (PacketAddrStream T) := packet_poll_flush.
#[export] Instance Packet_shutdown {T} `{AsyncWrite T} : AsyncShutdownMessage (PacketAddrStream T) :=
  packet_poll_shutdown.
#[export] Instance Packet_ping {T} : AsyncPing (PacketAddrStream T) :=
  {| supports_ping _ := false; poll_write_ping p := (Ready (Ok false), p) |}.

Lemma read_packets_app k1 k2 l ms1 l1 ms2 l2 :
  read_packets k1 l = Some (ms1, l1) → read_packets k2 l1 = Some (ms2, l2) →
  read_packets (k1 + k2) l = Some (ms1 ++ ms2, l2).
Proof.
  intros Ha. revert ms2 l2. induction k2 as [|k2 IH]; intros ms2 l2 Hb.
  - injection Hb as <- <-. by rewrite Nat.add_0_r, app_nil_r.
  - rewrite Nat.add_succ_r. cbn [read_packets] in *.
    destruct (read_packets k2 l1) as [[ms l3]|]; [|done]. cbn [mbind option_bind] in Hb.
    rewrite (IH _ _ eq_refl). cbn [mbind option_bind].
    destruct (packet_head l3) as [[[loc b] l4]|]; [|done]. injection Hb as <- <-. by rewrite app_assoc.
Qed.

Section PacketTargeted.
Context {T : Type} `{AsyncReadLaws T} `{AsyncWriteLaws T} `{!AsyncPing T} `{!AsyncStreamLaws T}
  `{!WriteProgress T}.

Lemma packet_shutdown_spec (p : PacketAddrStream T) x p' :
  packet_poll_shutdown p = (x, p') → packet_inv p →
  write_side p p' ∧ packet_out p' = packet_out p ∧ poll_returns x.
Proof.
  unfold packet_poll_shutdown. intros Hr Hi. destruct (packet_poll_flush p) as [y p1] eqn:E.
  destruct (packet_poll_flush_spec _ _ _ E Hi) as (Hs & Ho & Hy).
  destruct y as [[[]|e|w|]|]; simplify_eq; try (by split_and!).
  pose proof (shutdown_keeps (ps_stream p1)) as Hk. pose proof (poll_shutdown_written (ps_stream p1)) as Hwr.
  destruct (poll_shutdown (ps_stream p1)) as [z s1] eqn:Es. cbn [snd] in Hk, Hwr. injection Hr as <- <-.
  pose proof Hs as ((_ & _ & _ & Hw & Hsl) & _). split_and!.
  - eapply write_side_trans; [done|]. apply set_write_side; [apply Hs|done|done|lia].
  - rewrite <-Ho. unfold packet_out. cbn. by rewrite Hwr.
  - destruct z as [r|]; [|done]. destruct (poll_shutdown_returns _ _ _ Es). by destruct r.
Qed.

(** At the end of the stream no whole packet is left. *)
Definition drained (p : PacketAddrStream T) : Prop := parse_packet UOT_ADDR_CODEC (packet_ahead p) = Ok None.
Definition packet_valid (p : PacketAddrStream T) : Prop := packet_inv p ∧ (ps_eof p = true → drained p).

Lemma packet_valid_write (p p' : PacketAddrStream T) : packet_valid p → write_side p p' → packet_valid p'.
Proof. intros [_ Hd] (Hi & Ha & He). split; [done|]. unfold drained. by rewrite He, Ha. Qed.

Lemma packet_read_err_eof fuel n e (p p' : PacketAddrStream T) :
  packet_read_loop fuel n p = (Ready (Err e), p') → ps_eof p' = ps_eof p.
Proof.
  revert p. induction fuel as [|fuel IH]; intros p Hr; cbn [packet_read_loop] in Hr; unfold take_packet in Hr;
    repeat case_match; simplify_eq; try done. by rewrite (IH _ Hr).
Qed.

Lemma packet_read_law n (p : PacketAddrStream T) x p' :
  (MESSAGE_BUFFER ≤ n)%nat → packet_valid p → poll_read_targeted_message n p = (x, p') →
  packet_valid p' ∧ packet_out p' = packet_out p ∧
  match x with
  | Ready (Ok (loc, m)) => packet_head (packet_ahead p) = Some (loc, m, packet_ahead p') ∨
      loc = netloc_unspecified ∧ packet_ahead p' = packet_ahead p ∧ drained p'
  | Pending => packet_ahead p' = packet_ahead p
  | Ready (Err _) => True
  | Ready (Panic _) | Ready OutOfFuel => False
  end.
Proof.
  intros Hn [Hi Hd] Hr. destruct (ps_eof p) eqn:He.
  { unfold poll_read_targeted_message in Hr. rewrite He in Hr. injection Hr as <- <-.
    pose proof (Hd eq_refl) as Hdr. split_and!; [by split|done|by right]. }
  destruct (packet_poll_read_spec _ _ _ _ Hr Hi He) as [[Hi' Ho] Hx]. unfold packet_valid.
  destruct x as [[[loc m]|e|w|]|]; try done.
  - destruct Hx as [(Heof & s & Hp & Hb & Hdr)|(-> & _ & _ & Ha & Hp)].
    + split_and!; [done|congruence|done|]. left. unfold packet_head. by rewrite Hp, <-Hb, Hdr.
    + assert (drained p') as Hdp by (unfold drained; by rewrite Ha). split_and!; try done. by right.
  - unfold poll_read_targeted_message in Hr. rewrite He in Hr. apply packet_read_err_eof in Hr.
    split_and!; try done. congruence.
  - destruct Hx as (loc & s & k & Hp & Hlt). apply parse_packet_len in Hp. unfold MESSAGE_BUFFER in Hn. lia.
  - destruct Hx as [Ha Heof]. split_and!; try done. congruence.
Qed.

#[export] Instance Packet_targeted : TargetedStream (PacketAddrStream T).
Proof.
  refine {| tgt_valid := packet_valid; tgt_done := drained;
            tgt_got ps p p' := read_packets (length ps) (packet_ahead p) = Some (ps, packet_ahead p');
            tgt_put rs p p' := packet_out p' = packet_out p ++ encode_packets rs |}; try done.
  - intros * Hg1 Hg2. rewrite length_app. by eapply read_packets_app.
  - intros p. symmetry. apply app_nil_r.
  - intros * Hp1 Hp2. rewrite Hp2, Hp1. unfold encode_packets. by rewrite fmap_app, concat_app, app_assoc.
  - intros n p x p' Hn Hi Hr. destruct (packet_read_law _ _ _ _ Hn Hi Hr) as (Hi' & Ho & Hx).
    unfold encode_packets at 1. cbn [fmap list_fmap concat]. rewrite app_nil_r. split_and!; [done..|].
    destruct x as [[[loc m]|e|w|]|]; try done; cbn [length read_packets]; [|by rewrite Hx].
    destruct Hx as [Hx|(-> & Hx & Hd)]; [left; cbn; by rewrite Hx|right; by rewrite Hx].
  - intros m source p x p' Hv Hr. destruct (packet_write_spec _ _ _ _ _ Hr (proj1 Hv)) as (Hs & Hx & Ho).
    pose proof Hs as (_ & Hah & _). split_and!; [by eapply packet_valid_write|cbn; by rewrite Hah|done|].
    rewrite Ho. unfold encode_packets. destruct (ready_ok x); cbn; by rewrite ?app_nil_r.
  - intros p x p' Hv Hr. destruct (packet_poll_flush_spec _ _ _ Hr (proj1 Hv)) as (Hs & Ho & Hx).
    pose proof Hs as (_ & Hah & _). split_and!; [by eapply packet_valid_write|cbn; by rewrite Hah| |done].
    rewrite Ho. symmetry. apply app_nil_r.
  - intros p x p' Hv Hr. destruct (packet_shutdown_spec _ _ _ Hr (proj1 Hv)) as (Hs & Ho & Hx).
    pose proof Hs as (_ & Hah & _). split_and!; [by eapply packet_valid_write|cbn; by rewrite Hah| |done].
    rewrite Ho. symmetry. apply app_nil_r.
Defined.

Lemma new_uot_valid mem (s : T) : packet_valid (new_uot mem s).
Proof. split; [apply new_uot_inv|done]. Qed.
End PacketTargeted.

(** ** Properties *)

(** A run of the router against the stream it started with. *)
Lemma run_udp_routing_spec {T C K : Type} `{TargetedStream T} `{LruLaws bytes CacheEntry C} `{SocketSys K}
    (system : bytes → Z → res (list SocketAddr))
    (waits : nat) (start : Z) (ts : list tick) (s : T) (rv : Resolver (C := C)) (k : K) (r : res unit)
    (st : routing T C K) :
  tgt_valid s →
  (∀ h p, panics (system h p) = false ∧ system h p ≠ OutOfFuel) →
  (∀ v (k : K), panics (new_udp_socket v k).1 = false ∧ (new_udp_socket v k).1 ≠ OutOfFuel) →
  run_udp_routing system waits start ts s rv k = (r, st) →
  panics r = false ∧
  (∃ ps s', tgt_got ps s s' ∧ sent_ok (C := C) (K := K) system ps (effects st) ∧ (r = Ok tt → stops s')) ∧
  (∃ rs, tgt_put rs s (server st) ∧ rs `prefix_of` concat (t_arrived <$> ts)) ∧
  table_ok (sessions st) (next_socket st) (effects st) ∧ (r = Ok tt → live (effects st) = ∅).
Proof.
  intros Hv Hsys Hsock Hr.
  destruct (routing_loop_spec system s _ _ _ [] _ _ _ Hsys Hsock Hr
    (route_ok_start _ _ _ _ _ Hv)) as (Hp & Hst & [_ Ht Hput (ps & s' & Hg & Hs)]). split_and!; [done| |done..|].
  - destruct r as [[]|e|w|]; [|exists ps, s'; by split_and!..].
    destruct (Hst eq_refl) as [_ (ps' & s1 & ? & ? & ?)]. exists ps', s1. by split_and!.
  - intros Hok. apply set_eq. intros n. rewrite (tb_live _ _ _ Ht), (proj1 (Hst Hok)).
    split; [|set_solver]. by intros (d & se & ?%lookup_empty_Some & _).
Qed.

(** Whatever the interleaving of packets and responses, [run_udp_routing] sends the
    packets a client sent, in order, each once and through the one socket of its
    destination, to an address the resolver gave for it, leaving out only packets
    whose name cannot be resolved or whose socket cannot be made; it writes the
    responses to the client in the order they arrived; it never panics, and ends only
    when the client's packets have all been routed, its stream fails, or it sends a
    packet to [UNSPECIFIED]. *)
Theorem udp_routing_relays {T C K : Type} `{TargetedStream T} `{LruLaws bytes CacheEntry C} `{SocketSys K}
    (system : bytes → Z → res (list SocketAddr))
    (waits : nat) (start : Z) (ts : list tick) (s : T) (rv : Resolver (C := C)) (k : K) (r : res unit)
    (st : routing T C K) :
  tgt_valid s →
  (∀ h p, panics (system h p) = false ∧ system h p ≠ OutOfFuel) →
  (∀ v (k : K), panics (new_udp_socket v k).1 = false ∧ (new_udp_socket v k).1 ≠ OutOfFuel) →
  run_udp_routing system waits start ts s rv k = (r, st) →
  panics r = false ∧
  (∃ ps s', tgt_got ps s s' ∧ sent_packets (effects st) `sublist_of` ps ∧
    (never_fails (K := K) system → sent_packets (effects st) = ps) ∧ (r = Ok tt → stops s')) ∧
  (∃ rs, tgt_put rs s (server st) ∧ rs `prefix_of` concat (t_arrived <$> ts)) ∧
  (∀ k d p a, SentTo k d p a ∈ effects st →
    resolved (C := C) system d a ∧ ∃ v, Created k d v ∈ effects st) ∧
  (∀ k d1 v1 d2 v2, Created k d1 v1 ∈ effects st → Created k d2 v2 ∈ effects st → d1 = d2).
Proof.
  intros Hv Hsys Hsock Hr. destruct (run_udp_routing_spec _ _ _ _ _ _ _ _ _ Hv Hsys Hsock Hr)
    as (Hp & (ps & s' & Hg & (Hs1 & Hs2 & Hs3) & Hst) & Hput & Ht & _). split_and!; [done|by exists ps, s'|done| |].
  - intros n d p a Hin. split; [by eapply Hs3|by eapply tb_sent].
  - intros *. by eapply tb_owner.
Qed.

(** C25: the tasks that receive for a routing loop are at every point those of its session
    table; when [run_udp_routing] returns, every task it started has been
    cancelled. *)
Theorem udp_routing_no_leak {T C K : Type} `{TargetedStream T} `{LruLaws bytes CacheEntry C} `{SocketSys K}
    (system : bytes → Z → res (list SocketAddr))
    (waits : nat) (start : Z) (ts : list tick) (s : T) (rv : Resolver (C := C)) (k : K) (r : res unit)
    (st : routing T C K) :
  tgt_valid s →
  (∀ h p, panics (system h p) = false ∧ system h p ≠ OutOfFuel) →
  (∀ v (k : K), panics (new_udp_socket v k).1 = false ∧ (new_udp_socket v k).1 ≠ OutOfFuel) →
  run_udp_routing system waits start ts s rv k = (r, st) →
  (∀ k, k ∈ live (effects st) ↔ ∃ d se, sessions st !! d = Some se ∧ cancel se = k) ∧
  (r = Ok tt → live (effects st) = ∅).
Proof.
  intros Hv Hsys Hsock Hr. destruct (run_udp_routing_spec _ _ _ _ _ _ _ _ _ Hv Hsys Hsock Hr)
    as (_ & _ & _ & Ht & Hlive). split; [|done]. intros n. apply (tb_live _ _ _ Ht).
Qed.

(** Two packets to one destination and one to a name, a response between them, then the
    end of the stream; resolved by a resolver that knows one name. *)
Definition demo_system (h : bytes) (port : Z) : res (list SocketAddr) :=
  if decide (h = str "a.b") then Ok [SocketV4 (Ipv4 7) port] else Err (io_err Other "no such name").

Definition demo_dns : SocketAddr := SocketV4 (Ipv4 (8 * 2 ^ 24)) 53.
Definition demo_name_packet : bytes :=
  [x02; x03] ++ str "a.b" ++ be_encode 2 80 ++ be_encode 2 1 ++ [x0c].

Definition demo_uot : PacketAddrStream (QuicStream Sink Script) :=
  new_uot (fun _ => x00) (MkQuic (MkSink [] [])
    (MkScript [EData x00 (drop 1 (encode_packet demo_dns [x0a] ++ encode_packet demo_dns [x0b])); EPending;
               EData x02 (drop 1 demo_name_packet)])).

Definition demo_tick (arrived : list (SocketAddr * bytes)) : tick := MkTick arrived 0 (MkTimes 0 0 0).

Definition demo_routing :=
  run_udp_routing (C := MapLru bytes CacheEntry) demo_system 3 0
    [demo_tick []; demo_tick []; demo_tick [(demo_dns, [x63])]; demo_tick []; demo_tick []; demo_tick []]
    demo_uot (with_tcp_congestion []) (MkSystem [] (fun _ => None)).

Lemma demo_routing_result :
  demo_routing.1 = Ok tt ∧
  sent_packets (effects demo_routing.2) =
    [(socket_location demo_dns, [x0a]); (socket_location demo_dns, [x0b]);
     (NetLoc (Addr_Hostname (str "a.b")) 80, [x0c])].
Proof. vm_compute. done. Qed.

Lemma demo_system_returns h p : panics (demo_system h p) = false ∧ demo_system h p ≠ OutOfFuel.
Proof. unfold demo_system. by case_decide. Qed.

Lemma demo_sockets_returns v (k : System) :
  panics (new_udp_socket v k).1 = false ∧ (new_udp_socket v k).1 ≠ OutOfFuel.
Proof. apply new_udp_socket_returns. Qed.

Lemma demo_uot_valid : tgt_valid demo_uot.
Proof. apply new_uot_valid. Qed.

Lemma udp_routing_relays_witness :
  (∃ ps s', tgt_got ps demo_uot s' ∧ sent_packets (effects demo_routing.2) `sublist_of` ps ∧
    length (sent_packets (effects demo_routing.2)) = 3%nat) ∧
  ∃ rs, tgt_put rs demo_uot (server demo_routing.2) ∧ rs `prefix_of` [(demo_dns, [x63])].
Proof.
  destruct (udp_routing_relays _ _ _ _ _ _ _ _ _ demo_uot_valid demo_system_returns
    demo_sockets_returns (surjective_pairing demo_routing)) as (_ & (ps & s' & Hg & Hs & _) & Hput & _).
  split; [|exact Hput]. exists ps, s'. split_and!; [done..|]. by rewrite (proj2 demo_routing_result).
Defined.

Lemma udp_routing_no_leak_witness : live (effects demo_routing.2) = ∅.
Proof.
  apply (udp_routing_no_leak _ _ _ _ _ _ _ _ _ demo_uot_valid demo_system_returns
    demo_sockets_returns (surjective_pairing demo_routing)). apply demo_routing_result.
Defined.
