(* ===== verification/Pointers.v ===== *)
(** * Streams behind pointers (src/async_stream.rs, the impls for [Box<T>] and [&mut T])

    The servers keep their streams as [Box<dyn AsyncStream>] and pass them by [&mut];
    both pointers have every stream trait of what they point to, each method going
    through [&mut **self].  A [Box] owns its value; a [&mut T] is a place in an owner,
    which keeps everything that is not in the place. *)

From Stdlib Require Import String.
From S2P Require Import Prelude RustStd Address AsyncStream VlessStream Sockets UdpCopy UdpRouting CopyBidirectional.

(** [DerefMut]: what a pointer points to, and the pointer when that has changed. *)
Class DerefMut (P T : Type) : Type := {
  deref : P → T;
  deref_put : T → P → P;
  deref_get_put t p : deref (deref_put t p) = t;
  deref_put_get p : deref_put (deref p) p = p;
  deref_put_put t t' p : deref_put t' (deref_put t p) = deref_put t' p }.

Record Box (T : Type) : Type := MkBox { unbox : T }.
Arguments MkBox {T} _.
Arguments unbox {T} _.

#[export] Instance Box_deref {T} : DerefMut (Box T) T.
Proof. by refine {| deref := unbox; deref_put t _ := MkBox t |}; [|intros []|]. Defined.

(** A place in a value of type [O]: a variable, or a field of one. *)
Record place (O T : Type) : Type := MkPlace {
  borrow : O → T;
  assign : T → O → O;
  borrow_assign t o : borrow (assign t o) = t;
  assign_borrow o : assign (borrow o) o = o;
  assign_assign t t' o : assign t' (assign t o) = assign t' o }.
Arguments borrow {O T} _ _.
Arguments assign {O T} _ _ _.

Record RefMut {O T : Type} (l : place O T) : Type := MkRef { owner : O }.
Arguments MkRef {O T l} _.
Arguments owner {O T l} _.

#[export] Instance RefMut_deref {O T} (l : place O T) : DerefMut (RefMut l) T.
Proof.
  refine {| deref p := borrow l (owner p); deref_put t p := MkRef (assign l t (owner p)) |}.
  - intros t p. apply borrow_assign.
  - intros []. cbn. by rewrite assign_borrow.
  - intros t t' p. cbn. by rewrite assign_assign.
Defined.

(** [Pin::new(&mut **self).method(..)]. *)
Definition via {P T A} `{DerefMut P T} (op : T → poll A * T) (p : P) : poll A * P :=
  let '(x, t) := op (deref p) in (x, deref_put t p).

(** ** The implementations *)

Section Box.
Context {T : Type}.
#[export] Instance Box_read `{AsyncRead T} : AsyncRead (Box T) :=
  {| poll_read n := via (poll_read n); waits p := waits (deref p) |}.
#[export] Instance Box_write `{AsyncWrite T} : AsyncWrite (Box T) :=
  {| poll_write bs := via (poll_write bs); poll_flush := via poll_flush; poll_shutdown := via poll_shutdown;
     write_waits p := write_waits (deref p) |}.
#[export] Instance Box_ping `{AsyncPing T} : AsyncPing (Box T) :=
  {| supports_ping p := supports_ping (deref p); poll_write_ping := via poll_write_ping |}.
#[export] Instance Box_read_message `{AsyncReadMessage T} : AsyncReadMessage (Box T) :=
  fun n => via (poll_read_message n).
#[export] Instance Box_write_message `{AsyncWriteMessage T} : AsyncWriteMessage (Box T) :=
  fun bs => via (poll_write_message bs).
#[export] Instance Box_flush_message `{AsyncFlushMessage T} : AsyncFlushMessage (Box T) := via poll_flush_message.
#[export] Instance Box_shutdown_message `{AsyncShutdownMessage T} : AsyncShutdownMessage (Box T) :=
  via poll_shutdown_message.
#[export] Instance Box_read_targeted `{AsyncReadTargetedMessage T} : AsyncReadTargetedMessage (Box T) :=
  fun n => via (poll_read_targeted n).
#[export] Instance Box_write_sourced `{AsyncWriteSourcedMessage T} : AsyncWriteSourcedMessage (Box T) :=
  fun bs source => via (poll_write_sourced bs source).
End Box.

Section RefMut.
Context {O T : Type} {l : place O T}.
#[export] Instance RefMut_read `{AsyncRead T} : AsyncRead (RefMut l) :=
  {| poll_read n := via (poll_read n); waits p := waits (deref p) |}.
#[export] Instance RefMut_write `{AsyncWrite T} : AsyncWrite (RefMut l) :=
  {| poll_write bs := via (poll_write bs); poll_flush := via poll_flush; poll_shutdown := via poll_shutdown;
     write_waits p := write_waits (deref p) |}.
#[export] Instance RefMut_ping `{AsyncPing T} : AsyncPing (RefMut l) :=
  {| supports_ping p := supports_ping (deref p); poll_write_ping := via poll_write_ping |}.
#[export] Instance RefMut_read_message `{AsyncReadMessage T} : AsyncReadMessage (RefMut l) :=
  fun n => via (poll_read_message n).
#[export] Instance RefMut_write_message `{AsyncWriteMessage T} : AsyncWriteMessage (RefMut l) :=
  fun bs => via (poll_write_message bs).
#[export] Instance RefMut_flush_message `{AsyncFlushMessage T} : AsyncFlushMessage (RefMut l) := via poll_flush_message.
#[export] Instance RefMut_shutdown_message `{AsyncShutdownMessage T} : AsyncShutdownMessage (RefMut l) :=
  via poll_shutdown_message.
#[export] Instance RefMut_read_targeted `{AsyncReadTargetedMessage T} : AsyncReadTargetedMessage (RefMut l) :=
  fun n => via (poll_read_targeted n).
#[export] Instance RefMut_write_sourced `{AsyncWriteSourcedMessage T} : AsyncWriteSourcedMessage (RefMut l) :=
  fun bs source => via (poll_write_sourced bs source).
End RefMut.

(** ** The promises of the stream are the pointer's *)

Lemma via_inv {P T A} `{DerefMut P T} (op : T → poll A * T) p x p' :
  via op p = (x, p') → op (deref p) = (x, deref p').
Proof. unfold via. destruct (op (deref p)) as [y t]. intros [= <- <-]. by rewrite deref_get_put. Qed.

Lemma via_deref {P T A} `{DerefMut P T} (op : T → poll A * T) p : deref (via op p).2 = (op (deref p)).2.
Proof. unfold via. destruct (op (deref p)). apply deref_get_put. Qed.

Section Laws.
Context {P T : Type} `{DerefMut P T}.

Definition via_read_laws `{AsyncReadLaws T} {R : AsyncRead P}
  (HR : ∀ n p, poll_read n p = via (poll_read n) p) (HW : ∀ p, waits p = waits (deref p)) : AsyncReadLaws P.
Proof.
  unshelve refine {| incoming p := incoming (deref p) |}.
  - intros n s bs s'. rewrite HR. intros Hr%via_inv. by apply poll_read_ok.
  - intros n s s'. rewrite HR, !HW. intros Hr%via_inv. by apply (poll_read_pending n).
  - intros n s e s'. rewrite HR, !HW. intros Hr%via_inv. by eapply poll_read_interrupted.
  - intros n s r s'. rewrite HR. intros Hr%via_inv. by eapply poll_read_returns.
Defined.

Definition via_write_laws `{AsyncWriteLaws T} {W : AsyncWrite P}
  (HP : ∀ bs p, poll_write bs p = via (poll_write bs) p) (HF : ∀ p, poll_flush p = via poll_flush p)
  (HS : ∀ p, poll_shutdown p = via poll_shutdown p) (HW : ∀ p, write_waits p = write_waits (deref p)) : AsyncWriteLaws P.
Proof.
  unshelve refine {| written p := written (deref p) |}.
  - intros bs s k s'. rewrite HP. intros Hr%via_inv. by eapply poll_write_ok.
  - intros bs s s'. rewrite HP, !HW. intros Hr%via_inv. by eapply poll_write_pending.
  - intros bs s e s'. rewrite HP. intros Hr%via_inv. by eapply poll_write_err.
  - intros bs s r s'. rewrite HP. intros Hr%via_inv. by eapply poll_write_returns.
  - intros s. rewrite HF, via_deref. apply poll_flush_written.
  - intros s s'. rewrite HF, !HW. intros Hr%via_inv. by eapply poll_flush_pending.
  - intros s r s'. rewrite HF. intros Hr%via_inv. by eapply poll_flush_returns.
  - intros s. rewrite HS, via_deref. apply poll_shutdown_written.
  - intros s s'. rewrite HS, !HW. intros Hr%via_inv. by eapply poll_shutdown_pending.
  - intros s r s'. rewrite HS. intros Hr%via_inv. by eapply poll_shutdown_returns.
Defined.
End Laws.

Section StreamLaws.
Context {T : Type} `{AsyncReadLaws T} `{AsyncWriteLaws T} `{!AsyncPing T}.

#[export] Instance Box_read_laws : AsyncReadLaws (Box T) :=
  via_read_laws (P := Box T) (fun _ _ => eq_refl) (fun _ => eq_refl).
#[export] Instance Box_write_laws : AsyncWriteLaws (Box T) :=
  via_write_laws (P := Box T) (fun _ _ => eq_refl) (fun _ => eq_refl) (fun _ => eq_refl) (fun _ => eq_refl).
#[export] Instance RefMut_read_laws {O} (l : place O T) : AsyncReadLaws (RefMut l) :=
  via_read_laws (P := RefMut l) (fun _ _ => eq_refl) (fun _ => eq_refl).
#[export] Instance RefMut_write_laws {O} (l : place O T) : AsyncWriteLaws (RefMut l) :=
  via_write_laws (P := RefMut l) (fun _ _ => eq_refl) (fun _ => eq_refl) (fun _ => eq_refl) (fun _ => eq_refl).

#[export] Instance Box_progress `{!WriteProgress T} : WriteProgress (Box T).
Proof. intros bs s k s' Hr%via_inv Hb. by eapply poll_write_progress. Qed.
#[export] Instance RefMut_progress `{!WriteProgress T} {O} (l : place O T) : WriteProgress (RefMut l).
Proof. intros bs s k s' Hr%via_inv Hb. by eapply poll_write_progress. Qed.

#[local] Ltac via_laws :=
  split; [split|..]; intros *;
  cbn [written incoming supports_ping poll_read poll_write poll_flush poll_shutdown poll_write_ping
    Box_read Box_write Box_ping Box_read_laws Box_write_laws RefMut_read RefMut_write RefMut_ping
    RefMut_read_laws RefMut_write_laws via_read_laws via_write_laws];
  rewrite ?via_deref;
  first [apply ping_written|apply ping_supports|apply write_supports|apply flush_supports|apply read_keeps
    |apply write_keeps|apply flush_keeps|apply ping_keeps|apply shutdown_keeps
    |intros Hs Hr%via_inv; by eapply ping_returns].

#[export] Instance Box_laws `{!AsyncStreamLaws T} : AsyncStreamLaws (Box T).
Proof. via_laws. Qed.
#[export] Instance RefMut_laws `{!AsyncStreamLaws T} {O} (l : place O T) : AsyncStreamLaws (RefMut l).
Proof. via_laws. Qed.
End StreamLaws.

Section MessageLaws.
Context {T : Type} `{FiniteReads T}.

#[local] Ltac via_messages :=
  refine {| msg_valid p := msg_valid (deref p);
            msgs_got ms p p' := msgs_got ms (deref p) (deref p');
            msgs_put ms p p' := msgs_put ms (deref p) (deref p') |}; intros *;
  [apply got_refl|apply got_trans|apply put_refl|apply put_trans|..];
  [intros Hn Hv Hr%via_inv; exact (read_message_law _ _ _ _ Hn Hv Hr)
  |intros Hv Hr%via_inv; exact (write_message_law _ _ _ _ Hv Hr)
  |intros Hv Hr%via_inv; exact (flush_message_law _ _ _ Hv Hr)
  |intros Hv Hr%via_inv; exact (shutdown_message_law _ _ _ Hv Hr)
  |intros Hv Hs Hr%via_inv; exact (ping_message_law _ _ _ Hv Hs Hr)].

#[export] Instance Box_messages : MessageStream (Box T).
Proof. via_messages. Defined.
#[export] Instance RefMut_messages {O} (l : place O T) : MessageStream (RefMut l).
Proof. via_messages. Defined.

#[export] Instance Box_finite : FiniteReads (Box T).
Proof. refine {| reads_left p := reads_left (deref p) |}. intros ms s s' Hg. by apply reads_left_got. Defined.
#[export] Instance RefMut_finite {O} (l : place O T) : FiniteReads (RefMut l).
Proof. refine {| reads_left p := reads_left (deref p) |}. intros ms s s' Hg. by apply reads_left_got. Defined.
End MessageLaws.

Section TargetedLaws.
Context {T : Type} `{TargetedStream T}.

#[local] Ltac via_targeted :=
  refine {| tgt_valid p := tgt_valid (deref p);
            tgt_got ms p p' := tgt_got ms (deref p) (deref p');
            tgt_put ms p p' := tgt_put ms (deref p) (deref p');
            tgt_done p := tgt_done (deref p) |}; intros *;
  [apply tgt_got_refl|apply tgt_got_trans|apply tgt_put_refl|apply tgt_put_trans|..];
  [intros Hn Hv Hr%via_inv; exact (read_targeted_law _ _ _ _ Hn Hv Hr)
  |intros Hv Hr%via_inv; exact (write_sourced_law _ _ _ _ _ Hv Hr)
  |intros Hv Hr%via_inv; exact (flush_targeted_law _ _ _ Hv Hr)
  |intros Hv Hr%via_inv; exact (shutdown_targeted_law _ _ _ Hv Hr)].

#[export] Instance Box_targeted : TargetedStream (Box T).
Proof. via_targeted. Defined.
#[export] Instance RefMut_targeted {O} (l : place O T) : TargetedStream (RefMut l).
Proof. via_targeted. Defined.
End TargetedLaws.

(** ** Calls *)

(** The methods of the stream traits, and what they return. *)
Inductive call : Type :=
| SupportsPing | WritePing | Read (n : nat) | Write (bs : bytes) | Flush | Shutdown
| ReadMessage (n : nat) | WriteMessage (bs : bytes) | FlushMessage | ShutdownMessage
| ReadTargeted (n : nat) | WriteSourced (bs : bytes) (source : SocketAddr).

Inductive answer : Type :=
| Supports (b : bool) | Pinged (x : poll (res bool)) | Got (x : poll (res bytes)) | Took (x : poll (res nat))
| Done (x : poll (res unit)) | GotTargeted (x : poll (res (NetLocation * bytes))).

Section Calls.
Context {T : Type} `{AsyncRead T} `{AsyncWrite T} `{AsyncPing T} `{AsyncReadMessage T} `{AsyncWriteMessage T}
  `{AsyncFlushMessage T} `{AsyncShutdownMessage T} `{AsyncReadTargetedMessage T} `{AsyncWriteSourcedMessage T}.

Definition run_call (c : call) (s : T) : answer * T :=
  match c with
  | SupportsPing => (Supports (supports_ping s), s)
  | WritePing => let '(x, s) := poll_write_ping s in (Pinged x, s)
  | Read n => let '(x, s) := poll_read n s in (Got x, s)
  | Write bs => let '(x, s) := poll_write bs s in (Took x, s)
  | Flush => let '(x, s) := poll_flush s in (Done x, s)
  | Shutdown => let '(x, s) := poll_shutdown s in (Done x, s)
  | ReadMessage n => let '(x, s) := poll_read_message n s in (Got x, s)
  | WriteMessage bs => let '(x, s) := poll_write_message bs s in (Done x, s)
  | FlushMessage => let '(x, s) := poll_flush_message s in (Done x, s)
  | ShutdownMessage => let '(x, s) := poll_shutdown_message s in (Done x, s)
  | ReadTargeted n => let '(x, s) := poll_read_targeted n s in (GotTargeted x, s)
  | WriteSourced bs source => let '(x, s) := poll_write_sourced bs source s in (Done x, s)
  end.

Fixpoint run_calls (cs : list call) (s : T) : list answer * T :=
  match cs with
  | [] => ([], s)
  | c :: cs => let '(a, s) := run_call c s in let '(l, s) := run_calls cs s in (a :: l, s)
  end.
End Calls.

(** Calls through a pointer that answers each as its target would. *)
Lemma run_calls_via {P T} `{DerefMut P T} (callP : call → P → answer * P) (callT : call → T → answer * T)
    (runP : list call → P → list answer * P) (runT : list call → T → list answer * T) :
  (∀ p, runP [] p = ([], p)) → (∀ t, runT [] t = ([], t)) →
  (∀ c cs p, runP (c :: cs) p = let '(a, p) := callP c p in let '(l, p) := runP cs p in (a :: l, p)) →
  (∀ c cs t, runT (c :: cs) t = let '(a, t) := callT c t in let '(l, t) := runT cs t in (a :: l, t)) →
  (∀ c p, callP c p = let '(a, t) := callT c (deref p) in (a, deref_put t p)) →
  ∀ cs p, runP cs p = let '(l, t) := runT cs (deref p) in (l, deref_put t p).
Proof.
  intros HP0 HT0 HPc HTc Hcall cs. induction cs as [|c cs IH]; intros p.
  { by rewrite HP0, HT0, deref_put_get. }
  rewrite HPc, HTc, Hcall. destruct (callT c (deref p)) as [a t]. rewrite IH, deref_get_put.
  destruct (runT cs t) as [l t']. by rewrite deref_put_put.
Qed.

Lemma via_pair {P T A B} `{DerefMut P T} (op : T → poll A * T) (f : poll A → B) p :
  (let '(x, s) := via op p in (f x, s)) =
  (let '(a, t) := (let '(x, s) := op (deref p) in (f x, s)) in (a, deref_put t p)).
Proof. unfold via. by destruct (op (deref p)). Qed.

(** ** Property *)

