(* ===== verification/AnyTlsStream.v ===== *)
(** * AnyTLS streams (src/anytls/stream.rs)

    One multiplexed stream: reads come from a channel the session fills, writes
    go to the channel the session drains.  The channels are tokio's and the
    closed flag belongs to the session, so all three are interfaces here, with
    the documented behaviour of [mpsc::Receiver], [PollSender] and [AtomicBool]
    as laws.  The stream keeps the promises of [AsyncStreamLaws]. *)

From Stdlib Require Import String.
From S2P Require Import Prelude AsyncStream QuicStream CopyBidirectional VlessStream.

Definition STREAM_CHANNEL_BUFFER : nat := 16.
Definition MAX_FRAME_DATA_SIZE : nat := Z.to_nat 65535.

(** ** The channels *)

(** [mpsc::Receiver<Bytes>]: [None] once every sender is gone and the queue is
    empty. *)
Class Receiver (Rx : Type) : Type := {
  poll_recv : Rx → poll (option bytes) * Rx;
  recv_waits : Rx → nat }.

Class ReceiverLaws (Rx : Type) `{Receiver Rx} : Type := {
  items : Rx → list bytes;
  poll_recv_some r d r' : poll_recv r = (Ready (Some d), r') → items r = d :: items r';
  poll_recv_none r r' : poll_recv r = (Ready None, r') → items r = [];
  poll_recv_pending r r' : poll_recv r = (Pending, r') →
    items r' = items r ∧ (recv_waits r' < recv_waits r)%nat }.

(** [PollSender<(u32, Bytes)>]: [poll_reserve] is [Ready false] when the channel is
    closed; [send_item] panics without a reservation and returns [false] when the
    channel was closed meanwhile; [try_send] includes the test of [get_ref]. *)
Class PollSender (Tx : Type) : Type := {
  poll_reserve : Tx → poll bool * Tx;
  send_item : Z * bytes → Tx → res bool * Tx;
  try_send : Z * bytes → Tx → Tx;
  send_waits : Tx → nat }.

Class PollSenderLaws (Tx : Type) `{PollSender Tx} : Type := {
  sent : Tx → list (Z * bytes);
  reserved : Tx → bool;
  poll_reserve_ready t b t' : poll_reserve t = (Ready b, t') → sent t' = sent t ∧ reserved t' = b;
  poll_reserve_pending t t' : poll_reserve t = (Pending, t') →
    sent t' = sent t ∧ (send_waits t' < send_waits t)%nat;
  send_item_reserved i t r t' : send_item i t = (r, t') → reserved t = true →
    ∃ b, r = Ok b ∧ sent t' = sent t ++ (if b : bool then [i] else []);
  try_send_sent i t : sent (try_send i t) = sent t ∨ sent (try_send i t) = sent t ++ [i] }.

(** [Arc<AtomicBool>]: what a load returns is up to the session. *)
Class Flag (F : Type) : Type := load : F → bool * F.

(** ** The stream *)

Record AnyTlsStream (Rx Tx F : Type) : Type := MkStream {
  sid : Z; data_rx : Rx; read_buffer : bytes; read_offset : nat; data_tx : Tx;
  session_closed : F; stream_closed : bool; shutdown_in_progress : bool; eof : bool }.
Arguments MkStream {Rx Tx F} _ _ _ _ _ _ _ _ _.
Arguments sid {Rx Tx F} _.
Arguments data_rx {Rx Tx F} _.
Arguments read_buffer {Rx Tx F} _.
Arguments read_offset {Rx Tx F} _.
Arguments data_tx {Rx Tx F} _.
Arguments session_closed {Rx Tx F} _.
Arguments stream_closed {Rx Tx F} _.
Arguments shutdown_in_progress {Rx Tx F} _.
Arguments eof {Rx Tx F} _.

Section Ops.
Context {Rx Tx F : Type} `{Receiver Rx} `{PollSender Tx} `{Flag F}.
Abbreviation S := (AnyTlsStream Rx Tx F).

Definition stream_new (id : Z) (data_rx : Rx) (data_tx : Tx) (session_closed : F) : S :=
  MkStream id data_rx [] 0 data_tx session_closed false false false.

Definition set_read (rx : Rx) (buf : bytes) (off : nat) (e : bool) (s : S) : S :=
  MkStream (sid s) rx buf off (data_tx s) (session_closed s) (stream_closed s)
    (shutdown_in_progress s) e.
Definition set_tx (tx : Tx) (s : S) : S :=
  MkStream (sid s) (data_rx s) (read_buffer s) (read_offset s) tx (session_closed s)
    (stream_closed s) (shutdown_in_progress s) (eof s).
Definition set_flag (f : F) (s : S) : S :=
  MkStream (sid s) (data_rx s) (read_buffer s) (read_offset s) (data_tx s) f
    (stream_closed s) (shutdown_in_progress s) (eof s).
Definition set_closed (s : S) : S :=
  MkStream (sid s) (data_rx s) (read_buffer s) (read_offset s) (data_tx s) (session_closed s)
    true (shutdown_in_progress s) (eof s).
Definition set_shutting (s : S) : S :=
  MkStream (sid s) (data_rx s) (read_buffer s) (read_offset s) (data_tx s) (session_closed s)
    (stream_closed s) true (eof s).

Definition broken_pipe (m : string) : io_error := io_err BrokenPipe m.

(** [AsyncRead::poll_read] with [n] bytes free in the caller's buffer. *)
Definition stream_poll_read (n : nat) (s : S) : poll (res bytes) * S :=
  if stream_closed s then (Ready (Err (broken_pipe "stream closed")), s)
  else
    let remaining_in_buffer := (length (read_buffer s) - read_offset s)%nat in
    if eof s && (remaining_in_buffer =? 0)%nat then (Ready (Ok []), s)
    else if (0 <? remaining_in_buffer)%nat then
      let k := Nat.min remaining_in_buffer n in
      let out := slice (read_offset s) (read_offset s + k) (read_buffer s) in
      let off := (read_offset s + k)%nat in
      if (length (read_buffer s) <=? off)%nat
      then (Ready (Ok out), set_read (data_rx s) [] 0 (eof s) s)
      else (Ready (Ok out), set_read (data_rx s) (read_buffer s) off (eof s) s)
    else
      match poll_recv (data_rx s) with
      | (Ready (Some data), rx) =>
          if bool_decide (data = [])
          then (Ready (Ok []), set_read rx (read_buffer s) (read_offset s) true s)
          else
            let k := Nat.min (length data) n in
            if (k <? length data)%nat
            then (Ready (Ok (take k data)), set_read rx data k (eof s) s)
            else (Ready (Ok (take k data)), set_read rx (read_buffer s) (read_offset s) (eof s) s)
      | (Ready None, rx) => (Ready (Ok []), set_read rx (read_buffer s) (read_offset s) true s)
      | (Pending, rx) => (Pending, set_read rx (read_buffer s) (read_offset s) (eof s) s)
      end.

(** Reserve a slot and send one item with it, as both writing methods do; [on_sent]
    and [on_failed] are what they do to the stream then, [e1] and [e2] their errors. *)
Definition reserve_and_send {A} (item : bytes) (value : A) (after : S → S) (e1 e2 : io_error)
    (s : S) : poll (res A) * S :=
  match poll_reserve (data_tx s) with
  | (Ready true, tx) =>
      match send_item (sid s, item) tx with
      | (Ok true, tx) => (Ready (Ok value), after (set_tx tx s))
      | (Ok false, tx) => (Ready (Err e1), after (set_tx tx s))
      | (Err e, tx) => (Ready (Err e), set_tx tx s)
      | (Panic w, tx) => (Ready (Panic w), set_tx tx s)
      | (OutOfFuel, tx) => (Ready OutOfFuel, set_tx tx s)
      end
  | (Ready false, tx) => (Ready (Err e2), after (set_tx tx s))
  | (Pending, tx) => (Pending, set_tx tx s)
  end.

Definition stream_poll_write (buf : bytes) (s : S) : poll (res nat) * S :=
  if stream_closed s then (Ready (Err (broken_pipe "stream closed")), s)
  else if shutdown_in_progress s then (Ready (Err (broken_pipe "stream is shutting down")), s)
  else
    let '(closed, f) := load (session_closed s) in
    let s := set_flag f s in
    if closed then (Ready (Err (broken_pipe "session closed")), s)
    else
      let write_len := Nat.min (length buf) MAX_FRAME_DATA_SIZE in
      reserve_and_send (take write_len buf) write_len (fun s => s)
        (broken_pipe "session channel closed") (broken_pipe "session channel closed") s.

Definition stream_poll_flush (s : S) : poll (res unit) * S := (Ready (Ok tt), s).

Definition stream_poll_shutdown (s : S) : poll (res unit) * S :=
  if stream_closed s then (Ready (Ok tt), s)
  else
    let '(closed, f) := load (session_closed s) in
    let s := set_flag f s in
    if closed then (Ready (Ok tt), set_closed s)
    else
      reserve_and_send [] tt set_closed (broken_pipe "session channel closed during shutdown")
        (broken_pipe "session channel closed") (set_shutting s).

Definition send_fin_best_effort (s : S) : S := set_tx (try_send (sid s, []) (data_tx s)) s.

Definition stream_drop (s : S) : S :=
  if stream_closed s then s else send_fin_best_effort (set_closed s).

#[export] Instance AnyTlsStream_AsyncRead : AsyncRead S :=
  {| poll_read := stream_poll_read; waits s := recv_waits (data_rx s) |}.
#[export] Instance AnyTlsStream_AsyncWrite : AsyncWrite S :=
  {| poll_write := stream_poll_write; poll_flush := stream_poll_flush;
     poll_shutdown := stream_poll_shutdown; write_waits s := send_waits (data_tx s) |}.
#[export] Instance AnyTlsStream_AsyncPing : AsyncPing S :=
  {| supports_ping _ := false; poll_write_ping s := (Ready (Ok false), s) |}.
End Ops.

(** ** What the items mean: bytes up to the first empty item, which is the FIN. *)

Fixpoint item_bytes (its : list bytes) : bytes :=
  match its with
  | [] | [] :: _ => []
  | d :: its' => d ++ item_bytes its'
  end.

Lemma item_bytes_cons d its : d ≠ [] → item_bytes (d :: its) = d ++ item_bytes its.
Proof. by destruct d. Qed.

Section Laws.
Context {Rx Tx F : Type} `{ReceiverLaws Rx} `{PollSenderLaws Tx} `{Flag F}.
Abbreviation S := (AnyTlsStream Rx Tx F).
Implicit Types s : S.

Definition stream_incoming (s : S) : bytes :=
  drop (read_offset s) (read_buffer s) ++ (if eof s then [] else item_bytes (items (data_rx s))).

Definition stream_written (s : S) : bytes := concat (snd <$> sent (data_tx s)).

(** The read side of a poll touches nothing of the write side, and keeps the
    offset within the buffer. *)
Lemma stream_read_frame n s :
  let s' := (stream_poll_read n s).2 in
  data_tx s' = data_tx s ∧ sid s' = sid s ∧ stream_closed s' = stream_closed s ∧
  shutdown_in_progress s' = shutdown_in_progress s ∧ session_closed s' = session_closed s ∧
  ((read_offset s ≤ length (read_buffer s))%nat → (read_offset s' ≤ length (read_buffer s'))%nat).
Proof.
  cbv zeta. unfold stream_poll_read. repeat (case_match_eqn; try done); cbn; zbool;
    split_and!; try done; lia.
Qed.

Lemma stream_read_spec n s x s' :
  stream_poll_read n s = (x, s') →
  match x with
  | Ready (Ok bs) => (length bs ≤ n)%nat ∧ stream_incoming s = bs ++ stream_incoming s' ∧
      ((0 < n)%nat → bs = [] → stream_incoming s = [])
  | Ready (Err e) => e = broken_pipe "stream closed" ∧ s' = s ∧ stream_closed s = true
  | Pending => stream_incoming s' = stream_incoming s ∧
      (recv_waits (data_rx s') < recv_waits (data_rx s))%nat
  | _ => False
  end.
Proof.
  unfold stream_poll_read. destruct (stream_closed s); [intros; by simplify_eq|].
  destruct (eof s && _)%bool eqn:He.
  { intros. simplify_eq. apply andb_prop in He as [He ?]. zbool. unfold stream_incoming.
    rewrite He, drop_ge by lia. split_and!; [cbn; lia|done..]. }
  destruct (0 <? _)%nat eqn:Hr; zbool.
  - set (k := Nat.min _ n). set (out := slice _ _ _).
    assert (Ho : drop (read_offset s) (read_buffer s) =
      out ++ drop (read_offset s + k) (read_buffer s)).
    { unfold out, slice. rewrite <-drop_drop.
      replace (read_offset s + k - read_offset s)%nat with k by lia. by rewrite take_drop. }
    assert (Hl : length out = k) by (unfold out; rewrite length_slice; lia).
    intros Hx.
    assert (x = Ready (Ok out) ∧ stream_incoming s = out ++ stream_incoming s') as [-> Hi].
    { unfold stream_incoming at 1. rewrite Ho, <-app_assoc.
      destruct (length (read_buffer s) <=? _)%nat eqn:Hk; zbool; simplify_eq; split; try done.
      rewrite drop_ge by lia. done. }
    split_and!; [lia|done|]. intros Hn ->. cbn in Hl. lia.
  - unfold stream_incoming. destruct (poll_recv (data_rx s)) as [[[d|]|] rx] eqn:E.
    + apply poll_recv_some in E. rewrite E, drop_ge by lia.
      case_bool_decide as Hd; [subst; intros; simplify_eq; cbn; rewrite app_nil_r, drop_ge by lia|].
      { destruct (eof s); split_and!; (done || lia). }
      assert (eof s = false) as Hf.
      { destruct (eof s); [|done]. cbn in He. zbool. lia. }
      rewrite Hf, item_bytes_cons by done. set (k := Nat.min (length d) n).
      assert (length (take k d) = k) as Hk by (rewrite length_take; lia).
      assert ((0 < n)%nat → take k d = [] → False).
      { intros Hn Hn'. rewrite Hn' in Hk. unfold k in Hk. destruct d; [done|]. cbn [length] in Hk. lia. }
      destruct (k <? length d)%nat eqn:Hkd; zbool; intros; simplify_eq; cbn;
        (split_and!; [lia| |by intros; exfalso; eauto]).
      * by rewrite app_assoc, take_drop.
      * rewrite take_ge, drop_ge by lia. done.
    + apply poll_recv_none in E. rewrite E, drop_ge by lia. intros. simplify_eq. cbn.
      rewrite drop_ge by lia. destruct (eof s); split_and!; (done || lia).
    + apply poll_recv_pending in E as [E ?]. intros. simplify_eq. cbn. by rewrite E.
Qed.

#[export] Instance AnyTlsStream_read_laws : AsyncReadLaws S.
Proof.
  refine {| incoming := stream_incoming |}.
  - intros n s bs s' Hr%stream_read_spec. done.
  - intros n s s' Hr%stream_read_spec. done.
  - intros n s e s' Hr%stream_read_spec Hk. by destruct Hr as [-> _].
  - intros n s r s' Hr%stream_read_spec. by destruct r.
Defined.

(** ** The write side *)

(** The parts of the stream a write-side method may change. *)
Definition read_side (s : S) := (sid s, data_rx s, read_buffer s, read_offset s, eof s).

Lemma reserve_and_send_spec {A} item (value : A) (after : S → S) e1 e2 s x s' :
  reserve_and_send item value after e1 e2 s = (x, s') →
  (∀ s, data_tx (after s) = data_tx s ∧ read_side (after s) = read_side s) →
  read_side s' = read_side s ∧
  match x with
  | Ready (Ok v) => v = value ∧ sent (data_tx s') = sent (data_tx s) ++ [(sid s, item)] ∧
      ∃ tx, s' = after (set_tx tx s)
  | Ready (Err e) => (e = e1 ∨ e = e2) ∧ sent (data_tx s') = sent (data_tx s) ∧
      ∃ tx, s' = after (set_tx tx s)
  | Pending => sent (data_tx s') = sent (data_tx s) ∧
      (send_waits (data_tx s') < send_waits (data_tx s))%nat ∧ ∃ tx, s' = set_tx tx s
  | _ => False
  end.
Proof.
  intros Hr Ha. unfold reserve_and_send in Hr.
  destruct (poll_reserve (data_tx s)) as [[b|] tx] eqn:E.
  - apply poll_reserve_ready in E as [Hs Hres]. destruct b.
    + destruct (send_item (sid s, item) tx) as [r tx'] eqn:E'.
      destruct (send_item_reserved _ _ _ _ E' Hres) as (b & -> & Hs').
      destruct b; simplify_eq; destruct (Ha (set_tx tx' s)) as [Hd Hf]; rewrite Hd;
        (split; [exact Hf|]); cbn [data_tx set_tx]; rewrite Hs', Hs, ?app_nil_r; eauto.
    + simplify_eq. destruct (Ha (set_tx tx s)) as [Hd Hf]. rewrite Hd. split; [exact Hf|]. eauto.
  - apply poll_reserve_pending in E as [Hs Hw]. simplify_eq. split; [done|]. eauto.
Qed.

Lemma concat_sent_snoc (l : list (Z * bytes)) i d :
  concat (snd <$> l ++ [(i, d)]) = concat (snd <$> l) ++ d.
Proof. by rewrite fmap_app, concat_app; cbn; rewrite app_nil_r. Qed.

Lemma stream_write_spec buf s x s' :
  stream_poll_write buf s = (x, s') →
  read_side s' = read_side s ∧ stream_closed s' = stream_closed s ∧
  shutdown_in_progress s' = shutdown_in_progress s ∧
  match x with
  | Ready (Ok k) => stream_closed s = false ∧ shutdown_in_progress s = false ∧
      k = Nat.min (length buf) MAX_FRAME_DATA_SIZE ∧
      sent (data_tx s') = sent (data_tx s) ++ [(sid s, take k buf)]
  | Ready (Err e) => err_kind e = BrokenPipe ∧ sent (data_tx s') = sent (data_tx s)
  | Pending => sent (data_tx s') = sent (data_tx s) ∧
      (send_waits (data_tx s') < send_waits (data_tx s))%nat
  | _ => False
  end.
Proof.
  unfold stream_poll_write. destruct (stream_closed s) eqn:Hc; [intros; by simplify_eq|].
  destruct (shutdown_in_progress s) eqn:Hp; [intros; by simplify_eq|].
  destruct (load (session_closed s)) as [[] f]; [intros; by simplify_eq|].
  intros (Hs & Hx)%reserve_and_send_spec; [|done]. split; [done|].
  destruct x as [[k|e|w|]|]; try done.
  - destruct Hx as (-> & Hx & tx & ->). split_and!; done.
  - destruct Hx as ([-> | ->] & Hx & tx & ->); split_and!; done.
  - destruct Hx as (Hx & Hw & tx & ->). split_and!; done.
Qed.

Lemma stream_shutdown_spec s x s' :
  stream_poll_shutdown s = (x, s') →
  read_side s' = read_side s ∧
  match x with
  | Ready (Ok _) => stream_closed s' = true ∧
      (sent (data_tx s') = sent (data_tx s) ∨
       stream_closed s = false ∧ sent (data_tx s') = sent (data_tx s) ++ [(sid s, [])])
  | Ready (Err e) => err_kind e = BrokenPipe ∧ stream_closed s' = true ∧
      sent (data_tx s') = sent (data_tx s)
  | Pending => shutdown_in_progress s' = true ∧ stream_closed s' = stream_closed s ∧
      sent (data_tx s') = sent (data_tx s) ∧
      (send_waits (data_tx s') < send_waits (data_tx s))%nat
  | _ => False
  end.
Proof.
  unfold stream_poll_shutdown. destruct (stream_closed s) eqn:Hc; [intros; simplify_eq; auto|].
  destruct (load (session_closed s)) as [[] f]; [intros; simplify_eq; auto|].
  intros (Hs & Hx)%reserve_and_send_spec; [|done]. split; [done|].
  destruct x as [[k|e|w|]|]; try done.
  - destruct Hx as (-> & Hx & tx & ->). split; [done|]. by right.
  - destruct Hx as ([-> | ->] & Hx & tx & ->); split_and!; done.
  - destruct Hx as (Hx & Hw & tx & ->). split_and!; done.
Qed.

Lemma read_side_incoming s s' : read_side s' = read_side s → stream_incoming s' = stream_incoming s.
Proof. intros [= _ Hrx Hb Ho He]. unfold stream_incoming. by rewrite Hrx, Hb, Ho, He. Qed.

#[export] Instance AnyTlsStream_write_laws : AsyncWriteLaws S.
Proof.
  refine {| written := stream_written |}; unfold stream_written;
    cbn [poll_write poll_flush poll_shutdown write_waits AnyTlsStream_AsyncWrite]; try done.
  - intros bs s k s' (_ & _ & _ & _ & _ & -> & Hs)%stream_write_spec.
    rewrite Hs, concat_sent_snoc. split; [lia|done].
  - intros bs s s' (_ & _ & _ & Hs & Hw)%stream_write_spec. by rewrite Hs.
  - intros bs s e s' (_ & _ & _ & _ & Hs)%stream_write_spec. by rewrite Hs.
  - intros bs s r s' (_ & _ & _ & Hr)%stream_write_spec. by destruct r.
  - intros s r s' [= <- <-]. done.
  - intros s. destruct (stream_poll_shutdown s) as [x s'] eqn:E.
    apply stream_shutdown_spec in E as [_ Hx].
    destruct x as [[|e| |]|]; try done; cbn [snd].
    + destruct Hx as (_ & [-> | [_ ->]]); [done|]. by rewrite concat_sent_snoc, app_nil_r.
    + destruct Hx as (_ & _ & ->). done.
    + destruct Hx as (_ & _ & -> & _). done.
  - intros s s' (_ & _ & _ & _ & Hw)%stream_shutdown_spec. done.
  - intros s r s' (_ & Hr)%stream_shutdown_spec. by destruct r.
Defined.

#[export] Instance AnyTlsStream_progress : WriteProgress S.
Proof.
  intros bs s k s' (_ & _ & _ & _ & _ & -> & _)%stream_write_spec Hb.
  assert (0 < length bs)%nat by (destruct bs; [done|cbn; lia]).
  unfold MAX_FRAME_DATA_SIZE. lia.
Qed.

#[export] Instance AnyTlsStream_laws : AsyncStreamLaws S.
Proof.
  split; [split|..]; try done.
  - intros n s. destruct (stream_read_frame n s) as (Hd & _).
    change (stream_written (stream_poll_read n s).2 = stream_written s ∧ false = false).
    unfold stream_written. by rewrite Hd.
  - intros bs s. apply read_side_incoming. cbn [poll_write AnyTlsStream_AsyncWrite].
    destruct (stream_poll_write bs s) eqn:E. by apply stream_write_spec in E as [? _].
  - intros s. apply read_side_incoming. cbn [poll_shutdown AnyTlsStream_AsyncWrite].
    destruct (stream_poll_shutdown s) eqn:E. by apply stream_shutdown_spec in E as [? _].
Qed.
End Laws.

(** ** Any use of a stream *)

Inductive stream_op : Set :=
| SRead (n : nat) | SWrite (bs : bytes) | SFlush | SShutdown | SDrop.

(** What the owner of the stream has seen: bytes read, bytes accepted. *)
Record stream_log : Set := MkSLog { got_bytes : bytes; accepted_bytes : bytes; sl_crashed : bool }.

Section Trace.
Context {Rx Tx F : Type} `{ReceiverLaws Rx} `{PollSenderLaws Tx} `{Flag F}.
Abbreviation S := (AnyTlsStream Rx Tx F).
Implicit Types s : S.

Definition stream_step (op : stream_op) (s : S) (l : stream_log) : S * stream_log :=
  match op with
  | SRead n =>
      let '(x, s') := poll_read n s in
      (s', MkSLog (got_bytes l ++ match x with Ready (Ok bs) => bs | _ => [] end)
             (accepted_bytes l) (sl_crashed l || crashes x))
  | SWrite bs =>
      let '(x, s') := poll_write bs s in
      (s', MkSLog (got_bytes l)
             (accepted_bytes l ++ match x with Ready (Ok k) => take k bs | _ => [] end)
             (sl_crashed l || crashes x))
  | SFlush => let '(x, s') := poll_flush s in
      (s', MkSLog (got_bytes l) (accepted_bytes l) (sl_crashed l || crashes x))
  | SShutdown => let '(x, s') := poll_shutdown s in
      (s', MkSLog (got_bytes l) (accepted_bytes l) (sl_crashed l || crashes x))
  | SDrop => (stream_drop s, l)
  end.

Fixpoint stream_steps (ops : list stream_op) (s : S) (l : stream_log) : S * stream_log :=
  match ops with
  | [] => (s, l)
  | op :: ops' => let '(s', l') := stream_step op s l in stream_steps ops' s' l'
  end.

Definition data_item (i : Z) (it : Z * bytes) : Prop :=
  it.1 = i ∧ (length it.2 ≤ MAX_FRAME_DATA_SIZE)%nat.

(** Data, and then the FIN if the stream is closed with one. *)
Definition fin_last (i : Z) (new : list (Z * bytes)) (closed : bool) : Prop :=
  Forall (fun it => it.2 ≠ []) new ∨
  closed = true ∧ ∃ body, new = body ++ [(i, [])] ∧ Forall (fun it => it.2 ≠ []) body.

Definition empty_write (op : stream_op) : bool :=
  match op with SWrite [] => true | _ => false end.

Definition stream_inv (i : Z) (all : bytes) (tx0 : Tx) (no_empty : bool) s (l : stream_log) : Prop :=
  sl_crashed l = false ∧ sid s = i ∧ (read_offset s ≤ length (read_buffer s))%nat ∧
  got_bytes l ++ stream_incoming s = all ∧
  ∃ new, sent (data_tx s) = sent tx0 ++ new ∧ concat (snd <$> new) = accepted_bytes l ∧
    Forall (data_item i) new ∧ (no_empty = true → fin_last i new (stream_closed s)).

Lemma stream_inv_read i all tx0 ne n s l s' l' :
  stream_step (SRead n) s l = (s', l') → stream_inv i all tx0 ne s l → stream_inv i all tx0 ne s' l'.
Proof.
  cbn [stream_step poll_read AnyTlsStream_AsyncRead].
  destruct (stream_poll_read n s) as [x s1] eqn:E. intros [= <- <-] (Hc & Hi & Ho & Hg & Hn).
  pose proof (stream_read_frame n s) as Hf. rewrite E in Hf. cbn [snd] in Hf.
  destruct Hf as (Htx & Hid & Hcl & _ & _ & Hoff).
  unfold stream_inv. cbn [got_bytes accepted_bytes sl_crashed]. rewrite Htx, Hid, Hcl, Hc.
  apply stream_read_spec in E. split_and!; try done; try tauto;
    destruct x as [[bs|e|w|]|]; try done; rewrite ?app_nil_r; rewrite <-Hg.
  - destruct E as (_ & -> & _). by rewrite <-app_assoc.
  - by destruct E as (_ & -> & _).
  - by destruct E as (-> & _).
Qed.

(** The write-side methods keep the read side, and send at most one item. *)
Lemma stream_inv_send i all tx0 ne s l s' acc it :
  read_side s' = read_side s → stream_inv i all tx0 ne s l →
  sent (data_tx s') = sent (data_tx s) ++ it → concat (snd <$> it) = acc →
  Forall (data_item i) it →
  (ne = true → ∀ new, fin_last i new (stream_closed s) → fin_last i (new ++ it) (stream_closed s')) →
  stream_inv i all tx0 ne s' (MkSLog (got_bytes l) (accepted_bytes l ++ acc) (sl_crashed l)).
Proof.
  intros Hr (Hc & Hi & Ho & Hg & new & Hs & Ha & Hd & Hf) Hs' <- Hd' Hfin.
  pose proof (read_side_incoming _ _ Hr) as Hin. injection Hr as Hid _ Hb Hoff _.
  unfold stream_inv. cbn [got_bytes accepted_bytes sl_crashed]. rewrite Hin, Hid, Hb, Hoff.
  split_and!; try done. exists (new ++ it).
  rewrite Hs', Hs, app_assoc, fmap_app, concat_app, Ha.
  split_and!; try done; [by apply Forall_app|]. intros Hne. by apply Hfin, Hf.
Qed.

Lemma fin_last_keep i new c c' : (c = true → c' = true) → fin_last i new c → fin_last i (new ++ []) c'.
Proof. rewrite app_nil_r. intros ? [?|[? ?]]; [by left|right; auto]. Qed.

Lemma stream_inv_same i all tx0 ne s l s' :
  read_side s' = read_side s → stream_inv i all tx0 ne s l →
  sent (data_tx s') = sent (data_tx s) → (stream_closed s = true → stream_closed s' = true) →
  stream_inv i all tx0 ne s' (MkSLog (got_bytes l) (accepted_bytes l) (sl_crashed l)).
Proof.
  intros Hr Hi Hs Hc. rewrite <-(app_nil_r (accepted_bytes l)).
  eapply (stream_inv_send _ _ _ _ s _ _ [] []); try done; [by rewrite app_nil_r|]. intros _ new. by apply fin_last_keep.
Qed.

(** A stream that was open sends its FIN and is closed. *)
Lemma stream_inv_fin i all tx0 ne s l s' :
  read_side s' = read_side s → stream_inv i all tx0 ne s l → stream_closed s = false →
  sent (data_tx s') = sent (data_tx s) ++ [(sid s, [])] → stream_closed s' = true →
  stream_inv i all tx0 ne s' (MkSLog (got_bytes l) (accepted_bytes l) (sl_crashed l)).
Proof.
  intros Hr Hi Ho Hs Hc. rewrite <-(app_nil_r (accepted_bytes l)).
  eapply (stream_inv_send _ _ _ _ s _ _ [] [(sid s, [])]); try done; rewrite (proj1 (proj2 Hi)).
  - apply Forall_singleton. split; [done|cbn; lia].
  - intros _ new [?|[? _]]; [|congruence]. right. eauto.
Qed.

Lemma stream_step_inv i all tx0 ne op s l s' l' :
  stream_step op s l = (s', l') → (ne = true → empty_write op = false) →
  stream_inv i all tx0 ne s l → stream_inv i all tx0 ne s' l'.
Proof.
  intros Hst Hne Hi. destruct op as [n|bs| | |]; [by eapply stream_inv_read| | | |];
    cbn [stream_step poll_write poll_flush poll_shutdown AnyTlsStream_AsyncWrite] in Hst.
  - destruct (stream_poll_write bs s) as [x s1] eqn:E. injection Hst as <- <-.
    apply stream_write_spec in E as (Hr & Hc & _ & Hx).
    destruct x as [[k|e|w|]|]; try done; cbn [crashes]; rewrite orb_false_r, ?app_nil_r;
      [|destruct Hx as [_ Hx]; (eapply stream_inv_same; [done..|by rewrite Hc])
       |destruct Hx as [Hx _]; (eapply stream_inv_same; [done..|by rewrite Hc])].
    destruct Hx as (Ho & _ & Hk & Hs).
    eapply (stream_inv_send _ _ _ _ s _ _ _ [(sid s, take k bs)]); try done.
    + cbn. by rewrite app_nil_r.
    + apply Forall_singleton. split; [apply Hi|]. cbn. rewrite length_take. lia.
    + intros Hn new [Hf|[Hf _]]; [|congruence]. left. apply Forall_app. split; [done|].
      apply Forall_singleton. cbn. subst k. destruct bs; [by specialize (Hne Hn)|].
      unfold MAX_FRAME_DATA_SIZE. by destruct (Z.to_nat 65535) eqn:?; [lia|].
  - injection Hst as <- <-. cbn [crashes]. rewrite orb_false_r. by destruct l.
  - destruct (stream_poll_shutdown s) as [x s1] eqn:E. injection Hst as <- <-.
    apply stream_shutdown_spec in E as (Hr & Hx).
    destruct x as [[k|e|w|]|]; try done; cbn [crashes]; rewrite orb_false_r.
    + destruct Hx as (Hc & [Hs|[Ho Hs]]); [by eapply stream_inv_same|by eapply stream_inv_fin].
    + destruct Hx as (_ & Hc & Hs). by eapply stream_inv_same.
    + destruct Hx as (_ & Hc & Hs & _). eapply stream_inv_same; [done..|by rewrite Hc].
  - injection Hst as <- <-. unfold stream_drop. destruct (stream_closed s) eqn:Hc; [done|].
    replace l with (MkSLog (got_bytes l) (accepted_bytes l) (sl_crashed l)) by by destruct l.
    destruct (try_send_sent (sid s, []) (data_tx s)) as [Hs|Hs].
    + by apply (stream_inv_same _ _ _ _ s).
    + by apply (stream_inv_fin _ _ _ _ s).
Qed.

Lemma stream_steps_inv i all tx0 ne ops s l s' l' :
  stream_steps ops s l = (s', l') → (ne = true → forallb (negb ∘ empty_write) ops = true) →
  stream_inv i all tx0 ne s l → stream_inv i all tx0 ne s' l'.
Proof.
  revert s l. induction ops as [|op ops IH]; intros s l Hr Hne Hi; cbn [stream_steps] in Hr.
  - by simplify_eq.
  - destruct (stream_step op s l) as [s1 l1] eqn:E. eapply IH; [done| |].
    + intros Hn. by apply Hne, andb_prop in Hn as [_ ?].
    + eapply stream_step_inv; [done| |done]. intros Hn. apply Hne, andb_prop in Hn as [Hn _].
      by apply negb_true_iff in Hn.
Qed.
End Trace.


(** ** Scripted channels *)

Record ScriptRx : Set := MkRx { rx_script : list (option bytes) }.

(** [None] in the script is a poll that is [Pending]. *)
#[export] Instance ScriptRx_Receiver : Receiver ScriptRx :=
  {| poll_recv r :=
       match rx_script r with
       | [] => (Ready None, r)
       | Some d :: ds => (Ready (Some d), MkRx ds)
       | None :: ds => (Pending, MkRx ds)
       end;
     recv_waits r := length (rx_script r) |}.

#[export] Instance ScriptRx_laws : ReceiverLaws ScriptRx.
Proof.
  refine {| items r := omap (fun o => o) (rx_script r) |}; intros [[|[d|] ds]]; cbn; intros;
    simplify_eq; auto with lia.
Defined.

(** A channel that accepts everything; a [true] of the script is a poll of
    [poll_reserve] that is [Pending]. *)
Record ScriptTx : Set := MkTx { tx_sent : list (Z * bytes); tx_reserved : bool; tx_script : list bool }.

#[export] Instance ScriptTx_PollSender : PollSender ScriptTx :=
  {| poll_reserve t :=
       match tx_script t with
       | true :: ps => (Pending, MkTx (tx_sent t) (tx_reserved t) ps)
       | _ :: ps => (Ready true, MkTx (tx_sent t) true ps)
       | [] => (Ready true, MkTx (tx_sent t) true [])
       end;
     send_item i t :=
       if tx_reserved t then (Ok true, MkTx (tx_sent t ++ [i]) false (tx_script t))
       else (Panic "send_item without reservation", t);
     try_send i t := MkTx (tx_sent t ++ [i]) (tx_reserved t) (tx_script t);
     send_waits t := length (tx_script t) |}.

#[export] Instance ScriptTx_laws : PollSenderLaws ScriptTx.
Proof.
  refine {| sent := tx_sent; reserved := tx_reserved |}.
  - intros [ts r [|[] ps]] b t'; cbn; intros; by simplify_eq.
  - intros [ts r [|[] ps]] t'; cbn; intros; simplify_eq; auto with lia.
  - intros i [ts r ps] x t'; cbn; intros; simplify_eq. by exists true.
  - intros i t. by right.
Defined.

#[export] Instance bool_Flag : Flag bool := fun b => (b, b).

Definition demo_stream : AnyTlsStream ScriptRx ScriptTx bool * stream_log :=
  stream_steps [SRead 2; SWrite [x07; x08]; SRead 2; SRead 2; SWrite [x09]; SShutdown; SShutdown; SDrop]
    (stream_new 5 (MkRx [Some [x01; x02; x03]; None; Some []]) (MkTx [] false [false; true]) false)
    (MkSLog [] [] false).


(** ** Half-closing *)

(** Once one direction of a bidirectional copy has shut an [AnyTlsStream] down,
    the next poll of the other direction fails with a broken pipe, whatever the
    client still sends: the copy ends in an error instead of going on in that
    direction. *)
Theorem half_closed_copy_fails {Rx Tx F B : Type} `{Receiver Rx} `{PollSender Tx} `{Flag F}
    `{AsyncRead B} `{AsyncWrite B} `{AsyncPing B}
    (c : CopyBidirectional (A := AnyTlsStream Rx Tx F) (B := B)) (fuel : nat) (fired k : bool) :
  stream_closed (side_a c) = true → a_to_b c = Running → read_done (a_buf c) = false →
  (cache_length (a_buf c) < size (a_buf c))%nat →
  (bidirectional_poll fuel fired true k c).1 = Ready (Err (broken_pipe "stream closed")).
Proof.
  intros Hc Hs Hd Hl. unfold bidirectional_poll. rewrite Hs.
  set (b := if has_sleep c && fired then _ else a_buf c).
  assert (read_done b = false ∧ (cache_length b < size b)%nat) as [Hd' Hl']
    by (unfold b; by destruct (has_sleep c && fired)).
  assert (∀ w, copy_round b (side_a c) (w : B) =
    (Some (Ready (Err (broken_pipe "stream closed"))), (b, side_a c, w))) as Hround.
  { intros w. unfold copy_round. cbn [copy_read_loop]. rewrite Hd', (proj2 (Nat.ltb_lt _ _) Hl').
    cbn [negb andb poll_read AnyTlsStream_AsyncRead]. unfold stream_poll_read. by rewrite Hc. }
  cbn [transfer_one_direction poll_copy].
  assert (copy_loop fuel b (side_a c) (side_b c) =
    (Ready (Err (broken_pipe "stream closed")), (b, side_a c, side_b c))) as ->
    by (destruct fuel; cbn [copy_loop]; by rewrite Hround).
  by destruct (transfer_one_direction _ _ _ _ _ _) as [ba [[[s_ba b_buf'] b'] a']].
Qed.

(** The destination ends first, while the client is about to send two more items. *)
Definition demo_half : CopyBidirectional :=
  (bidirectional_poll 10 false true true
     (copy_bidirectional_start (fun _ => x00) (fun _ => x00)
        (stream_new 5 (MkRx [Some [x01]; None; Some [x02; x03]; Some []]) (MkTx [] false []) false)
        (MkQuic (MkSink [] []) (MkScript [])) false false 4 4)).2.

Lemma half_closed_copy_fails_witness :
  (bidirectional_poll 10 false true true demo_half).1 = Ready (Err (broken_pipe "stream closed")) ∧
  items (data_rx (side_a demo_half)) = [[x02; x03]; []] ∧ written (side_b demo_half) = [x01].
Proof.
  split; [|by vm_compute].
  apply half_closed_copy_fails; [vm_compute; reflexivity..|].
  apply Nat.ltb_lt. vm_compute. reflexivity.
Defined.
