(* ===== verification/AnyTlsSession.v ===== *)
(** * AnyTLS sessions (src/anytls/session.rs)

    The session's shared state, its frame handler, its frame writer with padding,
    the outgoing loop and closing.  Tokio's channels, tasks and timers are the
    interface [SessionEnv]; the connection's writer is an [AsyncWrite].

    The tasks of a session share its state through locks.  [write_frame] holds
    [write_buf] throughout, so frames are written one at a time; every other
    critical section is a single access.  Each operation is therefore a function
    on the state, and interleaving is the order in which they run. *)

From Stdlib Require Import String.
From S2P Require Import Prelude RustStd AnyTlsTypes Padding AsyncStream.

(** ** The runtime

    [channel] is [mpsc::channel(STREAM_CHANNEL_BUFFER)], its handle the sender's;
    [chan_send] is [tx.send(..).await], [false] when the receiver is gone;
    [spawn_stream id c] is the [tokio::spawn] of [handle_new_stream] on the stream
    that reads from channel [c]; [timeout_write] tells whether the five-second
    timer of a control frame fires first and, if so, how far the write had got:
    not yet to the lock, or so many bytes taken by the writer; [try_lock_writer]
    is [writer.try_lock().is_ok()]. *)
Class SessionEnv (E : Type) : Type := {
  channel : E → nat * E;
  chan_send : nat → bytes → E → bool * E;
  spawn_stream : Z → nat → E → nat * E;
  abort_task : nat → E → E;
  timeout_write : E → option (option nat) * E;
  try_lock_writer : E → bool * E }.

(** ** The state *)

Record Session (W E : Type) : Type := MkSession {
  writer : W;
  streams : gmap Z nat;
  stream_tasks : gmap Z nat;
  is_closed : bool;
  padding : PaddingFactory;
  send_padding : bool;
  pkt_counter : Z;
  buffering : bool;
  buffer : bytes;
  write_buf : bytes;
  peer_version : Z;
  received_client_settings : bool;
  udp_enabled : bool;
  env : E }.
Arguments MkSession {W E} _ _ _ _ _ _ _ _ _ _ _ _ _ _.
Arguments writer {W E} _.
Arguments streams {W E} _.
Arguments stream_tasks {W E} _.
Arguments is_closed {W E} _.
Arguments padding {W E} _.
Arguments send_padding {W E} _.
Arguments pkt_counter {W E} _.
Arguments buffering {W E} _.
Arguments buffer {W E} _.
Arguments write_buf {W E} _.
Arguments peer_version {W E} _.
Arguments received_client_settings {W E} _.
Arguments udp_enabled {W E} _.
Arguments env {W E} _.

Section Setters.
Context {W E : Type}.
Implicit Types s : Session W E.

(** The two groups of fields the operations assign: what frames are written with,
    and the rest. *)
Definition set_output (w : W) (sp : bool) (pc : Z) (b wb : bytes) s : Session W E :=
  MkSession w (streams s) (stream_tasks s) (is_closed s) (padding s) sp pc (buffering s) b wb
    (peer_version s) (received_client_settings s) (udp_enabled s) (env s).
Definition set_table (st : gmap Z nat) (ts : gmap Z nat) (c : bool) (v : Z) (rs : bool) (e : E) s
    : Session W E :=
  MkSession (writer s) st ts c (padding s) (send_padding s) (pkt_counter s) (buffering s) (buffer s)
    (write_buf s) v rs (udp_enabled s) e.

Definition set_writer w s := set_output w (send_padding s) (pkt_counter s) (buffer s) (write_buf s) s.
Definition set_write_buf wb s :=
  set_output (writer s) (send_padding s) (pkt_counter s) (buffer s) wb s.
Definition set_buffer b s :=
  set_output (writer s) (send_padding s) (pkt_counter s) b (write_buf s) s.
Definition set_pkt_counter c s :=
  set_output (writer s) (send_padding s) c (buffer s) (write_buf s) s.
Definition set_send_padding p s :=
  set_output (writer s) p (pkt_counter s) (buffer s) (write_buf s) s.
Definition set_streams st s :=
  set_table st (stream_tasks s) (is_closed s) (peer_version s) (received_client_settings s) (env s) s.
Definition set_tasks ts s :=
  set_table (streams s) ts (is_closed s) (peer_version s) (received_client_settings s) (env s) s.
Definition set_is_closed c s :=
  set_table (streams s) (stream_tasks s) c (peer_version s) (received_client_settings s) (env s) s.
Definition set_peer_version v s :=
  set_table (streams s) (stream_tasks s) (is_closed s) v (received_client_settings s) (env s) s.
Definition set_received s :=
  set_table (streams s) (stream_tasks s) (is_closed s) (peer_version s) true (env s) s.
Definition set_env e s :=
  set_table (streams s) (stream_tasks s) (is_closed s) (peer_version s)
    (received_client_settings s) e s.

(** [new_server_with_initial_data], without the reader and the initial data, which
    only the receive loop uses. *)
Definition session_new (w : W) (pf : PaddingFactory) (udp : bool) (e : E) : Session W E :=
  MkSession w ∅ ∅ false pf false 0 false [] [] 0 false udp e.

(** An operation of the runtime, and one of the writer. *)
Definition on_env {A} (f : E → A * E) : M (Session W E) A := fun s =>
  let '(a, e) := f (env s) in (Ok a, set_env e s).
Definition on_writer {A} (f : M W A) : M (Session W E) A := fun s =>
  let '(r, w) := f (writer s) in (r, set_writer w s).
End Setters.

Section Ops.
Context {W E : Type} `{AsyncWrite W} `{SessionEnv E}.
(** The generator's draws for the sizes of packet [pkt]. *)
Context (random_range : Z → nat → Z → Z → Z).
Abbreviation MS := (M (Session W E)).

(** ** Writing frames *)

(** [while remaining > 0], 1024 zero bytes at a time. *)
Fixpoint write_zeros (fuel remaining : nat) : MS unit :=
  if (0 <? remaining)%nat then
    match fuel with
    | O => lift OutOfFuel
    | S f =>
        let chunk := Nat.min remaining 1024 in
        on_writer (write_all (replicate chunk x00)) ≫= fun _ => write_zeros f (remaining - chunk)
    end
  else mret tt.

(** The [for size in pkt_sizes] loop; the result is the payload that is left. *)
Fixpoint pad_loop (sizes : list Z) (data : bytes) : MS bytes :=
  match sizes with
  | [] => mret data
  | size :: sizes' =>
      let remain_payload_len := Z.of_nat (length data) in
      if size =? CHECK_MARK then
        if remain_payload_len =? 0 then mret data else pad_loop sizes' data
      else
        let size := wrap 64 size in
        if size <? remain_payload_len then
          on_writer (write_all (take (Z.to_nat size) data)) ≫= fun _ =>
          pad_loop sizes' (drop (Z.to_nat size) data)
        else if 0 <? remain_payload_len then
          let padding_len :=
            Z.max 0 (size - (remain_payload_len + Z.of_nat FRAME_HEADER_SIZE)) in
          if 2 ^ 63 <=? padding_len then lift (Panic "capacity overflow")
          else
            let data :=
              if 0 <? padding_len then
                data ++ [command_u8 Waste] ++ be_encode 4 0 ++ be_encode 2 (wrap 16 padding_len) ++
                replicate (Z.to_nat padding_len) x00
              else data in
            on_writer (write_all data) ≫= fun _ => pad_loop sizes' []
        else
          let header := [command_u8 Waste; x00; x00; x00; x00; z2b (Z.shiftr size 8); z2b size] in
          on_writer (write_all header) ≫= fun _ =>
          write_zeros (Z.to_nat size) (Z.to_nat size) ≫= fun _ => pad_loop sizes' data
  end.

(** The bytes [pad_loop] and what follows it write, as one string. *)
Fixpoint pad_bytes (sizes : list Z) (data : bytes) : bytes :=
  match sizes with
  | [] => data
  | size :: sizes' =>
      let remain_payload_len := Z.of_nat (length data) in
      if size =? CHECK_MARK then
        if remain_payload_len =? 0 then data else pad_bytes sizes' data
      else
        let size := wrap 64 size in
        if size <? remain_payload_len then
          take (Z.to_nat size) data ++ pad_bytes sizes' (drop (Z.to_nat size) data)
        else if 0 <? remain_payload_len then
          let padding_len :=
            Z.max 0 (size - (remain_payload_len + Z.of_nat FRAME_HEADER_SIZE)) in
          (if 0 <? padding_len then
             data ++ [command_u8 Waste] ++ be_encode 4 0 ++ be_encode 2 (wrap 16 padding_len) ++
             replicate (Z.to_nat padding_len) x00
           else data) ++ pad_bytes sizes' []
        else
          [command_u8 Waste; x00; x00; x00; x00; z2b (Z.shiftr size 8); z2b size] ++
          replicate (Z.to_nat size) x00 ++ pad_bytes sizes' data
  end.

Definition write_with_padding (data : bytes) (pkt : Z) : MS unit := fun s =>
  let pkt_sizes := generate_record_payload_sizes (random_range pkt) (padding s) pkt in
  if decide (pkt_sizes = []) then
    (on_writer (write_all data) ≫= fun _ => on_writer flush) s
  else
    (pad_loop pkt_sizes data ≫= fun data =>
     (if decide (data = []) then mret tt else on_writer (write_all data)) ≫= fun _ =>
     on_writer flush) s.

(** The part of [write_frame] before anything is written: the frame is encoded,
    appended to what was buffered, and the packet counted.  [None]: nothing to
    write now; [Some (data, Some pkt)]: write [data] as packet [pkt], padded. *)
Definition stage_frame (frame : Frame) (s : Session W E)
    : option (bytes * option Z) * Session W E :=
  let s := set_write_buf (encode_into frame []) s in
  if buffering s then (None, set_buffer (buffer s ++ write_buf s) s)
  else
    let s := if bool_decide (buffer s = []) then s
             else set_buffer [] (set_write_buf (buffer s ++ write_buf s) s) in
    if send_padding s then
      let pkt := wrap 32 (pkt_counter s + 1) in
      let s := set_pkt_counter pkt s in
      if pkt <? pf_stop (padding s) then (Some (write_buf s, Some pkt), set_write_buf [] s)
      else (Some (write_buf s, None), set_send_padding false s)
    else (Some (write_buf s, None), s).

Definition write_frame (frame : Frame) : MS unit := fun s =>
  match stage_frame frame s with
  | (None, s) => (Ok tt, s)
  | (Some (data, Some pkt), s) => write_with_padding data pkt s
  | (Some (data, None), s) => (on_writer (write_all data) ≫= fun _ => on_writer flush) s
  end.

(** A [write_frame] that was cancelled before it had the lock, or after the writer
    took [k] bytes. *)
Definition cancelled_write_frame (point : option nat) (frame : Frame) (s : Session W E)
    : Session W E :=
  match point with
  | None => s
  | Some k =>
      match stage_frame frame s with
      | (None, s) => s
      | (Some (data, None), s) => (on_writer (write_all (take k data)) s).2
      | (Some (data, Some pkt), s) =>
          let pkt_sizes := generate_record_payload_sizes (random_range pkt) (padding s) pkt in
          (on_writer (write_all (take k (pad_bytes pkt_sizes data))) s).2
      end
  end.

(** ** Closing *)

Definition close : MS unit := fun s =>
  if is_closed s then (Ok tt, s)
  else
    let s := set_is_closed true s in
    let s := set_tasks ∅ (set_env (foldr (fun t => abort_task t.2) (env s)
                                     (map_to_list (stream_tasks s))) s) in
    let s := set_streams ∅ s in
    let '(free, e) := try_lock_writer (env s) in
    let s := set_env e s in
    if free then (Ok tt, (on_writer shutdown s).2) else (Ok tt, s).

(** [write_control_frame]: [write_frame] under a timeout of five seconds. *)
Definition write_control_frame (frame : Frame) : MS unit :=
  on_env timeout_write ≫= fun fired =>
  match fired with
  | None => write_frame frame
  | Some point =>
      modify (cancelled_write_frame point frame) ≫= fun _ =>
      close ≫= fun _ => throw (io_err TimedOut "control frame write timed out")
  end.

Definition send_synack (stream_id : Z) (error : option bytes) : MS unit := fun s =>
  if peer_version s <? 2 then (Ok tt, s)
  else
    let frame := match error with
                 | Some err => frame_with_data SynAck stream_id err
                 | None => frame_control SynAck stream_id
                 end in
    write_control_frame frame s.

(** ** Handling a frame *)

Definition handle_psh (frame : Frame) : MS unit := fun s =>
  if bool_decide (f_data frame = []) then (Ok tt, s)
  else
    match streams s !! f_stream_id frame with
    | Some tx => (on_env (chan_send tx (f_data frame)) ≫= fun _ => mret tt) s
    | None => (Ok tt, s)
    end.

Definition handle_syn (frame : Frame) : MS unit := fun s =>
  if negb (received_client_settings s) then
    (write_control_frame (frame_with_data Alert 0 (str "client did not send its settings")) ≫=
     fun _ => throw (io_err InvalidData "client did not send settings")) s
  else
    let stream_id := f_stream_id frame in
    match streams s !! stream_id with
    | Some _ => (Ok tt, s)
    | None =>
        (on_env channel ≫= fun data_tx =>
         modify (fun s => set_streams (<[stream_id := data_tx]> (streams s)) s) ≫= fun _ =>
         on_env (spawn_stream stream_id data_tx) ≫= fun handle =>
         modify (fun s => set_tasks (<[stream_id := handle]> (stream_tasks s)) s)) s
    end.

Definition handle_fin (frame : Frame) : MS unit := fun s =>
  let stream_tx := streams s !! f_stream_id frame in
  let s := set_streams (delete (f_stream_id frame) (streams s)) s in
  match stream_tx with
  | Some tx => (on_env (chan_send tx []) ≫= fun _ => mret tt) s
  | None => (Ok tt, s)
  end.

(** The protocol version a client announces, if it is one to answer. *)
Definition settings_version (settings : StringMap) : option Z :=
  match stringmap_get (str "v") settings with
  | Some t => match parse_u8 t with Some v => if 2 <=? v then Some v else None | None => None end
  | None => None
  end.

Definition server_settings : bytes :=
  stringmap_to_bytes map_to_list (stringmap_insert (str "v") (str "2") ∅).

Definition handle_settings (frame : Frame) : MS unit :=
  modify set_received ≫= fun _ =>
  let settings := stringmap_from_bytes (f_data frame) in
  get ≫= fun s =>
  match stringmap_get (str "padding-md5") settings with
  | Some client_md5 =>
      if decide (client_md5 = pf_md5 (padding s)) then mret tt
      else write_control_frame
             (frame_with_data UpdatePaddingScheme 0 (pf_raw_scheme (padding s)))
  | None => mret tt
  end ≫= fun _ =>
  match settings_version settings with
  | Some v =>
      modify (set_peer_version v) ≫= fun _ =>
      write_control_frame (frame_with_data ServerSettings 0 server_settings)
  | None => mret tt
  end.

Definition handle_frame (frame : Frame) : MS unit :=
  match f_cmd frame with
  | Psh => handle_psh frame
  | Syn => handle_syn frame
  | Fin => handle_fin frame
  | Waste => mret tt
  | Settings => handle_settings frame
  | HeartRequest => write_control_frame (frame_control HeartResponse (f_stream_id frame))
  | Alert => throw (IoError Other (utf8_lossy (f_data frame)))
  | SynAck | ServerSettings | UpdatePaddingScheme => mret tt
  | HeartResponse => mret tt
  end.

(** ** The outgoing loop *)

(** One turn of [process_outgoing]; [false] leaves the loop. *)
Definition outgoing_turn (item : Z * bytes) (s : Session W E) : res bool * Session W E :=
  let '(stream_id, data) := item in
  if is_closed s then (Ok false, s)
  else if bool_decide (data = []) then
    match write_frame (frame_control Fin stream_id) s with
    | (Ok _, s) | (Err _, s) => (Ok true, set_streams (delete stream_id (streams s)) s)
    | (Panic w, s) => (Panic w, s)
    | (OutOfFuel, s) => (OutOfFuel, s)
    end
  else
    match write_frame (frame_data stream_id data) s with
    | (Ok _, s) => (Ok true, s)
    | (Err _, s) => (Ok false, s)
    | (Panic w, s) => (Panic w, s)
    | (OutOfFuel, s) => (OutOfFuel, s)
    end.

(** [process_outgoing] on the items [rx.recv()] returns. *)
Fixpoint process_outgoing (items : list (Z * bytes)) : MS unit :=
  match items with
  | [] => mret tt
  | item :: items' =>
      outgoing_turn item ≫= fun (continue : bool) =>
      if continue then process_outgoing items' else mret tt
  end.

(** The clean-up at the end of a stream's task. *)
Definition task_done (stream_id : Z) (s : Session W E) : Session W E :=
  set_tasks (delete stream_id (stream_tasks s)) s.
End Ops.

(** ** What is written *)

(** A padding frame. *)
Definition waste (n : nat) : Frame := MkFrame Waste 0 (replicate n x00).

Definition size_ok (size : Z) : Prop := size = CHECK_MARK ∨ 0 ≤ size < 2 ^ 16.

Definition encode_frames (fs : list Frame) : bytes := concat (encode_frame <$> fs).

Lemma encode_frames_app fs gs : encode_frames (fs ++ gs) = encode_frames fs ++ encode_frames gs.
Proof. unfold encode_frames. by rewrite fmap_app, concat_app. Qed.

Lemma encode_frames_one f : encode_frames [f] = encode_frame f.
Proof. unfold encode_frames. cbn. by rewrite app_nil_r. Qed.

Lemma encode_waste n :
  (n < Z.to_nat (2 ^ 16))%nat →
  encode_frame (waste n) =
  [command_u8 Waste] ++ be_encode 4 0 ++ be_encode 2 (wrap 16 (Z.of_nat n)) ++ replicate n x00.
Proof. intros. rewrite encode_frame_eq. cbn [waste f_cmd f_stream_id f_data]. by rewrite length_replicate. Qed.

Lemma waste_header size :
  0 ≤ size < 2 ^ 16 →
  [command_u8 Waste; x00; x00; x00; x00; z2b (Z.shiftr size 8); z2b size] =
  [command_u8 Waste] ++ be_encode 4 0 ++ be_encode 2 (wrap 16 size).
Proof.
  intros. unfold wrap. rewrite Z.mod_small by lia. reflexivity.
Qed.

Lemma wrap64_small size : 0 ≤ size < 2 ^ 16 → wrap 64 size = size.
Proof. intros. unfold wrap. apply Z.mod_small. lia. Qed.

(** Padding adds whole padding frames after the payload, and nothing else. *)
Lemma pad_bytes_spec sizes data :
  Forall size_ok sizes →
  ∃ ns, pad_bytes sizes data = data ++ encode_frames (waste <$> ns) ∧
        Forall (fun n => (n < Z.to_nat (2 ^ 16))%nat) ns.
Proof.
  intros Hs. revert data. induction Hs as [|size sizes Hz _ IH]; intros data; cbn [pad_bytes].
  { exists []. by rewrite app_nil_r. }
  destruct (size =? CHECK_MARK) eqn:Hc; zbool.
  { destruct (_ =? 0); [|apply IH]. exists []. by rewrite app_nil_r. }
  destruct Hz as [|Hz]; [done|]. rewrite wrap64_small by done.
  destruct (size <? _) eqn:Hl; zbool.
  { destruct (IH (drop (Z.to_nat size) data)) as (ns & -> & Hn). exists ns.
    by rewrite app_assoc, take_drop. }
  destruct (0 <? Z.of_nat (length data)) eqn:Hd; zbool.
  - destruct (IH []) as (ns & -> & Hn). set (p := Z.max 0 _). destruct (0 <? p) eqn:Hp; zbool.
    + exists (Z.to_nat p :: ns). split; [|constructor; [lia|done]].
      change (waste <$> Z.to_nat p :: ns) with ([waste (Z.to_nat p)] ++ (waste <$> ns)).
      rewrite encode_frames_app, encode_frames_one, encode_waste, Z2Nat.id by lia.
      by rewrite <-!app_assoc.
    + by exists ns.
  - destruct data; [|cbn in Hd; lia]. destruct (IH []) as (ns & -> & Hn).
    exists (Z.to_nat size :: ns). split; [|constructor; [lia|done]].
    change (waste <$> Z.to_nat size :: ns) with ([waste (Z.to_nat size)] ++ (waste <$> ns)).
    rewrite encode_frames_app, encode_frames_one, encode_waste, Z2Nat.id by lia.
    rewrite waste_header by lia. by rewrite <-!app_assoc.
Qed.

Section WriteLemmas.
Context {W E : Type} `{AsyncWriteLaws W}.
Implicit Types s : Session W E.

(** [wrote m bs]: [m] changes nothing but the writer, to which it writes [bs], or a
    prefix of it when it fails. *)
Definition wrote {A} (m : M (Session W E) A) (bs : bytes) : Prop := ∀ s r s',
  m s = (r, s') →
  s' = set_writer (writer s') s ∧ r ≠ OutOfFuel ∧ panics r = false ∧
  (∃ k, written (writer s') = written (writer s) ++ take k bs) ∧
  (is_ok r = true → written (writer s') = written (writer s) ++ bs).

Lemma wrote_write_all bs : wrote (on_writer (write_all bs)) bs.
Proof.
  intros s r s'. unfold on_writer. destruct (write_all bs (writer s)) as [r1 w] eqn:Ew.
  intros [= <- <-]. by apply write_all_spec in Ew as (? & ? & ? & ?).
Qed.

Lemma wrote_flush : wrote (on_writer flush) [].
Proof.
  intros s r s'. unfold on_writer. destruct (flush (writer s)) as [r1 w] eqn:Ew.
  intros [= <- <-]. apply flush_spec in Ew as (? & ? & Hw). split_and!; try done; cbn.
  - exists 0%nat. by rewrite Hw, app_nil_r.
  - by rewrite Hw, app_nil_r.
Qed.

Lemma wrote_ret {A} (a : A) : wrote (mret a) [].
Proof.
  intros s r s' [= <- <-]. split_and!; try done.
  - by destruct s.
  - exists 0%nat. by rewrite app_nil_r.
  - by rewrite app_nil_r.
Qed.

Lemma wrote_bind {A B} (m : M (Session W E) A) (k : A → M (Session W E) B) b1 b2 :
  wrote m b1 → (∀ a, wrote (k a) b2) → wrote (m ≫= k) (b1 ++ b2).
Proof.
  intros Hm Hk s r s'. rewrite M_bind_eq. destruct (m s) as [r1 s1] eqn:E1.
  destruct (Hm _ _ _ E1) as (Hs1 & Hf1 & Hp1 & [j Hj] & Hok1).
  destruct r1 as [a|e|w|]; try done.
  - intros E2. destruct (Hk a _ _ _ E2) as (Hs & Hf & Hp & [j' Hj'] & Hok).
    specialize (Hok1 eq_refl). split_and!; try done.
    + rewrite Hs, Hs1. by destruct s.
    + exists (length b1 + j')%nat. rewrite Hj', Hok1, <-app_assoc. by rewrite take_app_add.
    + intros Ho. by rewrite (Hok Ho), Hok1, <-app_assoc.
  - intros [= <- <-]. split_and!; try done. destruct (decide (j ≤ length b1)%nat).
    + exists j. by rewrite take_app_le.
    + exists (length b1). by rewrite Hj, take_app_length, (take_ge b1) by lia.
Qed.

Lemma wrote_ext {A} (m m' : M (Session W E) A) bs : (∀ s, m s = m' s) → wrote m bs → wrote m' bs.
Proof. intros He Hm s r s'. rewrite <-He. apply Hm. Qed.

Lemma wrote_assoc {A B C} (m : M (Session W E) A) (f : A → M _ B) (g : B → M _ C) bs :
  wrote (m ≫= fun a => f a ≫= g) bs → wrote ((m ≫= f) ≫= g) bs.
Proof. apply wrote_ext. intros s. by rewrite M_bind_assoc. Qed.

Lemma wrote_zeros fuel n :
  (n ≤ fuel)%nat → wrote (write_zeros fuel n) (replicate n x00).
Proof.
  revert n. induction fuel as [|fuel IH]; intros n Hn; cbn [write_zeros];
    destruct (0 <? n)%nat eqn:Hc; zbool; [lia|..].
  - replace n with 0%nat by lia. apply wrote_ret.
  - replace (replicate n x00) with
      (replicate (Nat.min n 1024) x00 ++ replicate (n - Nat.min n 1024) x00)
      by (rewrite <-replicate_add; f_equal; lia).
    apply wrote_bind; [apply wrote_write_all|]. intros _. apply IH. lia.
  - replace n with 0%nat by lia. apply wrote_ret.
Qed.

(** What follows [pad_loop] in [write_with_padding]. *)
Definition pad_tail (data : bytes) : M (Session W E) unit :=
  (if decide (data = []) then mret tt else on_writer (write_all data)) ≫= fun _ =>
  on_writer flush.

Lemma wrote_tail data : wrote (pad_tail data) data.
Proof.
  unfold pad_tail. rewrite <-(app_nil_r data) at 3. apply wrote_bind; [|intros; apply wrote_flush].
  case_decide as Hd; [subst; apply wrote_ret|apply wrote_write_all].
Qed.

Lemma wrote_pad_loop sizes data :
  Forall size_ok sizes → wrote (pad_loop sizes data ≫= pad_tail) (pad_bytes sizes data).
Proof.
  intros Hs. revert data. induction Hs as [|size sizes Hz _ IH]; intros data;
    cbn [pad_loop pad_bytes].
  { eapply wrote_ext; [|apply wrote_tail]. done. }
  destruct (size =? CHECK_MARK) eqn:Hc; zbool.
  { destruct (_ =? 0); [|apply IH]. eapply wrote_ext; [|apply wrote_tail]. done. }
  destruct Hz as [|Hz]; [done|]. rewrite wrap64_small by done.
  destruct (size <? _) eqn:Hl; zbool.
  { apply wrote_assoc, wrote_bind; [apply wrote_write_all|]. intros _. apply IH. }
  destruct (0 <? Z.of_nat (length data)) eqn:Hd; zbool.
  - rewrite (proj2 (Z.leb_gt _ _)) by lia.
    apply wrote_assoc, wrote_bind; [apply wrote_write_all|]. intros _. apply IH.
  - apply wrote_assoc, wrote_bind; [apply wrote_write_all|]. intros _.
    apply wrote_assoc, wrote_bind; [apply wrote_zeros; lia|]. intros _. apply IH.
Qed.

(** Packets are padded with sizes a frame can announce. *)
Definition sizes_ok (rr : Z → nat → Z → Z → Z) (pf : PaddingFactory) : Prop :=
  ∀ pkt, Forall size_ok (generate_record_payload_sizes (rr pkt) pf pkt).

Lemma write_with_padding_spec rr data pkt s r s' :
  sizes_ok rr (padding s) → write_with_padding rr data pkt s = (r, s') →
  s' = set_writer (writer s') s ∧ r ≠ OutOfFuel ∧ panics r = false ∧
  ∃ ns, Forall (fun n => (n < Z.to_nat (2 ^ 16))%nat) ns ∧
    (∃ k, written (writer s') = written (writer s) ++ take k (data ++ encode_frames (waste <$> ns))) ∧
    (is_ok r = true → written (writer s') = written (writer s) ++ data ++ encode_frames (waste <$> ns)).
Proof.
  intros Hs Hr. unfold write_with_padding in Hr. case_decide as Hd.
  - assert (wrote (on_writer (write_all data) ≫= fun _ => on_writer flush) data) as Hw.
    { rewrite <-(app_nil_r data) at 2.
      apply wrote_bind; [apply wrote_write_all|intros; apply wrote_flush]. }
    destruct (Hw _ _ _ Hr) as (? & ? & ? & Hk & Hok). split_and!; try done.
    exists []. cbn. rewrite app_nil_r. by split_and!.
  - destruct (wrote_pad_loop _ data (Hs pkt) _ _ _ Hr) as (? & ? & ? & Hk & Hok).
    destruct (pad_bytes_spec _ data (Hs pkt)) as (ns & He & Hn). rewrite He in Hk, Hok.
    split_and!; try done. by exists ns.
Qed.

(** The fields [write_frame] leaves alone. *)
Definition table s :=
  (streams s, stream_tasks s, is_closed s, padding s, buffering s, peer_version s,
   received_client_settings s, udp_enabled s, env s).

Lemma table_inv s s' :
  table s' = table s →
  (streams s' = streams s ∧ stream_tasks s' = stream_tasks s ∧ is_closed s' = is_closed s ∧
   env s' = env s) ∧
  padding s' = padding s ∧ buffering s' = buffering s ∧ peer_version s' = peer_version s ∧
  received_client_settings s' = received_client_settings s ∧ udp_enabled s' = udp_enabled s.
Proof. unfold table. intros Ht. by simplify_eq. Qed.

(** What has been written, and what waits for the next write. *)
Definition output s : bytes := written (writer s) ++ buffer s.

Lemma stage_frame_spec f s o s' :
  stage_frame f s = (o, s') →
  table s' = table s ∧ writer s' = writer s ∧
  match o with
  | None => buffering s = true ∧ buffer s' = buffer s ++ encode_frame f
  | Some (data, _) => buffering s = false ∧ buffer s' = [] ∧ data = buffer s ++ encode_frame f
  end.
Proof.
  unfold stage_frame. change (encode_into f []) with (encode_frame f). intros Hs.
  destruct (buffering (set_write_buf (encode_frame f) s)) eqn:Hb; cbn in Hb; simplify_eq; [done|].
  cbn [buffer set_write_buf set_output] in Hs. case_bool_decide as He;
    repeat case_in Hs; simplify_eq; cbn; rewrite ?He; done.
Qed.

Lemma write_frame_spec rr f s r s' :
  sizes_ok rr (padding s) → write_frame rr f s = (r, s') →
  table s' = table s ∧ r ≠ OutOfFuel ∧ panics r = false ∧
  (buffering s = false → buffer s' = []) ∧
  ∃ ns, Forall (fun n => (n < Z.to_nat (2 ^ 16))%nat) ns ∧
    (is_ok r = true → output s' = output s ++ encode_frame f ++ encode_frames (waste <$> ns)).
Proof.
  intros Hs Hr. unfold write_frame in Hr. destruct (stage_frame f s) as [o s1] eqn:Est.
  apply stage_frame_spec in Est as (Ht & Hw & Ho). unfold output.
  destruct o as [[data [pkt|]]|].
  - destruct Ho as (Hbf & Hb & ->). pose proof (proj1 (proj2 (table_inv _ _ Ht))) as Hpf.
    rewrite <-Hpf in Hs.
    destruct (write_with_padding_spec _ _ _ _ _ _ Hs Hr) as (He & Hf & Hp & ns & Hn & _ & Hok).
    split_and!; try done; [by rewrite He, <-Ht|intros _; by rewrite He|]. exists ns. split; [done|].
    intros Hi. rewrite (Hok Hi), Hw, He. cbn [buffer set_writer set_output]. rewrite Hb.
    by rewrite app_nil_r, <-!app_assoc.
  - destruct Ho as (Hbf & Hb & ->).
    assert (wrote (on_writer (write_all (buffer s ++ encode_frame f)) ≫= fun _ => on_writer flush)
      ((buffer s ++ encode_frame f) ++ [])) as Hwr
      by (apply wrote_bind; [apply wrote_write_all|intros; apply wrote_flush]).
    destruct (Hwr _ _ _ Hr) as (He & Hf & Hp & _ & Hok).
    split_and!; try done; [by rewrite He, <-Ht|intros _; by rewrite He|]. exists []. split; [done|].
    intros Hi. rewrite (Hok Hi), Hw, He. cbn [buffer set_writer set_output]. rewrite Hb.
    cbn. by rewrite !app_nil_r, <-!app_assoc.
  - destruct Ho as (Hbf & Hb). injection Hr as <- <-. rewrite Hw, Hb.
    split_and!; try done; [intros; congruence|]. exists []. split; [done|].
    intros _. cbn. by rewrite app_nil_r, <-!app_assoc.
Qed.

(** Frames written one after the other, by whichever tasks. *)
Fixpoint write_frames (rr : Z → nat → Z → Z → Z) (fs : list Frame) : M (Session W E) unit :=
  match fs with
  | [] => mret tt
  | f :: fs' => write_frame rr f ≫= fun _ => write_frames rr fs'
  end.

Definition is_waste (f : Frame) : bool := bool_decide (f_cmd f = Waste).
Definition payload (fs : list Frame) : list Frame := List.filter (negb ∘ is_waste) fs.

Lemma payload_app fs gs : payload (fs ++ gs) = payload fs ++ payload gs.
Proof. apply List.filter_app. Qed.

Lemma payload_waste ns : payload (waste <$> ns) = [].
Proof. by induction ns. Qed.

Lemma waste_wf ns :
  Forall (fun n => (n < Z.to_nat (2 ^ 16))%nat) ns → Forall frame_wf (waste <$> ns).
Proof.
  intros Hn. apply Forall_fmap. eapply Forall_impl; [done|]. intros n Hl. cbv beta in Hl.
  split; cbn [f_stream_id f_data waste]; [lia|].
  rewrite length_replicate. lia.
Qed.

Lemma write_frames_spec rr fs s r s' :
  sizes_ok rr (padding s) → Forall frame_wf fs → write_frames rr fs s = (r, s') →
  table s' = table s ∧ r ≠ OutOfFuel ∧ panics r = false ∧
  (is_ok r = true → ∃ gs, Forall frame_wf gs ∧ output s' = output s ++ encode_frames gs ∧
     payload gs = payload fs).
Proof.
  intros Hs Hwf. revert s Hs. induction Hwf as [|f fs Hf _ IH]; intros s Hs; cbn [write_frames].
  { intros [= <- <-]. split_and!; try done. intros _. exists []. by rewrite app_nil_r. }
  rewrite M_bind_eq. destruct (write_frame rr f s) as [r1 s1] eqn:E1.
  destruct (write_frame_spec _ _ _ _ _ Hs E1) as (Ht & Hnf & Hnp & _ & ns & Hn & Hok).
  destruct r1 as [[]|e|w|]; try done; [|by intros [= <- <-]].
  intros Hr. pose proof (proj1 (proj2 (table_inv _ _ Ht))) as Hpd. rewrite <-Hpd in Hs.
  destruct (IH _ Hs Hr) as (Ht' & ? & ? & Hok').
  split_and!; try done; [congruence|]. intros Hi. destruct (Hok' Hi) as (gs & Hg & Ho & Hp).
  exists (f :: (waste <$> ns) ++ gs). split_and!.
  - constructor; [done|]. apply Forall_app. auto using waste_wf.
  - rewrite Ho, (Hok eq_refl). change (f :: ?l) with ([f] ++ l).
    by rewrite !encode_frames_app, encode_frames_one, <-!app_assoc.
  - change (f :: ?l) with ([f] ++ l). rewrite !payload_app, payload_waste, Hp. done.
Qed.
End WriteLemmas.

(** C16: Whatever padding scheme is in force, as long as its sizes fit a frame's
    length field, frames written one after the other arrive as those frames with
    padding frames among them and nothing else: the bytes put on the connection
    decode completely, and without their padding frames they are the frames
    written, in order.  Writing never panics and never runs on. *)
Theorem written_frames_decode {W E : Type} `{AsyncWriteLaws W}
    (rr : Z → nat → Z → Z → Z) (fs : list Frame) (s s' : Session W E) (r : res unit) :
  sizes_ok rr (padding s) → Forall frame_wf fs → buffering s = false → buffer s = [] →
  write_frames rr fs s = (r, s') →
  r ≠ OutOfFuel ∧ panics r = false ∧
  (r = Ok tt → ∃ gs, written (writer s') = written (writer s) ++ encode_frames gs ∧
     drain (encode_frames gs) = (gs, Ok tt, []) ∧ payload gs = payload fs).
Proof.
  intros Hs Hwf Hbf Hb Hr.
  assert (buffer s' = []) as Hb'.
  { clear Hwf. revert s Hs Hbf Hb Hr. induction fs as [|f fs IH]; intros s Hs Hbf Hb; cbn [write_frames].
    - by intros [= <- <-].
    - rewrite M_bind_eq. destruct (write_frame rr f s) as [r1 s1] eqn:E1.
      destruct (write_frame_spec _ _ _ _ _ Hs E1) as (Ht & _ & _ & Hb1 & _).
      destruct (table_inv _ _ Ht) as (_ & Hpd & Hbf1 & _).
      rewrite <-Hpd in Hs. rewrite Hbf in Hbf1.
      destruct r1 as [[]|e|w|]; [by apply IH; auto|by intros [= <- <-]; auto..]. }
  destruct (write_frames_spec _ _ _ _ _ Hs Hwf Hr) as (_ & ? & ? & Hok). split_and!; try done.
  intros ->. destruct (Hok eq_refl) as (gs & Hg & Ho & Hp). exists gs.
  unfold output in Ho. rewrite Hb, Hb', !app_nil_r in Ho. split_and!; try done.
  pose proof (drain_frames gs [] Hg) as Hd. rewrite app_nil_r in Hd.
  unfold encode_frames. rewrite Hd. cbn. by rewrite app_nil_r.
Qed.

(** ** What the runtime promises

    [chan_log] is everything a channel has accepted, [rx_alive] whether its
    receiver still exists, [spawned] the streams whose handler was started, each
    with its channel. *)

(** A step that opens no channel and sends nothing; receivers may go. *)
Definition quiet {E : Type} (count : E → nat) (log : E → nat → list bytes) (alive : E → nat → bool)
    (tasks : E → list (Z * nat)) (e e' : E) : Prop :=
  count e' = count e ∧ (∀ c, log e' c = log e c) ∧
  (∀ c, alive e' c = true → alive e c = true) ∧ tasks e ⊆ tasks e'.

(** A channel refuses an item only when its receiver is gone, and then refuses
    every later one; nothing but a send adds to a log. *)
Class SessionEnvLaws (E : Type) `{SessionEnv E} : Type := {
  chan_count : E → nat;
  chan_log : E → nat → list bytes;
  rx_alive : E → nat → bool;
  spawned : E → list (Z * nat);
  unused_log e c : (chan_count e ≤ c)%nat → chan_log e c = [];
  channel_spec e c e' : channel e = (c, e') → c = chan_count e ∧ chan_count e' = S c ∧
    (∀ d, chan_log e' d = chan_log e d) ∧ (∀ d, rx_alive e' d = true → rx_alive e d = true) ∧
    spawned e ⊆ spawned e';
  chan_send_spec c d e b e' : (c < chan_count e)%nat → chan_send c d e = (b, e') →
    chan_count e' = chan_count e ∧
    (∀ c', chan_log e' c' = chan_log e c' ++ (if b && (c' =? c)%nat then [d] else [])) ∧
    (∀ c', rx_alive e' c' = true → rx_alive e c' = true) ∧
    (if b : bool then rx_alive e c = true else rx_alive e' c = false) ∧ spawned e ⊆ spawned e';
  spawn_spawned i c e : (i, c) ∈ spawned (spawn_stream i c e).2;
  spawn_quiet i c e : quiet chan_count chan_log rx_alive spawned e (spawn_stream i c e).2;
  abort_quiet t e : quiet chan_count chan_log rx_alive spawned e (abort_task t e);
  timeout_quiet e : quiet chan_count chan_log rx_alive spawned e (timeout_write e).2;
  lock_quiet e : quiet chan_count chan_log rx_alive spawned e (try_lock_writer e).2 }.

Abbreviation env_quiet := (quiet chan_count chan_log rx_alive spawned).

Lemma quiet_refl {E} c l a t (e : E) : quiet c l a t e e.
Proof. by split_and!. Qed.

Lemma quiet_trans {E} c l a t (e1 e2 e3 : E) :
  quiet c l a t e1 e2 → quiet c l a t e2 e3 → quiet c l a t e1 e3.
Proof.
  intros (? & Hl & ? & ?) (? & Hl' & ? & ?). split_and!; [congruence| |by eauto|by etransitivity].
  intros d. by rewrite Hl', Hl.
Qed.

#[export] Hint Resolve quiet_refl spawn_quiet abort_quiet timeout_quiet lock_quiet : proxy.

Section ControlLemmas.
Context {W E : Type} `{AsyncWriteLaws W} `{SessionEnvLaws E}.
Implicit Types s : Session W E.

(** A step of other fields of the session: streams may be closed, not opened, and
    nothing is sent to one. *)
Definition calm s s' : Prop :=
  (streams s' = streams s ∨ streams s' = ∅) ∧ env_quiet (env s) (env s') ∧
  padding s' = padding s ∧ buffering s' = buffering s ∧
  received_client_settings s' = received_client_settings s.

Lemma calm_refl s : calm s s.
Proof. unfold calm. split_and!; auto with proxy. Qed.

Lemma calm_trans s1 s2 s3 : calm s1 s2 → calm s2 s3 → calm s1 s3.
Proof.
  intros (Hs & He & ? & ? & ?) (Hs' & He' & ? & ? & ?).
  split_and!; [|by eapply quiet_trans|congruence..]. destruct Hs' as [-> | ->]; auto.
Qed.

Lemma calm_env s e : env_quiet (env s) e → calm s (set_env e s).
Proof. intros. unfold calm. split_and!; auto. Qed.

Lemma calm_table s s' : table s' = table s → calm s s'.
Proof.
  intros ((Hs & _ & _ & He) & Hp & Hb & _ & Hr & _)%table_inv. unfold calm.
  rewrite Hs, He, Hp, Hb, Hr. split_and!; auto with proxy.
Qed.

Lemma abort_all_quiet (ts : list (Z * nat)) e :
  env_quiet e (foldr (fun t => abort_task t.2) e ts).
Proof.
  induction ts as [|t ts IH]; cbn; eauto using quiet_trans with proxy.
Qed.

Lemma on_writer_table {A} (f : M W A) s r s' : on_writer f s = (r, s') → table s' = table s.
Proof. unfold on_writer. destruct (f (writer s)). by intros [= <- <-]. Qed.

Lemma close_spec s r s' :
  close s = (r, s') → r = Ok tt ∧ calm s s' ∧ is_closed s' = true ∧
  (is_closed s = false → streams s' = ∅ ∧ stream_tasks s' = ∅).
Proof.
  unfold close. destruct (is_closed s) eqn:Hc.
  { intros [= <- <-]. split_and!; [done|apply calm_refl|done..]. }
  cbn [env stream_tasks set_is_closed set_table set_streams set_tasks set_env].
  set (e1 := foldr _ _ _). pose proof (abort_all_quiet (map_to_list (stream_tasks s)) (env s)) as Hq.
  fold e1 in Hq. pose proof (lock_quiet e1) as Hq'.
  destruct (try_lock_writer e1) as [free e2]. cbn [snd] in Hq'.
  assert (env_quiet (env s) e2) as Hq2 by by eapply quiet_trans.
  destruct free; intros Hr; 
    [|injection Hr as <- <-; split_and!; try done; unfold calm; split_and!; auto].
  set (s1 := set_env e2 _) in Hr. destruct (on_writer shutdown s1) as [r1 s2] eqn:Ew.
  cbn in Hr. injection Hr as <- <-. apply on_writer_table, table_inv in Ew as ((Hs & Ht & Hcl & He) & Hp & Hb & _ & Hrc & _).
  split_and!; [done| |by rewrite Hcl|by rewrite Hs, Ht].
  unfold calm. rewrite Hs, He, Hp, Hb, Hrc. split_and!; auto.
Qed.

Lemma stage_frame_table f s o s' : stage_frame f s = (o, s') → table s' = table s.
Proof. by intros [? _]%stage_frame_spec. Qed.

Lemma cancelled_table rr point f s : table (cancelled_write_frame rr point f s) = table s.
Proof.
  unfold cancelled_write_frame. destruct point as [k|]; [|done].
  destruct (stage_frame f s) as [[[data [pkt|]]|] s1] eqn:Es; apply stage_frame_table in Es;
    [| |done]; rewrite <-Es.
  - by destruct (on_writer _ s1) eqn:Ew; apply on_writer_table in Ew.
  - by destruct (on_writer _ s1) eqn:Ew; apply on_writer_table in Ew.
Qed.

(** A control frame is written, or the session is closed and the write times out. *)
Lemma write_control_frame_spec rr f s r s' :
  sizes_ok rr (padding s) → write_control_frame rr f s = (r, s') →
  r ≠ OutOfFuel ∧ panics r = false ∧ calm s s' ∧ peer_version s' = peer_version s ∧
  (r = Ok tt → table s' = table (set_env (env s') s) ∧
     ∃ ns, Forall (fun n => (n < Z.to_nat (2 ^ 16))%nat) ns ∧
       output s' = output s ++ encode_frame f ++ encode_frames (waste <$> ns)).
Proof.
  intros Hs. unfold write_control_frame. rewrite M_bind_eq. unfold on_env.
  pose proof (timeout_quiet (env s)) as Hq. destruct (timeout_write (env s)) as [fired e].
  cbn [snd] in Hq. destruct fired as [point|].
  - rewrite M_bind_eq. cbn [modify]. set (s1 := set_env e s).
    pose proof (cancelled_table rr point f s1) as Ht. set (s2 := cancelled_write_frame _ _ _ _) in *.
    rewrite M_bind_eq. destruct (close s2) as [r3 s3] eqn:Ec.
    pose proof Ec as Ec'. apply close_spec in Ec as (-> & Hc & _ & _). intros [= <- <-].
    assert (peer_version s3 = peer_version s2) as Hpv.
    { clear -Ec'. unfold close in Ec'. destruct (is_closed s2); [by injection Ec' as <-|].
      destruct (try_lock_writer _) as [[] e']; [|by injection Ec' as <-].
      destruct (on_writer _ _) as [r s'] eqn:Ew. injection Ec' as <-.
      by apply on_writer_table, table_inv in Ew as (_ & _ & _ & -> & _). }
    split_and!; try done.
    + eapply calm_trans; [by apply (calm_env s e)|]. eapply calm_trans; [|done]. by apply calm_table.
    + rewrite Hpv. by apply table_inv in Ht as (_ & _ & _ & -> & _).
  - intros Hr. destruct (write_frame_spec rr f (set_env e s) _ _ Hs Hr) as (Ht & ? & ? & _ & ns & Hn & Hok).
    split_and!; try done.
    + eapply calm_trans; [by apply (calm_env s e)|by apply calm_table].
    + by apply table_inv in Ht as (_ & _ & _ & -> & _).
    + intros ->. pose proof (table_inv _ _ Ht) as ((_ & _ & _ & He) & _). rewrite He.
      split; [done|]. exists ns. split; [done|]. by apply Hok.
Qed.
End ControlLemmas.

(** ** Settings *)

(** The frames a settings frame is answered with. *)
Definition settings_replies (pf : PaddingFactory) (settings : StringMap) : list Frame :=
  (match stringmap_get (str "padding-md5") settings with
   | Some client_md5 =>
       if decide (client_md5 = pf_md5 pf) then []
       else [frame_with_data UpdatePaddingScheme 0 (pf_raw_scheme pf)]
   | None => []
   end) ++
  (match settings_version settings with
   | Some _ => [frame_with_data ServerSettings 0 server_settings]
   | None => []
   end).

Section SettingsLemmas.
Context {W E : Type} `{AsyncWriteLaws W} `{SessionEnvLaws E}.
Implicit Types s : Session W E.

(** Replies written on the way, if all went well. *)
Definition replied s s' (fs : list Frame) : Prop :=
  ∃ gs, output s' = output s ++ encode_frames gs ∧ payload gs = payload fs.

Lemma replied_control rr f s s' :
  sizes_ok rr (padding s) → write_control_frame rr f s = (Ok tt, s') → replied s s' [f].
Proof.
  intros Hs Hr. destruct (write_control_frame_spec _ _ _ _ _ Hs Hr) as (_ & _ & _ & _ & Hok).
  destruct (Hok eq_refl) as (_ & ns & Hn & Ho). exists (f :: (waste <$> ns)). rewrite Ho.
  change (f :: ?l) with ([f] ++ l). rewrite encode_frames_app, encode_frames_one, payload_app, payload_waste.
  by rewrite app_nil_r.
Qed.

Lemma replied_trans s1 s2 s3 fs gs : replied s1 s2 fs → replied s2 s3 gs → replied s1 s3 (fs ++ gs).
Proof.
  intros (gs1 & Ho1 & Hp1) (gs2 & Ho2 & Hp2). exists (gs1 ++ gs2).
  by rewrite Ho2, Ho1, encode_frames_app, !payload_app, Hp1, Hp2, <-app_assoc.
Qed.

Lemma replied_refl s : replied s s [].
Proof. exists []. by rewrite app_nil_r. Qed.

(** A control frame that is written when [cond] holds. *)
Lemma control_if rr (cond : bool) f s s' :
  sizes_ok rr (padding s) →
  (if cond then write_control_frame rr f else mret tt) s = (Ok tt, s') →
  replied s s' (if cond then [f] else []) ∧ table s' = table (set_env (env s') s).
Proof.
  destruct cond; intros Hs Hr.
  - split; [by eapply replied_control|].
    by destruct (write_control_frame_spec _ _ _ _ _ Hs Hr) as (_ & _ & _ & _ & [? _]).
  - injection Hr as <-. split; [apply replied_refl|by destruct s].
Qed.


(** A stream opened before the client's settings is refused: the frame is an
    error, no stream is opened, and unless the write itself failed the client
    has been sent an alert that says so. *)
Theorem syn_before_settings_refused (rr : Z → nat → Z → Z → Z) (frame : Frame) s r s' :
  f_cmd frame = Syn → received_client_settings s = false → sizes_ok rr (padding s) →
  handle_frame rr frame s = (r, s') →
  (streams s' = streams s ∨ streams s' = ∅) ∧
  ∃ e, r = Err e ∧
    (e = io_err InvalidData "client did not send settings" ∧
     replied s s' [frame_with_data Alert 0 (str "client did not send its settings")] ∨
     (write_control_frame rr (frame_with_data Alert 0 (str "client did not send its settings")) s).1 =
       Err e).
Proof.
  intros Hc Hrc Hs Hr. unfold handle_frame in Hr. rewrite Hc in Hr. unfold handle_syn in Hr.
  rewrite Hrc in Hr. cbn [negb] in Hr. rewrite M_bind_eq in Hr.
  set (alert := frame_with_data Alert 0 _) in *.
  destruct (write_control_frame rr alert s) as [r1 s1] eqn:Ew.
  destruct (write_control_frame_spec _ _ _ _ _ Hs Ew) as (Hnf & Hnp & (Hst & _) & _ & _).
  destruct r1 as [[]|e|w|]; try done; injection Hr as <- <-; (split; [done|]).
  - eexists. split; [done|]. left. split; [done|]. by eapply replied_control.
  - exists e. auto.
Qed.
End SettingsLemmas.

(** ** A runtime to run the session on *)

(** The items of each channel, the channels whose receiver is gone, the tasks
    spawned and aborted, and what the timers will do. *)
Record LogEnv : Set := MkEnv {
  le_chans : list (list bytes); le_dropped : list nat; le_spawned : list (Z * nat);
  le_aborted : list nat; le_timers : list (option (option nat)) }.

#[export] Instance LogEnv_env : SessionEnv LogEnv := {|
  channel e := (length (le_chans e),
    MkEnv (le_chans e ++ [[]]) (le_dropped e) (le_spawned e) (le_aborted e) (le_timers e));
  chan_send c d e :=
    if bool_decide (c ∈ le_dropped e) then (false, e)
    else (true, MkEnv (alter (fun l => l ++ [d]) c (le_chans e)) (le_dropped e) (le_spawned e)
                  (le_aborted e) (le_timers e));
  spawn_stream i c e := (length (le_spawned e),
    MkEnv (le_chans e) (le_dropped e) (le_spawned e ++ [(i, c)]) (le_aborted e) (le_timers e));
  abort_task t e :=
    MkEnv (le_chans e) (le_dropped e) (le_spawned e) (le_aborted e ++ [t]) (le_timers e);
  timeout_write e :=
    (hd None (le_timers e),
     MkEnv (le_chans e) (le_dropped e) (le_spawned e) (le_aborted e) (tl (le_timers e)));
  try_lock_writer e := (true, e) |}.

#[export] Instance LogEnv_laws : SessionEnvLaws LogEnv.
Proof.
  refine {| chan_count e := length (le_chans e);
            chan_log e c := default [] (le_chans e !! c);
            rx_alive e c := negb (bool_decide (c ∈ le_dropped e));
            spawned := le_spawned |}; try done.
  - intros e c Hc. by rewrite lookup_ge_None_2.
  - intros e c e' [= <- <-]. cbn. rewrite length_app. split_and!; [done|cbn; lia| |done..].
    intros d. destruct (decide (d < length (le_chans e))%nat).
    + by rewrite lookup_app_l.
    + rewrite lookup_app_r, (lookup_ge_None_2 (le_chans e)) by lia.
      by destruct (d - length (le_chans e))%nat as [|[|]].
  - intros c d e b e' Hc. cbn. case_bool_decide as Hd; intros [= <- <-]; cbn.
    + split_and!; try done; [|by rewrite bool_decide_true]. intros c'. by rewrite app_nil_r.
    + rewrite length_alter. split_and!; try done.
      intros c'. destruct (Nat.eqb_spec c' c) as [->|Hne].
      * rewrite list_lookup_alter_eq. apply lookup_lt_is_Some in Hc as [l ->]. done.
      * by rewrite list_lookup_alter_ne, app_nil_r by done.
  - intros i c e. cbn. apply elem_of_app. right. by apply list_elem_of_singleton.
  - intros i c e. split_and!; try done. cbn. intros x. rewrite elem_of_app. auto.
Defined.

(** Schemes whose ranges fit a frame give sizes that fit, whatever is drawn. *)
Definition scheme_fits (pf : PaddingFactory) : Prop :=
  map_Forall (fun _ spec => forallb (part_below 65535) (split COMMA spec) = true) (pf_scheme pf).

Lemma sizes_ok_fits rr pf : (∀ pkt, random_range_ok (rr pkt)) → scheme_fits pf → sizes_ok rr pf.
Proof.
  intros Hrr Hf pkt. unfold generate_record_payload_sizes, stringmap_get.
  destruct (pf_scheme pf !! dec pkt) as [spec|] eqn:Hs; [|constructor].
  eapply Forall_impl; [apply (parts_sizes_below (rr pkt) 0 _ 65535); [done|lia|by apply (Hf (dec pkt))]|].
  intros size [?|?]; [by left|right; lia].
Qed.

Lemma default_fits md5 : scheme_fits (default_padding md5).
Proof. apply (bool_decide_unpack _). vm_compute. exact I. Qed.

Definition low (pkt : Z) (i : nat) (lo hi : Z) : Z := lo.

Lemma default_sizes_ok md5 : sizes_ok low (default_padding md5).
Proof. apply sizes_ok_fits; [|apply default_fits]. intros pkt i lo hi ?. unfold low. lia. Qed.

Definition demo_session : Session Sink LogEnv :=
  session_new (MkSink [] []) (default_padding (fun _ => [])) true (MkEnv [] [] [] [] []).

(** Three frames as packets 1 to 3 of the default scheme, in pieces and padded. *)
Definition demo_frames : list Frame :=
  [frame_control SynAck 1; frame_data 1 [x01; x02]; frame_control Fin 1].

Lemma written_frames_decode_witness :
  let s := set_send_padding true demo_session in
  let s' := (write_frames low demo_frames s).2 in
  ∃ gs, written (writer s') = encode_frames gs ∧ drain (encode_frames gs) = (gs, Ok tt, []) ∧
    payload gs = demo_frames.
Proof.
  intros s s'.
  destruct (written_frames_decode low demo_frames s s' (Ok tt)) as (_ & _ & Hok).
  - apply default_sizes_ok.
  - unfold demo_frames. repeat constructor; cbn; lia.
  - reflexivity.
  - reflexivity.
  - vm_compute. reflexivity.
  - exact (Hok eq_refl).
Defined.

Definition demo_settings : Frame := frame_with_data Settings 0 (str "v=2
padding-md5=none").


Lemma syn_before_settings_refused_witness :
  let s' := (handle_frame low (frame_control Syn 1) demo_session).2 in streams s' = ∅.
Proof.
  intros s'.
  destruct (syn_before_settings_refused low (frame_control Syn 1) demo_session _ s' eq_refl eq_refl
    (default_sizes_ok _) (surjective_pairing _)) as ([Hs|Hs] & _); exact Hs.
Defined.
