(* ===== verification/AnyTlsRecv.v ===== *)
(** * The AnyTLS receive side (src/anytls/session.rs, recv_loop)

    The receive loop, and what comes out of it: whatever pieces the connection's
    bytes arrive in and whatever other tasks do meanwhile, the frames are handled
    in order, and each stream's channel gets its own data, in order. *)

From Stdlib Require Import String.
From S2P Require Import Prelude RustStd AnyTlsTypes Padding AsyncStream AnyTlsStream AnyTlsSession.

Section Recv.
Context {R C : Type} `{AsyncRead R}.
(** The frame handler, the test of the closed flag, the free space of a buffer
    when it is read into, and what the session's other tasks do to the shared
    state while the loop awaits its [k]-th read. *)
Context (handle : Frame → M C unit) (closed : C → bool) (spare : bytes → nat)
  (others : nat → C → C).

(** [while let Some(frame) = FrameCodec::decode(&mut buffer)?]: the result is the
    rest of the buffer.  A frame takes seven bytes or more, so the length of the
    buffer is enough fuel. *)
Fixpoint dispatch (fuel : nat) (buf : bytes) (c : C) : res bytes * C :=
  match fuel with
  | O => (OutOfFuel, c)
  | S fuel' =>
      match decode buf with
      | (Ok (Some frame), buf') =>
          match handle frame c with
          | (Ok _, c') => dispatch fuel' buf' c'
          | (Err e, c') => (Err e, c')
          | (Panic w, c') => (Panic w, c')
          | (OutOfFuel, c') => (OutOfFuel, c')
          end
      | (Ok None, buf') => (Ok buf', c)
      | (Err e, _) => (Err e, c)
      | (Panic w, _) => (Panic w, c)
      | (OutOfFuel, _) => (OutOfFuel, c)
      end
  end.

(** The [loop] of [recv_loop]: every round but the last reads a byte or more. *)
Fixpoint recv_rounds (fuel k : nat) (buf : bytes) (r : R) (c : C) : res unit * (R * C) :=
  match fuel with
  | O => (OutOfFuel, (r, c))
  | S fuel' =>
      if closed c then (Ok tt, (r, c))
      else
        match dispatch (S (length buf)) buf c with
        | (Ok buf, c) =>
            match read (spare buf) r with
            | (Ok bs, r) =>
                let c := others k c in
                if decide (bs = []) then (Ok tt, (r, c))
                else recv_rounds fuel' (S k) (buf ++ bs) r c
            | (Err e, r) => (Err e, (r, others k c))
            | (Panic w, r) => (Panic w, (r, others k c))
            | (OutOfFuel, r) => (OutOfFuel, (r, others k c))
            end
        | (Err e, c) => (Err e, (r, c))
        | (Panic w, c) => (Panic w, (r, c))
        | (OutOfFuel, c) => (OutOfFuel, (r, c))
        end
  end.

(** [recv_loop], with the data buffered during authentication. *)
Definition recv_loop (fuel : nat) (initial_data : option bytes) (r : R) (c : C)
    : res unit * (R * C) :=
  recv_rounds fuel 0 (default [] initial_data) r c.

(** A run of the session's state: frames handled, and steps of other tasks. *)
Fixpoint run_trace (tr : list (Frame + nat)) (c : C) : res unit * C :=
  match tr with
  | [] => (Ok tt, c)
  | inl f :: tr' =>
      match handle f c with
      | (Ok _, c') => run_trace tr' c'
      | (Err e, c') => (Err e, c')
      | (Panic w, c') => (Panic w, c')
      | (OutOfFuel, c') => (OutOfFuel, c')
      end
  | inr k :: tr' => run_trace tr' (others k c)
  end.

Definition frames_of (tr : list (Frame + nat)) : list Frame :=
  omap (fun x => match x with inl f => Some f | inr _ => None end) tr.

Lemma frames_of_app t1 t2 : frames_of (t1 ++ t2) = frames_of t1 ++ frames_of t2.
Proof. apply omap_app. Qed.

Lemma frames_of_inl fs : frames_of (inl <$> fs) = fs.
Proof. induction fs as [|f fs IH]; [done|]. cbn. by f_equal. Qed.

Lemma run_trace_app t1 t2 c :
  run_trace (t1 ++ t2) c =
  match run_trace t1 c with (Ok _, c') => run_trace t2 c' | x => x end.
Proof.
  revert c. induction t1 as [|[f|k] t1 IH]; intros c; cbn; [done| |apply IH].
  destruct (handle f c) as [[] c']; [apply IH|done..].
Qed.

(** Dispatching handles the frames the buffer holds, in order. *)
Lemma dispatch_drain fuel buf c :
  (length buf < fuel)%nat →
  dispatch fuel buf c =
  let '(fs, d, rest) := drain buf in
  match run_trace (inl <$> fs) c with
  | (Ok _, c') => ((fun _ => rest) <$> d, c')
  | (Err e, c') => (Err e, c')
  | (Panic w, c') => (Panic w, c')
  | (OutOfFuel, c') => (OutOfFuel, c')
  end.
Proof.
  revert buf c. induction fuel as [|fuel IH]; intros buf c Hf; [lia|].
  cbn [dispatch]. rewrite drain_step. destruct (decode buf) as [[[f|]|e|w|] buf'] eqn:Ed; try done.
  apply decode_length in Ed. destruct (drain buf') as [[fs d] rest] eqn:Edr.
  cbn [fmap list_fmap run_trace]. destruct (handle f c) as [[] c']; try done.
  rewrite IH by lia. by rewrite Edr.
Qed.
End Recv.

Section RecvLemmas.
Context {R C : Type} `{AsyncReadLaws R} (handle : Frame → M C unit) (closed : C → bool)
  (spare : bytes → nat) (others : nat → C → C).
Abbreviation run := (run_trace handle others).

(** How the loop can end, for the frames [fs] and the verdict [d] of decoding the
    whole input: the trace handled a prefix of the frames, and all of them unless
    the session was closed, a handler failed or the connection did. *)
Definition recv_outcome (fs : list Frame) (d : res unit) (tr : list (Frame + nat)) (c c' : C)
    (x : res unit) : Prop :=
  frames_of tr `prefix_of` fs ∧
  match x with
  | Ok _ => run tr c = (Ok tt, c') ∧ (closed c' = true ∨ frames_of tr = fs ∧ d = Ok tt)
  | Err e => run tr c = (Err e, c') ∨
      run tr c = (Ok tt, c') ∧
        (frames_of tr = fs ∧ d = Err e ∨ ∃ n (r1 : R), (read n r1).1 = Err e)
  | y => run tr c = (y, c')
  end.

Lemma recv_outcome_cons fs1 fs2 d tr2 k c c1 c' x :
  run (inl <$> fs1) c = (Ok tt, c1) → recv_outcome fs2 d tr2 (others k c1) c' x →
  recv_outcome (fs1 ++ fs2) d ((inl <$> fs1) ++ inr k :: tr2) c c' x.
Proof.
  intros Hr [Hp Hx]. unfold recv_outcome. rewrite frames_of_app, frames_of_inl.
  change (frames_of (inr k :: tr2)) with (frames_of tr2).
  rewrite run_trace_app, Hr. cbn [run_trace]. split; [by apply prefix_app|].
  destruct x; try done; intuition (subst; eauto).
Qed.

(** More input extends the frames decoded. *)
Lemma drain_more buf more fs d rest :
  drain buf = (fs, d, rest) →
  ∃ fs' d' rest', drain (buf ++ more) = (fs', d', rest') ∧ fs `prefix_of` fs'.
Proof.
  intros Hd. rewrite drain_app, Hd. destruct d; try (do 3 eexists; by split).
  destruct (drain (rest ++ more)) as [[fs' d'] rest']. do 3 eexists. split; [done|].
  by apply prefix_app_r.
Qed.

(** A trace that stops the loop where it is, whatever input follows. *)
Lemma recv_stop buf more fs d rest tr c c' x :
  drain buf = (fs, d, rest) → frames_of tr `prefix_of` fs → run tr c = (x, c') →
  (is_ok x = true → closed c' = true) →
  ∃ fs d rest tr, drain (buf ++ more) = (fs, d, rest) ∧ recv_outcome fs d tr c c' x.
Proof.
  intros Hd Hp Hr Hc. destruct (drain_more _ more _ _ _ Hd) as (fs' & d' & rest' & Hd' & Hp').
  exists fs', d', rest', tr. split; [done|]. split; [by etransitivity|].
  destruct x as [[]|e|w|]; auto.
Qed.

Lemma recv_rounds_spec fuel k buf r c x r' c' :
  (∀ b, (0 < spare b)%nat) →
  recv_rounds handle closed spare others fuel k buf r c = (x, (r', c')) →
  (length (incoming r) < fuel)%nat →
  ∃ fs d rest tr, drain (buf ++ incoming r) = (fs, d, rest) ∧ recv_outcome fs d tr c c' x.
Proof.
  intros Hsp. revert k buf r c. induction fuel as [|fuel IH]; intros k buf r c Hr Hf; [lia|].
  cbn [recv_rounds] in Hr. destruct (drain buf) as [[fs d] rest] eqn:Ed.
  destruct (closed c) eqn:Hc.
  { injection Hr as <- <- <-. by eapply (recv_stop _ _ _ _ _ []); [| |done|]; eauto using prefix_nil. }
  rewrite (dispatch_drain handle others) in Hr by lia. rewrite Ed in Hr.
  destruct (drain_terminates _ _ _ _ Ed) as [Hd1 Hd2].
  destruct (run (inl <$> fs) c) as [y c1] eqn:Et.
  destruct y as [[]|e|w|];
    [|injection Hr as <- <- <-; eapply (recv_stop _ _ _ _ _ (inl <$> fs)); try done;
      by rewrite frames_of_inl..].
  rewrite drain_app, Ed.
  destruct d as [[]|e|w|]; cbn [fmap res_fmap mbind res_bind] in Hr; try done.
  - destruct (read (spare rest) r) as [z r1] eqn:Er.
    destruct (read_spec _ _ _ _ Er) as (Hz1 & Hz2 & Hz).
    destruct z as [bs|e|w|]; try done.
    + destruct Hz as (Hl & Hi & He). case_decide as Hb.
      { injection Hr as <- <- <-. rewrite (He (Hsp _) Hb), app_nil_r.
        assert (drain rest = ([], Ok tt, rest)) as ->.
        { pose proof (drain_app buf []) as Hda. rewrite app_nil_r, Ed in Hda. cbv zeta in Hda.
          rewrite app_nil_r in Hda. destruct (drain rest) as [[fs' d'] rest'].
          injection Hda as Hfs -> ->. rewrite <-(app_nil_r fs) in Hfs at 1.
          by apply app_inv_head in Hfs as <-. }
        do 3 eexists. exists ((inl <$> fs) ++ [inr k]). split; [done|].
        eapply recv_outcome_cons; [done|]. split; [done|]. auto. }
      rewrite Hi, app_assoc. apply IH in Hr as (fs' & d' & rest' & tr & Hd' & Ho).
      2: { rewrite Hi, length_app in Hf. destruct bs; [done|]. cbn in Hf. lia. }
      rewrite Hd'. do 3 eexists. exists ((inl <$> fs) ++ inr k :: tr). split; [done|].
      by eapply recv_outcome_cons.
    + injection Hr as <- <- <-. destruct (drain (rest ++ _)) as [[fs' d'] rest'].
      do 3 eexists. exists ((inl <$> fs) ++ [inr k]). split; [done|].
      eapply recv_outcome_cons; [done|]. split; [apply prefix_nil|]. right. split; [done|].
      right. exists (spare rest), r. by rewrite Er.
  - injection Hr as <- <- <-. do 3 eexists. exists (inl <$> fs). split; [done|].
    split; [by rewrite frames_of_inl|]. right. split; [done|]. left. by rewrite frames_of_inl.
Qed.
End RecvLemmas.

(** ** Demultiplexing *)

(** The items the frames [fs] put on the channel of the open stream [i]: the data of
    its data frames, and an empty item for the FIN that ends it. *)
Fixpoint demux (i : Z) (fs : list Frame) : list bytes :=
  match fs with
  | [] => []
  | f :: fs' =>
      if decide (f_stream_id f = i) then
        match f_cmd f with
        | Psh => if decide (f_data f = []) then demux i fs' else f_data f :: demux i fs'
        | Fin => [[]]
        | _ => demux i fs'
        end
      else demux i fs'
  end.

(** The bytes the client sent on stream [i] before it finished it. *)
Fixpoint stream_bytes (i : Z) (fs : list Frame) : bytes :=
  match fs with
  | [] => []
  | f :: fs' =>
      if decide (f_stream_id f = i) then
        match f_cmd f with
        | Psh => f_data f ++ stream_bytes i fs'
        | Fin => []
        | _ => stream_bytes i fs'
        end
      else stream_bytes i fs'
  end.

(** Reading the items back gives the bytes sent. *)
Lemma item_bytes_demux i fs : item_bytes (demux i fs) = stream_bytes i fs.
Proof.
  induction fs as [|f fs IH]; [done|]. cbn [demux stream_bytes].
  case_decide; [|done]. destruct (f_cmd f); try done.
  case_decide as Hd; [by rewrite Hd|]. rewrite item_bytes_cons by done. by rewrite IH.
Qed.

Section Demux.
Context {W E : Type} `{AsyncWriteLaws W} `{SessionEnvLaws E} (rr : Z → nat → Z → Z → Z).
Implicit Types s : Session W E.

(** Each open stream has a channel of its own. *)
Definition session_ok s : Prop :=
  sizes_ok rr (padding s) ∧
  (∀ i c, streams s !! i = Some c → (c < chan_count (env s))%nat) ∧
  (∀ i j c, streams s !! i = Some c → streams s !! j = Some c → i = j).

(** What handling one frame does to the streams. *)
Inductive frame_effect (f : Frame) s s' : Prop :=
| effect_none : streams s' = streams s → env_quiet (env s) (env s') →
    (f_cmd f = Psh → f_data f = [] ∨ streams s !! f_stream_id f = None) →
    (f_cmd f = Fin → streams s !! f_stream_id f = None) →
    (f_cmd f = Syn → streams s !! f_stream_id f ≠ None) →
    frame_effect f s s'
| effect_psh tx b : f_cmd f = Psh → f_data f ≠ [] → streams s !! f_stream_id f = Some tx →
    chan_send tx (f_data f) (env s) = (b, env s') → streams s' = streams s →
    frame_effect f s s'
| effect_fin tx b : f_cmd f = Fin → streams s !! f_stream_id f = Some tx →
    chan_send tx [] (env s) = (b, env s') → streams s' = delete (f_stream_id f) (streams s) →
    frame_effect f s s'
| effect_syn c e1 : f_cmd f = Syn → streams s !! f_stream_id f = None → channel (env s) = (c, e1) →
    env s' = (spawn_stream (f_stream_id f) c e1).2 →
    streams s' = <[f_stream_id f := c]> (streams s) →
    frame_effect f s s'.

Lemma control_effect f g s s' :
  f_cmd f ≠ Psh → f_cmd f ≠ Fin → f_cmd f ≠ Syn → sizes_ok rr (padding s) →
  write_control_frame rr g s = (Ok tt, s') → frame_effect f s s' ∧ padding s' = padding s.
Proof.
  intros ? ? ? Hs Hr. destruct (write_control_frame_spec _ _ _ _ _ Hs Hr) as (_ & _ & Hc & _ & Hok).
  destruct (Hok eq_refl) as [((Hst & _) & Hp & _)%table_inv _]. split; [|done].
  destruct Hc as (_ & Hq & _). by apply effect_none.
Qed.

(** The same for a settings frame. *)
Lemma settings_effect f s s' :
  f_cmd f = Settings → sizes_ok rr (padding s) → handle_settings rr f s = (Ok tt, s') →
  frame_effect f s s' ∧ padding s' = padding s.
Proof.
  intros Hc Hs Hr. unfold handle_settings in Hr. rewrite M_bind_eq in Hr. cbn [modify] in Hr.
  rewrite M_bind_eq in Hr. cbn [get] in Hr. apply M_bind_ok_inv in Hr as ([] & s1 & Hr1 & Hr2).
  assert (frame_effect f s s1 ∧ padding s1 = padding s) as [He1 Hp1].
  { repeat case_in Hr1;
      first [by injection Hr1 as <-; split; [apply effect_none; rewrite ?Hc; auto with proxy|]
            |apply (control_effect f) in Hr1 as [He1 Hp1]; rewrite ?Hc; try done; split; [|done];
             by destruct He1; [apply effect_none|rewrite Hc in *..]]. }
  destruct (settings_version _) as [v|]; [|by injection Hr2 as <-].
  rewrite M_bind_eq in Hr2. cbn [modify] in Hr2.
  apply (control_effect f) in Hr2 as [He2 Hp2]; rewrite ?Hc; try done.
  2: by cbn; rewrite Hp1.
  cbn [padding set_peer_version set_table] in Hp2. split; [|congruence].
  destruct He1 as [Hst1 Hq1 _ _ _| | |]; try congruence.
  destruct He2 as [Hst2 Hq2 _ _ _| | |]; try congruence.
  apply effect_none; rewrite ?Hc; try done; [by rewrite Hst2|by eapply quiet_trans].
Qed.

Lemma handle_frame_effect f s s' :
  sizes_ok rr (padding s) → handle_frame rr f s = (Ok tt, s') →
  frame_effect f s s' ∧ padding s' = padding s.
Proof.
  intros Hs Hr. unfold handle_frame in Hr. destruct (f_cmd f) eqn:Hc;
    try (injection Hr as <-; split; [apply effect_none; rewrite ?Hc; by auto with proxy|done]);
    try done; try (apply (control_effect f) in Hr; by rewrite ?Hc).
  - unfold handle_syn in Hr. destruct (negb _); [by apply M_bind_ok_inv in Hr as (? & ? & _ & ?)|].
    destruct (streams s !! f_stream_id f) as [c|] eqn:Hst.
    { injection Hr as <-. split; [|done]. apply effect_none; by rewrite ?Hc, ?Hst. }
    cbv beta iota delta [mbind M_bind on_env modify] in Hr.
    destruct (channel (env s)) as [c e1] eqn:Ech. cbn in Hr.
    destruct (spawn_stream (f_stream_id f) c e1) as [h e2] eqn:Esp. cbn in Hr.
    injection Hr as <-. split; [|done]. eapply effect_syn; try done. by rewrite Esp.
  - unfold handle_psh in Hr. case_bool_decide as Hd.
    { injection Hr as <-. split; [|done]. apply effect_none; rewrite ?Hc; try done; by left. }
    destruct (streams s !! f_stream_id f) as [tx|] eqn:Hst.
    + cbv beta iota delta [mbind M_bind on_env] in Hr.
      destruct (chan_send tx (f_data f) (env s)) as [b e] eqn:Es. injection Hr as <-.
      split; [|done]. by eapply effect_psh.
    + injection Hr as <-. split; [|done]. apply effect_none; rewrite ?Hc; try done; by right.
  - unfold handle_fin in Hr. cbv zeta in Hr.
    destruct (streams s !! f_stream_id f) as [tx|] eqn:Hst.
    + cbv beta iota delta [mbind M_bind on_env] in Hr. cbn [env set_streams set_table] in Hr.
      destruct (chan_send tx [] (env s)) as [b e] eqn:Es. injection Hr as <-.
      split; [|done]. by eapply effect_fin.
    + injection Hr as <-. split; [|done]. apply effect_none; rewrite ?Hc; try done.
      cbn. by apply delete_id.
  - by eapply settings_effect.
Qed.

(** ** One channel

    [delivered e e' c ds]: between [e] and [e'] channel [c] accepted a prefix of
    [ds], all of it as long as its receiver exists. *)
Definition delivered (e e' : E) (c : nat) (ds : list bytes) : Prop :=
  (rx_alive e' c = true → rx_alive e c = true) ∧
  (rx_alive e c = false → chan_log e' c = chan_log e c) ∧
  ∃ ds1, chan_log e' c = chan_log e c ++ ds1 ∧ ds1 `prefix_of` ds ∧
    (rx_alive e' c = true → ds1 = ds).

Lemma delivered_nil e e' c :
  (rx_alive e' c = true → rx_alive e c = true) → chan_log e' c = chan_log e c →
  delivered e e' c [].
Proof. intros Ha Hl. split_and!; try done. exists []. by rewrite app_nil_r. Qed.

Lemma delivered_quiet e e' c : env_quiet e e' → delivered e e' c [].
Proof. intros (_ & Hl & Ha & _). apply delivered_nil; auto. Qed.

Lemma delivered_trans e1 e2 e3 c d1 d2 :
  delivered e1 e2 c d1 → delivered e2 e3 c d2 → delivered e1 e3 c (d1 ++ d2).
Proof.
  intros (Ha & Hf & x1 & Hl1 & Hp1 & Hx1) (Ha' & Hf' & x2 & Hl2 & Hp2 & Hx2). split_and!.
  - auto.
  - intros Hd. rewrite Hf', (Hf Hd); [done|]. destruct (rx_alive e2 c) eqn:E2; [|done].
    rewrite Ha in Hd by done. done.
  - exists (x1 ++ x2). rewrite Hl2, Hl1, <-app_assoc. split_and!; [done| |].
    + destruct (rx_alive e2 c) eqn:E2; [rewrite (Hx1 eq_refl); by apply prefix_app|].
      specialize (Hf' eq_refl). rewrite Hl2 in Hf'.
      assert (x2 = []) as -> by (apply (app_inv_head (chan_log e2 c)); by rewrite app_nil_r).
      rewrite app_nil_r. by apply prefix_app_r.
    + intros Hal. by rewrite (Hx2 Hal), (Hx1 (Ha' Hal)).
Qed.

Lemma delivered_send e tx d b e' c :
  (tx < chan_count e)%nat → chan_send tx d e = (b, e') →
  delivered e e' c (if decide (c = tx) then [d] else []).
Proof.
  intros Hc Hs. destruct (chan_send_spec _ _ _ _ _ Hc Hs) as (_ & Hl & Ha & Hb & _).
  specialize (Hl c). case_decide as Hct.
  - subst c. rewrite Nat.eqb_refl, andb_true_r in Hl. destruct b.
    + split_and!; [by auto|congruence|]. exists [d]. by split_and!.
    + rewrite app_nil_r in Hl. split_and!; [by auto|done|]. exists []. rewrite app_nil_r.
      split_and!; [done|apply prefix_nil|congruence].
  - rewrite (proj2 (Nat.eqb_neq _ _)), andb_false_r, app_nil_r in Hl by done.
    apply delivered_nil; auto.
Qed.

(** The state of stream [i]'s channel [c]: still in the table, or gone from it. *)
Definition bound s (i : Z) (c : nat) : Prop := streams s !! i = Some c.
Definition unbound s (c : nat) : Prop :=
  (c < chan_count (env s))%nat ∧ ∀ j, streams s !! j ≠ Some c.

Lemma effect_ok f s s' :
  session_ok s → frame_effect f s s' → padding s' = padding s →
  session_ok s' ∧ (chan_count (env s) ≤ chan_count (env s'))%nat ∧ spawned (env s) ⊆ spawned (env s').
Proof.
  intros (Hz & Hlt & Hinj) He Hp. unfold session_ok. rewrite Hp.
  destruct He as [Hst (Hn & _ & _ & Hsp) _ _ _|tx b _ _ Ht Hs Hst|tx b _ Ht Hs Hst|c e1 _ Ht Hch He Hst];
    rewrite Hst.
  - rewrite Hn. by split_and!.
  - apply chan_send_spec in Hs as (-> & _ & _ & _ & Hsp); [|eauto]. by split_and!.
  - apply chan_send_spec in Hs as (-> & _ & _ & _ & Hsp); [|eauto]. split_and!; try done.
    + intros i c [_ Hc]%lookup_delete_Some. eauto.
    + intros i j c [_ Hi]%lookup_delete_Some [_ Hj]%lookup_delete_Some. eauto.
  - apply channel_spec in Hch as (-> & Hn & _ & _ & Hsp).
    destruct (spawn_quiet (f_stream_id f) (chan_count (env s)) e1) as (Hn' & _ & _ & Hsp').
    rewrite He, Hn', Hn. split_and!; try done; [| |lia|by etransitivity].
    + intros i c [[_ <-]|[_ Hi%Hlt]]%lookup_insert_Some; lia.
    + intros i j c [[<- <-]|[Hi1 Hi]]%lookup_insert_Some [[<- Hc]|[Hj1 Hj]]%lookup_insert_Some; try done.
      * apply Hlt in Hj. lia.
      * subst. apply Hlt in Hi. lia.
      * eauto.
Qed.

Lemma channel_delivered e c e1 i d :
  channel e = (c, e1) → delivered e (spawn_stream i c e1).2 d [].
Proof.
  intros (-> & _ & Hl & Ha & _)%channel_spec.
  destruct (spawn_quiet i (chan_count e) e1) as (_ & Hl' & Ha' & _).
  apply delivered_nil; [auto|]. by rewrite Hl', Hl.
Qed.

Lemma effect_unbound f s s' c :
  session_ok s → frame_effect f s s' → padding s' = padding s → unbound s c →
  unbound s' c ∧ delivered (env s) (env s') c [].
Proof.
  intros Hok He Hp [Hc Hu]. destruct (effect_ok _ _ _ Hok He Hp) as (_ & Hn & _).
  destruct Hok as (_ & Hlt & _). unfold unbound.
  destruct He as [Hst Hq _ _ _|tx b _ _ Ht Hs Hst|tx b _ Ht Hs Hst|d e1 _ Ht Hch He Hst]; rewrite Hst.
  - split; [|by apply delivered_quiet]. split; [lia|done].
  - apply (delivered_send _ _ _ _ _ c) in Hs; [|eauto]. rewrite decide_False in Hs by (intros ->; by eapply Hu).
    split; [|done]. split; [lia|done].
  - apply (delivered_send _ _ _ _ _ c) in Hs; [|eauto]. rewrite decide_False in Hs by (intros ->; by eapply Hu).
    split; [|done]. split; [lia|]. by intros j [_ Hj]%lookup_delete_Some; eapply Hu.
  - split; [split; [lia|]|rewrite He; by apply channel_delivered].
    apply channel_spec in Hch as (-> & _). intros j [[_ <-]|[_ Hj]]%lookup_insert_Some; [lia|].
    by eapply Hu.
Qed.

(** What one frame does to an open stream. *)
Lemma effect_bound f s s' i c :
  session_ok s → frame_effect f s s' → padding s' = padding s → bound s i c →
  delivered (env s) (env s') c (demux i [f]) ∧
  (if decide (f_stream_id f = i ∧ f_cmd f = Fin) then unbound s' c else bound s' i c).
Proof.
  intros Hok He Hp Hb. destruct (effect_ok _ _ _ Hok He Hp) as (_ & Hn & _).
  destruct Hok as (_ & Hlt & Hinj). pose proof (Hlt _ _ Hb) as Hc. unfold bound in *. cbn [demux].
  destruct He as [Hst Hq Hpsh Hfin _|tx b Hf Hd Ht Hs Hst|tx b Hf Ht Hs Hst|d e1 Hf Ht Hch He Hst].
  - assert ((if decide (f_stream_id f = i) then
        match f_cmd f with
        | Psh => if decide (f_data f = []) then [] else [f_data f] | Fin => [[]] | _ => [] end
      else []) = []) as ->.
    { case_decide as Hi; [|done]. rewrite Hi in *. destruct (f_cmd f); try done.
      - destruct (Hpsh eq_refl) as [Hd|Hd]; [by rewrite decide_True|congruence].
      - by rewrite (Hfin eq_refl) in Hb. }
    split; [by apply delivered_quiet|]. rewrite decide_False; [by rewrite Hst|].
    intros [Hi Hf]. rewrite <-Hi in Hb. by rewrite (Hfin Hf) in Hb.
  - rewrite Hf, Hst, (decide_False (P := _ ∧ _)) by (intros [_ ?]; congruence).
    apply (delivered_send _ _ _ _ _ c) in Hs; [|eauto]. split; [|done].
    destruct (decide (f_stream_id f = i)) as [Hi|Hi].
    + rewrite Hi in Ht. rewrite Hb in Ht. injection Ht as <-. rewrite decide_True in Hs by done.
      by rewrite decide_False.
    + rewrite decide_False in Hs; [done|]. intros <-. by apply Hi, (Hinj _ _ c).
  - rewrite Hf, Hst. apply (delivered_send _ _ _ _ _ c) in Hs; [|eauto].
    destruct (decide (f_stream_id f = i)) as [Hi|Hi].
    + rewrite Hi in Ht. rewrite Hb in Ht. injection Ht as <-. rewrite decide_True in Hs by done.
      rewrite decide_True by done. split; [done|]. split; [lia|]. rewrite Hst.
      intros j [Hj1 Hj2]%lookup_delete_Some. apply Hj1. rewrite Hi. by eapply Hinj.
    + rewrite decide_False by (intros [? _]; done). rewrite decide_False in Hs.
      * split; [done|]. by rewrite lookup_delete_ne.
      * intros <-. by apply Hi, (Hinj _ _ c).
  - rewrite Hf, Hst, (decide_False (P := _ ∧ _)) by (intros [_ ?]; congruence).
    rewrite He. split; [case_decide; by apply channel_delivered|].
    rewrite lookup_insert_ne; [done|]. intros Hi. rewrite Hi in Ht. congruence.
Qed.

(** ** The handler always returns *)

Definition total {A} (m : M (Session W E) A) : Prop := ∀ s r s',
  sizes_ok rr (padding s) → m s = (r, s') →
  r ≠ OutOfFuel ∧ panics r = false ∧ padding s' = padding s.

Lemma total_bind {A B} (m : M (Session W E) A) (k : A → M _ B) :
  total m → (∀ a, total (k a)) → total (m ≫= k).
Proof.
  intros Hm Hk s r s' Hs. rewrite M_bind_eq. destruct (m s) as [r1 s1] eqn:E1.
  destruct (Hm _ _ _ Hs E1) as (? & ? & Hp). destruct r1 as [a|e|w|]; try done.
  - rewrite <-Hp in Hs. intros Hr. destruct (Hk a _ _ _ Hs Hr) as (? & ? & ?). split_and!; congruence.
  - by intros [= <- <-].
Qed.

Lemma total_ret {A} (a : A) : total (mret a).
Proof. by intros s r s' _ [= <- <-]. Qed.
Lemma total_throw {A} e : total (throw (A := A) e).
Proof. by intros s r s' _ [= <- <-]. Qed.
Lemma total_get : total get.
Proof. by intros s r s' _ [= <- <-]. Qed.
Lemma total_env {A} (f : E → A * E) : total (on_env f).
Proof. intros s r s' _. unfold on_env. destruct (f (env s)). by intros [= <- <-]. Qed.
Lemma total_modify f : (∀ s, padding (f s) = padding s) → total (modify f).
Proof. intros Hf s r s' _ [= <- <-]. by rewrite Hf. Qed.
Lemma total_control f : total (write_control_frame rr f).
Proof.
  intros s r s' Hs Hr. destruct (write_control_frame_spec _ _ _ _ _ Hs Hr) as (? & ? & Hc & _).
  split_and!; try done. apply Hc.
Qed.

Hint Resolve total_bind total_ret total_throw total_get total_env total_modify total_control : proxy.

(** A goal on one run, from the totality of what runs. *)
Ltac total_run :=
  match goal with
  | Hs : sizes_ok _ (padding ?s) |- ?m ?s = (?r, ?s') → _ =>
      let Ht := fresh in assert (total m) as Ht by auto 10 with proxy; exact (Ht s r s' Hs)
  end.

Lemma total_settings f : total (handle_settings rr f).
Proof.
  unfold handle_settings. apply total_bind; [by apply total_modify|]. intros _.
  apply total_bind; [apply total_get|]. intros s. apply total_bind.
  - repeat case_match_eqn; auto with proxy.
  - intros _. destruct (settings_version _); auto with proxy.
Qed.

Lemma handle_frame_total f : total (handle_frame rr f).
Proof.
  unfold handle_frame. destruct (f_cmd f); auto using total_settings with proxy; intros s r s' Hs.
  - unfold handle_syn. destruct (negb _); [total_run|].
    destruct (streams s !! _); [by intros [= <- <-]|total_run].
  - unfold handle_psh. case_bool_decide; [by intros [= <- <-]|].
    destruct (streams s !! _); [total_run|by intros [= <- <-]].
  - unfold handle_fin. cbv zeta. set (s1 := set_streams _ s).
    assert (sizes_ok rr (padding s1)) as Hs1 by done. clear Hs.
    change (padding s) with (padding s1).
    destruct (streams s !! _); [total_run|by intros [= <- <-]].
Qed.

(** ** Traces *)

(** What the other tasks may do while stream [i] is in use: close other streams,
    drop receivers, write frames. *)
Definition rely (i : Z) s s' : Prop :=
  streams s' ⊆ streams s ∧ streams s' !! i = streams s !! i ∧ env_quiet (env s) (env s') ∧
  padding s' = padding s.

Lemma rely_ok i s s' : rely i s s' → session_ok s → session_ok s'.
Proof.
  intros (Hsub & _ & (Hn & _) & Hp) (Hz & Hlt & Hinj). unfold session_ok. rewrite Hp, Hn.
  split_and!; [done|..]; eauto using lookup_weaken.
Qed.

Lemma rely_unbound i s s' c : rely i s s' → unbound s c → unbound s' c.
Proof.
  intros (Hsub & _ & (Hn & _) & _) [Hc Hu]. split; [by rewrite Hn|].
  intros j Hj. by eapply Hu, lookup_weaken.
Qed.

Lemma demux_cons i f fs :
  demux i (f :: fs) =
  if decide (f_stream_id f = i ∧ f_cmd f = Fin) then demux i [f] else demux i [f] ++ demux i fs.
Proof.
  cbn [demux]. destruct (decide (f_stream_id f = i)) as [Hi|Hi];
    [|by rewrite decide_False by (intros [? _]; done)].
  destruct (f_cmd f); try by rewrite (decide_False (P := _ ∧ _)) by (intros [_ ?]; done).
  - rewrite (decide_False (P := _ ∧ _)) by (intros [_ ?]; done). by case_decide.
  - by rewrite decide_True.
Qed.

Section Trace.
Context (others : nat → Session W E → Session W E) (i : Z)
  (others_rely : ∀ k s, session_ok s → rely i s (others k s)).
Abbreviation run := (run_trace (handle_frame rr) others).

(** The first event of a trace that succeeds. *)
Lemma run_trace_cons x tr s s' :
  run (x :: tr) s = (Ok tt, s') → session_ok s →
  ∃ s1, run tr s1 = (Ok tt, s') ∧ session_ok s1 ∧ spawned (env s) ⊆ spawned (env s1) ∧
    match x with
    | inl f => frame_effect f s s1 ∧ padding s1 = padding s
    | inr k => s1 = others k s
    end.
Proof.
  intros Hr Hok. destruct x as [f|k]; cbn [run_trace] in Hr.
  - destruct (handle_frame rr f s) as [[[]| | |] s1] eqn:Ef; try done.
    apply handle_frame_effect in Ef as [He Hp]; [|apply Hok].
    exists s1. destruct (effect_ok _ _ _ Hok He Hp) as (? & _ & ?). by split_and!.
  - exists (others k s). pose proof (others_rely k s Hok) as Hrel. split_and!; try done.
    + by eapply rely_ok.
    + apply Hrel.
Qed.

Lemma trace_ok tr s s' :
  run tr s = (Ok tt, s') → session_ok s → session_ok s' ∧ spawned (env s) ⊆ spawned (env s').
Proof.
  revert s. induction tr as [|x tr IH]; intros s Hr Hok.
  - by injection Hr as <-.
  - destruct (run_trace_cons _ _ _ _ Hr Hok) as (s1 & Hr1 & Hok1 & Hsp & _).
    destruct (IH _ Hr1 Hok1). split; [done|by etransitivity].
Qed.

Lemma trace_unbound tr s s' c :
  run tr s = (Ok tt, s') → session_ok s → unbound s c → delivered (env s) (env s') c [].
Proof.
  revert s. induction tr as [|x tr IH]; intros s Hr Hok Hu.
  - injection Hr as <-. by apply delivered_nil.
  - destruct (run_trace_cons _ _ _ _ Hr Hok) as (s1 & Hr1 & Hok1 & _ & Hx).
    apply (delivered_trans _ (env s1) _ _ [] []).
    + destruct x as [f|k].
      * destruct Hx as [He Hp]. exact (proj2 (effect_unbound f s s1 c Hok He Hp Hu)).
      * subst s1. by apply delivered_quiet, others_rely.
    + apply IH; try done. destruct x as [f|k].
      * destruct Hx as [He Hp]. exact (proj1 (effect_unbound f s s1 c Hok He Hp Hu)).
      * subst s1. eapply rely_unbound; eauto.
Qed.

Lemma trace_bound tr s s' c :
  run tr s = (Ok tt, s') → session_ok s → bound s i c →
  delivered (env s) (env s') c (demux i (frames_of tr)).
Proof.
  revert s. induction tr as [|x tr IH]; intros s Hr Hok Hb.
  - injection Hr as <-. by apply delivered_nil.
  - destruct (run_trace_cons _ _ _ _ Hr Hok) as (s1 & Hr1 & Hok1 & _ & Hx).
    destruct x as [f|k].
    + destruct Hx as [He Hp]. change (frames_of (inl f :: tr)) with (f :: frames_of tr).
      destruct (effect_bound _ _ _ _ _ Hok He Hp Hb) as [Hd Hnext]. rewrite demux_cons.
      case_decide.
      * rewrite <-(app_nil_r (demux i [f])). eapply delivered_trans; [done|]. by eapply trace_unbound.
      * eapply delivered_trans; [done|]. by apply IH.
    + subst s1. change (demux i (frames_of (inr k :: tr))) with ([] ++ demux i (frames_of tr)).
      eapply delivered_trans; [by apply delivered_quiet, others_rely|]. apply IH; try done.
      unfold bound. destruct (others_rely k s Hok) as (_ & -> & _). done.
Qed.

Definition opens (f : Frame) : bool := bool_decide (f_cmd f = Syn ∧ f_stream_id f = i).

Lemma trace_closed tr s s' :
  run tr s = (Ok tt, s') → session_ok s → streams s !! i = None →
  forallb (negb ∘ opens) (frames_of tr) = true → streams s' !! i = None.
Proof.
  revert s. induction tr as [|x tr IH]; intros s Hr Hok Hn Hf.
  - by injection Hr as <-.
  - destruct (run_trace_cons _ _ _ _ Hr Hok) as (s1 & Hr1 & Hok1 & _ & Hx).
    destruct x as [f|k].
    + destruct Hx as [He _]. change (frames_of (inl f :: tr)) with (f :: frames_of tr) in Hf.
      cbn [forallb] in Hf. apply andb_prop in Hf as [Hf1 Hf]. eapply IH; try done.
      destruct He as [-> _ _ _ _|tx b _ _ _ _ ->|tx b _ _ _ ->|c e1 Hc _ _ _ ->]; try done.
      * by rewrite lookup_delete_None; right.
      * rewrite lookup_insert_ne; [done|]. intros Hi. unfold opens in Hf1. cbn in Hf1.
        by rewrite bool_decide_true in Hf1.
    + eapply IH; try done. subst s1. by destruct (others_rely k s Hok) as (_ & -> & _).
Qed.

(** The trace splits where a given frame is handled. *)
Lemma frames_of_split tr fs1 f fs2 :
  frames_of tr = fs1 ++ f :: fs2 →
  ∃ t1 t2, tr = t1 ++ inl f :: t2 ∧ frames_of t1 = fs1 ∧ frames_of t2 = fs2.
Proof.
  revert fs1. induction tr as [|[g|k] tr IH]; intros fs1 Hf; [by destruct fs1| |].
  - change (g :: frames_of tr = fs1 ++ f :: fs2) in Hf. destruct fs1 as [|h fs1]; injection Hf as -> Hf.
    + by exists [], tr.
    + destruct (IH _ Hf) as (t1 & t2 & -> & <- & <-). by exists (inl h :: t1), t2.
  - destruct (IH fs1 Hf) as (t1 & t2 & -> & <- & <-). by exists (inr k :: t1), t2.
Qed.

(** From the frame that opens stream [i] on, its channel gets its items. *)
Lemma trace_stream tr s s' fs1 f fs2 :
  run tr s = (Ok tt, s') → session_ok s → streams s !! i = None →
  frames_of tr = fs1 ++ f :: fs2 → forallb (negb ∘ opens) fs1 = true → opens f = true →
  ∃ c, (i, c) ∈ spawned (env s') ∧ chan_log (env s') c `prefix_of` demux i fs2 ∧
    (rx_alive (env s') c = true → chan_log (env s') c = demux i fs2).
Proof.
  intros Hr Hok Hn Hf Hno [Hsyn Hid]%bool_decide_eq_true.
  destruct (frames_of_split _ _ _ _ Hf) as (t1 & t2 & -> & <- & <-).
  rewrite run_trace_app in Hr. destruct (run t1 s) as [[[]| | |] s1] eqn:E1; try done.
  destruct (trace_ok _ _ _ E1 Hok) as [Hok1 _].
  pose proof (trace_closed _ _ _ E1 Hok Hn Hno) as Hn1.
  destruct (run_trace_cons _ _ _ _ Hr Hok1) as (s2 & Hr2 & Hok2 & _ & He & _).
  rewrite <-Hid in Hn1.
  destruct He as [_ _ _ _ Hs|tx b Hx _ _ _ _|tx b Hx _ _ _|c e1 _ _ Hch He Hst];
    [by specialize (Hs Hsyn)|congruence..|].
  exists c. pose proof (spawn_spawned (f_stream_id f) c e1) as Hsp. rewrite <-He, Hid in Hsp.
  destruct (trace_ok _ _ _ Hr2 Hok2) as [_ Hmono]. split; [by apply Hmono|].
  assert (chan_log (env s2) c = []) as Hl.
  { rewrite He. destruct (spawn_quiet (f_stream_id f) c e1) as (_ & Hq & _). rewrite Hq.
    apply channel_spec in Hch as (-> & _ & Hch & _). rewrite Hch. by apply unused_log. }
  destruct (trace_bound t2 s2 s' c Hr2 Hok2) as (_ & _ & ds & Hlog & Hp & Hal).
  { unfold bound. by rewrite Hst, Hid, lookup_insert_eq. }
  rewrite Hl in Hlog. cbn in Hlog. by rewrite Hlog.
Qed.
End Trace.

(** ** What the other tasks really do *)

Lemma table_rely i s s' : table s' = table s → rely i s s'.
Proof.
  intros ((Hst & _ & _ & He) & Hp & _)%table_inv. unfold rely. rewrite Hst, He.
  split_and!; auto with proxy.
Qed.

Lemma outgoing_rely i j d s :
  sizes_ok rr (padding s) → d ≠ [] ∨ j ≠ i → rely i s (outgoing_turn rr (j, d) s).2.
Proof.
  intros Hs Hj. unfold outgoing_turn. destruct (is_closed s); [by apply table_rely|].
  case_bool_decide as Hd.
  - destruct Hj as [|Hj]; [done|]. destruct (write_frame rr _ s) as [r s1] eqn:Ew.
    apply write_frame_spec in Ew as (Ht & _); [|done].
    assert (rely i s (set_streams (delete j (streams s1)) s1)) as Hrel.
    { apply (table_rely i) in Ht as (Hsub & Hi & Hq & Hp). split_and!; try done; cbn.
      - etransitivity; [apply delete_subseteq|done].
      - by rewrite lookup_delete_ne. }
    destruct r; try done; by apply table_rely.
  - destruct (write_frame rr _ s) as [r s1] eqn:Ew. apply write_frame_spec in Ew as (Ht & _); [|done].
    destruct r; by apply table_rely.
Qed.

Lemma synack_rely i j err s s' :
  sizes_ok rr (padding s) → send_synack rr j err s = (Ok tt, s') → rely i s s'.
Proof.
  intros Hs Hr. unfold send_synack in Hr. destruct (_ <? _); [injection Hr as <-; by apply table_rely|].
  destruct (write_control_frame_spec _ _ _ _ _ Hs Hr) as (_ & _ & (_ & Hq & _) & _ & Hok).
  destruct (Hok eq_refl) as [((Hst & _) & Hp & _)%table_inv _].
  unfold rely. rewrite Hst, Hp. by split_and!.
Qed.

Lemma task_done_rely i j s : rely i s (task_done j s).
Proof. unfold rely. by split_and!. Qed.

Lemma trace_total (others : nat → Session W E → Session W E) tr s r s' :
  (∀ k s, sizes_ok rr (padding s) → padding (others k s) = padding s) → sizes_ok rr (padding s) →
  run_trace (handle_frame rr) others tr s = (r, s') → r ≠ OutOfFuel ∧ panics r = false.
Proof.
  intros Ho. revert s. induction tr as [|[f|k] tr IH]; intros s Hs; cbn [run_trace].
  - by intros [= <- <-].
  - destruct (handle_frame rr f s) as [r1 s1] eqn:Ef.
    destruct (handle_frame_total _ _ _ _ Hs Ef) as (? & ? & Hp). rewrite <-Hp in Hs.
    destruct r1; try done; [by apply IH|by intros [= <- <-]].
  - apply IH. by rewrite Ho by done.
Qed.
End Demux.

Section Session.
Context {R W E : Type} `{AsyncReadLaws R} `{AsyncWriteLaws W} `{SessionEnvLaws E}.

(** C18: However the connection's bytes are cut into reads, and whatever other tasks do
    to the session meanwhile, the receive loop handles the frames those bytes
    decode to, in order, after the data buffered during authentication: all of
    them, unless the session is closed, a frame is refused or the connection
    fails.  The loop always returns, and never panics. *)
Theorem recv_loop_in_order (rr : Z → nat → Z → Z → Z) (spare : bytes → nat)
    (others : nat → Session W E → Session W E) (fuel : nat) (initial : option bytes) (r r' : R)
    (s s' : Session W E) (x : res unit) :
  (∀ b, (0 < spare b)%nat) → sizes_ok rr (padding s) →
  (∀ k s, sizes_ok rr (padding s) → padding (others k s) = padding s) →
  (length (incoming r) < fuel)%nat →
  recv_loop (handle_frame rr) is_closed spare others fuel initial r s = (x, (r', s')) →
  x ≠ OutOfFuel ∧ panics x = false ∧
  ∃ fs d rest tr, drain (default [] initial ++ incoming r) = (fs, d, rest) ∧
    recv_outcome (R := R) (handle_frame rr) is_closed others fs d tr s s' x.
Proof.
  intros Hsp Hs Ho Hf Hr. destruct (recv_rounds_spec _ _ _ _ _ _ _ _ _ _ _ _ Hsp Hr Hf)
    as (fs & d & rest & tr & Hd & Hout).
  assert (x ≠ OutOfFuel ∧ panics x = false) as [? ?]; [|by split_and!; eauto 10].
  destruct Hout as [_ Hx]. destruct x as [|e|w|]; try done; by eapply trace_total in Hx.
Qed.

(** The channel of one stream, at the end of the receive loop. *)
Lemma recv_loop_demux (rr : Z → nat → Z → Z → Z) (spare : bytes → nat)
    (others : nat → Session W E → Session W E) (fuel : nat) (initial : option bytes) (r r' : R)
    (s s' : Session W E) (i : Z) (fs1 fs2 : list Frame) (f : Frame) (d : res unit) (rest : bytes) :
  (∀ b, (0 < spare b)%nat) → session_ok rr s → streams s !! i = None →
  (∀ k s, session_ok rr s → rely i s (others k s)) → (length (incoming r) < fuel)%nat →
  recv_loop (handle_frame rr) is_closed spare others fuel initial r s = (Ok tt, (r', s')) →
  is_closed s' = false →
  drain (default [] initial ++ incoming r) = (fs1 ++ f :: fs2, d, rest) →
  opens i f = true → forallb (negb ∘ opens i) fs1 = true →
  ∃ c, (i, c) ∈ spawned (env s') ∧ chan_log (env s') c `prefix_of` demux i fs2 ∧
    (rx_alive (env s') c = true → chan_log (env s') c = demux i fs2).
Proof.
  intros Hsp Hok Hn Ho Hf Hr Hcl Hd Hop Hno.
  destruct (recv_rounds_spec _ _ _ _ _ _ _ _ _ _ _ _ Hsp Hr Hf) as (fs & d' & rest' & tr & Hd' & _ & Ht & Hend).
  rewrite Hd in Hd'. injection Hd' as <- _ _.
  destruct Hend as [Hend|[Hfs _]]; [congruence|].
  destruct (trace_stream rr others i Ho _ _ _ _ _ _ Ht Hok Hn Hfs Hno Hop) as (c & Hc & Hp & Hal).
  by exists c.
Qed.

End Session.

(** ** Two streams at once *)

Definition demo_wire_frames : list Frame :=
  [demo_settings; frame_control Syn 1; frame_control Syn 2; frame_data 1 [x01; x02];
   frame_data 2 [x09]; frame_data 1 [x03]; frame_control Fin 1; frame_data 2 [x08]].

Definition demo_wire : bytes := encode_frames demo_wire_frames.

(** Twelve bytes came with the authentication, the rest in two pieces. *)
Definition demo_initial : bytes := take 12 demo_wire.
Definition demo_reader : Script :=
  MkScript (script_rest (slice 12 50 demo_wire) (EPending :: script_rest (drop 50 demo_wire) [])).

(** Meanwhile stream 2 writes. *)
Definition demo_others (k : nat) (s : Session Sink LogEnv) : Session Sink LogEnv :=
  (outgoing_turn low (2, [x05]) s).2.

Definition demo_recv : res unit * (Script * Session Sink LogEnv) :=
  recv_loop (handle_frame low) is_closed (fun _ => 3%nat) demo_others 200 (Some demo_initial)
    demo_reader demo_session.

Lemma demo_session_ok : session_ok low demo_session.
Proof. split; [apply default_sizes_ok|]. split; intros *; cbn; by rewrite lookup_empty. Qed.

Lemma demo_fuel : (length (incoming demo_reader) < 200)%nat.
Proof. apply Nat.ltb_lt. vm_compute. reflexivity. Qed.

Lemma demo_drain :
  drain (default [] (Some demo_initial) ++ incoming demo_reader) =
  ([demo_settings] ++ frame_control Syn 1 :: drop 2 demo_wire_frames, Ok tt, []).
Proof. vm_compute. reflexivity. Qed.

Lemma demo_recv_ok : demo_recv.1 = Ok tt ∧ is_closed demo_recv.2.2 = false.
Proof. vm_compute. done. Qed.

Lemma demo_others_rely i k (s : Session Sink LogEnv) :
  sizes_ok low (padding s) → rely i s (demo_others k s).
Proof. intros. apply outgoing_rely; [done|]. by left. Qed.

Lemma recv_loop_in_order_witness :
  ∃ fs d rest tr, drain (default [] (Some demo_initial) ++ incoming demo_reader) = (fs, d, rest) ∧
    recv_outcome (R := Script) (handle_frame low) is_closed demo_others fs d tr demo_session
      demo_recv.2.2 demo_recv.1.
Proof.
  destruct (recv_loop_in_order low (fun _ => 3%nat) demo_others 200 (Some demo_initial) demo_reader
    demo_recv.2.1 demo_session demo_recv.2.2 demo_recv.1) as (_ & _ & Hout).
  - intros _. lia.
  - apply default_sizes_ok.
  - intros k s Hs. apply (demo_others_rely 0 k s Hs).
  - apply demo_fuel.
  - unfold demo_recv. by destruct (recv_loop _ _ _ _ _ _ _ _) as [? [? ?]].
  - exact Hout.
Defined.

