(* ===== verification/AnyTlsForward.v ===== *)
(** * Handlers of AnyTLS streams (src/anytls/session.rs)

    What the task of a stream does: it reads the destination, connects to it, tells
    the client with a SYNACK, and copies until both sides have ended; or it relays
    UDP, for the two magic destinations.

    A handler touches its session once, for the SYNACK; [s] is the session as it
    finds it there.  [tcp_stream] and [udp_socket] are the streams behind the
    system's handles. *)

From Stdlib Require Import String.
From S2P Require Import Prelude RustStd Address AsyncStream AnyTlsLocation LruCache Resolver Dial.
From S2P Require Import VlessStream PacketStream Sockets UdpCopy UdpRouting.
From S2P Require Import AnyTlsTypes Padding QuicStream CopyBidirectional AnyTlsSession.

Definition UOT_V1_MAGIC_ADDRESS : bytes := str "sp.udp-over-tcp.arpa".
Definition UOT_V2_MAGIC_ADDRESS : bytes := str "sp.v2.udp-over-tcp.arpa".

(** What is left of the streams when a handler returns. *)
Inductive stream_end (A B D C K : Type) : Type :=
| Unserved (stream : A)
| Forwarded (stream : A) (dest : B)
| Relayed (server : VlessMessageStream A) (client : UdpSocket D)
| Routed (st : UdpRouting.routing (PacketAddrStream A) C K).
Arguments Unserved {A B D C K} _.
Arguments Forwarded {A B D C K} _ _.
Arguments Relayed {A B D C K} _ _.
Arguments Routed {A B D C K} _.

Section Forward.
Context {A B D W E C K : Type} `{AsyncRead A} `{AsyncWrite A} `{AsyncPing A}
  `{AsyncRead B} `{AsyncWrite B} `{AsyncPing B} `{Datagrams D} `{AsyncWrite W} `{SessionEnv E}
  `{!Lru bytes CacheEntry C} `{SocketSys K}.
Context (rr : Z → nat → Z → Z → Z) (tcp_stream : nat → B) (udp_socket : nat → UdpSocket D).
(** The system resolver, with the clock it sees; the memory buffers are made of. *)
Context (system : bytes → Z → res (list SocketAddr)) (t1 t2 : Z) (mem_a mem_b : nat → byte).

(** The runtime's part: whether the 30 s of the connect run out, leaving the network so;
    the fuel and schedule of the copy, and of the two UDP relays. *)
Record runtime : Type := MkRuntime {
  connect_timeout : option (Resolver (C := C) * K);
  copy_fuel : nat; copy_polls : list (bool * bool * bool);
  relay_waits : nat; relay_start : Z; relay_ticks : list UdpCopy.tick;
  routing_ticks : list UdpRouting.tick }.
Context (rt : runtime).

(** The session, and the network. *)
Abbreviation World := (Session W E * (Resolver (C := C) * K))%type.
Abbreviation Handler := (World → res unit * stream_end A B D C K * World).

Definition connect_failed (e : io_error) : bytes := str "connect failed: " ++ err_msg e.
Definition connect_timed_out (destination : NetLocation) : bytes :=
  str "connect to " ++ show_netloc destination ++ str " timed out after 30s".

(** [let _ = self.send_synack(..).await]. *)
Definition try_synack (stream_id : Z) (error : option bytes) (s : Session W E) : Session W E :=
  (send_synack rr stream_id error s).2.

Definition handle_tcp_forward (stream_id : Z) (stream : A) (destination : NetLocation) : Handler :=
  fun '(s, net) =>
  let '(connect_result, net) :=
    match connect_timeout rt with
    | Some net' => (None, net')
    | None =>
        let '(r, net') :=
          connect_tcp_with_cc system t1 t2 destination (tcp_congestion net.1) net in (Some r, net')
    end in
  match connect_result with
  | Some (Ok fd) =>
      let s := try_synack stream_id None s in
      let '(result, (stream, client_stream)) :=
        copy_and_shutdown (copy_fuel rt) (copy_polls rt)
          (copy_bidirectional mem_a mem_b stream (tcp_stream fd) false false) in
      (result, Forwarded stream client_stream, (s, net))
  | Some (Err e) =>
      (Err e, Unserved stream, (try_synack stream_id (Some (connect_failed e)) s, net))
  | None =>
      let error_msg := connect_timed_out destination in
      (Err (IoError Other error_msg), Unserved stream, (try_synack stream_id (Some error_msg) s, net))
  | Some (Panic w) => (Panic w, Unserved stream, (s, net))
  | Some OutOfFuel => (OutOfFuel, Unserved stream, (s, net))
  end.

Definition udp_connect_failed (e : io_error) : bytes := str "UDP connect failed: " ++ err_msg e.

Definition handle_uot_v2_connect (stream_id : Z) (stream : A) (destination : NetLocation) : Handler :=
  fun '(s, net) =>
  match connect_udp system t1 t2 destination net with
  | (Ok fd, net) =>
      let s := try_synack stream_id None s in
      let '(r, (server_stream, client_stream)) :=
        run_udp_copy mem_a mem_b (relay_start rt) (copy_fuel rt) (relay_waits rt) (relay_ticks rt) false false
          (vless_new mem_a stream) (udp_socket fd) in
      (r, Relayed server_stream client_stream, (s, net))
  | (Err e, net) =>
      (Err e, Unserved stream, (try_synack stream_id (Some (udp_connect_failed e)) s, net))
  | (Panic w, net) => (Panic w, Unserved stream, (s, net))
  | (OutOfFuel, net) => (OutOfFuel, Unserved stream, (s, net))
  end.

Definition handle_uot_multi_destination (stream_id : Z) (stream : A) : Handler := fun '(s, (rv, k)) =>
  let server_stream := new_uot mem_a stream in
  let s := try_synack stream_id None s in
  let '(r, st) := run_udp_routing system (relay_waits rt) (relay_start rt) (routing_ticks rt) server_stream rv k in
  (r, Routed st, (s, (UdpRouting.resolver st, UdpRouting.sys st))).

Definition udp_not_enabled : io_error := io_err Unsupported "UDP not enabled for AnyTLS".

(** [stream.read_u8().await]. *)
Definition read_byte : M A Z := b ← read_exact 1; mret (be_decode b).

Definition handle_uot_v2 (stream_id : Z) (stream : A) : Handler := fun '(s, net) =>
  if negb (udp_enabled s) then (Err udp_not_enabled, Unserved stream, (s, net))
  else
    match (is_connect ← read_byte; destination ← read_location_direct; mret (is_connect, destination)) stream with
    | (Ok (is_connect, destination), stream) =>
        if is_connect =? 1 then handle_uot_v2_connect stream_id stream destination (s, net)
        else handle_uot_multi_destination stream_id stream (s, net)
    | (Err e, stream) => (Err e, Unserved stream, (s, net))
    | (Panic w, stream) => (Panic w, Unserved stream, (s, net))
    | (OutOfFuel, stream) => (OutOfFuel, Unserved stream, (s, net))
    end.

Definition handle_uot_v1 (stream_id : Z) (stream : A) : Handler := fun '(s, net) =>
  if negb (udp_enabled s) then (Err udp_not_enabled, Unserved stream, (s, net))
  else handle_uot_multi_destination stream_id stream (s, net).

Definition handle_new_stream (stream_id : Z) (stream : A) : Handler := fun '(s, net) =>
  match read_location_direct stream with
  | (Ok destination, stream) =>
      match nl_address destination with
      | Addr_Hostname host =>
          if decide (host = UOT_V2_MAGIC_ADDRESS) then handle_uot_v2 stream_id stream (s, net)
          else if decide (host = UOT_V1_MAGIC_ADDRESS) then handle_uot_v1 stream_id stream (s, net)
          else handle_tcp_forward stream_id stream destination (s, net)
      | _ => handle_tcp_forward stream_id stream destination (s, net)
      end
  | (Err e, stream) => (Err e, Unserved stream, (s, net))
  | (Panic w, stream) => (Panic w, Unserved stream, (s, net))
  | (OutOfFuel, stream) => (OutOfFuel, Unserved stream, (s, net))
  end.
End Forward.

(** ** Telling the client *)

Section Synack.
Context {W E : Type} `{AsyncWriteLaws W} `{SessionEnvLaws E} (rr : Z → nat → Z → Z → Z).
Implicit Types s : Session W E.

Definition synack_frame (stream_id : Z) (error : option bytes) : Frame :=
  match error with
  | Some err => frame_with_data SynAck stream_id err
  | None => frame_control SynAck stream_id
  end.

(** A client of version 2 gets the frame, with padding after it at most, unless writing
    it fails; one of version 1 gets nothing. *)
Definition told (stream_id : Z) (error : option bytes) s s' : Prop :=
  calm s s' ∧ (peer_version s < 2 → s' = s) ∧
  (2 ≤ peer_version s → is_ok (send_synack rr stream_id error s).1 = true →
   ∃ ns, output s' = output s ++ encode_frame (synack_frame stream_id error) ++ encode_frames (waste <$> ns)).

Lemma try_synack_told stream_id error s :
  sizes_ok rr (padding s) → told stream_id error s (try_synack rr stream_id error s).
Proof.
  intros Hs. unfold told, try_synack, send_synack. fold (synack_frame stream_id error).
  destruct (peer_version s <? 2) eqn:Hv; zbool.
  { split_and!; [apply calm_refl|done|lia]. }
  destruct (write_control_frame rr _ s) as [r s'] eqn:Ew.
  destruct (write_control_frame_spec rr _ _ _ _ Hs Ew) as (_ & _ & Hc & _ & Hok).
  split_and!; [done|lia|]. intros _ Hr. cbn [fst snd] in *. destruct r as [[]|e|w|]; try done.
  destruct (Hok eq_refl) as (_ & ns & _ & Ho). by exists ns.
Qed.
End Synack.

(** Reading the destination leaves the write side alone. *)
Lemma read_exact_keeps {T} `{AsyncRead T} (P : T → Prop) n s :
  (∀ n s, P s → P (poll_read n s).2) → P s → P (read_exact n s).2.
Proof.
  intros HP. unfold read_exact. assert (∀ fuel n got s, P s → P (read_exact_fuel fuel n got s).2) as Hf; [|apply Hf].
  clear n s. induction fuel as [|fuel IH]; intros n got s Hs; cbn [read_exact_fuel]; [by case_match|].
  destruct (n =? 0)%nat; [done|]. rewrite M_bind_eq.
  pose proof (await_frame P (poll_read n) (waits s) s (HP n) Hs) as Hr. unfold read.
  destruct (await _ _ s) as [[bs|e|w|] s1]; try done. cbn [snd] in Hr. by case_decide; [|apply IH].
Qed.

Lemma read_location_keeps {T} `{AsyncRead T} (P : T → Prop) s :
  (∀ n s, P s → P (poll_read n s).2) → P s → P (read_location_direct s).2.
Proof.
  intros HP Hs. unfold read_location_direct.
  assert (∀ X n (k : bytes → M T X) s, (∀ bs s, P s → P (k bs s).2) → P s → P ((read_exact n ≫= k) s).2) as Hb.
  { intros X n k s0 Hk Hs0. rewrite M_bind_eq. pose proof (read_exact_keeps P n s0 HP Hs0) as Hr.
    destruct (read_exact n s0) as [[bs|e|w|] s1]; try done. by apply Hk. }
  apply Hb; [|done]. intros bs s1 Hs1. cbv zeta. repeat case_match; try done.
  - by apply Hb.
  - by apply Hb.
  - apply Hb; [|done]. intros bs2 s2 Hs2. by apply Hb.
Qed.

Section ForwardLemmas.
Context {A B D W E C K : Type} `{AsyncReadLaws A} `{AsyncWriteLaws A} `{!AsyncPing A} `{!AsyncStreamLaws A}
  `{AsyncReadLaws B} `{AsyncWriteLaws B} `{!AsyncPing B} `{!AsyncStreamLaws B} `{Datagrams D}
  `{AsyncWriteLaws W} `{SessionEnvLaws E} `{LruLaws bytes CacheEntry C} `{SocketSys K}.
Context (rr : Z → nat → Z → Z → Z) (tcp_stream : nat → B) (udp_socket : nat → UdpSocket D)
  (system : bytes → Z → res (list SocketAddr)) (t1 t2 : Z) (mem_a mem_b : nat → byte)
  (rt : runtime (C := C) (K := K)).
Implicit Types s : Session W E.

Abbreviation tcp_forward := (handle_tcp_forward rr tcp_stream (D := D) system t1 t2 mem_a mem_b rt).
Abbreviation new_stream := (handle_new_stream rr tcp_stream udp_socket system t1 t2 mem_a mem_b rt).
Abbreviation dial := (fun destination (net : Resolver * K) =>
  connect_tcp_with_cc system t1 t2 destination (tcp_congestion net.1) net).

(** A destination that is not one of the magic names. *)
Definition plain (l : NetLocation) : Prop :=
  nl_address l ≠ Addr_Hostname UOT_V2_MAGIC_ADDRESS ∧ nl_address l ≠ Addr_Hostname UOT_V1_MAGIC_ADDRESS.

(** A stream to a plain destination is forwarded, unless reading the destination fails. *)
Lemma new_stream_plain stream_id (stream : A) dest data s net :
  location_wf dest → plain dest → incoming stream = encode_location dest ++ data →
  ∃ stream', written stream' = written stream ∧
    ((incoming stream' = data ∧ new_stream stream_id stream (s, net) = tcp_forward stream_id stream' dest (s, net)) ∨
     (∃ e, read_error (T := A) e ∧ new_stream stream_id stream (s, net) = (Err e, Unserved stream', (s, net)))).
Proof.
  intros Hw [Hp2 Hp1] Hi. exists (read_location_direct stream).2. split.
  { apply (read_location_keeps (fun x => written x = written stream)); [|done].
    intros n x <-. apply read_keeps. }
  pose proof (read_location_spec stream) as Hs. unfold location_post in Hs.
  rewrite Hi, parse_location_encode in Hs by done. unfold handle_new_stream.
  destruct (read_location_direct stream) as [r stream']. cbn [fst snd] in *.
  destruct Hs as [(e & -> & He)|[-> Hrest]]; [right; by exists e|left]. split; [done|].
  destruct (nl_address dest) as [i|i|h] eqn:Ha; [done..|].
  rewrite decide_False by congruence. by rewrite decide_False by congruence.
Qed.

(** Both sides of a connection that was made. *)
Lemma tcp_forward_spec stream_id (stream : A) dest s net fd net' r e s' net2 :
  connect_timeout rt = None → dial dest net = (Ok fd, net') → sizes_ok rr (padding s) →
  (length (written (tcp_stream fd) ++ incoming stream) ≤ copy_fuel rt)%nat →
  (length (written stream ++ incoming (tcp_stream fd)) ≤ copy_fuel rt)%nat →
  tcp_forward stream_id stream dest (s, net) = (r, e, (s', net2)) →
  panics r = false ∧ told rr stream_id None s s' ∧ net2 = net' ∧
  ∃ stream' dest', e = Forwarded stream' dest' ∧
    written dest' `prefix_of` written (tcp_stream fd) ++ incoming stream ∧
    written stream' `prefix_of` written stream ++ incoming (tcp_stream fd) ∧
    (r = Ok tt → written dest' = written (tcp_stream fd) ++ incoming stream ∧
                 written stream' = written stream ++ incoming (tcp_stream fd)).
Proof.
  intros Ht Hd Hs Hf1 Hf2 Hr. unfold handle_tcp_forward in Hr. rewrite Ht, Hd in Hr.
  destruct (copy_and_shutdown _ _ _) as [r1 [a' b']] eqn:Ec. injection Hr as <- <- <- <-.
  destruct (copy_and_shutdown_spec _ _ _ _ _ _ _ _ _ _ _ _ _ Ec) as (Hp & Hb & Ha & Hok);
    [unfold DEFAULT_BUF_SIZE; lia..|done|done|].
  split_and!; [done|by apply try_synack_told|done|]. exists a', b'. by split_and!.
Qed.

(** The magic names. *)
Lemma magic_location_wf host port :
  host ∈ [UOT_V1_MAGIC_ADDRESS; UOT_V2_MAGIC_ADDRESS] → 0 ≤ port < 65536 → location_wf (NetLoc (Addr_Hostname host) port).
Proof.
  intros Hh Hp. rewrite !elem_of_cons, elem_of_nil in Hh.
  destruct Hh as [->|[->|[]]]; unfold location_wf; cbn [nl_address nl_port address_wf]; (split_and!; try done; try lia;
    [intros Hin; apply (bool_decide_eq_true_2 _) in Hin; vm_compute in Hin; done|apply Nat.leb_le; by vm_compute]).
Qed.

Abbreviation uot_v2_connect := (handle_uot_v2_connect (B := B) rr udp_socket system t1 t2 mem_a mem_b rt).
Abbreviation uot_multi := (handle_uot_multi_destination (B := B) (D := D) rr system mem_a rt).

(** The header of version 2: the magic name, a byte, 1 to connect, and a destination. *)
Definition uot_v2_header (port : Z) (is_connect : byte) (dest : NetLocation) : bytes :=
  encode_location (NetLoc (Addr_Hostname UOT_V2_MAGIC_ADDRESS) port) ++ [is_connect] ++ encode_location dest.
Definition uot_header (port : Z) (dest : NetLocation) : bytes := uot_v2_header port x01 dest.
(** That of version 1 is the magic name. *)
Definition uot_v1_header (port : Z) : bytes := encode_location (NetLoc (Addr_Hostname UOT_V1_MAGIC_ADDRESS) port).

(** A handler that gets the stream after a header, unless reading the header fails. *)
Definition hands_over stream_id (stream : A) (data : bytes) (s : Session W E) (net : Resolver (C := C) * K)
    (handler : A → res unit * stream_end A B D C K * (Session W E * (Resolver (C := C) * K))) : Prop :=
  ∃ stream', written stream' = written stream ∧
    ((incoming stream' = data ∧ new_stream stream_id stream (s, net) = handler stream') ∨
     (∃ e, read_error (T := A) e ∧ new_stream stream_id stream (s, net) = (Err e, Unserved stream', (s, net)))).

Lemma new_stream_uot_v2 stream_id (stream : A) port is_connect dest data s net :
  0 ≤ port < 65536 → location_wf dest → udp_enabled s = true →
  incoming stream = uot_v2_header port is_connect dest ++ data →
  hands_over stream_id stream data s net (fun stream' =>
    if b2z is_connect =? 1 then uot_v2_connect stream_id stream' dest (s, net)
    else uot_multi stream_id stream' (s, net)).
Proof.
  intros Hport Hw Hu Hi. unfold uot_v2_header in Hi. rewrite <-!app_assoc in Hi.
  assert (∀ m (x : A), written x = written stream → written (poll_read m x).2 = written stream) as Hkeep
    by (intros m x <-; apply read_keeps).
  pose proof (read_location_keeps (fun x => written x = written stream) stream Hkeep eq_refl) as Hk1.
  pose proof (read_location_spec stream) as Hs1. unfold location_post in Hs1.
  rewrite Hi, parse_location_encode in Hs1 by (apply magic_location_wf; [set_solver|done]).
  unfold hands_over, handle_new_stream. destruct (read_location_direct stream) as [r1 st1]. cbn [fst snd] in *.
  destruct Hs1 as [(e & -> & He)|[-> Hi1]]; [exists st1; split; [done|]; right; by exists e|].
  cbn [nl_address]. rewrite decide_True by done. unfold handle_uot_v2. rewrite Hu. cbn [negb].
  rewrite M_bind_eq. unfold read_byte. rewrite M_bind_eq.
  pose proof (read_exact_keeps (fun x => written x = written stream) 1 st1 Hkeep Hk1) as Hk2.
  pose proof (read_exact_cases 1 st1) as Hs2. rewrite Hi1 in Hs2. rewrite (take_bytes_app [is_connect]) in Hs2 by done.
  destruct (read_exact 1 st1) as [[bs|e|w|] st2]; try done; cbn [snd] in Hk2.
  2: { destruct Hs2 as [He|[_ ?]]; [|done]. exists st2. split; [done|]. right. by exists e. }
  injection Hs2 as <- Hi2. cbn [mret M_ret]. rewrite M_bind_eq.
  pose proof (read_location_keeps (fun x => written x = written stream) st2 Hkeep Hk2) as Hk3.
  pose proof (read_location_spec st2) as Hs3. unfold location_post in Hs3.
  rewrite <-Hi2, parse_location_encode in Hs3 by done.
  destruct (read_location_direct st2) as [r3 st3]. cbn [fst snd] in *. exists st3. split; [done|].
  destruct Hs3 as [(e & -> & He)|[-> Hi3]]; [right; by exists e|left]. split; [done|]. reflexivity.
Qed.

Lemma new_stream_uot_v1 stream_id (stream : A) port data s net :
  0 ≤ port < 65536 → udp_enabled s = true → incoming stream = uot_v1_header port ++ data →
  hands_over stream_id stream data s net (fun stream' => uot_multi stream_id stream' (s, net)).
Proof.
  intros Hport Hu Hi. unfold uot_v1_header in Hi. exists (read_location_direct stream).2. split.
  { apply (read_location_keeps (fun x => written x = written stream)); [|done]. intros n x <-. apply read_keeps. }
  pose proof (read_location_spec stream) as Hs. unfold location_post in Hs.
  rewrite Hi, parse_location_encode in Hs by (apply magic_location_wf; [set_solver|done]).
  unfold handle_new_stream. destruct (read_location_direct stream) as [r1 st1]. cbn [fst snd] in *.
  destruct Hs as [(e & -> & He)|[-> Hi1]]; [right; by exists e|left]. split; [done|].
  cbn [nl_address]. rewrite decide_False by done. rewrite decide_True by done.
  unfold handle_uot_v1. by rewrite Hu.
Qed.
End ForwardLemmas.

(** ** Properties *)

Section Claims.
Context {A B D W E C K : Type} `{AsyncReadLaws A} `{AsyncWriteLaws A} `{!AsyncPing A} `{!AsyncStreamLaws A}
  `{AsyncReadLaws B} `{AsyncWriteLaws B} `{!AsyncPing B} `{!AsyncStreamLaws B} `{DatagramLaws D}
  `{AsyncWriteLaws W} `{SessionEnvLaws E} `{LruLaws bytes CacheEntry C} `{SocketSys K}.
Context (rr : Z → nat → Z → Z → Z) (tcp_stream : nat → B) (udp_socket : nat → UdpSocket D)
  (system : bytes → Z → res (list SocketAddr)) (t1 t2 : Z) (mem_a mem_b : nat → byte)
  (rt : runtime (C := C) (K := K)) (stream_id : Z) (stream : A) (dest : NetLocation) (data : bytes)
  (s s' : Session W E) (net net' : Resolver (C := C) * K) (r : res unit) (e : stream_end A B D C K).

(** A stream to a plain destination that can be reached is connected to it: the
    destination is sent what follows the name, the client what it sends. *)
Lemma new_stream_forwarded fd net1 :
  location_wf dest → plain dest → incoming stream = encode_location dest ++ data →
  connect_timeout rt = None →
  connect_tcp_with_cc system t1 t2 dest (tcp_congestion net.1) net = (Ok fd, net1) →
  sizes_ok rr (padding s) →
  (length (written (tcp_stream fd) ++ data) ≤ copy_fuel rt)%nat →
  (length (written stream ++ incoming (tcp_stream fd)) ≤ copy_fuel rt)%nat →
  handle_new_stream rr tcp_stream udp_socket system t1 t2 mem_a mem_b rt stream_id stream (s, net) =
    (r, e, (s', net')) →
  panics r = false ∧
  ((∃ stream' dest', e = Forwarded stream' dest' ∧ told rr stream_id None s s' ∧
      written dest' `prefix_of` written (tcp_stream fd) ++ data ∧
      written stream' `prefix_of` written stream ++ incoming (tcp_stream fd) ∧
      (r = Ok tt → written dest' = written (tcp_stream fd) ++ data ∧
                   written stream' = written stream ++ incoming (tcp_stream fd))) ∨
   (∃ err, r = Err err ∧ read_error (T := A) err ∧ s' = s)).
Proof.
  intros Hw Hpl Hi Ht Hd Hs Hf1 Hf2 Hr.
  destruct (new_stream_plain rr tcp_stream udp_socket system t1 t2 mem_a mem_b rt stream_id stream dest data s net
    Hw Hpl Hi) as (st & Hwr & [[Hst Heq]|(err & He & Heq)]); rewrite Heq in Hr.
  - rewrite <-Hst, <-Hwr in *.
    destruct (tcp_forward_spec rr tcp_stream system t1 t2 mem_a mem_b rt _ _ _ _ _ _ _ _ _ _ _ Ht Hd Hs Hf1 Hf2 Hr)
      as (Hp & Htold & _ & a' & b' & -> & Hb & Ha & Hok). split; [done|]. left. exists a', b'. by split_and!.
  - injection Hr as <- _ <- _. split; [done|]. right. by exists err.
Qed.



(** A request to relay packets to many destinations, in either version. *)
Inductive asks_for_packets : bytes → Prop :=
| asks_v1 port : 0 ≤ port < 65536 → asks_for_packets (uot_v1_header port)
| asks_v2 port is_connect first : 0 ≤ port < 65536 → b2z is_connect ≠ 1 → location_wf first →
    asks_for_packets (uot_v2_header port is_connect first).

End Claims.

(** ** Runs *)

Definition demo_rt : runtime (C := MapLru bytes CacheEntry) (K := System) :=
  MkRuntime None 200 (replicate 5 (false, true, true)) 3 0
    [UdpCopy.MkTick false true true 0; UdpCopy.MkTick false true true (10 ^ 9);
     UdpCopy.MkTick false true true (400 * 10 ^ 9)] [].
Definition demo_bytes (bs : bytes) : QuicStream Sink Script :=
  MkQuic (MkSink [] []) (MkScript (match bs with b :: bs => [EData b bs] | [] => [] end)).
Definition demo_dest : NetLocation := NetLoc (Addr_Ipv4 (Ipv4 167772161)) 80.
Definition demo_tcp_side (fd : nat) : QuicStream Sink Script := demo_bytes [x05; x06].
Definition demo_udp_side (fd : nat) : UdpSocket Inbox := MkUdp (MkInbox [Some [x07]] []).
Definition demo_peer2 : Session Sink LogEnv := set_peer_version 2 demo_session.
Definition demo_open : System := MkSystem [] (fun _ => None).

Definition demo_run (rt : runtime) (stream : QuicStream Sink Script) (k : System) :=
  handle_new_stream low demo_tcp_side demo_udp_side no_names 0 0 (fun _ => x00) (fun _ => x00) rt 1 stream
    (demo_peer2, (demo_rv, k)).
Definition demo_stream : QuicStream Sink Script := demo_bytes (encode_location demo_dest ++ [x01; x02; x03]).
Definition demo_closed : System := MkSystem [] (fun _ => Some (io_err Other "refused")).
Abbreviation demo_refused := (demo_run demo_rt demo_stream demo_closed).
Definition demo_uot_stream : QuicStream Sink Script :=
  demo_bytes (uot_header 0 demo_dest ++ [x00; x02; x0a; x0b; x00; x00]).
Abbreviation demo_uot := (demo_run demo_rt demo_uot_stream demo_open).

Definition ends {A B D C K} (e : stream_end A B D C K) : bool :=
  match e with Forwarded _ _ | Relayed _ _ => true | _ => false end.

Lemma demo_run_eta rt stream k :
  handle_new_stream low demo_tcp_side demo_udp_side no_names 0 0 (fun _ => x00) (fun _ => x00) rt 1 stream
    (demo_peer2, (demo_rv, k)) =
  ((demo_run rt stream k).1.1, (demo_run rt stream k).1.2, ((demo_run rt stream k).2.1, (demo_run rt stream k).2.2)).
Proof. fold (demo_run rt stream k). by destruct (demo_run rt stream k) as [[] []]. Qed.

Lemma demo_dest_wf : location_wf demo_dest.
Proof. unfold location_wf. cbn. split_and!; try done; lia. Qed.
Lemma demo_dest_plain : plain demo_dest.
Proof. done. Qed.
Lemma demo_uot_ok : demo_uot.1.1 = Ok tt ∧ ends demo_uot.1.2 = true.
Proof. vm_compute. done. Qed.
Lemma demo_refused_msg : demo_refused.1.1 = Err (io_err Other "refused").
Proof. vm_compute. done. Qed.
Lemma demo_refused_told : demo_refused.2.1 ≠ demo_peer2.
Proof. intros Heq%(f_equal (fun s => length (output s))). vm_compute in Heq. discriminate Heq. Qed.
Lemma demo_refused_not_timeout : io_err Other "refused" ≠ IoError Other (connect_timed_out demo_dest).
Proof. vm_compute. discriminate. Qed.



(** Two packets by version 1, one response, then the client closes. *)
Definition demo_packets : list (NetLocation * bytes) :=
  [(socket_location demo_dns, [x0a]); (socket_location demo_dns, [x0b])].
Definition demo_packet_bytes : bytes := encode_packet demo_dns [x0a] ++ encode_packet demo_dns [x0b].
Definition demo_packet_stream : QuicStream Sink Script := demo_bytes (uot_v1_header 0 ++ demo_packet_bytes).
Definition demo_routes : runtime (C := MapLru bytes CacheEntry) (K := System) :=
  MkRuntime None 200 [] 3 0 []
    [demo_tick []; demo_tick [(demo_dns, [x63])]; demo_tick []; demo_tick []; demo_tick []].
Abbreviation demo_routed := (demo_run demo_routes demo_packet_stream demo_open).

Definition routed_packets {A B D C K} (e : stream_end A B D C K) : option (list (NetLocation * bytes)) :=
  match e with Routed st => Some (sent_packets (effects st)) | _ => None end.

Lemma demo_routed_ok : demo_routed.1.1 = Ok tt ∧ routed_packets demo_routed.1.2 = Some demo_packets.
Proof. vm_compute. done. Qed.

