(* ===== verification/AnyTlsServer.v ===== *)
(** * The AnyTLS server (src/anytls/server.rs)

    Authentication of a connection, the fallback for connections that fail it,
    and the session for those that pass.  SHA-256 is a parameter; so are TLS, the
    split of the stream into its halves and the stream behind a system's handle. *)

From Stdlib Require Import String.
From S2P Require Import Prelude RustStd Address AnyTlsTypes Padding AsyncStream StreamReader QuicStream.
From S2P Require Import LruCache Resolver Dial CopyBidirectional AnyTlsStream AnyTlsSession AnyTlsRecv.

Record AnyTlsServerHandler : Type := MkHandler {
  users : gmap bytes bytes;
  hash_prefixes : gset bytes;
  sh_padding : PaddingFactory;
  sh_udp_enabled : bool;
  fallback : option NetLocation }.

Section Handler.
Context (sha256 : bytes → bytes).

(** One round of the loop of [new]. *)
Definition add_user (acc : gmap bytes bytes * gset bytes) (user : bytes * bytes)
    : gmap bytes bytes * gset bytes :=
  let '(name, password) := user in
  let password_hash := sha256 password in
  let prefix := take 8 password_hash in
  (<[password_hash := name]> acc.1, {[prefix]} ∪ acc.2).

Definition handler_new (us : list (bytes * bytes)) (padding : PaddingFactory) (udp_enabled : bool)
    (fb : option NetLocation) : AnyTlsServerHandler :=
  let '(user_map, prefixes) := foldl add_user (∅, ∅) us in
  MkHandler user_map prefixes padding udp_enabled fb.
End Handler.

Inductive auth_outcome : Set :=
| Authenticated (user_name : bytes)
| FallBack (dest : NetLocation).

Definition denied (m : string) : io_error := io_err PermissionDenied m.

Section Authenticate.
Context {T : Type} `{AsyncRead T} (h : AnyTlsServerHandler).

(** What happens to a client that is not a user's. *)
Definition reject (e : io_error) : M (StreamReader * T) auth_outcome :=
  match fallback h with Some dest => mret (FallBack dest) | None => throw e end.

(** [handle_connection] up to the session or the fallback. *)
Definition authenticate : M (StreamReader * T) auth_outcome :=
  prefix_data ← peek_slice 8;
  if decide (prefix_data ∈ hash_prefixes h) then
    auth_data ← peek_slice 32;
    match users h !! auth_data with
    | Some name =>
        consume 32 ;;
        padding_len ← read_u16_be;
        if 0 <? padding_len
        then read_slice (Z.to_nat padding_len) ;; mret (Authenticated name)
        else mret (Authenticated name)
    | None => reject (denied "authentication failed")
    end
  else reject (denied "authentication failed (prefix mismatch)").
End Authenticate.

Section Fallback.
Context {T B C K : Type} `{AsyncRead T} `{AsyncWrite T} `{AsyncPing T}
  `{AsyncRead B} `{AsyncWrite B} `{AsyncPing B} `{!Lru bytes CacheEntry C} `{SocketSys K}.
(** The system resolver, with the clock it sees, and the stream behind a handle;
    [mem_a] and [mem_b] are the memory of the copy's buffers, [cs] the schedule of
    its polls. *)
Context (system : bytes → Z → res (list SocketAddr)) (t1 t2 : Z) (tcp_stream : nat → B)
  (mem_a mem_b : nat → byte) (fuel : nat) (cs : list (bool * bool * bool)).
Abbreviation Net := (Resolver (C := C) * K)%type.

(** [fallback_to_dest], up to the connection. *)
Definition fallback_connect (fallback : NetLocation) : M Net nat := fun net =>
  let cc := tcp_congestion net.1 in
  (dest_addr ← net_resolve system t1 t2 fallback;
   dest_stream ← net_sys (tcp_connect dest_addr);
   (if decide (cc = []) then mret tt else net_sys (ignore (set_tcp_congestion dest_stream cc))) ;;
   net_sys (ignore (set_nodelay true dest_stream)) ;;
   net_sys (ignore (set_tcp_keepalive dest_stream (secs 60) (secs 15))) ;;
   mret dest_stream) net.

Definition fallback_to_dest (client : T) (reader : StreamReader) (dest : NetLocation) (net : Net)
    : res unit * (T * option B) * Net :=
  let unconsumed_data := unparsed_data reader in
  match fallback_connect dest net with
  | (Ok fd, net) =>
      let '(w, dest_stream) :=
        (if decide (unconsumed_data = []) then mret tt
         else util_write_all (length unconsumed_data) unconsumed_data ;; flush) (tcp_stream fd) in
      match w with
      | Ok _ =>
          let '(r, (client, dest_stream)) :=
            copy_and_shutdown fuel cs
              (copy_bidirectional mem_a mem_b client dest_stream false false) in
          (r, (client, Some dest_stream), net)
      | Err e => (Err e, (client, Some dest_stream), net)
      | Panic x => (Panic x, (client, Some dest_stream), net)
      | OutOfFuel => (OutOfFuel, (client, Some dest_stream), net)
      end
  | (Err e, net) => (Err e, (client, None), net)
  | (Panic x, net) => (Panic x, (client, None), net)
  | (OutOfFuel, net) => (OutOfFuel, (client, None), net)
  end.
End Fallback.

(** [AnyTlsSession::run]: the outgoing loop and the streams' tasks are [others]. *)
Definition session_run {R W E : Type} `{AsyncRead R} `{AsyncWrite W} `{SessionEnv E}
    (rr : Z → nat → Z → Z → Z) (spare : bytes → nat) (others : nat → Session W E → Session W E)
    (fuel : nat) (initial_data : option bytes) (r : R) (s : Session W E)
    : res unit * (R * Session W E) :=
  let '(x, (r, s)) := recv_loop (handle_frame rr) is_closed spare others fuel initial_data r s in
  (x, (r, (close s).2)).

(** How a connection ends: relayed to the fallback, or after a session, or refused. *)
Inductive connection_end (T B R W E : Type) : Type :=
| Relayed (r : res unit) (client : T) (dest : option B)
| RanSession (r : res unit) (user_name : bytes) (reader : R) (session : Session W E)
| Refused (r : res unit) (client : T).
Arguments Relayed {T B R W E} _ _ _.
Arguments RanSession {T B R W E} _ _ _ _.
Arguments Refused {T B R W E} _ _.

Section Connection.
Context {T B C K R W E : Type} `{AsyncRead T} `{AsyncWrite T} `{AsyncPing T}
  `{AsyncRead B} `{AsyncWrite B} `{AsyncPing B} `{!Lru bytes CacheEntry C} `{SocketSys K}
  `{AsyncRead R} `{AsyncWrite W} `{SessionEnv E}.
(** [tokio::io::split], the runtime a session starts with, and the parameters of
    the parts. *)
Context (split_io : T → R * W) (env0 : E) (system : bytes → Z → res (list SocketAddr)) (t1 t2 : Z)
  (tcp_stream : nat → B) (mem mem_a mem_b : nat → byte) (rr : Z → nat → Z → Z → Z) (spare : bytes → nat)
  (others : nat → Session W E → Session W E) (fuel : nat) (cs : list (bool * bool * bool)).

(** [handle_connection] after authentication. *)
Definition after_auth (h : AnyTlsServerHandler) (auth : res auth_outcome * (StreamReader * T))
    (net : Resolver (C := C) * K) : connection_end T B R W E * (Resolver (C := C) * K) :=
  match auth with
  | (Ok (FallBack dest), (reader, server_stream)) =>
      let '(r, (client, d), net) :=
        fallback_to_dest system t1 t2 tcp_stream mem_a mem_b fuel cs server_stream reader dest net in
      (Relayed r client d, net)
  | (Ok (Authenticated user_name), (reader, server_stream)) =>
      let initial_data := unparsed_data_owned reader in
      let '(r, w) := split_io server_stream in
      let '(x, (r, s)) :=
        session_run rr spare others fuel initial_data r
          (session_new w (sh_padding h) (sh_udp_enabled h) env0) in
      (RanSession x user_name r s, net)
  | (Err e, (_, server_stream)) => (Refused (Err e) server_stream, net)
  | (Panic w, (_, server_stream)) => (Refused (Panic w) server_stream, net)
  | (OutOfFuel, (_, server_stream)) => (Refused OutOfFuel server_stream, net)
  end.

Definition handle_connection (h : AnyTlsServerHandler) (server_stream : T)
    (net : Resolver (C := C) * K) : connection_end T B R W E * (Resolver (C := C) * K) :=
  after_auth h (authenticate h (new_reader mem, server_stream)) net.
End Connection.

(** ** The user table *)

Section Users.
Context (sha256 : bytes → bytes).

Lemma add_users_spec us m ps m' ps' :
  foldl (add_user sha256) (m, ps) us = (m', ps') →
  (∀ k n, m' !! k = Some n → m !! k = Some n ∨ ∃ pw, (n, pw) ∈ us ∧ sha256 pw = k) ∧
  (∀ k, is_Some (m !! k) ∨ (∃ n pw, (n, pw) ∈ us ∧ sha256 pw = k) → is_Some (m' !! k)) ∧
  (∀ p, p ∈ ps' ↔ p ∈ ps ∨ ∃ n pw, (n, pw) ∈ us ∧ p = take 8 (sha256 pw)).
Proof.
  revert m ps. induction us as [|[n pw] us IH]; intros m ps Hf; cbn [foldl] in Hf.
  - injection Hf as <- <-. split_and!; [by left| |].
    + intros k [?|(? & ? & []%not_elem_of_nil & _)]; done.
    + intros p. split; [by left|]. by intros [?|(? & ? & []%not_elem_of_nil & _)].
  - cbn [add_user fst snd] in Hf. destruct (IH _ _ Hf) as (H1 & H2 & H3). split_and!.
    + intros k n' [[[Hk Hn]|[_ Hk]]%lookup_insert_Some|(pw' & Hin & Hk)]%H1.
      * subst n'. right. exists pw. split; [left|done].
      * by left.
      * right. exists pw'. split; [by right|done].
    + intros k [[x Hk]|(n' & pw' & [Heq|Hin]%elem_of_cons & Hk)]; apply H2.
      * left. destruct (decide (sha256 pw = k)) as [<-|]; [by rewrite lookup_insert_eq|].
        by rewrite lookup_insert_ne; [eexists|].
      * injection Heq as -> ->. left. rewrite <-Hk. by rewrite lookup_insert_eq.
      * right. eauto.
    + intros p. rewrite H3, elem_of_union, elem_of_singleton. split.
      * intros [[->|?]|(n' & pw' & Hin & ->)]; [|by left|].
        { right. exists n, pw. split; [left|done]. }
        { right. exists n', pw'. split; [by right|done]. }
      * intros [?|(n' & pw' & [Heq|Hin]%elem_of_cons & ->)]; [by left; right| |].
        { injection Heq as -> ->. left. by left. }
        { right. eauto. }
Qed.

Lemma handler_new_spec us pf udp fb :
  let h := handler_new sha256 us pf udp fb in
  fallback h = fb ∧ sh_padding h = pf ∧
  (∀ k n, users h !! k = Some n → ∃ pw, (n, pw) ∈ us ∧ sha256 pw = k) ∧
  (∀ n pw, (n, pw) ∈ us → is_Some (users h !! sha256 pw)) ∧
  (∀ n pw, (n, pw) ∈ us → take 8 (sha256 pw) ∈ hash_prefixes h).
Proof.
  cbv zeta. unfold handler_new. destruct (foldl _ _ us) as [m ps] eqn:E.
  apply add_users_spec in E as (H1 & H2 & H3). cbn. split_and!; [done..| | |].
  - intros k n Hk. destruct (H1 k n Hk) as [Hk'|?]; [by rewrite lookup_empty in Hk'|done].
  - intros n pw Hin. apply H2. eauto.
  - intros n pw Hin. apply H3. eauto.
Qed.
End Users.

(** ** Authentication *)

Section AuthLemmas.
Context {T : Type} `{AsyncReadLaws T}.

(** Everything [authenticate] can do, read off its code: [all] is what the client
    sent. *)
Definition auth_post (h : AnyTlsServerHandler) (all : bytes) (r : res auth_outcome)
    (rs' : StreamReader * T) : Prop :=
  match r with
  | Ok (Authenticated name) =>
      ∃ pad, users h !! take 32 all = Some name ∧ (32 ≤ length all)%nat ∧
        take 8 all ∈ hash_prefixes h ∧ (length pad < Z.to_nat 65536)%nat ∧
        drop 32 all = be_encode 2 (Z.of_nat (length pad)) ++ pad ++ ahead rs'
  | Ok (FallBack d) => fallback h = Some d ∧ ahead rs' = all ∧
      (take 8 all ∉ hash_prefixes h ∨ users h !! take 32 all = None)
  | Err e =>
      stream_error (T := T) e ∨
      (err_kind e = PermissionDenied ∧ fallback h = None ∧
       (take 8 all ∉ hash_prefixes h ∨ users h !! take 32 all = None)) ∨
      (e = eof_error ∧ (length all < 34)%nat) ∨
      ((34 ≤ length all)%nat ∧
       let n := Z.to_nat (be_decode (take 2 (drop 32 all))) in
       (DEFAULT_BUFFER_SIZE < n)%nat ∨ (length all < 34 + n)%nat)
  | _ => False
  end.

Lemma reject_post h all e rs rs' r :
  reject h e rs = (r, rs') → err_kind e = PermissionDenied → ahead rs = all →
  (take 8 all ∉ hash_prefixes h ∨ users h !! take 32 all = None) → auth_post h all r rs'.
Proof.
  unfold reject. intros Hr He Ha Hno. destruct (fallback h) as [d|] eqn:Hf; injection Hr as <- <-.
  - by split_and!.
  - right. left. by split_and!.
Qed.

Lemma read_slice_too_long len (rs : StreamReader * T) :
  (length (sr_buf rs.1) < len)%nat → read_slice len rs = (Err (too_long len rs.1), rs).
Proof. intros Hl. unfold read_slice. run. by rewrite (proj2 (Nat.ltb_lt _ _)). Qed.

(** The padding after the password hash. *)
Lemma auth_padding_spec h name all rs r rs' :
  (padding_len ← read_u16_be;
   if 0 <? padding_len
   then read_slice (Z.to_nat padding_len) ;; mret (Authenticated name)
   else mret (Authenticated name)) rs = (r, rs') →
  sr_inv rs.1 → length (sr_buf rs.1) = DEFAULT_BUFFER_SIZE →
  users h !! take 32 all = Some name → (32 ≤ length all)%nat → take 8 all ∈ hash_prefixes h →
  ahead rs = drop 32 all → auth_post h all r rs'.
Proof.
  intros Hr Hi Hl Hu Hlen Hp Ha.
  assert (2 ≤ length (sr_buf rs.1))%nat as Hcap by (rewrite Hl; unfold DEFAULT_BUFFER_SIZE; lia).
  assert (length (ahead rs) = (length all - 32)%nat) as Hla by (rewrite Ha; apply length_drop).
  rewrite M_bind_eq in Hr. destruct (read_u16_be rs) as [r1 rs1] eqn:E1.
  destruct (read_u16_be_spec _ _ _ E1 Hi Hcap) as [[Hi1 Hl1] H1].
  destruct r1 as [z|e|w|]; try done.
  2: { injection Hr as <- <-. destruct H1 as [[-> H1]|H1]; [|by left]. right. right. left.
       split; [done|lia]. }
  destruct H1 as (b0 & b1 & Ha1 & Hz).
  assert (34 ≤ length all)%nat as Hall by (rewrite Ha1 in Hla; cbn in Hla; lia).
  assert (take 2 (drop 32 all) = [b0; b1]) as Htake by by rewrite <-Ha, Ha1.
  pose proof (be_decode_range [b0; b1] : 0 ≤ _ < 65536) as Hrange.
  assert (be_encode 2 z = [b0; b1]) as Hbe by (subst z; apply (be_encode_decode [b0; b1])).
  destruct (0 <? z) eqn:Hpos; zbool.
  - rewrite M_bind_eq in Hr.
    destruct (decide (length (sr_buf rs1.1) < Z.to_nat z)%nat) as [Hbig|Hbig].
    { rewrite read_slice_too_long in Hr by done. injection Hr as <- <-.
      right. right. right. rewrite Htake, <-Hz. split; [done|]. left. rewrite Hl1, Hl in Hbig. done. }
    destruct (read_slice (Z.to_nat z) rs1) as [r2 rs2] eqn:E2.
    destruct (read_slice_spec _ _ _ _ E2 Hi1 ltac:(lia) ltac:(lia)) as [[Hi2 Hl2] H2].
    destruct r2 as [pad|e|w|]; try done; injection Hr as <- <-.
    + destruct H2 as [Ha2 Hpad]. exists pad. split_and!; try done; [lia|].
      rewrite <-Ha, Ha1, Ha2, Hpad, Z2Nat.id, Hbe by lia. done.
    + destruct H2 as [(-> & _ & Hlt)|H2]; [|by left]. right. right. right. split; [done|].
      rewrite Htake, <-Hz. right. rewrite Ha1 in Hla. cbn in Hla. lia.
  - injection Hr as <- <-. exists []. split_and!; try done; [cbn; lia|].
    assert (z = 0) as Hz0 by lia. rewrite Hz0 in Hbe. cbn [length].
    change (Z.of_nat 0) with 0. rewrite Hbe, <-Ha, Ha1. done.
Qed.

Lemma new_reader_length mem : length (sr_buf (new_reader mem)) = DEFAULT_BUFFER_SIZE.
Proof. unfold new_reader, new_with_buffer_size. cbn [sr_buf]. apply length_allocate_vec. Qed.

Lemma authenticate_from h all rs0 r rs' :
  authenticate h rs0 = (r, rs') → sr_inv rs0.1 → length (sr_buf rs0.1) = DEFAULT_BUFFER_SIZE →
  ahead rs0 = all → auth_post h all r rs'.
Proof.
  intros Hr Hi0 Hl0 Ha0. unfold authenticate in Hr.
  assert (40 ≤ DEFAULT_BUFFER_SIZE)%nat as Hcap by (unfold DEFAULT_BUFFER_SIZE; lia).
  rewrite M_bind_eq in Hr. destruct (peek_slice 8 rs0) as [r1 rs1] eqn:E1.
  destruct (peek_slice_spec _ _ _ _ E1 Hi0 ltac:(lia) ltac:(lia)) as [[Hi1 Hl1] H1].
  destruct r1 as [pd|e|w|]; try done.
  2: { injection Hr as <- <-. destruct H1 as [(-> & _ & Hlt)|H1]; [|by left].
       right. right. left. split; [done|]. rewrite Ha0 in Hlt. lia. }
  destruct H1 as (Ha1 & -> & _). rewrite Ha0 in Ha1, Hr.
  case_decide as Hp; [|eapply reject_post; [done..|by left]].
  rewrite M_bind_eq in Hr. destruct (peek_slice 32 rs1) as [r2 rs2] eqn:E2.
  destruct (peek_slice_spec _ _ _ _ E2 Hi1 ltac:(lia) ltac:(lia)) as [[Hi2 Hl2] H2].
  destruct r2 as [ad|e|w|]; try done.
  2: { injection Hr as <- <-. destruct H2 as [(-> & _ & Hlt)|H2]; [|by left].
       right. right. left. split; [done|]. rewrite Ha1 in Hlt. lia. }
  destruct H2 as (Ha2 & Had & Hlad). rewrite Ha1 in Ha2, Had. subst ad.
  rewrite length_take in Hlad.
  destruct (users h !! take 32 all) as [name|] eqn:Hu; [|eapply reject_post; [done..|by right]].
  pose proof (peek_window _ _ _ _ E2 Hi1 ltac:(lia)) as Hw.
  destruct (consume_ok 32 rs2 Hi2 Hw) as (rs3 & Ec & [Hi3 Hl3] & Ha3).
  rewrite M_bind_eq, Ec in Hr. rewrite Ha2 in Ha3.
  eapply auth_padding_spec; [exact Hr|done|congruence|done|lia|done|done].
Qed.

Lemma authenticate_spec h mem s r rs' :
  authenticate h (new_reader mem, s) = (r, rs') → auth_post h (incoming s) r rs'.
Proof.
  intros Hr. eapply authenticate_from; [exact Hr|apply new_inv|apply new_reader_length|].
  unfold ahead, new_reader. cbn [fst snd]. by rewrite unparsed_new.
Qed.
End AuthLemmas.

(** What a hash of 32 bytes at the front of the input says. *)
Lemma take_app_hash (k n : nat) (hash rest : bytes) :
  length hash = k → (n ≤ k)%nat → take n (hash ++ rest) = take n hash.
Proof. intros. by rewrite take_app_le by lia. Qed.

(** C10: A connection is authenticated only as a configured user whose password's
    SHA-256 it opened with, followed by a two-byte length and that much padding,
    and the session then starts with exactly the bytes after them.  It is handed
    to the fallback only if it did not open with the hash of any user's password,
    and with every byte it sent still to be forwarded.  Authentication never
    panics and always returns. *)
Theorem authenticate_sound {T : Type} `{AsyncReadLaws T} (sha256 : bytes → bytes)
    (us : list (bytes * bytes)) (pf : PaddingFactory) (udp : bool) (fb : option NetLocation)
    (mem : nat → byte) (s s' : T) (r : res auth_outcome) (reader : StreamReader) :
  (∀ pw, length (sha256 pw) = 32%nat) →
  authenticate (handler_new sha256 us pf udp fb) (new_reader mem, s) = (r, (reader, s')) →
  match r with
  | Ok (Authenticated name) =>
      ∃ pw pad, (name, pw) ∈ us ∧
        incoming s = sha256 pw ++ be_encode 2 (Z.of_nat (length pad)) ++ pad ++
          default [] (unparsed_data_owned reader) ++ incoming s'
  | Ok (FallBack d) => fb = Some d ∧ unparsed_data reader ++ incoming s' = incoming s ∧
      ∀ name pw, (name, pw) ∈ us → ¬ sha256 pw `prefix_of` incoming s
  | Err _ => True
  | Panic _ | OutOfFuel => False
  end.
Proof.
  intros Hsha Hr. apply authenticate_spec in Hr.
  destruct (handler_new_spec sha256 us pf udp fb) as (Hfb & _ & Hu & Hin & Hpre).
  set (h := handler_new sha256 us pf udp fb) in *.
  destruct r as [[name|d]|e|w|]; try done.
  - destruct Hr as (pad & Hn & Hlen & _ & _ & Hd). apply Hu in Hn as (pw & Hpw & Hk).
    exists pw, pad. split; [done|]. rewrite Hk.
    rewrite <-(take_drop 32 (incoming s)) at 1. rewrite Hd. unfold ahead. cbn [fst snd].
    do 4 f_equal. unfold unparsed_data_owned. by case_decide.
  - destruct Hr as (Hf & Ha & Hno). rewrite Hfb in Hf. split_and!; [done|done|].
    intros name pw Hpw [rest Hrest]. rewrite Hrest in Hno.
    rewrite !(take_app_hash 32) in Hno by (done || lia).
    rewrite (take_ge (sha256 pw) 32) in Hno by (rewrite Hsha; lia).
    destruct Hno as [Hno|Hno]; [by eapply Hno, Hpre|]. apply Hin in Hpw as [x Hx]. congruence.
Qed.

(** The hello of a user is taken off the stream, and nothing else. *)
Lemma authenticate_hello {T : Type} `{AsyncReadLaws T} (sha256 : bytes → bytes)
    (us : list (bytes * bytes)) (pf : PaddingFactory) (udp : bool) (fb : option NetLocation)
    (mem : nat → byte) (s s' : T) (r : res auth_outcome) (reader : StreamReader)
    (name pw pad rest : bytes) :
  (∀ pw, length (sha256 pw) = 32%nat) → (name, pw) ∈ us →
  (length pad ≤ DEFAULT_BUFFER_SIZE)%nat →
  incoming s = sha256 pw ++ be_encode 2 (Z.of_nat (length pad)) ++ pad ++ rest →
  authenticate (handler_new sha256 us pf udp fb) (new_reader mem, s) = (r, (reader, s')) →
  (∃ name', r = Ok (Authenticated name') ∧ (∃ pw', (name', pw') ∈ us ∧ sha256 pw' = sha256 pw) ∧
     unparsed_data reader ++ incoming s' = rest) ∨
  (∃ e, r = Err e ∧ stream_error (T := T) e).
Proof.
  intros Hsha Hpw Hpad Hs Hr. apply authenticate_spec in Hr.
  destruct (handler_new_spec sha256 us pf udp fb) as (Hfb & _ & Hu & Hin & Hpre).
  set (h := handler_new sha256 us pf udp fb) in *. unfold DEFAULT_BUFFER_SIZE in Hpad.
  set (tail := be_encode 2 _ ++ pad ++ rest) in Hs.
  assert (take 8 (incoming s) = take 8 (sha256 pw)) as H8
    by (rewrite Hs; apply (take_app_hash 32); [done|lia]).
  assert (take 32 (incoming s) = sha256 pw) as H32
    by (rewrite Hs; by rewrite take_app_length').
  assert (drop 32 (incoming s) = tail) as Ht by (rewrite Hs; by rewrite drop_app_length').
  assert (length (incoming s) = (34 + length pad + length rest)%nat) as Hlen.
  { rewrite Hs. unfold tail. rewrite !length_app, length_be_encode, Hsha. lia. }
  assert (take 2 tail = be_encode 2 (Z.of_nat (length pad))) as H2
    by (unfold tail; by rewrite take_app_length').
  assert (be_decode (take 2 tail) = Z.of_nat (length pad)) as Hn
    by (rewrite H2; apply be_decode_encode_small; lia).
  assert (¬ (take 8 (incoming s) ∉ hash_prefixes h ∨ users h !! take 32 (incoming s) = None)) as Hyes.
  { rewrite H8, H32. intros [Hno|Hno]; [by eapply Hno, Hpre|]. apply Hin in Hpw as [x Hx]. congruence. }
  destruct r as [[name'|d]|e|w|]; try done.
  - left. exists name'. destruct Hr as (pad' & Hn' & _ & _ & Hpl & Hd). rewrite H32 in Hn'.
    apply Hu in Hn' as (pw' & Hpw' & Hk). split_and!; [done|by exists pw'|].
    rewrite Ht in Hd. unfold tail in Hd.
    apply app_inj_1 in Hd as [Hb Hd]; [|by rewrite !length_be_encode].
    assert (length pad' = length pad) as Hlp.
    { apply (f_equal be_decode) in Hb. rewrite !be_decode_encode_small in Hb by lia. lia. }
    by apply app_inj_1 in Hd as [_ Hd].
  - by destruct Hr as (_ & _ & ?).
  - destruct Hr as [He|[(_ & _ & ?)|[(_ & Hlt)|(_ & Hbad)]]]; [right; by exists e|done|lia|].
    cbv zeta in Hbad. rewrite Ht, Hn in Hbad. unfold DEFAULT_BUFFER_SIZE in Hbad. lia.
Qed.

(** ** The fallback *)

Section FallbackLemmas.
Context {T B : Type} `{AsyncReadLaws T} `{AsyncWriteLaws T} `{!AsyncPing T} `{!AsyncStreamLaws T}
  `{AsyncReadLaws B} `{AsyncWriteLaws B} `{!WriteProgress B} `{!AsyncPing B} `{!AsyncStreamLaws B}.

(** Authentication writes nothing to the client. *)
Lemma authenticate_quiet h (rs : StreamReader * T) :
  written (authenticate h rs).2.2 = written rs.2.
Proof.
  set (P := fun s : T => written s = written rs.2).
  assert (∀ n s, P s → P (poll_read n s).2) as HP.
  { intros n s Hs. unfold P. rewrite <-Hs. apply read_keeps. }
  change (P (authenticate h rs).2.2). unfold authenticate.
  apply bind_frame; [by apply peek_slice_frame|]. intros pd rs1 Hs1.
  assert (∀ e rs, P rs.2 → P (reject h e rs).2.2) as Hrej
    by (intros e rs2 Hs2; unfold reject; by destruct (fallback h)).
  case_decide; [|by apply Hrej]. apply bind_frame; [by apply peek_slice_frame|]. intros ad rs2 Hs2.
  destruct (users h !! ad); [|by apply Hrej]. apply bind_frame; [by apply consume_frame|].
  intros _ rs3 Hs3. apply bind_frame; [by apply read_u16_be_frame|]. intros n rs4 Hs4.
  destruct (0 <? n); [|done]. apply bind_frame; [by apply read_slice_frame|done].
Qed.

Lemma authenticate_written h rd (s : T) x rd' s' :
  authenticate h (rd, s) = (x, (rd', s')) → written s' = written s.
Proof. intros Hr. pose proof (authenticate_quiet h (rd, s)) as Hw. by rewrite Hr in Hw. Qed.

(** The bytes read during authentication, sent ahead of the copy. *)
Lemma forward_spec (bs : bytes) (dest : B) r dest' :
  (if decide (bs = []) then mret tt else util_write_all (length bs) bs ;; flush) dest = (r, dest') →
  r ≠ OutOfFuel ∧ panics r = false ∧ incoming dest' = incoming dest ∧
  written dest' `prefix_of` written dest ++ bs ∧
  (is_ok r = true → written dest' = written dest ++ bs).
Proof.
  case_decide as Hb.
  { intros [= <- <-]. subst bs. rewrite app_nil_r. by split_and!. }
  rewrite M_bind_eq. unfold util_write_all.
  pose proof (write_loop_frame (fun d : B => incoming d = incoming dest) id (length bs) bs 0 dest) as Hf.
  specialize (Hf ltac:(intros b d <-; apply write_keeps) eq_refl).
  destruct (write_loop id (length bs) bs 0 dest) as [r1 d1] eqn:E1. cbn [snd] in Hf.
  destruct (write_loop_spec _ _ _ _ _ _ _ E1 ltac:(lia) ltac:(lia)) as (Hnf & Hnp & [k Hk] & Hok).
  rewrite drop_0 in Hk, Hok.
  assert (written d1 `prefix_of` written dest ++ bs) as Hpre.
  { rewrite Hk. apply prefix_app. exists (drop k bs). by rewrite take_drop. }
  destruct r1 as [[]|e|w|]; try done; [|by intros [= <- <-]; split_and!].
  specialize (Hok eq_refl). intros Hfl.
  assert (incoming (flush d1).2 = incoming dest) as Hf2.
  { apply (await_frame (fun d : B => incoming d = incoming dest)); [|done].
    intros d Hd. rewrite <-Hd. apply flush_keeps. }
  rewrite Hfl in Hf2.
  apply flush_spec in Hfl as (? & ? & Hw). rewrite Hw. by split_and!.
Qed.

Lemma fallback_spec {C K} `{!Lru bytes CacheEntry C} `{SocketSys K} system t1 t2 (tcp_stream : nat → B)
    mem_a mem_b fuel cs (client : T) reader d fd r client' dest' (net net' : Resolver (C := C) * K) :
  fallback_to_dest system t1 t2 tcp_stream mem_a mem_b fuel cs client reader d net =
    (r, (client', Some dest'), net') →
  (fallback_connect system t1 t2 d net).1 = Ok fd → let dest := tcp_stream fd in
  (length (written dest ++ unparsed_data reader ++ incoming client) ≤ fuel)%nat →
  (length (written client ++ incoming dest) ≤ fuel)%nat →
  panics r = false ∧
  written dest' `prefix_of` written dest ++ unparsed_data reader ++ incoming client ∧
  written client' `prefix_of` written client ++ incoming dest ∧
  (r = Ok tt → written dest' = written dest ++ unparsed_data reader ++ incoming client ∧
     written client' = written client ++ incoming dest).
Proof.
  intros Hr Hdial dest Hf1 Hf2. unfold fallback_to_dest in Hr.
  destruct (fallback_connect system t1 t2 d net) as [x net1]. cbn [fst] in Hdial. subst x. cbv zeta in Hr. fold dest in Hr.
  set (bs := unparsed_data reader) in *.
  destruct ((if decide (bs = []) then mret tt else util_write_all (length bs) bs ;; flush) dest)
    as [w d1] eqn:Ew.
  destruct (forward_spec _ _ _ _ Ew) as (_ & Hnp & Hinc & Hpre & Hok).
  assert (written d1 `prefix_of` written dest ++ bs ++ incoming client) as Hpre'
    by (rewrite app_assoc; by apply prefix_app_r).
  assert (written client `prefix_of` written client ++ incoming dest) as Hcl by by apply prefix_app_r.
  destruct w as [[]|e|x|]; try done; [|by injection Hr as <- <- <- <-; split_and!..].
  specialize (Hok eq_refl).
  unfold copy_bidirectional in Hr. set (c := copy_bidirectional_start mem_a mem_b client d1 false false DEFAULT_BUF_SIZE DEFAULT_BUF_SIZE) in Hr.
  destruct (copy_and_shutdown fuel cs c) as [r1 [a b]] eqn:Ec. injection Hr as -> -> -> _.
  assert (0 < DEFAULT_BUF_SIZE)%nat as Hpos by (unfold DEFAULT_BUF_SIZE; lia).
  destruct (copy_and_shutdown_spec _ _ _ _ _ _ _ _ _ _ _ _ _ Ec Hpos Hpos) as (? & Hb & Ha & Hrok).
  - by rewrite Hok, <-app_assoc.
  - by rewrite Hinc.
  - rewrite Hok, <-app_assoc in Hb, Hrok. rewrite Hinc in Ha, Hrok. by split_and!.
Qed.
End FallbackLemmas.

Section ConnectionLemmas.
Context {T B C K R W E : Type} `{!Lru bytes CacheEntry C} `{SocketSys K}
  `{AsyncReadLaws T} `{AsyncWriteLaws T} `{!AsyncPing T} `{!AsyncStreamLaws T}
  `{AsyncReadLaws B} `{AsyncWriteLaws B} `{!WriteProgress B} `{!AsyncPing B} `{!AsyncStreamLaws B}
  `{AsyncRead R} `{AsyncWrite W} `{SessionEnv E}
  (split_io : T → R * W) (env0 : E) (system : bytes → Z → res (list SocketAddr)) (t1 t2 : Z)
  (tcp_stream : nat → B) (mem mem_a mem_b : nat → byte)
  (rr : Z → nat → Z → Z → Z) (spare : bytes → nat) (others : nat → Session W E → Session W E)
  (fuel : nat) (cs : list (bool * bool * bool)).

Lemma after_auth_relayed h (s s1 client : T) x reader d fd (dest' : B) r (net net' : Resolver (C := C) * K) :
  after_auth split_io env0 system t1 t2 tcp_stream mem_a mem_b rr spare others fuel cs h (x, (reader, s1)) net =
    (Relayed r client (Some dest'), net') →
  auth_post h (incoming s) x (reader, s1) → written s1 = written s →
  fallback h = Some d → (fallback_connect system t1 t2 d net).1 = Ok fd → let dest := tcp_stream fd in
  (length (written dest ++ incoming s) ≤ fuel)%nat → (length (written s ++ incoming dest) ≤ fuel)%nat →
  panics r = false ∧
  written dest' `prefix_of` written dest ++ incoming s ∧
  written client `prefix_of` written s ++ incoming dest ∧
  (r = Ok tt → written dest' = written dest ++ incoming s ∧
     written client = written s ++ incoming dest).
Proof.
  intros Hr Hp Hw Hfb Hdial. unfold after_auth in Hr. destruct x as [[name|d']|e|w|]; try done.
  { destruct (split_io s1). by destruct (session_run _ _ _ _ _ _ _) as [? [? ?]]. }
  destruct Hp as (Hd & Ha & _). rewrite Hfb in Hd. injection Hd as <-.
  destruct (fallback_to_dest _ _ _ _ _ _ _ _ _ _ _ _) as [[r1 [c1 d1]] n1] eqn:Ef.
  injection Hr as -> -> -> _. unfold ahead in Ha. cbn [fst snd] in Ha. rewrite <-Ha, <-Hw.
  exact (fallback_spec _ _ _ _ _ _ _ _ _ _ _ _ _ _ _ _ _ Ef Hdial).
Qed.

Lemma handle_connection_eq h s (net : Resolver (C := C) * K) :
  handle_connection split_io env0 system t1 t2 tcp_stream mem mem_a mem_b rr spare others fuel cs h s net =
  after_auth split_io env0 system t1 t2 tcp_stream mem_a mem_b rr spare others fuel cs h
    (authenticate h (new_reader mem, s)) net.
Proof. reflexivity. Qed.

(** The session of an authenticated client starts after its hello. *)
Lemma after_auth_session h x reader (s1 : T) y name (r' : R) (sess : Session W E)
    (net net' : Resolver (C := C) * K) :
  after_auth split_io env0 system t1 t2 tcp_stream mem_a mem_b rr spare others fuel cs h (x, (reader, s1)) net =
    (RanSession y name r' sess, net') →
  x = Ok (Authenticated name) ∧
  session_run rr spare others fuel (unparsed_data_owned reader) (split_io s1).1
    (session_new (split_io s1).2 (sh_padding h) (sh_udp_enabled h) env0) = (y, (r', sess)).
Proof.
  intros Hr. unfold after_auth in Hr. destruct x as [[name'|d']|e|w|]; try done.
  - destruct (split_io s1) as [r w]. cbn [fst snd].
    destruct (session_run _ _ _ _ _ _ _) as [? [? ?]]. by injection Hr as -> -> -> -> _.
  - by destruct (fallback_to_dest _ _ _ _ _ _ _ _ _ _ _ _) as [[? [? ?]] ?].
Qed.
End ConnectionLemmas.

(** C12: The fallback is transparent: a client that does not open with a user's hash is
    connected to the fallback destination as if it had connected there itself.
    When the relay ends well the destination has been given exactly what the
    client sent, from its first byte, and the client exactly what the destination
    sent; before that, and when a stream fails, each has been given a prefix. *)
Theorem fallback_transparent {T B C K R W E : Type} `{!Lru bytes CacheEntry C} `{SocketSys K}
    `{AsyncReadLaws T} `{AsyncWriteLaws T} `{!AsyncPing T} `{!AsyncStreamLaws T}
    `{AsyncReadLaws B} `{AsyncWriteLaws B} `{!WriteProgress B} `{!AsyncPing B} `{!AsyncStreamLaws B}
    `{AsyncRead R} `{AsyncWrite W} `{SessionEnv E}
    (split_io : T → R * W) (env0 : E) (system : bytes → Z → res (list SocketAddr)) (t1 t2 : Z)
  (tcp_stream : nat → B) (mem mem_a mem_b : nat → byte)
    (rr : Z → nat → Z → Z → Z) (spare : bytes → nat) (others : nat → Session W E → Session W E)
    (fuel : nat) (cs : list (bool * bool * bool)) (h : AnyTlsServerHandler) (s client : T)
    (d : NetLocation) (fd : nat) (dest' : B) (r : res unit) (net net' : Resolver (C := C) * K) :
  handle_connection split_io env0 system t1 t2 tcp_stream mem mem_a mem_b rr spare others fuel cs h s net =
    (Relayed r client (Some dest'), net') →
  fallback h = Some d → (fallback_connect system t1 t2 d net).1 = Ok fd → let dest := tcp_stream fd in
  (length (written dest ++ incoming s) ≤ fuel)%nat → (length (written s ++ incoming dest) ≤ fuel)%nat →
  panics r = false ∧
  written dest' `prefix_of` written dest ++ incoming s ∧
  written client `prefix_of` written s ++ incoming dest ∧
  (r = Ok tt → written dest' = written dest ++ incoming s ∧
     written client = written s ++ incoming dest).
Proof.
  intros Hr Hfb Hdial dest. rewrite handle_connection_eq in Hr.
  destruct (authenticate h (new_reader mem, s)) as [x [reader s1]] eqn:Ea.
  eapply after_auth_relayed; [exact Hr|by eapply authenticate_spec|by eapply authenticate_written|done..].
Qed.

(** ** Witnesses *)

(** A stand-in for SHA-256: 32 bytes that depend on the password. *)
Definition demo_sha256 (pw : bytes) : bytes := take 32 (pw ++ replicate 32 x00).

Lemma demo_sha256_length pw : length (demo_sha256 pw) = 32%nat.
Proof. unfold demo_sha256. rewrite length_take, length_app, length_replicate. lia. Qed.

Definition demo_users : list (bytes * bytes) := [(str "ann", str "secret"); (str "bob", str "hunter2")].

Definition demo_dest : NetLocation := NetLoc (Addr_Hostname (str "example.org")) 80.

Definition demo_handler : AnyTlsServerHandler :=
  handler_new demo_sha256 demo_users (default_padding (fun _ => [])) true (Some demo_dest).

(** Bob's hello, three bytes of padding and the first of his frames, in two pieces. *)
Definition demo_hello : bytes :=
  demo_sha256 (str "hunter2") ++ be_encode 2 3 ++ [x00; x00; x00] ++ [x04; x00].

Definition demo_client : Script :=
  MkScript (script_rest (take 20 demo_hello) (EPending :: script_rest (drop 20 demo_hello) [])).

Definition demo_auth : res auth_outcome * (StreamReader * Script) :=
  authenticate demo_handler (new_reader (fun _ => x00), demo_client).

Lemma demo_auth_eq :
  authenticate demo_handler (new_reader (fun _ => x00), demo_client) =
  (demo_auth.1, (demo_auth.2.1, demo_auth.2.2)).
Proof. unfold demo_auth. by destruct (authenticate _ _) as [? [? ?]]. Qed.

Lemma demo_auth_bob : demo_auth.1 = Ok (Authenticated (str "bob")).
Proof. vm_compute. reflexivity. Qed.

Lemma demo_auth_rest :
  default [] (unparsed_data_owned demo_auth.2.1) ++ incoming demo_auth.2.2 = [x04; x00].
Proof. vm_compute. reflexivity. Qed.

Lemma authenticate_sound_witness :
  ∃ pw pad, (str "bob", pw) ∈ demo_users ∧
    incoming demo_client = demo_sha256 pw ++ be_encode 2 (Z.of_nat (length pad)) ++ pad ++ [x04; x00].
Proof.
  pose proof (authenticate_sound demo_sha256 demo_users (default_padding (fun _ => [])) true
    (Some demo_dest) (fun _ => x00) demo_client _ _ _ demo_sha256_length demo_auth_eq) as Hs.
  rewrite demo_auth_bob, demo_auth_rest in Hs. exact Hs.
Defined.

(** A stranger, relayed: the bytes are a web request, not a hash. *)
Definition demo_stranger : QuicStream Sink Script :=
  MkQuic (MkSink [] []) (MkScript (script_rest (str "GET / HTTP/1.1 host example.org") [])).
Definition demo_web : QuicStream Sink Script :=
  MkQuic (MkSink [] [WAccept 3]) (MkScript (script_rest (str "200 OK") [])).

(** The system resolver knows the destination, and every system call works. *)
Definition demo_names (host : bytes) (port : Z) : res (list SocketAddr) := Ok [SocketV4 (Ipv4 1) port].
Definition demo_net : Resolver (C := MapLru bytes CacheEntry) * System := (demo_rv, MkSystem [] (fun _ => None)).

Definition demo_connection : connection_end (QuicStream Sink Script) (QuicStream Sink Script)
    Script Sink LogEnv * (Resolver (C := MapLru bytes CacheEntry) * System) :=
  handle_connection (fun q => (qs_recv q, qs_send q)) (MkEnv [] [] [] [] []) demo_names 0 0 (fun _ => demo_web)
    (fun _ => x00) (fun _ => x00) (fun _ => x00) low (fun _ => 3%nat) (fun _ s => s) 100
    (replicate 5 (false, true, true)) demo_handler demo_stranger demo_net.

Definition relayed_well {T B R W E} (c : connection_end T B R W E) : bool :=
  match c with Relayed (Ok _) _ (Some _) => true | _ => false end.

Lemma demo_connection_well : relayed_well demo_connection.1 = true.
Proof. vm_compute. reflexivity. Qed.

Lemma fallback_transparent_witness :
  ∃ client dest net, demo_connection = (Relayed (Ok tt) client (Some dest), net) ∧
    written dest = str "GET / HTTP/1.1 host example.org" ∧ written client = str "200 OK".
Proof.
  pose proof demo_connection_well as Hw.
  destruct demo_connection as [[[[]| | |] client [dest|]| |] net] eqn:E; try discriminate Hw.
  exists client, dest, net. split; [done|].
  destruct (fallback_transparent _ _ _ _ _ _ _ _ _ _ _ _ _ _ _ _ _ demo_dest 0%nat dest _ _ _ E)
    as (_ & _ & _ & Hok); [reflexivity|vm_compute; reflexivity|..|exact (Hok eq_refl)];
    apply Nat.leb_le; vm_compute; reflexivity.
Defined.
