(* ===== verification/AnyTlsEndToEnd.v ===== *)
(** * An AnyTLS connection, end to end

    The parts together: a user's connection is authenticated, its frames are
    demultiplexed into the channels of its streams, and the handler that reads a
    channel connects the stream to its destination. *)

From Stdlib Require Import String.
From S2P Require Import Prelude RustStd Address AsyncStream StreamReader AnyTlsTypes Padding QuicStream.
From S2P Require Import LruCache Resolver Dial CopyBidirectional Sockets UdpCopy AnyTlsStream AnyTlsSession AnyTlsRecv.
From S2P Require Import AnyTlsLocation AnyTlsForward AnyTlsServer.

(** What a handler has given to its stream for the client. *)
Definition stream_sent {Tx} `{PollSenderLaws Tx} (tx : Tx) : bytes := concat (snd <$> sent tx).

Section EndToEnd.
Context {T B C K R W E : Type} `{!Lru bytes CacheEntry C} `{SocketSys K}
  `{AsyncReadLaws T} `{AsyncWriteLaws T} `{!AsyncPing T} `{!AsyncStreamLaws T}
  `{AsyncReadLaws B} `{AsyncWriteLaws B} `{!AsyncPing B} `{!AsyncStreamLaws B}
  `{AsyncReadLaws R} `{AsyncWriteLaws W} `{SessionEnvLaws E}.
Context (sha256 : bytes → bytes) (us : list (bytes * bytes)) (pf : PaddingFactory) (udp : bool)
  (fb : option NetLocation).
(** The parameters of a connection; the reading half of a split stream reads the stream. *)
Context (split_io : T → R * W) (env0 : E) (system : bytes → Z → res (list SocketAddr)) (t1 t2 : Z)
  (tcp_stream : nat → B) (mem mem_a mem_b : nat → byte) (rr : Z → nat → Z → Z → Z) (spare : bytes → nat)
  (others : nat → Session W E → Session W E) (fuel : nat) (cs : list (bool * bool * bool)).
Context (i : Z).
Hypothesis sha256_length : ∀ pw, length (sha256 pw) = 32%nat.
Hypothesis split_reads : ∀ s, incoming (split_io s).1 = incoming s.
Hypothesis spare_positive : ∀ b, (0 < spare b)%nat.
Hypothesis padding_fits : sizes_ok rr pf.
Hypothesis others_rely : ∀ k s, session_ok rr s → rely i s (others k s).

Abbreviation connection :=
  (handle_connection split_io env0 system t1 t2 tcp_stream mem mem_a mem_b rr spare others fuel cs
     (handler_new sha256 us pf udp fb)).

Lemma session_new_ok (w : W) u : session_ok rr (session_new w pf u env0).
Proof. split_and!; [done|..]; intros *; cbn; by rewrite lookup_empty. Qed.

(** What the client sends on a stream reaches the channel of the stream. *)
Lemma connection_delivers (s : T) name pw pad wire (net net' : Resolver (C := C) * K) user r' sess fs1 f fs2 d rest :
  (name, pw) ∈ us → (length pad ≤ DEFAULT_BUFFER_SIZE)%nat →
  incoming s = sha256 pw ++ be_encode 2 (Z.of_nat (length pad)) ++ pad ++ wire → (length wire < fuel)%nat →
  connection s net = (RanSession (Ok tt) user r' sess, net') →
  drain wire = (fs1 ++ f :: fs2, d, rest) → opens i f = true → forallb (negb ∘ opens i) fs1 = true →
  ∃ s', sess = (close s').2 ∧
    (is_closed s' = false → ∃ c, (i, c) ∈ spawned (env s') ∧
       (rx_alive (env s') c = true → item_bytes (chan_log (env s') c) = stream_bytes i fs2)).
Proof.
  intros Hpw Hpad Hin Hf Hr Hd Hop Hno. rewrite handle_connection_eq in Hr.
  destruct (authenticate _ (new_reader mem, s)) as [x [reader s1]] eqn:Ea.
  destruct (after_auth_session _ _ _ _ _ _ _ _ _ _ _ _ _ _ _ _ _ _ _ _ _ _ _ Hr) as [-> Hs].
  destruct (authenticate_hello sha256 us pf udp fb mem s s1 _ reader name pw pad wire sha256_length Hpw Hpad Hin Ea)
    as [(name' & _ & _ & Hw)|(e & ? & _)]; [|done].
  destruct (handler_new_spec sha256 us pf udp fb) as (_ & Hpf & _). cbv zeta in Hpf. rewrite Hpf in Hs.
  unfold session_run in Hs.
  destruct (recv_loop _ _ _ _ _ _ _ _) as [y [r1 s']] eqn:El. injection Hs as -> <- <-.
  assert (default [] (unparsed_data_owned reader) ++ incoming (split_io s1).1 = wire) as Hall
    by (rewrite split_reads, <-Hw; f_equal; unfold unparsed_data_owned; by case_decide).
  exists s'. split; [done|]. intros Hcl. set (s0 := session_new _ _ _ _) in El.
  destruct (recv_loop_demux rr spare others fuel (unparsed_data_owned reader) (split_io s1).1 r1
    s0 s' i fs1 fs2 f d rest spare_positive (session_new_ok _ _) (lookup_empty _) others_rely) as (c & Hc & _ & Ha).
  - rewrite <-Hall, length_app in Hf. lia.
  - exact El.
  - done.
  - by rewrite Hall.
  - done.
  - done.
  - exists c. split; [done|]. intros Hal. rewrite (Ha Hal). apply item_bytes_demux.
Qed.

End EndToEnd.

(** ** A run *)

Definition e2e_frames : list Frame :=
  [demo_settings; frame_control Syn 2; frame_control Syn 1; frame_data 1 (take 3 (encode_location AnyTlsForward.demo_dest));
   frame_data 2 [x09]; frame_data 1 (drop 3 (encode_location AnyTlsForward.demo_dest) ++ [x01]); frame_data 1 [x02; x03];
   frame_control Fin 1].
Definition e2e_wire : bytes := encode_frames e2e_frames.
Definition e2e_bytes : bytes :=
  demo_sha256 (str "hunter2") ++ be_encode 2 (Z.of_nat (length [x00; x00; x00])) ++ [x00; x00; x00] ++ e2e_wire.
Definition e2e_client : QuicStream Sink Script :=
  MkQuic (MkSink [] []) (MkScript (script_rest (take 50 e2e_bytes) (EPending :: script_rest (drop 50 e2e_bytes) []))).

Abbreviation e2e_split := (fun q : QuicStream Sink Script => (qs_recv q, qs_send q)).
Abbreviation e2e_connection :=
  (handle_connection e2e_split (MkEnv [] [] [] [] []) no_names 0 0 demo_tcp_side (fun _ => x00)
     (fun _ => x00) (fun _ => x00) low (fun _ => 3%nat) demo_others 400 [] 
     (handler_new demo_sha256 demo_users (default_padding (fun _ => [])) true None) e2e_client (demo_rv, demo_open)).

Definition ran_well {T B R W E} (c : connection_end T B R W E) : bool :=
  match c with RanSession (Ok _) _ _ _ => true | _ => false end.

Lemma e2e_ran : ran_well e2e_connection.1 = true.
Proof. vm_compute. reflexivity. Qed.

Lemma e2e_drain : drain e2e_wire = (take 2 e2e_frames ++ frame_control Syn 1 :: drop 3 e2e_frames, Ok tt, []).
Proof. vm_compute. reflexivity. Qed.

(** The channel of stream 1 and a handler that reads it. *)
Definition e2e_rx : ScriptRx :=
  MkRx (Some <$> [take 3 (encode_location AnyTlsForward.demo_dest);
                  drop 3 (encode_location AnyTlsForward.demo_dest) ++ [x01]; [x02; x03]; []]).
Abbreviation e2e_handler :=
  (handle_new_stream low demo_tcp_side demo_udp_side no_names 0 0 (fun _ => x00) (fun _ => x00) demo_rt 1
     (stream_new 1 e2e_rx (MkTx [] false []) false) (demo_peer2, (demo_rv, demo_open))).

Lemma e2e_handler_ok : e2e_handler.1.1 = Ok tt ∧ AnyTlsForward.ends e2e_handler.1.2 = true.
Proof. vm_compute. done. Qed.

Lemma e2e_split_reads (q : QuicStream Sink Script) : incoming (e2e_split q).1 = incoming q.
Proof. reflexivity. Qed.

Lemma e2e_handler_eta :
  e2e_handler = (e2e_handler.1.1, e2e_handler.1.2, (e2e_handler.2.1, e2e_handler.2.2)).
Proof. by destruct e2e_handler as [[] []]. Qed.

