(* ===== verification/TlsConfig.v ===== *)
(** * TLS material (src/tls_config.rs)

    Where the certificate and key of a server come from.  The files, the PEM
    reader, the certificate generator and rustls are the interface [TlsLib]. *)

From Stdlib Require Import String.
From S2P Require Import Prelude RustStd AsyncStream.

(** [file] is an open file, [keypair] and [params] are rcgen's, [config] is rustls's
    [ServerConfig], with its ALPN protocols, and [quic] quinn's. *)
Class TlsLib (file cert key keypair params config quic : Type) : Type := {
  file_open : bytes → res file;
  pem_certs : file → res (list cert);
  pem_private_key : file → res (option key);
  keypair_generate : res keypair;
  params_new : list bytes → res params;
  set_no_ca : params → params;
  set_common_name : bytes → params → params;
  self_signed : params → keypair → res cert;
  key_of_pair : keypair → res key;
  safe_versions : res unit;
  single_cert : list cert → key → res config;
  set_alpn : list bytes → config → config;
  quic_config : config → res quic }.

Definition rewrap (msg : string) (e : io_error) : io_error := io_err Other msg.
Definition rewrap_kind (msg : string) (path : bytes) (e : io_error) : io_error :=
  IoError (err_kind e) (str msg ++ path ++ str ": " ++ err_msg e).

Section Tls.
Context {file cert key keypair params config quic : Type}
  `{!TlsLib file cert key keypair params config quic}.

Record TlsMaterial : Type := MkTls { server_config : config; alpn : list bytes }.

Definition load_cert_and_key (cert_path key_path : bytes) : res (list cert * key) :=
  cert_file ← map_err (rewrap_kind "failed to open cert file " cert_path) (file_open cert_path);
  certs ← map_err (rewrap "failed to parse cert file") (pem_certs cert_file);
  if bool_decide (length certs = 0%nat) then Err (io_err Other "no certificates found")
  else
    key_file ← map_err (rewrap_kind "failed to open key file " key_path) (file_open key_path);
    found ← map_err (rewrap "failed to parse key file") (pem_private_key key_file);
    match found with
    | None => Err (io_err Other "no private key found")
    | Some k => Ok (certs, k)
    end.

Definition generate_self_signed (sni_name : bytes) : res (list cert * key) :=
  key_pair ← map_err (rewrap "failed to generate key") keypair_generate;
  params ← map_err (rewrap "cert params") (params_new [sni_name]);
  let params := set_common_name sni_name (set_no_ca params) in
  cert_der ← map_err (rewrap "failed to self-sign cert") (self_signed params key_pair);
  key_der ← map_err (rewrap "failed to serialize generated key") (key_of_pair key_pair);
  Ok ([cert_der], key_der).

Definition certs_and_key (cert_path key_path : option bytes) (sni_name : bytes) : res (list cert * key) :=
  match cert_path, key_path with
  | Some cert_path, Some key_path => load_cert_and_key cert_path key_path
  | None, None => generate_self_signed sni_name
  | _, _ => Err (io_err Other "cert and key must either both be configured or both omitted")
  end.

Definition from_files (cert_path key_path : option bytes) (sni_name : bytes) : res TlsMaterial :=
  '(certs, key) ← certs_and_key cert_path key_path sni_name;
  _ ← map_err (rewrap "TLS version config") safe_versions;
  config ← map_err (rewrap "invalid certificate/key") (single_cert certs key);
  Ok (MkTls config []).

Definition with_alpn (protocols : list bytes) (m : TlsMaterial) : TlsMaterial :=
  MkTls (set_alpn protocols (server_config m)) protocols.

(** The configuration is not shared: the [Arc] is unwrapped. *)
Definition into_quic (m : TlsMaterial) : res quic :=
  map_err (rewrap "invalid QUIC server config") (quic_config (server_config m)).

(** ** What the configuration decides *)

Lemma map_err_ok {A} (f : io_error → io_error) (r : res A) a : map_err f r = Ok a ↔ r = Ok a.
Proof. by destruct r. Qed.

(** With both paths, the certificates are those of the one file, at least one of them,
    and the key that of the other; nothing is generated. *)
Lemma load_cert_and_key_ok cert_path key_path certs k :
  load_cert_and_key cert_path key_path = Ok (certs, k) ↔
  certs ≠ [] ∧ (∃ f, file_open cert_path = Ok f ∧ pem_certs f = Ok certs) ∧
  ∃ f, file_open key_path = Ok f ∧ pem_private_key f = Ok (Some k).
Proof.
  unfold load_cert_and_key. split.
  - intros Hr. apply bind_ok_inv in Hr as (f & Hf%map_err_ok & Hr). apply bind_ok_inv in Hr as (cs & Hc%map_err_ok & Hr).
    case_bool_decide as Hl; [done|]. apply bind_ok_inv in Hr as (g & Hg%map_err_ok & Hr).
    apply bind_ok_inv in Hr as (o & Ho%map_err_ok & Hr). destruct o as [k'|]; [|done].
    injection Hr as -> ->. split_and!; [by intros ->|eauto..].
  - intros (Hne & (f & Hf & Hc) & g & Hg & Hk). rewrite Hf. cbn. rewrite Hc. cbn.
    rewrite bool_decide_false by (by destruct certs). rewrite Hg. cbn. by rewrite Hk.
Qed.

(** A server with one path and not the other does not start. *)
Lemma from_files_ok cert_path key_path sni_name m :
  from_files cert_path key_path sni_name = Ok m →
  alpn m = [] ∧ ∃ certs k, single_cert certs k = Ok (server_config m) ∧
    match cert_path, key_path with
    | Some c, Some p => load_cert_and_key c p = Ok (certs, k)
    | None, None => generate_self_signed sni_name = Ok (certs, k)
    | _, _ => False
    end.
Proof.
  unfold from_files. intros Hr. apply bind_ok_inv in Hr as ([certs k] & Hc & Hr).
  apply bind_ok_inv in Hr as ([] & _ & Hr). apply bind_ok_inv in Hr as (c & Hs%map_err_ok & [= <-]).
  split; [done|]. exists certs, k. split; [done|]. by destruct cert_path, key_path.
Qed.
End Tls.
Arguments TlsMaterial : clear implicits.
Arguments MkTls {config} _ _.
