(* ===== verification/Servers.v ===== *)
(** * Starting and accepting (src/anytls/server.rs and src/hysteria2.rs, [run_server])

    How a server starts from its configuration, and the loop that accepts
    connections, with the semaphore that limits them.  The loops run
    concurrently with the tasks of the connections they accepted: they are
    machines that take the runtime's events. *)

From Stdlib Require Import String.
From S2P Require Import Prelude RustStd Address AsyncStream Padding Dial TlsConfig AnyTlsServer.

(** ** Listen addresses: [str::parse::<SocketAddr>]

    The scope of an IPv6 address is read and not kept. *)

Definition read_port (s : bytes) : option (Z * bytes) :=
  s ← read_given_char COLON s; read_number 10 (length s) true (2 ^ 16 - 1) s.

Definition read_scope_id (s : bytes) : option (Z * bytes) :=
  s ← read_given_char x25 s; read_number 10 (length s) true (2 ^ 32 - 1) s.

Definition read_socket_addr_v4 (s : bytes) : option (SocketAddr * bytes) :=
  '(ip, s) ← read_ipv4_addr s;
  '(port, s) ← read_port s;
  Some (SocketV4 ip port, s).

Definition read_socket_addr_v6 (s : bytes) : option (SocketAddr * bytes) :=
  s ← read_given_char x5b s;
  '(ip, s) ← read_ipv6_addr s;
  let s := match read_scope_id s with Some (_, s) => s | None => s end in
  s ← read_given_char x5d s;
  '(port, s) ← read_port s;
  Some (SocketV6 ip port, s).

Definition read_socket_addr (s : bytes) : option (SocketAddr * bytes) :=
  match read_socket_addr_v4 s with Some x => Some x | None => read_socket_addr_v6 s end.

Definition parse_socket_addr (s : bytes) : option SocketAddr := whole read_socket_addr s.

Definition listen_address (listen : bytes) : res SocketAddr :=
  match parse_socket_addr listen with
  | Some a => Ok a
  | None => Err (io_err Other "invalid listen address")
  end.

(** ** Starting *)

Record AnyTlsServerConfig : Type := MkAnyTlsConfig {
  as_listen : bytes; as_cert : option bytes; as_key : option bytes; as_udp_enabled : bool;
  as_users : list (bytes * bytes); as_padding_scheme : option bytes;
  as_fallback : option NetLocation; as_max_connections : Z }.

Record Hysteria2ServerConfig : Type := MkHysteria2Config {
  hs_listen : bytes; hs_password : bytes; hs_udp_enabled : bool;
  hs_cert : option bytes; hs_key : option bytes; hs_alpn : list bytes; hs_max_connections : Z }.

(** [Semaphore::new], when there is a limit. *)
Definition semaphore_new (max_connections : Z) : option nat :=
  if 0 <? max_connections then Some (Z.to_nat max_connections) else None.

(** ** The transport of the Hysteria2 endpoint

    What the settings of quinn's transport are given; times in nanoseconds, the idle
    timeout in the milliseconds quinn keeps, which must fit a variable-length integer. *)
Record TransportConfig : Set := MkTransport {
  max_concurrent_bidi_streams : Z; max_concurrent_uni_streams : Z; max_idle_timeout : option Z;
  keep_alive_interval : option Z; send_window : Z; receive_window : Z; stream_receive_window : Z;
  initial_mtu : Z; min_mtu : Z; mtu_discovery_config : bool; enable_segmentation_offload : bool; initial_rtt : Z }.

(** [IdleTimeout::try_from(Duration)]. *)
Definition idle_timeout (d : Z) : res Z :=
  let ms := d / 10 ^ 6 in
  if ms <? 2 ^ 62 then Ok ms else Err (io_err Other "value too large for varint encoding").

Definition hysteria_transport : res TransportConfig :=
  idle ← idle_timeout (secs 30);
  Ok (MkTransport 4096 1024 (Some idle) (Some (secs 10)) (16 * 1024 * 1024) (20 * 1024 * 1024) (8 * 1024 * 1024)
        1200 1200 true true (100 * 10 ^ 6)).

(** A connection is kept alive three times before it would be idle for too long, and
    every stream may fill its window within that of the connection. *)
Lemma hysteria_transport_ok :
  ∃ t idle keep, hysteria_transport = Ok t ∧ max_idle_timeout t = Some idle ∧ keep_alive_interval t = Some keep ∧
    3 * keep = idle * 10 ^ 6 ∧ stream_receive_window t ≤ receive_window t < 2 ^ 32 ∧ min_mtu t ≤ initial_mtu t < 2 ^ 16.
Proof. eexists _, _, _. split; [reflexivity|]. by vm_compute. Qed.

Section Start.
Context {file cert key keypair params config quic K : Type}
  `{!TlsLib file cert key keypair params config quic} `{SocketSys K}.
Context (md5 sha256 : bytes → bytes).

(** What the task of a started server owns. *)
Record AnyTlsServer : Type := MkAnyTlsServer {
  at_acceptor : config; at_handler : AnyTlsServerHandler; at_permits : option nat; at_listener : nat }.
Record Hysteria2Server : Type := MkHysteria2Server {
  h2_config : quic; h2_password : bytes; h2_udp_enabled : bool; h2_permits : option nat; h2_bind : SocketAddr }.

Definition server_padding (scheme : option bytes) : res PaddingFactory :=
  match scheme with
  | Some scheme =>
      match padding_new md5 scheme with
      | inl factory => Ok factory
      | inr e => Err (IoError Other (str "invalid padding scheme: " ++ e))
      end
  | None => default_factory md5
  end.

Definition anytls_run_server (c : AnyTlsServerConfig) : M K AnyTlsServer :=
  bind_address ← lift (listen_address (as_listen c));
  tls_material ← lift (from_files (as_cert c) (as_key c) (str "anytls"));
  padding ← lift (server_padding (as_padding_scheme c));
  let handler := handler_new sha256 (as_users c) padding (as_udp_enabled c) (as_fallback c) in
  listener ← new_tcp_listener bind_address 4096;
  mret (MkAnyTlsServer (server_config tls_material) handler (semaphore_new (as_max_connections c)) listener).

Definition hysteria_alpn (alpn : list bytes) : list bytes :=
  if bool_decide (length alpn = 0%nat) then [str "h3"] else alpn.

(** The task is started before the socket is made. *)
Definition hysteria_run_server (c : Hysteria2ServerConfig) : M K Hysteria2Server :=
  bind_address ← lift (listen_address (hs_listen c));
  tls_material ← lift (from_files (hs_cert c) (hs_key c) (str "hysteria2"));
  quic_server_config ← lift (into_quic (with_alpn (hysteria_alpn (hs_alpn c)) tls_material));
  mret (MkHysteria2Server quic_server_config (hs_password c) (hs_udp_enabled c)
          (semaphore_new (hs_max_connections c)) bind_address).

(** [unwrap] in the task. *)
Definition unwrap {A} (m : M K A) : M K A := fun k =>
  match m k with (Err _, k') => (Panic "called `Result::unwrap()` on an `Err` value", k') | x => x end.

(** The task up to its endpoint, which is quinn's: the transport is set before the
    socket is made. *)
Definition hysteria_listen (endpoint_new : TransportConfig → nat → M K unit) (s : Hysteria2Server) : M K nat :=
  transport ← unwrap (lift hysteria_transport);
  socket ← unwrap (new_socket2_udp_socket_with_buffer_size (is_ipv6_addr (h2_bind s)) (Some (h2_bind s)) true
                     (Some 8625000));
  unwrap (endpoint_new transport socket) ;;
  mret socket.
End Start.
Arguments AnyTlsServer : clear implicits.
Arguments Hysteria2Server : clear implicits.

(** ** The semaphore

    [None] when the number of connections is not limited; a permit is held or there
    is none to hold. *)

Definition acquire (semaphore : option nat) : option (option nat * bool) :=
  match semaphore with
  | None => Some (None, false)
  | Some (S n) => Some (Some n, true)
  | Some O => None
  end.

Definition release (permit : bool) (semaphore : option nat) : option nat :=
  if permit then S <$> semaphore else semaphore.

(** ** The AnyTLS accept loop *)

Inductive stage : Set := Handshaking | Handling.
Record task : Set := MkTask { t_permit : bool; t_stage : stage }.

(** Where the loop is: waiting for a permit, or for a connection with one. *)
Inductive phase : Set := Acquiring | Accepting (permit : bool).

Inductive accept_event : Set :=
| Acquired | AcceptFailed | Accepted (stream : nat)
| HandshakeDone (i : nat) | HandshakeFailed (i : nat) | HandshakeElapsed (i : nat) | ConnectionEnded (i : nat).

Definition set_stage (s : stage) (t : task) : task := MkTask (t_permit t) s.

Section Accept.
Context {K : Type} `{SocketSys K}.

Record acceptor : Type := MkAcceptor {
  permits : option nat; at_phase : phase; tasks : list task; accept_sys : K }.

(** The options of an accepted stream; errors are logged. *)
Definition accepted_stream (stream : nat) : M K unit :=
  ignore (set_tcp_keepalive stream (secs 300) (secs 60)) ;;
  ignore (set_nodelay true stream).

(** A task that is in stage [s] ends, and drops its permit. *)
Definition end_task (s : stage → bool) (i : nat) (a : acceptor) : option acceptor :=
  t ← tasks a !! i;
  if s (t_stage t)
  then Some (MkAcceptor (release (t_permit t) (permits a)) (at_phase a) (delete i (tasks a)) (accept_sys a))
  else None.

Definition is_handshaking (s : stage) : bool := match s with Handshaking => true | Handling => false end.
Definition is_handling (s : stage) : bool := negb (is_handshaking s).

Definition accept_step (e : accept_event) (a : acceptor) : option acceptor :=
  match e, at_phase a with
  | Acquired, Acquiring =>
      '(semaphore, permit) ← acquire (permits a);
      Some (MkAcceptor semaphore (Accepting permit) (tasks a) (accept_sys a))
  | AcceptFailed, Accepting permit =>
      Some (MkAcceptor (release permit (permits a)) Acquiring (tasks a) (accept_sys a))
  | Accepted stream, Accepting permit =>
      Some (MkAcceptor (permits a) Acquiring (tasks a ++ [MkTask permit Handshaking])
              (accepted_stream stream (accept_sys a)).2)
  | HandshakeDone i, _ =>
      t ← tasks a !! i;
      if is_handshaking (t_stage t)
      then Some (MkAcceptor (permits a) (at_phase a) (<[i := set_stage Handling t]> (tasks a)) (accept_sys a))
      else None
  | HandshakeFailed i, _ | HandshakeElapsed i, _ => end_task is_handshaking i a
  | ConnectionEnded i, _ => end_task is_handling i a
  | _, _ => None
  end.

Fixpoint accept_run (es : list accept_event) (a : acceptor) : option acceptor :=
  match es with
  | [] => Some a
  | e :: es => a ← accept_step e a; accept_run es a
  end.

Definition accept_start (max_connections : Z) (k : K) : acceptor :=
  MkAcceptor (semaphore_new max_connections) Acquiring [] k.
End Accept.
Arguments acceptor : clear implicits.

(** ** The Hysteria2 accept loop: a connection is taken before its permit *)

Inductive quic_phase : Set := AwaitConnection | AwaitPermit | EndpointClosed.
Inductive quic_event : Set := Incoming | NoMore | PermitAcquired | QuicEnded (i : nat).

Record quic_acceptor : Set := MkQuicAcceptor {
  q_permits : option nat; q_phase : quic_phase; q_tasks : list bool }.

Definition quic_step (e : quic_event) (a : quic_acceptor) : option quic_acceptor :=
  match e, q_phase a with
  | Incoming, AwaitConnection => Some (MkQuicAcceptor (q_permits a) AwaitPermit (q_tasks a))
  | NoMore, AwaitConnection => Some (MkQuicAcceptor (q_permits a) EndpointClosed (q_tasks a))
  | PermitAcquired, AwaitPermit =>
      '(semaphore, permit) ← acquire (q_permits a);
      Some (MkQuicAcceptor semaphore AwaitConnection (q_tasks a ++ [permit]))
  | QuicEnded i, _ =>
      permit ← q_tasks a !! i;
      Some (MkQuicAcceptor (release permit (q_permits a)) (q_phase a) (delete i (q_tasks a)))
  | _, _ => None
  end.

Fixpoint quic_run (es : list quic_event) (a : quic_acceptor) : option quic_acceptor :=
  match es with
  | [] => Some a
  | e :: es => a ← quic_step e a; quic_run es a
  end.

Definition quic_start (max_connections : Z) : quic_acceptor :=
  MkQuicAcceptor (semaphore_new max_connections) AwaitConnection [].

(** ** Every permit is free or held *)

Definition accounted (limit free : option nat) (held : list bool) : Prop :=
  match limit, free with
  | Some m, Some n => (n + length held = m)%nat ∧ Forall (eq true) held
  | None, None => Forall (eq false) held
  | _, _ => False
  end.

#[export] Instance accounted_Proper limit free : Proper ((≡ₚ) ==> iff) (accounted limit free).
Proof. intros h1 h2 Hp. unfold accounted. by destruct limit, free; rewrite ?Hp. Qed.

Lemma accounted_acquire limit free held free' permit :
  acquire free = Some (free', permit) → accounted limit free held → accounted limit free' (permit :: held).
Proof.
  destruct free as [[|n]|]; intros [= <- <-]; destruct limit as [m|]; cbn; try done.
  - intros [Hn Hh]. split; [lia|by constructor].
  - intros Hh. by constructor.
Qed.

Lemma accounted_release limit free held permit :
  accounted limit free (permit :: held) → accounted limit (release permit free) held.
Proof.
  destruct limit as [m|], free as [n|]; cbn; try done.
  - intros [Hn [<- Hh]%Forall_cons]. cbn. split; [lia|done].
  - by intros [<- Hh]%Forall_cons.
Qed.

Lemma accounted_start max_connections :
  accounted (semaphore_new max_connections) (semaphore_new max_connections) [].
Proof. unfold accounted. destruct (semaphore_new _) as [n|]; [|constructor]. split; [cbn; lia|constructor]. Qed.

(** A permit can be had exactly when fewer than the limit are held. *)
Lemma accounted_available limit free held :
  accounted limit free held → is_Some (acquire free) ↔ match limit with Some m => (length held < m)%nat | None => True end.
Proof.
  destruct limit as [m|], free as [[|n]|]; cbn; try done; intros Hc.
  - destruct Hc as [Hn _]. split; [intros [? ?]; done|lia].
  - destruct Hc as [Hn _]. split; [lia|by eexists].
Qed.

Lemma accounted_bound m free held : accounted (Some m) free held → (length held ≤ m)%nat.
Proof. destruct free as [n|]; cbn; [lia|done]. Qed.

Definition phase_held (p : phase) : list bool := match p with Acquiring => [] | Accepting b => [b] end.

Section AcceptLemmas.
Context {K : Type} `{SocketSys K}.
Implicit Types a : acceptor K.

Definition accept_inv (limit : option nat) a : Prop :=
  accounted limit (permits a) (phase_held (at_phase a) ++ (t_permit <$> tasks a)).

Lemma delete_permit {A} (f : A → bool) (l : list A) i x :
  l !! i = Some x → f <$> l ≡ₚ f x :: (f <$> delete i l).
Proof. intros Hl. rewrite (delete_Permutation l i x Hl) at 1. done. Qed.

Lemma end_task_inv limit s i a a' : end_task s i a = Some a' → accept_inv limit a → accept_inv limit a'.
Proof.
  unfold end_task. intros He Hi. destruct (tasks a !! i) as [t|] eqn:Ht; [|done]. cbn in He.
  destruct (s (t_stage t)); [|done]. injection He as <-. unfold accept_inv in *. cbn [permits at_phase tasks].
  apply accounted_release. by rewrite Permutation_middle, <-(delete_permit t_permit _ _ _ Ht).
Qed.

Lemma accept_step_inv limit e a a' : accept_step e a = Some a' → accept_inv limit a → accept_inv limit a'.
Proof.
  unfold accept_step. intros Hs Hi. destruct e, (at_phase a) as [|permit] eqn:Hp; try done;
    try (by eapply end_task_inv); unfold accept_inv in *; rewrite Hp in Hi; cbn [phase_held app] in Hi.
  - destruct (acquire (permits a)) as [[free permit]|] eqn:Ea; [|done]. injection Hs as <-. by eapply accounted_acquire.
  - injection Hs as <-. by apply accounted_release.
  - injection Hs as <-. cbn. rewrite fmap_app. cbn. by rewrite <-Permutation_cons_append.
  - destruct (tasks a !! i) as [t|] eqn:Ht; [|done]. cbn in Hs. destruct (is_handshaking _); [|done].
    injection Hs as <-. cbn. rewrite list_fmap_insert. cbn. by rewrite list_insert_id by (by rewrite list_lookup_fmap, Ht).
  - destruct (tasks a !! i) as [t|] eqn:Ht; [|done]. cbn in Hs. destruct (is_handshaking _); [|done].
    injection Hs as <-. cbn. rewrite list_fmap_insert. cbn. by rewrite list_insert_id by (by rewrite list_lookup_fmap, Ht).
Qed.

Lemma accept_run_inv limit es a a' : accept_run es a = Some a' → accept_inv limit a → accept_inv limit a'.
Proof.
  revert a. induction es as [|e es IH]; intros a Hr Hi; cbn in Hr; [by injection Hr as <-|].
  destruct (accept_step e a) as [a1|] eqn:E; [|done]. apply (IH a1 Hr). by eapply accept_step_inv.
Qed.
End AcceptLemmas.

Definition quic_inv (limit : option nat) (a : quic_acceptor) : Prop :=
  accounted limit (q_permits a) (q_tasks a).

Lemma quic_run_inv limit es a a' : quic_run es a = Some a' → quic_inv limit a → quic_inv limit a'.
Proof.
  revert a. induction es as [|e es IH]; intros a Hr Hi; cbn in Hr; [by injection Hr as <-|].
  destruct (quic_step e a) as [a1|] eqn:E; [|done]. apply (IH a1 Hr). clear Hr IH. unfold quic_inv, quic_step in *.
  destruct e, (q_phase a); try done; simplify_eq/=; try done;
    try (destruct (q_tasks a !! i) as [b|] eqn:Ht; [|done]; injection E as <-; cbn;
         apply accounted_release; by rewrite <-(delete_Permutation _ _ _ Ht)).
  destruct (acquire (q_permits a)) as [[free permit]|] eqn:Ea; [|done]. injection E as <-. cbn.
  rewrite <-Permutation_cons_append. by eapply accounted_acquire.
Qed.

Lemma semaphore_limit max_connections :
  0 < max_connections → semaphore_new max_connections = Some (Z.to_nat max_connections).
Proof. intros Hm. unfold semaphore_new. by rewrite (proj2 (Z.ltb_lt _ _)). Qed.

(** ** Start-up on a system that records its calls *)

Definition listener_calls (addr : SocketAddr) (fd : nat) : list syscall :=
  [CNonblocking true fd; CReuseAddress true fd; CBind addr fd; CListen 4096 fd; CListenerFromStd fd].

Lemma new_tcp_listener_eq addr k :
  new_tcp_listener addr 4096 k = handle_calls (CSocket (is_ipv6_addr addr) STREAM) (listener_calls addr) k.
Proof.
  unfold new_tcp_listener, handle_calls. change (listen_backlog 4096) with 4096.
  cbn [socket_new set_nonblocking set_reuse_address bind listen listener_from_std System_sockets].
  run. destruct (record_call _ k) as [[fd|e|w|] k1]; try done. cbn [call_all listener_calls]. run.
  repeat (match goal with |- context [call ?c ?s] => is_var s; destruct (call c s) as [[[]|?|?|] ?] end;
    try reflexivity).
Qed.

(** ** Properties *)

(** C22: however connections, failures and ends of connections interleave, the AnyTLS
    server never has more connections than its limit, in their handshake or after
    it; no permit is lost: it can accept again exactly when it has fewer, and always
    when there is no limit. *)
Theorem anytls_connection_limit {K : Type} `{SocketSys K} (max_connections : Z) (k : K)
    (es : list accept_event) (a : acceptor K) :
  accept_run es (accept_start max_connections k) = Some a →
  (0 < max_connections → Z.of_nat (length (tasks a)) ≤ max_connections) ∧
  (at_phase a = Acquiring →
   is_Some (accept_step Acquired a) ↔
     (0 < max_connections → Z.of_nat (length (tasks a)) < max_connections)).
Proof.
  intros Hr. pose proof (accept_run_inv (semaphore_new max_connections) _ _ _ Hr (accounted_start _)) as Hi.
  split.
  - intros Hm. unfold accept_inv in Hi. rewrite semaphore_limit in Hi by done.
    apply accounted_bound in Hi. rewrite length_app, length_fmap in Hi. lia.
  - intros Hp. unfold accept_inv in Hi. rewrite Hp in Hi. apply accounted_available in Hi.
    rewrite app_nil_l, length_fmap in Hi.
    assert (is_Some (accept_step Acquired a) ↔ is_Some (acquire (permits a))) as ->.
    { cbn. rewrite Hp. destruct (acquire (permits a)) as [[free permit]|]; split; intros [? ?]; by eauto. }
    rewrite Hi. unfold semaphore_new. destruct (0 <? max_connections) eqn:Hm; zbool; [lia|]. split; [lia|done].
Qed.

(** The Hysteria2 server serves at most as many connections as its limit, whatever
    arrives and ends; while it waits for a permit it gets one exactly when fewer
    are served. *)
Theorem hysteria_connection_limit (max_connections : Z) (es : list quic_event) (a : quic_acceptor) :
  quic_run es (quic_start max_connections) = Some a →
  (0 < max_connections → Z.of_nat (length (q_tasks a)) ≤ max_connections) ∧
  (q_phase a = AwaitPermit →
   is_Some (quic_step PermitAcquired a) ↔
     (0 < max_connections → Z.of_nat (length (q_tasks a)) < max_connections)).
Proof.
  intros Hr. pose proof (quic_run_inv (semaphore_new max_connections) _ _ _ Hr (accounted_start _)) as Hi.
  unfold quic_inv in Hi. split.
  - intros Hm. rewrite semaphore_limit in Hi by done. apply accounted_bound in Hi. lia.
  - intros Hp. apply accounted_available in Hi.
    assert (is_Some (quic_step PermitAcquired a) ↔ is_Some (acquire (q_permits a))) as ->.
    { cbn. rewrite Hp. destruct (acquire (q_permits a)) as [[free permit]|]; split; intros [? ?]; by eauto. }
    rewrite Hi. unfold semaphore_new. destruct (0 <? max_connections) eqn:Hm; zbool; [lia|]. split; [lia|done].
Qed.

(** An AnyTLS server starts only with a listen address that parses, TLS material and
    a padding scheme that are valid, and with a socket that is bound and listening,
    made by exactly these calls.  Otherwise the error is returned: with no call made
    when it is the configuration's, else that of the call that failed, the last made. *)
Theorem anytls_start_reported {file cert key keypair params config quic : Type}
    `{!TlsLib file cert key keypair params config quic} (md5 sha256 : bytes → bytes) (c : AnyTlsServerConfig)
    (k k' : System) (r : res (AnyTlsServer config)) :
  anytls_run_server md5 sha256 c k = (r, k') →
  (k' = k ∧ is_ok r = false) ∨
  (∃ addr material pad,
     parse_socket_addr (as_listen c) = Some addr ∧
     from_files (as_cert c) (as_key c) (str "anytls") = Ok material ∧
     server_padding md5 (as_padding_scheme c) = Ok pad ∧
     let cs := CSocket (is_ipv6_addr addr) STREAM :: listener_calls addr (length (calls k)) in
     (r = Ok (MkAnyTlsServer (server_config material)
                (handler_new sha256 (as_users c) pad (as_udp_enabled c) (as_fallback c))
                (semaphore_new (as_max_connections c)) (length (calls k))) ∧ made cs k k') ∨
     (∃ e cs1 d cs2, r = Err e ∧ cs = cs1 ++ d :: cs2 ∧ made (cs1 ++ [d]) k k' ∧
        failure k (length (calls k) + length cs1) = Some e)).
Proof.
  unfold anytls_run_server, listen_address. intros Hr. rewrite !M_bind_eq in Hr. cbn [lift] in Hr.
  destruct (parse_socket_addr (as_listen c)) as [addr|] eqn:Ea; [|injection Hr as <- <-; by left].
  rewrite M_bind_eq in Hr. cbn [lift] in Hr.
  destruct (from_files _ _ _) as [material| | |] eqn:Em; [|injection Hr as <- <-; by left..].
  rewrite M_bind_eq in Hr. cbn [lift] in Hr.
  destruct (server_padding md5 _) as [pad| | |] eqn:Ep; [|injection Hr as <- <-; by left..].
  rewrite M_bind_eq, new_tcp_listener_eq in Hr. right. exists addr, material, pad. split_and!; try done.
  destruct (handle_calls _ _ k) as [r1 k1] eqn:El. apply handle_calls_spec in El as [[-> Hm]|(e & cs1 & d & cs2 & -> & Hx)];
    injection Hr as <- <-; [by left|right; eauto 10].
Qed.

(** C40: a Hysteria2 server is reported as started before its socket is made: starting
    makes no call on the system, and when its socket cannot be made or bound the task
    panics, which nobody is told of. *)
Theorem hysteria_bind_failure_hidden {file cert key keypair params config quic K : Type}
    `{!TlsLib file cert key keypair params config quic} `{SocketSys K} (endpoint_new : TransportConfig → nat → M K unit)
    (c : Hysteria2ServerConfig) (s : Hysteria2Server quic) (k k' : K) :
  hysteria_run_server c k = (Ok s, k') →
  k' = k ∧ ∀ k1 e k2,
    new_socket2_udp_socket_with_buffer_size (is_ipv6_addr (h2_bind s)) (Some (h2_bind s)) true (Some 8625000) k1 =
      (Err e, k2) →
    panics (hysteria_listen endpoint_new s k1).1 = true ∧ (hysteria_listen endpoint_new s k1).2 = k2.
Proof.
  intros Hr. split.
  - unfold hysteria_run_server in Hr. rewrite !M_bind_eq in Hr. cbn [lift] in Hr.
    destruct (listen_address _); try done. rewrite M_bind_eq in Hr. cbn [lift] in Hr.
    destruct (from_files _ _ _); try done. rewrite M_bind_eq in Hr. cbn [lift] in Hr.
    destruct (into_quic _); try done. by injection Hr as _ <-.
  - intros k1 e k2 Hs. destruct hysteria_transport_ok as (t & _ & _ & Ht & _).
    assert (unwrap (lift hysteria_transport) k1 = (Ok t, k1)) as Hu by (unfold unwrap, lift; by rewrite Ht).
    assert (unwrap (new_socket2_udp_socket_with_buffer_size (is_ipv6_addr (h2_bind s)) (Some (h2_bind s)) true
      (Some 8625000)) k1 = (Panic "called `Result::unwrap()` on an `Err` value", k2)) as Hsock
      by (unfold unwrap; by rewrite Hs).
    unfold hysteria_listen. by rewrite (M_bind_ok _ _ _ _ _ Hu), M_bind_eq, Hsock.
Qed.

(** ** Runs *)

Definition demo_events : list accept_event :=
  [Acquired; Accepted 0; Acquired; AcceptFailed; Acquired; Accepted 1; HandshakeDone 0; HandshakeElapsed 1].
Definition demo_accept : option (acceptor System) := accept_run demo_events (accept_start 2 (MkSystem [] (fun _ => None))).

Lemma anytls_connection_limit_witness :
  ∃ a, demo_accept = Some a ∧ Z.of_nat (length (tasks a)) ≤ 2 ∧ is_Some (accept_step Acquired a).
Proof.
  destruct demo_accept as [a|] eqn:E; [|discriminate E].
  destruct (anytls_connection_limit 2 (MkSystem [] (fun _ => None)) demo_events a E) as [Hl Hp].
  exists a. split_and!; [done|by apply Hl|]. injection E as <-. apply Hp; [reflexivity|]. intros _. reflexivity.
Defined.

Lemma hysteria_connection_limit_witness :
  ∃ a, quic_run [Incoming; PermitAcquired; Incoming] (quic_start 1) = Some a ∧
    Z.of_nat (length (q_tasks a)) ≤ 1 ∧ quic_step PermitAcquired a = None.
Proof.
  destruct (quic_run [Incoming; PermitAcquired; Incoming] (quic_start 1)) as [a|] eqn:E; [|discriminate E].
  destruct (hysteria_connection_limit 1 _ a E) as [Hl Hp].
  exists a. split_and!; [done|by apply Hl|]. injection E as <-. reflexivity.
Defined.

(** A library whose files hold one certificate and a key. *)
#[export] Instance Demo_tls : TlsLib bytes unit unit unit unit (list bytes) (list bytes) := {|
  file_open p := if decide (p = []) then Err (io_err Other "no such file") else Ok p;
  pem_certs _ := Ok [tt];
  pem_private_key _ := Ok (Some tt);
  keypair_generate := Ok tt;
  params_new _ := Ok tt;
  set_no_ca p := p;
  set_common_name _ p := p;
  self_signed _ _ := Ok tt;
  key_of_pair _ := Ok tt;
  safe_versions := Ok tt;
  single_cert _ _ := Ok [];
  set_alpn l _ := l;
  quic_config c := Ok c |}.

Definition demo_anytls : AnyTlsServerConfig :=
  MkAnyTlsConfig (str "[::1]:8443") None None true [] None None 4096.
Definition demo_busy : System :=
  MkSystem [] (fun n => if (n =? 3)%nat then Some (io_err Other "address in use") else None).
Definition demo_start := anytls_run_server (fun _ => []) (fun _ => []) demo_anytls demo_busy.

Lemma demo_start_failed : demo_start.1 = Err (io_err Other "address in use") ∧ length (calls demo_start.2) = 4%nat.
Proof. vm_compute. done. Qed.

Lemma anytls_start_reported_witness :
  ∃ e cs1 d, demo_start.1 = Err e ∧ made (cs1 ++ [d]) demo_busy demo_start.2.
Proof.
  destruct demo_start_failed as [Hr Hk].
  destruct (anytls_start_reported (fun _ => []) (fun _ => []) demo_anytls demo_busy demo_start.2 demo_start.1
    (surjective_pairing _)) as [[Hx _]|(addr & m & pad & _ & _ & _ & [[Hx _]|(e & cs1 & d & _ & Hx & _ & Hm & _)])].
  - rewrite Hx in Hk. discriminate Hk.
  - rewrite Hr in Hx. discriminate Hx.
  - exists e, cs1, d. by split.
Defined.

Definition demo_hysteria : Hysteria2ServerConfig :=
  MkHysteria2Config (str "0.0.0.0:443") (str "secret") true None None [] 0.
Definition demo_hysteria_server : Hysteria2Server (list bytes) :=
  MkHysteria2Server [str "h3"] (str "secret") true None (SocketV4 (Ipv4 0) 443).

Lemma demo_hysteria_started : hysteria_run_server demo_hysteria demo_busy = (Ok demo_hysteria_server, demo_busy).
Proof. vm_compute. reflexivity. Qed.

Lemma hysteria_bind_failure_hidden_witness :
  panics (hysteria_listen (fun _ _ => mret tt) demo_hysteria_server
    (MkSystem [] (fun _ => Some (io_err Other "denied")))).1 = true.
Proof.
  refine (proj1 (proj2 (hysteria_bind_failure_hidden (fun _ _ => mret tt) demo_hysteria demo_hysteria_server demo_busy demo_busy
    demo_hysteria_started) (MkSystem [] (fun _ => Some (io_err Other "denied"))) (io_err Other "denied")
    (MkSystem [CSocket false DGRAM] (fun _ => Some (io_err Other "denied"))) _)).
  reflexivity.
Defined.
