(* ===== verification/Main.v ===== *)
(** * Configuration and entry point (src/config.rs, src/main.rs)

    Options, configuration, the start of the servers and their end, with what is
    printed and logged on the way.  Reading files and the YAML grammar are parameters:
    what serde hands to the derived code is a document whose optional fields may be
    missing.  So are the tasks that are aborted at the end and the pause after that. *)

From Stdlib Require Import String.
From S2P Require Import Prelude RustStd Address AsyncStream LruCache Resolver Padding Dial TlsConfig AnyTlsServer Servers.

(** ** Configuration *)

Definition DEFAULT_MAX_CONNECTIONS : Z := 4096.
Definition DEFAULT_TCP_CONGESTION : bytes := str "bbr".
Definition default_log_level : bytes := str "info".

Record Hysteria2Config : Type := MkHysteria2 {
  hc_listen : bytes; hc_password : bytes; hc_udp_enabled : bool; hc_cert : option bytes;
  hc_key : option bytes; hc_alpn : list bytes; hc_max_connections : Z }.

Record AnyTlsUser : Set := MkUser { user_name : bytes; user_password : bytes }.

Record AnyTlsConfig : Type := MkAnyTls {
  ac_listen : bytes; ac_cert : option bytes; ac_key : option bytes; ac_udp_enabled : bool;
  ac_users : list AnyTlsUser; ac_padding_scheme : option bytes; ac_fallback : option NetLocation;
  ac_max_connections : Z }.

Inductive ServerConfig : Type :=
| Hysteria2 (c : Hysteria2Config)
| Anytls (c : AnyTlsConfig).

Record Config : Type := MkConfig {
  log_level : bytes; servers : list ServerConfig; config_tcp_congestion : bytes }.

(** A document: fields with a default may be missing. *)
Inductive server_doc : Type :=
| Hysteria2Doc (listen password : bytes) (udp_enabled : option bool) (cert key : option bytes)
    (alpn : option (list bytes)) (max_connections : option Z)
| AnytlsDoc (listen : bytes) (cert key : option bytes) (udp_enabled : option bool)
    (users : option (list AnyTlsUser)) (padding_scheme : option bytes) (fallback : option bytes)
    (max_connections : option Z).

Record config_doc : Type := MkDoc {
  doc_log_level : option bytes; doc_servers : option (list server_doc); doc_tcp_congestion : option bytes }.

Definition server_of_doc (d : server_doc) : res ServerConfig :=
  match d with
  | Hysteria2Doc listen password udp cert key alpn max =>
      Ok (Hysteria2 (MkHysteria2 listen password (default true udp) cert key (default [] alpn)
                       (default DEFAULT_MAX_CONNECTIONS max)))
  | AnytlsDoc listen cert key udp users scheme fallback max =>
      fb ← match fallback with
           | Some s => l ← netloc_deserialize s; Ok (Some l)
           | None => Ok None
           end;
      Ok (Anytls (MkAnyTls listen cert key (default true udp) (default [] users) scheme fb
                    (default DEFAULT_MAX_CONNECTIONS max)))
  end.

Fixpoint servers_of_docs (ds : list server_doc) : res (list ServerConfig) :=
  match ds with
  | [] => Ok []
  | d :: ds => s ← server_of_doc d; ss ← servers_of_docs ds; Ok (s :: ss)
  end.

Definition config_of_doc (d : config_doc) : res Config :=
  ss ← servers_of_docs (default [] (doc_servers d));
  Ok (MkConfig (default default_log_level (doc_log_level d)) ss
        (default DEFAULT_TCP_CONGESTION (doc_tcp_congestion d))).

(** [Config::load]. *)
Definition load (read_to_string : bytes → res bytes) (yaml : bytes → res config_doc) (path : bytes) : res Config :=
  contents ← map_err (fun e => IoError (err_kind e) (str "failed to read config " ++ path ++ str ": " ++ err_msg e))
               (read_to_string path);
  map_err (fun e => IoError Other (str "failed to parse config " ++ path ++ str ": " ++ err_msg e))
    (d ← yaml contents; config_of_doc d).

(** ** Options *)

Inductive LevelFilter : Set := Off | Error | Warn | Info | Debug | Trace.

Definition to_ascii_lowercase (s : bytes) : bytes :=
  (fun b => if between 65 90 b then z2b (b2z b + 32) else b) <$> s.

(** ** The console *)

Inductive line : Type := Out (s : bytes) | ErrOut (s : bytes) | Logged (level : LevelFilter) (s : bytes).

Definition severity (l : LevelFilter) : nat :=
  match l with Off => 0 | Error => 1 | Warn => 2 | Info => 3 | Debug => 4 | Trace => 5 end%nat.

Section Console.
Context {K : Type}.

Definition say (l : line) : M (K * list line) unit := modify (fun '(k, out) => (k, out ++ [l])).

(** A message is written when the filter lets its level through. *)
Definition log (filter_level level : LevelFilter) (s : bytes) : M (K * list line) unit :=
  if (severity level <=? severity filter_level)%nat then say (Logged level s) else mret tt.

Definition on_system {A} (m : M K A) : M (K * list line) A := fun '(k, out) =>
  let '(r, k) := m k in (r, (k, out)).

Fixpoint say_all (ls : list line) : M (K * list line) unit :=
  match ls with [] => mret tt | l :: ls => say l ;; say_all ls end.
End Console.

(** A level that is not known is reported, in lower case, and taken for [Info]. *)
Definition parse_log_level {K} (level : bytes) : M (K * list line) LevelFilter :=
  let l := to_ascii_lowercase level in
  if decide (l = str "trace") then mret Trace
  else if decide (l = str "debug") then mret Debug
  else if decide (l = str "info") then mret Info
  else if decide (l = str "warn" ∨ l = str "warning") then mret Warn
  else if decide (l = str "error") then mret Error
  else if decide (l = str "off") then mret Off
  else say (ErrOut (str "Unknown log_level '" ++ l ++ str "', using info")) ;; mret Info.

Definition usage (arg0 : bytes) : list line :=
  ErrOut <$> [arg0 ++ str " [OPTIONS]"; []; str "OPTIONS:";
    str "    -c, --config PATH   Path to the YAML config file (default: config.yaml)";
    str "    -d, --dry-run       Parse the config and exit";
    str "    -h, --help          Print this help and exit"; [];
    str "Supported server types: hysteria2, anytls"].

(** The loop over the arguments after the first; [inr] prints a message, if there is
    one, and the usage. *)
Fixpoint parse_args (args : list bytes) (config_path : bytes) (dry_run : bool) : bytes * bool + option bytes :=
  match args with
  | [] => inl (config_path, dry_run)
  | a :: rest =>
      if decide (a = str "-c" ∨ a = str "--config") then
        match rest with
        | [] => inr (Some (str "Missing argument for " ++ a))
        | path :: rest => parse_args rest path dry_run
        end
      else if decide (a = str "-d" ∨ a = str "--dry-run") then parse_args rest config_path true
      else if decide (a = str "-h" ∨ a = str "--help") then inr None
      else inr (Some (str "Unknown option: " ++ a))
  end.

(** ** Congestion control *)

(** [char::is_whitespace]: the bytes of the white space a text starts with, if any. *)
Definition ascii_space (b : byte) : bool := between 9 13 b || (b2z b =? 32).
Definition space2 (b0 b1 : byte) : bool := (b2z b0 =? 194) && ((b2z b1 =? 133) || (b2z b1 =? 160)).
Definition space3 (b0 b1 b2 : byte) : bool :=
  (b2z b0 =? 225) && (b2z b1 =? 154) && (b2z b2 =? 128) ||
  (b2z b0 =? 226) && (b2z b1 =? 128) &&
    (between 128 138 b2 || (b2z b2 =? 168) || (b2z b2 =? 169) || (b2z b2 =? 175)) ||
  (b2z b0 =? 226) && (b2z b1 =? 129) && (b2z b2 =? 159) ||
  (b2z b0 =? 227) && (b2z b1 =? 128) && (b2z b2 =? 128).

Definition whitespace_width (s : bytes) : nat :=
  match s with
  | b0 :: b1 :: b2 :: _ =>
      if ascii_space b0 then 1%nat else if space2 b0 b1 then 2%nat else if space3 b0 b1 b2 then 3%nat else 0%nat
  | [b0; b1] => if ascii_space b0 then 1%nat else if space2 b0 b1 then 2%nat else 0%nat
  | [b0] => if ascii_space b0 then 1%nat else 0%nat
  | [] => 0%nat
  end.

(** [str::split_whitespace]: the words, [word] being the one so far. *)
Fixpoint split_whitespace_fuel (fuel : nat) (word s : bytes) : list bytes :=
  match fuel with
  | O => []
  | S fuel =>
      match s with
      | [] => if decide (word = []) then [] else [word]
      | b :: s' =>
          match whitespace_width s with
          | O => split_whitespace_fuel fuel (word ++ [b]) s'
          | n => (if decide (word = []) then [] else [word]) ++ split_whitespace_fuel fuel [] (drop n s)
          end
      end
  end.
Definition split_whitespace (s : bytes) : list bytes := split_whitespace_fuel (S (length s)) [] s.

(** [str::trim]. *)
Fixpoint trim_start_fuel (fuel : nat) (s : bytes) : bytes :=
  match fuel with
  | O => s
  | S fuel => match whitespace_width s with O => s | n => trim_start_fuel fuel (drop n s) end
  end.
Definition trim_start (s : bytes) : bytes := trim_start_fuel (length s) s.
Fixpoint trim_end (s : bytes) : bytes :=
  match s with
  | [] => []
  | b :: s' => if decide (trim_start s = []) then [] else b :: trim_end s'
  end.
Definition trim (s : bytes) : bytes := trim_end (trim_start s).

Definition CONGESTION_CONTROLS : bytes := str "/proc/sys/net/ipv4/tcp_available_congestion_control".

Definition read_available_congestion_controls (read_to_string : bytes → res bytes) : list bytes :=
  match read_to_string CONGESTION_CONTROLS with
  | Ok s => filter (fun w => w ≠ []) (trim <$> split_whitespace s)
  | _ => []
  end.

(** ** The entry point *)

Definition log_congestion_control_diagnostics {K} `{SocketSys K} (read_to_string : bytes → res bytes)
    (filter_level : LevelFilter) (algo : bytes) : M (K * list line) unit :=
  if decide (algo = [])
  then log filter_level Info (str "TCP congestion control: system default (not configured)")
  else
    log filter_level Info (str "TCP congestion control configured: " ++ algo) ;;
    (let available := read_available_congestion_controls read_to_string in
     if decide (available = []) then mret tt
     else log filter_level Info (str "Available congestion controls: " ++ join (str ", ") available)) ;;
    probed ← on_system (probe_tcp_congestion_available algo);
    (if probed : bool
     then log filter_level Info (str "TCP congestion control '" ++ algo ++
       str "' is available and will be applied to outbound connections")
     else log filter_level Warn (str "TCP congestion control '" ++ algo ++
       str "' is NOT available on this system! Outbound connections will use the system default. Load it with: modprobe tcp_" ++
       algo)).

Definition hysteria_config (c : Hysteria2Config) : Hysteria2ServerConfig :=
  MkHysteria2Config (hc_listen c) (hc_password c) (hc_udp_enabled c) (hc_cert c) (hc_key c) (hc_alpn c)
    (hc_max_connections c).

Definition anytls_config (c : AnyTlsConfig) : AnyTlsServerConfig :=
  MkAnyTlsConfig (ac_listen c) (ac_cert c) (ac_key c) (ac_udp_enabled c)
    ((fun u => (user_name u, user_password u)) <$> ac_users c) (ac_padding_scheme c) (ac_fallback c)
    (ac_max_connections c).

Inductive handle (config quic : Type) : Type :=
| HysteriaHandle (s : Hysteria2Server quic)
| AnytlsHandle (s : AnyTlsServer config).
Arguments HysteriaHandle {config quic} _.
Arguments AnytlsHandle {config quic} _.

(** What is printed for a server before it is started. *)
Definition show_bool (b : bool) : bytes := if b then str "true" else str "false".
Definition server_line (s : ServerConfig) : line :=
  Out match s with
      | Hysteria2 cfg => str "hysteria2 server: listen=" ++ hc_listen cfg ++ str " udp_enabled=" ++ show_bool (hc_udp_enabled cfg)
      | Anytls cfg => str "anytls server: listen=" ++ ac_listen cfg ++ str " users=" ++ dec (Z.of_nat (length (ac_users cfg))) ++
          str " udp_enabled=" ++ show_bool (ac_udp_enabled cfg)
      end.

(** How the program ends, or that it runs, with a resolver and its servers. *)
Inductive outcome (C config quic : Type) : Type :=
| Usage
| Exit (code : Z)
| ConfigOk
| Running (resolver : Resolver (C := C)) (handles : list (handle config quic))
| Stopped.
Arguments Usage {C config quic}.
Arguments Exit {C config quic} _.
Arguments ConfigOk {C config quic}.
Arguments Running {C config quic} _ _.
Arguments Stopped {C config quic}.

Section Main.
Context {file cert key keypair params config quic K C : Type}
  `{!TlsLib file cert key keypair params config quic} `{SocketSys K} `{!Lru bytes CacheEntry C}.
Context (md5 sha256 : bytes → bytes) (read_to_string : bytes → res bytes) (yaml : bytes → res config_doc).
(** The tasks of the servers, and time. *)
Context (abort : handle config quic → K → K) (sleep : Z → K → K).
Abbreviation Host := (K * list line)%type.

Definition start_server (s : ServerConfig) : M K (handle config quic) :=
  match s with
  | Hysteria2 cfg => s ← hysteria_run_server (hysteria_config cfg); mret (HysteriaHandle s)
  | Anytls cfg => s ← anytls_run_server md5 sha256 (anytls_config cfg); mret (AnytlsHandle s)
  end.

Definition start_failure (s : ServerConfig) : bytes :=
  match s with
  | Hysteria2 _ => str "Failed to start hysteria2 server: "
  | Anytls _ => str "Failed to start anytls server: "
  end.

(** [None] when a server cannot be started: the process exits. *)
Fixpoint start_servers (filter_level : LevelFilter) (ss : list ServerConfig)
    : M Host (option (list (handle config quic))) := fun h =>
  match ss with
  | [] => (Ok (Some []), h)
  | s :: ss =>
      match on_system (start_server s) h with
      | (Ok server, h) =>
          match start_servers filter_level ss h with
          | (Ok (Some hs), h) => (Ok (Some (server :: hs)), h)
          | x => x
          end
      | (Err e, h) => (Ok None, (log filter_level Error (start_failure s ++ err_msg e) h).2)
      | (Panic w, h) => (Panic w, h)
      | (OutOfFuel, h) => (OutOfFuel, h)
      end
  end.

(** The end: every server's task is aborted, and what it started is given a moment. *)
Definition stop_all (filter_level : LevelFilter) (hs : list (handle config quic)) : M Host unit :=
  log filter_level Info (str "Received Ctrl+C, shutting down...") ;;
  modify (fun '(k, out) => (sleep (200 * 10 ^ 6) (foldl (fun k h => abort h k) k hs), out)) ;;
  log filter_level Info (str "Shutdown complete").

(** [ctrl_c]: what waiting for Ctrl+C gives, [None] while it is not pressed. *)
Definition main (ctrl_c : option (res unit)) (args : list bytes) : M Host (outcome C config quic) :=
  match args with
  | [] => lift (Panic "index out of bounds")
  | arg0 :: args =>
      match parse_args args (str "config.yaml") false with
      | inr message => say_all (option_list (ErrOut <$> message)) ;; say_all (usage arg0) ;; mret Usage
      | inl (config_path, dry_run) =>
          match load read_to_string yaml config_path with
          | Ok config =>
              filter_level ← parse_log_level (log_level config);
              log_congestion_control_diagnostics read_to_string filter_level (config_tcp_congestion config) ;;
              if decide (length (servers config) = 0%nat)
              then say (ErrOut (str "No servers configured in " ++ config_path)) ;; mret (Exit 1)
              else
                say_all (server_line <$> servers config) ;;
                if (dry_run : bool) then say (Out (str "Config OK")) ;; mret ConfigOk
                else
                  hs ← start_servers filter_level (servers config);
                  match hs with
                  | None => mret (Exit 1)
                  | Some hs =>
                      log filter_level Info (str "Started " ++ dec (Z.of_nat (length hs)) ++
                        str " server(s). Press Ctrl+C to stop.") ;;
                      match ctrl_c with
                      | None => mret (Running (with_tcp_congestion (config_tcp_congestion config)) hs)
                      | Some (Ok _) => stop_all filter_level hs ;; mret Stopped
                      | Some _ => lift (Panic "failed to listen for Ctrl+C")
                      end
                  end
          | Err e => say (ErrOut (err_msg e)) ;; mret (Exit 1)
          | Panic w => lift (Panic w)
          | OutOfFuel => lift OutOfFuel
          end
      end
  end.
End Main.

(** ** Lemmas *)

(** The options that are understood, and how they are written. *)
Inductive option_arg : Set := ConfigPath (long : bool) (path : bytes) | DryRun (long : bool).

Definition render (o : option_arg) : list bytes :=
  match o with
  | ConfigPath long path => [if long then str "--config" else str "-c"; path]
  | DryRun long => [if long then str "--dry-run" else str "-d"]
  end.

Definition apply_option (st : bytes * bool) (o : option_arg) : bytes * bool :=
  match o with ConfigPath _ path => (path, st.2) | DryRun _ => (st.1, true) end.

Lemma parse_args_render os path dry :
  parse_args (concat (render <$> os)) path dry = inl (foldl apply_option (path, dry) os).
Proof.
  revert path dry. induction os as [|o os IH]; intros path dry; [done|].
  cbn [fmap list_fmap concat foldl]. destruct o as [long p|long]; cbn [render app parse_args apply_option fst snd].
  - rewrite decide_True by (destruct long; auto). apply IH.
  - destruct long; (rewrite decide_False by (vm_compute; naive_solver)); (rewrite decide_True by auto); apply IH.
Qed.

Lemma parse_args_inv n args path dry st :
  (length args ≤ n)%nat → parse_args args path dry = inl st →
  ∃ os, args = concat (render <$> os) ∧ st = foldl apply_option (path, dry) os.
Proof.
  revert args path dry. induction n as [|n IH]; intros [|a rest] path dry Hn Hp; cbn [length] in Hn; try lia.
  1,2: injection Hp as <-; by exists [].
  cbn [parse_args] in Hp. case_decide as Hc; [|case_decide as Hd; [|by case_decide]].
  - destruct rest as [|p rest]; [done|]. cbn [length] in Hn.
    destruct (IH rest p dry ltac:(lia) Hp) as (os & -> & ->).
    destruct Hc as [->| ->]; [exists (ConfigPath false p :: os)|exists (ConfigPath true p :: os)]; done.
  - destruct (IH rest path true ltac:(lia) Hp) as (os & -> & ->).
    destruct Hd as [->| ->]; [exists (DryRun false :: os)|exists (DryRun true :: os)]; done.
Qed.

(** The calls of a probe: a socket, and the option set on it. *)
Definition probing (algo : bytes) (c : syscall) : Prop :=
  c = CSocket false STREAM ∨ ∃ fd, c = CCongestion algo fd.

(** ** The congestion controls the kernel lists *)

Definition word_byte (b : byte) : Prop := b2z b < 128 ∧ ascii_space b = false.
Definition is_word (w : bytes) : Prop := w ≠ [] ∧ Forall word_byte w.

Lemma width_word b s : word_byte b → whitespace_width (b :: s) = 0%nat.
Proof.
  intros [Hb Hs]. assert (∀ n, 128 ≤ n → (b2z b =? n) = false) as Hn by (intros n ?; apply Z.eqb_neq; lia).
  unfold whitespace_width, space2, space3. destruct s as [|b1 [|b2 s]]; rewrite Hs, ?Hn by lia; done.
Qed.

Lemma width_space b s : ascii_space b = true → whitespace_width (b :: s) = 1%nat.
Proof. intros Hb. unfold whitespace_width. destruct s as [|b1 [|b2 s]]; by rewrite Hb. Qed.

Lemma split_word fuel w word s :
  Forall word_byte w → split_whitespace_fuel (length w + fuel) word (w ++ s) = split_whitespace_fuel fuel (word ++ w) s.
Proof.
  intros Hw. revert word. induction Hw as [|b w Hb _ IH]; intros word; [by rewrite app_nil_r|].
  cbn [length Nat.add split_whitespace_fuel app]. rewrite width_word by done. rewrite IH, <-app_assoc. done.
Qed.

Lemma trim_word w : Forall word_byte w → trim w = w.
Proof.
  assert (∀ w, Forall word_byte w → trim_start w = w) as Hstart.
  { intros v Hv. unfold trim_start. destruct Hv as [|b v Hb _]; [done|]. cbn [length trim_start_fuel]. by rewrite width_word. }
  intros Hw. unfold trim. rewrite Hstart by done. induction Hw as [|b w Hb Hw IH]; [done|]. cbn [trim_end].
  rewrite Hstart by (by constructor). by rewrite decide_False, IH by done.
Qed.

(** Words between single spaces, with a line feed at the end, as the kernel writes them. *)
Lemma split_words ws fuel :
  Forall is_word ws → (length (join [x20] ws) + 2 ≤ fuel)%nat →
  split_whitespace_fuel fuel [] (join [x20] ws ++ [x0a]) = ws.
Proof.
  intros Hws. revert fuel. induction Hws as [|w ws [Hne Hw] Hws IH]; intros fuel Hf.
  { destruct fuel as [|[|fuel]]; cbn in Hf; [lia..|]. reflexivity. }
  destruct ws as [|w2 ws].
  - cbn [join] in *. replace fuel with (length w + (fuel - length w))%nat by lia. rewrite split_word by done.
    destruct (fuel - length w)%nat as [|[|f]] eqn:Ef; [lia..|]. cbn [app split_whitespace_fuel].
    rewrite width_space by done. by rewrite decide_False.
  - change (join [x20] (w :: w2 :: ws)) with (w ++ [x20] ++ join [x20] (w2 :: ws)) in *.
    rewrite !length_app in Hf. cbn [length] in Hf. rewrite <-!app_assoc.
    replace fuel with (length w + (fuel - length w))%nat by lia. rewrite split_word by done.
    destruct (fuel - length w)%nat as [|f] eqn:Ef; [lia|]. cbn [app split_whitespace_fuel].
    rewrite width_space by done. rewrite decide_False by done. cbn [drop app]. f_equal. apply IH. lia.
Qed.

Lemma congestion_controls_listed read_to_string ws :
  read_to_string CONGESTION_CONTROLS = Ok (join [x20] ws ++ [x0a]) → Forall is_word ws →
  read_available_congestion_controls read_to_string = ws.
Proof.
  intros Hr Hws. unfold read_available_congestion_controls, split_whitespace. rewrite Hr.
  rewrite split_words; [|done|rewrite length_app; cbn [length]; lia].
  clear Hr. induction Hws as [|w ws [Hne Hw] _ IH]; [done|]. rewrite fmap_cons, filter_cons, trim_word, decide_True by done.
  by rewrite IH.
Qed.

(** ** The entry point *)

(** The console takes what is said. *)
Lemma log_ok {K} fl l s (k : K) out : ∃ out', log fl l s (k, out) = (Ok tt, (k, out')).
Proof. unfold log. destruct (_ <=? _)%nat; by eexists. Qed.

Lemma say_all_eq {K} ls (k : K) out : say_all ls (k, out) = (Ok tt, (k, out ++ ls)).
Proof.
  revert out. induction ls as [|l ls IH]; intros out; cbn [say_all]; [by rewrite app_nil_r|].
  rewrite M_bind_eq. cbn [say modify]. by rewrite IH, <-app_assoc.
Qed.

Lemma parse_log_level_ok {K} level (k : K) out : ∃ fl out', parse_log_level level (k, out) = (Ok fl, (k, out')).
Proof. unfold parse_log_level. cbv zeta. repeat (case_decide; [by eexists _, _|]). by eexists _, _. Qed.

Lemma on_system_eq {K A} (m : M K A) k out : on_system m (k, out) = ((m k).1, ((m k).2, out)).
Proof. unfold on_system. by destruct (m k). Qed.

Lemma probe_spec algo k :
  ∃ b cs k', probe_tcp_congestion_available algo k = (Ok b, k') ∧ made cs k k' ∧ Forall (probing algo) cs.
Proof.
  unfold probe_tcp_congestion_available. cbn [socket_new set_congestion System_sockets].
  destruct (record_call_spec (CSocket false STREAM) k) as (k1 & Hm1 & [[_ ->]|(e & _ & ->)]).
  - destruct (call_spec (CCongestion algo (length (calls k))) k1) as (k2 & Hm2 & [[_ ->]|(e & _ & ->)]);
      eexists _, _, k2; (split_and!; [done|by eapply made_trans|]);
      (constructor; [by left|constructor; [right; by eexists|constructor]]).
  - eexists _, _, k1. split_and!; [done|exact Hm1|]. constructor; [by left|constructor].
Qed.

Lemma diagnostics_spec rd fl algo k out :
  ∃ cs k' out', log_congestion_control_diagnostics rd fl algo (k, out) = (Ok tt, (k', out')) ∧
    made cs k k' ∧ Forall (probing algo) cs.
Proof.
  unfold log_congestion_control_diagnostics. case_decide.
  { destruct (log_ok fl Info (str "TCP congestion control: system default (not configured)") k out) as [out' ->].
    exists [], k, out'. split_and!; [done|apply made_nil|constructor]. }
  match goal with |- context [log fl Info ?m ;; _] => destruct (log_ok fl Info m k out) as [o1 E1] end.
  rewrite (M_bind_ok _ _ _ _ _ E1). cbv zeta.
  assert (∃ o2, (if decide (read_available_congestion_controls rd = []) then mret tt
    else log fl Info (str "Available congestion controls: " ++ join (str ", ") (read_available_congestion_controls rd)))
      (k, o1) = (Ok tt, (k, o2))) as [o2 E2] by (case_decide; [by eexists|apply log_ok]).
  rewrite (M_bind_ok _ _ _ _ _ E2).
  destruct (probe_spec algo k) as (b & cs & k' & Hp & Hm & Hf).
  rewrite M_bind_eq, on_system_eq, Hp. cbn [fst snd].
  destruct b; match goal with |- context [log fl ?l ?m] => destruct (log_ok fl l m k' o2) as [o3 ->] end;
    exists cs, k', o3; by split_and!.
Qed.

Section MainLemmas.
Context {file cert key keypair params config quic K : Type}
  `{!TlsLib file cert key keypair params config quic} `{SocketSys K}.
Context (md5 sha256 : bytes → bytes).

(** One server after the other, each started by its own [run_server]. *)
Inductive started : list ServerConfig → K → list (handle config quic) → K → Prop :=
| started_nil k : started [] k [] k
| started_cons s ss k h k1 hs k2 :
    start_server md5 sha256 s k = (Ok h, k1) → started ss k1 hs k2 → started (s :: ss) k (h :: hs) k2.

Lemma start_servers_spec fl ss (k : K) out r k' out' :
  start_servers md5 sha256 fl ss (k, out) = (r, (k', out')) →
  (∃ hs, r = Ok (Some hs) ∧ started ss k hs k') ∨
  (∃ ss1 s ss2 hs k1, ss = ss1 ++ s :: ss2 ∧ started ss1 k hs k1 ∧
     (∃ x, start_server md5 sha256 s k1 = (x, k') ∧
        match x with Ok _ => False | Err _ => r = Ok None | Panic w => r = Panic w | OutOfFuel => r = OutOfFuel end)).
Proof.
  revert k out r k' out'. induction ss as [|s ss IH]; intros k out r k' out' Hr; cbn [start_servers] in Hr.
  { injection Hr as <- <- <-. left. eexists. split; [done|constructor]. }
  rewrite on_system_eq in Hr. destruct (start_server md5 sha256 s k) as [x k1] eqn:Es. cbn [fst snd] in Hr.
  destruct x as [h|e|w|].
  2: { destruct (log_ok fl Error (start_failure s ++ err_msg e) k1 out) as [o1 E1]. rewrite E1 in Hr.
       injection Hr as <- <- <-. right. exists [], s, ss, [], k. split_and!; [done|constructor|eexists; by split]. }
  2,3: injection Hr as <- <- <-; right; exists [], s, ss, [], k; split_and!; [done|constructor|eexists; by split].
  destruct (start_servers md5 sha256 fl ss (k1, out)) as [r1 [k2 out2]] eqn:E.
  destruct (IH _ _ _ _ _ E) as [(hs & -> & Hs)|(ss1 & s' & ss2 & hs & k3 & -> & Hs & x & Hx & Hm)].
  - injection Hr as <- <- <-. left. eexists. split; [done|by econstructor].
  - right. exists (s :: ss1), s', ss2, (h :: hs), k3. split_and!; [done|by econstructor|].
    exists x. destruct x; try done; subst r1; injection Hr as <- <- <-; done.
Qed.
End MainLemmas.

(** ** Properties *)

(** The command line is understood exactly when it is a sequence of the options, and
    what it means is what the options say from left to right: the last path given, or
    config.yaml, and a dry run if one is asked for anywhere. *)
Theorem args_understood (args : list bytes) (path : bytes) (dry : bool) (st : bytes * bool) :
  parse_args args path dry = inl st ↔
  ∃ os, args = concat (render <$> os) ∧ st = foldl apply_option (path, dry) os.
Proof.
  split; [by apply (parse_args_inv (length args))|]. intros (os & -> & ->). apply parse_args_render.
Qed.

(** A dry run opens no server: whatever the configuration, the only system calls it
    makes are those of the probe for the congestion control, and it does not end with
    servers running. *)
Theorem dry_run_opens_nothing {file cert key keypair params config quic C : Type}
    `{!TlsLib file cert key keypair params config quic} `{!Lru bytes CacheEntry C} (md5 sha256 : bytes → bytes)
    (read_to_string : bytes → res bytes) (yaml : bytes → res config_doc) (abort : handle config quic → System → System)
    (sleep : Z → System → System) (ctrl_c : option (res unit)) (arg0 : bytes) (args : list bytes)
    (path : bytes) (k k' : System) (out out' : list line) (r : res (outcome C config quic)) :
  parse_args args (str "config.yaml") false = inl (path, true) →
  main md5 sha256 read_to_string yaml abort sleep ctrl_c (arg0 :: args) (k, out) = (r, (k', out')) →
  (∃ algo cs, made cs k k' ∧ Forall (probing algo) cs) ∧
  (∀ rv hs, r ≠ Ok (Running rv hs)).
Proof.
  intros Ha Hr. unfold main in Hr. rewrite Ha in Hr.
  assert (∃ algo cs, made cs k k ∧ Forall (probing algo) cs) as Hnone
    by (exists [], []; split; [apply made_nil|constructor]).
  destruct (load _ _ _) as [c|e|w|]; [|by injection Hr as <- <- <-..].
  destruct (parse_log_level_ok (log_level c) k out) as (fl & o1 & E1). rewrite (M_bind_ok _ _ _ _ _ E1) in Hr.
  destruct (diagnostics_spec read_to_string fl (config_tcp_congestion c) k o1) as (cs & k1 & o2 & Hd & Hm & Hp).
  rewrite (M_bind_ok _ _ _ _ _ Hd) in Hr.
  assert (∃ algo cs, made cs k k1 ∧ Forall (probing algo) cs) as Hone by (by exists (config_tcp_congestion c), cs).
  case_decide; [by injection Hr as <- <- <-|]. rewrite (M_bind_ok _ _ _ _ _ (say_all_eq _ k1 o2)) in Hr.
  by injection Hr as <- <- <-.
Qed.

(** C37: the program runs only with every configured server started, in the order of the
    configuration and at least one, and a resolver with the configured congestion
    control; on Ctrl+C the task of every server, and nothing else, is aborted, in that
    order, and the program ends 200 ms later.  When one server cannot be started it
    exits with 1 and those after it are not tried. *)
Theorem main_starts_all {file cert key keypair params config quic C K : Type}
    `{!TlsLib file cert key keypair params config quic} `{!Lru bytes CacheEntry C} `{SocketSys K}
    (md5 sha256 : bytes → bytes) (read_to_string : bytes → res bytes) (yaml : bytes → res config_doc)
    (abort : handle config quic → K → K) (sleep : Z → K → K) (ctrl_c : option (res unit))
    (args : list bytes) (k k' : K) (out out' : list line) (o : outcome C config quic) :
  main md5 sha256 read_to_string yaml abort sleep ctrl_c args (k, out) = (Ok o, (k', out')) →
  match o with
  | Running rv hs => ctrl_c = None ∧ ∃ path c k1,
      load read_to_string yaml path = Ok c ∧ servers c ≠ [] ∧ rv = with_tcp_congestion (config_tcp_congestion c) ∧
      started md5 sha256 (servers c) k1 hs k'
  | Stopped => ctrl_c = Some (Ok tt) ∧ ∃ path c k1 hs k2,
      load read_to_string yaml path = Ok c ∧ servers c ≠ [] ∧ started md5 sha256 (servers c) k1 hs k2 ∧
      k' = sleep (200 * 10 ^ 6) (foldl (fun k h => abort h k) k2 hs)
  | Exit code => code = 1 ∧
      ((∃ path e, load read_to_string yaml path = Err e) ∨
       (∃ path c, load read_to_string yaml path = Ok c ∧
          (servers c = [] ∨ ∃ ss1 s ss2 hs k1 k2 e, servers c = ss1 ++ s :: ss2 ∧
             started md5 sha256 ss1 k1 hs k2 ∧ start_server (quic := quic) md5 sha256 s k2 = (Err e, k'))))
  | Usage | ConfigOk => True
  end.
Proof.
  unfold main. intros Hr. destruct args as [|arg0 args]; [done|].
  destruct (parse_args _ _ _) as [[path dry]|m].
  2: { rewrite (M_bind_ok _ _ _ _ _ (say_all_eq _ k out)), (M_bind_ok _ _ _ _ _ (say_all_eq _ k _)) in Hr.
       by injection Hr as <- _ _. }
  destruct (load _ _ path) as [c|e|w|] eqn:Hl; try done; [|injection Hr as <- _ _; split; [done|]; left; eauto].
  destruct (parse_log_level_ok (log_level c) k out) as (fl & o1 & E1). rewrite (M_bind_ok _ _ _ _ _ E1) in Hr.
  rewrite M_bind_eq in Hr.
  destruct (log_congestion_control_diagnostics _ _ _ (k, o1)) as [[[]|e|w|] [k1 o2]]; try done.
  case_decide as Hn.
  { injection Hr as <- _ _. split; [done|]. right. exists path, c. split; [done|]. left. by destruct (servers c). }
  rewrite (M_bind_ok _ _ _ _ _ (say_all_eq _ k1 o2)) in Hr.
  destruct dry; [by injection Hr as <- _ _|]. rewrite M_bind_eq in Hr.
  assert (servers c ≠ []) as Hne by (intros Hz; by rewrite Hz in Hn).
  destruct (start_servers md5 sha256 fl (servers c) _) as [r2 [k2 o3]] eqn:E.
  apply start_servers_spec in E as [(hs & -> & Hs)|(ss1 & s & ss2 & hs & k3 & Hss & Hs & x & Hx & Hm)].
  - rewrite M_bind_eq in Hr.
    match type of Hr with context [log fl Info ?m] => destruct (log_ok fl Info m k2 o3) as [o4 E4] end. rewrite E4 in Hr.
    destruct ctrl_c as [[[]|e|w|]|]; try done.
    + rewrite M_bind_eq in Hr. unfold stop_all in Hr.
      destruct (log_ok fl Info (str "Received Ctrl+C, shutting down...") k2 o4) as [o5 E5].
      rewrite (M_bind_ok _ _ _ _ _ E5), M_bind_eq in Hr. cbn [modify] in Hr.
      match type of Hr with context [log fl Info ?m (?k, ?o)] => destruct (log_ok fl Info m k o) as [o6 E6] end.
      rewrite E6 in Hr. injection Hr as <- <- _. split; [done|]. by exists path, c, k1, hs, k2.
    + injection Hr as <- <- _. split; [done|]. by exists path, c, k1.
  - destruct x as [|e| |]; subst; try done. injection Hr as <- <- _. split; [done|]. right. exists path, c.
    split; [done|]. right. by exists ss1, s, ss2, hs, k1, k3, e.
Qed.

(** ** Runs *)

Definition demo_doc : config_doc :=
  MkDoc None (Some [Hysteria2Doc (str "0.0.0.0:443") (str "secret") None None None None None;
                    AnytlsDoc (str "[::1]:8443") None None None None None (Some (str "example.org:80")) (Some 0)]) None.
(** Aborting a task and sleeping leave this system as it is. *)
Definition demo_main (ctrl_c : option (res unit)) (args : list bytes) (k : System)
    : res (outcome (MapLru bytes CacheEntry) _ _) * (System * list line) :=
  main (fun _ => []) (fun _ => []) (fun _ => Ok (str "reno cubic bbr")) (fun _ => Ok demo_doc) (fun _ k => k) (fun _ k => k)
    ctrl_c args (k, []).
Definition demo_dry : list bytes := [str "--config"; str "a.yaml"; str "-d"].

Lemma demo_main_eta ctrl_c args k : demo_main ctrl_c args k =
  ((demo_main ctrl_c args k).1, ((demo_main ctrl_c args k).2.1, (demo_main ctrl_c args k).2.2)).
Proof. by destruct (demo_main ctrl_c args k) as [? []]. Qed.

Lemma dry_run_opens_nothing_witness :
  ∃ algo cs, made cs demo_sys (demo_main None (str "server" :: demo_dry) demo_sys).2.1 ∧ Forall (probing algo) cs.
Proof.
  refine (proj1 (dry_run_opens_nothing (C := MapLru bytes CacheEntry) (fun _ => []) (fun _ => [])
    (fun _ => Ok (str "reno cubic bbr")) (fun _ => Ok demo_doc) (fun _ k => k) (fun _ k => k) None (str "server") demo_dry
    (str "a.yaml") demo_sys _ [] _ _ _ (demo_main_eta None (str "server" :: demo_dry) demo_sys))).
  vm_compute. reflexivity.
Defined.

Abbreviation demo_stopped := (demo_main (Some (Ok tt)) [str "server"] (MkSystem [] (fun _ => None))).

Lemma demo_main_stops : demo_stopped.1 = Ok Stopped.
Proof. vm_compute. reflexivity. Qed.

Lemma main_starts_all_witness :
  ∃ path c k1 hs k2, load (fun _ => Ok (str "reno cubic bbr")) (fun _ => Ok demo_doc) path = Ok c ∧
    started (fun _ => []) (fun _ => []) (servers c) k1 hs k2 ∧ demo_stopped.2.1 = k2.
Proof.
  destruct (main_starts_all (C := MapLru bytes CacheEntry) (fun _ => []) (fun _ => []) (fun _ => Ok (str "reno cubic bbr"))
    (fun _ => Ok demo_doc) (fun _ k => k) (fun _ k => k) (Some (Ok tt)) [str "server"] (MkSystem [] (fun _ => None))
    demo_stopped.2.1 [] demo_stopped.2.2 Stopped) as (_ & path & c & k1 & hs & k2 & Hl & _ & Hs & Hk).
  - rewrite <-demo_main_stops. exact (demo_main_eta (Some (Ok tt)) [str "server"] (MkSystem [] (fun _ => None))).
  - exists path, c, k1, hs, k2. split_and!; [exact Hl|exact Hs|]. rewrite Hk. clear. by induction hs.
Defined.
